(* ===== verification/_CoqProject ===== *)
-Q . S2P
Prelude.v
Float64.v
Prog.v
GoStr.v
Model.v
Workload.v
Crypto.v
Collection.v
Conc.v
Tokens.v
Keys.v
ChunkStore.v
ChunkSafe.v
ChunkTransfer.v
Session.v
SessionLife.v
SessionTraffic.v
Network.v
Host.v
Runtime.v
Restorer.v
Chain.v
RestorerSafe.v
RestorerCases.v
Checkpoint.v
Retention.v
LiveChain.v
CheckpointSafe.v
Repository.v
RepositorySafe.v
GC.v
GCSafe.v
Peer.v
PeerServer.v
Migration.v
Upload.v
Durable.v
MigrationHost.v
Routine.v
MigrationSafe.v
MigrationKept.v
MigrationLife.v
MigrationGaps.v
Ownership.v
Fencing.v
Standby.v
StandbySafe.v
Version.v
Release.v
Update.v
Installer.v
InstallerSafe.v
Updates.v
UpdatesSafe.v
Compatibility.v
CompatibilitySafe.v
Placement.v
PlacementSafe.v
Market.v
MarketSafe.v
