(* ===== verification/Prelude.v ===== *)
(** * Verification of the SHIFT migration agent

    SHIFT moves running Linux workloads between machines.  On every machine
    runs an agent ([src/internal/agent], [src/cmd/shift-agent]) made of the
    parts below; a control plane ([src/internal/controlplane]) keeps accounts
    and schedules, and never touches a workload.

    ** The parts and how they interact

    - Durable records.  Every component keeps its records (workloads,
      restores, transfer sessions, migrations) in an encrypted collection: a
      snapshot file and an append-only journal
      ([internal/securestore/collection.go], [internal/persistence]).
    - The key store ([internal/securestore/keys.go]) keeps one data key per
      workload and version, wrapped under master keys.
    - The chunk store ([internal/chunkstore]) keeps content in encrypted,
      content-addressed chunk files that checkpoints share; the collector
      ([internal/gc]) deletes the chunks no checkpoint refers to.
    - The process runtime ([internal/runtime]) owns workload records and the
      processes behind them: start, pause, resume, stop, adoption.
    - The checkpoint service ([internal/checkpoint/service.go], [live.go],
      [repository.go]) freezes a workload through the runtime, dumps it and
      stores a signed manifest with its parent chain; a live session does so
      after pre-copy passes.
    - The restorer ([internal/checkpoint/restore.go]) brings a checkpoint back
      to life as a transaction over the workload's root directory, its
      process and its network reservations.
    - The network layer ([internal/network]) keeps host ports exclusive and
      forwards them to the workload.
    - The peer API ([internal/transfer/server.go], [session.go]) lets another
      agent reserve space, send a key, a manifest and chunks, and restore,
      commit or roll back; [client.go] is the calling side.
    - The migration orchestrator ([internal/migration]) drives the runtime,
      the checkpoint service and the peer API of the destination through the
      stages of a migration, and recovers after a restart.
    - The standby supervisor ([internal/agent/standby.go]) watches the sources
      of the checkpoints another machine replicated here, and restores a
      workload when its source died, after it acquired the ownership from the
      control plane ([internal/controlplane/ownership_routes.go],
      [internal/database/ownership.go]) and fenced the source
      ([internal/fencing]).
    - The update manager ([internal/update]) replaces the agent's binary by
      that of a signed release of a feed when the release suits the machine,
      and rolls back to a preserved one.

    ** Which file models what

    Foundations.  [Prelude]: fallible results, machine integers, record
    update, shared list lemmas and the [shift] hint database.  [Float64]:
    [float64] as the binary floating-point numbers of the Standard Library.
    [Prog]: Hoare triples with a crash condition over programs that read the answers of
    their environment.  [Conc]: handlers as trees of atomic actions, their
    sequential runs (cut off anywhere), their interleavings, and the
    predicates [guarantees], [preserves], [yields] and [completes].
    [Tokens]: invariants of interleavings in which every running handler may
    hold a token for work it has announced and not done.  [GoStr]: the parts
    of [strings], [strconv] and [path/filepath] the code uses.

    Data.  [Model]: the structs and the migration stage machine of
    [internal/model/types.go].  [Workload]: [WorkloadSpec.Normalize] and its
    validators.

    Storage.  [Collection]: [OpenEncryptedCollection], [Put], [Update],
    [Delete], [compact] and [replayJournal], byte by byte and system call by
    system call.  [Crypto]: bytes, hexadecimal, base64, and the interface of
    the primitives with [Derive], [Address], [Encrypt] and [Decrypt] over it.
    [Keys]: the methods of the key [Manager], and the interface [KeyManager]
    with its laws the stores below rely on.  [ChunkStore]: the chunk format
    and the methods of [Store].  [Repository]: the encrypted and signed
    manifests of [checkpoint.Repository] and their index on disk.  [GC]:
    [Plan], [Sweep], [Cancel] and the agent's [handleGC].

    One machine.  [Host]: the state of a machine (process table, directory
    entries, record collections, locks) and the calls on it.  [Runtime]: one
    definition per method of [Manager].  [Network]: [MappingsFor],
    [IdentityFor], [PlanFor], [NATTable] and [Coordinator].  [Restorer]:
    [Prepare], [Commit], [Rollback], [Recover] and the image chains.
    [Checkpoint]: [Create], [BeginLive], [Pass], [Finalize], [Abort], the
    repository, [Delete] and [PruneWorkload].

    Two machines.  [Session]: the session store and every handler of the peer
    API, over the interface [Backend].  [Peer]: the client's calls with
    retries, over the interface [Peer] of a destination and its laws
    [PeerLaws].  [PeerServer]: the peer API as an instance of both.
    [Migration]: the orchestrator as threads on the [world] of two machines
    and its own records; [Orchestrator.run] is [run_migration], in the stages
    [discover], [validate_run], [checkpoint_cold] or [checkpoint_live],
    [prepare_destination], [transfer_state], [switch_over] and [clean_up].

    Failover.  [Ownership]: the ownership table, its statements and its two
    routes.  [Fencing]: the fencing providers, call by call.  [Standby]: the
    supervisor ([ReplicationHeld], [ReplicationWithdrawn], [considerFailover],
    [failover], [tick], [Trigger]) and the agent's standby requests, as
    threads on a [station] that has a host, the duties, the control plane and
    the log of the fencing command.

    Self update.  [Version]: semantic versions ([version.go]).  [Release]:
    releases, feeds, rollouts and the key ring ([release.go], [rollout.go],
    [trust.go]).  [Update]: which release applies ([compatibility.go]).
    [Installer]: [Install] and [Rollback] file operation by file operation
    ([installer.go]).  [Updates]: the manager, its state file and its restarts
    ([manager.go]).

    Destinations.  [Compatibility]: the restore check, its policy and the
    support matrix ([internal/compatibility]).  [Placement]: offers, the
    choice among them and reservations ([internal/scheduler]).  [Market]: the
    tables of machines, offers and reservations with their transactions
    ([internal/database/compute.go]) and the routes around them
    ([internal/controlplane/compute.go]).

    ** What the theorems show

    - [Collection]: reopening gives exactly the acknowledged mutations plus at
      most the one in flight, wherever the process dies and whatever fails but
      for three named calls; and two ways in which these do lose one.
    - [Keys]: no key that was handed out or accepted is ever forgotten, over
      any sequence of operations, failed reads and writes and crashes, as long
      as the keyring can be written and versions do not wrap around; and the
      failed rotation after which keys are lost.
    - [ChunkSafe], [ChunkTransfer]: the chunk format is unambiguous; content
      that was stored, or sent to another machine chunk by chunk, is restored
      byte for byte whatever other writers do in between, and a restore that
      fails has written a prefix of it; and the import that
      breaks a retained checkpoint.
    - [RepositorySafe]: the repository on disk refines the map of manifests of
      [Checkpoint], with crashes.
    - [GCSafe]: a collection beside which nothing writes deletes only what no
      manifest refers to and what was seen unreferenced before, for at least an hour; and the window of a
      live migration in which that is not enough.
    - [Model], [Workload]: the stage machine terminates and is final; the
      public projections carry no secret; an accepted specification is
      confined to its root, and admission is idempotent.
    - [Runtime]: the registry invariant over any sequence of operations and
      crashes; a start leaves one process or none; a stop ends.
    - [RestorerSafe], [Chain], [LiveChain]: a restore cut off anywhere is
      rolled back by recovery, or committed when it was validated; accepted image chains are exactly
      the gapless ones, and live sessions produce them.  [RestorerCases]: runs
      in which something is lost all the same.
    - [CheckpointSafe], [Retention]: outcomes of a checkpoint, the thaw after a
      failure, and that pruning never breaks a lineage it keeps.
    - [Network]: a host port has one owner under every interleaving;
      activation is all or nothing.
    - [Session], [SessionLife], [SessionTraffic]: isolation of sources under
      every interleaving; the byte quotas under every interleaving with
      crashes anywhere; the session life cycle under every interleaving in
      which the manifest, verify, restore and rollback requests are served in
      one go, and the double billing when they are not; who may store chunks.
    - [Durable], [MigrationHost], [Routine], [MigrationSafe], [MigrationKept],
      [MigrationLife]: over any life of a migration (its run and any number of
      restarts, each cut off anywhere; failed calls, lost requests and lost
      answers) the workload never executes in two places as far as the
      destination keeps the laws of [Peer], and the source keeps its processes
      and its record until the destination has committed.  [MigrationLife]
      composes this with [PeerServer], so that both machines are the modelled
      code: the destination keeps the laws when it serves one request at a
      time and its session is not marked failed while a copy runs.  [Upload]:
      the worker pool accounts for every chunk under every schedule.
      [MigrationGaps]: where these guarantees end.
    - [Ownership]: no epoch is granted twice, and a running lease excludes
      everybody else.  [Fencing]: only vetted, unchanged files are run, and
      only a confirmed fence admits a failover.  [StandbySafe]: over restarts
      and interleavings every automatic failover has its grounds, duties are
      well formed and the outcome of a failover is final; and two ways in which a hold of
      another machine breaks the supervision.
    - [Version]: the order of versions, and that printing and parsing agree.
      [Release]: how many keys sign what is trusted, and that a rollout only
      widens.  [Update]: the newest suitable release is selected.
      [InstallerSafe]: an installation cut off anywhere left the old binary,
      or the promised one with the old one preserved, at clocks that have not
      been set back.  [UpdatesSafe]: over any life of a machine what is in
      place was there at the start or was offered to one of its processes and
      suited it, nothing is installed twice or against a block; and the backup
      that cannot be used.
    - [CompatibilitySafe]: the restore check accepts exactly what its
      conditions say, and the shipped matrix certifies one platform.
      [PlacementSafe]: a placement is exactly the feasible offers, ranked, and
      a checkpoint is placed unattended on the certified platform only.
      [MarketSafe]: over any sequence of requests the reservations of an offer
      fit into the memory, the storage and the number of GPUs it exposed, and
      only a publication keeps an offer present; and two ways in which
      capacity is promised twice all the same, a device among several of its
      model and bandwidth that is lost in a sum of doubles.

    ** Conventions, bounds and fuel

    [time.Time] is a number of nanoseconds with 0 for the zero time; a
    [float64] is a double with the rounding and the conversions of amd64;
    [int64] and [uint64] wrap where the code adds to
    them.  An error is the constant part of its message.  Each external call
    reads one answer of the environment; a list of answers that ends is the
    death of the process, and every theorem quantifies over all answers.
    Loops with a constant bound in the code (retries, rounds, the 256 links of
    a lineage, the 16 passes) recurse on that constant; [drain_pool] recurses
    on eight turns per chunk, which [Upload] proves is enough; [collapse]
    recurses on the length of its text, which [CompatibilitySafe] proves is
    enough; all other recursion is structural.

    ** Not modelled

    Cryptographic primitives, compression, JSON and TLS (interfaces with the
    laws the code relies on);
    downloads and what a binary reports as its version (answers);
    CRIU, cgroup files, archives and filesystem snapshots (answers of the
    kernel); waiting, backoff and the semaphores that only bound parallelism;
    power failures (what was written and not synced is there after a restart);
    requests that arrive after their caller has given up; writers beside a
    garbage collection; two requests of one source that the destination of a
    migration serves at the same time, except in [SessionTraffic].  The case
    mappings of Unicode and the quoting of texts are arguments.  The control plane, ownership and compute offers
    aside, is SQL over PostgreSQL and HTTP handlers around it; left out with
    state of their own are the clones and forks of a checkpoint, the trust
    store and the restore policy, the connection tickets of the relay and the
    catalogue of plans; the command line programs, the cloud object store, the
    observability code and the vendor device tools are input and output
    without state of their own. *)

From Stdlib Require Export ZArith Lia.
From stdpp Require Export base tactics list gmap strings sorting.

#[global] Open Scope Z_scope.

(** ** Results of fallible Go calls *)

(** A Go call that returns [(T, error)].  The error is the constant part of
    its message, or the code an API handler answers with. *)
Inductive result (A : Type) : Type :=
| Ok (a : A)
| Err (e : string).
Arguments Ok {A} a.
Arguments Err {A} e.

(** [os.ErrNotExist] and [persistence.ErrNotFound], which callers test for. *)
Definition errNotExist : string := "file does not exist".
Definition errNotFound : string := "record not found".

#[export] Instance result_ret : MRet result := @Ok.
#[export] Instance result_bind : MBind result := fun A B f r =>
  match r with Ok a => f a | Err e => Err e end.
#[export] Instance result_eq_dec `{EqDecision A} : EqDecision (result A).
Proof. solve_decision. Defined.

(** [if !b { return err }]. *)
Definition require (b : bool) (e : string) : result unit :=
  if b then Ok tt else Err e.

Definition is_ok {A} (r : result A) : bool :=
  match r with Ok _ => true | Err _ => false end.

Lemma bind_ok {A B} (r : result A) (f : A → result B) b :
  (r ≫= f) = Ok b ↔ ∃ a, r = Ok a ∧ f a = Ok b.
Proof. destruct r; unfold mbind; simpl; naive_solver. Qed.

Lemma Ok_inj {A} (a b : A) : Ok a = Ok b → a = b.
Proof. by intros [=]. Qed.

Lemma ok_bind {A B} (a : A) (f : A → result B) : (Ok a ≫= f) = f a.
Proof. done. Qed.

Lemma require_ok b e u : require b e = Ok u ↔ b = true.
Proof. unfold require; destruct b, u; naive_solver. Qed.

(** ** Record updates *)

(** [Eta R] rebuilds a record of type [R] field by field; a record type
    declares it once, and [r <| f := v |>] (a Go assignment [r.f = v]) is
    derived from it by replacing the field [f r] with [v]. *)
Class Eta (R : Type) := eta : R → R.
Class Setter {R E : Type} (getter : R → E) := setter : E → R → R.

Ltac head_of t := lazymatch t with ?f _ => head_of f | _ => t end.

Ltac derive_setter R E getter :=
  let h := constr:(ltac:(typeclasses eauto) : Eta R) in
  let h := eval cbv beta in h in
  let c := head_of h in
  exact (fun (new_value : E) (old_record : R) => ltac:(
    let b := eval cbv beta delta [c] in (h old_record) in
    match b with context C [getter old_record] => let b' := context C [new_value] in exact b' end)).

#[export] Hint Extern 1 (@Setter ?R ?E ?getter) =>
  derive_setter R E getter : typeclass_instances.

Definition set_field {R E} (getter : R → E) `{S : !Setter getter} (v : E) (r : R) : R := S v r.
Arguments set_field _ _ _ _ _ _ /.

Notation "r <| f := v |>" := (set_field f v r)
  (at level 1, left associativity, f at level 0, v at level 200).

(** ** Machine integers *)

(** Go's [int64] (and [int] on amd64): two's complement wrap-around. *)
Definition int64 (z : Z) : Z := (z + 2 ^ 63) `mod` 2 ^ 64 - 2 ^ 63.
Definition uint64 (z : Z) : Z := z `mod` 2 ^ 64.
Definition uint32 (z : Z) : Z := z `mod` 2 ^ 32.

Definition in_int64 (z : Z) : Prop := - 2 ^ 63 ≤ z < 2 ^ 63.

Lemma int64_id z : in_int64 z → int64 z = z.
Proof.
  unfold in_int64, int64. intros H. rewrite Z.mod_small; lia.
Qed.

Lemma int64_add a b : int64 (int64 a + b) = int64 (a + b).
Proof.
  unfold int64. replace ((a + 2 ^ 63) `mod` 2 ^ 64 - 2 ^ 63 + b + 2 ^ 63)
    with ((a + 2 ^ 63) `mod` 2 ^ 64 + b) by lia.
  rewrite Zplus_mod_idemp_l. do 2 f_equal. lia.
Qed.

Lemma int64_range z : in_int64 (int64 z).
Proof.
  unfold in_int64, int64.
  pose proof (Z.mod_pos_bound (z + 2 ^ 63) (2 ^ 64)). lia.
Qed.

Lemma uint64_id z : 0 ≤ z < 2 ^ 64 → uint64 z = z.
Proof. intros. unfold uint64. by rewrite Z.mod_small. Qed.

(** Go integer division truncates towards zero. *)
Notation "x /' y" := (Z.quot x y) (at level 40, left associativity) : Z_scope.

(** ** Proof automation *)

Create HintDb shift.
#[export] Hint Resolve int64_range : shift.
(** Split every boolean conjunction, comparison and Go guard in the context
    into the proposition it decides. *)
Ltac to_prop :=
  repeat match goal with
  | H : _ && _ = true |- _ => apply andb_true_iff in H as [? ?]
  | H : _ || _ = false |- _ => apply orb_false_iff in H as [? ?]
  | H : negb _ = true |- _ => apply negb_true_iff in H
  | H : negb _ = false |- _ => apply negb_false_iff in H
  | H : bool_decide _ = true |- _ => apply bool_decide_eq_true in H
  | H : bool_decide _ = false |- _ => apply bool_decide_eq_false in H
  | H : (_ <? _) = true |- _ => apply Z.ltb_lt in H
  | H : (_ <? _) = false |- _ => apply Z.ltb_ge in H
  | H : (_ <=? _) = true |- _ => apply Z.leb_le in H
  | H : (_ <=? _) = false |- _ => apply Z.leb_gt in H
  | H : (_ =? _) = true |- _ => apply Z.eqb_eq in H
  | H : (_ =? _) = false |- _ => apply Z.eqb_neq in H
  end.

(** Invert a sequence of fallible calls that returned [Ok]: every call
    returned and every guard held. *)
Ltac inv_ok :=
  repeat match goal with
  | H : (_ ≫= _) = Ok _ |- _ => apply bind_ok in H as (? & ? & H)
  | H : require _ _ = Ok _ |- _ => apply require_ok in H
  | H : Ok ?x = Ok ?y |- _ => assert (x = y) by congruence; clear H
  | H : Err _ = Ok _ |- _ => discriminate H
  end.

(** Run the next fallible call of the goal, which is known to return [Ok]. *)
Ltac ok_step := rewrite ok_bind; cbv beta iota.

(** Case analysis on the first [match] or [if] of the goal or of [H]. *)
Ltac case_goal := case_match; simplify_eq/=.
Ltac case_hyp H :=
  match type of H with
  | context [ match ?x with _ => _ end ] => destruct x eqn:?; simplify_eq/=
  end.

(** Finish a goal after exhausting the case analysis. *)
Ltac crush :=
  repeat (case_goal; to_prop); simplify_eq/=; eauto with shift; try done; try lia.

(** ** Lists *)

Lemma Forall_filter_keep {A} (P : A → Prop) (Q : A → Prop)
    `{!∀ x, Decision (Q x)} (l : list A) :
  Forall P l → Forall P (filter Q l).
Proof.
  rewrite !Forall_forall. intros HP x Hx. apply list_elem_of_filter in Hx. naive_solver.
Qed.

(** The last [n] elements of a list: [l[len(l)-n:]]. *)
Definition last_n {A} (n : nat) (l : list A) : list A := drop (length l - n)%nat l.

Lemma last_n_length {A} n (l : list A) :
  length (last_n n l) = (n `min` length l)%nat.
Proof. unfold last_n. rewrite length_drop. lia. Qed.

(** A list whose images are distinct determines its elements by their image. *)
Lemma NoDup_fmap_elem_inj {A B} (f : A → B) (l : list A) x y :
  NoDup (f <$> l) → x ∈ l → y ∈ l → f x = f y → x = y.
Proof.
  induction l as [|z l IH]; intros Hn Hx Hy He; [by apply elem_of_nil in Hx|].
  apply NoDup_cons in Hn as [Hz Hn]. apply elem_of_cons in Hx, Hy.
  destruct Hx as [->|Hx], Hy as [->|Hy]; [done| | |by apply IH];
    destruct Hz; [rewrite He|rewrite <- He]; by apply list_elem_of_fmap_2.
Qed.
