(* ===== verification/Float64.v ===== *)
(** * IEEE 754 double precision

    Go's [float64] as the binary floating-point numbers of the Standard
    Library, with 53 bits of mantissa, rounded to nearest with ties to even.
    The operations are those of amd64, where the compiler fuses no product
    into a sum.  The type also has triples that no machine represents (a
    mantissa that is not normalised): what is proved holds for them too. *)
From Stdlib Require Import ZArith SpecFloat.
From S2P Require Import Prelude.

Local Open Scope Z_scope.

Abbreviation float64 := spec_float.

#[export] Instance float64_eq_dec : EqDecision float64.
Proof. solve_decision. Defined.

Declare Scope float64_scope.
Delimit Scope float64_scope with F.
Bind Scope float64_scope with spec_float.

(** ** Arithmetic and comparison *)

Notation "x + y" := (SFadd 53 1024 x y) : float64_scope.
Notation "x - y" := (SFsub 53 1024 x y) : float64_scope.
Notation "x * y" := (SFmul 53 1024 x y) : float64_scope.
Notation "x / y" := (SFdiv 53 1024 x y) : float64_scope.
Notation "x <? y" := (SFltb x y) : float64_scope.
Notation "x <=? y" := (SFleb x y) : float64_scope.
Notation "x =? y" := (SFeqb x y) : float64_scope.

Definition is_nan (x : float64) : bool := match x with S754_nan => true | _ => false end.

(** ** Conversions *)

(** [float64(n)]. *)
Definition of_Z (n : Z) : float64 := binary_normalize 53 1024 n 0 false.

(** The integer part, towards zero. *)
Definition truncate (x : float64) : option Z :=
  match x with
  | S754_zero _ => Some 0
  | S754_finite s m e => Some (cond_Zopp s (if 0 <=? e then Z.pos m * 2 ^ e else Z.pos m / 2 ^ (- e)))
  | S754_infinity _ | S754_nan => None
  end.

(** [int64(x)]: the language leaves open what a value that no [int64] holds
    becomes; amd64 makes it the smallest one. *)
Definition to_int64 (x : float64) : Z :=
  match truncate x with
  | Some n => if (- 2 ^ 63 <=? n) && (n <? 2 ^ 63) then n else - 2 ^ 63
  | None => - 2 ^ 63
  end.

(** [uint64(x)], as the compiler puts it together from [int64]. *)
Definition to_uint64 (x : float64) : Z :=
  let half := of_Z (2 ^ 63) in
  if (x <? half)%F then uint64 (to_int64 x) else Z.lxor (uint64 (to_int64 (x - half))) (2 ^ 63).

(** [time.Duration.Seconds] and [time.Duration.Hours]. *)
Definition Seconds (d : Z) : float64 := (of_Z (d /' 10 ^ 9) + of_Z (Z.rem d (10 ^ 9)) / of_Z (10 ^ 9))%F.
Definition Hours (d : Z) : float64 := (of_Z (d /' (3600 * 10 ^ 9)) + of_Z (Z.rem d (3600 * 10 ^ 9)) / of_Z (3600 * 10 ^ 9))%F.

(** Decimal literals: numerator and power of ten are exact, so that the
    quotient is the nearest number. *)
Definition of_number (n : Number.number) : option float64 :=
  match n with
  | Number.Decimal (Decimal.Decimal i f) =>
      Some (SFdiv 53 1024 (of_Z (Z.of_int (Decimal.app_int i f))) (of_Z (10 ^ Z.of_nat (Decimal.nb_digits f))))
  | _ => None
  end.
Definition to_number (x : float64) : option Number.number := None.
Number Notation spec_float of_number to_number : float64_scope.

(** ** The order *)

(** The place of a number among the others. *)
Definition place_of (x : float64) : Z * Z * Z :=
  match x with
  | S754_nan | S754_zero _ => (0, 0, 0)
  | S754_infinity s => (cond_Zopp s 2, 0, 0)
  | S754_finite s m e => (cond_Zopp s 1, cond_Zopp s e, cond_Zopp s (Z.pos m))
  end.
Definition before (p q : Z * Z * Z) : Prop :=
  p.1.1 < q.1.1 ∨ p.1.1 = q.1.1 ∧ (p.1.2 < q.1.2 ∨ p.1.2 = q.1.2 ∧ p.2 < q.2).

(** A comparison with [NaN] fails; every other one is that of the places. *)
Lemma compare_places x y :
  is_nan x = false → is_nan y = false →
  match SFcompare x y with
  | Some Lt => before (place_of x) (place_of y)
  | Some Eq => place_of x = place_of y
  | Some Gt => before (place_of y) (place_of x)
  | None => False
  end.
Proof.
  destruct x as [sx|sx| |sx mx ex], y as [sy|sy| |sy my ey]; try done; intros _ _;
    destruct sx, sy; cbn; unfold before; cbn; try lia; try done.
  all: destruct (Z.compare_spec ex ey) as [->|?|?]; try lia; change (Pos.compare_cont Eq mx my) with (Pos.compare mx my);
    destruct (Pos.compare_spec mx my) as [->|?|?]; cbn; try done; lia.
Qed.

Lemma compare_nan x y : is_nan x = true ∨ is_nan y = true → SFcompare x y = None.
Proof. by destruct x, y; intros [?|?]. Qed.

Lemma nan_false x y : is_nan x = true ∨ is_nan y = true → (x =? y)%F = false ∧ (x <? y)%F = false.
Proof. intros H. unfold SFeqb, SFltb. by rewrite compare_nan. Qed.

Lemma less_spec x y : (x <? y)%F = true ↔ is_nan x = false ∧ is_nan y = false ∧ before (place_of x) (place_of y).
Proof.
  unfold SFltb. destruct (is_nan x) eqn:Hx; [rewrite compare_nan by auto; naive_solver|].
  destruct (is_nan y) eqn:Hy; [rewrite compare_nan by auto; naive_solver|]. pose proof (compare_places x y Hx Hy) as H.
  destruct (SFcompare x y) as [[]|]; [| |..]; (split; [try done; intros ?; split_and!; done|]); intros (_ & _ & Hb); try done.
  - rewrite H in Hb. unfold before in Hb. lia.
  - unfold before in *. lia.
Qed.

Lemma equal_spec x y : (x =? y)%F = true ↔ is_nan x = false ∧ is_nan y = false ∧ place_of x = place_of y.
Proof.
  unfold SFeqb. destruct (is_nan x) eqn:Hx; [rewrite compare_nan by auto; naive_solver|].
  destruct (is_nan y) eqn:Hy; [rewrite compare_nan by auto; naive_solver|]. pose proof (compare_places x y Hx Hy) as H.
  destruct (SFcompare x y) as [[]|]; (split; [done|]); try done; intros (_ & _ & Hb); rewrite Hb in H; unfold before in H; lia.
Qed.

Lemma before_trichotomy p q : before p q ∨ p = q ∨ before q p.
Proof. destruct p as [[a b] c], q as [[a' b'] c']. unfold before; cbn. destruct (decide (a = a')), (decide (b = b')), (decide (c = c')); subst; auto; lia. Qed.
