(* ===== verification/Prog.v ===== *)
(** * Crash Hoare logic for effectful programs

    The stateful parts of the agent (the restore transaction, the migration
    orchestrator) call into the kernel, the disk and a remote peer, any of
    which may fail, and the agent process itself may be killed between two
    such calls.  A program reads the answer of each external call from a
    list of environment answers; running out of answers is the crash of the
    process at that point.  Quantifying over every list of answers therefore
    quantifies over every combination of failures and over every crash
    point, and a postcondition on the crashed outcome is an invariant of
    every intermediate state. *)
From S2P Require Import Prelude.

Definition prog (W E A : Type) : Type := W → list E → option A * W * list E.

Section combinators.
Context {W E : Type}.

#[export] Instance prog_ret : MRet (prog W E) := fun A a w es => (Some a, w, es).

#[export] Instance prog_bind : MBind (prog W E) := fun A B k p w es =>
  match p w es with
  | (Some a, w', es') => k a w' es'
  | (None, w', es') => (None, w', es')
  end.

(** The next environment answer; the process is killed when there is none. *)
Definition ask : prog W E E := fun w es =>
  match es with
  | [] => (None, w, [])
  | e :: es' => (Some e, w, es')
  end.

Definition get : prog W E W := fun w es => (Some w, w, es).
Definition modify (f : W → W) : prog W E unit := fun w es => (Some tt, f w, es).

(** [if b { return x }] in the middle of a body. *)
Definition when (b : bool) (p : prog W E unit) : prog W E unit :=
  if b then p else mret tt.

(** [for attempt := 0; attempt < n; attempt++ { r = body(attempt); if done(r) { break } }]:
    the value of the last attempt made, [None] when the loop made none. *)
Fixpoint retry {A} (n : nat) (attempt : nat) (done : A → bool) (body : nat → prog W E A)
    (last : option A) : prog W E (option A) :=
  match n with
  | O => mret last
  | S n' => a ← body attempt;
            if done a then mret (Some a) else retry n' (S attempt) done body (Some a)
  end.
End combinators.

(** ** Triples *)

Section triples.
Context {W E : Type} (okE : E → Prop).

(** From a state of [P] and environment answers that satisfy [okE], the
    program either returns a value and state of [Q] or crashes in a state
    of [C]. *)
Definition triple {A} (P : W → Prop) (p : prog W E A)
    (Q : A → W → Prop) (C : W → Prop) : Prop :=
  ∀ w es, Forall okE es → P w →
    match p w es with
    | (Some a, w', es') => Q a w' ∧ Forall okE es'
    | (None, w', _) => C w'
    end.

Lemma triple_ret {A} (a : A) (P : W → Prop) C :
  triple P (mret a) (fun r w => r = a ∧ P w) C.
Proof. intros w es Hes HP. done. Qed.

Lemma triple_bind {A B} (p : prog W E A) (k : A → prog W E B) P Q R C :
  triple P p Q C → (∀ a, triple (Q a) (k a) R C) → triple P (p ≫= k) R C.
Proof.
  intros Hp Hk w es Hes HP. specialize (Hp w es Hes HP).
  unfold mbind, prog_bind. destruct (p w es) as [[[a|] w'] es']; [|done].
  destruct Hp as [HQ Hes']. by apply Hk.
Qed.

Lemma triple_conseq {A} (p : prog W E A) (P P' : W → Prop) (Q Q' : A → W → Prop)
    (C C' : W → Prop) :
  triple P' p Q' C' → (∀ w, P w → P' w) → (∀ a w, Q' a w → Q a w) →
  (∀ w, C' w → C w) → triple P p Q C.
Proof.
  intros H HP HQ HC w es Hes Hw. specialize (H w es Hes (HP w Hw)).
  destruct (p w es) as [[[a|] w'] es']; naive_solver.
Qed.

Lemma triple_pre {A} (p : prog W E A) (P' P : W → Prop) Q C :
  (∀ w, P w → P' w) → triple P' p Q C → triple P p Q C.
Proof. intros HP H. eapply triple_conseq; eauto. Qed.

Lemma triple_post {A} (p : prog W E A) (P : W → Prop) (Q' Q : A → W → Prop) C :
  (∀ a w, Q' a w → Q a w) → triple P p Q' C → triple P p Q C.
Proof. intros HQ H. eapply triple_conseq; eauto. Qed.

Lemma triple_and {A} (p : prog W E A) (P : W → Prop) (Q Q' : A → W → Prop) (C C' : W → Prop) :
  triple P p Q C → triple P p Q' C' → triple P p (λ a w, Q a w ∧ Q' a w) (λ w, C w ∧ C' w).
Proof.
  intros H H' w es Hes Hw. specialize (H w es Hes Hw). specialize (H' w es Hes Hw).
  destruct (p w es) as [[[a|] w'] es']; naive_solver.
Qed.

(** A precondition that does not hold in any state. *)
Lemma triple_absurd {A} (p : prog W E A) (P : W → Prop) Q C :
  (∀ w, P w → False) → triple P p Q C.
Proof. intros H w es _ HP. destruct (H w HP). Qed.

(** A pure fact of the precondition is a hypothesis. *)
Lemma triple_pure {A} (p : prog W E A) (φ : Prop) (P : W → Prop) Q C :
  (φ → triple P p Q C) → triple (λ w, φ ∧ P w) p Q C.
Proof. intros H w es Hes [Hφ HP]. by apply H. Qed.

(** A triple may be proved one initial state at a time. *)
Lemma triple_at {A} (p : prog W E A) (P : W → Prop) Q C :
  (∀ w0, P w0 → triple (λ w, w = w0) p Q C) → triple P p Q C.
Proof. intros H w es Hes HP. by apply (H w HP). Qed.

(** Reading the state gives it a name for the rest of the program. *)
Lemma triple_get_bind {A} (k : W → prog W E A) (P : W → Prop) Q C :
  (∀ w0, P w0 → triple (λ w, w = w0) (k w0) Q C) → triple P (get ≫= k) Q C.
Proof. intros H w es Hes HP. by apply (H w HP). Qed.

Lemma triple_modify_bind {A} (f : W → W) (k : unit → prog W E A) (P : W → Prop) Q C R :
  (∀ w, P w → R (f w)) → triple R (k tt) Q C → triple P (modify f ≫= k) Q C.
Proof. intros HR H w es Hes HP. apply (H (f w)); auto. Qed.

Lemma triple_modify_at {A} (f : W → W) (k : unit → prog W E A) w0 Q C :
  triple (λ w, w = f w0) (k tt) Q C → triple (λ w, w = w0) (modify f ≫= k) Q C.
Proof. intros H. eapply triple_modify_bind; [|exact H]. by intros w ->. Qed.

Lemma triple_return {A} (a : A) (P : W → Prop) (Q : A → W → Prop) C :
  (∀ w, P w → Q a w) → triple P (mret a) Q C.
Proof. intros H w es Hes HP. split; [by apply H|done]. Qed.

Lemma triple_ask (P : W → Prop) (C : W → Prop) :
  (∀ w, P w → C w) → triple P ask (fun e w => okE e ∧ P w) C.
Proof.
  intros HC w es Hes HP. unfold ask. destruct es; [by apply HC|].
  by apply Forall_cons in Hes as [? ?].
Qed.

Lemma triple_get (P : W → Prop) C : triple P get (fun r w => r = w ∧ P w) C.
Proof. intros w es Hes HP. done. Qed.

Lemma triple_modify (P : W → Prop) (Q : W → Prop) (f : W → W) C :
  (∀ w, P w → Q (f w)) → triple P (modify f) (fun _ => Q) C.
Proof. intros H w es Hes HP. split; [by apply H | done]. Qed.

Lemma triple_when b (p : prog W E unit) (P : W → Prop) C :
  triple P p (fun _ => P) C → triple P (when b p) (fun _ => P) C.
Proof. intros H. destruct b; [done|]. intros w es Hes HP. done. Qed.

(** A loop keeps an invariant that each attempt keeps. *)
Lemma triple_retry {A} n attempt done (body : nat → prog W E A) last P (Q : A → W → Prop) C :
  (∀ i, triple P (body i) (fun a w => P w ∧ Q a w) C) →
  (∀ a w, last = Some a → P w → Q a w) →
  (∀ a w w', Q a w → P w' → Q a w') →
  triple P (retry n attempt done body last)
    (fun r w => P w ∧ ∀ a, r = Some a → Q a w) C.
Proof.
  intros Hb Hl Hst. revert attempt last Hl.
  induction n as [|n IH]; intros attempt last Hl; simpl.
  - intros w es Hes HP. split; [|done]. split; [done|]. intros a ->. by apply (Hl a w).
  - eapply triple_bind; [apply Hb|]. intros a. destruct (done a).
    + intros w es Hes [HP HQ]. split; [|done]. split; [done|]. naive_solver.
    + intros w es Hes [HP HQ]. eapply IH; [|done|done].
      intros a' w' [= <-] HP'. by eapply Hst.
Qed.
End triples.

(** The state a finished or crashed run leaves behind. *)
Definition final {W E A} (o : option A * W * list E) : W := o.1.2.
Definition returned {W E A} (o : option A * W * list E) : option A := o.1.1.

(** ** Termination *)

(** [p] asks the environment at most [n] times: with [n] answers it returns. *)
Definition bounded {W E A} (n : nat) (p : prog W E A) : Prop :=
  ∀ w es, (n ≤ length es)%nat →
    ∃ a w' es', p w es = (Some a, w', es') ∧ (length es ≤ n + length es')%nat.

Section bounded.
Context {W E : Type}.

Lemma bounded_ret {A} (a : A) : bounded 0 (mret a : prog W E A).
Proof. intros w es _. eexists _, _, _. split; [done|simpl; lia]. Qed.

Lemma bounded_ask : bounded 1 (ask : prog W E E).
Proof.
  intros w [|e es] H; simpl in *; [lia|]. eexists _, _, _. split; [done|]. lia.
Qed.

Lemma bounded_get : bounded 0 (get : prog W E W).
Proof. intros w es _. eexists _, _, _. split; [done|simpl; lia]. Qed.

Lemma bounded_modify (f : W → W) : bounded 0 (modify f : prog W E unit).
Proof. intros w es _. eexists _, _, _. split; [done|simpl; lia]. Qed.

Lemma bounded_mono {A} n m (p : prog W E A) : bounded n p → (n ≤ m)%nat → bounded m p.
Proof.
  intros H Hle w es Hes. destruct (H w es ltac:(lia)) as (a & w' & es' & Hp & Hl).
  eexists _, _, _. split; [done|lia].
Qed.

Lemma bounded_bind {A B} n m (p : prog W E A) (k : A → prog W E B) :
  bounded n p → (∀ a, bounded m (k a)) → bounded (n + m) (p ≫= k).
Proof.
  intros Hp Hk w es Hes. destruct (Hp w es ltac:(lia)) as (a & w' & es' & Ep & Hl).
  destruct (Hk a w' es' ltac:(lia)) as (b & w'' & es'' & Ek & Hl').
  eexists b, w'', es''. unfold mbind, prog_bind. rewrite Ep. split; [done|lia].
Qed.

Lemma bounded_retry {A} m n attempt done (body : nat → prog W E A) last :
  (∀ i, bounded m (body i)) → bounded (n * m) (retry n attempt done body last).
Proof.
  intros Hb. revert attempt last. induction n as [|n IH]; intros attempt last; simpl.
  - apply bounded_ret.
  - apply bounded_bind; [done|]. intros a. destruct (done a); [|done].
    eapply bounded_mono; [apply bounded_ret|lia].
Qed.
End bounded.
