(* ===== verification/GoStr.v ===== *)
(** * The parts of Go's [strings], [strconv] and [path/filepath] the agent uses

    A Go string is a sequence of bytes, here a [string] of [ascii].  The path
    functions are those of a Unix build (the only one the agent supports). *)
From Stdlib Require Import Ascii.
From stdpp Require Import pretty.
From S2P Require Import Prelude.

(** ** strings *)

Fixpoint HasPrefix (s pre : string) : bool :=
  match pre, s with
  | EmptyString, _ => true
  | String a pre', String b s' => bool_decide (a = b) && HasPrefix s' pre'
  | _, _ => false
  end.

Fixpoint Contains (s sub : string) : bool :=
  HasPrefix s sub ||
  match s with
  | EmptyString => false
  | String _ r => Contains r sub
  end.

Definition byte_at (n : N) : ascii := ascii_of_N n.

(** The one-byte white space of [unicode.IsSpace]. *)
Definition is_space1 (a : ascii) : bool :=
  let n := N_of_ascii a in ((9 <=? n) && (n <=? 13) || (n =? 32))%N.

(** The two- and three-byte UTF-8 encodings of the other white space runes. *)
Definition is_space2 (a b : ascii) : bool :=
  let n := N_of_ascii a in let m := N_of_ascii b in
  ((n =? 0xC2) && ((m =? 0x85) || (m =? 0xA0)))%N.
Definition is_space3 (a b c : ascii) : bool :=
  let n := N_of_ascii a in let m := N_of_ascii b in let k := N_of_ascii c in
  ((n =? 0xE1) && (m =? 0x9A) && (k =? 0x80) ||
   (n =? 0xE2) && (m =? 0x80) &&
     ((0x80 <=? k) && (k <=? 0x8A) || (k =? 0xA8) || (k =? 0xA9) || (k =? 0xAF)) ||
   (n =? 0xE2) && (m =? 0x81) && (k =? 0x9F) ||
   (n =? 0xE3) && (m =? 0x80) && (k =? 0x80))%N.

Fixpoint trim_left (s : list ascii) : list ascii :=
  match s with
  | [] => []
  | a :: r1 =>
      if is_space1 a then trim_left r1 else
      match r1 with
      | b :: r2 =>
          if is_space2 a b then trim_left r2 else
          match r2 with
          | c :: r3 => if is_space3 a b c then trim_left r3 else s
          | [] => s
          end
      | [] => s
      end
  end.

(** The same from the end, on the reversed string. *)
Fixpoint trim_right (s : list ascii) : list ascii :=
  match s with
  | [] => []
  | a :: r1 =>
      if is_space1 a then trim_right r1 else
      match r1 with
      | b :: r2 =>
          if is_space2 b a then trim_right r2 else
          match r2 with
          | c :: r3 => if is_space3 c b a then trim_right r3 else s
          | [] => s
          end
      | [] => s
      end
  end.

Definition TrimSpace (s : string) : string :=
  String.string_of_list_ascii
    (rev (trim_right (rev (trim_left (String.list_ascii_of_string s))))).

(** [strings.Split(s, c)] for a one-byte separator. *)
Fixpoint split (c : ascii) (s : string) : list string :=
  match s with
  | EmptyString => [""]
  | String a r =>
      if decide (a = c) then "" :: split c r
      else match split c r with
           | [] => [String a ""]
           | x :: xs => String a x :: xs
           end
  end.

Fixpoint join (c : ascii) (xs : list string) : string :=
  match xs with
  | [] => ""
  | [x] => x
  | x :: rest => x +:+ String c (join c rest)
  end.

Fixpoint no_char (c : ascii) (s : string) : bool :=
  match s with
  | EmptyString => true
  | String a r => negb (bool_decide (a = c)) && no_char c r
  end.

(** ** strconv *)

Definition Itoa (z : Z) : string := pretty z.

Definition digit_of (a : ascii) : option Z :=
  let n := Z.of_N (N_of_ascii a) in
  if (48 <=? n) && (n <=? 57) then Some (n - 48) else None.

Fixpoint digits (acc : Z) (s : string) : option Z :=
  match s with
  | EmptyString => Some acc
  | String a r => d ← digit_of a; digits (acc * 10 + d) r
  end.

(** [strconv.Atoi]: an optional sign and decimal digits in the [int] range. *)
Definition Atoi (s : string) : result Z :=
  let body := match s with
              | String a r => if bool_decide (a = "+"%char ∨ a = "-"%char) then r else s
              | _ => s
              end in
  let neg := match s with String a _ => bool_decide (a = "-"%char) | _ => false end in
  match body with
  | EmptyString => Err "invalid syntax"
  | _ => match digits 0 body with
         | None => Err "invalid syntax"
         | Some n => let v := if neg then - n else n in
                     if (- 2 ^ 63 <=? v) && (v <? 2 ^ 63) then Ok v else Err "value out of range"
         end
  end.

(** ** path/filepath *)

Definition slash : ascii := "/"%char.

Definition IsAbs (p : string) : bool := HasPrefix p "/".

(** One pass over the elements, [acc] being the output so far, last first. *)
Fixpoint clean_segs (rooted : bool) (segs acc : list string) : list string :=
  match segs with
  | [] => acc
  | x :: rest =>
      clean_segs rooted rest
        (if decide (x = "" ∨ x = ".") then acc
         else if decide (x = "..") then
           match acc with
           | y :: acc' => if decide (y = "..") then if rooted then acc else x :: acc else acc'
           | [] => if rooted then [] else [x]
           end
         else x :: acc)
  end.

(** The elements of a cleaned path. *)
Definition segments (p : string) : list string :=
  rev (clean_segs (IsAbs p) (split slash p) []).

Definition print_path (rooted : bool) (segs : list string) : string :=
  if rooted then String slash (join slash segs)
  else match segs with [] => "." | _ => join slash segs end.

Definition Clean (p : string) : string := print_path (IsAbs p) (segments p).

(** [Join(dir, elem)] with a non-empty directory. *)
Definition Join2 (dir elem : string) : string := Clean (dir +:+ String slash elem).

(** [Abs] in working directory [cwd]. *)
Definition Abs (cwd : result string) (p : string) : result string :=
  if IsAbs p then Ok (Clean p) else d ← cwd; Ok (Join2 d p).

Fixpoint strip_common (bs ts : list string) : list string * list string :=
  match bs, ts with
  | b :: bs', t :: ts' => if decide (b = t) then strip_common bs' ts' else (bs, ts)
  | _, _ => (bs, ts)
  end.

(** [Rel]: the elements of base not shared with target become [".."]; an
    unshared [".."] of the base has no answer. *)
Definition Rel (basepath targpath : string) : result string :=
  let base := Clean basepath in
  let targ := Clean targpath in
  if decide (targ = base) then Ok "."
  else if negb (Bool.eqb (IsAbs base) (IsAbs targ)) then Err "Rel: can't make relative"
  else
    let bs := segments base in
    let ts := match segments targ with
              | [] => if IsAbs targ then [] else ["."]
              | ts => ts
              end in
    let '(b, t) := strip_common bs ts in
    match b, t with
    | ".."%string :: _, _ :: _ => Err "Rel: can't make relative"
    | _, _ => Ok (join slash (((fun _ => "..") <$> b) ++ t))
    end.

(** ** Lemmas *)

Lemma split_not_nil c s : split c s ≠ [].
Proof. destruct s; simpl; [done|]. case_decide; [done|]. by case_match. Qed.

Lemma join_cons c x xs :
  xs ≠ [] → join c (x :: xs) = x +:+ String c (join c xs).
Proof. by destruct xs. Qed.

Lemma join_split c s : join c (split c s) = s.
Proof.
  induction s as [|a s IH]; simpl; [done|]. pose proof (split_not_nil c s) as Hn.
  case_decide as Ha.
  - rewrite join_cons by done. rewrite IH. by subst.
  - destruct (split c s) as [|x xs]; [done|]. rewrite <- IH. by destruct xs.
Qed.

Lemma split_no_char c s : Forall (λ x, no_char c x = true) (split c s).
Proof.
  induction s as [|a s IH]; simpl; [by repeat constructor|].
  case_decide; [by constructor|]. destruct (split c s) as [|x xs].
  - constructor; [|done]. simpl. by rewrite bool_decide_false.
  - apply Forall_cons in IH as [Hx Hxs]. constructor; [|done]. simpl.
    by rewrite bool_decide_false.
Qed.

Lemma split_app c x s :
  no_char c x = true → split c (x +:+ String c s) = x :: split c s.
Proof.
  induction x as [|a x IH]; simpl; intros H; [by case_decide|].
  to_prop. rewrite IH by done. by case_decide.
Qed.

Lemma split_single c x : no_char c x = true → split c x = [x].
Proof.
  induction x as [|a x IH]; simpl; intros H; [done|].
  to_prop. rewrite IH by done. by case_decide.
Qed.

Lemma split_join c xs :
  xs ≠ [] → Forall (λ x, no_char c x = true) xs → split c (join c xs) = xs.
Proof.
  induction xs as [|x xs IH]; intros Hn H; [done|]. apply Forall_cons in H as [Hx Hxs].
  destruct xs as [|y ys]; [by apply split_single|].
  rewrite join_cons by done. rewrite split_app by done. by rewrite IH.
Qed.

(** An element a cleaned rooted path may have. *)
Definition plain_seg (x : string) : Prop :=
  x ≠ "" ∧ x ≠ "." ∧ x ≠ ".." ∧ no_char slash x = true.

Lemma clean_segs_plain segs acc :
  Forall (λ x, no_char slash x = true) segs → Forall plain_seg acc →
  Forall plain_seg (clean_segs true segs acc).
Proof.
  revert acc. induction segs as [|x segs IH]; intros acc Hs Ha; simpl; [done|].
  apply Forall_cons in Hs as [Hx Hs]. apply IH; [done|].
  case_decide as H1; [done|]. case_decide as H2.
  - destruct acc as [|y acc]; [done|]. apply Forall_cons in Ha as [Hy Ha].
    case_decide; [by constructor|done].
  - constructor; [|done]. unfold plain_seg. naive_solver.
Qed.

Lemma segments_plain p : IsAbs p = true → Forall plain_seg (segments p).
Proof.
  intros H. unfold segments. rewrite H. apply Forall_rev, clean_segs_plain; [|done].
  apply split_no_char.
Qed.

Lemma clean_segs_id segs acc :
  Forall plain_seg segs → clean_segs true segs acc = rev segs ++ acc.
Proof.
  revert acc. induction segs as [|x segs IH]; intros acc H; simpl; [done|].
  apply Forall_cons in H as [(H1 & H2 & H3 & _) H].
  rewrite IH by done. rewrite decide_False by naive_solver. rewrite decide_False by done.
  by rewrite <- app_assoc.
Qed.

Lemma IsAbs_print segs : IsAbs (print_path true segs) = true.
Proof. unfold IsAbs. simpl. by destruct (join slash segs). Qed.

Lemma segments_print segs :
  Forall plain_seg segs → segments (print_path true segs) = segs.
Proof.
  intros H. unfold segments. rewrite IsAbs_print.
  assert (split slash (print_path true segs) = "" :: split slash (join slash segs)) as -> by done.
  simpl. destruct segs as [|x xs]; [done|].
  rewrite split_join; [|done|].
  - rewrite clean_segs_id by done. by rewrite app_nil_r, rev_involutive.
  - eapply Forall_impl; [done|]. by intros ? (?&?&?&?).
Qed.

Lemma IsAbs_Clean p : IsAbs (Clean p) = true ↔ IsAbs p = true.
Proof.
  unfold Clean. destruct (IsAbs p) eqn:E; [by rewrite IsAbs_print|]. split; [|done].
  unfold print_path. destruct (segments p) as [|x xs] eqn:Es; [done|].
  intros H. exfalso. (* a relative path has a non-empty first element *)
  assert (∀ segs acc, Forall (λ x, no_char slash x = true ∧ x ≠ "") acc →
    Forall (λ x, no_char slash x = true) segs →
    Forall (λ x, no_char slash x = true ∧ x ≠ "") (clean_segs false segs acc)) as Hc.
  { induction segs as [|y ys IH]; intros acc Ha Hs; simpl; [done|].
    apply Forall_cons in Hs as [Hy Hs]. apply IH; [|done].
    case_decide as H1; [done|]. case_decide as H2.
    - destruct acc as [|z acc]; [constructor; naive_solver|].
      apply Forall_cons in Ha as [Hz Ha]. case_decide; [|done].
      constructor; [naive_solver|by constructor].
    - constructor; [naive_solver|done]. }
  assert (Forall (λ x, no_char slash x = true ∧ x ≠ "") (x :: xs)) as Hf.
  { rewrite <- Es. unfold segments. rewrite E. apply Forall_rev, Hc; [done|].
    apply split_no_char. }
  apply Forall_cons in Hf as [[Hx1 Hx2] _].
  destruct x as [|a x]; [done|]. simpl in Hx1. to_prop.
  unfold IsAbs in H. destruct xs; simpl in H; to_prop; by subst.
Qed.

Lemma segments_Clean p : IsAbs p = true → segments (Clean p) = segments p.
Proof.
  intros H. unfold Clean. rewrite H. apply segments_print. by apply segments_plain.
Qed.

Lemma Clean_idemp p : IsAbs p = true → Clean (Clean p) = Clean p.
Proof.
  intros H. unfold Clean at 1. rewrite segments_Clean by done.
  rewrite (proj2 (IsAbs_Clean p)) by done. unfold Clean. by rewrite H.
Qed.

Lemma strip_common_spec bs ts b t :
  strip_common bs ts = (b, t) →
  ∃ pre, bs = pre ++ b ∧ ts = pre ++ t ∧
    (∀ x y b' t', b = x :: b' → t = y :: t' → x ≠ y).
Proof.
  revert ts. induction bs as [|x bs IH]; intros ts; simpl.
  - intros [= <- <-]. exists []. naive_solver.
  - destruct ts as [|y ts]; [intros [= <- <-]; exists []; naive_solver|].
    case_decide as Hxy.
    + intros H. destruct (IH _ H) as (pre & -> & -> & Hd). exists (x :: pre). naive_solver.
    + intros [= <- <-]. exists []. naive_solver.
Qed.

(** ** Concatenation *)

Lemma string_app_nil s : "" +:+ s = s.
Proof. done. Qed.

Lemma string_app_cons x a b : String x a +:+ b = String x (a +:+ b).
Proof. done. Qed.

Lemma string_app_length a b : String.length (a +:+ b) = (String.length a + String.length b)%nat.
Proof. induction a as [|x a IH]; [done|]. rewrite string_app_cons. simpl. by rewrite IH. Qed.

Lemma string_app_assoc a b c : a +:+ b +:+ c = (a +:+ b) +:+ c.
Proof. induction a as [|x a IH]; [done|]. by rewrite !string_app_cons, IH. Qed.

Lemma string_app_cancel a b s : a +:+ s = b +:+ s → a = b.
Proof.
  revert b. induction a as [|x a IH]; intros [|y b] H; [done| | |].
  1,2: apply (f_equal String.length) in H; rewrite !string_app_length in H; simpl in H; lia.
  rewrite !string_app_cons in H. injection H as -> H. f_equal. by apply IH.
Qed.
