(* ===== verification/Model.v ===== *)
(** * The shared data model ([internal/model/types.go])

    Workload specifications, checkpoint manifests, the network types, the
    migration record with its stage machine and [Migration.Transition], and
    the projections that may leave the data plane ([Public]).

    A [time.Time] is the number of nanoseconds since Go's zero instant, so
    [IsZero] is [= 0]; the clock is an argument of every operation that reads
    it.  A [float64] is a double of [Float64].  A string type
    whose values reach the code unvalidated (the network policy, a path mode,
    a fencing provider) stays a string; the stages, states and statuses the
    code only ever assigns from its own constants are inductive types.  Field
    names that several structs share carry a prefix of the struct's name. *)
From S2P Require Import Prelude Float64.

(** ** Workload specifications *)

Inductive WorkloadStatus :=
| WorkloadRegistered | WorkloadStarting | WorkloadRunning | WorkloadPaused
| WorkloadCheckpointed | WorkloadRestoring | WorkloadStopped | WorkloadFailed.
#[export] Instance WorkloadStatus_eq_dec : EqDecision WorkloadStatus.
Proof. solve_decision. Defined.

Record CheckpointPolicySpec := {
  IntervalSeconds : Z;
  KeepLast : Z;
}.

Record FailoverPolicySpec := {
  StandbyAgentURL : string;
  FencingProvider : string;
  FencingCommand : string;
  StandbyMachineID : string;
  StandbyKeepLast : Z;
}.
#[export] Instance FailoverPolicySpec_eta : Eta FailoverPolicySpec := fun p =>
  Build_FailoverPolicySpec (StandbyAgentURL p) (FencingProvider p) (FencingCommand p)
    (StandbyMachineID p) (StandbyKeepLast p).

Record Lineage := {
  SourceWorkloadID : string;
  SourceCheckpointID : string;
  SourceRootPath : string;
  LineageGeneration : Z;
  ForkedAt : Z;
}.

Definition PathReadOnly : string := "read_only".
Definition PathReadWrite : string := "read_write".

Record PathSpec := {
  Path : string;
  PathMode : string;
  OneFS : bool;
  Exclusions : list string;
}.
#[export] Instance PathSpec_eta : Eta PathSpec := fun p =>
  Build_PathSpec (Path p) (PathMode p) (OneFS p) (Exclusions p).

Record PortSpec := {
  SpecProtocol : string;
  SpecContainerPort : Z;
  SpecHostPort : Z;
}.

Record HealthCheckSpec := {
  HealthType : string;
  HealthAddress : string;
  HealthCommand : list string;
  HealthInterval : Z;
  HealthTimeout : Z;
  HealthRetries : Z;
  HealthStartDelay : Z;
}.

Record GPUDevice := {
  Vendor : string;
  GPUModel : string;
  DriverVersion : string;
  GPUMemoryBytes : Z;
  ComputeCapability : string;
  GPURuntimeName : string;
  CheckpointRestore : bool;
  DeviceFiles : list string;
}.

Record ResourceRequirements := {
  CPUCount : float64;
  ReqMemoryBytes : Z;
  ReqStorageBytes : Z;
  PIDs : Z;
  ReqGPUs : list GPUDevice;
}.

Definition DeviceRejectIncompatible : string := "reject_incompatible".
Definition DeviceWarnIncompatible : string := "warn_incompatible".

Definition NetworkPreserve : string := "preserve".
Definition NetworkReconnect : string := "reconnect".
Definition NetworkDrain : string := "drain".

Record WorkloadSpec := {
  SpecID : string;
  SpecName : string;
  Command : list string;
  RootPath : string;
  WorkingDir : string;
  Environment : gmap string string;
  UID : Z;
  GID : Z;
  Paths : list PathSpec;
  Ports : list PortSpec;
  HealthCheck : option HealthCheckSpec;
  Resources : ResourceRequirements;
  DevicePolicy : string;
  NetworkPolicy : string;
  CheckpointPolicy : option CheckpointPolicySpec;
  FailoverPolicy : option FailoverPolicySpec;
  SpecLineage : option Lineage;
  SpecCreatedAt : Z;
  SpecUpdatedAt : Z;
}.
#[export] Instance WorkloadSpec_eta : Eta WorkloadSpec := fun s =>
  Build_WorkloadSpec (SpecID s) (SpecName s) (Command s) (RootPath s) (WorkingDir s)
    (Environment s) (UID s) (GID s) (Paths s) (Ports s) (HealthCheck s) (Resources s)
    (DevicePolicy s) (NetworkPolicy s) (CheckpointPolicy s) (FailoverPolicy s)
    (SpecLineage s) (SpecCreatedAt s) (SpecUpdatedAt s).

(** ** Network types *)

Record VirtualIdentity := {
  IP : string;
  PrefixLength : Z;
}.

Record PortMapping := {
  Protocol : string;
  ContainerPort : Z;
  HostPort : Z;
}.
#[export] Instance PortMapping_eq_dec : EqDecision PortMapping.
Proof. solve_decision. Defined.

(** [PortMapping.Direct]. *)
Definition Direct (m : PortMapping) : bool := HostPort m =? ContainerPort m.

Inductive SocketDisposition := SocketPreserved | SocketRecreated.

Record NetworkPortStatus := {
  Mapping : PortMapping;
  Disposition : SocketDisposition;
  Mechanism : string;
}.

Record NetworkPlan := {
  PlanPolicy : string;
  PlanIdentity : VirtualIdentity;
  PlanPorts : list NetworkPortStatus;
  SocketsCarried : bool;
  ConnectionsDropped : bool;
  DrainBeforeCheckpoint : bool;
  PlanSummary : string;
}.

(** ** Workloads on a machine *)

Record ProcessState := {
  PID : Z;
  PGID : Z;
  ProcStartTicks : Z;
  StartedAt : Z;
  ExitCode : option Z;
}.
#[export] Instance ProcessState_eq_dec : EqDecision ProcessState.
Proof. solve_decision. Defined.

Record Workload := {
  Spec : WorkloadSpec;
  Status : WorkloadStatus;
  Process : option ProcessState;
  LatestCheckpointID : string;
  Generation : Z;
  LastError : string;
}.
#[export] Instance Workload_eta : Eta Workload := fun w =>
  Build_Workload (Spec w) (Status w) (Process w) (LatestCheckpointID w) (Generation w)
    (LastError w).

(** ** Checkpoint manifests *)

Record ChunkRef := {
  Address : string;
  KeyVersion : Z;
  PlainSize : Z;
  StoredSize : Z;
  CipherSHA256 : string;
  PlainSHA256 : string;
  Sequence : Z;
  Compression : string;
  Encryption : string;
}.
#[export] Instance ChunkRef_eq_dec : EqDecision ChunkRef.
Proof. solve_decision. Defined.
#[export] Instance ChunkRef_eta : Eta ChunkRef := fun r =>
  Build_ChunkRef (Address r) (KeyVersion r) (PlainSize r) (StoredSize r) (CipherSHA256 r)
    (PlainSHA256 r) (Sequence r) (Compression r) (Encryption r).

Record AssetManifest := {
  AssetName : string;
  MediaType : string;
  AssetPlainSize : Z;
  AssetStoredSize : Z;
  AssetSHA256 : string;
  Chunks : list ChunkRef;
  AssetRequired : bool;
  RestoreOrder : Z;
}.
#[export] Instance AssetManifest_eta : Eta AssetManifest := fun a =>
  Build_AssetManifest (AssetName a) (MediaType a) (AssetPlainSize a) (AssetStoredSize a)
    (AssetSHA256 a) (Chunks a) (AssetRequired a) (RestoreOrder a).

Record CheckpointEngineInfo := {
  EngineName : string;
  EngineVersion : string;
  LeaveRunning : bool;
  ParentImages : bool;
  PreCopy : bool;
  EnginePreCopyPasses : Z;
  TCPState : bool;
  ShellJob : bool;
  FileLocks : bool;
}.

Record SecurityEnvelope := {
  SecurityKeyVersion : Z;
  ManifestSignature : string;
  SignerMachineID : string;
  SecurityAlgorithm : string;
}.

Record CheckpointMetrics := {
  MetricsStartedAt : Z;
  FreezeStartedAt : Z;
  MetricsCompletedAt : Z;
  MetricsDuration : Z;
  PlainBytes : Z;
  StoredBytes : Z;
  MetricsDeduplicatedBytes : Z;
  ChunkCount : Z;
}.

Inductive CheckpointKind := CheckpointFull | CheckpointIncremental.

(** The manifest without the machine facts, the state inventory, the
    dependency list and the device requirements, which no modelled operation
    reads and [Public] passes through. *)
Record CheckpointManifest := {
  Format : string;
  FormatVersion : string;
  ManifestID : string;
  ParentID : string;
  Kind : CheckpointKind;
  ManifestWorkload : WorkloadSpec;
  SourceIdentityID : string;
  ManifestCreatedAt : Z;
  Engine : CheckpointEngineInfo;
  Assets : list AssetManifest;
  RequiredBytes : Z;
  ManifestMetrics : CheckpointMetrics;
  Security : SecurityEnvelope;
  ManifestSHA256 : string;
  CompatibilityID : string;
}.
#[export] Instance CheckpointManifest_eta : Eta CheckpointManifest := fun m =>
  Build_CheckpointManifest (Format m) (FormatVersion m) (ManifestID m) (ParentID m) (Kind m)
    (ManifestWorkload m) (SourceIdentityID m) (ManifestCreatedAt m) (Engine m) (Assets m)
    (RequiredBytes m) (ManifestMetrics m) (Security m) (ManifestSHA256 m)
    (CompatibilityID m).

Definition redacted : string := "<redacted>".

(** [WorkloadSpec.Public]. *)
Definition WorkloadSpec_Public (s : WorkloadSpec) : WorkloadSpec :=
  s <| Environment := ∅ |> <| Paths := [] |> <| HealthCheck := None |>
    <| Command := match Command s with
                  | [] => []
                  | program :: args => program :: ((fun _ => redacted) <$> args)
                  end |>.

(** [CheckpointManifest.Public]. *)
Definition CheckpointManifest_Public (m : CheckpointManifest) : CheckpointManifest :=
  m <| ManifestWorkload := WorkloadSpec_Public (ManifestWorkload m) |>
    <| Assets := (fun a => a <| Chunks := (fun r => r <| PlainSHA256 := "" |>) <$> Chunks a |>)
                 <$> Assets m |>.

(** ** The migration stage machine *)

Inductive MigrationStage :=
| MigrationCreated | MigrationDiscover | MigrationValidate | MigrationSnapshot
| MigrationPrepare | MigrationTransfer | MigrationVerify | MigrationRestore
| MigrationPostValidate | MigrationSwitch | MigrationCommit | MigrationCleanup
| MigrationCompleted | MigrationFailed | MigrationRollingBack | MigrationRolledBack
| MigrationCancelled.
#[export] Instance MigrationStage_eq_dec : EqDecision MigrationStage.
Proof. solve_decision. Defined.

(** The rows of [migrationTransitions]; a stage with no row has no successor. *)
Definition migrationTransitions (from : MigrationStage) : list MigrationStage :=
  match from with
  | MigrationCreated => [MigrationDiscover; MigrationFailed; MigrationCancelled]
  | MigrationDiscover =>
      [MigrationValidate; MigrationRollingBack; MigrationFailed; MigrationCancelled]
  | MigrationValidate =>
      [MigrationSnapshot; MigrationRollingBack; MigrationFailed; MigrationCancelled]
  | MigrationSnapshot =>
      [MigrationPrepare; MigrationTransfer; MigrationRollingBack; MigrationFailed;
       MigrationCancelled]
  | MigrationPrepare =>
      [MigrationTransfer; MigrationRollingBack; MigrationFailed; MigrationCancelled]
  | MigrationTransfer =>
      [MigrationVerify; MigrationRollingBack; MigrationFailed; MigrationCancelled]
  | MigrationVerify =>
      [MigrationRestore; MigrationRollingBack; MigrationFailed; MigrationCancelled]
  | MigrationRestore =>
      [MigrationPostValidate; MigrationFailed; MigrationRollingBack; MigrationCancelled]
  | MigrationPostValidate =>
      [MigrationSwitch; MigrationRollingBack; MigrationFailed; MigrationCancelled]
  | MigrationSwitch =>
      [MigrationCommit; MigrationRollingBack; MigrationFailed; MigrationCancelled]
  | MigrationCommit =>
      [MigrationCleanup; MigrationRollingBack; MigrationFailed; MigrationCancelled]
  | MigrationCleanup => [MigrationCompleted; MigrationFailed; MigrationCancelled]
  | MigrationFailed => []
  | MigrationRollingBack => [MigrationRolledBack; MigrationFailed; MigrationCancelled]
  | MigrationCompleted | MigrationRolledBack | MigrationCancelled => []
  end.

Definition CanTransition (from to : MigrationStage) : bool :=
  bool_decide (to ∈ migrationTransitions from).

Inductive MigrationMode := MigrationCold | MigrationLive.
#[export] Instance MigrationMode_eq_dec : EqDecision MigrationMode.
Proof. solve_decision. Defined.

Record Destination := {
  DestMachineID : string;
  AgentURL : string;
  ServerName : string;
  Route : string;
  RelayEndpoint : string;
  RelayTicket : string;
}.
#[export] Instance Destination_eq_dec : EqDecision Destination.
Proof. solve_decision. Defined.

Record MigrationMetrics := {
  TotalStateBytes : Z;
  TransferredBytes : Z;
  DeduplicatedBytes : Z;
  PreCopyTransferredBytes : Z;
  CheckpointDuration : Z;
  RestoreDuration : Z;
  Downtime : Z;
  TransferDuration : Z;
  TransferBytesPerSec : float64;
}.
#[export] Instance MigrationMetrics_eta : Eta MigrationMetrics := fun m =>
  Build_MigrationMetrics (TotalStateBytes m) (TransferredBytes m) (DeduplicatedBytes m)
    (PreCopyTransferredBytes m) (CheckpointDuration m) (RestoreDuration m) (Downtime m)
    (TransferDuration m) (TransferBytesPerSec m).

Record MigrationEvent := {
  EventSequence : Z;
  EventStage : MigrationStage;
  EventMessage : string;
  EventTimestamp : Z;
  EventProgress : float64;
  BytesDone : Z;
  BytesTotal : Z;
}.

Record CompatibilityIssue := {
  IssueCode : string;
  IssueSeverity : string;
  IssueResource : string;
  IssueDescription : string;
  IssueAdaptation : string;
}.

Record CompatibilityReport := {
  Compatible : bool;
  Issues : list CompatibilityIssue;
  CheckedAt : Z;
}.

Record Migration := {
  MID : string;
  IdempotencyKey : string;
  WorkloadID : string;
  CheckpointID : string;
  SourceMachineID : string;
  DestinationOf : Destination;
  Mode : MigrationMode;
  PreCopyPasses : Z;
  Stage : MigrationStage;
  Compatibility : CompatibilityReport;
  Network : NetworkPlan;
  Metrics : MigrationMetrics;
  Events : list MigrationEvent;
  CreatedAt : Z;
  UpdatedAt : Z;
  CompletedAt : option Z;
  FailureCode : string;
  FailureReason : string;
  SourcePreserved : bool;
  Revision : Z;
}.
#[export] Instance Migration_eta : Eta Migration := fun m =>
  Build_Migration (MID m) (IdempotencyKey m) (WorkloadID m) (CheckpointID m)
    (SourceMachineID m) (DestinationOf m) (Mode m) (PreCopyPasses m) (Stage m)
    (Compatibility m) (Network m) (Metrics m) (Events m) (CreatedAt m) (UpdatedAt m)
    (CompletedAt m) (FailureCode m) (FailureReason m) (SourcePreserved m) (Revision m).

(** The stages after which [Transition] stamps [CompletedAt]; the
    orchestrator's [terminal] is the same predicate. *)
Definition terminal (s : MigrationStage) : bool :=
  bool_decide (s = MigrationCompleted) || bool_decide (s = MigrationRolledBack) ||
  bool_decide (s = MigrationCancelled) || bool_decide (s = MigrationFailed).

(** [Migration.Transition] at clock [now]. *)
Definition Transition (now : Z) (to : MigrationStage) (message : string) (progress : float64)
    (m : Migration) : result Migration :=
  if negb (CanTransition (Stage m) to) then Err "invalid migration transition"
  else
    let m := m <| Stage := to |> <| UpdatedAt := now |>
               <| Revision := uint64 (Revision m + 1) |>
               <| Events := Events m ++
                    [{| EventSequence := uint64 (Z.of_nat (length (Events m)) + 1);
                        EventStage := to; EventMessage := message; EventTimestamp := now;
                        EventProgress := progress; BytesDone := 0; BytesTotal := 0 |}] |> in
    Ok (if terminal to then m <| CompletedAt := Some now |> else m).

(** ** Properties of the stage machine *)

(** A rank every edge of the table increases. *)
Definition stage_rank (s : MigrationStage) : nat :=
  match s with
  | MigrationCreated => 0 | MigrationDiscover => 1 | MigrationValidate => 2
  | MigrationSnapshot => 3 | MigrationPrepare => 4 | MigrationTransfer => 5
  | MigrationVerify => 6 | MigrationRestore => 7 | MigrationPostValidate => 8
  | MigrationSwitch => 9 | MigrationCommit => 10 | MigrationCleanup => 11
  | MigrationRollingBack => 12
  | MigrationCompleted | MigrationFailed | MigrationRolledBack | MigrationCancelled => 13
  end.

Lemma CanTransition_elem from to :
  CanTransition from to = true ↔ to ∈ migrationTransitions from.
Proof. apply bool_decide_eq_true. Qed.

Lemma CanTransition_rank from to :
  CanTransition from to = true → (stage_rank from < stage_rank to)%nat.
Proof.
  rewrite CanTransition_elem. destruct from; simpl; intros H;
    repeat (apply elem_of_cons in H as [->|H]; [simpl; lia|]); by apply elem_of_nil in H.
Qed.

Lemma terminal_no_successor s to : terminal s = true → CanTransition s to = false.
Proof. by destruct s, to. Qed.

Lemma nonterminal_successor s : terminal s = false → ∃ to, CanTransition s to = true.
Proof. destruct s; intros; try done; by eexists MigrationFailed. Qed.

(** A sequence of transitions applied to a record, as the code does through
    [records.Update]: a refused one leaves the record as it was. *)
Fixpoint transitions (m : Migration) (reqs : list (Z * MigrationStage * string * float64)) : Migration :=
  match reqs with
  | [] => m
  | (now, to, msg, progress) :: rest =>
      transitions (match Transition now to msg progress m with Ok m' => m' | Err _ => m end) rest
  end.

(** How many of a sequence of requested transitions were applied. *)
Fixpoint applied (m : Migration) (reqs : list (Z * MigrationStage * string * float64)) : nat :=
  match reqs with
  | [] => 0
  | (now, to, msg, progress) :: rest =>
      match Transition now to msg progress m with
      | Ok m' => S (applied m' rest)
      | Err _ => applied m rest
      end
  end.

Lemma Transition_stage now to msg progress m m' :
  Transition now to msg progress m = Ok m' →
  CanTransition (Stage m) to = true ∧ Stage m' = to ∧
  CompletedAt m' = (if terminal to then Some now else CompletedAt m).
Proof.
  unfold Transition. destruct (CanTransition _ _) eqn:?; simpl; [|done].
  destruct (terminal to); naive_solver.
Qed.

Lemma applied_bound m reqs :
  (applied m reqs + stage_rank (Stage m) ≤ 13)%nat.
Proof.
  revert m. induction reqs as [|[[[now to] msg] pr] reqs IH]; intros m; simpl.
  - destruct (Stage m); simpl; lia.
  - destruct (Transition now to msg pr m) as [m'|e] eqn:HT; [|done].
    apply Transition_stage in HT as (Hc & Hs & _). apply CanTransition_rank in Hc.
    specialize (IH m'). rewrite Hs in IH. lia.
Qed.

Lemma applied_terminal m reqs :
  terminal (Stage m) = true → transitions m reqs = m ∧ applied m reqs = 0%nat.
Proof.
  intros Ht. induction reqs as [|[[[now to] msg] pr] reqs IH]; simpl; [done|].
  unfold Transition. by rewrite (terminal_no_successor _ to Ht).
Qed.

(** A record is settled exactly when it carries a completion time. *)
Definition settled_iff (m : Migration) : Prop :=
  terminal (Stage m) = true ↔ is_Some (CompletedAt m).

Lemma Transition_settled now to msg progress m m' :
  settled_iff m → Transition now to msg progress m = Ok m' → settled_iff m'.
Proof.
  unfold settled_iff. intros Hm HT. apply Transition_stage in HT as (Hc & -> & ->).
  destruct (terminal to) eqn:Ht; [naive_solver|]. rewrite <- Hm.
  destruct (terminal (Stage m)) eqn:Hs; [|done].
  by rewrite terminal_no_successor in Hc.
Qed.

Lemma transitions_settled m reqs : settled_iff m → settled_iff (transitions m reqs).
Proof.
  revert m. induction reqs as [|[[[now to] msg] pr] reqs IH]; intros m Hm; simpl; [done|].
  apply IH. destruct (Transition now to msg pr m) eqn:HT; [|done]. by eapply Transition_settled.
Qed.

(** C34.  The stage machine cannot loop and cannot get stuck: of any
    sequence of requested transitions, however long, at most thirteen are ever
    applied; a record is terminal (completed, rolled back, cancelled or failed)
    exactly when it carries a completion time, and once it is, every further
    transition is refused and the record never changes again, while a record
    that is not terminal always has a transition it accepts. *)
Theorem stage_machine_terminates (m : Migration) (reqs : list (Z * MigrationStage * string * float64)) :
  settled_iff m →
  let m' := transitions m reqs in
  (applied m reqs ≤ 13)%nat ∧ settled_iff m' ∧
  (if terminal (Stage m') then ∀ more, transitions m' more = m' ∧ applied m' more = 0%nat
   else ∀ now msg progress, ∃ to, is_ok (Transition now to msg progress m') = true).
Proof.
  intros Hm m'. split; [pose proof (applied_bound m reqs); lia|].
  split; [by apply transitions_settled|].
  destruct (terminal (Stage m')) eqn:Ht; [intros more; by apply applied_terminal|].
  intros now msg progress. destruct (nonterminal_successor _ Ht) as [to Hto]. exists to.
  unfold Transition. by rewrite Hto.
Qed.


Definition demo_migration (stage : MigrationStage) : Migration := {|
  MID := "m"; IdempotencyKey := ""; WorkloadID := "w"; CheckpointID := "";
  SourceMachineID := "a";
  DestinationOf := {| DestMachineID := "b"; AgentURL := "https://b:7443"; ServerName := "";
                      Route := ""; RelayEndpoint := ""; RelayTicket := "" |};
  Mode := MigrationCold; PreCopyPasses := 0; Stage := stage;
  Compatibility := {| Compatible := true; Issues := []; CheckedAt := 0 |};
  Network := {| PlanPolicy := NetworkReconnect;
                PlanIdentity := {| IP := "100.64.0.1"; PrefixLength := 10 |}; PlanPorts := [];
                SocketsCarried := false; ConnectionsDropped := true;
                DrainBeforeCheckpoint := false; PlanSummary := "" |};
  Metrics := {| TotalStateBytes := 0; TransferredBytes := 0; DeduplicatedBytes := 0;
                PreCopyTransferredBytes := 0; CheckpointDuration := 0; RestoreDuration := 0;
                Downtime := 0; TransferDuration := 0; TransferBytesPerSec := 0 |};
  Events := []; CreatedAt := 1; UpdatedAt := 1; CompletedAt := None; FailureCode := "";
  FailureReason := ""; SourcePreserved := true; Revision := 0 |}.

Definition demo_requests : list (Z * MigrationStage * string * float64) :=
  [(2%Z, MigrationDiscover, "", 0%F); (3%Z, MigrationCommit, "", 0%F);
   (4%Z, MigrationFailed, "", 1%F)].

Lemma stage_machine_terminates_witness :
  let m' := transitions (demo_migration MigrationCreated) demo_requests in
  (applied (demo_migration MigrationCreated) demo_requests ≤ 13)%nat ∧ settled_iff m' ∧
  (if terminal (Stage m') then ∀ more, transitions m' more = m' ∧ applied m' more = 0%nat
   else ∀ now msg progress, ∃ to, is_ok (Transition now to msg progress m') = true).
Proof.
  apply (stage_machine_terminates (demo_migration MigrationCreated) demo_requests).
  split; [discriminate|intros [? H]; discriminate H].
Defined.

(** ** Properties of the public projections *)

(** What leaves the data plane carries no environment value, no declared path,
    no health check, no command argument and no plaintext chunk digest, while
    the identity, the asset structure and the keyed chunk addresses placement
    needs survive; projecting twice is projecting once. *)
Theorem public_manifest_redacted (m : CheckpointManifest) :
  let p := CheckpointManifest_Public m in
  let w := ManifestWorkload p in
  Environment w = ∅ ∧ Paths w = [] ∧ HealthCheck w = None ∧
  Forall (.= redacted) (tail (Command w)) ∧
  head (Command w) = head (Command (ManifestWorkload m)) ∧
  Forall (λ a, Forall (λ r, PlainSHA256 r = "") (Chunks a)) (Assets p) ∧
  ((λ a, Address <$> Chunks a) <$> Assets p) = ((λ a, Address <$> Chunks a) <$> Assets m) ∧
  ManifestID p = ManifestID m ∧ SpecID w = SpecID (ManifestWorkload m) ∧
  CheckpointManifest_Public p = p.
Proof.
  simpl. repeat split.
  - destruct (Command _) as [|c args]; simpl; [done|]. apply Forall_fmap, Forall_true. done.
  - by destruct (Command _).
  - apply Forall_fmap, Forall_true. intros a. simpl. apply Forall_fmap, Forall_true. done.
  - rewrite <- list_fmap_compose. apply list_fmap_ext. intros _ a _. simpl.
    by rewrite <- list_fmap_compose.
  - unfold CheckpointManifest_Public; simpl. f_equal.
    + unfold WorkloadSpec_Public; simpl. f_equal. destruct (Command _); simpl; [done|].
      f_equal. by rewrite <- list_fmap_compose.
    + rewrite <- list_fmap_compose. apply list_fmap_ext. intros _ a _. simpl.
      f_equal. by rewrite <- list_fmap_compose.
Qed.
