(* ===== verification/Workload.v ===== *)
(** * Admission of a workload specification ([internal/model/types.go])

    [WorkloadSpec.Normalize] and the validators it calls.  The code works on
    a pointer and returns an error; here the normalized specification is the
    result, and the partly written one a caller discards on error is not
    kept.  The working directory of the agent, a fresh identifier, the clock
    and Go's URL parser are arguments. *)
From S2P Require Import Prelude Float64 GoStr Model.

(** ** Validators *)

(** [CheckpointPolicySpec.Validate]; a nil policy is [None]. *)
Definition CheckpointPolicySpec_Validate (p : option CheckpointPolicySpec) : result unit :=
  match p with
  | None => Ok tt
  | Some p =>
      if IntervalSeconds p <? 10 then Err "checkpoint interval must be at least 10 seconds"
      else if KeepLast p <? 0 then Err "checkpoint keep_last cannot be negative"
      else Ok tt
  end.

(** [if v == "" { v = d }]. *)
Definition or_default (v d : string) : string := if decide (v = "") then d else v.

(** The parts of a parsed URL the validators read. *)
Record URL := { Scheme : string; Host : string; RawQuery : string; Fragment : string }.

(** [FailoverPolicySpec.Validate]: an empty fencing provider becomes
    ["disabled"]. *)
Definition FailoverPolicySpec_Validate (url_Parse : string → result URL)
    (p : option FailoverPolicySpec) : result (option FailoverPolicySpec) :=
  match p with
  | None => Ok None
  | Some p =>
      _ ← match url_Parse (StandbyAgentURL p) with
          | Err e => Err "failover standby agent URL must be a plain https URL"
          | Ok u =>
              require (bool_decide (Scheme u = "https") && negb (bool_decide (Host u = "")) &&
                       bool_decide (RawQuery u = "") && bool_decide (Fragment u = ""))
                "failover standby agent URL must be a plain https URL"
          end;
      _ ← require (0 <=? StandbyKeepLast p) "failover keep_last cannot be negative";
      let provider := or_default (FencingProvider p) "disabled" in
      _ ← require (bool_decide (provider ∈ ["disabled"; "self"; "command"]))
            "unsupported failover fencing provider";
      _ ← require (negb (bool_decide (provider = "command") &&
                         bool_decide (TrimSpace (FencingCommand p) = "")))
            "command fencing requires fencing_command";
      Ok (Some (p <| FencingProvider := provider |>))
  end.

(** [Lineage.Validate]. *)
Definition Lineage_Validate (l : option Lineage) : result unit :=
  match l with
  | None => Ok tt
  | Some l =>
      if decide (SourceWorkloadID l = "") then Err "lineage requires a source workload id"
      else if decide (SourceCheckpointID l = "") then Err "lineage requires a source checkpoint id"
      else if ForkedAt l =? 0 then Err "lineage requires a fork timestamp"
      else Ok tt
  end.

(** [pathWithin]. *)
Definition pathWithin (root candidate : string) : bool :=
  match Rel root candidate with
  | Ok rel => negb (bool_decide (rel = "..")) && negb (HasPrefix rel "../")
  | Err _ => false
  end.

(** [PathSpec.Normalize]. *)
Definition PathSpec_Normalize (cwd : result string) (root : string) (p : PathSpec)
    : result PathSpec :=
  _ ← require (negb (bool_decide (Path p = ""))) "path is required";
  abs ← Abs cwd (Path p);
  let path := Clean abs in
  _ ← require (pathWithin root path) "path is outside workload root";
  let mode := or_default (PathMode p) PathReadWrite in
  _ ← require (bool_decide (mode = PathReadOnly) || bool_decide (mode = PathReadWrite))
        "unsupported path mode";
  _ ← require (forallb (fun pattern => negb (IsAbs pattern || Contains pattern ".."))
                 (Exclusions p)) "unsafe exclusion";
  Ok (p <| Path := path |> <| PathMode := mode |>).

Fixpoint normalize_paths (cwd : result string) (root : string) (ps : list PathSpec)
    : result (list PathSpec) :=
  match ps with
  | [] => Ok []
  | p :: rest =>
      p' ← PathSpec_Normalize cwd root p;
      rest' ← normalize_paths cwd root rest;
      Ok (p' :: rest')
  end.

(** [WorkloadSpec.Normalize]. *)
Definition WorkloadSpec_Normalize (cwd : result string) (NewID : result string) (now : Z)
    (url_Parse : string → result URL) (s : WorkloadSpec) : result WorkloadSpec :=
  _ ← require (negb (bool_decide (TrimSpace (SpecName s) = ""))) "workload name is required";
  _ ← require (match Command s with
               | [] => false
               | c :: _ => negb (bool_decide (TrimSpace c = ""))
               end) "workload command is required";
  id ← (if decide (SpecID s = "") then NewID else Ok (SpecID s));
  _ ← require (negb (bool_decide (RootPath s = ""))) "root path is required";
  absRoot ← Abs cwd (RootPath s);
  let rootPath := Clean absRoot in
  _ ← require (negb (bool_decide (rootPath = "/"))) "capturing the filesystem root is forbidden";
  absWorking ← Abs cwd (or_default (WorkingDir s) rootPath);
  let workingDir := Clean absWorking in
  _ ← require (pathWithin rootPath workingDir)
        "working directory must be within the workload root";
  _ ← require (negb ((UID s <? 0) || (GID s <? 0))) "workload uid/gid must not be negative";
  paths ← normalize_paths cwd rootPath
            (match Paths s with
             | [] => [{| Path := rootPath; PathMode := PathReadWrite; OneFS := false;
                         Exclusions := [] |}]
             | ps => ps
             end);
  let devicePolicy := or_default (DevicePolicy s) DeviceRejectIncompatible in
  let networkPolicy := or_default (NetworkPolicy s) NetworkReconnect in
  _ ← require (bool_decide (networkPolicy ∈ [NetworkPreserve; NetworkReconnect; NetworkDrain]))
        "network policy must be preserve, reconnect, or drain";
  _ ← CheckpointPolicySpec_Validate (CheckpointPolicy s);
  failover ← FailoverPolicySpec_Validate url_Parse (FailoverPolicy s);
  _ ← require (negb (bool_decide (is_Some failover) && bool_decide (CheckpointPolicy s = None)))
        "failover policy requires a checkpoint policy";
  _ ← Lineage_Validate (SpecLineage s);
  Ok (s <| SpecID := id |> <| RootPath := rootPath |> <| WorkingDir := workingDir |>
        <| Paths := paths |> <| DevicePolicy := devicePolicy |>
        <| NetworkPolicy := networkPolicy |> <| FailoverPolicy := failover |>
        <| SpecCreatedAt := if SpecCreatedAt s =? 0 then now else SpecCreatedAt s |>
        <| SpecUpdatedAt := now |>).

(** ** Containment *)

Lemma join_dotdot_prefix n t :
  (0 < n)%nat →
  join slash (replicate n ".." ++ t) = ".." ∨
  HasPrefix (join slash (replicate n ".." ++ t)) "../" = true.
Proof.
  destruct n as [|n]; [lia|]. intros _. simpl. destruct (replicate n ".." ++ t); [by left|].
  right. by destruct (join slash (s :: l)).
Qed.

Lemma HasPrefix_no_slash x s :
  no_char slash x = true → x ≠ ".." → HasPrefix (x +:+ String slash s) "../" = false.
Proof.
  destruct x as [|a [|b [|c x]]]; simpl; intros H Hn; try done; to_prop;
    repeat (case_bool_decide; simpl); try done; simplify_eq; try done.
Qed.

Lemma plain_join_within t :
  Forall plain_seg t → t ≠ [] →
  join slash t ≠ ".." ∧ HasPrefix (join slash t) "../" = false.
Proof.
  intros H Hn. destruct t as [|x t]; [done|]. apply Forall_cons in H as [(H1&H2&H3&H4) Ht].
  destruct t as [|y t]; simpl.
  - split; [done|]. destruct x as [|a [|b [|c x]]]; simpl in *; try done; to_prop;
      repeat (case_bool_decide; simpl); try done; simplify_eq; try done.
  - split; [|by apply HasPrefix_no_slash].
    destruct x as [|a [|b [|c x]]]; simpl in *; intros He; simplify_eq; to_prop; try done.
Qed.

(** On absolute paths, [pathWithin] is the prefix order of their elements. *)
Lemma pathWithin_prefix root candidate :
  IsAbs root = true → IsAbs candidate = true →
  pathWithin root candidate = true ↔ segments root `prefix_of` segments candidate.
Proof.
  intros Hr Hc. unfold pathWithin, Rel.
  rewrite (proj2 (IsAbs_Clean root) Hr), (proj2 (IsAbs_Clean candidate) Hc). simpl.
  rewrite !segments_Clean by done.
  pose proof (segments_plain _ Hr) as Pr. pose proof (segments_plain _ Hc) as Pc.
  case_decide as Heq.
  { split; [|done]. intros _. apply (f_equal segments) in Heq.
    rewrite !segments_Clean in Heq by done. by rewrite Heq. }
  destruct (strip_common _ _) as [b t] eqn:Hs.
  assert (strip_common (segments root) (segments candidate) = (b, t)) as Hs'.
  { rewrite <- Hs. by destruct (segments candidate). }
  apply strip_common_spec in Hs' as (pre & Er & Ec & Hd). rewrite Er, Ec in *.
  apply Forall_app in Pr as [_ Pb]. apply Forall_app in Pc as [_ Pt].
  destruct b as [|x b].
  - rewrite app_nil_r. split; [intros _; by apply prefix_app_r|]. intros _. simpl.
    assert (t ≠ []).
    { intros ->. rewrite !app_nil_r in *. apply Heq. unfold Clean. by rewrite Hr, Hc, Er, Ec. }
    destruct (plain_join_within t) as [H1 H2]; [done|done|].
    rewrite bool_decide_false, H2 by done. done.
  - assert ((x ≠ "..") ∧ ¬ (pre ++ x :: b) `prefix_of` (pre ++ t)) as [Hx Hnp].
    { apply Forall_cons in Pb as [(?&?&?&?) _]. split; [done|]. intros Hp.
      apply prefix_app_inv in Hp. destruct Hp as [k ->]. naive_solver. }
    split; [|done]. intros Hw. exfalso. revert Hw.
    assert (match x with ".."%string => false | _ => true end = true) as Hm.
    { repeat case_match; try done. }
    destruct (join_dotdot_prefix (length (x :: b)) t ltac:(simpl; lia)) as [E|E];
      rewrite <- const_fmap with (f := λ _ : string, "..") in E by done;
      repeat (case_match; simplify_eq); simpl in *; try done;
      rewrite E; rewrite ?andb_false_r; done.
Qed.

(** ** What admission guarantees *)

(** A path in the form [filepath.Clean] leaves an absolute path in. *)
Definition clean_abs (p : string) : Prop := IsAbs p = true ∧ Clean p = p.

Definition within (root p : string) : Prop :=
  clean_abs p ∧ segments root `prefix_of` segments p.

Record path_admitted (root : string) (p : PathSpec) : Prop := {
  pa_within : within root (Path p);
  pa_mode : PathMode p = PathReadOnly ∨ PathMode p = PathReadWrite;
  pa_exclusions : Forall (λ x, IsAbs x = false ∧ Contains x ".." = false) (Exclusions p);
}.

Record failover_admitted (url_Parse : string → result URL) (p : FailoverPolicySpec) : Prop := {
  fa_url : ∃ u, url_Parse (StandbyAgentURL p) = Ok u ∧ Scheme u = "https" ∧ Host u ≠ "" ∧
             RawQuery u = "" ∧ Fragment u = "";
  fa_keep : 0 ≤ StandbyKeepLast p;
  fa_provider : FencingProvider p ∈ ["disabled"; "self"; "command"];
  fa_command : FencingProvider p = "command" → TrimSpace (FencingCommand p) ≠ "";
}.

(** The specification the rest of the agent may rely on. *)
Record admitted (url_Parse : string → result URL) (s : WorkloadSpec) : Prop := {
  ad_name : TrimSpace (SpecName s) ≠ "";
  ad_command : ∃ c args, Command s = c :: args ∧ TrimSpace c ≠ "";
  ad_id : SpecID s ≠ "";
  ad_root : clean_abs (RootPath s) ∧ RootPath s ≠ "/";
  ad_working : within (RootPath s) (WorkingDir s);
  ad_ids : 0 ≤ UID s ∧ 0 ≤ GID s;
  ad_paths : Paths s ≠ [] ∧ Forall (path_admitted (RootPath s)) (Paths s);
  ad_device : DevicePolicy s ≠ "";
  ad_network : NetworkPolicy s ∈ [NetworkPreserve; NetworkReconnect; NetworkDrain];
  ad_checkpoint : ∀ p, CheckpointPolicy s = Some p → 10 ≤ IntervalSeconds p ∧ 0 ≤ KeepLast p;
  ad_failover : ∀ f, FailoverPolicy s = Some f →
    failover_admitted url_Parse f ∧ is_Some (CheckpointPolicy s);
  ad_lineage : ∀ l, SpecLineage s = Some l →
    SourceWorkloadID l ≠ "" ∧ SourceCheckpointID l ≠ "" ∧ ForkedAt l ≠ 0;
  ad_created : SpecCreatedAt s ≠ 0;
}.

Lemma clean_abs_Clean p : IsAbs p = true → clean_abs (Clean p).
Proof. intros H. split; [by apply IsAbs_Clean|by apply Clean_idemp]. Qed.

Lemma or_default_id v d : v ≠ "" → or_default v d = v.
Proof. unfold or_default. by case_decide. Qed.

Lemma or_default_not_empty v d : d ≠ "" → or_default v d ≠ "".
Proof. unfold or_default. by case_decide. Qed.

Lemma clean_abs_not_empty p : clean_abs p → p ≠ "".
Proof. intros [H _] ->. done. Qed.

Lemma IsAbs_app d e : IsAbs d = true → IsAbs (d +:+ e) = true.
Proof. destruct d as [|a d]; [done|]. unfold IsAbs; simpl. intros. by destruct (d +:+ e), d. Qed.

Section cwd.
Context (cwd : result string) (Hcwd : ∀ d, cwd = Ok d → IsAbs d = true).

Lemma Abs_clean p q : Abs cwd p = Ok q → clean_abs q.
Proof using Hcwd.
  unfold Abs. destruct (IsAbs p) eqn:E.
  - intros [= <-]. by apply clean_abs_Clean.
  - rewrite bind_ok. intros (d & Hd & [= <-]). apply clean_abs_Clean.
    apply IsAbs_app. by apply Hcwd.
Qed.

Lemma Abs_id p : clean_abs p → Abs cwd p = Ok p.
Proof. intros [H1 H2]. unfold Abs. by rewrite H1, H2. Qed.

Lemma PathSpec_Normalize_admits root p p' :
  clean_abs root → PathSpec_Normalize cwd root p = Ok p' → path_admitted root p'.
Proof using Hcwd.
  intros Hroot H. unfold PathSpec_Normalize in H. inv_ok.
  match goal with HA : Abs cwd _ = Ok _ |- _ => apply Abs_clean in HA as [Hca _] end.
  simpl in *. subst p'.
  match goal with Hx : pathWithin _ (Clean ?q) = true |- _ => rename Hx into Hw, q into abs end.
  match goal with Hx : _ || _ = true |- _ => rename Hx into Hm end.
  match goal with Hx : forallb _ _ = true |- _ => rename Hx into He end.
  assert (within root (Clean abs)) as Hin.
  { split; [by apply clean_abs_Clean|]. apply pathWithin_prefix; [apply Hroot| |done].
    by apply IsAbs_Clean. }
  split; simpl; [done| |].
  - apply orb_true_iff in Hm as [Hm|Hm]; to_prop; auto.
  - apply Forall_forall. intros y Hy. rewrite forallb_forall in He.
    rewrite list_elem_of_In in Hy. specialize (He y Hy). to_prop. done.
Qed.

Lemma PathSpec_Normalize_id root p :
  clean_abs root → path_admitted root p → PathSpec_Normalize cwd root p = Ok p.
Proof.
  intros Hroot [[Hc Hw] Hm He]. unfold PathSpec_Normalize.
  rewrite (bool_decide_false (Path p = "")) by (by apply clean_abs_not_empty). simpl.
  rewrite Abs_id by done. simpl. destruct Hc as [Hc1 Hc2]. rewrite Hc2.
  rewrite (proj2 (pathWithin_prefix root (Path p) (proj1 Hroot) Hc1)) by done. simpl.
  rewrite or_default_id by (by destruct Hm as [-> | ->]).
  assert ((bool_decide (PathMode p = PathReadOnly) || bool_decide (PathMode p = PathReadWrite))
          = true) as Hmode by (by destruct Hm as [-> | ->]).
  simpl. rewrite Hmode. simpl.
  assert (forallb (λ pattern, negb (IsAbs pattern || Contains pattern "..")) (Exclusions p)
          = true) as ->.
  { apply forallb_forall. intros x Hx. rewrite Forall_forall in He.
    destruct (He x) as [-> ->]; [by apply list_elem_of_In|done]. }
  by destruct p.
Qed.

Lemma normalize_paths_admits root ps ps' :
  clean_abs root → normalize_paths cwd root ps = Ok ps' →
  Forall (path_admitted root) ps' ∧ length ps' = length ps.
Proof using Hcwd.
  intros Hroot. revert ps'. induction ps as [|p ps IH]; intros ps' H; simpl in H.
  - by simplify_eq.
  - inv_ok. subst ps'. destruct (IH x0) as [Hf Hl]; [done|].
    split; [|simpl; by rewrite Hl]. constructor; [|done]. by eapply PathSpec_Normalize_admits.
Qed.

Lemma normalize_paths_id root ps :
  clean_abs root → Forall (path_admitted root) ps → normalize_paths cwd root ps = Ok ps.
Proof.
  intros Hroot. induction 1 as [|p ps Hp _ IH]; simpl; [done|].
  rewrite PathSpec_Normalize_id by done. simpl. by rewrite IH.
Qed.
End cwd.

Lemma FailoverPolicySpec_Validate_admits parse p p' :
  FailoverPolicySpec_Validate parse p = Ok p' →
  (p' = None ↔ p = None) ∧ ∀ f, p' = Some f → failover_admitted parse f.
Proof.
  destruct p as [p|]; simpl; [|intros [= <-]; done].
  intros H. inv_ok. destruct (parse (StandbyAgentURL p)) as [u|] eqn:Hparse; [|done].
  inv_ok. to_prop. subst p'. split; [done|]. intros f [= <-]. split; simpl; [by exists u|done|done|].
  - intros Hcmd. match goal with Hc : _ && _ = false |- _ =>
      apply andb_false_iff in Hc as [Hc|Hc]; to_prop; simpl in *; done end.
Qed.

Lemma FailoverPolicySpec_Validate_id parse p :
  (∀ f, p = Some f → failover_admitted parse f) →
  FailoverPolicySpec_Validate parse p = Ok p.
Proof.
  destruct p as [p|]; [|done]. intros H. destruct (H p) as [(u & Hu & H1 & H2 & H3 & H4) Hk Hp Hc];
    [done|]. simpl. rewrite Hu, H1, H3, H4. rewrite (bool_decide_false (Host u = "")) by done.
  simpl. apply Z.leb_le in Hk. rewrite Hk. simpl.
  rewrite or_default_id by (intros E; rewrite E in Hp; set_solver).
  rewrite (bool_decide_true (FencingProvider p ∈ _)) by done. simpl.
  destruct (decide (FencingProvider p = "command")) as [Hd|Hd].
  - rewrite (bool_decide_false (TrimSpace _ = "")) by auto. rewrite andb_false_r. by destruct p.
  - rewrite (bool_decide_false (FencingProvider p = "command")) by done. by destruct p.
Qed.

Lemma CheckpointPolicySpec_Validate_ok p u :
  CheckpointPolicySpec_Validate p = Ok u ↔
  ∀ q, p = Some q → 10 ≤ IntervalSeconds q ∧ 0 ≤ KeepLast q.
Proof.
  destruct u, p as [p|]; simpl; [|naive_solver].
  destruct (Z.ltb_spec (IntervalSeconds p) 10), (Z.ltb_spec (KeepLast p) 0);
    (split; [intros [=]; intros ? [= <-]; lia|intros Hq; specialize (Hq p eq_refl); lia || done]).
Qed.

Lemma Lineage_Validate_ok l u :
  Lineage_Validate l = Ok u ↔
  ∀ x, l = Some x → SourceWorkloadID x ≠ "" ∧ SourceCheckpointID x ≠ "" ∧ ForkedAt x ≠ 0.
Proof.
  destruct u, l as [l|]; simpl; [|naive_solver].
  repeat case_decide; destruct (Z.eqb_spec (ForkedAt l) 0); naive_solver.
Qed.

(** An admitted specification is a fixed point of admission. *)
Lemma Normalize_admitted_id cwd NewID now parse s :
  admitted parse s →
  WorkloadSpec_Normalize cwd NewID now parse s = Ok (s <| SpecUpdatedAt := now |>).
Proof.
  intros [Hn (c & args & Hc & Hct) Hi [Hr Hr1] [Hw Hw1] [Hu Hg] [Hp Hp1] Hd Hnet Hck Hf Hl Hcr].
  unfold WorkloadSpec_Normalize. rewrite Hc, (bool_decide_false (TrimSpace (SpecName s) = "")),
    (bool_decide_false (TrimSpace c = "")) by done. simpl.
  rewrite decide_False by done. simpl.
  rewrite (bool_decide_false (RootPath s = "")) by (by apply clean_abs_not_empty). simpl.
  rewrite Abs_id by done. simpl. destruct (Hr) as [Hr2 Hr3], (Hw) as [Hw2 Hw3].
  rewrite Hr3, (bool_decide_false (RootPath s = "/")) by done. simpl.
  rewrite (or_default_id (WorkingDir s)) by (by apply clean_abs_not_empty).
  rewrite Abs_id by done. simpl. rewrite Hw3.
  rewrite (proj2 (pathWithin_prefix _ _ Hr2 Hw2)) by done. simpl.
  apply Z.ltb_ge in Hu, Hg. rewrite Hu, Hg. simpl.
  assert (match Paths s with [] => [{| Path := RootPath s; PathMode := PathReadWrite;
    OneFS := false; Exclusions := [] |}] | ps => ps end = Paths s) as ->
    by (by destruct (Paths s)).
  rewrite normalize_paths_id by done. simpl.
  rewrite (or_default_id (NetworkPolicy s)) by (intros E; rewrite E in Hnet; set_solver).
  rewrite (bool_decide_true (NetworkPolicy s ∈ _)) by done. simpl.
  rewrite (proj2 (CheckpointPolicySpec_Validate_ok (CheckpointPolicy s) tt)) by done. simpl.
  rewrite FailoverPolicySpec_Validate_id by naive_solver. simpl.
  assert (bool_decide (is_Some (FailoverPolicy s)) && bool_decide (CheckpointPolicy s = None)
          = false) as ->.
  { destruct (FailoverPolicy s) as [f|]; [|done]. destruct (Hf f eq_refl) as [_ [p ->]]. done. }
  simpl. rewrite (proj2 (Lineage_Validate_ok (SpecLineage s) tt)) by done. simpl.
  rewrite (or_default_id (DevicePolicy s)) by done. apply Z.eqb_neq in Hcr. rewrite Hcr. by destruct s.
Qed.

(** [Normalize] keeps the name, and the id when there is one. *)
Lemma Normalize_identity_kept cwd NewID now parse s s' :
  SpecID s ≠ "" → WorkloadSpec_Normalize cwd NewID now parse s = Ok s' →
  SpecID s' = SpecID s ∧ SpecName s' = SpecName s.
Proof.
  intros Hid H. unfold WorkloadSpec_Normalize in H. rewrite decide_False in H by done.
  inv_ok. by subst.
Qed.

(** What [Normalize] accepts is admitted. *)
Lemma Normalize_admits (cwd NewID : result string) (now : Z) (url_Parse : string → result URL)
    (s s' : WorkloadSpec) :
  (∀ d, cwd = Ok d → IsAbs d = true) → NewID ≠ Ok "" → now ≠ 0 →
  WorkloadSpec_Normalize cwd NewID now url_Parse s = Ok s' → admitted url_Parse s'.
Proof.
  intros Hcwd Hid Hnow H.
  unfold WorkloadSpec_Normalize in H. inv_ok.
  repeat match goal with u : unit |- _ => destruct u end.
  destruct (Command s) as [|c args] eqn:Ecmd; [done|]. to_prop.
  repeat match goal with HA : Abs cwd _ = Ok _ |- _ => apply (Abs_clean _ Hcwd) in HA as [? ?] end.
  match goal with HA : normalize_paths _ _ _ = Ok _ |- _ =>
    apply (normalize_paths_admits _ Hcwd) in HA as [? Hlen]; [|by apply clean_abs_Clean] end.
  match goal with HA : FailoverPolicySpec_Validate _ _ = Ok _ |- _ =>
    apply FailoverPolicySpec_Validate_admits in HA as [? ?] end.
  match goal with HA : _ && _ = false |- _ => apply andb_false_iff in HA as Hfo end.
  subst s'. split; simpl; eauto.
  - case_decide; naive_solver.
  - split; [by apply clean_abs_Clean|done].
  - split; [by apply clean_abs_Clean|]. apply pathWithin_prefix; try done; by apply IsAbs_Clean.
  - split; [|done]. intros ->. by destruct (Paths s).
  - by apply or_default_not_empty.
  - by eapply CheckpointPolicySpec_Validate_ok.
  - intros f ->. split; [by eauto|]. destruct (CheckpointPolicy s); [done|].
    destruct Hfo as [Hfo|Hfo]; to_prop; [|done]. by destruct Hfo.
  - by eapply Lineage_Validate_ok.
  - by destruct (Z.eqb_spec (SpecCreatedAt s) 0).
Qed.

(** C30.  Admission confines a workload: whatever specification an
    operator submits, once [Normalize] accepts it the root is a clean
    absolute path other than the filesystem root, the working directory and
    every captured path lie inside the root element by element (a [".."] in
    the textual form cannot escape it), exclusions cannot name parents, ids are not negative, and every policy is one the
    agent can honor: a failover policy comes with a checkpoint policy.
    Normalizing an accepted specification again changes only its update
    time. *)
Theorem normalize_confines (cwd NewID : result string) (now now' : Z)
    (url_Parse : string → result URL) (s s' : WorkloadSpec) :
  (∀ d, cwd = Ok d → IsAbs d = true) → NewID ≠ Ok "" → now ≠ 0 →
  WorkloadSpec_Normalize cwd NewID now url_Parse s = Ok s' →
  admitted url_Parse s' ∧
  WorkloadSpec_Normalize cwd NewID now' url_Parse s' = Ok (s' <| SpecUpdatedAt := now' |>).
Proof.
  intros Hcwd Hid Hnow H. apply Normalize_admits in H; [|done..].
  split; [done|]. by apply Normalize_admitted_id.
Qed.

Definition demo_parse (u : string) : result URL :=
  if HasPrefix u "https://" then
    Ok {| Scheme := "https"; Host := "standby:7443"; RawQuery := ""; Fragment := "" |}
  else Err "unsupported".

Definition demo_spec : WorkloadSpec := {|
  SpecID := ""; SpecName := "web"; Command := ["/srv/app/bin/web"; "--port=80"];
  RootPath := "/srv//app/./x/.."; WorkingDir := "app/data"; Environment := ∅;
  UID := 1000; GID := 1000; Paths := []; Ports := []; HealthCheck := None;
  Resources := {| CPUCount := 1; ReqMemoryBytes := 0; ReqStorageBytes := 0; PIDs := 0;
                  ReqGPUs := [] |};
  DevicePolicy := ""; NetworkPolicy := "";
  CheckpointPolicy := Some {| IntervalSeconds := 60; KeepLast := 3 |};
  FailoverPolicy := Some {| StandbyAgentURL := "https://standby:7443"; FencingProvider := "";
    FencingCommand := ""; StandbyMachineID := ""; StandbyKeepLast := 0 |};
  SpecLineage := None; SpecCreatedAt := 0; SpecUpdatedAt := 0 |}.

Definition demo_admitted : WorkloadSpec := Eval vm_compute in
  match WorkloadSpec_Normalize (Ok "/srv") (Ok "w-1") 5 demo_parse demo_spec with
  | Ok s => s
  | Err _ => demo_spec
  end.

Lemma demo_admitted_ok : admitted demo_parse demo_admitted.
Proof.
  apply (Normalize_admits (Ok "/srv") (Ok "w-1") 5 demo_parse demo_spec);
    [intros d [= <-]; reflexivity|discriminate|discriminate|vm_compute; reflexivity].
Qed.

Lemma normalize_confines_witness :
  RootPath demo_admitted = "/srv/app" ∧ WorkingDir demo_admitted = "/srv/app/data" ∧
  admitted demo_parse demo_admitted ∧
  WorkloadSpec_Normalize (Ok "/srv") (Ok "w-1") 9 demo_parse demo_admitted =
    Ok (demo_admitted <| SpecUpdatedAt := 9 |>).
Proof.
  split; [vm_compute; reflexivity|]. split; [vm_compute; reflexivity|].
  apply (normalize_confines (Ok "/srv") (Ok "w-1") 5 9 demo_parse demo_spec demo_admitted).
  - intros d [= <-]. reflexivity.
  - discriminate.
  - discriminate.
  - vm_compute. reflexivity.
Defined.
