(* ===== verification/Crypto.v ===== *)
(** * Bytes, encodings and the primitives of Go's [crypto]

    Byte strings with Go's hexadecimal and big-endian encodings, the
    interface [Crypto] of the hash and cipher functions of the standard
    library, and the functions of [internal/securestore/keys.go] built on
    them: [Derive], [Address], [Encrypt] and [Decrypt].  Drawing a nonce is
    an argument. *)
From Stdlib Require Import Ascii.
From Stdlib Require Export Strings.Byte.
From S2P Require Import Prelude GoStr.

Local Open Scope string_scope.
Local Open Scope list_scope.
Local Open Scope Z_scope.

Abbreviation bytes := (list byte).
#[export] Instance byte_eq_dec : EqDecision byte := Byte.byte_eq_dec.

(** ** Integers and bytes *)

Definition Z_of (b : byte) : Z := Z.of_N (Byte.to_N b).
Definition byte_of (z : Z) : byte := default x00 (Byte.of_N (Z.to_N (z `mod` 256))).

Lemma Z_of_range b : 0 ≤ Z_of b < 256.
Proof. unfold Z_of. pose proof (Byte.to_N_bounded b). lia. Qed.

Lemma byte_of_Z_of b : byte_of (Z_of b) = b.
Proof.
  unfold byte_of. rewrite Z.mod_small by apply Z_of_range. unfold Z_of.
  by rewrite N2Z.id, Byte.of_to_N.
Qed.

Lemma Z_of_byte_of z : Z_of (byte_of z) = z `mod` 256.
Proof.
  unfold byte_of, Z_of. pose proof (Z.mod_pos_bound z 256 ltac:(lia)).
  destruct (Byte.of_N _) as [b|] eqn:E; simpl.
  - apply Byte.to_of_N in E. rewrite E. lia.
  - apply Byte.of_N_None_iff in E. lia.
Qed.

(** [binary.BigEndian]: an [n]-byte unsigned integer. *)
Fixpoint big_endian (n : nat) (z : Z) : bytes :=
  match n with
  | O => []
  | S n => byte_of (z `div` 256 ^ Z.of_nat n) :: big_endian n z
  end.

Fixpoint from_big_endian (bs : bytes) : Z :=
  match bs with
  | [] => 0
  | b :: bs => Z_of b * 256 ^ Z.of_nat (length bs) + from_big_endian bs
  end.

Lemma big_endian_length n z : length (big_endian n z) = n.
Proof. induction n; simpl; congruence. Qed.

Lemma from_big_endian_range bs : 0 ≤ from_big_endian bs < 256 ^ Z.of_nat (length bs).
Proof.
  induction bs as [|b bs IH]; simpl; [lia|]. pose proof (Z_of_range b).
  rewrite Nat2Z.inj_succ, Z.pow_succ_r by lia. nia.
Qed.

Lemma big_endian_mod n z : from_big_endian (big_endian n z) = z `mod` 256 ^ Z.of_nat n.
Proof.
  induction n as [|n IH]; simpl; [by rewrite Z.mod_1_r|].
  rewrite big_endian_length, Z_of_byte_of, IH, Nat2Z.inj_succ, Z.pow_succ_r by lia.
  rewrite (Z.mul_comm 256), Z.rem_mul_r by lia. lia.
Qed.

Lemma big_endian_from bs : big_endian (length bs) (from_big_endian bs) = bs.
Proof.
  assert (∀ n z w, z `mod` 256 ^ Z.of_nat n = w `mod` 256 ^ Z.of_nat n → big_endian n z = big_endian n w) as Hmod.
  { induction n as [|n IH]; intros z w H; [done|]. simpl.
    rewrite Nat2Z.inj_succ, Z.pow_succ_r, (Z.mul_comm 256), !Z.rem_mul_r in H by lia.
    pose proof (Z.mod_pos_bound z (256 ^ Z.of_nat n) ltac:(lia)). pose proof (Z.mod_pos_bound w (256 ^ Z.of_nat n) ltac:(lia)).
    destruct (Z.div_mod_unique (256 ^ Z.of_nat n) ((z `div` 256 ^ Z.of_nat n) `mod` 256)
      ((w `div` 256 ^ Z.of_nat n) `mod` 256) (z `mod` 256 ^ Z.of_nat n) (w `mod` 256 ^ Z.of_nat n))
      as [Hhigh Hlow]; [by left|by left|lia|].
    f_equal; [|by apply IH]. unfold byte_of. by rewrite Hhigh. }
  induction bs as [|b bs IH]; simpl; [done|]. pose proof (from_big_endian_range bs). f_equal.
  - rewrite Z.div_add_l, Z.div_small, Z.add_0_r by lia. apply byte_of_Z_of.
  - etrans; [|exact IH]. apply Hmod. by rewrite Z.add_comm, Z.mod_add by lia.
Qed.

(** A line break in a Go format string. *)
Definition nl : string := String (ascii_of_nat 10) "".

(** ** Hexadecimal *)

Definition hex_digits : string := "0123456789abcdef".
Definition hex_digit (n : Z) : ascii := default "0"%char (String.get (Z.to_nat n) hex_digits).

Fixpoint hex (bs : bytes) : string :=
  match bs with
  | [] => ""
  | b :: bs => String (hex_digit (Z_of b `div` 16)) (String (hex_digit (Z_of b `mod` 16)) (hex bs))
  end.

Lemma hex_length bs : String.length (hex bs) = (2 * length bs)%nat.
Proof. induction bs as [|b bs IH]; simpl; lia. Qed.

Lemma hex_digit_inj m n : 0 ≤ m < 16 → 0 ≤ n < 16 → hex_digit m = hex_digit n → m = n.
Proof.
  pose (value a := Z.of_nat (default 0%nat (String.index 0 (String a "") hex_digits))).
  assert (∀ n, 0 ≤ n < 16 → value (hex_digit n) = n) as Hvalue.
  { intros k Hk. assert (k ∈ seqZ 0 16) as Hin by by apply elem_of_seqZ.
    clear Hk. revert k Hin. apply Forall_forall. by repeat constructor. }
  intros Hm Hn H. by rewrite <- (Hvalue m Hm), <- (Hvalue n Hn), H.
Qed.

Lemma hex_inj : Inj (=) (=) hex.
Proof.
  intros bs. induction bs as [|b bs IH]; intros [|c cs] H; simplify_eq/=; [done|].
  f_equal; [|by apply IH]. pose proof (Z_of_range b). pose proof (Z_of_range c).
  assert (Z_of b `div` 16 = Z_of c `div` 16) by (apply hex_digit_inj; [| |done]; split;
    first [apply Z.div_pos; lia | apply Z.div_lt_upper_bound; lia]).
  assert (Z_of b `mod` 16 = Z_of c `mod` 16) by (apply hex_digit_inj; [| |done]; by apply Z.mod_pos_bound).
  rewrite <- (byte_of_Z_of b), <- (byte_of_Z_of c). f_equal.
  rewrite (Z.div_mod (Z_of b) 16), (Z.div_mod (Z_of c) 16) by lia. congruence.
Qed.

(** ** Base64 *)

(** The alphabet of [base64.RawStdEncoding]. *)
Definition base64_digits : string := "ABCDEFGHIJKLMNOPQRSTUVWXYZabcdefghijklmnopqrstuvwxyz0123456789+/".
Definition base64_digit (n : Z) : ascii := default "A"%char (String.get (Z.to_nat n) base64_digits).
Definition base64_value (a : ascii) : option Z := Z.of_nat <$> String.index 0 (String a "") base64_digits.

(** Sextets of a byte string. *)
Fixpoint sextets (bs : bytes) : list Z :=
  match bs with
  | [] => []
  | [a] => [Z_of a `div` 4; Z_of a `mod` 4 * 16]
  | [a; b] => [Z_of a `div` 4; Z_of a `mod` 4 * 16 + Z_of b `div` 16; Z_of b `mod` 16 * 4]
  | a :: b :: c :: bs =>
      Z_of a `div` 4 :: Z_of a `mod` 4 * 16 + Z_of b `div` 16 ::
      Z_of b `mod` 16 * 4 + Z_of c `div` 64 :: Z_of c `mod` 64 :: sextets bs
  end.

(** Their bytes again; bits left over at the end are ignored. *)
Fixpoint from_sextets (vs : list Z) : option bytes :=
  match vs with
  | [] => Some []
  | [_] => None
  | [v; w] => Some [byte_of (v * 4 + w `div` 16)]
  | [v; w; x] => Some [byte_of (v * 4 + w `div` 16); byte_of (w `mod` 16 * 16 + x `div` 4)]
  | v :: w :: x :: y :: vs =>
      bs ← from_sextets vs;
      Some (byte_of (v * 4 + w `div` 16) :: byte_of (w `mod` 16 * 16 + x `div` 4) ::
            byte_of (x `mod` 4 * 64 + y) :: bs)
  end.

(** [EncodeToString] and [DecodeString], which skips line breaks. *)
Definition base64 (bs : bytes) : string := String.string_of_list_ascii (base64_digit <$> sextets bs).
Definition from_base64 (s : string) : result bytes :=
  match vs ← mapM base64_value (filter (λ a, a ≠ "010"%char ∧ a ≠ "013"%char) (String.list_ascii_of_string s));
        from_sextets vs with
  | Some bs => Ok bs
  | None => Err "illegal base64 data"
  end.

Lemma base64_digit_value n :
  0 ≤ n < 64 → base64_value (base64_digit n) = Some n ∧ base64_digit n ≠ "010"%char ∧ base64_digit n ≠ "013"%char.
Proof.
  intros Hn. assert (n ∈ seqZ 0 64) as Hin by by apply elem_of_seqZ. clear Hn. revert n Hin.
  apply Forall_forall. by repeat constructor.
Qed.

Lemma bytes_by_three (P : bytes → Prop) :
  P [] → (∀ a, P [a]) → (∀ a b, P [a; b]) → (∀ a b c bs, P bs → P (a :: b :: c :: bs)) → ∀ bs, P bs.
Proof.
  intros H0 H1 H2 H3. fix IH 1. intros [|a [|b [|c bs]]]; [done|apply H1|apply H2|apply H3, IH].
Qed.

Lemma sextets_range bs : Forall (λ v, 0 ≤ v < 64) (sextets bs).
Proof.
  induction bs as [|a|a b|a b c bs IH] using bytes_by_three; cbn [sextets]; repeat constructor; try done;
    pose proof (Z_of_range a); try pose proof (Z_of_range b); try pose proof (Z_of_range c);
    Z.to_euclidean_division_equations; lia.
Qed.

Lemma byte_of_eq a z : z = Z_of a → byte_of z = a.
Proof. intros ->. apply byte_of_Z_of. Qed.

Lemma from_sextets_sextets bs : from_sextets (sextets bs) = Some bs.
Proof.
  induction bs as [|a|a b|a b c bs IH] using bytes_by_three; cbn [sextets from_sextets]; [done|..|rewrite IH; cbn];
    do 2 f_equal; repeat match goal with |- _ :: _ = _ :: _ => f_equal end; try done; apply byte_of_eq;
    pose proof (Z_of_range a); try pose proof (Z_of_range b); try pose proof (Z_of_range c);
    Z.to_euclidean_division_equations; lia.
Qed.

Lemma from_base64_base64 bs : from_base64 (base64 bs) = Ok bs.
Proof.
  unfold from_base64, base64. rewrite String.list_ascii_of_string_of_list_ascii.
  pose proof (sextets_range bs) as Hr.
  assert (filter (λ a, a ≠ "010"%char ∧ a ≠ "013"%char) (base64_digit <$> sextets bs) = base64_digit <$> sextets bs) as ->.
  { induction Hr as [|v vs Hv _ IH]; [done|]. cbn. rewrite decide_True; [by f_equal|]. by apply base64_digit_value. }
  assert (mapM base64_value (base64_digit <$> sextets bs) = Some (sextets bs)) as ->.
  { apply mapM_Some_2, Forall2_fmap_l, Forall_Forall2_diag. eapply Forall_impl; [exact Hr|]. intros v Hv.
    by apply base64_digit_value. }
  cbn. by rewrite from_sextets_sextets.
Qed.

(** [strings.Trim(s, cutset) == ""]: only characters of [cutset]. *)
Fixpoint only_of (cutset s : string) : bool :=
  match s with
  | "" => true
  | String a s => Contains cutset (String a "") && only_of cutset s
  end.

Lemma hex_only bs : only_of hex_digits (hex bs) = true.
Proof. induction bs as [|b bs IH]; simpl; [done|]. rewrite IH. by destruct b. Qed.

(** ** The primitives *)

Class Crypto := {
  sha256 : bytes → bytes;
  hmac_sha256 : bytes → bytes → bytes;
  hkdf_key : bytes → string → string → bytes;
  gcm_seal : bytes → bytes → bytes → string → bytes;
  gcm_open : bytes → bytes → bytes → string → option bytes;
  sha256_some m : sha256 m ≠ [];
  hmac_length key message : length (hmac_sha256 key message) = 32%nat;
  hkdf_length secret salt info : length (hkdf_key secret salt info) = 32%nat;
  gcm_seal_length key nonce plain aad : length (gcm_seal key nonce plain aad) = (length plain + 16)%nat;
  gcm_open_seal key nonce plain aad :
    gcm_open key nonce (gcm_seal key nonce plain aad) aad = Some plain;
}.

Definition keySize : nat := 32.
Definition nonceSize : nat := 12.

Section crypto.
Context `{!Crypto}.

(** [Derive]. *)
Definition Derive (dataKey : bytes) (workloadID purpose : string) : result bytes :=
  if negb (length dataKey =? keySize)%nat then Err "invalid data key length"
  else Ok (hkdf_key dataKey workloadID ("shift/v1/" +:+ purpose)).

(** [Address]. *)
Definition Address_of (dataKey : bytes) (workloadID : string) (plaintext : bytes) : result string :=
  addressKey ← Derive dataKey workloadID "content-address";
  Ok (hex (hmac_sha256 addressKey plaintext)).

(** [Encrypt], with the nonce it draws. *)
Definition Encrypt (dataKey : bytes) (workloadID purpose : string) (plaintext : bytes) (aad : string)
    (nonce : bytes) : result bytes :=
  aeadKey ← Derive dataKey workloadID purpose;
  Ok (gcm_seal aeadKey nonce plaintext aad).

(** [Decrypt]. *)
Definition Decrypt (dataKey : bytes) (workloadID purpose : string) (nonce ciphertext : bytes)
    (aad : string) : result bytes :=
  aeadKey ← Derive dataKey workloadID purpose;
  if negb (length nonce =? nonceSize)%nat then Err "invalid nonce size"
  else match gcm_open aeadKey nonce ciphertext aad with
       | None => Err "authenticated decryption failed"
       | Some plaintext => Ok plaintext
       end.

Lemma Decrypt_Encrypt dataKey workloadID purpose plaintext aad nonce ciphertext :
  length nonce = nonceSize →
  Encrypt dataKey workloadID purpose plaintext aad nonce = Ok ciphertext →
  Decrypt dataKey workloadID purpose nonce ciphertext aad = Ok plaintext.
Proof.
  intros Hn. unfold Encrypt, Decrypt. destruct (Derive _ _ _) as [k|]; [|done]. rewrite !ok_bind.
  intros [= <-]. by rewrite Hn, gcm_open_seal.
Qed.

Lemma Address_shape dataKey workloadID plaintext a :
  Address_of dataKey workloadID plaintext = Ok a →
  String.length a = 64%nat ∧ only_of hex_digits a = true.
Proof.
  unfold Address_of. destruct (Derive _ _ _) as [k|]; [|done]. rewrite ok_bind. intros [= <-].
  by rewrite hex_length, hmac_length, hex_only.
Qed.
End crypto.

(** Toy primitives that keep the laws. *)
Definition toy_crypto : Crypto.
Proof.
  refine (Build_Crypto (λ m, x00 :: m) (λ _ m, take 32 (m ++ replicate 32 x00))
    (λ secret _ _, take 32 (secret ++ replicate 32 x00)) (λ _ _ plain _, plain ++ replicate 16 x00)
    (λ _ _ sealed _, Some (take (length sealed - 16) sealed)) _ _ _ _ _).
  - done.
  - intros _ m. rewrite length_take, length_app, length_replicate. lia.
  - intros m _ _. rewrite length_take, length_app, length_replicate. lia.
  - intros _ _ plain _. by rewrite length_app, length_replicate.
  - intros _ _ plain _. rewrite length_app, length_replicate. f_equal.
    rewrite take_app_le by lia. rewrite take_ge by lia. done.
Defined.
