(* ===== verification/Collection.v ===== *)
(** * The encrypted collection ([internal/securestore/collection.go])

    Every durable record of the agent (workloads, sessions, restores,
    migrations) lives in an [EncryptedCollection]: a map in memory, an
    encrypted snapshot file, and a write-ahead journal of encrypted lines
    that is folded into the snapshot when it grows.  The model keeps the two
    files byte by byte, so torn writes, truncation and lines merged by a
    failed append are what they are on disk.  Each call into the operating
    system asks the environment for its outcome, and the process may be
    killed before any of them (see [Prog]).

    JSON, base64 and AES-GCM are an interface, [Sealing], with the round trip
    laws the code relies on; [persistence.WriteFile] is modelled call by call
    up to the rename that makes a snapshot visible.  A call that writes is
    visible to whoever opens the files next, synced or not: the death of the
    process is modelled, and the loss of power is not. *)
From Stdlib Require Import Ascii.
From S2P Require Import Prelude Prog.

(** ** The codec *)

(** One journal line before JSON encoding; [Sealed] stands for the [Nonce]
    and [Ciphertext] fields. *)
Record entry := {
  EntryFormat : Z;
  EntryRevision : Z;
  EntryOp : string;
  EntryID : string;
  Sealed : list ascii;
}.

Definition newline : ascii := "010"%char.

Record collectionData (T : Type) := {
  DataRevision : Z;
  Items : gmap string T;
}.
Arguments DataRevision {T} _.
Arguments Items {T} _.
Arguments Build_collectionData {T} _ _.

(** What the collection needs of JSON and of authenticated encryption: a line
    or a snapshot it wrote reads back under the same label. *)
Class Sealing (T : Type) := {
  marshal_entry : entry → list ascii;
  unmarshal_entry : list ascii → option entry;
  marshal_value : T → list ascii;
  unmarshal_value : list ascii → option T;
  encrypt_entry : Z → string → Z → string → string → list ascii → list ascii;
  decrypt_entry : string → entry → option (list ascii);
  seal_data : Z → string → collectionData T → list ascii;
  open_data : string → list ascii → option (collectionData T);
  marshal_entry_line e : marshal_entry e ≠ [] ∧ newline ∉ marshal_entry e;
  unmarshal_marshal_entry e : unmarshal_entry (marshal_entry e) = Some e;
  unmarshal_marshal_value v : unmarshal_value (marshal_value v) = Some v;
  decrypt_encrypt nonce label rev op id plain :
    decrypt_entry label {| EntryFormat := 1; EntryRevision := rev; EntryOp := op; EntryID := id;
      Sealed := encrypt_entry nonce label rev op id plain |} = Some plain;
  open_seal nonce label d : open_data label (seal_data nonce label d) = Some d;
}.

(** ** The environment *)

Inductive call :=
| CReadSnapshot | CReadJournal | CStat | CKey | CMarshal | CEncrypt
| CMkdirTemp | CCreateTemp | CChmod | CTempWrite | CTempSync | CTempClose | CRename
| COpenDirectory | CSyncDirectory | CRemoveDamaged | CRemoveCompacted
| CMkdirJournal | COpenJournal | CFstat | CWrite | CSync
| CTruncateOpen (tail : bool) | CTruncate (tail : bool) | CTruncateSync (tail : bool).

(** [Partial n] is a write that put [n] bytes in the file and then failed;
    [Nonce n] is a success that drew randomness. *)
Inductive answer := Success | Failure | Partial (n : nat) | Nonce (n : Z).

Definition ok_answer (a : answer) : bool :=
  match a with Success | Nonce _ => true | _ => false end.
Definition nonce_of (a : answer) : Z := match a with Nonce n => n | _ => 0 end.

(** What each call would do if it were the next one. *)
Definition env := call → answer.

Section collection.
Context {T : Type} `{S : !Sealing T}.

#[local] Abbreviation data := (collectionData T).

Record collection := {
  label : string;
  cdata : data;
  journalEntryN : Z;
  journalBytes : Z;
  journalDamaged : bool;
}.

#[export] Instance collection_eta : Eta collection := fun c =>
  Build_collection (label c) (cdata c) (journalEntryN c) (journalBytes c) (journalDamaged c).

(** The two files of a collection. *)
Record disk := {
  snapshot : option (list ascii);
  journal : option (list ascii);
}.
#[export] Instance disk_eta : Eta disk := fun d => Build_disk (snapshot d) (journal d).

Record world := {
  dsk : disk;
  col : collection;
}.
#[export] Instance world_eta : Eta world := fun w => Build_world (dsk w) (col w).

Notation "'io' A" := (prog world env A) (at level 9).

(** One system call: whether it succeeded. *)
Definition sys (c : call) : io bool := e ← ask; mret (ok_answer (e c)).

Definition attempt (c : call) (p : io bool) : io bool :=
  ok ← sys c; if (ok : bool) then p else mret false.

Definition set_dsk (f : disk → disk) : io unit := modify (λ w, w <| dsk := f (dsk w) |>).
Definition set_col (f : collection → collection) : io unit :=
  modify (λ w, w <| col := f (col w) |>).

Definition set_revision (r : Z) (c : collection) : collection :=
  c <| cdata := {| DataRevision := r; Items := Items (cdata c) |} |>.
Definition set_items (i : gmap string T) (c : collection) : collection :=
  c <| cdata := {| DataRevision := DataRevision (cdata c); Items := i |} |>.

(** ** Snapshots *)

(** [syncDirectory]. *)
Definition syncDirectory : io bool := attempt COpenDirectory (sys CSyncDirectory).

(** [persistence.WriteFile] on the snapshot path: the temporary file is
    invisible until the rename, and a failed directory sync reports an error
    after it. *)
Definition WriteFile (bytes : list ascii) : io bool :=
  attempt CMkdirTemp (attempt CCreateTemp (attempt CChmod (attempt CTempWrite
  (attempt CTempSync (attempt CTempClose (attempt CRename (
    _ ← set_dsk (λ d, d <| snapshot := Some bytes |>);
    syncDirectory))))))).

(** [persist].  The snapshot is what the next process reads from the rename on,
    also when the sync of the directory has failed. *)
Definition persist : io bool :=
  attempt CKey (attempt CMarshal (
    e ← ask;
    if negb (ok_answer (e CEncrypt)) then mret false
    else w ← get; WriteFile (seal_data (nonce_of (e CEncrypt)) (label (col w)) (cdata (col w))))).

(** [truncateJournal]; [tail] tells the cut of a torn tail at open time from
    the cut of a failed append. *)
Definition truncateJournal (tail : bool) (size : nat) : io bool :=
  attempt (CTruncateOpen tail) (attempt (CTruncate tail) (
    _ ← set_dsk (λ d, d <| journal := take size <$> journal d |>);
    sys (CTruncateSync tail))).

Definition journalCompactEntries : Z := 128.
Definition journalCompactBytes : Z := 256 * 1024.

(** [compact]; removing a journal that does not exist is not an error. *)
Definition compact : io bool :=
  ok ← persist;
  if negb ok then mret false
  else
    ok ← sys CRemoveCompacted;
    w ← get;
    if negb ok && bool_decide (is_Some (journal (dsk w))) then mret false
    else
      _ ← set_dsk (λ d, d <| journal := None |>);
      _ ← set_col (λ c, c <| journalEntryN := 0 |> <| journalBytes := 0 |>);
      mret true.

(** [maybeCompact]. *)
Definition maybeCompact : io unit :=
  w ← get;
  if (journalEntryN (col w) <? journalCompactEntries) &&
     (journalBytes (col w) <? journalCompactBytes)
  then mret tt
  else _ ← compact; mret tt.

(** ** Mutations *)

Inductive mutation := MPut (id : string) (v : T) | MDelete (id : string).

Definition op_of (m : mutation) : string :=
  match m with MPut _ _ => "put" | MDelete _ => "delete" end.
Definition id_of (m : mutation) : string := match m with MPut id _ | MDelete id => id end.
Definition plain_of (m : mutation) : list ascii :=
  match m with MPut _ v => marshal_value v | MDelete _ => [] end.

(** The effect of a mutation on the map. *)
Definition mutate (m : mutation) (i : gmap string T) : gmap string T :=
  match m with MPut id v => <[id := v]> i | MDelete id => delete id i end.

(** The entry written for a mutation. *)
Definition entry_of (nonce : Z) (label : string) (rev : Z) (m : mutation) : entry := {|
  EntryFormat := 1; EntryRevision := rev; EntryOp := op_of m; EntryID := id_of m;
  Sealed := encrypt_entry nonce label rev (op_of m) (id_of m) (plain_of m) |}.

(** The write, sync and roll-back of one line at the end of the journal. *)
Definition append_line (next : Z) (line : list ascii) : io bool :=
  attempt CMkdirJournal (attempt COpenJournal (
    _ ← set_dsk (λ d, d <| journal := Some (default [] (journal d)) |>);
    attempt CFstat (
      w ← get;
      let preSize := length (default [] (journal (dsk w))) in
      e ← ask;
      let '(landed, writeOK) := match e CWrite with
                                | Success | Nonce _ => (length line, true)
                                | Partial n => (n, false)
                                | Failure => (O, false)
                                end in
      _ ← set_dsk (λ d, d <| journal := (.++ take landed line) <$> journal d |>);
      syncOK ← sys CSync;
      if writeOK && syncOK then
        _ ← set_col (set_revision next);
        _ ← set_col (λ c, c <| journalEntryN := journalEntryN c + 1 |>
                            <| journalBytes := int64 (journalBytes c + Z.of_nat (length line)) |>);
        _ ← maybeCompact;
        mret true
      else
        ok ← truncateJournal false preSize;
        _ ← (if (ok : bool) then mret tt else set_col (set_revision next));
        mret false))).

(** Write the whole state as a snapshot at revision [next], taking the
    revision back when the write fails. *)
Definition persist_at (next : Z) : io bool :=
  w ← get;
  let previous := DataRevision (cdata (col w)) in
  _ ← set_col (set_revision next);
  ok ← persist;
  _ ← (if (ok : bool) then mret tt else set_col (set_revision previous));
  mret ok.

(** [appendEntry]. *)
Definition appendEntry (m : mutation) : io bool :=
  w ← get;
  let next := uint64 (DataRevision (cdata (col w)) + 1) in
  if journalDamaged (col w) then
    ok ← persist_at next;
    if negb ok then mret false
    else
      removed ← sys CRemoveDamaged;
      _ ← (if (removed : bool) then set_dsk (λ d, d <| journal := None |>) else mret tt);
      _ ← set_col (λ c, c <| journalEntryN := 0 |> <| journalBytes := 0 |>
                          <| journalDamaged := false |>);
      mret true
  else
    stat ← sys CStat;
    if stat && bool_decide (snapshot (dsk w) = None) then persist_at next
    else
      attempt CKey (attempt CMarshal (
        e ← ask;
        if negb (ok_answer (e CEncrypt)) then mret false
        else append_line next
               (marshal_entry (entry_of (nonce_of (e CEncrypt)) (label (col w)) next m) ++
                [newline]))).

(** The common part of [Put], [Update] and [Delete]: the map is changed
    first and restored when the entry cannot be made durable. *)
Definition commit_mutation (m : mutation) : io bool :=
  w ← get;
  let before := Items (cdata (col w)) in
  _ ← set_col (set_items (mutate m before));
  ok ← appendEntry m;
  _ ← (if (ok : bool) then mret tt else set_col (set_items before));
  mret ok.

(** [Put]. *)
Definition Put (id : string) (v : T) : io bool :=
  if decide (id = "") then mret false else commit_mutation (MPut id v).

(** [Update]: the callback may refuse. *)
Definition Update (id : string) (update : T → result T) : io (result T) :=
  w ← get;
  match Items (cdata (col w)) !! id with
  | None => mret (Err "record not found")
  | Some current =>
      match update current with
      | Err e => mret (Err e)
      | Ok next =>
          ok ← commit_mutation (MPut id next);
          mret (if (ok : bool) then Ok next else Err "append failed")
      end
  end.

(** [Delete]. *)
Definition Delete (id : string) : io bool :=
  w ← get;
  match Items (cdata (col w)) !! id with
  | None => mret false
  | Some _ => commit_mutation (MDelete id)
  end.

(** ** Opening *)

(** [bytes.Split(encoded, "\n")]. *)
Fixpoint split_lines (bytes : list ascii) : list (list ascii) :=
  match bytes with
  | [] => [[]]
  | b :: rest =>
      if decide (b = newline) then [] :: split_lines rest
      else match split_lines rest with
           | [] => [[b]]
           | l :: ls => (b :: l) :: ls
           end
  end.

Record replayed := {
  rdata : data;
  rentries : Z;
  rdamaged : bool;
  rtorn : option nat;
}.

(** The loop of [replayJournal] over the lines of the journal. *)
Fixpoint replay (label : string) (lines : list (list ascii)) (offset : nat) (d : data) (n : Z)
    : replayed :=
  let stop := {| rdata := d; rentries := n; rdamaged := true; rtorn := None |} in
  match lines with
  | [] => {| rdata := d; rentries := n; rdamaged := false; rtorn := None |}
  | [line] =>
      {| rdata := d; rentries := n; rdamaged := false;
         rtorn := match line with [] => None | _ => Some offset end |}
  | line :: rest =>
      let offset' := (offset + length line + 1)%nat in
      match line with
      | [] => replay label rest offset' d n
      | _ =>
          match unmarshal_entry line with
          | None => stop
          | Some e =>
              if negb (EntryFormat e =? 1) ||
                 negb (bool_decide (EntryOp e = "put")) && negb (bool_decide (EntryOp e = "delete"))
                 || bool_decide (EntryID e = "") then stop
              else if EntryRevision e <? DataRevision d then replay label rest offset' d n
              else
                match decrypt_entry label e with
                | None => stop
                | Some plain =>
                    if decide (EntryOp e = "put") then
                      match unmarshal_value plain with
                      | None => stop
                      | Some v =>
                          replay label rest offset'
                            {| DataRevision := EntryRevision e;
                               Items := <[EntryID e := v]> (Items d) |} (n + 1)
                      end
                    else
                      replay label rest offset'
                        {| DataRevision := EntryRevision e;
                           Items := delete (EntryID e) (Items d) |} (n + 1)
                end
          end
      end
  end.

Definition empty_data : data := {| DataRevision := 0; Items := ∅ |}.

(** [replayJournal]. *)
Definition replayJournal : io bool :=
  w ← get;
  match journal (dsk w) with
  | None => mret true
  | Some encoded =>
      attempt CReadJournal (
        let r := replay (label (col w)) (split_lines encoded) 0 (cdata (col w)) 0 in
        _ ← set_col (λ c, c <| cdata := rdata r |> <| journalEntryN := rentries r |>
                            <| journalBytes := Z.of_nat (length encoded) |>);
        cut ← match rtorn r with
              | None => mret true
              | Some at_ =>
                  ok ← truncateJournal true at_;
                  _ ← (if (ok : bool)
                       then set_col (λ c, c <| journalBytes := Z.of_nat at_ |>)
                       else mret tt);
                  mret ok
              end;
        _ ← (if rdamaged r || negb cut then set_col (λ c, c <| journalDamaged := true |>)
             else mret tt);
        mret true)
  end.

(** [OpenEncryptedCollection] in a new process. *)
Definition OpenEncryptedCollection (lbl : string) : io bool :=
  _ ← set_col (λ _, {| label := lbl; cdata := empty_data; journalEntryN := 0;
                       journalBytes := 0; journalDamaged := false |});
  w ← get;
  match snapshot (dsk w) with
  | None => replayJournal
  | Some bytes =>
      attempt CReadSnapshot (
        match open_data lbl bytes with
        | None => mret false
        | Some d => _ ← set_col (λ c, c <| cdata := d |>); replayJournal
        end)
  end.

(** ** The abstract contract

    A client sees a map.  A mutation that returns success has been applied, a
    mutation that returns failure has not, and one the process died in has
    been applied entirely or not at all. *)

Definition step (d : data) (rm : Z * mutation) : data :=
  if rm.1 <? DataRevision d then d
  else {| DataRevision := rm.1; Items := mutate rm.2 (Items d) |}.

Definition next_data (d : data) (m : mutation) : data :=
  {| DataRevision := DataRevision d + 1; Items := mutate m (Items d) |}.

(** [line] is what [replay] reads back as mutation [rm.2] at revision [rm.1]. *)
Definition encodes (lbl : string) (line : list ascii) (rm : Z * mutation) : Prop :=
  line ≠ [] ∧ (newline ∉ line) ∧ id_of rm.2 ≠ "" ∧
  ∃ nonce, line = marshal_entry (entry_of nonce lbl rm.1 rm.2).

Definition unlines (lines : list (list ascii)) : list ascii :=
  concat ((λ l, l ++ [newline]) <$> lines).

Definition opens (lbl : string) (snap : option (list ascii)) (d : data) : Prop :=
  match snap with None => d = empty_data | Some b => open_data lbl b = Some d end.

(** A journal entry that is already accounted for in [d]. *)
Definition covered (d : data) (rm : Z * mutation) : Prop :=
  rm.1 ≤ DataRevision d ∧ (rm.1 = DataRevision d → mutate rm.2 (Items d) = Items d).

(** The files hold exactly [d]; [clean] says the journal has no torn tail. *)
Definition holds (lbl : string) (clean : bool) (dk : disk) (d : data) : Prop :=
  ∃ d0 rms lines tail,
    opens lbl (snapshot dk) d0 ∧
    default [] (journal dk) = unlines lines ++ tail ∧
    (newline ∉ tail) ∧ (clean = true → tail = []) ∧
    Forall2 (encodes lbl) lines rms ∧
    fold_left step rms d0 = d ∧ Forall (covered d) rms.

(** A live collection: the memory is [d] and so are the files. *)
Definition live (lbl : string) (d : data) (w : world) : Prop :=
  label (col w) = lbl ∧ cdata (col w) = d ∧
  holds lbl (negb (journalDamaged (col w))) (dsk w) d.

(** Two failures the code cannot survive are excluded, each by name: the
    failed append that cannot be cut out of the journal again, and the
    damaged journal that cannot be removed.  So is a directory sync that
    fails after the rename it follows, which reports a written snapshot as
    not written. *)
Definition benign (e : env) : Prop :=
  ok_answer (e (CTruncateOpen false)) = true ∧ ok_answer (e (CTruncate false)) = true ∧
  ok_answer (e (CTruncateSync false)) = true ∧ ok_answer (e CRemoveDamaged) = true ∧
  ok_answer (e COpenDirectory) = true ∧ ok_answer (e CSyncDirectory) = true.

(** *** Replay of a well-formed journal *)

Lemma unlines_cons line lines : unlines (line :: lines) = line ++ newline :: unlines lines.
Proof. unfold unlines. simpl. by rewrite <- app_assoc. Qed.

Lemma split_lines_app line rest :
  newline ∉ line → split_lines (line ++ newline :: rest) = line :: split_lines rest.
Proof.
  induction line as [|b line IH]; intros H; [done|]; simpl.
  apply not_elem_of_cons in H as [? ?]. rewrite decide_False by done. by rewrite IH.
Qed.

Lemma split_lines_tail tail : newline ∉ tail → split_lines tail = [tail].
Proof.
  induction tail as [|b tail IH]; simpl; intros H; [done|].
  apply not_elem_of_cons in H as [? ?]. rewrite decide_False by done. by rewrite IH.
Qed.

Lemma split_unlines lbl lines rms tail :
  Forall2 (encodes lbl) lines rms → newline ∉ tail →
  split_lines (unlines lines ++ tail) = lines ++ [tail].
Proof.
  induction 1 as [|line rm lines rms He _ IH]; intros Ht; simpl; [by apply split_lines_tail|].
  rewrite unlines_cons, <- app_assoc. simpl.
  rewrite split_lines_app by apply He. f_equal. by apply IH.
Qed.

(** One well-formed line is one [step]. *)
Lemma replay_step lbl line rm rest offset d n :
  encodes lbl line rm → rest ≠ [] → ∃ n',
    replay lbl (line :: rest) offset d n =
    replay lbl rest (offset + length line + 1) (step d rm) n'.
Proof.
  intros (Hn & _ & Hid & nonce & Hl) Hrest. destruct rest as [|r rest]; [done|].
  destruct line as [|b line]; [done|].
  assert (unmarshal_entry (b :: line) = Some (entry_of nonce lbl rm.1 rm.2)) as Hu
    by (rewrite Hl; apply unmarshal_marshal_entry).
  unfold step. simpl replay. rewrite Hu. destruct rm as [rev m]. simpl in *.
  rewrite (bool_decide_false (id_of m = "")) by done.
  destruct (rev <? DataRevision d) eqn:Hr.
  - exists n. destruct m; simpl; by rewrite ?Hr.
  - exists (n + 1). destruct m as [id v|id]; simpl; rewrite ?Hr;
      unfold entry_of; simpl; rewrite decrypt_encrypt; simpl.
    + by rewrite unmarshal_marshal_value.
    + done.
Qed.

Lemma replay_holds lbl lines rms tail offset d n :
  Forall2 (encodes lbl) lines rms →
  let r := replay lbl (lines ++ [tail]) offset d n in
  rdata r = fold_left step rms d ∧ rdamaged r = false ∧
  rtorn r = match tail with [] => None | _ => Some (offset + length (unlines lines))%nat end.
Proof.
  intros H. revert offset d n. induction H as [|line rm lines rms He _ IH]; intros offset d n r.
  - subst r. simpl. repeat split; try done. destruct tail; [done|]. f_equal. simpl. lia.
  - subst r. simpl app. destruct (replay_step lbl line rm (lines ++ [tail]) offset d n) as [n' ->];
      [done|by destruct lines|].
    destruct (IH (offset + length line + 1)%nat (step d rm) n') as (-> & -> & ->).
    repeat split; try done. destruct tail; [done|]. f_equal. rewrite unlines_cons, length_app.
    simpl. lia.
Qed.

(** *** How each disk effect moves the contents *)

Lemma step_skip d rms :
  Forall (λ rm, rm.1 < DataRevision d) rms → fold_left step rms d = d.
Proof.
  induction 1 as [|rm rms Hr _ IH]; simpl; [done|]. unfold step at 2.
  apply Z.ltb_lt in Hr. by rewrite Hr.
Qed.

Lemma step_covered d rms : Forall (covered d) rms → fold_left step rms d = d.
Proof.
  induction 1 as [|rm rms [Hle Heq] _ IH]; simpl; [done|]. unfold step at 2.
  destruct (rm.1 <? DataRevision d) eqn:E; [done|]. to_prop.
  assert (rm.1 = DataRevision d) as Hrm by lia. rewrite Heq, Hrm by done. by destruct d.
Qed.

Lemma holds_weaken lbl clean dk d : holds lbl clean dk d → holds lbl false dk d.
Proof.
  intros (d0 & rms & lines & tail & H1 & H2 & H3 & _ & H). exists d0, rms, lines, tail. naive_solver.
Qed.

(** A snapshot of a newer state hides the whole journal. *)
Lemma holds_newer_snapshot lbl clean dk d d' b :
  holds lbl clean dk d → open_data lbl b = Some d' → DataRevision d < DataRevision d' →
  holds lbl clean (dk <| snapshot := Some b |>) d'.
Proof.
  intros (d0 & rms & lines & tail & H1 & H2 & H3 & H4 & H5 & H6 & H7) Hb Hlt.
  assert (Forall (λ rm, rm.1 < DataRevision d') rms) as Hall.
  { eapply Forall_impl; [exact H7|]. intros rm [Hr _]. lia. }
  exists d', rms, lines, tail. repeat split; try done.
  - by apply step_skip.
  - eapply Forall_impl; [exact Hall|]. intros rm Hr. simpl in Hr. split; lia.
Qed.

(** Folding the journal into a snapshot of the same state changes nothing. *)
Lemma holds_same_snapshot lbl clean dk d b :
  holds lbl clean dk d → open_data lbl b = Some d →
  holds lbl clean (dk <| snapshot := Some b |>) d.
Proof.
  intros (d0 & rms & lines & tail & H1 & H2 & H3 & H4 & H5 & H6 & H7) Hb.
  exists d, rms, lines, tail. repeat split; try done. by apply step_covered.
Qed.

Lemma holds_removed lbl clean dk d b :
  snapshot dk = Some b → open_data lbl b = Some d → holds lbl clean (dk <| journal := None |>) d.
Proof.
  intros Hs Hb. exists d, [], [], []. simpl. rewrite Hs.
  repeat split; try done; apply not_elem_of_nil.
Qed.

(** A whole line appended to a clean journal is the next state. *)
Lemma holds_append lbl dk j d m line :
  holds lbl true dk d → journal dk = Some j → encodes lbl line (DataRevision d + 1, m) →
  holds lbl true (dk <| journal := Some (j ++ line ++ [newline]) |>) (next_data d m).
Proof.
  intros (d0 & rms & lines & tail & H1 & H2 & H3 & H4 & H5 & H6 & H7) Hj He.
  rewrite (H4 eq_refl), app_nil_r, Hj in H2. simpl in H2.
  exists d0, (rms ++ [(DataRevision d + 1, m)]), (lines ++ [line]), []. simpl.
  repeat split; try done.
  - rewrite H2. unfold unlines. rewrite fmap_app, concat_app. simpl.
    by rewrite !app_nil_r.
  - apply not_elem_of_nil.
  - apply Forall2_app; [done|]. by constructor.
  - rewrite fold_left_app, H6. simpl. unfold step. simpl.
    destruct (Z.ltb_spec (DataRevision d + 1) (DataRevision d)); [lia|done].
  - apply Forall_app. split.
    + eapply Forall_impl; [exact H7|]. intros rm [Hr _]. split; simpl; lia.
    + constructor; [|done]. split; simpl; [lia|]. intros _. destruct m; simpl;
        [by rewrite insert_insert_eq|by rewrite delete_delete_eq].
Qed.

(** Part of a line is a torn tail: the contents do not change. *)
Lemma holds_torn lbl dk j d line k :
  holds lbl true dk d → journal dk = Some j → newline ∉ line →
  (k ≤ length line)%nat →
  holds lbl false (dk <| journal := Some (j ++ take k (line ++ [newline])) |>) d.
Proof.
  intros (d0 & rms & lines & tail & H1 & H2 & H3 & H4 & H5 & H6 & H7) Hj Hl Hk.
  rewrite (H4 eq_refl), app_nil_r, Hj in H2. simpl in H2.
  exists d0, rms, lines, (take k (line ++ [newline])). simpl.
  repeat split; try done; [by rewrite H2|].
  rewrite take_app_le by done. intros Hin. apply Hl.
  rewrite <- (take_drop k line). apply elem_of_app. by left.
Qed.

(** *** Triples *)

#[local] Abbreviation ctriple := (@triple world env benign _).

(** A state the process may die in while it carries out [m] on [d]. *)
Definition atomic_crash (lbl : string) (d : data) (m : mutation) (w : world) : Prop :=
  holds lbl false (dsk w) d ∨ holds lbl false (dsk w) (next_data d m).

Lemma ctriple_ask (P : world → Prop) (C : world → Prop) :
  (∀ w, P w → C w) → ctriple P ask (λ e w, benign e ∧ P w) C.
Proof. apply triple_ask. Qed.

Lemma triple_sys (c : call) (P C : world → Prop) :
  (∀ w, P w → C w) → ctriple P (sys c) (λ _, P) C.
Proof.
  intros HC. eapply triple_bind; [by apply triple_ask|]. intros e w es Hes [_ HP]. by split.
Qed.

(** A call that is assumed to succeed does. *)
Lemma triple_sys_benign (c : call) (P C : world → Prop) :
  (∀ e, benign e → ok_answer (e c) = true) → (∀ w, P w → C w) →
  ctriple P (sys c) (λ ok w, ok = true ∧ P w) C.
Proof.
  intros Hc HC. eapply triple_bind; [by apply triple_ask|].
  intros e w es Hes [He HP]. split; [|done]. split; [by apply Hc|done].
Qed.

(** [attempt]: the guarded body, or failure with nothing changed. *)
Lemma triple_attempt (c : call) (p : prog world env bool) (P C : world → Prop)
    (Q : bool → world → Prop) :
  (∀ w, P w → C w) → (∀ w, P w → Q false w) → ctriple P p Q C →
  ctriple P (attempt c p) Q C.
Proof.
  intros HC HQ Hp. eapply triple_bind; [by apply triple_sys|]. intros [|]; [done|].
  intros w es Hes HP. by split; [apply HQ|].
Qed.

Lemma triple_attempt_benign (c : call) (p : prog world env bool) (P C : world → Prop)
    (Q : bool → world → Prop) :
  (∀ e, benign e → ok_answer (e c) = true) → (∀ w, P w → C w) → ctriple P p Q C →
  ctriple P (attempt c p) Q C.
Proof.
  intros Hc HC Hp. eapply triple_bind; [by apply triple_sys_benign|].
  intros [|]; [|intros w es Hes [? HP]; done]. eapply triple_conseq; [exact Hp|naive_solver..].
Qed.

(** [persist] makes the memory the snapshot, or fails and changes nothing. *)
Lemma triple_persist (lbl : string) (c : collection) (dk : disk) (C : world → Prop) :
  label c = lbl →
  (∀ w, col w = c → dsk w = dk → C w) →
  (∀ w b, col w = c → open_data lbl b = Some (cdata c) →
          dsk w = dk <| snapshot := Some b |> → C w) →
  ctriple (λ w, col w = c ∧ dsk w = dk) persist
    (λ ok w, col w = c ∧
       if ok then ∃ b, open_data lbl b = Some (cdata c) ∧ dsk w = dk <| snapshot := Some b |>
       else dsk w = dk) C.
Proof.
  intros Hl HC1 HC2. unfold persist, WriteFile.
  assert (∀ w, col w = c ∧ dsk w = dk → C w) as HC by naive_solver.
  do 2 (apply triple_attempt; [done|naive_solver|]).
  eapply triple_bind; [by apply triple_ask|]. intros e. destruct (ok_answer (e CEncrypt));
    [|intros w es Hes [_ ?]; naive_solver].
  eapply triple_bind; [apply triple_get|]. intros w0.
  apply (triple_pre _ _ (λ w, w0 = w ∧ col w = c ∧ dsk w = dk)); [naive_solver|].
  do 7 (apply triple_attempt; [naive_solver|naive_solver|]).
  set (b := seal_data _ _ _).
  eapply (triple_bind _ _ _ _ (λ _ w, col w = c ∧ open_data lbl b = Some (cdata c) ∧
                                 dsk w = dk <| snapshot := Some b |>)).
  { apply triple_modify. intros w (-> & Hc & <-). simpl. split; [done|]. split; [|done].
    subst b lbl. rewrite Hc. apply open_seal. }
  intros _. apply triple_attempt_benign; [by intros e' He; apply He|naive_solver|].
  eapply triple_post; [|apply triple_sys_benign; [by intros e' He; apply He|naive_solver]].
  intros [|]; naive_solver.
Qed.

(** The memory carries [m], the files do not yet. *)
Definition pending (lbl : string) (d : data) (m : mutation) (w : world) : Prop :=
  label (col w) = lbl ∧
  cdata (col w) = {| DataRevision := DataRevision d; Items := mutate m (Items d) |} ∧
  holds lbl (negb (journalDamaged (col w))) (dsk w) d.

Lemma pending_crash lbl d m w : pending lbl d m w → atomic_crash lbl d m w.
Proof. intros (_ & _ & H). left. by eapply holds_weaken. Qed.

Lemma live_crash lbl d m w : live lbl (next_data d m) w → atomic_crash lbl d m w.
Proof. intros (_ & _ & H). right. by eapply holds_weaken. Qed.

#[local] Hint Resolve pending_crash live_crash holds_weaken : core.

(** A snapshot written at the next revision commits the mutation. *)
Lemma triple_persist_at lbl d m :
  ctriple (pending lbl d m) (persist_at (DataRevision d + 1))
    (λ ok w, if ok then live lbl (next_data d m) w ∧
                        (∃ b, snapshot (dsk w) = Some b ∧ open_data lbl b = Some (next_data d m))
             else pending lbl d m w)
    (atomic_crash lbl d m).
Proof.
  unfold persist_at. apply triple_get_bind. intros w0 (Hl & Hc & Hh).
  apply triple_modify_at. simpl.
  set (c := set_revision _ _). assert (cdata c = next_data d m) as Hcd
    by (subst c; unfold set_revision; simpl; by rewrite Hc).
  assert (journalDamaged c = journalDamaged (col w0)) as Hj by done.
  assert (∀ b, open_data lbl b = Some (cdata c) →
    holds lbl (negb (journalDamaged c)) ((dsk w0) <| snapshot := Some b |>) (next_data d m)) as Hnew.
  { intros b Hb. rewrite Hj. eapply holds_newer_snapshot; [done|by rewrite <- Hcd|simpl; lia]. }
  eapply triple_bind.
  { eapply triple_pre; [|apply (triple_persist lbl c (dsk w0))].
    - intros w ->. by split.
    - done.
    - intros w _ Hd. left. rewrite Hd. eauto.
    - intros w b _ Hb Hd. right. rewrite Hd. eapply holds_weaken, Hnew, Hb. }
  intros [|]; simpl.
  - eapply triple_bind; [apply triple_ret|]. intros u. apply triple_return.
    intros w (_ & Hw & b & Hb & Hd). unfold live. rewrite Hw, Hd.
    repeat split; [by subst c|done|by apply Hnew|]. exists b. by rewrite <- Hcd.
  - eapply triple_bind; [by apply triple_modify with (Q := pending lbl d m);
      intros w [Hw Hd]; unfold pending; simpl; rewrite Hw, Hd, Hc; subst c; simpl; rewrite Hc|].
    intros []. by apply triple_return.
Qed.

(** Compaction never changes what the collection holds. *)
Lemma triple_maybeCompact lbl d :
  ctriple (λ w, live lbl d w ∧ journalDamaged (col w) = false) maybeCompact
    (λ _ w, live lbl d w) (λ w, holds lbl false (dsk w) d).
Proof.
  unfold maybeCompact. apply triple_get_bind. intros w0 ((Hl & Hc & Hh) & Hj).
  destruct (_ && _). { apply triple_return. by intros w ->. }
  eapply triple_bind; [|intros; by apply triple_return with (P := live lbl d)].
  unfold compact. eapply triple_bind.
  { eapply triple_pre; [|apply (triple_persist lbl (col w0) (dsk w0))].
    - intros w ->. by split.
    - done.
    - intros w _ Hd. rewrite Hd. eauto.
    - intros w b _ Hb Hd. rewrite Hd, Hc in *. eapply holds_weaken, holds_same_snapshot; eauto. }
  intros [|]; simpl.
  2:{ apply triple_return. intros w [Hw Hd]. unfold live. by rewrite Hw, Hd. }
  apply triple_at. intros w1 (Hw & b & Hb & Hd). rewrite Hc in Hb.
  assert (live lbl d w1) as Hlive.
  { unfold live. rewrite Hw, Hd. repeat split; [done|done|]. by apply holds_same_snapshot. }
  assert (holds lbl false (dsk w1) d) as Hlive' by (eapply holds_weaken, Hlive).
  eapply triple_bind; [apply (triple_sys _ (λ w, w = w1)); intros w ->; apply Hlive'|].
  intros ok. apply triple_get_bind. intros w2 ->. destruct (_ && _).
  { apply triple_return. by intros w ->. }
  apply triple_modify_at. simpl.
  apply triple_modify_at. simpl. apply triple_return.
  intros w ->. unfold live. simpl. rewrite Hw, Hd. repeat split; [done|done|].
  eapply holds_removed; [done|done].
Qed.

(** Cutting the journal back to the length it had. *)
Lemma triple_truncateJournal lbl d m w0 j0 extra :
  pending lbl d m w0 → journal (dsk w0) = Some j0 →
  holds lbl false ((dsk w0) <| journal := Some (j0 ++ extra) |>) d ∨
  holds lbl false ((dsk w0) <| journal := Some (j0 ++ extra) |>) (next_data d m) →
  ctriple (λ w, w = w0 <| dsk := (dsk w0) <| journal := Some (j0 ++ extra) |> |>)
    (truncateJournal false (length j0)) (λ ok w, ok = true ∧ w = w0) (atomic_crash lbl d m).
Proof.
  intros Hp Hj Hcr. unfold truncateJournal.
  do 2 (apply triple_attempt_benign; [by intros e He; apply He|by intros w ->|]).
  apply triple_modify_at. simpl. rewrite take_app_length.
  assert (w0 <| dsk := (dsk w0) <| journal := Some j0 |> |> = w0) as Hw0.
  { destruct w0 as [[? ?] ?]; simpl in *. by subst. }
  simpl in Hw0. rewrite Hw0.
  apply triple_sys_benign; [by intros e He; apply He|]. intros w ->. eauto.
Qed.

(** The journal path of a mutation. *)
Lemma triple_append_line lbl d m line :
  encodes lbl line (DataRevision d + 1, m) →
  ctriple (λ w, pending lbl d m w ∧ journalDamaged (col w) = false)
    (append_line (DataRevision d + 1) (line ++ [newline]))
    (λ ok w, if ok then live lbl (next_data d m) w else pending lbl d m w)
    (atomic_crash lbl d m).
Proof.
  intros He. unfold append_line.
  do 2 (apply triple_attempt; [intros w [? _]; eauto|naive_solver|]).
  apply triple_at. intros w0 [Hp Hjd]. apply triple_modify_at.
  set (j0 := default [] (journal (dsk w0))).
  set (w1 := w0 <| dsk := (dsk w0) <| journal := Some j0 |> |>).
  assert (pending lbl d m w1) as Hp1 by exact Hp.
  assert (journal (dsk w1) = Some j0) as Hj1 by done.
  assert (holds lbl true (dsk w1) d) as Hh.
  { destruct Hp1 as (_ & _ & Hh). subst w1. simpl in *. by rewrite Hjd in Hh. }
  apply triple_attempt; [by intros w ->; eauto|by intros w ->|].
  apply triple_get_bind. intros ? ->.
  eapply triple_bind; [apply (triple_ask _ (λ w, w = w1)); by intros w ->; eauto|].
  intros e. apply triple_pure. intros _.
  destruct (match e CWrite with Success | Nonce _ => _ | _ => _ end) as [landed writeOK] eqn:HW.
  apply triple_modify_at. simpl.
  set (extra := take landed (line ++ [newline])).
  assert (holds lbl false ((dsk w1) <| journal := Some (j0 ++ extra) |>) d ∨
          (holds lbl true ((dsk w1) <| journal := Some (j0 ++ extra) |>) (next_data d m))) as Hcut.
  { subst extra. destruct (decide (landed ≤ length line)%nat).
    - left. eapply holds_torn; [done|done|apply He|done].
    - right. rewrite take_ge by (rewrite length_app; simpl; lia).
      by eapply holds_append. }
  set (w2 := w1 <| dsk := (dsk w1) <| journal := Some (j0 ++ extra) |> |>).
  assert (atomic_crash lbl d m w2) as Hcr2.
  { unfold atomic_crash. destruct Hcut as [Hcut|Hcut]; [left; done|right; eapply holds_weaken, Hcut]. }
  eapply triple_bind; [apply (triple_sys _ (λ w, w = w2)); by intros w ->|].
  intros syncOK. destruct (writeOK && syncOK) eqn:Hok.
  - to_prop. subst writeOK.
    assert (landed = length (line ++ [newline])) as -> by (destruct (e CWrite); congruence).
    assert (holds lbl true (dsk w2) (next_data d m)) as Hnew.
    { subst w2 extra. simpl. rewrite take_ge by lia. by apply (holds_append lbl (dsk w1) j0). }
    do 2 apply triple_modify_at. simpl.
    eapply triple_bind; [|intros; by apply triple_return with (P := live lbl (next_data d m))].
    eapply triple_conseq; [apply (triple_maybeCompact lbl (next_data d m))| |by intros ? ?|].
    + intros w ->. destruct Hp as (Hl & Hc & _). unfold live. simpl.
      rewrite Hc, Hjd. by repeat split.
    + intros w Hw. by right.
  - eapply triple_bind.
    { apply (triple_truncateJournal lbl d m w1 j0 extra); [done|done|].
      destruct Hcut as [Hcut|Hcut]; [by left|right]. eapply holds_weaken, Hcut. }
    intros ok. apply triple_pure. intros ->. simpl.
    eapply triple_bind; [apply triple_ret|]. intros u. apply triple_return. by intros w [_ ->].
Qed.

(** [appendEntry] makes a pending mutation durable or leaves it pending. *)
Lemma triple_appendEntry lbl d m :
  id_of m ≠ "" → 0 ≤ DataRevision d < 2 ^ 64 - 1 →
  ctriple (pending lbl d m) (appendEntry m)
    (λ ok w, if ok then live lbl (next_data d m) w else pending lbl d m w)
    (atomic_crash lbl d m).
Proof.
  intros Hid Hrev. unfold appendEntry. apply triple_get_bind. intros w0 Hp.
  pose proof Hp as (Hl & Hc & Hh). rewrite Hc. simpl. rewrite uint64_id by lia.
  destruct (journalDamaged (col w0)) eqn:Hjd.
  - eapply triple_bind; [eapply triple_pre; [|apply triple_persist_at]; by intros w ->|].
    intros [|]; simpl; [|by apply triple_return].
    apply triple_at. intros w1 [Hlive (b & Hs & Hb)].
    eapply triple_bind; [apply (triple_sys_benign _ (λ w, w = w1));
      [by intros e He; apply He|by intros w ->; eauto]|].
    intros ok. apply triple_pure. intros ->.
    eapply triple_bind; [apply (triple_modify _ _ (λ w, w = w1 <| dsk := (dsk w1) <| journal := None |> |>));
      by intros w ->|]. intros u.
    apply triple_modify_at. apply triple_return. intros w ->. destruct Hlive as (Hl1 & Hc1 & _).
    unfold live. simpl. rewrite Hc1. repeat split; [done..|]. by eapply holds_removed.
  - eapply triple_bind; [apply (triple_sys _ (λ w, w = w0)); by intros w ->; eauto|].
    intros stat. destruct (stat && _).
    { eapply triple_post; [|eapply triple_pre; [|apply triple_persist_at]; by intros w ->].
      intros [|]; naive_solver. }
    do 2 (apply triple_attempt; [by intros w ->; eauto|by intros w ->|]).
    eapply triple_bind; [apply (triple_ask _ (λ w, w = w0)); by intros w ->; eauto|].
    intros e. apply triple_pure. intros _.
    destruct (ok_answer (e CEncrypt)); simpl; [|apply triple_return; by intros w ->].
    eapply triple_pre; [|apply triple_append_line]; [by intros w ->|].
    subst lbl. pose proof (marshal_entry_line (entry_of (nonce_of (e CEncrypt)) (label (col w0))
                             (DataRevision d + 1) m)) as [? ?].
    repeat split; try done. by eexists.
Qed.

(** The contract of one mutation. *)
Lemma triple_commit lbl d m :
  id_of m ≠ "" → 0 ≤ DataRevision d < 2 ^ 64 - 1 →
  ctriple (live lbl d) (commit_mutation m)
    (λ ok w, live lbl (if ok then next_data d m else d) w) (atomic_crash lbl d m).
Proof.
  intros Hid Hrev. unfold commit_mutation. apply triple_get_bind. intros w0 (Hl & Hc & Hh).
  apply triple_modify_at. eapply triple_bind.
  { eapply triple_pre; [|by apply triple_appendEntry]. intros w ->.
    unfold pending, set_items. simpl. by rewrite Hc. }
  intros [|]; simpl.
  - eapply triple_bind; [apply triple_ret|]. intros u. apply triple_return. naive_solver.
  - eapply (triple_bind _ _ _ _ (λ _, live lbl d)); [|by intros u; apply triple_return].
    apply triple_modify. intros w (Hl' & Hc' & Hh'). unfold live, set_items. simpl.
    rewrite Hc'. simpl. rewrite Hc. by destruct d.
Qed.

(** The outcome of cutting a torn tail at open time. *)
Definition cut_post (lbl : string) (d : data) (ok : bool) (w : world) : Prop :=
  label (col w) = lbl ∧ cdata (col w) = d ∧ journalDamaged (col w) = false ∧
  holds lbl ok (dsk w) d.

Lemma triple_cut_tail lbl d w0 j0 tail :
  label (col w0) = lbl → cdata (col w0) = d → journalDamaged (col w0) = false →
  journal (dsk w0) = Some (j0 ++ tail) → holds lbl false (dsk w0) d →
  holds lbl true ((dsk w0) <| journal := Some j0 |>) d →
  ctriple (λ w, w = w0) (truncateJournal true (length j0)) (cut_post lbl d)
    (λ w, holds lbl false (dsk w) d).
Proof.
  intros Hl Hc Hd Hj Hh Hcut. unfold truncateJournal.
  do 2 (apply triple_attempt; [by intros w ->|by intros w ->; repeat split|]).
  apply triple_modify_at. simpl. rewrite Hj. simpl. rewrite take_app_length.
  set (w1 := {| dsk := _; col := _ |}).
  eapply triple_post; [|apply (triple_sys _ (λ w, w = w1)); intros w ->; by eapply holds_weaken].
  intros [|] w ->; repeat split; try done. by eapply holds_weaken.
Qed.

(** Replay turns the snapshot [d0] of the files into what they hold. *)
Lemma triple_replayJournal lbl d0 rms lines tail d w0 :
  label (col w0) = lbl → cdata (col w0) = d0 → journalDamaged (col w0) = false →
  opens lbl (snapshot (dsk w0)) d0 → default [] (journal (dsk w0)) = unlines lines ++ tail →
  (newline ∉ tail) → Forall2 (encodes lbl) lines rms → fold_left step rms d0 = d →
  Forall (covered d) rms →
  ctriple (λ w, w = w0) replayJournal
    (λ ok w, if ok then live lbl d w else holds lbl false (dsk w) d)
    (λ w, holds lbl false (dsk w) d).
Proof.
  intros Hl Hc Hj H1 H2 H3 H5 H6 H7.
  assert (holds lbl false (dsk w0) d) as Hh by (exists d0, rms, lines, tail; by repeat split).
  unfold replayJournal. apply triple_get_bind. intros ? ->.
  destruct (journal (dsk w0)) as [encoded|] eqn:Ej; simpl in H2.
  2:{ apply triple_return. intros w ->. destruct lines as [|l ls];
        [|rewrite unlines_cons in H2; by destruct l].
      inversion H5; subst rms. simpl in *. unfold live. rewrite Hj. subst d0 d.
      repeat split; [done|]. exists (cdata (col w0)), [], [], []. rewrite Ej.
      repeat split; try done. apply not_elem_of_nil. }
  apply triple_attempt; [by intros w ->|by intros w ->|].
  subst encoded. rewrite (split_unlines lbl _ rms) by done.
  destruct (replay_holds lbl lines rms tail 0 d0 0 H5) as (Hd & Hdam & Htorn).
  rewrite Hl, Hc, Hd, Hdam, Htorn, H6. apply triple_modify_at. simpl.
  set (w1 := {| dsk := _; col := _ |}).
  assert (holds lbl true ((dsk w1) <| journal := Some (unlines lines) |>) d) as Hclean.
  { exists d0, rms, lines, []. simpl. rewrite app_nil_r.
    repeat split; try done. apply not_elem_of_nil. }
  apply (triple_bind _ _ _ _ (cut_post lbl d)).
  - destruct tail as [|t tail].
    + apply triple_return. intros w ->. repeat split; [done..|]. rewrite app_nil_r in Ej.
      subst w1. simpl in *. destruct (dsk w0); simpl in *. by subst.
    + eapply triple_bind; [by eapply triple_cut_tail|]. intros [|].
      * eapply (triple_bind _ _ _ _ (λ _, cut_post lbl d true)); [by apply triple_modify|].
        intros []. by apply triple_return.
      * eapply triple_bind; [apply triple_ret|]. intros u. apply triple_return. naive_solver.
  - intros [|]; simpl.
    + eapply triple_bind; [apply triple_ret|]. intros u. apply triple_return.
      intros w (_ & ? & ? & Hjd & ?). unfold live. by rewrite Hjd.
    + eapply (triple_bind _ _ _ _ (λ _, live lbl d)); [|by intros []; apply triple_return].
      apply triple_modify. intros w (? & ? & ? & ?). by repeat split.
Qed.

(** Opening finds exactly what the files hold. *)
Lemma triple_Open lbl dk d :
  holds lbl false dk d →
  ctriple (λ w, dsk w = dk) (OpenEncryptedCollection lbl)
    (λ ok w, if ok then live lbl d w else holds lbl false (dsk w) d)
    (λ w, holds lbl false (dsk w) d).
Proof.
  intros Hh. pose proof Hh as (d0 & rms & lines & tail & H1 & H2 & H3 & _ & H5 & H6 & H7).
  unfold OpenEncryptedCollection. apply triple_at. intros w0 <-.
  apply triple_modify_at. apply triple_get_bind. intros ? ->. simpl. unfold opens in H1.
  destruct (snapshot (dsk w0)) as [b|] eqn:Es; simpl.
  - apply triple_attempt; [by intros w ->|by intros w ->|]. rewrite H1.
    apply triple_modify_at. eapply triple_replayJournal; try done. unfold opens. simpl. by rewrite Es.
  - eapply triple_replayJournal; try done. unfold opens. simpl. by rewrite Es.
Qed.

(** ** A client's session *)

Inductive request :=
| RPut (id : string) (v : T)
| RUpdate (id : string) (f : T → result T)
| RDelete (id : string).

Definition serve (r : request) : io bool :=
  match r with
  | RPut id v => Put id v
  | RUpdate id f => res ← Update id f; mret (is_ok res)
  | RDelete id => Delete id
  end.

(** The mutation a request asks for in state [d]; none when it is refused. *)
Definition intent (d : data) (r : request) : option mutation :=
  match r with
  | RPut id v => if decide (id = "") then None else Some (MPut id v)
  | RUpdate id f =>
      current ← Items d !! id;
      match f current with Ok next => Some (MPut id next) | Err _ => None end
  | RDelete id => _ ← Items d !! id; Some (MDelete id)
  end.

(** Requests served one after the other until the process is killed: the
    acknowledgements given, and the world left behind. *)
Fixpoint session (reqs : list request) (w : world) (es : list env) : list bool * world * list env :=
  match reqs with
  | [] => ([], w, es)
  | r :: rest =>
      match serve r w es with
      | (Some ok, w', es') => let '(acks, w'', es'') := session rest w' es' in (ok :: acks, w'', es'')
      | (None, w', es') => ([], w', es')
      end
  end.

(** The state a client that saw [acks] believes in. *)
Fixpoint believed (d : data) (reqs : list request) (acks : list bool) : data :=
  match reqs, acks with
  | r :: rest, ok :: acks' =>
      believed (match intent d r with
                | Some m => if (ok : bool) then next_data d m else d
                | None => d
                end) rest acks'
  | _, _ => d
  end.

Definition wf_data (d : data) : Prop := Items d !! "" = None ∧ 0 ≤ DataRevision d.

Lemma intent_wf d r m : wf_data d → intent d r = Some m → id_of m ≠ "" ∧ wf_data (next_data d m).
Proof.
  intros [Hd Hr] Hm. assert (id_of m ≠ "") as Hid.
  { destruct r as [id v|id f|id]; simpl in Hm; repeat case_decide; simplify_eq/=; try done.
    - destruct (Items d !! id) as [x|] eqn:E; simpl in Hm; [|done].
      destruct (f x); simplify_eq/=. congruence.
    - destruct (Items d !! id) as [x|] eqn:E; simplify_eq/=. congruence. }
  split; [done|]. split; simpl; [|lia].
  destruct m; simpl in *; [by rewrite lookup_insert_ne|by rewrite lookup_delete_ne].
Qed.

Lemma triple_serve lbl d r :
  wf_data d → DataRevision d < 2 ^ 64 - 1 →
  ctriple (live lbl d) (serve r)
    (λ ok w, live lbl (match intent d r with
                       | Some m => if ok then next_data d m else d
                       | None => d
                       end) w)
    (λ w, holds lbl false (dsk w) d ∨
          ∃ m, intent d r = Some m ∧ holds lbl false (dsk w) (next_data d m)).
Proof.
  intros Hwf Hlt. assert (∀ m, intent d r = Some m → ctriple (live lbl d) (commit_mutation m)
    (λ ok w, live lbl (if ok then next_data d m else d) w)
    (λ w, holds lbl false (dsk w) d ∨
          ∃ m, intent d r = Some m ∧ holds lbl false (dsk w) (next_data d m))) as Hm.
  { intros m Hm. destruct (intent_wf d r m) as [Hid _]; [done|done|]. destruct Hwf.
    eapply triple_conseq; [apply (triple_commit lbl d m); [done|lia]|done|done|].
    intros w [?|?]; [by left|right; eauto]. }
  destruct r as [id v|id f|id]; simpl in *.
  - unfold Put. case_decide; [by apply triple_return|]. by apply Hm.
  - unfold Update. eapply (triple_bind _ _ _ _ (λ res w, live lbl _ w));
      [|intros res; apply triple_return; intros w Hw; exact Hw].
    apply triple_get_bind. intros w0 Hw0. pose proof Hw0 as (_ & Hc & _). rewrite Hc.
    destruct (Items d !! id) as [x|]; simpl in *; [|apply triple_return; by intros w ->].
    destruct (f x) as [y|e]; [|apply triple_return; by intros w ->].
    eapply triple_bind; [eapply triple_pre; [|by apply Hm]; by intros w ->|].
    intros [|]; by apply triple_return.
  - unfold Delete. apply triple_get_bind. intros w0 Hw0. pose proof Hw0 as (_ & Hc & _). rewrite Hc.
    destruct (Items d !! id) as [x|]; simpl in *; [|apply triple_return; by intros w ->].
    eapply triple_pre; [|by apply Hm]. by intros w ->.
Qed.

(** An environment in which every call succeeds. *)
Definition healthy : env := λ _, Success.

(** Files that hold a state can always be opened. *)
Lemma Open_healthy lbl d w :
  holds lbl false (dsk w) d →
  returned (OpenEncryptedCollection lbl w (replicate 5 healthy)) = Some true.
Proof.
  intros (d0 & rms & lines & tail & H1 & _). unfold opens in H1.
  destruct w as [[[b|] j] c]; unfold OpenEncryptedCollection, attempt, sys, set_col, replayJournal;
    unfold mbind, prog_bind; simpl in *; rewrite ?H1; simpl; destruct j as [j|]; simpl; try done;
    set (r := replay _ _ _ _ _); unfold mbind, prog_bind; simpl;
    destruct (rtorn r); simpl; destruct (rdamaged r); done.
Qed.

(** What survives a session: what the client was told, and nothing else
    except the request the process died in. *)
Definition survives (d : data) (reqs : list request) (acks : list bool) (d' : data) : Prop :=
  d' = believed d reqs acks ∨
  ∃ r m, reqs !! length acks = Some r ∧ intent (believed d reqs acks) r = Some m ∧
         d' = next_data (believed d reqs acks) m.

Lemma session_survives lbl reqs d w es acks w' es' :
  wf_data d → DataRevision d + Z.of_nat (length reqs) < 2 ^ 64 → Forall benign es →
  live lbl d w → session reqs w es = (acks, w', es') →
  ∃ d', holds lbl false (dsk w') d' ∧ survives d reqs acks d'.
Proof.
  revert d w es acks. induction reqs as [|r reqs IH]; intros d w es acks Hwf Hlt Hes Hlive Hs;
    simpl in Hs, Hlt.
  - simplify_eq. exists d. split; [by eapply holds_weaken, Hlive|by left].
  - pose proof (triple_serve lbl d r Hwf ltac:(lia) w es Hes Hlive) as Ht.
    destruct (serve r w es) as [[[ok|] w1] es1].
    + destruct Ht as [Hl1 Hes1]. destruct (session reqs w1 es1) as [[acks1 w2] es2] eqn:E.
      simplify_eq. set (d1 := match intent d r with Some m => _ | None => d end) in *.
      destruct (IH d1 w1 es1 acks1) as (d' & Hh & Hsv); try done.
      * subst d1. destruct (intent d r) as [m|] eqn:Ei; [|done].
        destruct ok; [by eapply intent_wf|done].
      * subst d1. destruct (intent d r); [destruct ok|]; simpl; lia.
      * exists d'. split; [done|]. exact Hsv.
    + simplify_eq. destruct Ht as [Hh|(m & Hm & Hh)]; eexists; (split; [exact Hh|]).
      * by left.
      * right. exists r, m. done.
Qed.

End collection.

(** C10.  Crash atomicity and durability of the record store.  A
    client opens a collection whose files hold the state [d], and sends it any
    sequence of puts, updates and deletes.  The process may be killed before
    any system call, in the middle of a write included, and the calls may fail
    in any combination, with three exceptions: a failed append can be cut out
    of the journal again, a damaged journal can be removed, and the directory
    can be synced after a rename.  Reopening the files afterwards, which
    succeeds as soon as they can be read, gives exactly the map the client was
    acknowledged: every success is there and every failure is not, but for the
    one request the process died in, which is there entirely or not at all.
    What was written is there after the death of the process; a loss of power,
    which may take what was not synced, is not considered. *)
Theorem collection_durable {T} `{!Sealing T} (lbl : string) (d : collectionData T)
    (reqs : list request) (w w' : world) (es es' : list env) (acks : list bool) :
  wf_data d → DataRevision d + Z.of_nat (length reqs) < 2 ^ 64 → Forall benign es →
  live lbl d w → session reqs w es = (acks, w', es') →
  ∃ d', survives d reqs acks d' ∧
    ∀ w'' es'', dsk w'' = dsk w' → Forall benign es'' →
      match OpenEncryptedCollection lbl w'' es'' with
      | (Some true, wo, _) => cdata (col wo) = d'
      | (_, wo, _) => holds lbl false (dsk wo) d'
      end ∧
      returned (OpenEncryptedCollection lbl w'' (replicate 5 healthy)) = Some true.
Proof.
  intros Hwf Hlt Hes Hlive Hs.
  destruct (session_survives lbl reqs d w es acks w' es') as (d' & Hh & Hsv); [done..|].
  exists d'. split; [done|]. intros w'' es'' Hd Hes''.
  split; [|by eapply Open_healthy; rewrite Hd].
  pose proof (triple_Open lbl _ d' Hh w'' es'' Hes'' Hd) as Ho.
  destruct (OpenEncryptedCollection lbl w'' es'') as [[[[|]|] wo] eo].
  - by destruct Ho as [(_ & ? & _) _].
  - by destruct Ho.
  - done.
Qed.

(** ** A concrete codec

    Lines are framed like JSON objects: a line starts with an opening brace
    and has no other, so a torn line merged with another never reads back. *)

Fixpoint bits (p : positive) : list ascii :=
  match p with
  | xH => ["}"%char]
  | xO p => "0"%char :: bits p
  | xI p => "1"%char :: bits p
  end.

Fixpoint unbits (l : list ascii) : option positive :=
  match l with
  | ["}"%char] => Some xH
  | "0"%char :: l => xO <$> unbits l
  | "1"%char :: l => xI <$> unbits l
  | _ => None
  end.

Definition frame {A} `{Countable A} (a : A) : list ascii := "{"%char :: bits (encode a).
Definition unframe {A} `{Countable A} (l : list ascii) : option A :=
  match l with "{"%char :: l => unbits l ≫= decode | _ => None end.

Lemma unbits_bits p : unbits (bits p) = Some p.
Proof. induction p as [p IH|p IH|]; simpl; [by rewrite IH..|done]. Qed.

Lemma bits_no_newline p : newline ∉ bits p.
Proof.
  induction p as [p IH|p IH|]; simpl; rewrite not_elem_of_cons; split; try done.
  apply not_elem_of_nil.
Qed.

Lemma unframe_frame {A} `{Countable A} (a : A) : unframe (frame a) = Some a.
Proof. unfold unframe, frame. rewrite unbits_bits. simpl. apply decode_encode. Qed.

Definition text : list ascii → string := String.string_of_list_ascii.
Definition bytes_of : string → list ascii := String.list_ascii_of_string.

Definition read_entry (l : list ascii) : option entry :=
  match unframe (A := Z * Z * string * string * string) l with
  | Some (f, r, o, i, s) =>
      Some {| EntryFormat := f; EntryRevision := r; EntryOp := o; EntryID := i;
              Sealed := bytes_of s |}
  | None => None
  end.

Definition read_sealed (lbl : string) (e : entry) : option (list ascii) :=
  match unframe (A := Z * string * Z * string * string * string) (Sealed e) with
  | Some (_, l, r, o, i, s) =>
      if decide (l = lbl ∧ r = EntryRevision e ∧ o = EntryOp e ∧ i = EntryID e)
      then Some (bytes_of s) else None
  | None => None
  end.

Definition read_data (lbl : string) (b : list ascii) : option (collectionData Z) :=
  match unframe (A := Z * string * Z * gmap string Z) b with
  | Some (_, l, r, i) =>
      if decide (l = lbl) then Some {| DataRevision := r; Items := i |} else None
  | None => None
  end.

#[export] Instance framed_Z : Sealing Z.
Proof.
  refine {|
    marshal_entry e :=
      frame (EntryFormat e, EntryRevision e, EntryOp e, EntryID e, text (Sealed e));
    unmarshal_entry := read_entry;
    marshal_value v := frame v;
    unmarshal_value l := unframe (A := Z) l;
    encrypt_entry nonce lbl r o i plain := frame (nonce, lbl, r, o, i, text plain);
    decrypt_entry := read_sealed;
    seal_data nonce lbl d := frame (nonce, lbl, DataRevision d, Items d);
    open_data := read_data |}.
  - intros e. split; [done|]. unfold frame. rewrite not_elem_of_cons. split; [done|].
    apply bits_no_newline.
  - intros e. unfold read_entry. rewrite unframe_frame. unfold bytes_of, text.
    rewrite String.list_ascii_of_string_of_list_ascii. by destruct e.
  - intros v. apply unframe_frame.
  - intros. unfold read_sealed. cbn [Sealed EntryRevision EntryOp EntryID]. rewrite unframe_frame. rewrite decide_True by done.
    unfold bytes_of, text. by rewrite String.list_ascii_of_string_of_list_ascii.
  - intros nonce lbl d. unfold read_data. rewrite unframe_frame. rewrite decide_True by done.
    by destruct d.
Defined.

(** A collection with one record, as it is after its first mutation. *)
Definition demo_world : world (T := Z) :=
  let w0 := {| dsk := {| snapshot := None; journal := None |};
               col := {| label := "sessions"; cdata := empty_data; journalEntryN := 0;
                         journalBytes := 0; journalDamaged := false |} |} in
  final (Put "a" 1 w0 (replicate 14 healthy)).

Definition reopened (w : world (T := Z)) : gmap string Z :=
  Items (cdata (col (final (OpenEncryptedCollection "sessions" w (replicate 6 healthy))))).

Lemma demo_world_live : live "sessions" {| DataRevision := 1; Items := {["a" := 1]} |} demo_world.
Proof.
  split; [vm_compute; reflexivity|]. split; [vm_compute; reflexivity|].
  exists {| DataRevision := 1; Items := {["a" := 1]} |}, [], [], [].
  split; [vm_compute; reflexivity|]. split; [vm_compute; reflexivity|].
  repeat split; try done. apply not_elem_of_nil.
Qed.

Lemma collection_durable_witness :
  ∃ d', survives {| DataRevision := 1; Items := {["a" := 1]} |}
          [RPut "b" 2; RDelete "a"]
          (session [RPut "b" 2; RDelete "a"] demo_world (replicate 14 healthy)).1.1 d' ∧
    ∀ w'' es'', dsk w'' = dsk (session [RPut "b" 2; RDelete "a"] demo_world
                                 (replicate 14 healthy)).1.2 → Forall benign es'' →
      match OpenEncryptedCollection "sessions" w'' es'' with
      | (Some true, wo, _) => cdata (col wo) = d'
      | (_, wo, _) => holds "sessions" false (dsk wo) d'
      end ∧
      returned (OpenEncryptedCollection "sessions" w'' (replicate 5 healthy)) = Some true.
Proof.
  destruct (session [RPut "b" 2; RDelete "a"] demo_world (replicate 14 healthy))
    as [[acks w'] es'] eqn:E.
  apply (collection_durable "sessions" {| DataRevision := 1; Items := {["a" := 1]} |}
    [RPut "b" 2; RDelete "a"] demo_world w' (replicate 14 healthy) es' acks).
  - split; [vm_compute; reflexivity|simpl; lia].
  - simpl; lia.
  - by apply Forall_replicate.
  - apply demo_world_live.
  - exact E.
Defined.

(** ** The failures the contract excludes *)

(** A write that stops inside the line, in a file that then refuses to be cut. *)
Definition torn_uncut : env := λ c,
  match c with CWrite => Partial 7 | CTruncateOpen false => Failure | _ => Success end.

(** A write that stops in the middle of a line and cannot be cut
    out again loses the next acknowledged mutation: the failed put of [b] is
    reported as failed and leaves [journalDamaged] unset, the put of [c] that
    follows is acknowledged, and its line merges with the torn one, so that
    reopening the collection finds neither. *)
Theorem torn_append_loses_next_put :
  let '(r1, w1, _) := Put "b" 2 demo_world (replicate 10 torn_uncut) in
  let '(r2, w2, _) := Put "c" 3 w1 (replicate 9 healthy) in
  r1 = Some false ∧ r2 = Some true ∧
  Items (cdata (col w2)) !! "c" = Some 3 ∧ journalDamaged (col w2) = false ∧
  reopened w2 = {["a" := 1]}.
Proof. vm_compute. repeat split. Qed.

(** A journal with a corrupted first line that the operating system will not
    remove. *)
Definition unremovable : env := λ c, match c with CRemoveDamaged => Failure | _ => Success end.

Definition damaged_world : world (T := Z) :=
  demo_world <| dsk := (dsk demo_world) <| journal := Some [newline; "x"%char; newline] |> |>.

(** The fold of a damaged journal clears [journalDamaged] even
    when the damaged file could not be removed: the mutation that folds it
    is durable, but the next one is appended behind the damage, acknowledged,
    and lost when the collection is opened again. *)
Theorem unremoved_damage_loses_next_put :
  let '(r0, w0, _) := OpenEncryptedCollection "sessions" damaged_world (replicate 2 healthy) in
  let '(r1, w1, _) := Put "b" 2 w0 (replicate 13 unremovable) in
  let '(r2, w2, _) := Put "c" 3 w1 (replicate 9 healthy) in
  r0 = Some true ∧ journalDamaged (col w0) = true ∧ r1 = Some true ∧ r2 = Some true ∧
  reopened w2 = {["a" := 1; "b" := 2]}.
Proof. vm_compute. repeat split. Qed.
