(* ===== verification/Conc.v ===== *)
(** * Request handlers as threads

    An agent serves many requests at once.  A handler is a tree of atomic
    actions (a call that runs under a component's lock is one action); each
    action reads what the environment answers at that moment.  The same tree
    has a sequential run, where the process may be killed between two
    actions, and an interleaved run, where any other thread may act in
    between.  Properties of every interleaving follow from what a thread
    guarantees at each of its own actions. *)
From S2P Require Import Prelude Prog.

Inductive thread (S E R : Type) : Type :=
| Done (r : R)
| Act (f : E → S → S) (k : E → S → thread S E R).
Arguments Done {S E R} r.
Arguments Act {S E R} f k.

Section threads.
Context {S E : Type}.

#[export] Instance thread_ret : MRet (thread S E) := @Done S E.

Fixpoint thread_bind_fix {A B} (f : A → thread S E B) (t : thread S E A) : thread S E B :=
  match t with
  | Done a => f a
  | Act g k => Act g (λ e s, thread_bind_fix f (k e s))
  end.

#[export] Instance thread_bind : MBind (thread S E) := @thread_bind_fix.

(** One atomic action. *)
Definition atomic {A} (f : E → S → S * A) : thread S E A :=
  Act (λ e s, fst (f e s)) (λ e s, Done (snd (f e s))).

(** ** Sequential runs *)

(** Run a handler alone; running out of answers is a crash of the process. *)
Fixpoint run {R} (t : thread S E R) (es : list E) (s : S) : option R * S * list E :=
  match t, es with
  | Done r, _ => (Some r, s, es)
  | Act _ _, [] => (None, s, [])
  | Act f k, e :: es' => run (k e s) es' (f e s)
  end.

Lemma run_act {R} f (k : E → S → thread S E R) e es s : run (Act f k) (e :: es) s = run (k e s) es (f e s).
Proof. done. Qed.

Lemma run_bind {A B} (t : thread S E A) (f : A → thread S E B) es s :
  run (t ≫= f) es s =
  match run t es s with
  | (Some a, s', es') => run (f a) es' s'
  | (None, s', es') => (None, s', es')
  end.
Proof.
  revert es s. induction t as [r|g k IH]; intros es s; [by destruct es|].
  destruct es as [|e es]; [done|]. apply IH.
Qed.

(** ** Triples of a handler that runs alone *)

Definition alone {R} (t : thread S E R) : prog S E R := λ s es, run t es s.

Lemma alone_bind {A B} (okE : E → Prop) (t : thread S E A) (f : A → thread S E B)
    (P : S → Prop) (Q : A → S → Prop) (R : B → S → Prop) (C : S → Prop) :
  triple okE P (alone t) Q C → (∀ a, triple okE (Q a) (alone (f a)) R C) →
  triple okE P (alone (t ≫= f)) R C.
Proof.
  intros Ht Hf s es Hes HP. specialize (Ht s es Hes HP). unfold alone in *. rewrite run_bind.
  destruct (run t es s) as [[[a|] s'] es']; [|done]. destruct Ht as [HQ Hes']. by apply Hf.
Qed.

Lemma alone_ret {A} (okE : E → Prop) (a : A) (P : S → Prop) (Q : A → S → Prop) (C : S → Prop) :
  (∀ s, P s → Q a s) → triple okE P (alone (mret a)) Q C.
Proof. intros H s es Hes HP. simpl. split; [by apply H|done]. Qed.

(** A call whose answer is only reported. *)
Lemma alone_report {A B} (okE : E → Prop) (t : thread S E A) (f : A → B) (P Q C : S → Prop) :
  triple okE P (alone t) (λ _, Q) C → triple okE P (alone (t ≫= λ a, mret (f a))) (λ _, Q) C.
Proof. intros Ht. eapply alone_bind; [exact Ht|]. intros a. by apply alone_ret. Qed.

Lemma alone_atomic {A} (okE : E → Prop) (f : E → S → S * A) (P : S → Prop)
    (Q : A → S → Prop) (C : S → Prop) :
  (∀ s, P s → C s) → (∀ e s, okE e → P s → Q (snd (f e s)) (fst (f e s))) →
  triple okE P (alone (atomic f)) Q C.
Proof.
  intros HC HQ s es Hes HP. destruct es as [|e es]; simpl; [by apply HC|].
  apply Forall_cons in Hes as [He Hes]. split; [by apply HQ|done].
Qed.

Lemma alone_act {A} (okE : E → Prop) (f : E → S → S) (g : E → S → A) (P : S → Prop)
    (Q : A → S → Prop) (C : S → Prop) :
  (∀ s, P s → C s) → (∀ e s, okE e → P s → Q (g e s) (f e s)) →
  triple okE P (alone (Act f (λ e s, Done (g e s)))) Q C.
Proof. intros HC HQ. by apply (alone_atomic okE (λ e s, (f e s, g e s))). Qed.

(** An action that does not change the state. *)
Lemma alone_read {A B} (okE : E → Prop) (f : E → S → A) (k : A → thread S E B)
    (P : S → Prop) (Q : B → S → Prop) (C : S → Prop) :
  (∀ s, P s → C s) →
  (∀ e s0, okE e → P s0 → triple okE (λ s, s = s0) (alone (k (f e s0))) Q C) →
  triple okE P (alone (atomic (λ e s, (s, f e s)) ≫= k)) Q C.
Proof.
  intros HC Hk s es Hes HP. destruct es as [|e es]; simpl; [by apply HC|].
  apply Forall_cons in Hes as [He Hes]. by apply (Hk e s He HP s es Hes).
Qed.

(** ** A component inside a larger state *)

(** Run a thread of a component on the part of the state it owns. *)
Fixpoint zoom {S' E' R} (view : S → S') (write : S' → S → S) (answer : E → E')
    (t : thread S' E' R) : thread S E R :=
  match t with
  | Done r => Done r
  | Act f k => Act (λ e s, write (f (answer e) (view s)) s)
                   (λ e s, zoom view write answer (k (answer e) (view s)))
  end.

(** ** Completion *)

(** Whatever the environment goes on answering, the handler returns after
    finitely many actions, in a state of [Q]. *)
Definition completes {R} (okE : E → Prop) (t : thread S E R) (s : S) (Q : R → S → Prop) : Prop :=
  ∀ answers : nat → E, (∀ i, okE (answers i)) →
    ∃ n r s', run t (answers <$> seq 0 n) s = (Some r, s', []) ∧ Q r s'.

Lemma run_returns {R} (t : thread S E R) (answers : nat → E) s :
  ∃ n r s', run t (answers <$> seq 0 n) s = (Some r, s', []).
Proof.
  revert answers s. induction t as [r|f k IH]; intros answers s; [by exists 0%nat, r, s|].
  destruct (IH (answers 0%nat) s (λ i, answers (Datatypes.S i)) (f (answers 0%nat) s))
    as (n & r & s' & Hr).
  exists (Datatypes.S n), r, s'. simpl. rewrite <- Hr. f_equal.
  rewrite <- fmap_S_seq, <- list_fmap_compose. done.
Qed.

Lemma triple_completes {R} (okE : E → Prop) (t : thread S E R) s Q C :
  triple okE (λ s', s' = s) (alone t) Q C → completes okE t s Q.
Proof.
  intros Ht answers Hok. destruct (run_returns t answers s) as (n & r & s' & Hr).
  exists n, r, s'. split; [done|]. specialize (Ht s (answers <$> seq 0 n)).
  unfold alone in Ht. rewrite Hr in Ht. apply Ht; [|done].
  apply Forall_fmap, Forall_forall. intros i _. apply Hok.
Qed.

Lemma completes_mono {R} (okE okE' : E → Prop) (t : thread S E R) s (Q Q' : R → S → Prop) :
  completes okE t s Q → (∀ e, okE' e → okE e) → (∀ r s', Q r s' → Q' r s') → completes okE' t s Q'.
Proof.
  intros Ht Hok HQ answers Hanswers. destruct (Ht answers) as (n & r & s' & Hr & HQr); [by auto|].
  exists n, r, s'. auto.
Qed.

(** ** Serving to the end *)

(** The answers come one after the other, for as long as they are needed. *)
Fixpoint finish {R} (t : thread S E R) (e : nat → E) (s : S) : S * R :=
  match t with
  | Done r => (s, r)
  | Act f k => finish (k (e 0%nat) s) (λ i, e (Datatypes.S i)) (f (e 0%nat) s)
  end.

Lemma finish_run {R} (t : thread S E R) e s :
  ∃ n, run t (e <$> seq 0 n) s = (Some (finish t e s).2, (finish t e s).1, []).
Proof.
  revert e s. induction t as [r|f k IH]; intros e s; [by exists 0%nat|].
  destruct (IH (e 0%nat) s (λ i, e (Datatypes.S i)) (f (e 0%nat) s)) as [n Hn].
  exists (Datatypes.S n). cbn [finish]. rewrite <- Hn.
  change (run (Act f k) _ s) with (run (k (e 0%nat) s) (e <$> seq 1 n) (f (e 0%nat) s)).
  by rewrite <- fmap_S_seq, <- list_fmap_compose.
Qed.

Lemma finish_triple {R} (okE : E → Prop) (t : thread S E R) P Q C e s :
  triple okE P (alone t) Q C → (∀ i, okE (e i)) → P s → Q (finish t e s).2 (finish t e s).1.
Proof.
  intros Ht He HP. destruct (finish_run t e s) as [n Hn].
  specialize (Ht s (e <$> seq 0 n)). unfold alone in Ht. rewrite Hn in Ht. apply Ht; [|done].
  apply Forall_fmap, Forall_forall. intros i _. apply He.
Qed.

(** ** Guarantees *)

(** Every action of the thread moves the state along [G]. *)
Fixpoint guarantees (G : S → S → Prop) {R} (t : thread S E R) : Prop :=
  match t with
  | Done _ => True
  | Act f k => ∀ e s, G s (f e s) ∧ guarantees G (k e s)
  end.

Lemma guarantees_bind (G : S → S → Prop) {A B} (t : thread S E A) (f : A → thread S E B) :
  guarantees G t → (∀ a, guarantees G (f a)) → guarantees G (t ≫= f).
Proof.
  intros Ht Hf. induction t as [r|g k IH]; [apply Hf|]. intros e s.
  destruct (Ht e s) as [HG Hk]. split; [done|]. by apply IH.
Qed.

Lemma guarantees_atomic (G : S → S → Prop) {A} (f : E → S → S * A) :
  (∀ e s, G s (fst (f e s))) → guarantees G (atomic f).
Proof. intros H e s. split; [apply H|done]. Qed.

Lemma guarantees_ret (G : S → S → Prop) {A} (a : A) : guarantees G (mret a : thread S E A).
Proof. exact I. Qed.

Lemma guarantees_mono (G G' : S → S → Prop) {R} (t : thread S E R) :
  (∀ s s', G s s' → G' s s') → guarantees G t → guarantees G' t.
Proof.
  intros HG. induction t as [r|g k IH]; [done|]. intros Ht e s.
  destruct (Ht e s). split; [by apply HG|]. by apply IH.
Qed.

(** A zoomed thread only ever writes the part it owns. *)
Lemma guarantees_zoom (G : S → S → Prop) {S' E' R} (view : S → S') (write : S' → S → S)
    (answer : E → E') (t : thread S' E' R) :
  (∀ x s, G s (write x s)) → guarantees G (zoom view write answer t).
Proof. intros H. induction t as [r|f k IH]; [done|]. intros e s. split; [apply H|apply IH]. Qed.

Lemma guarantees_any {R} (t : thread S E R) : guarantees (λ _ _, True) t.
Proof. induction t as [r|g k IH]; [done|]. intros e s. split; [done|apply IH]. Qed.

(** A predicate that every relevant move keeps survives a sequential run. *)
Lemma alone_guarantees {R} (okE : E → Prop) (G : S → S → Prop) (P : S → Prop) (C : S → Prop)
    (t : thread S E R) :
  guarantees G t → (∀ s s', G s s' → P s → P s') → (∀ s, P s → C s) →
  triple okE P (alone t) (λ _, P) C.
Proof.
  intros Ht HG HC s es Hes HP. revert es s Hes HP Ht. unfold alone.
  induction t as [r|f c IH]; intros es s Hes HP Ht; [by destruct es|].
  destruct es as [|e es]; [by apply HC|]. apply Forall_cons in Hes as [He Hes].
  destruct (Ht e s) as [Hm Hc]. apply IH; [done|by eapply HG|done].
Qed.

(** ** Interleavings *)

(** The threads in flight and the shared state. *)
Record system (R : Type) := { shared : S; threads : list (thread S E R) }.
Arguments shared {R} _.
Arguments threads {R} _.
Arguments Build_system {R} _ _.

Inductive sys_step {R} (admits : thread S E R → Prop) : system R → system R → Prop :=
| step_spawn s ts t : admits t → sys_step admits (Build_system s ts) (Build_system s (ts ++ [t]))
| step_act s ts i f k e :
    ts !! i = Some (Act f k) →
    sys_step admits (Build_system s ts) (Build_system (f e s) (<[i := k e s]> ts)).

(** Let the listed threads act in turn, each with the answer it gets. *)
Fixpoint schedule {R} (picks : list (nat * E)) (c : system R) : system R :=
  match picks with
  | [] => c
  | (i, e) :: rest =>
      schedule rest
        (match threads c !! i with
         | Some (Act f k) => Build_system (f e (shared c)) (<[i := k e (shared c)]> (threads c))
         | _ => c
         end)
  end.

Lemma schedule_steps {R} (admits : thread S E R → Prop) picks (c : system R) :
  rtc (sys_step admits) c (schedule picks c).
Proof.
  revert c. induction picks as [|[i e] picks IH]; intros [s ts]; simpl; [done|].
  destruct (ts !! i) as [[r|f k]|] eqn:Hi; [apply IH| |apply IH].
  eapply rtc_l; [by apply step_act|apply IH].
Qed.

Lemma spawn_steps {R} (admits : thread S E R → Prop) s (ts new : list (thread S E R)) :
  Forall admits new → rtc (sys_step admits) (Build_system s ts) (Build_system s (ts ++ new)).
Proof.
  intros H. revert ts. induction H as [|t new Ht _ IH]; intros ts; [by rewrite app_nil_r|].
  eapply rtc_l; [by apply step_spawn|]. specialize (IH (ts ++ [t])). by rewrite <- app_assoc in IH.
Qed.

(** What every thread guarantees holds between any two states of the system. *)
Lemma interleaving_guarantee {R} (G : S → S → Prop) `{!PreOrder G}
    (admits : thread S E R → Prop) (c c' : system R) :
  (∀ t, admits t → guarantees G t) →
  Forall (guarantees G) (threads c) → rtc (sys_step admits) c c' →
  G (shared c) (shared c') ∧ Forall (guarantees G) (threads c').
Proof.
  intros Hadm Hts Hr. induction Hr as [c|c c1 c2 Hstep _ IH]; [done|].
  assert (G (shared c) (shared c1) ∧ Forall (guarantees G) (threads c1)) as [HG Hts1].
  { destruct Hstep as [s ts t Ht|s ts i f k e Hi]; simpl in *.
    - split; [done|]. apply Forall_app. split; [done|]. constructor; [by apply Hadm|done].
    - destruct (Forall_lookup_1 _ _ _ _ Hts Hi e s) as [HG Hk]. split; [done|].
      by apply Forall_insert. }
  destruct (IH Hts1) as [HG2 Hts2]. split; [by etrans|done].
Qed.

(** A sequential run is one interleaving: its states are related as well. *)
Lemma run_guarantee {R} (G : S → S → Prop) `{!PreOrder G} (t : thread S E R) es s :
  guarantees G t → G s ((run t es s).1.2).
Proof.
  revert es s. induction t as [r|g k IH]; intros es s Ht; [by destruct es|].
  destruct es as [|e es]; [done|]. simpl. destruct (Ht e s) as [HG Hk].
  specialize (IH e s es (g e s) Hk). by etrans.
Qed.

(** ** One thread among others *)

(** A run of a thread to its end, while everything else moves the state along
    [G] between its actions and before its first. *)
Inductive among (okE : E → Prop) (G : S → S → Prop) {R} : thread S E R → S → R → S → Prop :=
| among_done r s s' : G s s' → among okE G (Done r) s r s'
| among_act f k e s s' r s'' :
    G s s' → okE e → among okE G (k e s') (f e s') r s'' → among okE G (Act f k) s r s''.

(** From [P], whatever the others do, the thread ends in [Q]. *)
Fixpoint secures (okE : E → Prop) (G : S → S → Prop) {R} (P : S → Prop) (t : thread S E R)
    (Q : R → S → Prop) : Prop :=
  match t with
  | Done r => ∀ s s', P s → G s s' → Q r s'
  | Act f k => ∀ e s s', okE e → P s → G s s' → secures okE G (λ x, x = f e s') (k e s') Q
  end.

Lemma secures_among okE G {R} (t : thread S E R) P Q s r s' :
  secures okE G P t Q → among okE G t s r s' → P s → Q r s'.
Proof.
  intros Ht Hrun. revert P Ht. induction Hrun as [r s s' HG|f k e s s' r s'' HG He _ IH]; intros P Ht HP.
  - by apply (Ht s s').
  - by apply (IH (λ x, x = f e s')); [apply (Ht e s s')|].
Qed.

Lemma secures_pre okE G {R} (t : thread S E R) (P P' : S → Prop) Q :
  (∀ s, P s → P' s) → secures okE G P' t Q → secures okE G P t Q.
Proof. destruct t; simpl; intros HP H; intros; [eapply H|eapply H]; eauto. Qed.

Lemma secures_post okE G {R} (t : thread S E R) P (Q Q' : R → S → Prop) :
  (∀ r s, Q r s → Q' r s) → secures okE G P t Q → secures okE G P t Q'.
Proof.
  intros HQ. revert P. induction t as [r|f k IH]; intros P; simpl; [by eauto|].
  intros H e s s' He HP HG. by apply IH, (H e s s').
Qed.

Lemma secures_bind okE G {A B} (t : thread S E A) (f : A → thread S E B) P (Q : A → S → Prop) R :
  secures okE G P t Q → (∀ a, secures okE G (Q a) (f a) R) → Reflexive G → secures okE G P (t ≫= f) R.
Proof.
  intros Ht Hf HG. revert P Ht. induction t as [a|g k IH]; intros P Ht.
  - apply (secures_pre _ _ _ _ (Q a)); [|apply Hf]. intros s Hs. by apply (Ht s s).
  - intros e s s' He HP Hs. by apply IH, (Ht e s s').
Qed.

Lemma secures_ret okE G {A} (a : A) P (Q : A → S → Prop) :
  (∀ s s', P s → G s s' → Q a s') → secures okE G P (mret a) Q.
Proof. done. Qed.

Lemma secures_atomic okE G {A} (f : E → S → S * A) P (Q : A → S → Prop) :
  (∀ e s s' s'', okE e → P s → G s s' → G (f e s').1 s'' → Q (f e s').2 s'') →
  secures okE G P (atomic f) Q.
Proof. intros H e s s' He HP HG x s'' -> HG'. by apply (H e s s'). Qed.

(** An action that reads. *)
Lemma secures_read okE G {A B} (f : E → S → A) (k : A → thread S E B) P (Q : B → S → Prop) :
  (∀ e s s', okE e → P s → G s s' → secures okE G (λ x, x = s') (k (f e s')) Q) →
  secures okE G P (atomic (λ e s, (s, f e s)) ≫= k) Q.
Proof. intros H e s s' He HP HG. by apply (H e s s'). Qed.

(** From each state of [P]. *)
Lemma secures_from okE G {R} (t : thread S E R) P (Q : R → S → Prop) :
  (∀ s, P s → secures okE G (λ x, x = s) t Q) → secures okE G P t Q.
Proof. destruct t; simpl; intros H; intros; eapply H; eauto. Qed.

Lemma secures_true okE G {R} (t : thread S E R) P : secures okE G P t (λ _ _, True).
Proof. revert P. induction t as [r|f k IH]; intros P; simpl; [done|]. intros. apply IH. Qed.

(** What both the thread and the others preserve holds at the end as well. *)
Lemma secures_frame okE G {R} (t : thread S E R) P (I : S → Prop) (Q : R → S → Prop) :
  guarantees G t → (∀ s s', I s → G s s' → I s') → (∀ s, P s → I s) →
  secures okE G P t Q → secures okE G P t (λ r s, Q r s ∧ I s).
Proof.
  intros Ht HI. revert P Ht. induction t as [r|f k IH]; intros P Ht HP H; simpl in *.
  - intros s s' Hs Hg. split; [by eapply H|]. by eauto.
  - intros e s s' He Hs Hg. destruct (Ht e s') as [Hf Hk]. apply IH; [done| |by apply (H e s s')].
    intros ? ->. by eauto.
Qed.

(** A run on its own is a run among others that do nothing. *)
Lemma run_among {R} (okE : E → Prop) (t : thread S E R) es s r s' es' :
  Forall okE es → run t es s = (Some r, s', es') → among okE eq t s r s'.
Proof.
  revert es s. induction t as [a|f k IH]; intros es s Hes Hr.
  - destruct es; simplify_eq/=; by constructor.
  - destruct es as [|e es]; [done|]. apply Forall_cons in Hes as [He Hes]. econstructor; [done|done|].
    by eapply IH.
Qed.

Lemma among_mono {R} (okE : E → Prop) (G G' : S → S → Prop) (t : thread S E R) s r s' :
  (∀ s s', G s s' → G' s s') → among okE G t s r s' → among okE G' t s r s'.
Proof. intros HG. induction 1; econstructor; eauto. Qed.

Lemma among_weaken {R} (okE okE' : E → Prop) (G : S → S → Prop) (t : thread S E R) s r s' :
  among okE G t s r s' → (∀ e, okE e → okE' e) → among okE' G t s r s'.
Proof. intros H Hok. induction H; econstructor; eauto. Qed.

(** ** Invariants under some answers *)

(** Every action keeps [P] when its answer is among [okE]. *)
Fixpoint preserves (okE : E → Prop) (P : S → Prop) {R} (t : thread S E R) : Prop :=
  match t with
  | Done _ => True
  | Act f k => ∀ e s, okE e → (P s → P (f e s)) ∧ preserves okE P (k e s)
  end.

Lemma preserves_bind okE P {A B} (t : thread S E A) (f : A → thread S E B) :
  preserves okE P t → (∀ a, preserves okE P (f a)) → preserves okE P (t ≫= f).
Proof.
  intros Ht Hf. induction t as [r|g k IH]; [apply Hf|]. intros e s He.
  destruct (Ht e s He) as [HP Hk]. split; [done|]. by apply IH.
Qed.

Lemma preserves_atomic okE P {A} (f : E → S → S * A) :
  (∀ e s, okE e → P s → P (fst (f e s))) → preserves okE P (atomic f).
Proof. intros H e s He. split; [by apply H|done]. Qed.

Lemma preserves_ret okE P {A} (a : A) : preserves okE P (mret a : thread S E A).
Proof. exact I. Qed.

Lemma preserves_triple {R} okE (P C : S → Prop) (t : thread S E R) :
  preserves okE P t → (∀ s, P s → C s) → triple okE P (alone t) (λ _, P) C.
Proof.
  intros Ht HC s es Hes HP. revert es s Hes HP Ht. unfold alone.
  induction t as [r|f c IH]; intros es s Hes HP Ht; [by destruct es|].
  destruct es as [|e es]; [by apply HC|]. apply Forall_cons in Hes as [He Hes].
  destruct (Ht e s He) as [Hf Hc]. apply IH; [done|by apply Hf|done].
Qed.

(** Interleavings in which every answer is among [okE]. *)
Inductive sys_step_under {R} (okE : E → Prop) (admits : thread S E R → Prop) : system R → system R → Prop :=
| step_spawn_under s ts t :
    admits t → sys_step_under okE admits (Build_system s ts) (Build_system s (ts ++ [t]))
| step_act_under s ts i f k e :
    okE e → ts !! i = Some (Act f k) →
    sys_step_under okE admits (Build_system s ts) (Build_system (f e s) (<[i := k e s]> ts)).

Lemma schedule_steps_under {R} okE (admits : thread S E R → Prop) picks (c : system R) :
  Forall (λ pick, okE pick.2) picks → rtc (sys_step_under okE admits) c (schedule picks c).
Proof.
  intros Hok. revert c. induction Hok as [|[i e] picks He _ IH]; intros [s ts]; simpl; [done|].
  destruct (ts !! i) as [[r|f k]|] eqn:Hi; [apply IH| |apply IH].
  eapply rtc_l; [by apply step_act_under|apply IH].
Qed.

Lemma spawn_steps_under {R} okE (admits : thread S E R → Prop) s (ts new : list (thread S E R)) :
  Forall admits new → rtc (sys_step_under okE admits) (Build_system s ts) (Build_system s (ts ++ new)).
Proof.
  intros H. revert ts. induction H as [|t new Ht _ IH]; intros ts; [by rewrite app_nil_r|].
  eapply rtc_l; [by apply step_spawn_under|]. specialize (IH (ts ++ [t])). by rewrite <- app_assoc in IH.
Qed.

Lemma interleaving_preserves {R} okE (P : S → Prop) (admits : thread S E R → Prop) (c c' : system R) :
  (∀ t, admits t → preserves okE P t) → Forall (preserves okE P) (threads c) → P (shared c) →
  rtc (sys_step_under okE admits) c c' → P (shared c').
Proof.
  intros Hadm Hts HP Hr. induction Hr as [c|c c1 c2 Hstep _ IH]; [done|].
  apply IH; destruct Hstep as [s ts t Ht|s ts i f k e He Hi]; simpl in *.
  - apply Forall_app. split; [done|]. constructor; [by apply Hadm|done].
  - apply Forall_insert; [done|]. by apply (Forall_lookup_1 _ _ _ _ Hts Hi e s He).
  - done.
  - by apply (Forall_lookup_1 _ _ _ _ Hts Hi e s He).
Qed.

(** ** Invariants that rest on what a thread knows *)

(** From [P], while the others move along [Rely] and everybody keeps [I],
    every action keeps [I] and moves along [Guar]. *)
Fixpoint upholds (okE : E → Prop) (Rely Guar : S → S → Prop) (I : S → Prop) {R} (P : S → Prop)
    (t : thread S E R) (Q : R → S → Prop) : Prop :=
  match t with
  | Done r => ∀ s s', P s → Rely s s' → I s' → Q r s'
  | Act f k => ∀ e s s', okE e → P s → Rely s s' → I s' →
      I (f e s') ∧ Guar s' (f e s') ∧ upholds okE Rely Guar I (λ x, x = f e s') (k e s') Q
  end.

Section upholds.
Context (okE : E → Prop) (Rely Guar : S → S → Prop) (I : S → Prop) `{!Reflexive Rely}.

Lemma upholds_pre {R} (t : thread S E R) (P P' : S → Prop) Q :
  (∀ s s', P s → Rely s s' → I s' → P' s') → upholds okE Rely Guar I P' t Q → upholds okE Rely Guar I P t Q.
Proof.
  destruct t; simpl; intros HP H; [intros s s' Hs HR HI|intros e s s' He Hs HR HI];
    [by apply (H s' s'); eauto|by apply (H e s' s'); eauto].
Qed.

Lemma upholds_pre_eq {R} (t : thread S E R) (P P' : S → Prop) Q :
  (∀ s, P s → P' s) → upholds okE Rely Guar I P' t Q → upholds okE Rely Guar I P t Q.
Proof. destruct t; simpl; intros HP H; intros; eapply H; eauto. Qed.

Lemma upholds_post {R} (t : thread S E R) P (Q Q' : R → S → Prop) :
  (∀ r s, Q r s → Q' r s) → upholds okE Rely Guar I P t Q → upholds okE Rely Guar I P t Q'.
Proof.
  intros HQ. revert P. induction t as [r|f k IH]; intros P H; simpl in *; [by eauto|].
  intros e s s' He Hs HR HI. destruct (H e s s' He Hs HR HI) as (? & ? & ?). split_and!; [done..|]. by apply IH.
Qed.

Lemma upholds_ret {A} (a : A) P (Q : A → S → Prop) :
  (∀ s s', P s → Rely s s' → I s' → Q a s') → upholds okE Rely Guar I P (mret a) Q.
Proof. done. Qed.

Lemma upholds_bind {A B} (t : thread S E A) (f : A → thread S E B) P (Q : A → S → Prop) R :
  upholds okE Rely Guar I P t Q → (∀ a, upholds okE Rely Guar I (Q a) (f a) R) →
  upholds okE Rely Guar I P (t ≫= f) R.
Proof.
  intros Ht Hf. revert P Ht. induction t as [a|g k IH]; intros P Ht.
  - apply (upholds_pre _ _ (Q a)); [|apply Hf]. intros s s' Hs HR HI. by apply (Ht s s').
  - intros e s s' He Hs HR HI. destruct (Ht e s s' He Hs HR HI) as (? & ? & ?). split_and!; [done..|]. by apply IH.
Qed.

Lemma upholds_atomic {A} (f : E → S → S * A) P (Q : A → S → Prop) :
  (∀ e s s', okE e → P s → Rely s s' → I s' → I (f e s').1 ∧ Guar s' (f e s').1 ∧
     ∀ s'', Rely (f e s').1 s'' → I s'' → Q (f e s').2 s'') →
  upholds okE Rely Guar I P (atomic f) Q.
Proof.
  intros H e s s' He Hs HR HI. destruct (H e s s' He Hs HR HI) as (? & ? & HQ). split_and!; [done..|].
  intros x s'' -> HR' HI'. by apply HQ.
Qed.

(** What the thread guarantees keeps the invariant, and [F] is stable. *)
Lemma upholds_guarantees {R} (t : thread S E R) (G : S → S → Prop) (F : S → Prop) :
  guarantees G t → (∀ s s', G s s' → I s → I s' ∧ Guar s s') →
  (∀ s s', G s s' → F s → F s') → (∀ s s', F s → Rely s s' → F s') →
  upholds okE Rely Guar I F t (λ _, F).
Proof.
  intros Ht HI HF HR. enough (∀ P, (∀ s, P s → F s) → upholds okE Rely Guar I P t (λ _, F)) as H by by apply H.
  induction t as [r|f k IH]; intros P HP; simpl; [by eauto|]. intros e s s' He Hs Hrely Hinv.
  destruct (Ht e s') as [Hg Hk]. destruct (HI _ _ Hg Hinv). split_and!; [done..|].
  apply IH; [done|]. intros ? ->. by eauto.
Qed.
End upholds.

(** A leader and its followers: the leader relies on what the followers
    guarantee, and the followers on what all the threads guarantee. *)
Lemma interleaving_upholds {R} okE (Rl Gl Rf Gf : S → S → Prop) (I : S → Prop) `{!PreOrder Rl, !PreOrder Rf}
    (admits : thread S E R → Prop) (leader : thread S E R) Pl Ql (s0 : S) (c : system R) :
  (∀ s s', Gf s s' → Rl s s' ∧ Rf s s') → (∀ s s', Gl s s' → Rf s s') →
  (∀ t, admits t → ∃ Q, upholds okE Rf Gf I (λ _, True) t Q) →
  upholds okE Rl Gl I Pl leader Ql → I s0 → Pl s0 →
  rtc (sys_step_under okE admits) (Build_system s0 [leader]) c → I (shared c).
Proof.
  intros Hgf Hgl Hadm Hl HI HP.
  set (Inv := λ c : system R, I (shared c) ∧ ∃ tl ts, threads c = tl :: ts ∧
    (∃ s P Q, P s ∧ Rl s (shared c) ∧ upholds okE Rl Gl I P tl Q) ∧
    Forall (λ t, ∃ s P Q, P s ∧ Rf s (shared c) ∧ upholds okE Rf Gf I P t Q) ts).
  intros Hr. enough (Inv c) as [? _] by done. remember (Build_system s0 [leader]) as c0 eqn:Hc0.
  assert (Inv c0) as H0. { subst c0. split; [done|]. exists leader, []. split; [done|]. split; [|done]. by exists s0, Pl, Ql. }
  clear Hc0. induction Hr as [|c0 c1 c2 Hstep _ IH]; [done|]. apply IH. clear IH.
  destruct H0 as (Hi & tl & ts & Hts & (sl & P & Q & HPl & HRl & Hu) & Hf).
  assert (∀ s', Rf (shared c0) s' → Forall (λ t, ∃ s P Q, P s ∧ Rf s s' ∧ upholds okE Rf Gf I P t Q) ts) as Hmove.
  { intros s' HR. eapply Forall_impl; [exact Hf|]. intros t (x & P' & Q' & ? & ? & ?). exists x, P', Q'.
    split_and!; [done| |done]. by etrans. }
  destruct Hstep as [s ts0 t Ht|s ts0 i f k e He Hk]; simpl in *; subst ts0.
  - split; [done|]. exists tl, (ts ++ [t]). split; [done|]. split; [by exists sl, P, Q|].
    apply Forall_app. split; [done|]. apply Forall_singleton. destruct (Hadm t Ht) as [Q' HQ']. by exists s, (λ _, True), Q'.
  - destruct i as [|i]; simpl in Hk.
    + injection Hk as ->. destruct (Hu e sl s He HPl HRl Hi) as (Hi' & Hg & Hu'). split; [done|].
      exists (k e s), ts. split; [done|]. split; [by exists (f e s), (λ x, x = f e s), Q|]. by apply Hmove, Hgl.
    + destruct (Forall_lookup_1 _ _ _ _ Hf Hk) as (x & P' & Q' & HPx & HRx & Hux).
      destruct (Hux e x s He HPx HRx Hi) as (Hi' & Hg & Hu'). destruct (Hgf _ _ Hg) as [Hgl' Hgf']. split; [done|].
      exists tl, (<[i := k e s]> ts). split; [done|]. split; [exists sl, P, Q; split_and!; [done|by etrans|done]|].
      apply Forall_insert; [by apply Hmove|by exists (f e s), (λ x, x = f e s), Q'].
Qed.

(** ** Results *)

(** Whatever the state and the answers are at each action, the result
    satisfies [Q]: also when other threads act in between. *)
Fixpoint yields {R} (t : thread S E R) (Q : R → Prop) : Prop :=
  match t with
  | Done r => Q r
  | Act f k => ∀ e s, yields (k e s) Q
  end.

Lemma yields_ret {A} (a : A) (Q : A → Prop) : Q a → yields (mret a : thread S E A) Q.
Proof. done. Qed.

Lemma yields_bind {A B} (t : thread S E A) (f : A → thread S E B) (Q : A → Prop) (R : B → Prop) :
  yields t Q → (∀ a, Q a → yields (f a) R) → yields (t ≫= f) R.
Proof.
  intros Ht Hf. induction t as [a|g k IH]; [by apply Hf|]. intros e s. apply IH, Ht.
Qed.

Lemma yields_atomic {A} (f : E → S → S * A) (Q : A → Prop) :
  (∀ e s, Q (snd (f e s))) → yields (atomic f) Q.
Proof. intros H e s. apply H. Qed.

Lemma yields_any {A} (t : thread S E A) : yields t (λ _, True).
Proof. induction t as [a|g k IH]; [done|]. intros e s. apply IH. Qed.

Lemma yields_skip {A B} (t : thread S E A) (f : A → thread S E B) (R : B → Prop) :
  (∀ a, yields (f a) R) → yields (t ≫= f) R.
Proof. intros Hf. eapply yields_bind; [apply yields_any|]. intros a _. apply Hf. Qed.

Lemma yields_mono {A} (t : thread S E A) (Q Q' : A → Prop) :
  (∀ a, Q a → Q' a) → yields t Q → yields t Q'.
Proof. intros HQ. induction t as [a|g k IH]; [apply HQ|]. intros Ht e s. apply IH, Ht. Qed.

Lemma yields_run {R} (t : thread S E R) (Q : R → Prop) es s r s' es' :
  yields t Q → run t es s = (Some r, s', es') → Q r.
Proof.
  revert es s. induction t as [a|g k IH]; intros es s Ht Hr.
  - destruct es; simpl in *; by simplify_eq.
  - destruct es as [|e es]; [done|]. by eapply IH.
Qed.
End threads.

(** An action on a part of the state keeps what that part keeps. *)
Lemma preserves_zoom {S E S' E' R} (view : S → S') (write : S' → S → S) (answer : E → E')
    (okE : E → Prop) (okE' : E' → Prop) (P : S → Prop) (P' : S' → Prop) (t : thread S' E' R) :
  (∀ e, okE e → okE' (answer e)) →
  (∀ x s, (P' (view s) → P' x) → P s → P (write x s)) →
  preserves okE' P' t → preserves okE P (zoom view write answer t).
Proof.
  intros Hok HP. induction t as [r|f k IH]; [done|]. intros Ht e s He.
  destruct (Ht (answer e) (view s) (Hok e He)) as [Hf Hk]. split; [by apply HP|]. by apply IH.
Qed.

Lemma guarantees_lift {S E S' E' R} (view : S → S') (write : S' → S → S) (answer : E → E')
    (G : S → S → Prop) (G' : S' → S' → Prop) (t : thread S' E' R) :
  (∀ x s, G' (view s) x → G s (write x s)) → guarantees G' t → guarantees G (zoom view write answer t).
Proof.
  intros HG. induction t as [r|f k IH]; [done|]. intros Ht e s.
  destruct (Ht (answer e) (view s)) as [Hf Hk]. split; [by apply HG|]. by apply IH.
Qed.

Lemma guarantees_preserves {S E R} (okE : E → Prop) (G : S → S → Prop) (P : S → Prop)
    (t : thread S E R) :
  (∀ s s', G s s' → P s → P s') → guarantees G t → preserves okE P t.
Proof.
  intros HG. induction t as [r|f k IH]; [done|]. intros Ht e s _.
  destruct (Ht e s) as [Hf Hk]. split; [by apply HG|]. by apply IH.
Qed.

Lemma yields_zoom {S E S' E' R} (view : S → S') (write : S' → S → S) (answer : E → E')
    (t : thread S' E' R) (Q : R → Prop) :
  yields t Q → yields (zoom view write answer t) Q.
Proof. intros Ht. induction t as [r|f k IH]; [done|]. intros e s. by apply IH. Qed.

(** What is known of the result whatever happens. *)
Lemma yields_triple {S E R} (okE : E → Prop) (t : thread S E R) (φ : R → Prop) P Q C :
  yields t φ → triple okE P (alone t) Q C → triple okE P (alone t) (λ r s, φ r ∧ Q r s) C.
Proof.
  intros Hy Ht s es Hes HP. specialize (Ht s es Hes HP). unfold alone in *.
  destruct (run t es s) as [[[r|] s'] es'] eqn:Hr; [|done]. destruct Ht as [HQ Hes'].
  split; [|done]. split; [|done]. by eapply yields_run.
Qed.

(** A sequential run of a part of the state, with what it does not touch. *)
Lemma zoom_triple {S E S' E' R} (view : S → S') (write : S' → S → S) (answer : E → E')
    (okE : E → Prop) (okE' : E' → Prop) (F : S → Prop) (t : thread S' E' R) P Q C :
  (∀ e, okE e → okE' (answer e)) → (∀ x s, view (write x s) = x) → (∀ x s, F s → F (write x s)) →
  triple okE' P (alone t) Q C →
  triple okE (λ s, F s ∧ P (view s)) (alone (zoom view write answer t))
    (λ r s, F s ∧ Q r (view s)) (λ s, F s ∧ C (view s)).
Proof.
  intros Hok Hvw HF. unfold triple, alone.
  assert (∀ es s, Forall okE es → F s →
    match run t (answer <$> es) (view s) with
    | (Some r, x, rest) => ∃ s' rest', run (zoom view write answer t) es s = (Some r, s', rest') ∧
                             F s' ∧ view s' = x ∧ Forall okE rest'
    | (None, x, _) => ∃ s' rest', run (zoom view write answer t) es s = (None, s', rest') ∧
                        F s' ∧ view s' = x
    end) as Hsim.
  { induction t as [r|f k IH]; intros es s Hes Hs.
    - destruct es; simpl; eauto 10.
    - destruct es as [|e es]; simpl; [eauto 10|]. apply Forall_cons in Hes as [He Hes].
      specialize (IH (answer e) (view s) es (write (f (answer e) (view s)) s) Hes (HF _ _ Hs)).
      by rewrite Hvw in IH. }
  intros Ht s es Hes [Hs HP]. specialize (Hsim es s Hes Hs).
  specialize (Ht (view s) (answer <$> es)). destruct (run t _ _) as [[[r|] x] rest];
    destruct Hsim as (s' & rest' & -> & HFs & <- & Hrest) || destruct Hsim as (s' & rest' & -> & HFs & <-).
  - split; [|done]. split; [done|]. apply Ht; [|done]. apply Forall_fmap. by eapply Forall_impl.
  - split; [done|]. apply Ht; [|done]. apply Forall_fmap. by eapply Forall_impl.
Qed.

(** A component that only this thread works on runs as if it were alone. *)
Lemma upholds_zoom {S E S' E' R} (view : S → S') (write : S' → S → S) (answer : E → E')
    (okE : E → Prop) (okE' : E' → Prop) (Rely Guar : S → S → Prop) (I F : S → Prop) (M : S' → S' → Prop)
    (t : thread S' E' R) P Q C :
  (∀ e, okE e → okE' (answer e)) → (∀ x s, view (write x s) = x) →
  (∀ s s', Rely s s' → view s' = view s) → (∀ s s', F s → Rely s s' → F s') → (∀ x s, F s → F (write x s)) →
  (∀ x s, I s → C x → M (view s) x → I (write x s)) → (∀ x s, Guar s (write x s)) → (∀ r x, Q r x → C x) →
  guarantees M t → triple okE' P (alone t) Q C →
  upholds okE Rely Guar I (λ s, F s ∧ P (view s)) (zoom view write answer t) (λ r s, F s ∧ Q r (view s)).
Proof.
  intros Hok Hvw HRv HRF HwF HI HG HQC HM Ht.
  enough (∀ (t : thread S' E' R) P, guarantees M t →
    (∀ x es, Forall okE' es → P x → match run t es x with (Some r, x', _) => Q r x' | (None, x', _) => C x' end) →
    upholds okE Rely Guar I (λ s, F s ∧ P (view s)) (zoom view write answer t) (λ r s, F s ∧ Q r (view s))) as H.
  { apply H; [done|]. intros x es Hes HP. specialize (Ht x es Hes HP). unfold alone in Ht.
    destruct (run t es x) as [[[r|] x'] rest]; [by destruct Ht|done]. }
  clear Ht HM P t. intros t. induction t as [r|f k IH]; intros P HM Hrun.
  - intros s s' [HF HP] HR HIs. split; [by eapply HRF|]. specialize (Hrun (view s) [] (Forall_nil_2 _) HP).
    rewrite (HRv _ _ HR). exact Hrun.
  - intros e s s' He [HF HP] HR HIs. destruct (HM (answer e) (view s')) as [Hm Hk]. rewrite <- (HRv _ _ HR) in HP.
    assert (C (f (answer e) (view s'))) as HC.
    { specialize (Hrun (view s') [answer e]). cbn in Hrun. destruct (k (answer e) (view s')) as [r|f' k']; cbn in Hrun.
      - eapply HQC, Hrun; [|done]. constructor; [by apply Hok|done].
      - apply Hrun; [|done]. constructor; [by apply Hok|done]. }
    split_and!; [by apply HI|done|].
    eapply upholds_pre_eq; [|apply (IH (answer e) (view s') (λ x, x = f (answer e) (view s')))]; [|done|].
    + intros x ->. split; [by apply HwF, (HRF s)|]. apply Hvw.
    + intros x es Hes ->. specialize (Hrun (view s') (answer e :: es)). cbn in Hrun. apply Hrun; [|done].
      constructor; [by apply Hok|done].
Qed.

#[global] Arguments guarantees : simpl never.
#[global] Arguments secures : simpl never.
#[global] Arguments preserves : simpl never.
#[global] Arguments upholds : simpl never.
#[global] Arguments yields : simpl never.
#[global] Arguments run : simpl never.
#[global] Arguments zoom : simpl never.
#[global] Arguments atomic : simpl never.
Arguments shared {S E R} _.
Arguments threads {S E R} _.
Arguments Build_system {S E R} _ _.
