(* ===== verification/Tokens.v ===== *)
(** * Invariants that threads hold a stake in

    Some invariants of a server rest on what its handlers are in the middle
    of: a chunk that was counted before it is stored, a session that was
    completed and is about to be billed.  A thread then owns tokens, one for
    each such debt, and the invariant speaks of the shared state and of the
    tokens of all the threads in flight.  A thread obeys the invariant when
    each of its actions restores it, whatever tokens the others hold, with
    the tokens it owns afterwards.  What every thread obeys holds in every
    interleaving, and the process may die at any moment: its threads vanish
    and their tokens with them. *)
From S2P Require Import Prelude Prog Conc.

Section tokens.
Context {S E T : Type}.

(** [G] is what each action guarantees besides. *)
Context (Inv : S → list T → Prop) (G : S → S → Prop).

Fixpoint obeys {R} (toks : list T) (t : thread S E R) (Q : R → list T → Prop) : Prop :=
  match t with
  | Done r => Q r toks
  | Act f k => ∀ e s rest, Inv s (toks ++ rest) →
      ∃ toks', Inv (f e s) (toks' ++ rest) ∧ G s (f e s) ∧ obeys toks' (k e s) Q
  end.

Lemma obeys_bind {A B} toks (t : thread S E A) (f : A → thread S E B) Q R :
  obeys toks t Q → (∀ a toks', Q a toks' → obeys toks' (f a) R) → obeys toks (t ≫= f) R.
Proof.
  intros Ht Hf. revert toks Ht. induction t as [a|g k IH]; intros toks Ht; [by apply Hf|].
  intros e s rest Hi. destruct (Ht e s rest Hi) as (toks' & Hi' & HG & Hk).
  exists toks'. split; [done|]. split; [done|]. by apply IH.
Qed.

Lemma obeys_ret {A} toks (a : A) (Q : A → list T → Prop) : Q a toks → obeys toks (mret a) Q.
Proof. done. Qed.

Lemma obeys_atomic {A} toks (f : E → S → S * A) (Q : A → list T → Prop) :
  (∀ e s rest, Inv s (toks ++ rest) →
     ∃ toks', Inv (f e s).1 (toks' ++ rest) ∧ G s (f e s).1 ∧ Q (f e s).2 toks') →
  obeys toks (atomic f) Q.
Proof. intros H e s rest Hi. by apply H. Qed.

(** A thread that runs alone beside threads that wait. *)
Lemma obeys_run {R} `{!PreOrder G} toks (t : thread S E R) Q es s rest :
  obeys toks t Q → Inv s (toks ++ rest) →
  ∃ toks', Inv (run t es s).1.2 (toks' ++ rest) ∧ G s (run t es s).1.2.
Proof.
  revert toks es s. induction t as [r|f k IH]; intros toks es s Ht Hi.
  - exists toks. by destruct es.
  - destruct es as [|e es]; [by exists toks|].
    destruct (Ht e s rest Hi) as (toks' & Hi' & HG & Hk).
    destruct (IH e s toks' es (f e s) Hk Hi') as (toks'' & Hi'' & HG'). exists toks''.
    rewrite run_act. split; [done|by etrans].
Qed.

(** ** Systems *)

(** The threads in flight and the tokens each of them owns. *)
Definition owned {R} (c : system R) : Prop :=
  ∃ tokss : list (list T),
    Forall2 (λ toks t, obeys toks t (λ _ _, True)) tokss (threads c) ∧ Inv (shared c) (concat tokss).

Context (Inv_perm : ∀ s toks toks', toks ≡ₚ toks' → Inv s toks → Inv s toks').
Context (Inv_drop : ∀ s toks rest, Inv s (toks ++ rest) → Inv s rest).

Lemma concat_focus (tokss : list (list T)) i toks :
  tokss !! i = Some toks → concat tokss ≡ₚ toks ++ concat (delete i tokss).
Proof.
  revert i. induction tokss as [|x tokss IH]; intros [|i] Hi; simplify_eq/=; [done|].
  rewrite (IH _ Hi), !app_assoc. f_equiv. apply Permutation_app_comm.
Qed.

Lemma concat_replace (tokss : list (list T)) i toks toks' :
  tokss !! i = Some toks → concat (<[i := toks']> tokss) ≡ₚ toks' ++ concat (delete i tokss).
Proof.
  revert i. induction tokss as [|x tokss IH]; intros [|i] Hi; simplify_eq/=; [done|].
  rewrite (IH _ Hi), !app_assoc. f_equiv. apply Permutation_app_comm.
Qed.

Lemma owned_none {R} s toks : Inv s toks → owned (Build_system s [] : system R).
Proof.
  intros H. exists []. split; [constructor|]. apply (Inv_drop _ toks). simpl. by rewrite app_nil_r.
Qed.

Lemma owned_crash {R} (c : system R) : owned c → owned (Build_system (shared c) [] : system R).
Proof. intros (tokss & _ & Hi). by eapply owned_none. Qed.

Lemma owned_spawn {R} s ts (t : thread S E R) :
  owned (Build_system s ts) → obeys [] t (λ _ _, True) → owned (Build_system s (ts ++ [t])).
Proof.
  intros (tokss & Hts & Hi) Ht. exists (tokss ++ [[]]). split.
  - apply Forall2_app; [done|]. by repeat constructor.
  - simpl in *. by rewrite concat_app, app_nil_r.
Qed.

Lemma owned_act {R} s (ts : list (thread S E R)) i f k e :
  owned (Build_system s ts) → ts !! i = Some (Act f k) →
  owned (Build_system (f e s) (<[i := k e s]> ts)) ∧ G s (f e s).
Proof.
  intros (tokss & Hts & Hi) Hk. simpl in *.
  destruct (Forall2_lookup_r _ _ _ _ _ Hts Hk) as (toks & Htoks & Hobeys).
  destruct (Hobeys e s (concat (delete i tokss))) as (toks' & Hi' & HG & Hk').
  { eapply Inv_perm; [by apply concat_focus|done]. }
  split; [|done]. exists (<[i := toks']> tokss). split; [by apply Forall2_insert|]. simpl.
  eapply Inv_perm; [symmetry; by eapply concat_replace|done].
Qed.

(** Something that happens at once, whatever tokens are held. *)
Lemma owned_move {R} s s' (ts : list (thread S E R)) :
  owned (Build_system s ts) → (∀ toks, Inv s toks → Inv s' toks) → owned (Build_system s' ts).
Proof. intros (tokss & Hts & Hi) H. exists tokss. split; [done|]. by apply H. Qed.
End tokens.

#[global] Arguments obeys : simpl never.
