(* ===== verification/Keys.v ===== *)
(** * The key store ([internal/securestore/keys.go])

    A machine keeps one data key per workload and version, each wrapped under
    a master key; the master keys live in a keyring file, raw or sealed under
    an external key file.  Keys are created, imported from a peer, rotated,
    and re-wrapped when the master key is rotated.  The manager also keeps
    the keyring in memory, which is what wraps and unwraps.

    Each operation runs under the manager's lock; an action is one read or
    one atomic replacement of a file (see [WriteFile] in [Collection]), so
    that the agent may die between any two.  Base64 and JSON are left out of
    the files; a file that cannot be read or decoded is an answer. *)
From S2P Require Import Prelude GoStr Prog Conc Crypto.

Local Open Scope string_scope.
Local Open Scope list_scope.
Local Open Scope Z_scope.

(** ** Files *)

(** [masterKeyRecord]. *)
Record masterKeyRecord := {
  MasterVersion : Z;
  MasterKey : bytes;
  Protection : string;
  MasterNonce : bytes;
  MasterCreatedAt : Z;
  MasterRetiredAt : option Z;
}.
#[export] Instance masterKeyRecord_eta : Eta masterKeyRecord := fun r =>
  Build_masterKeyRecord (MasterVersion r) (MasterKey r) (Protection r) (MasterNonce r)
    (MasterCreatedAt r) (MasterRetiredAt r).

(** [keyringFile]. *)
Record keyringFile := {
  RingFormat : Z;
  ActiveVersion : Z;
  Masters : list masterKeyRecord;
}.
#[export] Instance keyringFile_eta : Eta keyringFile := fun r =>
  Build_keyringFile (RingFormat r) (ActiveVersion r) (Masters r).

(** [wrappedKeyRecord]. *)
Record wrappedKeyRecord := {
  WrapFormat : Z;
  WrapWorkload : string;
  WrapVersion : Z;
  WrappedBy : Z;
  WrapNonce : bytes;
  WrapCiphertext : bytes;
  WrapCreatedAt : Z;
}.
#[export] Instance wrappedKeyRecord_eta : Eta wrappedKeyRecord := fun r =>
  Build_wrappedKeyRecord (WrapFormat r) (WrapWorkload r) (WrapVersion r) (WrappedBy r) (WrapNonce r)
    (WrapCiphertext r) (WrapCreatedAt r).

(** The keyring file, the files under [workload-keys] by their name, and the
    keyring in memory. *)
Record vault := {
  ring_file : option keyringFile;
  key_files : gmap string (list wrappedKeyRecord);
  ring : keyringFile;
}.
#[export] Instance vault_eta : Eta vault := fun s =>
  Build_vault (ring_file s) (key_files s) (ring s).

(** A file is replaced, replaced although the call fails afterwards, or not. *)
Inductive written := Stored | Late | Lost.

Record kanswer := {
  readable : bool;
  drawn : bytes;
  fresh_nonce : bytes;
  ring_written : written;
  file_written : written;
  stamp : Z;
}.

Definition masterKeyProtectionKeyfile : string := "keyfile-v1".

Section keys.
Context `{HC : !Crypto}.
(** The key the keyring is sealed under, when there is a key file. *)
Context (wrapKey : option bytes).

#[local] Abbreviation act := (thread vault kanswer).

(** ** Master keys *)

(** [sealRecord], with the nonce it draws. *)
Definition sealRecord (r : masterKeyRecord) (key nonce : bytes) : result masterKeyRecord :=
  match wrapKey with
  | None => Ok (r <| Protection := "" |> <| MasterNonce := [] |> <| MasterKey := key |>)
  | Some wrap =>
      ciphertext ← Encrypt wrap "master-keyring" "wrap-master-key" key
        ("shift-master-key-v1" +:+ nl +:+ Itoa (MasterVersion r)) nonce;
      Ok (r <| Protection := masterKeyProtectionKeyfile |> <| MasterNonce := nonce |>
            <| MasterKey := ciphertext |>)
  end.

(** [masterKey]. *)
Definition open_master (r : masterKeyRecord) : result bytes :=
  if decide (Protection r = "") then
    if (length (MasterKey r) =? keySize)%nat then Ok (MasterKey r) else Err "invalid master key record"
  else if decide (Protection r = masterKeyProtectionKeyfile) then
    match wrapKey with
    | None => Err "master key is sealed under an external key file"
    | Some wrap => Decrypt wrap "master-keyring" "wrap-master-key" (MasterNonce r) (MasterKey r)
                     ("shift-master-key-v1" +:+ nl +:+ Itoa (MasterVersion r))
    end
  else Err "unsupported master key protection".

Fixpoint find_master (version : Z) (rs : list masterKeyRecord) : result bytes :=
  match rs with
  | [] => Err "master key version not found"
  | r :: rs => if MasterVersion r =? version then open_master r else find_master version rs
  end.

Definition masterKey (k : keyringFile) (version : Z) : result bytes := find_master version (Masters k).

(** ** Workload keys *)

Definition wrap_aad (workloadID : string) (version masterVersion : Z) : string :=
  "shift-workload-key-v1" +:+ nl +:+ workloadID +:+ nl +:+ Itoa version +:+ nl +:+ Itoa masterVersion.

(** [unwrap]. *)
Definition unwrap (k : keyringFile) (r : wrappedKeyRecord) : result bytes :=
  master ← masterKey k (WrappedBy r);
  Decrypt master (WrapWorkload r) "wrap-workload-key" (WrapNonce r) (WrapCiphertext r)
    (wrap_aad (WrapWorkload r) (WrapVersion r) (WrappedBy r)).

(** [workloadPath]: the name of the file. *)
Definition workloadPath (workloadID : string) : string :=
  hex (sha256 (String.list_byte_of_string workloadID)) +:+ ".json".

(** [loadWorkloadRecords]. *)
Definition loaded (files : gmap string (list wrappedKeyRecord)) (workloadID : string)
    : result (list wrappedKeyRecord) :=
  match files !! workloadPath workloadID with
  | None => Err errNotExist
  | Some records =>
      if forallb (λ r, (WrapFormat r =? 1) && bool_decide (WrapWorkload r = workloadID)) records
      then Ok records else Err "invalid workload key record"
  end.

Definition loadWorkloadRecords (workloadID : string) : act (result (list wrappedKeyRecord)) :=
  atomic (λ e s, (s, if readable e then loaded (key_files s) workloadID else Err "read workload keys")).

(** [persistence.WriteJSON] of a file of workload keys and of the keyring. *)
Definition write_keys (path : string) (records : list wrappedKeyRecord) : act (result unit) :=
  atomic (λ e s,
    let s' := s <| key_files := <[path := records]> (key_files s) |> in
    match file_written e with
    | Stored => (s', Ok tt)
    | Late => (s', Err "write workload keys")
    | Lost => (s, Err "write workload keys")
    end).

Definition write_ring (k : keyringFile) : act (result unit) :=
  atomic (λ e s,
    let s := s <| ring := k |> in
    match ring_written e with
    | Stored => (s <| ring_file := Some k |>, Ok tt)
    | Late => (s <| ring_file := Some k |>, Err "write keyring")
    | Lost => (s, Err "write keyring")
    end).

(** A new record, wrapped under the active master key. *)
Definition wrap (k : keyringFile) (workloadID : string) (version : Z) (key nonce : bytes) (at_ : Z)
    : result wrappedKeyRecord :=
  master ← masterKey k (ActiveVersion k);
  ciphertext ← Encrypt master workloadID "wrap-workload-key" key
    (wrap_aad workloadID version (ActiveVersion k)) nonce;
  Ok {| WrapFormat := 1; WrapWorkload := workloadID; WrapVersion := version;
        WrappedBy := ActiveVersion k; WrapNonce := nonce; WrapCiphertext := ciphertext;
        WrapCreatedAt := at_ |}.

Definition older (a b : wrappedKeyRecord) : Prop := WrapVersion a ≤ WrapVersion b.
#[export] Instance older_dec : RelDecision older.
Proof. intros a b. unfold older. apply _. Defined.

(** [storeWorkloadKey]. *)
Definition storeWorkloadKey (workloadID : string) (version : Z) (key : bytes)
    (records : list wrappedKeyRecord) : act (result unit) :=
  made ← atomic (λ e s, (s, wrap (ring s) workloadID version key (fresh_nonce e) (stamp e)));
  match made with
  | Err err => mret (Err err)
  | Ok r => write_keys (workloadPath workloadID) (merge_sort older (records ++ [r]))
  end.

(** The records a caller goes on with: none when the file does not exist. *)
Definition or_none (r : result (list wrappedKeyRecord)) : result (list wrappedKeyRecord) :=
  match r with
  | Err err => if decide (err = errNotExist) then Ok [] else Err err
  | Ok records => Ok records
  end.

Definition draw_key : act bytes := atomic (λ e s, (s, drawn e)).

(** [GetOrCreateWorkloadKey]. *)
Definition GetOrCreateWorkloadKey (workloadID : string) : act (result (Z * bytes)) :=
  found ← loadWorkloadRecords workloadID;
  match or_none found with
  | Err err => mret (Err err)
  | Ok records =>
      match last records with
      | Some r =>
          atomic (λ _ s, (s, key ← unwrap (ring s) r; Ok (WrapVersion r, key)))
      | None =>
          key ← draw_key;
          stored ← storeWorkloadKey workloadID 1 key [];
          mret (match stored with Err err => Err err | Ok _ => Ok (1, key) end)
      end
  end.

Fixpoint find_record (version : Z) (rs : list wrappedKeyRecord) : option wrappedKeyRecord :=
  match rs with
  | [] => None
  | r :: rs => if WrapVersion r =? version then Some r else find_record version rs
  end.

(** [WorkloadKey], as a function of the keyring and the files. *)
Definition recall (k : keyringFile) (files : gmap string (list wrappedKeyRecord)) (workloadID : string)
    (version : Z) : result bytes :=
  records ← loaded files workloadID;
  match find_record version records with
  | Some r => unwrap k r
  | None => Err errNotExist
  end.

Definition WorkloadKey (workloadID : string) (version : Z) : act (result bytes) :=
  atomic (λ e s, (s, if readable e then recall (ring s) (key_files s) workloadID version
                     else Err "read workload keys")).

(** [ImportWorkloadKey]. *)
Definition ImportWorkloadKey_ (workloadID : string) (version : Z) (key : bytes) : act (result unit) :=
  if negb (length key =? keySize)%nat then mret (Err "workload data key must be 256 bits")
  else
    found ← loadWorkloadRecords workloadID;
    match or_none found with
    | Err err => mret (Err err)
    | Ok records =>
        match find_record version records with
        | Some r =>
            atomic (λ _ s, (s, existing ← unwrap (ring s) r;
                               require (bool_decide (existing = key))
                                 "a different key already exists for this workload and version"))
        | None => storeWorkloadKey workloadID version key records
        end
    end.

(** [RotateWorkloadKey]. *)
Definition next_version (records : list wrappedKeyRecord) : Z :=
  match last records with Some r => uint32 (WrapVersion r + 1) | None => 1 end.

Definition RotateWorkloadKey (workloadID : string) : act (result (Z * bytes)) :=
  found ← loadWorkloadRecords workloadID;
  match or_none found with
  | Err err => mret (Err err)
  | Ok records =>
      key ← draw_key;
      stored ← storeWorkloadKey workloadID (next_version records) key records;
      mret (match stored with Err err => Err err | Ok _ => Ok (next_version records, key) end)
  end.

(** ** Rotating the master key *)

(** The first version above all that exist. *)
Definition next_master (k : keyringFile) : Z :=
  foldl (λ v r, if v <=? MasterVersion r then uint32 (MasterVersion r + 1) else v)
    (ActiveVersion k) (Masters k).

(** The loop of [rewrapWorkloadFile]: one nonce per record. *)
Fixpoint rewrap_records (done_ records : list wrappedKeyRecord)
    : act (result (list wrappedKeyRecord)) :=
  match records with
  | [] => mret (Ok done_)
  | r :: rest =>
      made ← atomic (λ e s, (s,
        key ← unwrap (ring s) r;
        w ← wrap (ring s) (WrapWorkload r) (WrapVersion r) key (fresh_nonce e) 0;
        Ok (r <| WrappedBy := WrappedBy w |> <| WrapNonce := WrapNonce w |>
              <| WrapCiphertext := WrapCiphertext w |>)));
      match made with
      | Err err => mret (Err err)
      | Ok r => rewrap_records (done_ ++ [r]) rest
      end
  end.

(** [rewrapWorkloadFile]. *)
Definition rewrapWorkloadFile (path : string) : act (result unit) :=
  found ← atomic (λ e s, (s, if readable e then key_files s !! path else None));
  match found with
  | None => mret (Err "read workload keys")
  | Some records =>
      made ← rewrap_records [] records;
      match made with
      | Err err => mret (Err err)
      | Ok records => write_keys path records
      end
  end.

Fixpoint rewrap_all (paths : list string) : act (result unit) :=
  match paths with
  | [] => mret (Ok tt)
  | path :: rest =>
      done_ ← rewrapWorkloadFile path;
      match done_ with
      | Err err => mret (Err err)
      | Ok _ => rewrap_all rest
      end
  end.

Definition retire (version at_ : Z) (r : masterKeyRecord) : masterKeyRecord :=
  if negb (MasterVersion r =? version) && bool_decide (MasterRetiredAt r = None) then
    r <| MasterRetiredAt := Some at_ |> else r.

(** [RotateMasterKey]. *)
Definition RotateMasterKey : act (result Z) :=
  made ← atomic (λ e s, (s,
    let version := next_master (ring s) in
    r ← sealRecord {| MasterVersion := version; MasterKey := []; Protection := ""; MasterNonce := [];
                      MasterCreatedAt := stamp e; MasterRetiredAt := None |} (drawn e) (fresh_nonce e);
    Ok (version, (ring s) <| Masters := Masters (ring s) ++ [r] |> <| ActiveVersion := version |>)));
  match made with
  | Err err => mret (Err err)
  | Ok (version, k) =>
      stored ← write_ring k;
      match stored with
      | Err err => mret (Err err)
      | Ok _ =>
          paths ← atomic (λ _ s, (s, (map_to_list (key_files s)).*1));
          rewrapped ← rewrap_all paths;
          match rewrapped with
          | Err err => mret (Err err)
          | Ok _ =>
              k ← atomic (λ e s, (s, (ring s) <| Masters := retire version (stamp e) <$> Masters (ring s) |>));
              stored ← write_ring k;
              mret (match stored with Err err => Err err | Ok _ => Ok version end)
          end
      end
  end.

(** ** Opening *)

(** [open], once the keyring is in hand. *)
Definition accept_ring (k : keyringFile) : result unit :=
  _ ← require ((RingFormat k =? 1) && negb (bool_decide (Masters k = []))) "invalid master keyring";
  require (forallb (λ r, bool_decide (Protection r = "") || bool_decide (is_Some wrapKey)) (Masters k))
    "master keyring is sealed under an external key file".

Definition OpenKeys (mint : bool) : act (result unit) :=
  found ← atomic (λ e s, (s, if readable e then Ok (ring_file s) else Err "read keyring"));
  match found with
  | Err err => mret (Err err)
  | Ok (Some k) => atomic (λ _ s, match accept_ring k with
                                  | Err err => (s, Err err)
                                  | Ok _ => (s <| ring := k |>, Ok tt)
                                  end)
  | Ok None =>
      if negb mint then mret (Err "master keyring is missing")
      else
        made ← atomic (λ e s, (s,
          r ← sealRecord {| MasterVersion := 1; MasterKey := []; Protection := ""; MasterNonce := [];
                            MasterCreatedAt := stamp e; MasterRetiredAt := None |}
                (drawn e) (fresh_nonce e);
          Ok {| RingFormat := 1; ActiveVersion := 1; Masters := [r] |}));
        match made with
        | Err err => mret (Err err)
        | Ok k => write_ring k
        end
  end.

(** ** Soundness *)

Definition same_masters (a b : keyringFile) : Prop := ∀ v k, masterKey a v = Ok k ↔ masterKey b v = Ok k.

(** The active version is the newest, and opens. *)
Definition ring_ok (k : keyringFile) : Prop :=
  Forall (λ r, MasterVersion r ≤ ActiveVersion k) (Masters k) ∧ 0 ≤ ActiveVersion k ∧
  ∃ key, masterKey k (ActiveVersion k) = Ok key.

Definition record_ok (k : keyringFile) (w : string) (r : wrappedKeyRecord) : Prop :=
  WrapFormat r = 1 ∧ WrapWorkload r = w ∧ 0 ≤ WrapVersion r < 2 ^ 32 ∧ ∃ key, unwrap k r = Ok key.

(** The records of one workload by increasing version, each of which opens. *)
Definition records_ok (k : keyringFile) (w : string) (records : list wrappedKeyRecord) : Prop :=
  NoDup (WrapVersion <$> records) ∧ StronglySorted older records ∧ Forall (record_ok k w) records.

Definition file_ok (k : keyringFile) (path : string) (records : list wrappedKeyRecord) : Prop :=
  ∃ w, path = workloadPath w ∧ records_ok k w records.

Record sound (s : vault) : Prop := {
  sound_disk : ∃ k, ring_file s = Some k ∧ same_masters k (ring s) ∧ ring_ok k;
  sound_ring : ring_ok (ring s);
  sound_files : map_Forall (file_ok (ring s)) (key_files s);
}.

Abbreviation ack := (string * Z * bytes)%type.

(** A key that was handed out is read back. *)
Definition remembered (s : vault) (x : ack) : Prop :=
  recall (ring s) (key_files s) x.1.1 x.1.2 = Ok x.2.
Definition good (acks : list ack) (s : vault) : Prop := sound s ∧ Forall (remembered s) acks.

Lemma unwrap_masters a b r key : same_masters a b → unwrap a r = Ok key → unwrap b r = Ok key.
Proof.
  unfold unwrap. intros Hs H. apply bind_ok in H as (m & Hm & H). apply Hs in Hm. by rewrite Hm.
Qed.

Lemma unwrap_grows a b r key :
  (∀ v k, masterKey a v = Ok k → masterKey b v = Ok k) → unwrap a r = Ok key → unwrap b r = Ok key.
Proof.
  unfold unwrap. intros Hs H. apply bind_ok in H as (m & Hm & H). apply Hs in Hm. by rewrite Hm.
Qed.

Lemma find_record_elem v rs r : find_record v rs = Some r → r ∈ rs ∧ WrapVersion r = v.
Proof.
  induction rs as [|r' rs IH]; [done|]. simpl. destruct (Z.eqb_spec (WrapVersion r') v).
  - intros [= <-]. split; [by left|done].
  - intros [? ?]%IH. split; [by right|done].
Qed.

Lemma find_record_some v rs r :
  NoDup (WrapVersion <$> rs) → r ∈ rs → WrapVersion r = v → find_record v rs = Some r.
Proof.
  induction rs as [|r' rs IH]; [by intros _ ?%not_elem_of_nil|]. simpl.
  intros [Hn Hnd]%NoDup_cons [->|Hr]%elem_of_cons Hv.
  - by rewrite Hv, Z.eqb_refl.
  - destruct (Z.eqb_spec (WrapVersion r') v) as [Hv'|]; [|by apply IH]. destruct Hn.
    rewrite Hv', <- Hv. by apply list_elem_of_fmap_2.
Qed.

Lemma find_record_none v rs : find_record v rs = None → v ∉ WrapVersion <$> rs.
Proof.
  induction rs as [|r rs IH]; simpl; [by intros _ ?%not_elem_of_nil|].
  destruct (Z.eqb_spec (WrapVersion r) v); [done|]. intros H. rewrite not_elem_of_cons. split; [done|by apply IH].
Qed.

Lemma loaded_ok files w records :
  loaded files w = Ok records ↔ files !! workloadPath w = Some records ∧
    Forall (λ r, WrapFormat r = 1 ∧ WrapWorkload r = w) records.
Proof.
  unfold loaded. destruct (files !! workloadPath w) as [rs|]; [|naive_solver].
  assert (forallb (λ r, (WrapFormat r =? 1) && bool_decide (WrapWorkload r = w)) rs = true ↔
          Forall (λ r, WrapFormat r = 1 ∧ WrapWorkload r = w) rs) as Hiff.
  { rewrite forallb_forall, Forall_forall. setoid_rewrite andb_true_iff.
    setoid_rewrite bool_decide_eq_true. setoid_rewrite Z.eqb_eq.
    split; intros H r Hr; apply H; by apply list_elem_of_In. }
  destruct (forallb _ rs); [naive_solver|]. split; [done|]. intros [[= ->] H]. by apply Hiff in H.
Qed.

(** ** Every operation keeps it *)

(** What is drawn has its proper length, and the keyring is never lost by a
    write that fails. *)
Definition supplied (e : kanswer) : Prop :=
  length (drawn e) = keySize ∧ length (fresh_nonce e) = nonceSize ∧ ring_written e ≠ Lost.

(** Replacing a file by one that still has every key of the old one. *)
Lemma replace_file acks s path new :
  good acks s → file_ok (ring s) path new →
  (∀ old v r key, key_files s !! path = Some old → find_record v old = Some r →
     unwrap (ring s) r = Ok key →
     ∃ r', find_record v new = Some r' ∧ WrapWorkload r' = WrapWorkload r ∧ unwrap (ring s) r' = Ok key) →
  good acks (s <| key_files := <[path := new]> (key_files s) |>).
Proof.
  intros [[Hd Hr Hf] Ha] Hnew Hkeep. split.
  - split; [done|done|]. cbn. by apply map_Forall_insert_2.
  - eapply Forall_impl; [exact Ha|]. intros [[w v] key]. unfold remembered, recall. cbn.
    intros (records & Hl & Hx)%bind_ok. apply loaded_ok in Hl as [Hl Hall].
    destruct (find_record v records) as [r|] eqn:Hfind; [|done].
    destruct (decide (path = workloadPath w)) as [->|Hne].
    + destruct (Hkeep _ _ _ _ Hl Hfind Hx) as (r' & Hfind' & Hw & Hu).
      destruct (find_record_elem _ _ _ Hfind) as [Hr' _]. destruct (find_record_elem _ _ _ Hfind') as [Hin _].
      assert (WrapWorkload r = w) as Hrw by (rewrite Forall_forall in Hall; by apply Hall).
      destruct Hnew as (w' & _ & _ & _ & Hforall).
      assert (w' = w) as -> by (rewrite Forall_forall in Hforall; destruct (Hforall r' Hin) as (_ & ? & _); congruence).
      rewrite (proj2 (loaded_ok _ w new)); [by rewrite ok_bind, Hfind'|]. rewrite lookup_insert_eq. split; [done|].
      eapply Forall_impl; [exact Hforall|]. intros x (? & ? & _). done.
    + rewrite (proj2 (loaded_ok _ w records)); [by rewrite ok_bind, Hfind|]. by rewrite lookup_insert_ne.
Qed.

(** A new record is read back. *)
Lemma wrap_unwrap k w v key nonce at_ r :
  length nonce = nonceSize → wrap k w v key nonce at_ = Ok r →
  WrapFormat r = 1 ∧ WrapWorkload r = w ∧ WrapVersion r = v ∧ unwrap k r = Ok key.
Proof.
  intros Hn. unfold wrap, unwrap. destruct (masterKey k (ActiveVersion k)) as [m|] eqn:Hm; [|done].
  rewrite ok_bind. intros (c & Hc & [= <-])%bind_ok. cbn. rewrite Hm, ok_bind.
  split_and!; [done|done|done|]. by eapply Decrypt_Encrypt.
Qed.

#[local] Instance older_total : Total older.
Proof. intros a b. unfold older. lia. Qed.
#[local] Instance older_trans : Transitive older.
Proof. intros a b c. unfold older. lia. Qed.

(** The file [storeWorkloadKey] writes. *)
Lemma appended_ok k w v key nonce at_ r records :
  length nonce = nonceSize → wrap k w v key nonce at_ = Ok r → 0 ≤ v < 2 ^ 32 → v ∉ WrapVersion <$> records →
  records_ok k w records →
  records_ok k w (merge_sort older (records ++ [r])) ∧
  (∀ v' x, find_record v' records = Some x → find_record v' (merge_sort older (records ++ [r])) = Some x) ∧
  find_record v (merge_sort older (records ++ [r])) = Some r.
Proof.
  intros Hn Hw Hv0 Hv (Hnd & _ & Hall). destruct (wrap_unwrap _ _ _ _ _ _ _ Hn Hw) as (H1 & H2 & H3 & H4).
  pose proof (merge_sort_Permutation older (records ++ [r])) as Hperm.
  assert (NoDup (WrapVersion <$> merge_sort older (records ++ [r]))) as Hnd'.
  { rewrite Hperm, fmap_app. apply NoDup_app. split_and!; [done| |apply NoDup_singleton].
    intros x Hx Hx'. apply list_elem_of_singleton in Hx' as ->. by rewrite H3 in Hx. }
  split; [|split].
  - split; [done|]. split; [apply (@StronglySorted_merge_sort _ older _ older_trans older_total)|]. rewrite Hperm. apply Forall_app. split; [done|].
    apply Forall_singleton. split_and!; [done|done|lia|lia|eauto].
  - intros v' x Hx. apply find_record_elem in Hx as [Hx ?]. apply find_record_some; [done| |done].
    rewrite Hperm. apply elem_of_app. by left.
  - apply find_record_some; [done| |done]. rewrite Hperm. apply elem_of_app. right. by apply list_elem_of_singleton.
Qed.

(** The records an operation goes on with. *)
Lemma loaded_sound acks s w records :
  good acks s → or_none (loaded (key_files s) w) = Ok records →
  records_ok (ring s) w records ∧ (∀ old, key_files s !! workloadPath w = Some old → old = records).
Proof.
  intros [[_ _ Hf] _]. destruct (loaded (key_files s) w) as [rs|err] eqn:Hl; simpl.
  - intros [= ->]. apply loaded_ok in Hl as [Hl Hall]. destruct (Hf _ _ Hl) as (w' & _ & Hnd & Hs & Hr).
    split; [|naive_solver]. split_and!; [done|done|]. apply Forall_forall. intros r Hin.
    rewrite Forall_forall in Hall, Hr. destruct (Hall r Hin), (Hr r Hin) as (? & ? & ? & ?).
    by refine (conj _ (conj _ (conj _ _))).
  - destruct (decide (err = errNotExist)) as [->|]; [|done]. intros [= <-].
    split; [split_and!; [constructor|constructor|done]|]. intros old Hold. unfold loaded in Hl. rewrite Hold in Hl.
    by destruct (forallb _ _).
Qed.

(** What a call may assume when the file it read is still there. *)
Lemma store_good acks s0 w v key records :
  good acks s0 → or_none (loaded (key_files s0) w) = Ok records → 0 ≤ v < 2 ^ 32 → v ∉ WrapVersion <$> records →
  triple supplied (λ s, s = s0) (alone (storeWorkloadKey w v key records))
    (λ r s, good (if is_ok r then acks ++ [(w, v, key)] else acks) s) (good acks).
Proof.
  intros Hg Hl Hv0 Hv. destruct (loaded_sound _ _ _ _ Hg Hl) as [Hrs Hold]. unfold storeWorkloadKey.
  apply alone_read; [by intros ? ->|]. intros e s He ->. destruct He as (_ & Hn & _).
  destruct (wrap _ _ _ _ _ _) as [r|] eqn:Hw; [|apply alone_ret; by intros ? ->].
  destruct (appended_ok _ _ _ _ _ _ _ _ Hn Hw Hv0 Hv Hrs) as (Hok & Hkeep & Hnew).
  assert (good acks (s0 <| key_files := <[workloadPath w := merge_sort older (records ++ [r])]> (key_files s0) |>))
    as Hg'.
  { apply replace_file; [done|by exists w|]. intros old v' x k' Ho Hf Hu. apply Hold in Ho as ->. exists x. auto. }
  apply alone_atomic; [by intros ? ->|]. intros e' s He' ->. destruct (file_written e'); cbn; [|done|done].
  destruct Hg' as [Hs Ha]. split; [done|]. apply Forall_app. split; [done|]. apply Forall_singleton.
  unfold remembered, recall. cbn. destruct Hok as (_ & _ & Hall).
  rewrite (proj2 (loaded_ok _ w (merge_sort older (records ++ [r])))).
  - rewrite ok_bind, Hnew. eapply wrap_unwrap in Hw as (_ & _ & _ & ->); done.
  - rewrite lookup_insert_eq. split; [done|]. eapply Forall_impl; [exact Hall|]. intros x (? & ? & _). done.
Qed.

(** An operation that reads the file of a workload and goes on with it. *)
Lemma load_good {A} acks s0 w (k : list wrappedKeyRecord → act (result A)) (Q : result A → vault → Prop) :
  good acks s0 → (∀ err, Q (Err err) s0) →
  (∀ records, or_none (loaded (key_files s0) w) = Ok records →
     triple supplied (λ s, s = s0) (alone (k records)) Q (good acks)) →
  triple supplied (λ s, s = s0)
    (alone (found ← loadWorkloadRecords w;
            match or_none found with Err err => mret (Err err) | Ok records => k records end))
    Q (good acks).
Proof.
  intros Hg Herr Hk. apply alone_read; [by intros ? ->|]. intros e s _ ->.
  destruct (readable e); [|apply alone_ret; by intros ? ->].
  destruct (or_none _) as [records|err] eqn:Hl; [by apply Hk|apply alone_ret; by intros ? ->].
Qed.

(** The keys a result hands out. *)
Definition handed (w : string) (r : result (Z * bytes)) : list ack :=
  match r with Ok (v, key) => [(w, v, key)] | Err _ => [] end.

Lemma remembered_record s acks w records r key :
  good acks s → or_none (loaded (key_files s) w) = Ok records → r ∈ records →
  unwrap (ring s) r = Ok key → remembered s (w, WrapVersion r, key).
Proof.
  intros Hg Hl Hr Hu. destruct (loaded_sound _ _ _ _ Hg Hl) as [(Hnd & _ & _) _].
  unfold remembered, recall. cbn. destruct (loaded (key_files s) w) as [rs|err] eqn:Hl'; simpl in Hl.
  - injection Hl as ->. by rewrite ok_bind, (find_record_some _ _ _ Hnd Hr eq_refl).
  - destruct (decide _); [|done]. injection Hl as <-. by apply not_elem_of_nil in Hr.
Qed.

Lemma good_app acks s x : good acks s → remembered s x → good (acks ++ [x]) s.
Proof. intros [Hs Ha] Hx. split; [done|]. apply Forall_app. split; [done|]. by apply Forall_singleton. Qed.

Lemma GetOrCreate_good acks s0 w :
  good acks s0 →
  triple supplied (λ s, s = s0) (alone (GetOrCreateWorkloadKey w))
    (λ r s, good (acks ++ handed w r) s) (good acks).
Proof.
  intros Hg. apply load_good; [done|intros err; cbn; by rewrite app_nil_r|]. intros records Hl.
  destruct (last records) as [r|] eqn:Hlast.
  - apply alone_atomic; [by intros ? ->|]. intros e s _ ->. cbn.
    destruct (unwrap (ring s0) r) as [key|] eqn:Hu; cbn; [|by rewrite app_nil_r].
    apply good_app; [done|]. eapply remembered_record; [done|done| |done]. by eapply last_Some_elem_of.
  - apply alone_read; [by intros ? ->|]. intros e s He ->. apply last_None in Hlast as ->.
    apply (alone_bind _ _ _ _ (λ r s, good (if is_ok r then acks ++ [(w, 1, drawn e)] else acks) s)).
    + apply store_good; [done|done|lia|apply not_elem_of_nil].
    + intros [[]|err]; apply alone_ret; intros s Hs; [done|]. cbn. by rewrite app_nil_r.
Qed.

Lemma Import_good acks s0 w v key :
  good acks s0 → 0 ≤ v < 2 ^ 32 →
  triple supplied (λ s, s = s0) (alone (ImportWorkloadKey_ w v key))
    (λ r s, good (if is_ok r then acks ++ [(w, v, key)] else acks) s) (good acks).
Proof.
  intros Hg Hv. unfold ImportWorkloadKey_. destruct (negb _); [apply alone_ret; by intros ? ->|].
  apply load_good; [done|done|]. intros records Hl. destruct (find_record v records) as [r|] eqn:Hf.
  - apply alone_atomic; [by intros ? ->|]. intros e s _ ->. cbn.
    destruct (unwrap (ring s0) r) as [existing|] eqn:Hu; cbn; [|done]. unfold require.
    destruct (bool_decide (existing = key)) eqn:E; cbn; [|done]. apply bool_decide_eq_true in E as ->.
    apply find_record_elem in Hf as [Hr <-]. apply good_app; [done|]. by eapply remembered_record.
  - apply store_good; [done|done|done|by apply find_record_none].
Qed.

(** A new version is above the old ones, as long as there is one. *)
Lemma next_version_fresh k w records :
  records_ok k w records → Forall (λ r, WrapVersion r < 2 ^ 32 - 1) records →
  0 ≤ next_version records < 2 ^ 32 ∧ next_version records ∉ WrapVersion <$> records.
Proof.
  intros (_ & Hs & Hr) Hb. unfold next_version. destruct (last records) as [r|] eqn:Hl.
  2:{ apply last_None in Hl as ->. split; [lia|apply not_elem_of_nil]. }
  apply last_Some in Hl as [rest ->]. apply Forall_app in Hr as [_ Hr]. apply Forall_app in Hb as [_ Hb].
  apply Forall_singleton in Hr as (_ & _ & Hv0 & _). rewrite Forall_singleton in Hb.
  assert (uint32 (WrapVersion r + 1) = WrapVersion r + 1) as ->
    by (unfold uint32; rewrite Z.mod_small; lia).
  split; [lia|]. intros (x & Hx & Hin)%list_elem_of_fmap.
  apply StronglySorted_app in Hs as (Hs & _). apply elem_of_app in Hin as [Hin|Hin%list_elem_of_singleton].
  - specialize (Hs x r Hin ltac:(by left)). unfold older in Hs. lia.
  - subst x. lia.
Qed.

Definition versions_fit (s : vault) (w : string) : Prop :=
  ∀ records, key_files s !! workloadPath w = Some records → Forall (λ r, WrapVersion r < 2 ^ 32 - 1) records.

Lemma Rotate_good acks s0 w :
  good acks s0 → versions_fit s0 w →
  triple supplied (λ s, s = s0) (alone (RotateWorkloadKey w))
    (λ r s, good (acks ++ handed w r) s) (good acks).
Proof.
  intros Hg Hfit. apply load_good; [done|intros err; cbn; by rewrite app_nil_r|]. intros records Hl.
  destruct (loaded_sound _ _ _ _ Hg Hl) as [Hrs _].
  destruct (next_version_fresh _ _ _ Hrs) as [Hv0 Hv].
  { destruct (loaded (key_files s0) w) as [rs|err] eqn:E; simpl in Hl.
    - injection Hl as ->. apply loaded_ok in E as [E _]. by apply Hfit.
    - destruct (decide _); [|done]. by injection Hl as <-. }
  apply alone_read; [by intros ? ->|]. intros e s He ->.
  apply (alone_bind _ _ _ _ (λ r s, good (if is_ok r then acks ++ [(w, next_version records, drawn e)] else acks) s)).
  - by apply store_good.
  - intros [[]|err]; apply alone_ret; intros s Hs; [done|]. cbn. by rewrite app_nil_r.
Qed.

(** ** Rotating the master key keeps them too *)

Lemma find_master_app v a b x : find_master v a = Ok x → find_master v (a ++ b) = Ok x.
Proof. induction a as [|r a IH]; simpl; [done|]. destruct (_ =? _); auto. Qed.

Lemma find_master_new v a r :
  Forall (λ r, MasterVersion r < v) a → MasterVersion r = v → find_master v (a ++ [r]) = open_master r.
Proof.
  induction 1 as [|x a Hx _ IH]; simpl; intros Hv; [by rewrite Hv, Z.eqb_refl|].
  destruct (Z.eqb_spec (MasterVersion x) v); [lia|auto].
Qed.

Lemma next_master_above k : ring_ok k → ActiveVersion k < 2 ^ 32 - 1 → next_master k = ActiveVersion k + 1.
Proof.
  intros (Hle & H0 & key & Hkey) Hfit. unfold next_master, masterKey in *.
  assert (∀ rs, Forall (λ r, MasterVersion r ≤ ActiveVersion k) rs →
    foldl (λ v r, if v <=? MasterVersion r then uint32 (MasterVersion r + 1) else v)
      (ActiveVersion k + 1) rs = ActiveVersion k + 1) as Hrest.
  { induction 1 as [|r rs Hr _ IH]; [done|]. simpl.
    destruct (Z.leb_spec (ActiveVersion k + 1) (MasterVersion r)); [lia|done]. }
  induction Hle as [|r rs Hr Hrs IH]; [done|]. simpl in *.
  destruct (Z.eqb_spec (MasterVersion r) (ActiveVersion k)) as [E|E].
  - rewrite E, Z.leb_refl. unfold uint32. rewrite Z.mod_small by lia. by apply Hrest.
  - destruct (Z.leb_spec (ActiveVersion k) (MasterVersion r)); [lia|auto].
Qed.

Lemma sealed_opens r key nonce r' :
  length key = keySize → length nonce = nonceSize → sealRecord r key nonce = Ok r' →
  MasterVersion r' = MasterVersion r ∧ open_master r' = Ok key.
Proof.
  intros Hk Hn. unfold sealRecord, open_master. destruct wrapKey as [wk|].
  - destruct (Encrypt _ _ _ _ _ _) as [c|] eqn:He; [|done]. rewrite ok_bind. intros [= <-]. cbn.
    split; [done|]. by eapply Decrypt_Encrypt.
  - intros [= <-]. cbn. split; [done|]. by rewrite Hk.
Qed.

(** A keyring that opens all that the old one opened. *)
Lemma change_ring acks s k :
  good acks s → ring_ok k → (∀ v x, masterKey (ring s) v = Ok x → masterKey k v = Ok x) →
  good acks (s <| ring := k |> <| ring_file := Some k |>).
Proof.
  intros [[_ _ Hf] Ha] Hk Hgrow. split.
  - split; cbn; [by exists k|done|]. intros path records Hp. destruct (Hf _ _ Hp) as (w & Hw & Hnd & Hs & Hr).
    exists w. split; [done|]. split; [done|]. split; [done|]. eapply Forall_impl; [exact Hr|].
    intros r (? & ? & ? & key & ?). refine (conj _ (conj _ (conj _ _))); [done..|]. exists key. by eapply unwrap_grows.
  - eapply Forall_impl; [exact Ha|]. intros [[w v] key]. unfold remembered, recall. cbn.
    intros (records & Hl & Hx)%bind_ok. rewrite Hl, ok_bind. destruct (find_record v records); [|done].
    by eapply unwrap_grows.
Qed.

(** A record and what it becomes under the new master key. *)
Definition rewrapped (k : keyringFile) (r r' : wrappedKeyRecord) : Prop :=
  WrapFormat r' = WrapFormat r ∧ WrapWorkload r' = WrapWorkload r ∧ WrapVersion r' = WrapVersion r ∧
  ∃ key, unwrap k r = Ok key ∧ unwrap k r' = Ok key.

Lemma rewrap_records_good (C : vault → Prop) s0 rest : C s0 → ∀ before done_,
  Forall2 (rewrapped (ring s0)) before done_ →
  triple supplied (λ s, s = s0) (alone (rewrap_records done_ rest))
    (λ r s, s = s0 ∧ ∀ new, r = Ok new → Forall2 (rewrapped (ring s0)) (before ++ rest) new) C.
Proof.
  intros HC'. induction rest as [|r rest IH]; intros before done_ Hd; cbn [rewrap_records].
  - apply alone_ret. intros s ->. split; [done|]. intros new [= <-]. by rewrite app_nil_r.
  - apply alone_read; [by intros ? ->|]. intros e s (_ & Hn & _) ->.
    destruct (unwrap (ring s0) r) as [key|] eqn:Hu; [rewrite ok_bind|apply alone_ret; by intros ? ->].
    destruct (wrap _ _ _ _ _ _) as [w|] eqn:Hw; [rewrite ok_bind|apply alone_ret; by intros ? ->].
    replace (before ++ r :: rest) with ((before ++ [r]) ++ rest) by by rewrite <- app_assoc.
    apply IH, Forall2_app; [done|]. constructor; [|done].
    destruct (wrap_unwrap _ _ _ _ _ _ _ Hn Hw) as (_ & Hww & Hwv & Hwu).
    split_and!; [done|done|done|]. exists key. split; [done|]. rewrite <- Hwu. unfold unwrap. cbn.
    by rewrite Hww, Hwv.
Qed.

Lemma rewrapped_find k before after_ v r :
  Forall2 (rewrapped k) before after_ → find_record v before = Some r →
  ∃ r', find_record v after_ = Some r' ∧ rewrapped k r r'.
Proof.
  induction 1 as [|x y before after_ Hxy _ IH]; [done|]. simpl. pose proof Hxy as (_ & _ & -> & _).
  destruct (_ =? _); [|done]. intros [= <-]. by exists y.
Qed.

Lemma rewrapped_ok k w before after_ :
  Forall2 (rewrapped k) before after_ → records_ok k w before → records_ok k w after_.
Proof.
  intros H2 (Hnd & Hs & Hr).
  assert (WrapVersion <$> after_ = WrapVersion <$> before) as Hv.
  { clear -H2. induction H2 as [|x y ? ? (_ & _ & Hv & _) _ IH]; [done|]. cbn. by rewrite Hv, IH. }
  split; [by rewrite Hv|]. split.
  - clear Hr Hnd. revert after_ H2 Hv. induction Hs as [|x xs Hs IH Hx]; intros after_ H2 Hv;
      inversion H2 as [|? y ? ys Hxy Hys]; simplify_eq/=; constructor; [by apply IH|].
    apply Forall_forall. intros z Hz. apply (list_elem_of_fmap_2 WrapVersion) in Hz.
    assert (WrapVersion <$> ys = WrapVersion <$> xs) as Htail by congruence. rewrite Htail in Hz.
    apply list_elem_of_fmap in Hz as (x' & Hz & Hx'). rewrite Forall_forall in Hx. specialize (Hx x' Hx').
    unfold older in *. destruct Hxy as (_ & _ & ? & _). lia.
  - clear -H2 Hr. induction H2 as [|x y ? ? (Hf & Hw & Hv & key & _ & Hu) _ IH]; [done|].
    apply Forall_cons in Hr as [(? & ? & ? & _) Hr]. constructor; [|by apply IH].
    split_and!; [congruence|congruence|lia|lia|eauto].
Qed.

Lemma rewrapFile_good acks path :
  triple supplied (good acks) (alone (rewrapWorkloadFile path)) (λ _, good acks) (good acks).
Proof.
  apply triple_at. intros s0 Hg. apply alone_read; [by intros ? ->|]. intros e s _ ->.
  destruct (readable e); [|apply alone_ret; by intros ? ->].
  destruct (key_files s0 !! path) as [records|] eqn:Hp; [|apply alone_ret; by intros ? ->].
  eapply alone_bind; [by apply (rewrap_records_good (good acks) s0 records Hg [] [])|].
  intros [new|err]; [|apply alone_ret; by intros s [-> _]].
  apply alone_atomic; [by intros ? [-> _]|]. intros e' s _ [-> Hnew]. specialize (Hnew new eq_refl). simpl in Hnew.
  assert (good acks (s0 <| key_files := <[path := new]> (key_files s0) |>)) as Hg'; [|by destruct (file_written e')].
  destruct (sound_files _ (proj1 Hg) _ _ Hp) as (w & Hw & Hok). apply replace_file; [done| |].
  - exists w. split; [done|]. by eapply rewrapped_ok.
  - intros old v r key Hold Hf Hu. rewrite Hp in Hold. injection Hold as <-.
    destruct (rewrapped_find _ _ _ _ _ Hnew Hf) as (r' & Hf' & _ & Hww & _ & key' & Hu1 & Hu2).
    exists r'. split_and!; [done|done|congruence].
Qed.

Lemma rewrap_all_good acks paths :
  triple supplied (good acks) (alone (rewrap_all paths)) (λ _, good acks) (good acks).
Proof.
  induction paths as [|path paths IH]; cbn [rewrap_all]; [by apply alone_ret|].
  eapply alone_bind; [apply rewrapFile_good|]. intros []; [apply IH|by apply alone_ret].
Qed.

Lemma write_ring_good acks s0 k :
  good acks s0 → ring_ok k → (∀ v x, masterKey (ring s0) v = Ok x → masterKey k v = Ok x) →
  triple supplied (λ s, s = s0) (alone (write_ring k)) (λ _, good acks) (good acks).
Proof.
  intros Hg Hk Hgrow. apply alone_atomic; [by intros ? ->|]. intros e s (_ & _ & He) ->.
  pose proof (change_ring _ _ _ Hg Hk Hgrow). by destruct (ring_written e).
Qed.

Lemma find_retired v version at_ rs : find_master v (retire version at_ <$> rs) = find_master v rs.
Proof.
  induction rs as [|r rs IH]; [done|]. rewrite fmap_cons. cbn [find_master]. rewrite IH. unfold retire.
  by destruct (negb _ && bool_decide _).
Qed.

Lemma retired_ring_ok k version at_ :
  ring_ok k → ring_ok (k <| Masters := retire version at_ <$> Masters k |>).
Proof.
  intros (Hle & H0 & key & Hkey). split_and!; cbn; [|done|].
  - apply Forall_fmap. eapply Forall_impl; [exact Hle|]. intros r Hr. cbn. unfold retire.
    by destruct (negb _ && bool_decide _).
  - exists key. unfold masterKey. cbn. by rewrite find_retired.
Qed.

Lemma RotateMaster_good acks s0 :
  good acks s0 → ActiveVersion (ring s0) < 2 ^ 32 - 1 →
  triple supplied (λ s, s = s0) (alone RotateMasterKey) (λ _, good acks) (good acks).
Proof.
  intros Hg Hfit. pose proof (sound_ring _ (proj1 Hg)) as Hring.
  apply alone_read; [by intros ? ->|]. intros e s (Hk & Hn & _) ->.
  rewrite (next_master_above _ Hring Hfit). destruct Hring as (Hle & H0 & key & Hkey).
  destruct (sealRecord _ _ _) as [r|] eqn:Hr; [rewrite ok_bind|apply alone_ret; by intros ? ->].
  destruct (sealed_opens _ _ _ _ Hk Hn Hr) as [Hrv Hro]. cbn in Hrv.
  apply (alone_bind _ _ _ _ (λ _, good acks)).
  { apply write_ring_good; [done| |].
    - split_and!; cbn; [|lia|].
      + apply Forall_app. rewrite Forall_singleton. split; [|lia].
        eapply Forall_impl; [exact Hle|]. intros x Hx. cbn in *. lia.
      + exists (drawn e). unfold masterKey. cbn. rewrite find_master_new; [done| |done].
        eapply Forall_impl; [exact Hle|]. intros x Hx. cbn in *. lia.
    - intros v x Hx. unfold masterKey in *. cbn. by apply find_master_app. }
  intros []; [|by apply alone_ret]. apply triple_at. intros s1 Hg1. apply alone_read; [by intros ? ->|].
  intros e1 s _ ->. apply (alone_bind _ _ _ _ (λ _, good acks)).
  { eapply triple_pre; [|apply rewrap_all_good]. by intros ? ->. }
  intros []; [|by apply alone_ret]. apply triple_at. intros s2 Hg2. apply alone_read; [by intros ? ->|].
  intros e2 s _ ->. apply (alone_bind _ _ _ _ (λ _, good acks)).
  - apply write_ring_good; [done|apply retired_ring_ok, (sound_ring _ (proj1 Hg2))|].
    intros v x Hx. unfold masterKey in *. cbn. by rewrite find_retired.
  - intros []; by apply alone_ret.
Qed.

(** A manager that opens the keyring it finds. *)
Lemma Open_good acks mint :
  triple supplied (good acks) (alone (OpenKeys mint)) (λ _, good acks) (good acks).
Proof.
  apply triple_at. intros s0 Hg. apply alone_read; [by intros ? ->|]. intros e s _ ->.
  destruct (readable e); [|apply alone_ret; by intros ? ->].
  destruct (sound_disk _ (proj1 Hg)) as (k & Hk & Hsame & Hok). rewrite Hk.
  assert (good acks (s0 <| ring := k |>)) as Hg'.
  { replace (s0 <| ring := k |>) with (s0 <| ring := k |> <| ring_file := Some k |>)
      by (destruct s0; cbn in *; by rewrite Hk).
    apply change_ring; [done|done|]. intros v x. apply Hsame. }
  apply alone_atomic; [by intros ? ->|]. intros e' s _ ->. by destruct (accept_ring k).
Qed.

(** ** The life of a key store *)

Inductive key_op :=
| OpGet (w : string)
| OpImport (w : string) (version : Z) (key : bytes)
| OpRotate (w : string)
| OpRotateMaster.

(** An operation, and the keys its answer vouches for. *)
Definition perform (op : key_op) : act (list ack) :=
  match op with
  | OpGet w => r ← GetOrCreateWorkloadKey w; mret (handed w r)
  | OpImport w v key => r ← ImportWorkloadKey_ w v key; mret (if is_ok r then [(w, v, key)] else [])
  | OpRotate w => r ← RotateWorkloadKey w; mret (handed w r)
  | OpRotateMaster => _ ← RotateMasterKey; mret []
  end.

(** Version numbers are left to count on. *)
Definition fits (s : vault) (op : key_op) : Prop :=
  match op with
  | OpGet _ => True
  | OpImport _ v _ => 0 ≤ v < 2 ^ 32
  | OpRotate w => versions_fit s w
  | OpRotateMaster => ActiveVersion (ring s) < 2 ^ 32 - 1
  end.

(** Operations that run to their end, and operations cut off by the death of
    the agent, after which the store is opened again. *)
Inductive vault_life (s0 : vault) : list ack → vault → Prop :=
| life_start : vault_life s0 [] s0
| life_op acks s op es granted s' rest :
    vault_life s0 acks s → fits s op → Forall supplied es →
    run (perform op) es s = (Some granted, s', rest) → vault_life s0 (acks ++ granted) s'
| life_crash acks s op es s1 rest mint es' s' rest' :
    vault_life s0 acks s → fits s op → Forall supplied es →
    run (perform op) es s = (None, s1, rest) → Forall supplied es' →
    run (OpenKeys mint) es' s1 = (Some (Ok tt), s', rest') → vault_life s0 acks s'.

Lemma perform_good acks s0 op :
  good acks s0 → fits s0 op →
  triple supplied (λ s, s = s0) (alone (perform op)) (λ granted s, good (acks ++ granted) s) (good acks).
Proof.
  intros Hg Hfit. destruct op as [w|w v key|w|]; cbn [perform].
  - eapply alone_bind; [by apply GetOrCreate_good|]. intros r. by apply alone_ret.
  - eapply alone_bind; [by apply Import_good|]. intros r. apply alone_ret. intros s Hs.
    destruct (is_ok r); [done|]. by rewrite app_nil_r.
  - eapply alone_bind; [by apply Rotate_good|]. intros r. by apply alone_ret.
  - eapply alone_bind; [by apply RotateMaster_good|]. intros r. apply alone_ret. intros s Hs.
    by rewrite app_nil_r.
Qed.

Lemma life_good s0 acks s : sound s0 → vault_life s0 acks s → good acks s.
Proof.
  intros Hs. induction 1 as [|acks s op es granted s' rest _ IH Hfit Hes Hrun
                            |acks s op es s1 rest mint es' s' rest' _ IH Hfit Hes Hrun Hes' Hopen]; [done| |].
  - pose proof (perform_good acks s op IH Hfit s es Hes eq_refl) as H. unfold alone in H. rewrite Hrun in H.
    apply H.
  - pose proof (perform_good acks s op IH Hfit s es Hes eq_refl) as H. unfold alone in H. rewrite Hrun in H.
    pose proof (Open_good acks mint s1 es' Hes' H) as Ho. unfold alone in Ho. rewrite Hopen in Ho. apply Ho.
Qed.

(** C11.  No key is lost, as long as the keyring can be written and versions
    do not wrap around.  Take any life of a key store: keys created, imported
    and rotated, the master key rotated, the reads and the writes of key files
    failing, a write of the keyring failing after it replaced the file, the
    agent dying between any two operations and opening the store again.  Every
    key whose version was once handed out or acknowledged is still that key,
    for the running manager and for one that opens the files.  Two things are
    left out: a write of the keyring that fails and leaves the old file, and a
    rotation of a workload key or of the master key at version 2^32 - 1. *)
Theorem keys_durable (s0 s : vault) (acks : list ack) :
  sound s0 → vault_life s0 acks s →
  Forall (λ x : ack, recall (ring s) (key_files s) x.1.1 x.1.2 = Ok x.2 ∧
                     ∃ k, ring_file s = Some k ∧ recall k (key_files s) x.1.1 x.1.2 = Ok x.2) acks.
Proof.
  intros Hs [[(k & Hk & Hsame & _) _ _] Ha]%life_good; [|done]. eapply Forall_impl; [exact Ha|].
  intros [[w v] key] Hr. split; [done|]. exists k. split; [done|]. unfold remembered, recall in *. cbn in *.
  apply bind_ok in Hr as (records & -> & Hr). rewrite ok_bind. destruct (find_record v records); [|done].
  eapply unwrap_grows; [|done]. intros v' x. apply Hsame.
Qed.
End keys.

(** ** What other components rely on *)

(** A key manager as its callers see it: each call runs to its end under the
    manager's lock. *)
Class KeyManager (K KE : Type) := {
  get_key : KE → K → string → K * result (Z * bytes);
  key_of : KE → K → string → Z → result bytes;
}.

(** [knows k w v key]: version [v] of the key of [w] is [key].  [reads e]: the
    files can be read. *)
Class KeyLaws (K KE : Type) `{!KeyManager K KE} (knows : K → string → Z → bytes → Prop)
    (reads : KE → Prop) := {
  get_known e k w v key :
    (get_key e k w).2 = Ok (v, key) → knows (get_key e k w).1 w v key ∧ 0 ≤ v < 2 ^ 32;
  get_keeps e k w w' v key : knows k w' v key → knows (get_key e k w).1 w' v key;
  key_known e k w v key key' : knows k w v key → key_of e k w v = Ok key' → key' = key;
  key_reads e k w v key : reads e → knows k w v key → key_of e k w v = Ok key;
  key_missed e k w v key err : knows k w v key → key_of e k w v = Err err → err ∉ [errNotFound; errNotExist];
}.

Section manager.
Context `{HC : !Crypto} (wrapKey : option bytes).

(** A store that was opened, and answers that supply what is drawn. *)
Definition vault_state : Type := { s : vault | sound wrapKey s }.
Definition key_answers : Type := { f : nat → kanswer | ∀ i, supplied (f i) }.

Lemma get_sound (e : key_answers) (k : vault_state) w :
  sound wrapKey (finish (GetOrCreateWorkloadKey wrapKey w) (`e) (`k)).1.
Proof.
  destruct e as [e He], k as [s Hs]. cbn.
  assert (good wrapKey [] s) as Hg by done.
  apply (finish_triple _ _ _ _ _ e s (GetOrCreate_good wrapKey [] s w Hg) He eq_refl).
Qed.

#[export] Instance vault_manager : KeyManager vault_state key_answers := {|
  get_key e k w := (exist _ _ (get_sound e k w), (finish (GetOrCreateWorkloadKey wrapKey w) (`e) (`k)).2);
  key_of e k w v := (finish (WorkloadKey wrapKey w v) (`e) (`k)).2 |}.

Definition vault_knows (k : vault_state) (w : string) (v : Z) (key : bytes) : Prop :=
  remembered wrapKey (`k) (w, v, key).
Definition vault_reads (e : key_answers) : Prop := ∀ i, readable (`e i) = true.

(** The active key of a workload has a version of 32 bits. *)
Lemma get_version s e w v key :
  sound wrapKey s → (∀ i, supplied (e i)) →
  (finish (GetOrCreateWorkloadKey wrapKey w) e s).2 = Ok (v, key) → 0 ≤ v < 2 ^ 32.
Proof.
  intros Hs He Hr.
  assert (good wrapKey [] s) as Hg by done.
  pose proof (finish_triple _ _ _ _ _ e s (GetOrCreate_good wrapKey [] s w Hg) He eq_refl) as [Hs' Ha].
  rewrite Hr in Ha. cbn in Ha. apply Forall_cons in Ha as [Ha _]. unfold remembered, recall in Ha. cbn in Ha.
  apply bind_ok in Ha as (records & Hl & Ha). destruct (find_record v records) as [r|] eqn:Hf; [|done].
  apply loaded_ok in Hl as [Hl _]. apply find_record_elem in Hf as [Hin <-].
  destruct (sound_files _ _ Hs' _ _ Hl) as (w' & _ & _ & _ & Hall). rewrite Forall_forall in Hall.
  by destruct (Hall r Hin) as (_ & _ & ? & _).
Qed.

Lemma read_key e s w v :
  (finish (WorkloadKey wrapKey w v) e s).2 =
  if readable (e 0%nat) then recall wrapKey (ring s) (key_files s) w v else Err "read workload keys".
Proof. done. Qed.

#[export] Instance vault_laws : KeyLaws vault_state key_answers vault_knows vault_reads.
Proof.
  split.
  - intros [e He] [s Hs] w v key Hr. cbn in Hr. split; [|by eapply get_version].
    assert (good wrapKey [] s) as Hg by done.
    pose proof (finish_triple _ _ _ _ _ e s (GetOrCreate_good wrapKey [] s w Hg) He eq_refl) as [_ Ha].
    rewrite Hr in Ha. by apply Forall_inv in Ha.
  - intros [e He] [s Hs] w w' v key Hk.
    assert (good wrapKey [(w', v, key)] s) as Hg by (split; [done|by constructor]).
    pose proof (finish_triple _ _ _ _ _ e s (GetOrCreate_good wrapKey _ s w Hg) He eq_refl) as [_ Ha].
    apply Forall_app in Ha as [Ha _]. by apply Forall_inv in Ha.
  - intros [e He] [s Hs] w v key key'. unfold vault_knows, remembered, key_of. cbn -[finish]. rewrite read_key.
    destruct (readable _); [|done]. congruence.
  - intros [e He] [s Hs] w v key Hr. unfold vault_knows, remembered, key_of. cbn -[finish]. rewrite read_key.
    specialize (Hr 0%nat). cbn in Hr. by rewrite Hr.
  - intros [e He] [s Hs] w v key err. unfold vault_knows, remembered, key_of. cbn -[finish]. rewrite read_key.
    destruct (readable _); [congruence|]. intros _ [= <-]. by apply (bool_decide_unpack _).
Qed.
End manager.

(** ** A concrete store *)

#[local] Existing Instance toy_crypto.

(** An answer in which everything works and the next key is made of [b]. *)
Definition works (b : byte) : kanswer := {|
  readable := true; drawn := replicate 32 b; fresh_nonce := replicate 12 b;
  ring_written := Stored; file_written := Stored; stamp := 1 |}.

Definition empty_vault : vault := {|
  ring_file := None; key_files := ∅; ring := {| RingFormat := 0; ActiveVersion := 0; Masters := [] |} |}.

(** The store an agent opens for the first time. *)
Definition demo_vault : vault := (run (OpenKeys None true) (replicate 4 (works x01)) empty_vault).1.2.

(** A key is created, and the agent dies while it rotates the master key. *)
Definition demo_created : vault := (run (perform None (OpGet "w")) (replicate 5 (works x02)) demo_vault).1.2.
Definition demo_cut : vault :=
  (run (perform None OpRotateMaster) (replicate 6 (works x03)) demo_created).1.2.
Definition demo_reopened : vault := (run (OpenKeys None true) (replicate 4 (works x04)) demo_cut).1.2.

Lemma works_supplied n b : Forall supplied (replicate n (works b)).
Proof. by apply Forall_replicate. Qed.

Lemma keys_durable_witness :
  recall None (ring demo_reopened) (key_files demo_reopened) "w" 1 = Ok (replicate 32 x02) ∧
  ∃ k, ring_file demo_reopened = Some k ∧
       recall None k (key_files demo_reopened) "w" 1 = Ok (replicate 32 x02).
Proof.
  refine (Forall_inv (keys_durable None demo_vault demo_reopened [("w", 1, replicate 32 x02)] _ _)).
  - split.
    + eexists. split; [vm_compute; reflexivity|]. split; [done|]. split; [by repeat constructor|].
      split; [vm_compute; discriminate|]. eexists. vm_compute. reflexivity.
    + split; [by repeat constructor|]. split; [vm_compute; discriminate|]. eexists. vm_compute. reflexivity.
    + by intros path records Hp.
  - eapply (life_crash None demo_vault [("w", 1, replicate 32 x02)] demo_created OpRotateMaster
      (replicate 6 (works x03)) demo_cut _ true (replicate 4 (works x04)));
      [|vm_compute; reflexivity|apply works_supplied|vm_compute; reflexivity|apply works_supplied|vm_compute; reflexivity].
    eapply (life_op None demo_vault [] demo_vault (OpGet "w") (replicate 5 (works x02)));
      [apply life_start|exact I|apply works_supplied|vm_compute; reflexivity].
Defined.

(** A write of the keyring that fails before the file is replaced. *)
Definition ring_lost (b : byte) : kanswer := {|
  readable := true; drawn := replicate 32 b; fresh_nonce := replicate 12 b;
  ring_written := Lost; file_written := Stored; stamp := 1 |}.

Definition demo_unrotated : vault := (run (RotateMasterKey None) (replicate 2 (ring_lost x03)) demo_vault).1.2.
Definition demo_orphaned : vault :=
  (run (GetOrCreateWorkloadKey None "w") (replicate 5 (works x02)) demo_unrotated).1.2.

(** A failed rotation orphans the keys made after it.  When
    [RotateMasterKey] cannot write the keyring it returns an error, but the
    manager goes on with the new master key that exists in memory only; the
    next workload key is wrapped under it and acknowledged, and a restarted
    agent cannot open it. *)
Theorem failed_rotation_orphans_keys :
  (run (RotateMasterKey None) (replicate 2 (ring_lost x03)) demo_vault).1.1 = Some (Err "write keyring") ∧
  (run (GetOrCreateWorkloadKey None "w") (replicate 5 (works x02)) demo_unrotated).1.1 =
    Some (Ok (1, replicate 32 x02)) ∧
  recall None (ring demo_orphaned) (key_files demo_orphaned) "w" 1 = Ok (replicate 32 x02) ∧
  (run (OpenKeys None false) (replicate 4 (works x04)) demo_orphaned).1.1 = Some (Ok tt) ∧
  (run (r ← OpenKeys None false; WorkloadKey None "w" 1) (replicate 4 (works x04)) demo_orphaned).1.1 =
    Some (Err "master key version not found").
Proof. vm_compute. repeat split. Qed.
