(* ===== verification/ChunkStore.v ===== *)
(** * The chunk store ([internal/chunkstore/store.go])

    An asset of a checkpoint is cut into chunks; a chunk is compressed,
    encrypted under the workload's key, framed, and stored once in a file
    named after a keyed digest of its plaintext.  Reading it back checks
    every layer.  Chunks also arrive from other machines, which encrypted
    them with nonces of their own, and leave through the collector.

    Every operation is a thread: an action reads or replaces one directory
    entry, or stages a private file.  A crash leaves staged files behind that
    nothing reads.  A read of a file is one action, as the bytes behind a name
    are never changed in place.  zstd and gzip are the interface [Codec]; the
    key manager is [KeyManager]. *)
From Stdlib Require Import Ascii.
From S2P Require Import Prelude GoStr Model Prog Conc Crypto Keys.

Local Open Scope string_scope.
Local Open Scope list_scope.
Local Open Scope Z_scope.

Definition magic : bytes := String.list_byte_of_string "SHFTCHK1".
Definition fileFormatVersion : Z := 1.
Definition maxEncodedChunk : Z := 96 * 2 ^ 20.
Definition maxPlainChunk : Z := 64 * 2 ^ 20.

Definition bsize (bs : bytes) : Z := Z.of_nat (length bs).

(** ** The frame of a chunk *)

(** [encodeChunk]. *)
Definition encodeChunk (keyVersion plainSize : Z) (nonce ciphertext : bytes) : result bytes :=
  if (255 <? bsize nonce) || (maxEncodedChunk <? bsize ciphertext) then Err "chunk encoding limit exceeded"
  else Ok (magic ++ big_endian 2 fileFormatVersion ++ big_endian 4 keyVersion ++
           big_endian 8 plainSize ++ big_endian 2 (bsize nonce) ++ big_endian 8 (bsize ciphertext) ++
           nonce ++ ciphertext).

(** [io.ReadFull]: the next [n] bytes and the rest. *)
Definition read_full (n : nat) (bs : bytes) : result (bytes * bytes) :=
  if (length bs <? n)%nat then Err "unexpected EOF" else Ok (take n bs, drop n bs).

(** [binary.Read] of an unsigned integer. *)
Definition read_uint (n : nat) (bs : bytes) : result (Z * bytes) :=
  '(field, rest) ← read_full n bs; Ok (from_big_endian field, rest).

(** [decodeChunk]. *)
Definition decodeChunk (encoded : bytes) : result (Z * Z * bytes * bytes) :=
  match read_full (length magic) encoded with
  | Err _ => Err "invalid chunk magic"
  | Ok (magicBytes, rest) =>
      if negb (bool_decide (magicBytes = magic)) then Err "invalid chunk magic"
      else match read_uint 2 rest with
      | Err _ => Err "unsupported chunk format"
      | Ok (format, rest) =>
          if negb (format =? fileFormatVersion) then Err "unsupported chunk format"
          else
            '(keyVersion, rest) ← read_uint 4 rest;
            '(plain, rest) ← read_uint 8 rest;
            let plainSize := int64 plain in
            _ ← require ((1 <=? plainSize) && (plainSize <=? maxPlainChunk)) "chunk plain size out of range";
            '(nonceLength, rest) ← read_uint 2 rest;
            '(ciphertextLength, rest) ← read_uint 8 rest;
            _ ← require (negb (nonceLength =? 0) && (ciphertextLength <=? maxEncodedChunk) &&
                         (bsize rest =? uint64 (nonceLength + ciphertextLength))) "invalid chunk lengths";
            '(nonce, rest) ← read_full (Z.to_nat nonceLength) rest;
            '(ciphertext, _) ← read_full (Z.to_nat ciphertextLength) rest;
            Ok (keyVersion, plainSize, nonce, ciphertext)
      end
  end.

(** ** Compression *)

(** What the store uses of the zstd and gzip libraries: decoders that fail or
    give the plaintext, the zstd one up to [maxPlainChunk] bytes. *)
Class Codec := {
  zstd_encode : bytes → bytes;
  zstd_decode : bytes → option bytes;
  gzip_decode : bytes → option bytes;
  zstd_round p : bsize p ≤ maxPlainChunk → zstd_decode (zstd_encode p) = Some p;
  zstd_frame p : take 4 (zstd_encode p) = [x28; xb5; x2f; xfd];
  zstd_bound p : bsize (zstd_encode p) ≤ bsize p + bsize p `div` 256 + 64;
}.

Definition gzipFrameMagic : bytes := [x1f; x8b].
Definition zstdFrameMagic : bytes := [x28; xb5; x2f; xfd].
Definition has_prefix (bs pre : bytes) : bool := bool_decide (take (length pre) bs = pre).

(** The chunk sizes [Open] and [OpenExisting] accept. *)
Definition accepts_chunk_size (chunkSize : Z) : result unit :=
  require (negb ((chunkSize <? 64 * 2 ^ 10) || (64 * 2 ^ 20 <? chunkSize)))
    "chunk size must be between 64 KiB and 64 MiB".

Section store.
Context `{HC : !Crypto, HZ : !Codec}.

(** [decompress].  The gzip branch reads at most one byte more than it
    expects, so that a longer stream is a mismatch. *)
Definition decompress (compressed : bytes) (expectedSize : Z) : result (bytes * string) :=
  if (expectedSize <? 1) || (maxPlainChunk <? expectedSize) then Err "declared chunk size out of range"
  else if has_prefix compressed zstdFrameMagic then
    match zstd_decode compressed with
    | None => Err "zstd"
    | Some plaintext =>
        if negb (bsize plaintext =? expectedSize) then Err "decompressed chunk size mismatch"
        else Ok (plaintext, "zstd")
    end
  else if has_prefix compressed gzipFrameMagic then
    match gzip_decode compressed with
    | None => Err "gzip"
    | Some plaintext =>
        let plaintext := take (Z.to_nat (expectedSize + 1)) plaintext in
        if negb (bsize plaintext =? expectedSize) then Err "decompressed chunk size mismatch"
        else Ok (plaintext, "gzip")
    end
  else Err "unrecognized chunk compression".

(** [chunkAAD]. *)
Definition chunkAAD (workloadID address : string) (keyVersion plainSize : Z) : string :=
  "shift-checkpoint-chunk-v1" +:+ nl +:+ workloadID +:+ nl +:+ address +:+ nl +:+ Itoa keyVersion +:+
  nl +:+ Itoa plainSize.

(** [chunkPath], below the root of the store. *)
Definition chunkPath (ref : ChunkRef) : result (list string) :=
  if negb (String.length (Address ref) =? 64)%nat || negb (only_of hex_digits (Address ref)) then
    Err "invalid chunk address"
  else Ok ["chunks"; "v" +:+ Itoa (KeyVersion ref); String.substring 0 2 (Address ref);
           Address ref +:+ ".chunk"].

(** The checks of [verifyChunk] on the bytes of the file, before and after
    it asks for the key. *)
Definition check_frame (ref : ChunkRef) (encoded : bytes) : result (bytes * bytes) :=
  _ ← require ((bsize encoded =? StoredSize ref) && (bsize encoded <=? maxEncodedChunk))
        "invalid encoded chunk size";
  _ ← require (bool_decide (hex (sha256 encoded) = CipherSHA256 ref)) "ciphertext digest mismatch";
  '(keyVersion, plainSize, nonce, ciphertext) ← decodeChunk encoded;
  _ ← require ((keyVersion =? KeyVersion ref) && (plainSize =? PlainSize ref))
        "chunk header does not match manifest";
  Ok (nonce, ciphertext).

Definition open_frame (workloadID : string) (ref : ChunkRef) (dataKey nonce ciphertext : bytes)
    : result (bytes * string) :=
  compressed ← Decrypt dataKey workloadID "checkpoint-chunk" nonce ciphertext
    (chunkAAD workloadID (Address ref) (KeyVersion ref) (PlainSize ref));
  '(plaintext, codec) ← decompress compressed (PlainSize ref);
  _ ← require (bool_decide (hex (sha256 plaintext) = PlainSHA256 ref)) "plaintext digest mismatch";
  match Address_of dataKey workloadID plaintext with
  | Ok address => if decide (address = Address ref) then Ok (plaintext, codec)
                  else Err "content address mismatch"
  | Err _ => Err "content address mismatch"
  end.

(** A chunk as it is written: its file and its reference. *)
Definition seal_chunk (workloadID : string) (keyVersion : Z) (dataKey : bytes) (sequence : Z)
    (plaintext nonce : bytes) : result (ChunkRef * bytes) :=
  address ← Address_of dataKey workloadID plaintext;
  ciphertext ← Encrypt dataKey workloadID "checkpoint-chunk" (zstd_encode plaintext)
    (chunkAAD workloadID address keyVersion (bsize plaintext)) nonce;
  encoded ← encodeChunk keyVersion (bsize plaintext) nonce ciphertext;
  Ok ({| Address := address; KeyVersion := keyVersion; PlainSize := bsize plaintext;
         StoredSize := bsize encoded; CipherSHA256 := hex (sha256 encoded);
         PlainSHA256 := hex (sha256 plaintext); Sequence := sequence; Compression := "zstd";
         Encryption := "AES-256-GCM" |}, encoded).
End store.

(** ** The store *)

Record chunk_file := { contents : bytes; inode : Z; modified : Z }.

(** The key manager, and the files below the root. *)
Record store (K : Type) := { key_state : K; files : gmap (list string) chunk_file }.
Arguments key_state {K} _.
Arguments files {K} _.
Arguments Build_store {K} _ _.
#[export] Instance store_eta K : Eta (store K) := fun s => Build_store (key_state s) (files s).

(** What one action meets: whether the call works, whether one that reports
    an error has had its effect, whether the context is done, what the clock says, the inode a new file gets and a fresh nonce,
    and the answers of the key manager. *)
Record disk_answer (KE : Type) := {
  works_ : bool;
  landed_ : bool;
  ctx_done : bool;
  at_time : Z;
  new_inode : Z;
  nonce_drawn : bytes;
  for_keys : KE;
}.
Arguments works_ {KE} _.
Arguments landed_ {KE} _.
Arguments ctx_done {KE} _.
Arguments at_time {KE} _.
Arguments new_inode {KE} _.
Arguments nonce_drawn {KE} _.
Arguments for_keys {KE} _.
Arguments Build_disk_answer {KE} _ _ _ _ _ _ _.

(** A write to disk: [persistence.WriteJSON] may fail after the rename that
    makes the file visible, and [os.RemoveAll] after it has removed it. *)
Definition wrote {KE S} (e : disk_answer KE) (s s' : S) (err : string) : S * result unit :=
  if works_ e then (s', Ok tt) else (if landed_ e then s' else s, Err err).

Definition errExist : string := "file exists".

Section operations.
Context `{HC : !Crypto, HZ : !Codec} {K KE : Type} `{HK : !KeyManager K KE}.

#[local] Abbreviation act := (thread (store K) (disk_answer KE)).

(** ** Calls on files *)

(** [os.Stat], of which only the size is used. *)
Definition stat_size (p : list string) : act (result Z) :=
  atomic (λ e s, (s, match files s !! p with
                     | None => Err errNotExist
                     | Some f => if works_ e then Ok (bsize (contents f)) else Err "stat chunk"
                     end)).

(** [os.ReadFile]. *)
Definition read_file (p : list string) : act (result bytes) :=
  atomic (λ e s, (s, match files s !! p with
                     | None => Err errNotExist
                     | Some f => if works_ e then Ok (contents f) else Err "read chunk"
                     end)).

(** The calls that make a private file: nothing else sees it. *)
Definition stage : act (result unit) :=
  atomic (λ e s, (s, if works_ e then Ok tt else Err "stage chunk")).

(** [os.Link] of the staged file. *)
Definition link_file (encoded : bytes) (p : list string) : act (result unit) :=
  atomic (λ e s,
    match files s !! p with
    | Some _ => (s, Err errExist)
    | None =>
        if works_ e then
          (s <| files := <[p := {| contents := encoded; inode := new_inode e; modified := at_time e |}]>
                           (files s) |>, Ok tt)
        else (s, Err "link chunk")
    end).

(** [os.Rename] of the staged file over the name. *)
Definition rename_file (encoded : bytes) (p : list string) : act (result unit) :=
  atomic (λ e s,
    if works_ e then
      (s <| files := <[p := {| contents := encoded; inode := new_inode e; modified := at_time e |}]>
                       (files s) |>, Ok tt)
    else (s, Err "rename chunk")).

Definition remove_file (p : list string) : act unit :=
  atomic (λ e s, (if works_ e then s <| files := delete p (files s) |> else s, tt)).

Definition workload_key (workloadID : string) (version : Z) : act (result bytes) :=
  atomic (λ e s, (s, key_of (for_keys e) (key_state s) workloadID version)).

Definition active_key (workloadID : string) : act (result (Z * bytes)) :=
  atomic (λ e s, let '(k, r) := get_key (for_keys e) (key_state s) workloadID in
                 (s <| key_state := k |>, r)).

(** ** Reading *)

(** [verifyChunk]. *)
Definition verifyChunk (workloadID : string) (ref : ChunkRef) : act (result (bytes * string)) :=
  if negb ((1 <=? PlainSize ref) && (PlainSize ref <=? maxPlainChunk)) then
    mret (Err "chunk plain size out of range")
  else if negb ((1 <=? StoredSize ref) && (StoredSize ref <=? maxEncodedChunk)) then
    mret (Err "chunk stored size out of range")
  else match chunkPath ref with
  | Err err => mret (Err err)
  | Ok p =>
      found ← read_file p;
      match encoded ← found; check_frame ref encoded with
      | Err err => mret (Err err)
      | Ok (nonce, ciphertext) =>
          key ← workload_key workloadID (KeyVersion ref);
          mret (dataKey ← key; open_frame workloadID ref dataKey nonce ciphertext)
      end
  end.

(** [readChunk]. *)
Definition readChunk (workloadID : string) (ref : ChunkRef) : act (result bytes) :=
  r ← verifyChunk workloadID ref;
  mret ('(plaintext, _) ← r; Ok plaintext).

(** [ExportChunk]: the bytes that are written, and the verdict. *)
Definition ExportChunk (ref : ChunkRef) : act (bytes * result unit) :=
  match chunkPath ref with
  | Err err => mret ([], Err err)
  | Ok p =>
      found ← read_file p;
      mret (match found with
            | Err err => ([], Err err)
            | Ok encoded =>
                let sent := take (Z.to_nat (maxEncodedChunk + 1)) encoded in
                (sent, _ ← require (bsize sent =? StoredSize ref) "stored size mismatch";
                       require (bool_decide (hex (sha256 sent) = CipherSHA256 ref))
                         "ciphertext digest mismatch")
            end)
  end.

(** The verdict of [Missing] on one reference: absent, of another size, or of
    another digest. *)
Definition lacks (ref : ChunkRef) : act (result bool) :=
  match chunkPath ref with
  | Err err => mret (Err err)
  | Ok p =>
      found ← stat_size p;
      match found with
      | Err err => mret (if decide (err = errNotExist) then Ok true else Err err)
      | Ok n =>
          if negb (n =? StoredSize ref) then mret (Ok true)
          else if decide (CipherSHA256 ref = "") then mret (Ok false)
          else
            digest ← read_file p;
            mret (Ok (match digest with
                      | Err _ => true
                      | Ok encoded => negb (bool_decide (hex (sha256 encoded) = CipherSHA256 ref))
                      end))
      end
  end.

(** [Missing]. *)
Fixpoint Missing_ (refs missing : list ChunkRef) : act (result (list ChunkRef)) :=
  match refs with
  | [] => mret (Ok missing)
  | ref :: rest =>
      r ← lacks ref;
      match r with
      | Err err => mret (Err err)
      | Ok b => Missing_ rest (if (b : bool) then missing ++ [ref] else missing)
      end
  end.

(** The loop of [RestoreAsset]: what has been written, and whether all was
    well.  The writer's own failures are answers. *)
Fixpoint restore_chunks (workloadID : string) (expected : Z) (refs : list ChunkRef) (written : bytes)
    : act (bytes * result unit) :=
  match refs with
  | [] => mret (written, Ok tt)
  | ref :: rest =>
      stop ← atomic (λ e s, (s, ctx_done e));
      if (stop : bool) then mret (written, Err "context done")
      else if negb (Sequence ref =? expected) then mret (written, Err "non-contiguous chunk sequence")
      else
        r ← readChunk workloadID ref;
        match r with
        | Err err => mret (written, Err err)
        | Ok plaintext =>
            wrote ← stage;
            match wrote with
            | Err err => mret (written, Err err)
            | Ok _ => restore_chunks workloadID (expected + 1) rest (written ++ plaintext)
            end
        end
  end.

Definition by_sequence (a b : ChunkRef) : Prop := Sequence a ≤ Sequence b.
#[export] Instance by_sequence_dec : RelDecision by_sequence.
Proof. intros a b. unfold by_sequence. apply _. Defined.

(** [RestoreAsset]. *)
Definition RestoreAsset (workloadID : string) (asset : AssetManifest) : act (bytes * result unit) :=
  out ← restore_chunks workloadID 0 (merge_sort by_sequence (Chunks asset)) [];
  match out with
  | (written, Err err) => mret (written, Err err)
  | (written, Ok _) =>
      mret (written, _ ← require (int64 (bsize written) =? AssetPlainSize asset) "size mismatch";
                     require (bool_decide (hex (sha256 written) = AssetSHA256 asset)) "digest mismatch")
  end.

(** [ValidateAsset]: the same, with nowhere to write to. *)
Definition ValidateAsset (workloadID : string) (asset : AssetManifest) : act (result unit) :=
  out ← RestoreAsset workloadID asset; mret out.2.

(** ** Writing *)

(** [existingRef]. *)
Definition existingRef (workloadID : string) (ref : ChunkRef) (expected : bytes)
    : act (result ChunkRef) :=
  match chunkPath ref with
  | Err err => mret (Err err)
  | Ok p =>
      found ← read_file p;
      match found with
      | Err err => mret (Err err)
      | Ok encoded =>
          let resolved := ref <| StoredSize := bsize encoded |> <| CipherSHA256 := hex (sha256 encoded) |> in
          r ← verifyChunk workloadID resolved;
          mret (match r with
                | Err err => Err err
                | Ok (plaintext, codec) =>
                    if decide (plaintext = expected) then Ok (resolved <| Compression := codec |>)
                    else Err "content address collision or corrupt existing chunk"
                end)
      end
  end.

(** The last part of [putChunk]: the chunk is staged and linked, or another
    writer was faster. *)
Definition install (workloadID : string) (ref : ChunkRef) (encoded plaintext : bytes) (p : list string)
    : act (result (ChunkRef * bool)) :=
  staged ← stage;
  match staged with
  | Err err => mret (Err err)
  | Ok _ =>
      linked ← link_file encoded p;
      match linked with
      | Ok _ => mret (Ok (ref, false))
      | Err err =>
          if decide (err = errExist) then
            r ← existingRef workloadID ref plaintext;
            mret (existing ← r; Ok (existing, true))
          else mret (Err err)
      end
  end.

(** [putChunk]. *)
Definition putChunk (workloadID : string) (keyVersion : Z) (dataKey : bytes) (sequence : Z)
    (plaintext : bytes) : act (result (ChunkRef * bool)) :=
  sealed ← atomic (λ e s, (s, seal_chunk workloadID keyVersion dataKey sequence plaintext (nonce_drawn e)));
  match '(ref, encoded) ← sealed; p ← chunkPath ref; Ok (ref, encoded, p) with
  | Err err => mret (Err err)
  | Ok (ref, encoded, p) =>
      found ← stat_size p;
      match found with
      | Err err => if decide (err = errNotExist) then install workloadID ref encoded plaintext p
                   else mret (Err err)
      | Ok n =>
          if negb (n =? bsize encoded) then install workloadID ref encoded plaintext p
          else
            digest ← read_file p;
            let collision : result (ChunkRef * bool) :=
              Err "content address collision or corrupt existing chunk" in
            match digest with
            | Err _ => mret collision
            | Ok present =>
                let existing := ref <| StoredSize := n |> <| CipherSHA256 := hex (sha256 present) |> in
                r ← verifyChunk workloadID existing;
                mret (match r with
                      | Ok (found, codec) =>
                          if decide (found = plaintext) then Ok (existing <| Compression := codec |>, true)
                          else collision
                      | Err _ => collision
                      end)
            end
      end
  end.

(** The blocks [io.ReadFull] cuts a content into. *)
Fixpoint blocks (fuel chunkSize : nat) (content : bytes) : list bytes :=
  match fuel with
  | O => []
  | S fuel =>
      match content with
      | [] => []
      | _ => take chunkSize content :: blocks fuel chunkSize (drop chunkSize content)
      end
  end.

(** The loop of [PutAsset]; a short block is the last one. *)
Fixpoint put_blocks (chunkSize : nat) (workloadID : string) (keyVersion : Z) (dataKey : bytes) (sequence : Z)
    (bs : list bytes) (asset : AssetManifest) (deduplicated : Z)
    : act (result (AssetManifest * Z)) :=
  read ← atomic (λ e s, (s, negb (ctx_done e) && works_ e));
  if negb read then mret (Err "read asset")
  else match bs with
  | [] => mret (Ok (asset, deduplicated))
  | plaintext :: rest =>
      r ← putChunk workloadID keyVersion dataKey sequence plaintext;
      match r with
      | Err err => mret (Err err)
      | Ok (ref, existed) =>
          let asset := asset <| Chunks := Chunks asset ++ [ref] |>
                             <| AssetPlainSize := int64 (AssetPlainSize asset + PlainSize ref) |>
                             <| AssetStoredSize := int64 (AssetStoredSize asset + StoredSize ref) |> in
          let deduplicated := if (existed : bool) then int64 (deduplicated + PlainSize ref) else deduplicated in
          if (length plaintext <? chunkSize)%nat then mret (Ok (asset, deduplicated))
          else put_blocks chunkSize workloadID keyVersion dataKey (sequence + 1) rest asset deduplicated
      end
  end.

(** [PutAsset]. *)
Definition PutAsset (chunkSize : nat) (workloadID name mediaType : string) (content : bytes)
    (required : bool) (restoreOrder : Z) : act (result (AssetManifest * Z)) :=
  if decide (workloadID = "" ∨ name = "") then mret (Err "workload id and asset name are required")
  else
    key ← active_key workloadID;
    match key with
    | Err err => mret (Err err)
    | Ok (keyVersion, dataKey) =>
        r ← put_blocks chunkSize workloadID keyVersion dataKey 0 (blocks (length content) chunkSize content)
              {| AssetName := name; MediaType := mediaType; AssetPlainSize := 0; AssetStoredSize := 0;
                 AssetSHA256 := ""; Chunks := []; AssetRequired := required;
                 RestoreOrder := restoreOrder |} 0;
        mret ('(asset, deduplicated) ← r;
              Ok (asset <| AssetSHA256 := hex (sha256 content) |>, deduplicated))
    end.

(** The end of an import: the chunk that is now in place must read back. *)
Definition confirm (workloadID : string) (ref : ChunkRef) (p : list string) (present : bool)
    : act (result bool) :=
  r ← readChunk workloadID ref;
  match r with
  | Err err => _ ← remove_file p; mret (Err err)
  | Ok _ => mret (Ok (negb present))
  end.

(** What the peer sends is staged, checked, and put in place: over a name
    that does not verify against the reference, or where there is none. *)
Definition receive (workloadID : string) (ref : ChunkRef) (sent : bytes) (p : list string)
    (present : bool) : act (result bool) :=
  staged ← stage;
  match staged with
  | Err err => mret (Err err)
  | Ok _ =>
      let data := take (Z.to_nat (StoredSize ref + 1)) sent in
      if negb (bsize data =? StoredSize ref) then mret (Err "upload size mismatch")
      else if negb (bool_decide (hex (sha256 data) = CipherSHA256 ref)) then
        mret (Err "upload digest mismatch")
      else
        linked ← link_file data p;
        match linked with
        | Ok _ => confirm workloadID ref p present
        | Err err =>
            if decide (err = errExist) then
              r ← readChunk workloadID ref;
              if is_ok r then mret (Ok false)
              else
                renamed ← rename_file data p;
                match renamed with
                | Err err => mret (Err err)
                | Ok _ => confirm workloadID ref p true
                end
            else mret (Err err)
        end
  end.

(** [ImportChunkResult], given what the peer sends. *)
Definition ImportChunkResult_ (workloadID : string) (ref : ChunkRef) (sent : bytes)
    : act (result bool) :=
  if negb ((1 <=? StoredSize ref) && (StoredSize ref <=? maxEncodedChunk)) then
    mret (Err "chunk stored size out of range")
  else if negb ((1 <=? PlainSize ref) && (PlainSize ref <=? maxPlainChunk)) then
    mret (Err "chunk plain size out of range")
  else match chunkPath ref with
  | Err err => mret (Err err)
  | Ok p =>
      found ← stat_size p;
      verified ← (if decide (found = Ok (StoredSize ref)) then
                    r ← readChunk workloadID ref; mret (is_ok r)
                  else mret false);
      match found with
      | Err err =>
          if negb (bool_decide (err = errNotExist)) then mret (Err err)
          else receive workloadID ref sent p false
      | Ok _ => if (verified : bool) then mret (Ok false) else receive workloadID ref sent p true
      end
  end.

(** ** Deleting *)

(** [DeleteRef]: the file is looked at twice and then unlinked by its name. *)
Definition DeleteRef (ref : ChunkRef) (planned : Z) : act (result unit) :=
  match chunkPath ref with
  | Err err => mret (Err err)
  | Ok p =>
      found ← atomic (λ e s, (s, match files s !! p with
                                 | None => Err errNotExist
                                 | Some f => if works_ e then Ok f else Err "open chunk"
                                 end));
      match found with
      | Err err => mret (Err err)
      | Ok f =>
          if negb ((modified f =? planned) && (bsize (contents f) =? StoredSize ref)) then
            mret (Err "chunk changed since gc planning")
          else
            linked ← atomic (λ e s, (s, match files s !! p with
                                        | None => Err errNotExist
                                        | Some f => if works_ e then Ok (inode f) else Err "stat chunk"
                                        end));
            match linked with
            | Err err => mret (Err err)
            | Ok i =>
                if negb (i =? inode f) then mret (Err "chunk changed since gc planning")
                else atomic (λ e s, match files s !! p with
                                    | None => (s, Err errNotExist)
                                    | Some _ => if works_ e then (s <| files := delete p (files s) |>, Ok tt)
                                                else (s, Err "unlink chunk")
                                    end)
            end
      end
  end.

(** [fmt.Sscanf(name, "v%d", &keyVersion)] of a positive 32-bit number, which
    skips blanks before the number and ignores what follows it. *)
Fixpoint skip_blanks (s : string) : string :=
  match s with
  | String a rest => if decide (a = " "%char ∨ a = "009"%char) then skip_blanks rest else s
  | "" => ""
  end.
Fixpoint leading_digits (s : string) : string :=
  match s with
  | String a rest => match digit_of a with Some _ => String a (leading_digits rest) | None => "" end
  | "" => ""
  end.
Definition scan_version (name : string) : option Z :=
  match name with
  | String v rest =>
      let rest := skip_blanks rest in
      if decide (v = "v"%char) then
        match digits 0 (leading_digits rest) with
        | Some n => if (leading_digits rest =? "")%string || (n =? 0) || (2 ^ 32 <=? n) then None else Some n
        | None => None
        end
      else None
  | "" => None
  end.

(** [ChunkInfo], without the path. *)
Record ChunkInfo := { InfoRef : ChunkRef; InfoModified : Z }.

(** What [Enumerate] reports of a directory entry. *)
Definition enumerated (p : list string) (f : chunk_file) : option ChunkInfo :=
  match p, reverse p with
  | "chunks" :: _, name :: _ :: version :: _ =>
      let address := String.substring 0 (String.length name - 6) name in
      if negb (bool_decide (name = address +:+ ".chunk")) || negb (String.length address =? 64)%nat ||
         negb (only_of hex_digits address) then None
      else match scan_version version with
      | None => None
      | Some v => Some {| InfoRef := {| Address := address; KeyVersion := v; PlainSize := 0;
                                        StoredSize := bsize (contents f); CipherSHA256 := "";
                                        PlainSHA256 := ""; Sequence := 0; Compression := "";
                                        Encryption := "" |};
                          InfoModified := modified f |}
      end
  | _, _ => None
  end.

(** [Enumerate]. *)
Definition Enumerate : act (result (list ChunkInfo)) :=
  atomic (λ e s, (s, if works_ e && negb (ctx_done e)
                     then Ok (omap (λ x, enumerated x.1 x.2) (map_to_list (files s)))
                     else Err "walk chunks")).
End operations.
