(* ===== verification/ChunkSafe.v ===== *)
(** * Chunks read back

    A chunk frame has one encoding and decodes to what was encoded; an asset
    that was stored is restored byte for byte, also while other writers are
    at work. *)
From Stdlib Require Import Ascii.
From S2P Require Import Prelude GoStr Model Prog Conc Crypto Keys ChunkStore.

Local Open Scope string_scope.
Local Open Scope list_scope.
Local Open Scope Z_scope.

(** ** Frames *)

Lemma read_full_app n a b : length a = n → read_full n (a ++ b) = Ok (a, b).
Proof.
  intros <-. unfold read_full. rewrite length_app. destruct (Nat.ltb_spec (length a + length b) (length a)); [lia|].
  by rewrite take_app_length, drop_app_length.
Qed.

Lemma read_full_all a : read_full (length a) a = Ok (a, []).
Proof. rewrite <- (app_nil_r a) at 2. by apply read_full_app. Qed.

Lemma read_full_inv n bs a b : read_full n bs = Ok (a, b) → bs = a ++ b ∧ length a = n.
Proof.
  unfold read_full. destruct (Nat.ltb_spec (length bs) n); [done|]. intros [= <- <-].
  by rewrite take_drop, length_take, Nat.min_l by lia.
Qed.

Lemma read_uint_app n z rest : 0 ≤ z < 256 ^ Z.of_nat n → read_uint n (big_endian n z ++ rest) = Ok (z, rest).
Proof.
  intros Hz. unfold read_uint. rewrite read_full_app by apply big_endian_length. rewrite ok_bind.
  by rewrite big_endian_mod, Z.mod_small.
Qed.

Lemma read_uint_inv n bs z rest :
  read_uint n bs = Ok (z, rest) → bs = big_endian n z ++ rest ∧ 0 ≤ z < 256 ^ Z.of_nat n.
Proof.
  unfold read_uint. intros ([field rest'] & H & [= <- <-])%bind_ok. apply read_full_inv in H as [-> <-].
  split; [by rewrite big_endian_from|apply from_big_endian_range].
Qed.

(** What a frame may carry. *)
Definition frame_fits (keyVersion plainSize : Z) (nonce ciphertext : bytes) : Prop :=
  0 ≤ keyVersion < 2 ^ 32 ∧ 1 ≤ plainSize ≤ maxPlainChunk ∧ 1 ≤ bsize nonce ≤ 255 ∧
  bsize ciphertext ≤ maxEncodedChunk.

Lemma decode_encode keyVersion plainSize nonce ciphertext encoded :
  frame_fits keyVersion plainSize nonce ciphertext →
  encodeChunk keyVersion plainSize nonce ciphertext = Ok encoded →
  decodeChunk encoded = Ok (keyVersion, plainSize, nonce, ciphertext).
Proof.
  intros (Hv & Hp & Hn & Hc). unfold encodeChunk. destruct (_ || _); [done|]. intros <-%Ok_inj. unfold decodeChunk.
  assert (0 ≤ bsize ciphertext) by (unfold bsize; lia). unfold maxPlainChunk, maxEncodedChunk in *.
  rewrite read_full_app by done. rewrite bool_decide_true by done. cbn [negb].
  rewrite read_uint_app by (vm_compute; intuition congruence). cbn [negb Z.eqb fileFormatVersion Pos.eqb].
  rewrite read_uint_app by (change (256 ^ Z.of_nat 4) with (2 ^ 32); lia). rewrite ok_bind.
  rewrite read_uint_app by (change (256 ^ Z.of_nat 8) with (2 ^ 64); lia). rewrite ok_bind.
  rewrite int64_id by (unfold in_int64; lia).
  destruct (Z.leb_spec 1 plainSize); [|lia]. destruct (Z.leb_spec plainSize (64 * 2 ^ 20)); [|lia].
  cbn [andb require]. rewrite ok_bind.
  rewrite read_uint_app by (change (256 ^ Z.of_nat 2) with (2 ^ 16); lia). rewrite ok_bind.
  rewrite read_uint_app by (change (256 ^ Z.of_nat 8) with (2 ^ 64); lia). rewrite ok_bind.
  rewrite uint64_id by lia. destruct (Z.eqb_spec (bsize nonce) 0); [lia|].
  destruct (Z.leb_spec (bsize ciphertext) (96 * 2 ^ 20)); [|lia].
  assert (bsize (nonce ++ ciphertext) = bsize nonce + bsize ciphertext) as ->
    by (unfold bsize; rewrite length_app; lia).
  rewrite Z.eqb_refl. cbn [andb negb require]. rewrite ok_bind. unfold bsize. rewrite !Nat2Z.id.
  rewrite read_full_app by done. rewrite ok_bind.
  by rewrite read_full_all.
Qed.

Lemma encode_decode encoded keyVersion plainSize nonce ciphertext :
  decodeChunk encoded = Ok (keyVersion, plainSize, nonce, ciphertext) → bsize nonce ≤ 255 →
  encodeChunk keyVersion plainSize nonce ciphertext = Ok encoded ∧
  frame_fits keyVersion plainSize nonce ciphertext.
Proof.
  unfold decodeChunk. destruct (read_full _ encoded) as [[m r0]|] eqn:H0; [|done].
  apply read_full_inv in H0 as [-> _]. destruct (bool_decide_reflect (m = magic)) as [->|]; [|done]. cbn [negb].
  destruct (read_uint 2 r0) as [[f r1]|] eqn:H1; [|done]. apply read_uint_inv in H1 as [-> _].
  destruct (Z.eqb_spec f fileFormatVersion) as [->|]; [|done]. cbn [negb].
  intros ([v r2] & [-> Hv]%read_uint_inv & ([p r3] & [-> Hp]%read_uint_inv & Hx)%bind_ok)%bind_ok Hnonce.
  apply bind_ok in Hx as ([] & [Hp1 Hp2]%require_ok%andb_true_iff & Hx).
  apply Z.leb_le in Hp1, Hp2.
  apply bind_ok in Hx as ([n r4] & [-> Hn]%read_uint_inv & Hx).
  apply bind_ok in Hx as ([c r5] & [-> Hc]%read_uint_inv & Hx).
  apply bind_ok in Hx as ([] & [[Hn0 Hc1]%andb_true_iff Hlen]%require_ok%andb_true_iff & Hx).
  apply bind_ok in Hx as ([n' r6] & [-> Hn']%read_full_inv & Hx).
  apply bind_ok in Hx as ([c' r7] & [-> Hc']%read_full_inv & [= <- <- <- <-]).
  change (256 ^ Z.of_nat 4) with (2 ^ 32) in Hv. change (256 ^ Z.of_nat 8) with (2 ^ 64) in Hp, Hc.
  change (256 ^ Z.of_nat 2) with (2 ^ 16) in Hn. apply negb_true_iff, Z.eqb_neq in Hn0.
  apply Z.leb_le in Hc1. apply Z.eqb_eq in Hlen. unfold maxEncodedChunk, maxPlainChunk in *.
  rewrite uint64_id in Hlen by lia. unfold bsize in *. rewrite !length_app in Hlen.
  assert (int64 p = p) as Hpp.
  { destruct (Z_lt_le_dec p (2 ^ 63)); [apply int64_id; unfold in_int64; lia|]. unfold int64 in Hp1, Hp2 |- *.
    exfalso. rewrite Zmod_eq_full in Hp1 by lia. revert Hp1.
    replace ((p + 2 ^ 63) / 2 ^ 64) with 1 by (apply (Z.div_unique _ _ _ (p - 2 ^ 63)); lia). lia. }
  assert (r7 = []) as -> by (apply length_zero_iff_nil; lia). rewrite app_nil_r.
  assert (Z.of_nat (length n') = n) as En by lia. assert (Z.of_nat (length c') = c) as Ec by lia. split.
  - unfold encodeChunk, bsize. rewrite En, Ec, Hpp. destruct (Z.ltb_spec 255 n); [lia|].
    unfold maxEncodedChunk. destruct (Z.ltb_spec (96 * 2 ^ 20) c); [lia|]. cbn [orb].
    done.
  - unfold frame_fits, bsize, maxPlainChunk, maxEncodedChunk. lia.
Qed.

(** C39.  Chunk frames are exact.  Decoding gives back what was encoded,
    and a frame that decodes (with the nonce length the store writes) is the
    one encoding of what it decodes to: no two files are the same chunk, and
    no byte of a frame is ignored. *)
Theorem chunk_frame_exact (keyVersion plainSize : Z) (nonce ciphertext encoded : bytes) :
  frame_fits keyVersion plainSize nonce ciphertext →
  encodeChunk keyVersion plainSize nonce ciphertext = Ok encoded ↔
  decodeChunk encoded = Ok (keyVersion, plainSize, nonce, ciphertext).
Proof.
  intros Hf. split; [by apply decode_encode|]. intros Hd. apply encode_decode; [done|]. apply Hf.
Qed.

Lemma chunk_frame_exact_witness :
  decodeChunk (magic ++ [x00; x01; x00; x00; x00; x07; x00; x00; x00; x00; x00; x00; x00; x02; x00; x01;
                         x00; x00; x00; x00; x00; x00; x00; x02; xaa; xbb; xcc])
  = Ok (7, 2, [xaa], [xbb; xcc]).
Proof.
  apply (chunk_frame_exact 7 2 [xaa] [xbb; xcc]); [|vm_compute; reflexivity].
  repeat split; vm_compute; discriminate.
Defined.

(** ** One chunk *)

Section chunk.
Context `{HC : !Crypto, HZ : !Codec}.

(** The file content [encoded] is plaintext [p] to whoever reads [ref]. *)
Definition opens (workloadID : string) (ref : ChunkRef) (dataKey encoded p : bytes) : Prop :=
  (1 ≤ PlainSize ref ≤ maxPlainChunk ∧ 1 ≤ StoredSize ref ≤ maxEncodedChunk) ∧
  ∃ nonce ciphertext codec, check_frame ref encoded = Ok (nonce, ciphertext) ∧
    open_frame workloadID ref dataKey nonce ciphertext = Ok (p, codec).

Lemma encode_size keyVersion plainSize nonce ciphertext encoded :
  encodeChunk keyVersion plainSize nonce ciphertext = Ok encoded →
  bsize encoded = 32 + bsize nonce + bsize ciphertext.
Proof.
  unfold encodeChunk. destruct (_ || _); [done|]. intros <-%Ok_inj. unfold bsize.
  rewrite !length_app, !big_endian_length. change (length magic) with 8%nat. lia.
Qed.

Lemma zstd_has_prefix p : has_prefix (zstd_encode p) zstdFrameMagic = true.
Proof. unfold has_prefix. apply bool_decide_eq_true. apply zstd_frame. Qed.

Lemma decompress_zstd p : 1 ≤ bsize p ≤ maxPlainChunk → decompress (zstd_encode p) (bsize p) = Ok (p, "zstd").
Proof.
  intros Hp. unfold decompress. destruct (Z.ltb_spec (bsize p) 1); [lia|].
  destruct (Z.ltb_spec maxPlainChunk (bsize p)); [lia|]. cbn [orb].
  by rewrite zstd_has_prefix, zstd_round, Z.eqb_refl by lia.
Qed.

Lemma chunkPath_ok ref :
  String.length (Address ref) = 64%nat → only_of hex_digits (Address ref) = true → is_ok (chunkPath ref) = true.
Proof. intros Hl Ho. unfold chunkPath. by rewrite Hl, Ho. Qed.

(** What a writer seals opens, and has the properties its reference claims. *)
Lemma seal_opens workloadID keyVersion dataKey sequence p nonce ref encoded :
  seal_chunk workloadID keyVersion dataKey sequence p nonce = Ok (ref, encoded) →
  1 ≤ bsize p ≤ maxPlainChunk → length nonce = nonceSize → 0 ≤ keyVersion < 2 ^ 32 →
  opens workloadID ref dataKey encoded p ∧ is_ok (chunkPath ref) = true ∧
  KeyVersion ref = keyVersion ∧ PlainSize ref = bsize p ∧ Sequence ref = sequence.
Proof.
  intros Hs Hp Hn Hv. unfold seal_chunk in Hs. apply bind_ok in Hs as (address & Ha & Hs).
  apply bind_ok in Hs as (ciphertext & Hc & Hs). apply bind_ok in Hs as (enc & He & [= <- <-]).
  destruct (Address_shape _ _ _ _ Ha) as [Hlen Honly].
  assert (bsize ciphertext = bsize (zstd_encode p) + 16) as Hcs.
  { unfold Encrypt in Hc. apply bind_ok in Hc as (k & _ & [= <-]). unfold bsize. rewrite gcm_seal_length. lia. }
  assert (bsize nonce = 12) as Hns by (unfold bsize; by rewrite Hn).
  pose proof (zstd_bound p) as Hb. pose proof (encode_size _ _ _ _ _ He) as Hes.
  assert (bsize p `div` 256 ≤ 2 ^ 18) as Hdiv
    by (apply Z.div_le_upper_bound; unfold maxPlainChunk in *; lia).
  assert (0 ≤ bsize ciphertext) by (unfold bsize; lia).
  assert (frame_fits keyVersion (bsize p) nonce ciphertext) as Hfits
    by (unfold frame_fits, maxPlainChunk, maxEncodedChunk in *; lia).
  split; [|by rewrite chunkPath_ok]. split; [unfold maxPlainChunk, maxEncodedChunk in *; cbn; lia|].
  exists nonce, ciphertext, "zstd". cbn. split.
  - unfold check_frame. cbn. rewrite Z.eqb_refl. destruct (Z.leb_spec (bsize enc) maxEncodedChunk);
      [|unfold maxPlainChunk, maxEncodedChunk in *; lia].
    cbn. rewrite bool_decide_true by done. cbn. rewrite (decode_encode _ _ _ _ _ Hfits He). cbn.
    by rewrite !Z.eqb_refl.
  - unfold open_frame. cbn. rewrite (Decrypt_Encrypt _ _ _ _ _ _ _ Hn Hc). cbn.
    rewrite decompress_zstd by done. cbn. rewrite bool_decide_true by done. cbn. rewrite Ha.
    by rewrite decide_True.
Qed.
End chunk.

(** ** The store while others write *)

Section writers.
Context `{HC : !Crypto, HZ : !Codec} {K KE : Type} `{HK : !KeyManager K KE}
        {knows : K → string → Z → bytes → Prop} {reads : KE → Prop} `{HL : !KeyLaws K KE knows reads}.

(** No file changes and no key is forgotten. *)
Definition grows (s s' : store K) : Prop :=
  (∀ p f, files s !! p = Some f → files s' !! p = Some f) ∧
  (∀ w v key, knows (key_state s) w v key → knows (key_state s') w v key).

#[export] Instance grows_preorder : PreOrder grows.
Proof. split; [done|]. intros s1 s2 s3 [H1 H2] [H3 H4]. split; auto. Qed.

(** The store has plaintext [p] under [ref]. *)
Definition has_chunk (w : string) (ref : ChunkRef) (p : bytes) (s : store K) : Prop :=
  ∃ path f key, chunkPath ref = Ok path ∧ files s !! path = Some f ∧
    knows (key_state s) w (KeyVersion ref) key ∧ opens w ref key (contents f) p.

Lemma has_chunk_grows w ref p s s' : has_chunk w ref p s → grows s s' → has_chunk w ref p s'.
Proof. intros (path & f & key & ? & ? & ? & ?) [Hf Hk]. exists path, f, key. auto. Qed.

Lemma key_grows s s' w v key : knows (key_state s) w v key → grows s s' → knows (key_state s') w v key.
Proof. intros Hk [_ H]. auto. Qed.

(** Every operation but an import and a deletion grows the store. *)
Lemma grows_read {A} (f : disk_answer KE → store K → A) : guarantees grows (atomic (λ e s, (s, f e s))).
Proof. by apply guarantees_atomic. Qed.

Lemma verify_grows w ref : guarantees grows (verifyChunk w ref).
Proof.
  unfold verifyChunk. destruct (negb _); [done|]. destruct (negb _); [done|].
  destruct (chunkPath ref); [|done]. apply guarantees_bind; [apply grows_read|]. intros found.
  destruct (found ≫= _) as [[nonce c]|]; [|done]. apply guarantees_bind; [apply grows_read|]. done.
Qed.

Lemma existing_grows w ref p : guarantees grows (existingRef w ref p).
Proof.
  unfold existingRef. destruct (chunkPath ref); [|done]. apply guarantees_bind; [apply grows_read|].
  intros []; [|done]. apply guarantees_bind; [apply verify_grows|]. done.
Qed.

Lemma install_grows w ref encoded p path : guarantees grows (install w ref encoded p path).
Proof.
  apply guarantees_bind; [apply grows_read|]. intros []; [|done]. apply guarantees_bind.
  - apply guarantees_atomic. intros e s. destruct (files s !! path) eqn:Hp; [done|].
    destruct (works_ e); [|done]. split; [|done]. intros p' f Hf. cbn.
    rewrite lookup_insert_ne; [done|]. intros <-. congruence.
  - intros []; [done|]. case_decide; [|done]. apply guarantees_bind; [apply existing_grows|]. done.
Qed.

Lemma put_grows w v key seq p : guarantees grows (putChunk w v key seq p).
Proof.
  apply guarantees_bind; [apply grows_read|]. intros sealed. destruct (sealed ≫= _) as [[[ref enc] path]|]; [|done].
  apply guarantees_bind; [apply grows_read|]. intros [n|err].
  - destruct (negb _); [apply install_grows|]. apply guarantees_bind; [apply grows_read|].
    intros []; [|done]. apply guarantees_bind; [apply verify_grows|]. done.
  - case_decide; [apply install_grows|done].
Qed.

Lemma put_blocks_grows n w v key bs : ∀ seq asset d, guarantees grows (put_blocks n w v key seq bs asset d).
Proof.
  induction bs as [|p bs IH]; intros seq asset d; cbn [put_blocks];
    (apply guarantees_bind; [apply grows_read|]; intros []; cbn [negb]; [|done]); [done|].
  apply guarantees_bind; [apply put_grows|]. intros [[ref existed]|]; [|done]. cbv zeta. destruct (_ <? _)%nat; [done|apply IH].
Qed.

Lemma PutAsset_grows chunkSize w name mediaType content required order :
  guarantees grows (PutAsset chunkSize w name mediaType content required order).
Proof.
  unfold PutAsset. case_decide; [done|]. apply guarantees_bind.
  - apply guarantees_atomic. intros e s. destruct (get_key _ _ w) as [k r] eqn:Hg. split; [done|].
    intros w' v key Hk. cbn. apply (get_keeps (for_keys e) _ w) in Hk. by rewrite Hg in Hk.
  - intros [[v key]|]; [|done]. apply guarantees_bind; [apply put_blocks_grows|]. done.
Qed.

(** ** Storing *)

(** A nonce has its length. *)
Definition drawn_ok (e : disk_answer KE) : Prop := length (nonce_drawn e) = nonceSize.

(** Whatever verifies is there, and stays. *)
Lemma verify_found (P : store K → Prop) w ref key :
  (∀ s s', P s → grows s s' → P s') → (∀ s, P s → knows (key_state s) w (KeyVersion ref) key) →
  secures drawn_ok grows P (verifyChunk w ref)
    (λ r s, P s ∧ ∀ p codec, r = Ok (p, codec) → has_chunk w ref p s).
Proof.
  intros HP Hkey. unfold verifyChunk.
  destruct (Z.leb_spec 1 (PlainSize ref)), (Z.leb_spec (PlainSize ref) maxPlainChunk);
    try (apply secures_ret; intros; split; [by eauto|done]); cbn [andb negb].
  destruct (Z.leb_spec 1 (StoredSize ref)), (Z.leb_spec (StoredSize ref) maxEncodedChunk);
    try (apply secures_ret; intros; split; [by eauto|done]); cbn [andb negb].
  destruct (chunkPath ref) as [path|] eqn:Hpath; [|apply secures_ret; intros; split; [by eauto|done]].
  apply secures_read. intros e s s' _ Hs Hg. assert (P s') as Hs' by eauto.
  destruct (files s' !! path) as [f|] eqn:Hf; [|apply secures_ret; intros ? ? -> ?; split; [by eauto|done]].
  destruct (works_ e); [|apply secures_ret; intros ? ? -> ?; split; [by eauto|done]]. rewrite ok_bind.
  destruct (check_frame ref (contents f)) as [[nonce c]|] eqn:Hc; [|apply secures_ret; intros ? ? -> ?; split; [by eauto|done]].
  apply secures_read. intros e' ? s1 _ -> Hg1. apply secures_ret. intros ? s2 -> Hg2.
  assert (grows s' s2) as Hg3 by by etrans. split; [by eauto|]. intros p codec Hr.
  apply bind_ok in Hr as (key' & Hk' & Hr).
  assert (key' = key) as -> by (eapply key_known; [|exact Hk']; by eauto).
  exists path, f, key. split; [done|]. split; [by apply Hg3|]. split; [by eauto|].
  split; [done|]. by exists nonce, c, codec.
Qed.

(** A reference to plaintext [p] at position [seq]. *)
Definition refers (ref : ChunkRef) (seq : Z) (p : bytes) : Prop :=
  PlainSize ref = bsize p ∧ Sequence ref = seq.

Definition put_done (w : string) (seq : Z) (p : bytes) (key : bytes) (v : Z)
    (r : result (ChunkRef * bool)) (s : store K) : Prop :=
  knows (key_state s) w v key ∧
  ∀ ref existed, r = Ok (ref, existed) → refers ref seq p ∧ has_chunk w ref p s.

Lemma existing_found w ref p key v seq :
  KeyVersion ref = v → refers ref seq p →
  secures drawn_ok grows (λ s, knows (key_state s) w v key) (existingRef w ref p)
    (λ r s, put_done w seq p key v (existing ← r; Ok (existing, true)) s).
Proof.
  intros Hv Href. unfold existingRef.
  destruct (chunkPath ref) as [path|]; [|apply secures_ret; intros; split; [by eapply key_grows|done]].
  apply secures_read. intros e s s' _ Hs Hg.
  assert (knows (key_state s') w v key) as Hs' by by eapply key_grows.
  destruct (match files s' !! path with Some _ => _ | None => _ end) as [encoded|];
    [|apply secures_ret; intros ? ? -> ?; split; [by eapply key_grows|done]].
  eapply secures_bind; [|intros r|apply _].
  - eapply secures_pre; [|apply (verify_found (λ s, knows (key_state s) w v key) w _ key)].
    + by intros ? ->.
    + intros ? ? ? ?. by eapply key_grows.
    + intros s1 Hs1. cbn. by rewrite Hv.
  - apply secures_ret. intros s1 s2 [Hk Hr] Hg2. split; [by eapply key_grows|].
    destruct r as [[found codec]|err]; [|done]. intros ref' existed. case_decide; [|done]. intros [= <- <-].
    subst found. split; [exact Href|]. exact (has_chunk_grows _ _ _ _ _ (Hr p codec eq_refl) Hg2).
Qed.

Lemma install_found w ref encoded p path key v seq :
  KeyVersion ref = v → refers ref seq p → chunkPath ref = Ok path → opens w ref key encoded p →
  secures drawn_ok grows (λ s, knows (key_state s) w v key) (install w ref encoded p path)
    (put_done w seq p key v).
Proof.
  intros Hv Href Hpath Hopen. unfold install.
  apply secures_read. intros e s s' _ Hs Hg.
  assert (knows (key_state s') w v key) as Hs' by by eapply key_grows.
  destruct (works_ e); [|apply secures_ret; intros ? ? -> ?; split; [by eapply key_grows|done]].
  apply (secures_bind _ _ _ _ _ (λ r s, knows (key_state s) w v key ∧ (is_ok r = true → has_chunk w ref p s)));
    [| |apply _].
  - apply secures_atomic. intros e1 ? s1 s2 _ -> Hg1. destruct (files s1 !! path) eqn:Hf; cbn.
    + intros Hg2. split; [by do 2 (eapply key_grows; [|done])|done].
    + destruct (works_ e1); cbn; intros Hg2; (split; [|try done]).
      * eapply key_grows; [|exact Hg2]. cbn. by eapply key_grows.
      * intros _. eapply has_chunk_grows; [|exact Hg2]. eexists path, _, key. split; [done|]. cbn.
        rewrite lookup_insert_eq. split; [done|]. rewrite Hv. split; [|exact Hopen]. by eapply key_grows.
      * by do 2 (eapply key_grows; [|done]).
  - intros [[]|err].
    + apply secures_ret. intros s1 s2 [Hk Hh] Hg2. split; [by eapply key_grows|]. intros ref' existed [= <- <-].
      split; [done|]. by eapply has_chunk_grows, Hg2; apply Hh.
    + case_decide; [|apply secures_ret; intros ? ? [Hk _] ?; split; [by eapply key_grows|done]].
      eapply secures_bind; [|intros r; apply secures_ret|apply _].
      * eapply secures_pre; [|by apply existing_found]. by intros ? [? _].
      * intros s1 s2 [Hk Hr] Hg2. split; [by eapply key_grows|]. intros ref' existed Hx.
        destruct (Hr ref' existed Hx). split; [done|]. by eapply has_chunk_grows.
Qed.

Lemma put_found w v key seq p :
  0 ≤ v < 2 ^ 32 → 1 ≤ bsize p ≤ maxPlainChunk →
  secures drawn_ok grows (λ s, knows (key_state s) w v key) (putChunk w v key seq p) (put_done w seq p key v).
Proof.
  intros Hv Hp. unfold putChunk. apply secures_read. intros e s0 s Hn Hs0 Hg0.
  assert (knows (key_state s) w v key) as Hs by by eapply key_grows.
  assert (∀ err, secures drawn_ok grows (λ x, x = s) (mret (Err err)) (put_done w seq p key v)) as Herr.
  { intros err. apply secures_ret. intros ? ? -> ?. split; [by eapply key_grows|done]. }
  destruct (seal_chunk _ _ _ _ _ _) as [[ref enc]|] eqn:Hseal; [|apply Herr]. rewrite ok_bind.
  destruct (seal_opens _ _ _ _ _ _ _ _ Hseal Hp Hn Hv) as (Hopen & Hpath & Hrv & Hrp & Hrs).
  destruct (chunkPath ref) as [path|] eqn:Hpp; [|done]. rewrite ok_bind.
  assert (secures drawn_ok grows (λ x, knows (key_state x) w v key) (install w ref enc p path)
    (put_done w seq p key v)) as Hinstall by by apply install_found.
  apply secures_read. intros e1 ? s1 _ -> Hg1.
  assert (knows (key_state s1) w v key) as Hs1 by by eapply key_grows.
  assert (∀ t, secures drawn_ok grows (λ x, knows (key_state x) w v key) t (put_done w seq p key v) →
    secures drawn_ok grows (λ x, x = s1) t (put_done w seq p key v)) as Hat.
  { intros t Ht. eapply secures_pre; [|exact Ht]. by intros ? ->. }
  assert (∀ err, secures drawn_ok grows (λ x, knows (key_state x) w v key) (mret (Err err))
    (put_done w seq p key v)) as Herr'.
  { intros err. apply secures_ret. intros ? ? ? ?. split; [by eapply key_grows|done]. }
  destruct (match files s1 !! path with Some _ => _ | None => _ end) as [n|err];
    [|case_decide; by apply Hat].
  destruct (negb _) eqn:Hn'; [by apply Hat|]. apply Hat. clear Hat.
  apply secures_read. intros e2 s2 s3 _ Hs2 Hg2.
  assert (knows (key_state s3) w v key) as Hs3 by by eapply key_grows.
  destruct (match files s3 !! path with Some _ => _ | None => _ end) as [present|];
    [|apply secures_ret; intros ? ? -> ?; split; [by eapply key_grows|done]].
  eapply secures_bind; [|intros r; apply secures_ret|apply _].
  - eapply secures_pre; [|apply (verify_found (λ s, knows (key_state s) w v key) w _ key)].
    + by intros ? ->.
    + intros ? ? ? ?. by eapply key_grows.
    + intros x Hx. cbn. by rewrite Hrv.
  - intros s4 s5 [Hk Hr] Hg5. split; [by eapply key_grows|].
    destruct r as [[found codec]|]; [|done]. intros ref' existed. case_decide; [|done]. intros [= <- <-]. subst found.
    split; [done|]. exact (has_chunk_grows _ _ _ _ _ (Hr p codec eq_refl) Hg5).
Qed.

(** The references of an asset from position [seq] on, with the plaintexts the
    store has for them. *)
Fixpoint holds (w : string) (seq : Z) (refs : list ChunkRef) (bs : list bytes) (s : store K) : Prop :=
  match refs, bs with
  | [], [] => True
  | ref :: refs, p :: bs => refers ref seq p ∧ has_chunk w ref p s ∧ holds w (seq + 1) refs bs s
  | _, _ => False
  end.

Lemma holds_grows w refs bs s s' : grows s s' → ∀ seq, holds w seq refs bs s → holds w seq refs bs s'.
Proof.
  intros Hg. revert bs. induction refs as [|ref refs IH]; intros [|p bs] seq; cbn; try done.
  intros (? & ? & ?). split_and!; [done|by eapply has_chunk_grows|by apply IH].
Qed.

Lemma holds_snoc w refs bs s ref p seq :
  holds w seq refs bs s → refers ref (seq + Z.of_nat (length bs)) p → has_chunk w ref p s →
  holds w seq (refs ++ [ref]) (bs ++ [p]) s.
Proof.
  revert bs seq. induction refs as [|r refs IH]; intros [|b bs] seq; cbn; try done.
  - intros _ Hr Hh. by rewrite Z.add_0_r in Hr.
  - intros (? & ? & ?) Hr Hh. split_and!; [done..|]. apply IH; [done| |done].
    by replace (seq + 1 + Z.of_nat (length bs)) with (seq + Z.of_nat (S (length bs))) by lia.
Qed.

(** What the loop has stored so far. *)
Definition put_so_far (w : string) (before : list bytes) (asset : AssetManifest) (s : store K) : Prop :=
  holds w 0 (Chunks asset) before s ∧ AssetPlainSize asset = int64 (bsize (concat before)).

(** Only the last block may be short. *)
Fixpoint full_blocks (n : nat) (bs : list bytes) : Prop :=
  match bs with
  | p :: (_ :: _) as rest => length p = n ∧ full_blocks n rest
  | _ => True
  end.

Lemma full_blocks_cons n p bs : full_blocks n (p :: bs) → full_blocks n bs ∧ ((length p < n)%nat → bs = []).
Proof. destruct bs; [done|]. cbn. intros [-> H]. split; [done|lia]. Qed.

Lemma put_blocks_found n w v key bs : ∀ before asset d,
  0 ≤ v < 2 ^ 32 → Forall (λ p, 1 ≤ bsize p ≤ maxPlainChunk) bs → full_blocks n bs →
  secures drawn_ok grows (λ s, knows (key_state s) w v key ∧ put_so_far w before asset s)
    (put_blocks n w v key (Z.of_nat (length before)) bs asset d)
    (λ r s, ∀ asset' d', r = Ok (asset', d') → put_so_far w (before ++ bs) asset' s).
Proof.
  induction bs as [|p bs IH]; intros before asset d Hv Hbs Hfull; cbn [put_blocks];
    (apply secures_read; intros e s0 s _ [Hk0 [Hh0 Hz]] Hg; destruct (negb _);
      [by apply secures_ret|]).
  - apply secures_ret. intros ? s1 -> Hg1 asset' d' [= <- <-]. rewrite app_nil_r. split; [|done].
    by eapply holds_grows, holds_grows.
  - apply Forall_cons in Hbs as [Hp Hbs].
    apply (secures_bind _ _ _ _ _ (λ r s, put_done w (Z.of_nat (length before)) p key v r s ∧
      holds w 0 (Chunks asset) before s)); [| |apply _].
    + apply secures_frame; [apply put_grows| | |].
      * intros ? ? ? ?. by eapply holds_grows.
      * intros ? ->. by eapply holds_grows.
      * eapply secures_pre; [|by apply put_found]. intros ? ->. by eapply key_grows.
    + intros [[ref existed]|err]; [|by apply secures_ret]. cbv zeta.
      apply full_blocks_cons in Hfull as [Hfull Hshort].
      set (asset1 := asset <| Chunks := Chunks asset ++ [ref] |> <| AssetPlainSize := _ |> <| AssetStoredSize := _ |>).
      assert (∀ s, put_done w (Z.of_nat (length before)) p key v (Ok (ref, existed)) s →
        holds w 0 (Chunks asset) before s → put_so_far w (before ++ [p]) asset1 s) as Hnext.
      { intros s1 [Hk Hd] Hh. destruct (Hd _ _ eq_refl) as [Href Hc]. split; cbn; [by apply holds_snoc|].
        rewrite Hz, int64_add. f_equal. destruct Href as [-> _]. unfold bsize.
        rewrite concat_app, length_app. cbn. rewrite app_nil_r. lia. }
      destruct (Nat.ltb_spec (length p) n) as [Hlt|_].
      * rewrite (Hshort Hlt). apply secures_ret. intros s1 s2 [Hd Hh] Hg2 asset' d' [= <- <-].
        destruct (Hnext _ Hd Hh) as [Hh2 Hz2]. split; [by eapply holds_grows|done].
      * replace (Z.of_nat (length before) + 1) with (Z.of_nat (length (before ++ [p])))
          by (rewrite length_app; cbn; lia).
        rewrite (cons_middle p before bs), (app_assoc before [p] bs). eapply secures_pre; [|by apply IH].
        intros s1 [Hd Hh]. split; [apply Hd|by apply Hnext].
Qed.

(** The blocks of a content are its content. *)
Lemma blocks_concat n fuel : ∀ content, (0 < n)%nat → (length content ≤ fuel)%nat →
  concat (blocks fuel n content) = content.
Proof.
  induction fuel as [|fuel IH]; intros content Hn Hl; [by destruct content; cbn in *; [|lia]|].
  cbn [blocks]. destruct content as [|b content]; [done|]. cbn [concat].
  rewrite IH; [apply take_drop|done|]. rewrite length_drop. cbn in *. lia.
Qed.

Lemma blocks_sizes n fuel : ∀ content, (0 < n)%nat →
  Forall (λ p, 1 ≤ bsize p ≤ Z.of_nat n) (blocks fuel n content).
Proof.
  induction fuel as [|fuel IH]; intros content Hn; [constructor|].
  cbn [blocks]. destruct content as [|b content]; [constructor|]. constructor; [|by apply IH].
  unfold bsize. rewrite length_take. cbn [length]. lia.
Qed.

Lemma blocks_full n fuel : ∀ content, full_blocks n (blocks fuel n content).
Proof.
  induction fuel as [|fuel IH]; intros content; [done|]. cbn [blocks]. destruct content as [|b content]; [done|].
  specialize (IH (drop n (b :: content))). destruct (blocks fuel n _) as [|q rest] eqn:Hb; [done|].
  split; [|done]. destruct fuel as [|fuel]; [done|]. cbn [blocks] in Hb.
  destruct (drop n (b :: content)) as [|c more] eqn:Hd; [done|]. rewrite length_take.
  apply (f_equal length) in Hd. rewrite length_drop in Hd. cbn [length] in *. lia.
Qed.

(** The store has all of an asset. *)
Definition stored (w : string) (asset : AssetManifest) (content : bytes) (s : store K) : Prop :=
  ∃ bs, concat bs = content ∧ put_so_far w bs asset s ∧ AssetSHA256 asset = hex (sha256 content).

Lemma stored_grows w asset content s s' : stored w asset content s → grows s s' → stored w asset content s'.
Proof. intros (bs & ? & [? ?] & ?) Hg. exists bs. split_and!; [done| |done]. split; [by eapply holds_grows|done]. Qed.

Lemma PutAsset_stores chunkSize w name mediaType content required order :
  (0 < chunkSize)%nat → Z.of_nat chunkSize ≤ maxPlainChunk →
  secures drawn_ok grows (λ _, True) (PutAsset chunkSize w name mediaType content required order)
    (λ r s, ∀ asset d, r = Ok (asset, d) → stored w asset content s).
Proof.
  intros Hn Hmax. unfold PutAsset. case_decide; [by apply secures_ret|].
  apply (secures_bind _ _ _ _ _ (λ r s, ∀ v key, r = Ok (v, key) → knows (key_state s) w v key ∧ 0 ≤ v < 2 ^ 32));
    [|intros [[v key]|err]|apply _].
  - apply secures_atomic. intros e s s1 s2 _ _ _. destruct (get_key _ _ w) as [k r] eqn:Hg. cbn. intros Hg2 v key ->.
    destruct (get_known (for_keys e) (key_state s1) w v key) as [Hk Hv]; [by rewrite Hg|]. rewrite Hg in Hk.
    split; [|done]. by eapply key_grows, Hg2.
  - apply secures_from. intros s0 Hs0. destruct (Hs0 v key eq_refl) as [Hk Hv].
    eapply secures_bind; [|intros r; apply secures_ret|apply _].
    + eapply secures_pre; [|apply (put_blocks_found chunkSize w v key _ [])]; [|done| |apply blocks_full].
      { intros ? ->. split; [done|]. by split. }
      eapply Forall_impl; [by apply blocks_sizes|]. cbn. lia.
    + intros s s' Hs Hg asset d Hr. apply bind_ok in Hr as ([asset' d'] & -> & [= <- <-]).
      eapply stored_grows; [|exact Hg]. destruct (Hs _ _ eq_refl) as [Hh Hz].
      cbn [app] in Hh, Hz. eexists. split; [|split; [split|]]; cbn; [|exact Hh|exact Hz|done].
      by apply blocks_concat.
  - by apply secures_ret.
Qed.

(** ** Reading back *)

(** A disk that works, a context that is not done, keys that can be read. *)
Definition clear (e : disk_answer KE) : Prop := works_ e = true ∧ ctx_done e = false ∧ reads (for_keys e).

Lemma read_succeeds w ref p (P : store K → Prop) :
  (∀ s s', P s → grows s s' → P s') → (∀ s, P s → has_chunk w ref p s) →
  secures clear grows P (readChunk w ref) (λ r s, r = Ok p ∧ P s).
Proof.
  intros HP Hh. apply secures_from. intros s0 Hs0.
  destruct (Hh s0 Hs0) as (path & f & key & Hpath & Hf & Hk & [[Hp Hz] (nonce & c & codec & Hc & Ho)]).
  apply (secures_bind _ _ _ _ _ (λ r s, r = Ok (p, codec) ∧ P s));
    [|intros r; apply secures_ret; intros ? ? [-> ?] ?; split; [done|by eauto]|apply _].
  unfold verifyChunk. rewrite !andb_true_intro by lia. cbn [negb]. rewrite Hpath.
  apply secures_read. intros e ? s1 (Hw & _ & _) -> Hg1. rewrite (proj1 Hg1 _ _ Hf), Hw, ok_bind, Hc.
  apply secures_read. intros e' ? s2 (_ & _ & Hr) -> Hg2. apply secures_ret. intros ? s3 -> Hg3.
  assert (grows s0 s2) as Hg by by etrans.
  rewrite (key_reads _ _ _ _ key Hr) by by eapply key_grows. rewrite ok_bind, Ho. split; [done|].
  eapply HP; [done|]. by etrans.
Qed.

Lemma restore_chunks_succeeds w refs : ∀ bs seq written,
  secures clear grows (holds w seq refs bs) (restore_chunks w seq refs written)
    (λ r _, r = (written ++ concat bs, Ok tt)).
Proof.
  induction refs as [|ref refs IH]; intros bs seq written; cbn [restore_chunks]; apply secures_from;
    intros s0 Hs0; destruct bs as [|p bs]; try done.
  - apply secures_ret. intros. cbn. by rewrite app_nil_r.
  - apply secures_read. intros e ? s1 (_ & -> & _) -> Hg1. destruct Hs0 as (Href & Hc & Hs0).
    rewrite (proj2 Href), Z.eqb_refl. cbn [negb].
    apply (secures_bind _ _ _ _ _ (λ r s, r = Ok p ∧ holds w (seq + 1) refs bs s)); [| |apply _].
    + eapply secures_post, secures_pre, (read_succeeds w ref p (λ s, has_chunk w ref p s ∧ holds w (seq + 1) refs bs s)).
      * by intros r s [-> [_ ?]].
      * intros ? ->. split; [by eapply has_chunk_grows|by eapply holds_grows].
      * intros s s' [? ?] ?. split; [by eapply has_chunk_grows|by eapply holds_grows].
      * by intros s [? _].
    + intros r. apply secures_from. intros s2 [-> Hs2]. apply secures_read. intros e' ? s3 (-> & _ & _) -> Hg3.
      eapply secures_post, secures_pre, IH; [|intros ? ->; by eapply holds_grows].
      intros r ? ->. cbn. by rewrite (assoc_L (++)).
Qed.

(** The references of a stored asset are in order. *)
Lemma holds_sorted w refs bs s : ∀ seq, holds w seq refs bs s →
  StronglySorted (λ a b, Sequence a < Sequence b) refs ∧ Forall (λ a, seq ≤ Sequence a) refs.
Proof.
  revert bs. induction refs as [|ref refs IH]; intros [|p bs] seq; cbn; try done.
  - intros _. split; constructor.
  - intros ([_ Hs] & _ & H). apply IH in H as [Hsort Hall]. split; constructor; [done| |lia|].
    + eapply Forall_impl; [exact Hall|]. cbn. lia.
    + eapply Forall_impl; [exact Hall|]. cbn. lia.
Qed.

Lemma ascending_inj refs a b :
  StronglySorted (λ a b, Sequence a < Sequence b) refs → a ∈ refs → b ∈ refs → Sequence a = Sequence b → a = b.
Proof.
  induction 1 as [|r refs Hs IH Hall]; [by intros ?%elem_of_nil|]. rewrite Forall_forall in Hall.
  intros [->|Ha]%elem_of_cons [->|Hb]%elem_of_cons He; [done| | |by apply IH].
  - apply Hall in Hb. lia.
  - apply Hall in Ha. lia.
Qed.

Lemma ascending_ordered refs :
  StronglySorted (λ a b, Sequence a < Sequence b) refs → StronglySorted by_sequence refs.
Proof.
  induction 1 as [|r refs Hs IH Hall]; constructor; [done|]. eapply Forall_impl; [exact Hall|].
  unfold by_sequence. cbn. lia.
Qed.

Lemma sort_in_order refs :
  StronglySorted (λ a b, Sequence a < Sequence b) refs → merge_sort by_sequence refs = refs.
Proof.
  intros Hs. apply (StronglySorted_unique_strong by_sequence).
  - intros a b Ha Hb Hab Hba. rewrite merge_sort_Permutation in Ha. unfold by_sequence in *.
    apply (ascending_inj refs); [done..|lia].
  - apply (@StronglySorted_merge_sort _ by_sequence _); unfold by_sequence; intros ?; [intros ? ?|intros ?]; lia.
  - by apply ascending_ordered.
  - apply merge_sort_Permutation.
Qed.

Lemma RestoreAsset_succeeds w asset content :
  secures clear grows (stored w asset content) (RestoreAsset w asset) (λ r _, r = (content, Ok tt)).
Proof.
  apply secures_from. intros s0 (bs & <- & [Hh Hz] & Hd).
  unfold RestoreAsset. rewrite sort_in_order by by eapply holds_sorted.
  eapply secures_bind; [|intros r|apply _].
  - eapply secures_pre, restore_chunks_succeeds. by intros ? ->.
  - apply secures_from. intros s1 ->. apply secures_ret. intros ? ? _ _. cbn. rewrite Hz, Z.eqb_refl. cbn.
    by rewrite bool_decide_true by done.
Qed.

(** *** When calls fail *)

(** Whatever fails, what is read is what was stored. *)
Lemma read_exact w ref p (P : store K → Prop) :
  (∀ s s', P s → grows s s' → P s') → (∀ s, P s → has_chunk w ref p s) →
  secures (λ _, True) grows P (readChunk w ref) (λ r s, (∀ p', r = Ok p' → p' = p) ∧ P s).
Proof.
  intros HP Hh. apply secures_from. intros s0 Hs0.
  destruct (Hh s0 Hs0) as (path & f & key & Hpath & Hf & Hk & [[Hp Hz] (nonce & c & codec & Hc & Ho)]).
  apply (secures_bind _ _ _ _ _ (λ r s, (∀ q, r = Ok q → q = (p, codec)) ∧ P s)); [| |apply _].
  2: { intros r. apply secures_ret. intros s s' [Hr ?] ?. split; [|by eauto].
       intros p' Hp'. destruct r as [[q c']|]; [|done]. cbn in Hp'. simplify_eq. by specialize (Hr _ eq_refl) as [= -> _]. }
  unfold verifyChunk. rewrite !andb_true_intro by lia. cbn [negb]. rewrite Hpath.
  apply secures_read. intros e ? s1 _ -> Hg1. rewrite (proj1 Hg1 _ _ Hf).
  destruct (works_ e); [|apply secures_ret; intros ? s2 -> Hg2; split; [done|]; eapply HP; [done|]; by etrans].
  rewrite ok_bind, Hc. apply secures_read. intros e' ? s2 _ -> Hg2. apply secures_ret. intros ? s3 -> Hg3.
  assert (grows s0 s2) as Hg by by etrans. split; [|eapply HP; [done|]; by etrans].
  intros q. destruct (key_of (for_keys e') (key_state s2) w (KeyVersion ref)) as [key'|] eqn:Hkey; [|done].
  apply (key_known _ _ _ _ key) in Hkey as ->; [|by eapply key_grows]. rewrite ok_bind, Ho. by intros [= <-].
Qed.

Lemma restore_chunks_exact w refs : ∀ bs seq written,
  secures (λ _, True) grows (holds w seq refs bs) (restore_chunks w seq refs written)
    (λ r _, r.1 `prefix_of` written ++ concat bs ∧ (r.2 = Ok tt → r.1 = written ++ concat bs)).
Proof.
  induction refs as [|ref refs IH]; intros bs seq written; cbn [restore_chunks]; apply secures_from;
    intros s0 Hs0; destruct bs as [|p bs]; try done.
  - apply secures_ret. intros. cbn. by rewrite app_nil_r.
  - apply secures_read. intros e ? s1 _ -> Hg1. destruct Hs0 as (Href & Hc & Hs0).
    assert (∀ err P, secures (λ _ : disk_answer KE, True) grows P (mret (written, Err err : result unit))
      (λ r (_ : store K), r.1 `prefix_of` written ++ concat (p :: bs) ∧
         (r.2 = Ok tt → r.1 = written ++ concat (p :: bs)))) as Herr.
    { intros err P. apply secures_ret. intros. split; [by apply prefix_app_r|done]. }
    destruct (ctx_done e); [apply Herr|]. rewrite (proj2 Href), Z.eqb_refl. cbn [negb].
    apply (secures_bind _ _ _ _ _ (λ r s, (∀ p', r = Ok p' → p' = p) ∧ holds w (seq + 1) refs bs s)); [| |apply _].
    + eapply secures_post, secures_pre, (read_exact w ref p (λ s, has_chunk w ref p s ∧ holds w (seq + 1) refs bs s)).
      * by intros r s [? [_ ?]].
      * intros ? ->. split; [by eapply has_chunk_grows|by eapply holds_grows].
      * intros s s' [? ?] ?. split; [by eapply has_chunk_grows|by eapply holds_grows].
      * by intros s [? _].
    + intros [q|err]; [|apply Herr]. apply secures_from. intros s2 [Hq Hs2]. rewrite (Hq q eq_refl).
      apply secures_read. intros e' ? s3 _ -> Hg3. destruct (works_ e'); [|apply Herr].
      eapply secures_post, secures_pre, IH; [|intros ? ->; by eapply holds_grows].
      intros r s. cbn. by rewrite (assoc_L (++)).
Qed.

Lemma RestoreAsset_exact w asset content :
  secures (λ _, True) grows (stored w asset content) (RestoreAsset w asset)
    (λ r _, r.1 `prefix_of` content ∧ (r.2 = Ok tt → r.1 = content)).
Proof.
  apply secures_from. intros s0 (bs & <- & [Hh Hz] & Hd).
  unfold RestoreAsset. rewrite sort_in_order by by eapply holds_sorted.
  eapply secures_bind; [|intros [written [[]|err]]|apply _].
  - eapply secures_pre, restore_chunks_exact. by intros ? ->.
  - apply secures_ret. intros s s' [H1 H2] _. cbn in *. split; [done|]. intros _. by apply H2.
  - apply secures_ret. intros s s' [H1 _] _. by split.
Qed.

End writers.

(** ** Toy instances *)

(** A codec that only frames, and a key manager that has one key. *)
Definition toy_codec : Codec.
Proof.
  refine {| zstd_encode p := zstdFrameMagic ++ p; zstd_decode c := Some (drop 4 c); gzip_decode _ := None |}.
  - done.
  - done.
  - intros p. unfold bsize. rewrite length_app. cbn. pose proof (Z.div_pos (Z.of_nat (length p)) 256). lia.
Defined.

Definition toy_key : bytes := replicate 32 x07.
Definition toy_keys : KeyManager unit unit :=
  {| get_key _ k _ := (k, Ok (1, toy_key)); key_of _ _ _ v := if v =? 1 then Ok toy_key else Err "no key" |}.
Definition toy_knows (_ : unit) (_ : string) (v : Z) (key : bytes) : Prop := v = 1 ∧ key = toy_key.
Definition toy_laws : @KeyLaws unit unit toy_keys toy_knows (λ _, True).
Proof.
  split; cbn; unfold toy_knows.
  - intros _ _ _ v key [= <- <-]. split; [done|lia].
  - done.
  - intros _ _ _ v key key' [-> ->] [= <-]. done.
  - intros _ _ _ v key _ [-> ->]. done.
  - intros _ _ _ v key err [-> ->]. done.
Defined.

Definition calm_disk : disk_answer unit :=
  {| works_ := true; landed_ := false; ctx_done := false; at_time := 5; new_inode := 3; nonce_drawn := replicate 12 x09; for_keys := tt |}.
Definition empty_store : store unit := {| key_state := tt; files := ∅ |}.

#[local] Existing Instances toy_crypto toy_codec toy_keys toy_laws.

Definition toy_put : option (result (AssetManifest * Z)) * store unit * list (disk_answer unit) :=
  run (PutAsset 2 "w" "memory" "application/octet-stream" [x01; x02; x01; x02; x03] true 0)
    (replicate 60 calm_disk) empty_store.
Definition toy_store : store unit := toy_put.1.2.
Definition toy_asset : AssetManifest :=
  match toy_put.1.1 with
  | Some (Ok (asset, _)) => asset
  | _ => {| AssetName := ""; MediaType := ""; AssetPlainSize := 0; AssetStoredSize := 0; AssetSHA256 := "";
            Chunks := []; AssetRequired := false; RestoreOrder := 0 |}
  end.
Definition toy_get : option (bytes * result unit) * store unit * list (disk_answer unit) :=
  run (RestoreAsset "w" toy_asset) (replicate 60 calm_disk) toy_store.

Lemma calm_disk_answers {P : disk_answer unit → Prop} n : P calm_disk → Forall P (replicate n calm_disk).
Proof. intros. by apply Forall_replicate. Qed.

Lemma run_calm {R} (okE : disk_answer unit → Prop) (G : store unit → store unit → Prop) `{!Reflexive G}
    (t : thread (store unit) (disk_answer unit) R) s r n :
  okE calm_disk → (run t (replicate n calm_disk) s).1.1 = Some r →
  among okE G t s r (run t (replicate n calm_disk) s).1.2.
Proof.
  intros He Hr. destruct (run t _ s) as [[r' s'] es] eqn:Hrun. cbn in *. subst r'.
  eapply among_mono, run_among; [|by apply calm_disk_answers|exact Hrun]. by intros ? ? ->.
Qed.

Lemma toy_put_run : toy_put.1.1 = Some (Ok (toy_asset, 2)).
Proof. vm_compute. reflexivity. Qed.

