(* ===== verification/ChunkTransfer.v ===== *)
(** * Chunks on another machine

    An import checks what it was sent against the reference and reads it back
    before it reports success.  So once the chunks of a manifest have been
    imported, in whatever order and whatever else goes on, the destination
    restores the very content the source stored.  An import is also what
    replaces a good file: of the same plaintext in another encoding. *)
From Stdlib Require Import Ascii.
From S2P Require Import Prelude GoStr Model Prog Conc Crypto Keys ChunkStore ChunkSafe.

Local Open Scope string_scope.
Local Open Scope list_scope.
Local Open Scope Z_scope.

Section transfer.
Context `{HC : !Crypto, HZ : !Codec} {K KE : Type} `{HK : !KeyManager K KE}
        {knows : K → string → Z → bytes → Prop} {reads : KE → Prop} `{HL : !KeyLaws K KE knows reads}.

(** The file of a reference has the digest the reference declares. *)
Definition digested (ref : ChunkRef) (s : store K) : Prop :=
  ∃ path f, chunkPath ref = Ok path ∧ files s !! path = Some f ∧
    hex (sha256 (contents f)) = CipherSHA256 ref.

(** What others may do during the transfer of [refs]: anything but remove or
    replace a file that has arrived, or forget a key. *)
Definition settles (refs : list ChunkRef) (s s' : store K) : Prop :=
  (∀ ref, ref ∈ refs → digested ref s → digested ref s') ∧
  (∀ w v key, knows (key_state s) w v key → knows (key_state s') w v key).

#[export] Instance settles_preorder refs : PreOrder (settles refs).
Proof. split; [done|]. intros s1 s2 s3 [H1 H2] [H3 H4]. split; auto. Qed.

Definition arrived (done : list ChunkRef) (s : store K) : Prop := ∀ ref, ref ∈ done → digested ref s.

Lemma arrived_settles refs done s s' : done ⊆ refs → arrived done s → settles refs s s' → arrived done s'.
Proof. intros Hsub Ha [Hs _] ref Hr. apply Hs; [by apply Hsub|by apply Ha]. Qed.

Lemma check_frame_digest ref encoded r : check_frame ref encoded = Ok r → hex (sha256 encoded) = CipherSHA256 ref.
Proof.
  unfold check_frame. intros ([] & _ & H)%bind_ok. apply bind_ok in H as ([] & H%require_ok & _).
  by apply bool_decide_eq_true in H.
Qed.

(** Whatever reads had the digest when it was read. *)
Definition seen (refs done : list ChunkRef) (ref : ChunkRef) (s : store K) : Prop :=
  ∃ s', arrived done s' ∧ digested ref s' ∧ settles refs s' s.

Lemma read_seen okE refs done w ref :
  done ⊆ refs →
  secures okE (settles refs) (arrived done) (readChunk w ref)
    (λ r s, arrived done s ∧ (is_ok r = true → seen refs done ref s)).
Proof.
  intros Hsub. eapply secures_bind; [|intros r; apply secures_ret|apply _].
  - instantiate (1 := λ r s, arrived done s ∧ (is_ok r = true → seen refs done ref s)). unfold verifyChunk.
    assert (∀ err s, arrived done s → secures okE (settles refs) (λ x, x = s) (mret (Err err))
      (λ (r : result (bytes * string)) s, arrived done s ∧ (is_ok r = true → seen refs done ref s))) as Herr.
    { intros err s Hs. apply secures_ret. intros ? ? -> ?. split; [by eapply arrived_settles|done]. }
    destruct (negb _); [by apply secures_from, Herr|]. destruct (negb _); [by apply secures_from, Herr|].
    destruct (chunkPath ref) as [path|] eqn:Hpath; [|by apply secures_from, Herr].
    apply secures_read. intros e s0 s _ Hs0 Hg. assert (arrived done s) as Hs by by eapply arrived_settles.
    destruct (files s !! path) as [f|] eqn:Hf; [|by apply Herr].
    destruct (works_ e); [|by apply Herr]. rewrite ok_bind.
    destruct (check_frame ref (contents f)) as [[nonce c]|] eqn:Hc; [|by apply Herr].
    apply secures_read. intros e' ? s1 _ -> Hg1. apply secures_ret. intros ? s2 -> Hg2.
    assert (settles refs s s2) as Hg3 by by etrans. split; [by eapply arrived_settles|]. intros _.
    exists s. split_and!; [done| |done]. exists path, f. split_and!; [done..|]. by eapply check_frame_digest.
  - intros s s' [Ha Hd] Hg. split; [by eapply arrived_settles|]. intros Hr.
    destruct Hd as (s1 & ? & ? & ?); [by destruct r|]. exists s1. split_and!; [done..|by etrans].
Qed.

Lemma read_digested okE refs done w ref :
  ref ∈ refs → done ⊆ refs →
  secures okE (settles refs) (arrived done) (readChunk w ref)
    (λ r s, arrived done s ∧ (is_ok r = true → digested ref s)).
Proof.
  intros Hin Hsub. eapply secures_post; [|by apply read_seen]. intros r s [Ha Hs]. split; [done|].
  intros Hr. destruct (Hs Hr) as (s' & _ & Hd & Hg). by apply Hg.
Qed.

(** One file for each name. *)
Definition one_file (refs : list ChunkRef) : Prop :=
  ∀ a b path, a ∈ refs → b ∈ refs → chunkPath a = Ok path → chunkPath b = Ok path →
    CipherSHA256 a = CipherSHA256 b.

Section import.
Context (okE : disk_answer KE → Prop) (refs done : list ChunkRef) (w : string) (ref : ChunkRef)
        (Hin : ref ∈ refs) (Hsub : done ⊆ refs) (Hone : one_file refs).

#[local] Abbreviation accepted := (λ (r : result bool) (s : store K), is_ok r = true → arrived (ref :: done) s).

Lemma accepted_both s s' : arrived done s → digested ref s → settles refs s s' → arrived (ref :: done) s'.
Proof.
  intros Ha Hd Hg ref' [->|Hr]%elem_of_cons; [by apply Hg|]. by eapply arrived_settles.
Qed.

Lemma confirm_arrives path present :
  secures okE (settles refs) (arrived done) (confirm w ref path present) accepted.
Proof.
  eapply secures_bind; [by apply read_digested| |apply _]. intros [x|err].
  - apply secures_ret. intros s s' [Ha Hd] Hg _. by eapply accepted_both; [| apply Hd|].
  - eapply secures_bind; [|intros ?; by apply secures_ret|apply _].
    by apply (secures_atomic _ _ _ _ (λ _ _, True)).
Qed.

(** A file with the declared digest under the reference's name keeps what
    has arrived. *)
Lemma placed_arrived path encoded i m s :
  chunkPath ref = Ok path → hex (sha256 encoded) = CipherSHA256 ref → arrived done s →
  arrived done (s <| files := <[path := {| contents := encoded; inode := i; modified := m |}]> (files s) |>).
Proof.
  intros Hpath Hd Ha ref' Hr. destruct (Ha ref' Hr) as (path' & f & Hp' & Hf & Hf'). exists path'. cbn.
  destruct (decide (path' = path)) as [->|].
  - eexists. rewrite lookup_insert_eq. split_and!; [done..|]. cbn. rewrite Hd.
    apply (Hone _ _ path); [done|by apply Hsub|done..].
  - exists f. by rewrite lookup_insert_ne.
Qed.

Lemma receive_arrives sent path present :
  chunkPath ref = Ok path →
  secures okE (settles refs) (arrived done) (receive w ref sent path present) accepted.
Proof.
  intros Hpath. unfold receive. apply secures_read. intros e s0 s _ Hs0 Hg.
  destruct (works_ e); [|by apply secures_ret].
  destruct (negb _); [by apply secures_ret|].
  destruct (bool_decide_reflect (hex (sha256 (take (Z.to_nat (StoredSize ref + 1)) sent)) = CipherSHA256 ref))
    as [Hd|]; [|by apply secures_ret]. cbn [negb].
  eapply (secures_pre _ _ _ _ (arrived done)); [intros ? ->; by eapply arrived_settles|].
  eapply (secures_bind _ _ _ _ _ (λ _, arrived done)); [| |apply _].
  - apply secures_atomic. intros e1 s1 s2 s3 _ Hs1 Hg1. assert (arrived done s2) by by eapply arrived_settles.
    destruct (files s2 !! path); cbn; [intros; by eapply arrived_settles|].
    destruct (works_ e1); cbn; intros Hg2; eapply arrived_settles; [done|by apply placed_arrived|done|done|done|done].
  - intros [[]|err]; [by apply confirm_arrives|]. case_decide; [|by apply secures_ret].
    eapply secures_bind; [by apply read_digested| |apply _]. intros [x|err']; cbn [is_ok].
    + apply secures_ret. intros s1 s2 [Ha Hd'] Hg2 _. by eapply accepted_both; [|apply Hd'|].
    + eapply (secures_bind _ _ _ _ _ (λ _, arrived done)); [| |apply _].
      * apply secures_atomic. intros e1 s1 s2 s3 _ [Hs1 _] Hg1. assert (arrived done s2) by by eapply arrived_settles.
        destruct (works_ e1); cbn; intros Hg2; eapply arrived_settles; [done|by apply placed_arrived|done|done|done|done].
      * intros [[]|]; [by apply confirm_arrives|by apply secures_ret].
Qed.

Lemma import_arrives sent :
  secures okE (settles refs) (arrived done) (ImportChunkResult_ w ref sent) accepted.
Proof.
  unfold ImportChunkResult_. destruct (negb _); [by apply secures_ret|]. destruct (negb _); [by apply secures_ret|].
  destruct (chunkPath ref) as [path|] eqn:Hpath; [|by apply secures_ret].
  apply secures_read. intros e s0 s _ Hs0 Hg. assert (arrived done s) as Hs by by eapply arrived_settles.
  set (found := match files s !! path with Some _ => _ | None => _ end).
  eapply (secures_bind _ _ _ _ _ (λ b s, arrived done s ∧ ((b : bool) = true → digested ref s))); [| |apply _].
  - case_decide.
    + eapply secures_bind; [eapply secures_pre; [|by apply read_digested]; by intros ? ->|intros r|apply _].
      apply secures_ret. intros s1 s2 [Ha Hd] Hg2. split; [by eapply arrived_settles|]. intros Hr. apply Hg2; auto.
    + apply secures_ret. intros ? s1 -> Hg1. split; [by eapply arrived_settles|done].
  - intros verified. destruct found as [n|err].
    + destruct verified.
      * apply secures_ret. intros s1 s2 [Ha Hd] Hg2 _. by eapply accepted_both; [|apply Hd|].
      * eapply secures_pre; [|by apply receive_arrives]. by intros ? [? _].
    + destruct (negb _); [by apply secures_ret|]. eapply secures_pre; [|by apply receive_arrives]. by intros ? [? _].
Qed.
End import.

(** What [Missing] does not report is there. *)
Lemma lacks_arrived (okE : disk_answer KE → Prop) refs done ref :
  ref ∈ refs → done ⊆ refs → CipherSHA256 ref ≠ "" →
  secures okE (settles refs) (arrived done) (lacks ref)
    (λ r s, r = Ok true ∧ arrived done s ∨ (r = Ok false ∧ arrived (ref :: done) s) ∨ is_ok r = false).
Proof.
  intros Hin Hsub Hne. unfold lacks. destruct (chunkPath ref) as [path|] eqn:Hpath; [|apply secures_ret; intros; by right; right].
  apply secures_read. intros e s0 s1 _ Hs0 Hg1. assert (arrived done s1) as Hs1 by by eapply arrived_settles.
  assert (secures okE (settles refs) (λ x, x = s1) (mret (Ok true) : thread (store K) (disk_answer KE) (result bool))
    (λ r s, r = Ok true ∧ arrived done s ∨ (r = Ok false ∧ arrived (ref :: done) s) ∨ is_ok r = false)) as Htrue.
  { apply secures_ret. intros ? s2 -> Hg2. left. split; [done|]. by eapply arrived_settles. }
  destruct (match files s1 !! path with Some _ => _ | None => _ end) as [n|err].
  - destruct (negb _); [done|]. rewrite decide_False by done.
    apply secures_read. intros e2 ? s2 _ -> Hg2. assert (arrived done s2) as Hs2 by by eapply arrived_settles.
    apply secures_ret. intros ? s3 -> Hg3. assert (arrived done s3) as Hs3 by by eapply arrived_settles.
    destruct (files s2 !! path) as [f|] eqn:Hf; [|by left]. destruct (works_ e2); [|by left].
    destruct (bool_decide_reflect (hex (sha256 (contents f)) = CipherSHA256 ref)) as [Hd|]; [|by left].
    right. left. split; [done|]. intros ref' [->|Hr]%elem_of_cons; [|by apply Hs3]. apply Hg3; [done|]. by exists path, f.
  - case_decide; [done|]. apply secures_ret. intros. by right; right.
Qed.

Lemma Missing_arrived (okE : disk_answer KE → Prop) refs todo : ∀ done missing,
  todo ⊆ refs → done ⊆ refs → (∀ ref, ref ∈ refs → CipherSHA256 ref ≠ "") →
  secures okE (settles refs) (arrived done) (Missing_ todo missing)
    (λ r s, ∀ absent, r = Ok absent → ∃ present,
      arrived (present ++ done) s ∧ missing ⊆ absent ∧ todo ⊆ absent ++ present ∧ present ⊆ refs).
Proof.
  induction todo as [|ref todo IH]; intros done missing Htodo Hdone Hne; cbn [Missing_].
  - apply secures_ret. intros s s' Ha Hg absent [= <-]. exists []. split_and!; [by eapply arrived_settles|set_solver..].
  - assert (ref ∈ refs) as Hin by (apply Htodo; left). assert (todo ⊆ refs) as Htodo' by set_solver.
    eapply secures_bind; [by apply lacks_arrived; [| |apply Hne]| |apply _].
    intros r. apply secures_from. intros s0 [[-> Ha]|[[-> Ha]|Hr]].
    + eapply secures_post, secures_pre, (IH done (missing ++ [ref])); [|by intros ? ->|done..].
      intros r s H absent Hr. destruct (H absent Hr) as (present & ? & ? & ? & ?). exists present.
      split_and!; [done|set_solver..].
    + eapply secures_post, secures_pre, (IH (ref :: done) missing); [|by intros ? ->|done|set_solver|done].
      intros r s H absent Hr. destruct (H absent Hr) as (present & Harr & ? & ? & ?). exists (present ++ [ref]).
      split_and!; [|set_solver..]. by rewrite <- app_assoc.
    + destruct r; [done|]. by apply secures_ret.
Qed.

(** A sequence of imports that all report success; what is sent is up to the
    peer. *)
Inductive imports (okE : disk_answer KE → Prop) (refs : list ChunkRef) (w : string)
    : list ChunkRef → store K → store K → Prop :=
| imports_nil s s' : settles refs s s' → imports okE refs w [] s s'
| imports_cons ref todo sent fresh s s1 s' :
    among okE (settles refs) (ImportChunkResult_ w ref sent) s (Ok fresh) s1 →
    imports okE refs w todo s1 s' → imports okE refs w (ref :: todo) s s'.

Lemma imports_arrive okE refs w todo s s' : ∀ done,
  one_file refs → todo ⊆ refs → done ⊆ refs → imports okE refs w todo s s' → arrived done s →
  arrived (todo ++ done) s'.
Proof.
  intros done Hone Htodo Hdone Hrun. revert done Hdone.
  induction Hrun as [s s' Hg|ref todo sent fresh s s1 s' Hrun Hrest IH]; intros done Hdone Ha.
  - by eapply arrived_settles.
  - assert (ref ∈ refs) as Hin by (apply Htodo; left).
    pose proof (secures_among _ _ _ _ _ _ _ _ (import_arrives okE refs done w ref Hin Hdone Hone sent) Hrun Ha eq_refl)
      as Ha1.
    eapply (IH _ (ref :: done)) in Ha1; [|set_solver].
    intros r Hr. apply Ha1. set_solver.
    Unshelve. set_solver.
Qed.

(** The references of a stored asset have one file for each name. *)
Lemma holds_each w refs bs s : ∀ seq ref, holds (knows := knows) w seq refs bs s → ref ∈ refs →
  ∃ p, has_chunk (knows := knows) w ref p s.
Proof.
  revert bs. induction refs as [|r refs IH]; intros [|p bs] seq ref; cbn; try done; [by intros _ ?%elem_of_nil|].
  intros (_ & Hc & Hh) [->|Hr]%elem_of_cons; [by exists p|by eapply IH].
Qed.

Lemma has_chunk_digested w ref p s : has_chunk (knows := knows) w ref p s → digested ref s.
Proof.
  intros (path & f & key & Hp & Hf & _ & [_ (nonce & c & codec & Hc & _)]). exists path, f.
  split_and!; [done..|]. by eapply check_frame_digest.
Qed.

Lemma holds_one_file w refs bs s seq : holds (knows := knows) w seq refs bs s → one_file refs.
Proof.
  intros Hh a b path Ha Hb Hpa Hpb.
  destruct (holds_each _ _ _ _ _ _ Hh Ha) as [pa (path1 & fa & ? & Hfa & Hda)%has_chunk_digested].
  destruct (holds_each _ _ _ _ _ _ Hh Hb) as [pb (path2 & fb & ? & Hfb & Hdb)%has_chunk_digested].
  simplify_eq. congruence.
Qed.

(** Two files under one name, different and with the same SHA-256. *)
Definition collision (ref : ChunkRef) (s s' : store K) : Prop :=
  ∃ path f f', chunkPath ref = Ok path ∧ files s !! path = Some f ∧ files s' !! path = Some f' ∧
    contents f ≠ contents f' ∧ sha256 (contents f) = sha256 (contents f').

Lemma holds_there w refs bs src dst : ∀ seq,
  holds (knows := knows) w seq refs bs src → arrived refs dst →
  (∀ v key, knows (key_state src) w v key → knows (key_state dst) w v key) →
  holds (knows := knows) w seq refs bs dst ∨ ∃ ref, ref ∈ refs ∧ collision ref src dst.
Proof.
  revert bs. induction refs as [|r refs IH]; intros [|p bs] seq Hh Ha Hk; cbn in *; try done; [by left|].
  destruct Hh as (Hr & Hc & Hh). destruct (IH bs (seq + 1)) as [Hd|(ref & Hin & Hcol)]; [done| |done| |].
  - intros ref Href. apply Ha. set_solver.
  - destruct (Ha r) as (path & f' & Hpath & Hf' & Hd'); [left|].
    destruct Hc as (path1 & f & key & Hpath1 & Hf & Hkey & Ho). assert (path1 = path) as -> by congruence.
    destruct (decide (contents f = contents f')) as [He|Hne].
    + left. split_and!; [done| |done]. exists path, f', key. split_and!; [done|done|by apply Hk|]. by rewrite <- He.
    + right. exists r. split; [left|]. exists path, f, f'. split_and!; [done..|].
      apply hex_inj. rewrite Hd'. destruct Ho as [_ (? & ? & ? & Hcf & _)]. by eapply check_frame_digest.
  - right. exists ref. split; [by right|done].
Qed.

Lemma Missing_reports (okE : disk_answer KE → Prop) todo : ∀ missing s s' absent refs,
  missing ⊆ refs → todo ⊆ refs → among okE (settles refs) (Missing_ todo missing) s (Ok absent) s' → absent ⊆ refs.
Proof.
  intros missing s s' absent refs Hm Ht Hrun.
  refine (secures_among _ _ _ (λ _, True) (λ r _, ∀ absent, r = Ok absent → absent ⊆ refs) _ _ _ _ Hrun I _ eq_refl).
  clear Hrun s s' absent. revert missing Hm. induction todo as [|ref todo IH]; intros missing Hm; cbn [Missing_].
  - apply secures_ret. by intros ? ? _ _ absent [= <-].
  - eapply (secures_bind _ _ _ _ _ (λ _ _, True)); [by apply secures_true| |apply _].
    intros [b|err]; [|by apply secures_ret]. apply IH; [set_solver|]. destruct b; set_solver.
Qed.

(** Asking what is missing and importing it brings everything there. *)
Lemma transfer_arrives (okE : disk_answer KE → Prop) w refs bs seq src dst0 dst1 dst missing todo :
  holds (knows := knows) w seq refs bs src →
  among okE (settles refs) (Missing_ refs []) dst0 (Ok missing) dst1 → todo ≡ₚ missing →
  imports okE refs w todo dst1 dst → arrived refs dst.
Proof.
  intros Hh Hmiss Htodo Himp.
  assert (∀ ref, ref ∈ refs → CipherSHA256 ref ≠ "") as Hne.
  { intros ref Hr. destruct (holds_each _ _ _ _ _ _ Hh Hr) as [p (path & f & _ & _ & <-)%has_chunk_digested].
    pose proof (sha256_some (contents f)). by destruct (sha256 _). }
  pose proof (secures_among _ _ _ _ _ _ _ _ (Missing_arrived okE refs refs [] [] (reflexivity _)
    (list_subseteq_nil _) Hne) Hmiss (λ r Hr, match not_elem_of_nil _ Hr with end) _ eq_refl)
    as (present & Harr & _ & Hall & Hpres). rewrite app_nil_r in Harr.
  assert (missing ⊆ refs) as Hsub by (by eapply Missing_reports; [apply list_subseteq_nil|reflexivity|exact Hmiss]).
  apply (imports_arrive _ _ _ _ _ _ present (holds_one_file _ _ _ _ _ Hh)) in Himp; [|by rewrite Htodo|done|done].
  intros ref Hr. apply Himp. rewrite Htodo. by apply Hall.
Qed.

(** C17.  A transferred asset is the asset.  The source stored a content;
    the destination was asked which chunks of the manifest it misses, and each
    of these was imported there with success, in any order, whatever was sent
    and whatever others did there short of removing or replacing arrived
    files; the destination has the workload's keys.  Then restoring the manifest there writes the source's content byte
    for byte, unless the two machines' files exhibit a SHA-256 collision. *)
Theorem transfer_restores (okE : disk_answer KE → Prop) (chunkSize : nat) (w name mediaType : string)
    (content : bytes) (required : bool) (order : Z) (src0 src dst0 dst1 dst dst' : store K) (asset : AssetManifest)
    (deduplicated : Z) (missing todo : list ChunkRef) (out : bytes * result unit) :
  (0 < chunkSize)%nat → Z.of_nat chunkSize ≤ maxPlainChunk →
  among drawn_ok (grows (knows := knows)) (PutAsset chunkSize w name mediaType content required order) src0
    (Ok (asset, deduplicated)) src →
  among okE (settles (Chunks asset)) (Missing_ (Chunks asset) []) dst0 (Ok missing) dst1 →
  todo ≡ₚ missing →
  imports okE (Chunks asset) w todo dst1 dst →
  (∀ v key, knows (key_state src) w v key → knows (key_state dst) w v key) →
  among (clear (reads := reads)) (grows (knows := knows)) (RestoreAsset w asset) dst out dst' →
  out = (content, Ok tt) ∨ ∃ ref, ref ∈ Chunks asset ∧ collision ref src dst.
Proof.
  intros Hn Hmax Hput Hmiss Htodo Himp Hkeys Hget.
  destruct (secures_among _ _ _ _ _ _ _ _ (PutAsset_stores (knows := knows) _ w _ _ _ _ _ Hn Hmax) Hput I _ _ eq_refl)
    as (bs & Hbs & [Hh Hz] & Hd).
  assert (arrived (Chunks asset) dst) as Harr.
  { eapply transfer_arrives; [exact Hh|exact Hmiss|exact Htodo|exact Himp]. }
  destruct (holds_there _ _ _ _ _ _ Hh Harr Hkeys) as [Hdst|Hcol]; [left|by right].
  refine (secures_among _ _ _ _ _ _ _ _ (RestoreAsset_succeeds (knows := knows) w asset content) Hget _).
  by exists bs.
Qed.

(** ** An import that replaces *)

(** References to one name with different digests. *)
Definition clash (a b : ChunkRef) : Prop := chunkPath a = chunkPath b ∧ CipherSHA256 a ≠ CipherSHA256 b.

Lemma clash_read okE w old new :
  clash old new →
  secures okE (settles [new]) (arrived [new]) (readChunk w old) (λ r s, arrived [new] s ∧ is_ok r = false).
Proof.
  intros [Hpath Hne]. eapply secures_post; [|by apply (read_seen okE [new] [new] w old)].
  intros r s [Ha Hs]. split; [done|]. destruct r; [|done]. exfalso.
  destruct (Hs eq_refl) as (s' & Ha' & (p & f & Hp & Hf & Hd) & _).
  destruct (Ha' new) as (p' & f' & Hp' & Hf' & Hd'); [left|]. simplify_eq. congruence.
Qed.

Lemma clash_restore okE w old new refs : ∀ seq written,
  clash old new → old ∈ refs →
  secures okE (settles [new]) (arrived [new]) (restore_chunks w seq refs written) (λ r s, is_ok r.2 = false).
Proof.
  induction refs as [|ref refs IH]; intros seq written Hc Hin; [by apply elem_of_nil in Hin|]. cbn [restore_chunks].
  apply secures_read. intros e s0 s _ Hs0 Hg. assert (arrived [new] s) as Hs by by eapply arrived_settles.
  destruct (ctx_done e); [by apply secures_ret|]. destruct (negb _); [by apply secures_ret|].
  apply (secures_pre _ _ _ _ (arrived [new])); [by intros ? ->|].
  destruct (decide (ref = old)) as [->|Hne].
  - eapply secures_bind; [by apply clash_read|intros r|apply _]. apply secures_from. intros s1 [_ Hr].
    destruct r; [done|]. by apply secures_ret.
  - eapply secures_bind; [by apply read_seen|intros [plain|err]|apply _]; [|by apply secures_ret].
    apply secures_read. intros e1 s1 s2 _ [Hs1 _] Hg1. destruct (works_ e1); [|by apply secures_ret].
    eapply secures_pre, IH; [|done|set_solver]. intros ? ->. by eapply arrived_settles.
Qed.

(** An import destroys a retained chunk.  A machine has a chunk that
    its own manifests refer to; a peer that shares the workload's keys sends
    the same plaintext as it encoded it.  The import takes the file, which is
    good and in use, for damaged or foreign and replaces it.  From then on no
    asset that refers to the old encoding restores. *)
Theorem import_breaks_retained (okE : disk_answer KE → Prop) (w : string) (old new : ChunkRef) (sent : bytes)
    (fresh : bool) (asset : AssetManifest) (s s1 s2 : store K) (out : bytes * result unit) :
  clash old new → old ∈ Chunks asset →
  among okE (settles [new]) (ImportChunkResult_ w new sent) s (Ok fresh) s1 →
  among okE (settles [new]) (RestoreAsset w asset) s1 out s2 →
  is_ok out.2 = false.
Proof.
  intros Hc Hin Himp Hget.
  assert (arrived [new] s1) as Ha.
  { apply (secures_among _ _ _ _ _ _ _ _ (import_arrives okE [new] [] w new ltac:(left)
      ltac:(apply list_subseteq_nil) ltac:(intros a b path; rewrite !list_elem_of_singleton; congruence) sent) Himp); [|done].
    intros r Hr. by apply elem_of_nil in Hr. }
  refine (secures_among _ _ _ (arrived [new]) (λ r _, is_ok r.2 = false) _ _ _ _ Hget Ha).
  eapply secures_bind; [eapply (clash_restore okE w old new); [done|by rewrite merge_sort_Permutation]| |apply _].
  intros r. apply secures_from. intros s3 Hr. destruct r as [written [[]|err]]; [done|]. by apply secures_ret.
Qed.
End transfer.

(** ** A transfer *)

#[local] Existing Instances toy_crypto toy_codec toy_keys toy_laws.

Definition toy_sent (ref : ChunkRef) : bytes :=
  match chunkPath ref with
  | Ok p => match files toy_store !! p with Some f => contents f | None => [] end
  | Err _ => []
  end.

(** The destination after the imports of [refs]. *)
Fixpoint toy_arrivals (refs : list ChunkRef) (s : store unit) : store unit :=
  match refs with
  | [] => s
  | ref :: rest =>
      toy_arrivals rest (run (ImportChunkResult_ "w" ref (toy_sent ref)) (replicate 20 calm_disk) s).1.2
  end.
Fixpoint toy_accepted (refs : list ChunkRef) (s : store unit) : bool :=
  match refs with
  | [] => true
  | ref :: rest =>
      let out := run (ImportChunkResult_ "w" ref (toy_sent ref)) (replicate 20 calm_disk) s in
      match out.1.1 with Some (Ok _) => toy_accepted rest out.1.2 | _ => false end
  end.

Lemma toy_imports refs todo : ∀ s,
  toy_accepted todo s = true →
  imports (knows := toy_knows) (λ _, True) refs "w" todo s (toy_arrivals todo s).
Proof.
  induction todo as [|ref todo IH]; intros s Ha; cbn [toy_accepted toy_arrivals] in *; [by constructor|].
  destruct (run _ _ s).1.1 as [[fresh|]|] eqn:Hr; try done. econstructor; [|by apply IH].
  by apply run_calm.
Qed.

Definition toy_missing : option (result (list ChunkRef)) * store unit * list (disk_answer unit) :=
  run (Missing_ (Chunks toy_asset) []) (replicate 10 calm_disk) empty_store.
Definition toy_dst : store unit := toy_arrivals (reverse (Chunks toy_asset)) toy_missing.1.2.
Definition toy_there : option (bytes * result unit) * store unit * list (disk_answer unit) :=
  run (RestoreAsset "w" toy_asset) (replicate 60 calm_disk) toy_dst.

Lemma transfer_restores_witness :
  ∃ out, toy_there.1.1 = Some out ∧
    (out = ([x01; x02; x01; x02; x03], Ok tt) ∨ ∃ ref, ref ∈ Chunks toy_asset ∧ collision ref toy_store toy_dst).
Proof.
  assert (∃ out, toy_there.1.1 = Some out) as [out Hout] by (eexists; vm_compute; reflexivity).
  exists out. split; [exact Hout|].
  apply (transfer_restores (knows := toy_knows) (reads := λ _, True) (λ _, True) 2 "w" "memory"
    "application/octet-stream" [x01; x02; x01; x02; x03] true 0 empty_store toy_store empty_store
    toy_missing.1.2 toy_dst toy_there.1.2 toy_asset 2 (Chunks toy_asset) (reverse (Chunks toy_asset)) out).
  - lia.
  - vm_compute. discriminate.
  - exact (run_calm _ _ _ _ _ _ eq_refl toy_put_run).
  - apply run_calm; [apply _|exact I|vm_compute; reflexivity].
  - apply reverse_Permutation.
  - apply toy_imports. vm_compute. reflexivity.
  - done.
  - exact (run_calm _ _ _ _ _ _ (conj eq_refl (conj eq_refl I)) Hout).
Defined.

(** The peer's encoding of the first chunk, under another nonce. *)
Definition toy_peer : ChunkRef * bytes :=
  match seal_chunk "w" 1 toy_key 0 [x01; x02] (replicate 12 x0a), Chunks toy_asset with
  | Ok sealed, _ => sealed
  | _, ref :: _ => (ref, [])
  | _, _ => ({| Address := ""; KeyVersion := 0; PlainSize := 0; StoredSize := 0; CipherSHA256 := "";
                PlainSHA256 := ""; Sequence := 0; Compression := ""; Encryption := "" |}, [])
  end.
Definition toy_replaced : option (result bool) * store unit * list (disk_answer unit) :=
  run (ImportChunkResult_ "w" toy_peer.1 toy_peer.2) (replicate 20 calm_disk) toy_store.
Definition toy_lost : option (bytes * result unit) * store unit * list (disk_answer unit) :=
  run (RestoreAsset "w" toy_asset) (replicate 60 calm_disk) toy_replaced.1.2.

Lemma import_breaks_retained_witness :
  toy_get.1.1 = Some ([x01; x02; x01; x02; x03], Ok tt) ∧ toy_replaced.1.1 = Some (Ok false) ∧
  ∃ out, toy_lost.1.1 = Some out ∧ is_ok out.2 = false.
Proof.
  split; [vm_compute; reflexivity|]. assert (toy_replaced.1.1 = Some (Ok false)) as Hrep by (vm_compute; reflexivity).
  split; [exact Hrep|].
  assert (∃ out, toy_lost.1.1 = Some out) as [out Hout] by (eexists; vm_compute; reflexivity).
  exists out. split; [exact Hout|].
  assert (∃ old, head (Chunks toy_asset) = Some old ∧ clash old toy_peer.1) as (old & Hold & Hclash).
  { eexists. split; [vm_compute; reflexivity|]. split; vm_compute; [reflexivity|discriminate]. }
  apply (import_breaks_retained (knows := toy_knows) (λ _, True) "w" old toy_peer.1 toy_peer.2 false toy_asset
    toy_store toy_replaced.1.2 toy_lost.1.2 out).
  - exact Hclash.
  - by apply head_Some_elem_of.
  - exact (run_calm _ _ _ _ _ _ I Hrep).
  - exact (run_calm _ _ _ _ _ _ I Hout).
Defined.
