(* ===== verification/Session.v ===== *)
(** * Incoming transfer sessions and the peer API ([internal/transfer])

    The destination's half of a migration: [session.go]'s store of transfer
    reservations and every handler of [server.go].  A handler is a thread of
    atomic actions (see [Conc]); a call on the store is atomic, as the code
    holds the store's lock for it, and may fail to persist, in which case the
    record keeps its old value (see [Collection]).  The checkpoint
    repository, the chunk store, the key manager, the machine inventory and
    the restorer are the interface [Backend].  A request is what the router
    and the JSON decoder leave of it: a body that does not decode is [None].
    The semaphore that bounds how many chunks are verified at once is an
    answer of the environment ([slot]): it waits, and gives up when the
    request is cancelled. *)
From Stdlib Require Import Ascii.
From S2P Require Import Prelude GoStr Model Workload Conc.

(** ** Sessions *)

Inductive SessionState :=
| SessionReserved | SessionKeyReady | SessionManifestReady | SessionVerified | SessionHeld
| SessionRestored | SessionCommitted | SessionRolledBack | SessionFailed.
#[export] Instance SessionState_eq_dec : EqDecision SessionState.
Proof. solve_decision. Defined.

Definition PurposeReplication : string := "replication".

Definition validPurpose (purpose : string) : bool :=
  bool_decide (purpose = "") || bool_decide (purpose = PurposeReplication).

Record Session := {
  ID : string;
  SessionSource : string;
  SessionWorkload : string;
  OrganizationID : string;
  SessionCheckpoint : string;
  SessionKeyVersion : Z;
  State : SessionState;
  EstimatedBytes : Z;
  ReceivedBytes : Z;
  AttemptedBytes : Z;
  RestoreID : string;
  Purpose : string;
  SourceAgentURL : string;
  SessionKeepLast : Z;
  SessionFencing : string;
  SessionCreatedAt : Z;
  SessionUpdatedAt : Z;
  ExpiresAt : Z;
  SessionFailure : string;
}.
#[export] Instance Session_eta : Eta Session := fun s =>
  Build_Session (ID s) (SessionSource s) (SessionWorkload s) (OrganizationID s)
    (SessionCheckpoint s) (SessionKeyVersion s) (State s) (EstimatedBytes s) (ReceivedBytes s)
    (AttemptedBytes s) (RestoreID s) (Purpose s) (SourceAgentURL s) (SessionKeepLast s)
    (SessionFencing s) (SessionCreatedAt s) (SessionUpdatedAt s) (ExpiresAt s)
    (SessionFailure s).

Definition second : Z := 1000000000.
Definition hour : Z := 3600 * second.

Definition defaultEstimatedBytes : Z := 2 ^ 30.

Definition quotaLimit (estimated : Z) : Z :=
  let estimated := if estimated <=? 0 then defaultEstimatedBytes else estimated in
  int64 (estimated + estimated /' 20).

Definition attemptLimit (estimated : Z) : Z :=
  let estimated := if estimated <=? 0 then defaultEstimatedBytes else estimated in
  int64 (int64 (3 * estimated) + 96 * 2 ^ 20).

Definition sessionExpired (s : Session) (now : Z) : bool :=
  (ExpiresAt s <? now) && negb (bool_decide (State s = SessionCommitted)) &&
  negb (bool_decide (State s = SessionRolledBack)).

Definition terminalState (st : SessionState) : bool :=
  match st with SessionCommitted | SessionRolledBack | SessionFailed => true | _ => false end.

Definition requireState (s : Session) (allowed : list SessionState) : bool :=
  bool_decide (State s ∈ allowed).

(** ** The store *)

Abbreviation store := (gmap string Session).

Definition errOtherSource : string := "transfer belongs to another source machine".
Definition errExpired : string := "transfer reservation expired".
Definition errPersist : string := "could not persist".

(** [records.List]: the values in the order of their keys. *)
Definition sorted_values (m : store) : list Session :=
  snd <$> merge_sort (λ a b, Is_true (String.leb a.1 b.1)) (map_to_list m).

Definition mark_expired (now : Z) (s : Session) : Session :=
  s <| State := SessionFailed |> <| SessionFailure := "incoming transfer reservation expired" |>
    <| SessionUpdatedAt := now |>.

(** One turn of the loop of [ReapExpired]: the store, how many sessions were
    marked, and those that had restored a workload. *)
Definition reap_one (now : Z) (put_ok : string → bool) (acc : store * Z * list Session)
    (s : Session) : store * Z * list Session :=
  let '(m, reaped, restored) := acc in
  if sessionExpired s now && put_ok (ID s) then
    let s' := mark_expired now s in
    (<[ID s := s']> m, reaped + 1,
     if decide (RestoreID s' = "") then restored else restored ++ [s'])
  else acc.

(** [ReapExpired] up to the restore handler. *)
Definition ReapExpired (now : Z) (put_ok : string → bool) (m : store) : store * Z * list Session :=
  foldl (reap_one now put_ok) (m, 0, []) (sorted_values m).

(** The record [Reserve] creates: at most 24 hours, two by default, and never
    without an estimate. *)
Definition fresh_session (now : Z) (s : Session) : Session :=
  s <| State := SessionReserved |> <| SessionCreatedAt := now |> <| SessionUpdatedAt := now |>
    <| EstimatedBytes := if EstimatedBytes s <=? 0 then defaultEstimatedBytes
                         else EstimatedBytes s |>
    <| ExpiresAt := if (ExpiresAt s =? 0) || (now + 24 * hour <? ExpiresAt s) then now + 2 * hour
                    else ExpiresAt s |>.

(** [Reserve]. *)
Definition Reserve (now : Z) (ok : bool) (s : Session) (m : store) : store * result Session :=
  if bool_decide (ID s = "" ∨ SessionSource s = "" ∨ SessionWorkload s = "") then
    (m, Err "session id, source machine, and workload are required")
  else if negb (validPurpose (Purpose s)) then (m, Err "unknown transfer purpose")
  else
    match m !! ID s with
    | Some existing =>
        if bool_decide (SessionSource existing ≠ SessionSource s ∨
                        SessionWorkload existing ≠ SessionWorkload s) then
          (m, Err "transfer id is already bound to another source or workload")
        else if negb (bool_decide (Purpose existing = Purpose s)) then
          (m, Err "transfer id is already bound to another purpose")
        else if sessionExpired existing now || terminalState (State existing) then
          (m, Err "transfer id is expired or already used")
        else (m, Ok existing)
    | None =>
        let s := fresh_session now s in
        if ok then (<[ID s := s]> m, Ok s) else (m, Err errPersist)
    end.

(** [Update] and [UpdateCleanup], the latter without the expiry gate. *)
Definition update_session (gate : bool) (now : Z) (ok : bool) (id source : string)
    (update : Session → result Session) (m : store) : store * result Session :=
  match m !! id with
  | None => (m, Err errNotFound)
  | Some s =>
      if negb (bool_decide (SessionSource s = source)) then (m, Err errOtherSource)
      else if gate && sessionExpired s now then (m, Err errExpired)
      else
        match update s with
        | Err e => (m, Err e)
        | Ok s' =>
            let s' := s' <| SessionUpdatedAt := now |> in
            if ok then (<[id := s']> m, Ok s') else (m, Err errPersist)
        end
  end.
Definition UpdateSession := update_session true.
Definition UpdateCleanup := update_session false.

(** [Get] and [GetForCleanup]. *)
Definition get_session (gate : bool) (now : Z) (id source : string) (m : store) : result Session :=
  match m !! id with
  | None => Err errNotFound
  | Some s =>
      if negb (bool_decide (SessionSource s = source)) then Err errOtherSource
      else if gate && sessionExpired s now then Err errExpired
      else Ok s
  end.
Definition GetSession := get_session true.
Definition GetForCleanup := get_session false.

(** ** Helpers of the handlers *)

(** [UniqueChunks]: the first reference to each address under each key. *)
Fixpoint unique_refs (seen : list (Z * string)) (refs : list ChunkRef) : list ChunkRef :=
  match refs with
  | [] => []
  | r :: rest =>
      if decide ((KeyVersion r, Address r) ∈ seen) then unique_refs seen rest
      else r :: unique_refs ((KeyVersion r, Address r) :: seen) rest
  end.
Definition UniqueChunks (assets : list AssetManifest) : list ChunkRef :=
  unique_refs [] (assets ≫= Chunks).

Definition safe_char (a : ascii) : bool :=
  let n := N_of_ascii a in
  ((97 <=? n) && (n <=? 122) || (65 <=? n) && (n <=? 90) || (48 <=? n) && (n <=? 57) ||
   (n =? 45) || (n =? 95))%N.

(** [validCheckpointID]. *)
Definition validCheckpointID (id : string) : bool :=
  let n := Z.of_nat (String.length id) in
  negb (n =? 0) && (n <=? 64) && forallb safe_char (String.list_ascii_of_string id).

(** [manifestContainsChunk]. *)
Definition manifestContainsChunk (m : CheckpointManifest) (c : ChunkRef) : bool :=
  existsb (λ r, bool_decide (Address r = Address c) && (KeyVersion r =? KeyVersion c) &&
                (StoredSize r =? StoredSize c) && bool_decide (CipherSHA256 r = CipherSHA256 c) &&
                bool_decide (PlainSHA256 r = PlainSHA256 c)) (UniqueChunks (Assets m)).

(** ** What the server calls *)

(** The destination's other components.  [BE] is what their environment (the
    disk, the kernel) answers. *)
Class Backend (B BE : Type) := {
  ImportWorkloadKey : BE → B → string → Z → string → B * result unit;
  VerifyManifest : CheckpointManifest → result unit;
  SaveManifest : BE → B → CheckpointManifest → B * result unit;
  LoadManifest : BE → B → string → result CheckpointManifest;
  MissingChunks : BE → B → list ChunkRef → result (list ChunkRef);
  FreeBytes : BE → B → result Z;
  ImportChunkResult : BE → B → string → ChunkRef → B * result bool;
  ValidateAsset : BE → B → string → AssetManifest → result unit;
  Inspect : BE → B → result (list Z);
  Prepare : BE → B → string → Z → B * result string;
  CommitRestore : BE → B → string → B * result unit;
  RollbackRestore : BE → B → string → B * result unit;
  GetRestore : BE → B → string → result unit;
}.

Inductive body :=
| BSession (s : Session)
| BMissing (missing : list ChunkRef) (deduplicated : Z)
| BRestore (restoreID : string)
| BWithdrawn.

Inductive response :=
| Reply (status : Z) (b : body)
| Refuse (status : Z) (code : string).

Record ReserveRequest := {
  RequestID : string;
  RequestSource : string;
  RequestWorkload : string;
  RequestEstimate : Z;
  RequestExpiresAt : Z;
  RequestPurpose : string;
}.

Record KeyRequest := { KeyWorkload : string; KeyRequestVersion : Z; KeyBytes : option string }.

Record HoldRequest := {
  HoldKeepLast : Z;
  HoldSourceAgentURL : string;
  HoldFencingProvider : string;
}.

(** What the router extracts from a chunk upload: the [version] element when
    it parses, and the decoded reference header. *)
Record ChunkRequest := {
  ChunkVersion : option Z;
  ChunkAddress : string;
  ChunkHeader : option ChunkRef;
}.

Definition TransferChannelEgress : string := "egress".
Definition TransferChannelRestore : string := "restore".
Definition freeSpaceFloor : Z := 512 * 2 ^ 20.

Definition errTransferQuota : string := "incoming transfer exceeded its reserved size".
Definition errAlreadyCommitted : string := "transfer session is already committed".
Definition errAlreadyHeld : string := "transfer session is already held".
Definition errTransferStateInvalid : string := "transfer state invalid".

Section server.
Context {B BE : Type} `{Bk : !Backend B BE}.

(** The fields of [Server] that [NewServer], [SetTransferMeter] and
    [SetReplicationWatcher] fix, and Go's URL parser. *)
Context (organizationID : string) (has_meter has_watcher : bool)
        (url_Parse : string → result URL).

(** The store, the backend, and what reached the meter and the watcher. *)
Record server := {
  sessions : store;
  backend : B;
  metered : list (string * string * string * Z);
  held : list Session;
  withdrawn : list (string * string);
}.
#[export] Instance server_eta : Eta server := fun s =>
  Build_server (sessions s) (backend s) (metered s) (held s) (withdrawn s).

(** What the environment answers at one action. *)
Record answer := {
  now : Z;
  store_ok : bool;
  put_ok : string → bool;
  slot : bool;
  back : BE;
}.

#[local] Abbreviation handler := (thread server answer).

(** *** Actions *)

Definition load {A} (f : answer → server → A) : handler A := atomic (λ e s, (s, f e s)).

Definition on_store {A} (f : answer → store → store * A) : handler A :=
  atomic (λ e s, let '(m, a) := f e (sessions s) in (s <| sessions := m |>, a)).

Definition on_backend {A} (f : BE → B → B * A) : handler A :=
  atomic (λ e s, let '(b, a) := f (back e) (backend s) in (s <| backend := b |>, a)).

Definition Get_ (id source : string) : handler (result Session) :=
  load (λ e s, GetSession (now e) id source (sessions s)).
Definition GetForCleanup_ (id source : string) : handler (result Session) :=
  load (λ e s, GetForCleanup (now e) id source (sessions s)).
Definition Update_ (id source : string) (f : Session → result Session) : handler (result Session) :=
  on_store (λ e m, UpdateSession (now e) (store_ok e) id source f m).
Definition UpdateCleanup_ (id source : string) (f : Session → result Session)
    : handler (result Session) :=
  on_store (λ e m, UpdateCleanup (now e) (store_ok e) id source f m).

(** [meterCompletion]. *)
Definition meterCompletion (s : Session) (channel : string) : handler unit :=
  if negb has_meter || bool_decide (OrganizationID s = "") || (ReceivedBytes s <=? 0) then mret tt
  else atomic (λ _ st, (st <| metered :=
                              metered st ++ [(ID s, OrganizationID s, channel, ReceivedBytes s)] |>, tt)).

(** [rollbackReapedRestore] on each reaped session that had restored. *)
Fixpoint rollbackReapedRestores (restored : list Session) : handler unit :=
  match restored with
  | [] => mret tt
  | s :: rest =>
      _ ← on_backend (λ e b, RollbackRestore e b (RestoreID s));
      rollbackReapedRestores rest
  end.

Definition reapExpired : handler unit :=
  restored ← on_store (λ e m, let '(m', _, restored) := ReapExpired (now e) (put_ok e) m in
                              (m', restored));
  rollbackReapedRestores restored.

(** *** Handlers *)

(** [withAuth]: the authenticated machine, or no handler at all. *)
Definition withAuth (peer : option string) (next : string → handler response) : handler response :=
  match peer with
  | None => mret (Refuse 401 "PEER_AUTHENTICATION_FAILED")
  | Some machineID =>
      if decide (machineID = "") then mret (Refuse 401 "PEER_AUTHENTICATION_FAILED")
      else next machineID
  end.

(** [reserve]. *)
Definition reserve (input : option ReserveRequest) (source : string) : handler response :=
  match input with
  | None => mret (Refuse 400 "INVALID_JSON")
  | Some input =>
      if negb (bool_decide (RequestSource input = source)) then
        mret (Refuse 403 "SOURCE_IDENTITY_MISMATCH")
      else if negb (validPurpose (RequestPurpose input)) then mret (Refuse 400 "PURPOSE_INVALID")
      else if RequestEstimate input <? 0 then mret (Refuse 400 "ESTIMATE_INVALID")
      else
        _ ← reapExpired;
        capabilities ← load (λ e s, Inspect (back e) (backend s));
        match capabilities with
        | Err _ => mret (Refuse 500 "INVENTORY_FAILED")
        | Ok storage =>
            let largestAvailable := foldl Z.max 0 storage in
            if (0 <? RequestEstimate input) && (largestAvailable <? RequestEstimate input) then
              mret (Refuse 507 "STORAGE_INSUFFICIENT")
            else
              session ← on_store (λ e m, Reserve (now e) (store_ok e)
                {| ID := RequestID input; SessionSource := source;
                   SessionWorkload := RequestWorkload input; OrganizationID := organizationID;
                   SessionCheckpoint := ""; SessionKeyVersion := 0; State := SessionReserved;
                   EstimatedBytes := RequestEstimate input; ReceivedBytes := 0;
                   AttemptedBytes := 0; RestoreID := ""; Purpose := RequestPurpose input;
                   SourceAgentURL := ""; SessionKeepLast := 0; SessionFencing := "";
                   SessionCreatedAt := 0; SessionUpdatedAt := 0;
                   ExpiresAt := RequestExpiresAt input; SessionFailure := "" |} m);
              match session with
              | Err _ => mret (Refuse 409 "RESERVATION_REJECTED")
              | Ok s => mret (Reply 201 (BSession s))
              end
        end
  end.

(** [importKey]; a key that is not 32 bytes of base64 is [None]. *)
Definition importKey (id : string) (input : option KeyRequest) (source : string)
    : handler response :=
  match input with
  | None => mret (Refuse 400 "INVALID_JSON")
  | Some input =>
      session ← Get_ id source;
      match session with
      | Err _ => mret (Refuse 404 "TRANSFER_NOT_FOUND")
      | Ok session =>
          if negb (bool_decide (SessionWorkload session = KeyWorkload input)) then
            mret (Refuse 409 "WORKLOAD_MISMATCH")
          else
            match KeyBytes input with
            | None => mret (Refuse 400 "INVALID_KEY")
            | Some key =>
                imported ← on_backend (λ e b, ImportWorkloadKey e b (KeyWorkload input)
                                                (KeyRequestVersion input) key);
                match imported with
                | Err _ => mret (Refuse 409 "KEY_IMPORT_FAILED")
                | Ok _ =>
                    updated ← Update_ (ID session) source (λ v,
                      if requireState v [SessionReserved; SessionKeyReady] then
                        Ok (v <| SessionKeyVersion := KeyRequestVersion input |>
                              <| State := SessionKeyReady |>)
                      else Err errTransferStateInvalid);
                    match updated with
                    | Err _ => mret (Refuse 409 "TRANSFER_STATE_INVALID")
                    | Ok s => mret (Reply 200 (BSession s))
                    end
                end
            end
      end
  end.

(** [importManifest]. *)
Definition importManifest (id : string) (input : option CheckpointManifest) (source : string)
    : handler response :=
  match input with
  | None => mret (Refuse 400 "INVALID_JSON")
  | Some manifest =>
      session ← Get_ id source;
      match session with
      | Err _ => mret (Refuse 404 "TRANSFER_NOT_FOUND")
      | Ok session =>
          if negb (requireState session [SessionKeyReady; SessionManifestReady]) then
            mret (Refuse 409 "TRANSFER_STATE_INVALID")
          else if bool_decide (SourceIdentityID manifest ≠ source ∨
                               SpecID (ManifestWorkload manifest) ≠ SessionWorkload session ∨
                               SecurityKeyVersion (Security manifest) ≠ SessionKeyVersion session)
          then mret (Refuse 403 "MANIFEST_IDENTITY_MISMATCH")
          else if negb (validCheckpointID (ManifestID manifest)) then
            mret (Refuse 400 "MANIFEST_INVALID")
          else if bool_decide (SessionCheckpoint session ≠ "" ∧
                               SessionCheckpoint session ≠ ManifestID manifest) then
            mret (Refuse 409 "MANIFEST_REPLACED")
          else if negb (is_ok (VerifyManifest manifest)) then mret (Refuse 400 "MANIFEST_INVALID")
          else
            saved ← on_backend (λ e b, SaveManifest e b manifest);
            match saved with
            | Err _ => mret (Refuse 409 "MANIFEST_IMPORT_FAILED")
            | Ok _ =>
                let refs := UniqueChunks (Assets manifest) in
                missing ← load (λ e s, MissingChunks (back e) (backend s) refs);
                match missing with
                | Err _ => mret (Refuse 500 "CHUNK_INVENTORY_FAILED")
                | Ok missing =>
                    let addresses := Address <$> missing in
                    let deduplicated :=
                      foldl (λ total r, if decide (Address r ∈ addresses) then total
                                        else int64 (total + PlainSize r)) 0 refs in
                    updated ← Update_ (ID session) source (λ v,
                      Ok (v <| SessionCheckpoint := ManifestID manifest |>
                            <| State := SessionManifestReady |>));
                    match updated with
                    | Err _ => mret (Refuse 500 "TRANSFER_PERSIST_FAILED")
                    | Ok _ => mret (Reply 200 (BMissing missing deduplicated))
                    end
                end
            end
      end
  end.

(** [loadSessionManifest]. *)
Definition loadSessionManifest (session : Session) : handler (result CheckpointManifest) :=
  if negb (validCheckpointID (SessionCheckpoint session)) then
    mret (Err "session checkpoint id is not a safe identifier")
  else load (λ e s, LoadManifest (back e) (backend s) (SessionCheckpoint session)).

(** The serialized quota gate of [importChunk]. *)
Definition quota_gate (ref : ChunkRef) (v : Session) : result Session :=
  if quotaLimit (EstimatedBytes v) <? int64 (ReceivedBytes v + StoredSize ref) then
    Err errTransferQuota
  else if attemptLimit (EstimatedBytes v) <? int64 (AttemptedBytes v + StoredSize ref) then
    Err errTransferQuota
  else Ok (v <| AttemptedBytes := int64 (AttemptedBytes v + StoredSize ref) |>
             <| ReceivedBytes := int64 (ReceivedBytes v + StoredSize ref) |>).

(** The part of [importChunk] after the authorization checks. *)
Definition ingest (session : Session) (source : string) (ref : ChunkRef) : handler response :=
  free ← load (λ e s, FreeBytes (back e) (backend s));
  if match free with Ok n => n <? freeSpaceFloor | Err _ => false end then
    mret (Refuse 507 "STORAGE_INSUFFICIENT")
  else
    acquired ← load (λ e _, slot e);
    if negb acquired then mret (Refuse 503 "CHUNK_IMPORT_BUSY")
    else
      gated ← Update_ (ID session) source (quota_gate ref);
      match gated with
      | Err err =>
          mret (if decide (err = errTransferQuota) then Refuse 507 "TRANSFER_QUOTA_EXCEEDED"
                else Refuse 500 "TRANSFER_PERSIST_FAILED")
      | Ok session =>
          imported ← on_backend (λ e b, ImportChunkResult e b (SessionWorkload session) ref);
          session ← (if bool_decide (imported = Ok true) then mret session
                     else
                       updated ← Update_ (ID session) source (λ v,
                         Ok (v <| ReceivedBytes := int64 (ReceivedBytes v - StoredSize ref) |>));
                       mret (match updated with Ok s => s | Err _ => session end));
          mret (match imported with
                | Err _ => Refuse 400 "CHUNK_IMPORT_FAILED"
                | Ok _ => Reply 200 (BSession session)
                end)
      end.

(** [importChunk]. *)
Definition importChunk (id : string) (request : ChunkRequest) (source : string)
    : handler response :=
  session ← Get_ id source;
  match session with
  | Err _ => mret (Refuse 404 "TRANSFER_NOT_FOUND")
  | Ok session =>
      if negb (requireState session [SessionKeyReady; SessionManifestReady]) then
        mret (Refuse 409 "TRANSFER_STATE_INVALID")
      else if negb (bool_decide (ChunkVersion request = Some (SessionKeyVersion session))) then
        mret (Refuse 400 "KEY_VERSION_INVALID")
      else
        match ChunkHeader request with
        | None => mret (Refuse 400 "CHUNK_REF_INVALID")
        | Some ref =>
            if bool_decide (Address ref ≠ ChunkAddress request ∨
                            Some (KeyVersion ref) ≠ ChunkVersion request) then
              mret (Refuse 400 "CHUNK_REF_INVALID")
            else if decide (SessionCheckpoint session = "") then ingest session source ref
            else
              manifest ← loadSessionManifest session;
              match manifest with
              | Err _ => mret (Refuse 500 "MANIFEST_LOAD_FAILED")
              | Ok m =>
                  if negb (manifestContainsChunk m ref) then mret (Refuse 403 "CHUNK_NOT_AUTHORIZED")
                  else ingest session source ref
              end
        end
  end.

Fixpoint validate_assets (workload : string) (assets : list AssetManifest) : handler (result unit) :=
  match assets with
  | [] => mret (Ok tt)
  | a :: rest =>
      valid ← load (λ e s, ValidateAsset (back e) (backend s) workload a);
      match valid with
      | Err e => mret (Err e)
      | Ok _ => validate_assets workload rest
      end
  end.

(** [verify]. *)
Definition verify (id : string) (source : string) : handler response :=
  session ← Get_ id source;
  match session with
  | Err _ => mret (Refuse 404 "TRANSFER_NOT_FOUND")
  | Ok session =>
      if negb (requireState session [SessionManifestReady; SessionVerified]) then
        mret (Refuse 409 "TRANSFER_STATE_INVALID")
      else
        manifest ← loadSessionManifest session;
        match manifest with
        | Err _ => mret (Refuse 500 "MANIFEST_LOAD_FAILED")
        | Ok m =>
            valid ← validate_assets (SessionWorkload session) (Assets m);
            match valid with
            | Err _ => mret (Refuse 422 "CHECKPOINT_CORRUPT")
            | Ok _ =>
                updated ← Update_ (ID session) source (λ v, Ok (v <| State := SessionVerified |>));
                match updated with
                | Err _ => mret (Refuse 500 "TRANSFER_PERSIST_FAILED")
                | Ok s => mret (Reply 200 (BSession s))
                end
            end
        end
  end.

(** [restore]; a body that is absent asks for the default timeout. *)
Definition restore (id : string) (input : option Z) (source : string) : handler response :=
  match input with
  | None => mret (Refuse 400 "INVALID_JSON")
  | Some timeoutSeconds =>
      session ← Get_ id source;
      match session with
      | Err _ => mret (Refuse 404 "TRANSFER_NOT_FOUND")
      | Ok session =>
          if bool_decide (State session = SessionRestored ∧ RestoreID session ≠ "") then
            record ← load (λ e s, GetRestore (back e) (backend s) (RestoreID session));
            match record with
            | Err _ => mret (Refuse 500 "RESTORE_STATE_MISSING")
            | Ok _ => mret (Reply 200 (BRestore (RestoreID session)))
            end
          else if negb (requireState session [SessionVerified]) then
            mret (Refuse 409 "TRANSFER_STATE_INVALID")
          else if negb (validCheckpointID (SessionCheckpoint session)) then
            mret (Refuse 409 "TRANSFER_STATE_INVALID")
          else
            prepared ← on_backend (λ e b, Prepare e b (SessionCheckpoint session)
                                            (int64 (timeoutSeconds * second)));
            match prepared with
            | Err why =>
                _ ← UpdateCleanup_ (ID session) source (λ v,
                      Ok (v <| State := SessionFailed |> <| SessionFailure := why |>));
                mret (Refuse 422 "RESTORE_FAILED")
            | Ok restoreID =>
                updated ← Update_ (ID session) source (λ v,
                  Ok (v <| State := SessionRestored |> <| RestoreID := restoreID |>));
                match updated with
                | Err _ =>
                    _ ← on_backend (λ e b, RollbackRestore e b restoreID);
                    mret (Refuse 500 "TRANSFER_PERSIST_FAILED")
                | Ok _ => mret (Reply 200 (BRestore restoreID))
                end
            end
      end
  end.

(** The state change of [commit], checked inside the serialized update. *)
Definition commit_update (v : Session) : result Session :=
  if decide (State v = SessionCommitted) then Err errAlreadyCommitted
  else if negb (requireState v [SessionRestored]) then Err errTransferStateInvalid
  else Ok (v <| State := SessionCommitted |>).

(** [commit]. *)
Definition commit (id : string) (source : string) : handler response :=
  session ← Get_ id source;
  match session with
  | Err _ => mret (Refuse 404 "TRANSFER_NOT_FOUND")
  | Ok session =>
      if decide (State session = SessionCommitted) then mret (Reply 200 (BSession session))
      else if negb (requireState session [SessionRestored]) then
        mret (Refuse 409 "TRANSFER_STATE_INVALID")
      else
        committed ← on_backend (λ e b, CommitRestore e b (RestoreID session));
        match committed with
        | Err _ => mret (Refuse 500 "RESTORE_COMMIT_FAILED")
        | Ok _ =>
            updated ← Update_ (ID session) source commit_update;
            match updated with
            | Err err =>
                if decide (err = errAlreadyCommitted) then
                  current ← Get_ (ID session) source;
                  mret (Reply 200 (BSession (match current with Ok s => s | Err _ => session end)))
                else if decide (err = errTransferStateInvalid) then
                  mret (Refuse 409 "TRANSFER_STATE_INVALID")
                else mret (Refuse 500 "TRANSFER_PERSIST_FAILED")
            | Ok session =>
                _ ← meterCompletion session TransferChannelEgress;
                mret (Reply 200 (BSession session))
            end
        end
  end.

(** [rollback]. *)
Definition rollback (id : string) (source : string) : handler response :=
  session ← GetForCleanup_ id source;
  match session with
  | Err _ => mret (Refuse 404 "TRANSFER_NOT_FOUND")
  | Ok session =>
      if decide (State session = SessionCommitted) then
        mret (Refuse 409 "TRANSFER_ALREADY_COMMITTED")
      else
        rolledBack ← (if decide (RestoreID session = "") then mret (Ok tt)
                      else on_backend (λ e b, RollbackRestore e b (RestoreID session)));
        match rolledBack with
        | Err _ => mret (Refuse 500 "RESTORE_ROLLBACK_FAILED")
        | Ok _ =>
            updated ← UpdateCleanup_ (ID session) source
                        (λ v, Ok (v <| State := SessionRolledBack |>));
            match updated with
            | Err _ => mret (Refuse 500 "TRANSFER_PERSIST_FAILED")
            | Ok s => mret (Reply 200 (BSession s))
            end
        end
  end.

(** The state change of [hold], checked inside the serialized update. *)
Definition hold_update (input : HoldRequest) (v : Session) : result Session :=
  if decide (State v = SessionHeld) then Err errAlreadyHeld
  else if negb (requireState v [SessionVerified]) then Err errTransferStateInvalid
  else Ok (v <| State := SessionHeld |> <| SessionKeepLast := HoldKeepLast input |>
             <| SourceAgentURL := HoldSourceAgentURL input |>
             <| SessionFencing := HoldFencingProvider input |>).

Definition plain_https (u : string) : bool :=
  match url_Parse u with
  | Err _ => false
  | Ok p => bool_decide (Scheme p = "https") && negb (bool_decide (Host p = "")) &&
            bool_decide (RawQuery p = "") && bool_decide (Fragment p = "")
  end.

Definition notify_held (s : Session) : handler response :=
  _ ← atomic (λ _ st, (st <| held := held st ++ [s] |>, tt));
  mret (Reply 200 (BSession s)).

(** [hold]. *)
Definition hold (id : string) (input : option HoldRequest) (source : string) : handler response :=
  if negb has_watcher then mret (Refuse 503 "STANDBY_NOT_AVAILABLE")
  else
    match input with
    | None => mret (Refuse 400 "INVALID_JSON")
    | Some input =>
        if HoldKeepLast input <? 0 then mret (Refuse 400 "HOLD_INVALID")
        else if negb (bool_decide (HoldSourceAgentURL input = "")) &&
                negb (plain_https (HoldSourceAgentURL input)) then mret (Refuse 400 "HOLD_INVALID")
        else
          session ← Get_ id source;
          match session with
          | Err _ => mret (Refuse 404 "TRANSFER_NOT_FOUND")
          | Ok session =>
              if decide (State session = SessionHeld) then notify_held session
              else if negb (bool_decide (Purpose session = PurposeReplication)) then
                mret (Refuse 409 "TRANSFER_STATE_INVALID")
              else if negb (requireState session [SessionVerified]) then
                mret (Refuse 409 "TRANSFER_STATE_INVALID")
              else
                updated ← Update_ (ID session) source (hold_update input);
                match updated with
                | Err err =>
                    if decide (err = errAlreadyHeld) then
                      current ← Get_ (ID session) source;
                      notify_held (match current with Ok s => s | Err _ => session end)
                    else if decide (err = errTransferStateInvalid) then
                      mret (Refuse 409 "TRANSFER_STATE_INVALID")
                    else mret (Refuse 500 "TRANSFER_PERSIST_FAILED")
                | Ok session =>
                    _ ← meterCompletion session TransferChannelRestore;
                    notify_held session
                end
          end
    end.

(** [withdraw]. *)
Definition withdraw (input : option string) (source : string) : handler response :=
  if negb has_watcher then mret (Refuse 503 "STANDBY_NOT_AVAILABLE")
  else
    match input with
    | None => mret (Refuse 400 "INVALID_JSON")
    | Some workloadID =>
        if decide (TrimSpace workloadID = "") then mret (Refuse 400 "WITHDRAW_INVALID")
        else
          _ ← atomic (λ _ st, (st <| withdrawn := withdrawn st ++ [(source, workloadID)] |>, tt));
          mret (Reply 200 BWithdrawn)
    end.

(** [get] and [getCleanup]. *)
Definition get_ (id : string) (source : string) : handler response :=
  session ← Get_ id source;
  mret (match session with
        | Err _ => Refuse 404 "TRANSFER_NOT_FOUND"
        | Ok s => Reply 200 (BSession s)
        end).
Definition getCleanup (id : string) (source : string) : handler response :=
  session ← GetForCleanup_ id source;
  mret (match session with
        | Err _ => Refuse 404 "TRANSFER_NOT_FOUND"
        | Ok s => Reply 200 (BSession s)
        end).

(** A request of the peer API, as the router dispatches it. *)
Inductive request :=
| QReserve (input : option ReserveRequest)
| QKey (id : string) (input : option KeyRequest)
| QManifest (id : string) (input : option CheckpointManifest)
| QChunk (id : string) (input : ChunkRequest)
| QVerify (id : string)
| QRestore (id : string) (input : option Z)
| QCommit (id : string)
| QRollback (id : string)
| QHold (id : string) (input : option HoldRequest)
| QWithdraw (input : option string)
| QGet (id : string)
| QGetCleanup (id : string).

Definition dispatch (q : request) (source : string) : handler response :=
  match q with
  | QReserve i => reserve i source
  | QKey id i => importKey id i source
  | QManifest id i => importManifest id i source
  | QChunk id i => importChunk id i source
  | QVerify id => verify id source
  | QRestore id i => restore id i source
  | QCommit id => commit id source
  | QRollback id => rollback id source
  | QHold id i => hold id i source
  | QWithdraw i => withdraw i source
  | QGet id => get_ id source
  | QGetCleanup id => getCleanup id source
  end.

(** [Handler]. *)
Definition Handler (peer : option string) (q : request) : handler response :=
  withAuth peer (dispatch q).
End server.

(** ** Isolation of sources

    What requests that are not from machine [A] can do to the store. *)

Definition wf_store (m : store) : Prop := ∀ id s, m !! id = Some s → ID s = id.

(** The fields no operation changes after the reservation. *)
Definition same_identity (x y : Session) : Prop :=
  ID y = ID x ∧ SessionSource y = SessionSource x ∧ SessionWorkload y = SessionWorkload x ∧
  OrganizationID y = OrganizationID x ∧ Purpose y = Purpose x ∧
  EstimatedBytes y = EstimatedBytes x ∧ SessionCreatedAt y = SessionCreatedAt x ∧
  ExpiresAt y = ExpiresAt x.

(** Nothing, or the expiry of the reservation. *)
Definition at_most_expired (x y : Session) : Prop :=
  y = x ∨ ∃ n, sessionExpired x n = true ∧ y = mark_expired n x.

(** What may happen to the record under one key. *)
Definition entry_evolves (A : string) (x y : option Session) : Prop :=
  match x, y with
  | Some x, Some y => same_identity x y ∧ (SessionSource x = A → at_most_expired x y)
  | Some _, None => False
  | None, Some y => SessionSource y ≠ A
  | None, None => True
  end.

Definition evolves (A : string) (m m' : store) : Prop :=
  wf_store m → wf_store m' ∧ ∀ id, entry_evolves A (m !! id) (m' !! id).

#[export] Instance at_most_expired_preorder : PreOrder at_most_expired.
Proof.
  split; [by left|]. intros x y z [->|(n & Hn & ->)] [->|(n' & Hn' & ->)];
    [by left|right; eauto..|]. right. exists n'. split; [|done].
  unfold sessionExpired in *. simpl in *. to_prop. rewrite !bool_decide_false by done.
  rewrite !andb_true_r. by apply Z.ltb_lt.
Qed.

#[export] Instance evolves_preorder A : PreOrder (evolves A).
Proof.
  split.
  - intros m Hwf. split; [done|]. intros id. unfold entry_evolves.
    destruct (m !! id); [|done]. split; [by repeat split|done].
  - intros m1 m2 m3 H12 H23 Hwf. destruct (H12 Hwf) as [Hwf2 E12]. destruct (H23 Hwf2) as [Hwf3 E23].
    split; [done|]. intros id. specialize (E12 id). specialize (E23 id). unfold entry_evolves in *.
    destruct (m1 !! id) as [x|], (m2 !! id) as [y|], (m3 !! id) as [z|]; try done.
    + destruct E12 as [I12 X12], E23 as [I23 X23]. split.
      * unfold same_identity in *. naive_solver congruence.
      * intros HA. etrans; [by apply X12|]. apply X23. destruct I12 as (_ & -> & _). done.
    + destruct E23 as [(?&?&_) _]. congruence.
Qed.

(** A change of one record. *)
Lemma evolves_insert A m id x y :
  m !! id = Some x → same_identity x y → (SessionSource x = A → at_most_expired x y) →
  evolves A m (<[id := y]> m).
Proof.
  intros Hx Hid Hex Hwf. split.
  - intros i s Hs. apply lookup_insert_Some in Hs as [[<- <-]|[? Hs]]; [|by apply Hwf].
    destruct Hid as [-> _]. by apply Hwf.
  - intros i. destruct (decide (i = id)) as [->|Hi].
    + rewrite lookup_insert_eq, Hx. by split.
    + rewrite lookup_insert_ne by done. unfold entry_evolves. destruct (m !! i); [|done].
      split; [by repeat split|done].
Qed.

Lemma evolves_fresh A m s :
  m !! ID s = None → SessionSource s ≠ A → evolves A m (<[ID s := s]> m).
Proof.
  intros Hx Hs Hwf. split.
  - intros i s' Hs'. apply lookup_insert_Some in Hs' as [[<- <-]|[? Hs']]; [done|by apply Hwf].
  - intros i. destruct (decide (i = ID s)) as [->|Hi].
    + by rewrite lookup_insert_eq, Hx.
    + rewrite lookup_insert_ne by done. unfold entry_evolves. destruct (m !! i); [|done].
      split; [by repeat split|done].
Qed.

Lemma elem_sorted_values m s : s ∈ sorted_values m ↔ ∃ id, m !! id = Some s.
Proof.
  unfold sorted_values. rewrite list_elem_of_fmap.
  setoid_rewrite merge_sort_Permutation. split.
  - intros ([i x] & -> & H). exists i. by apply elem_of_map_to_list.
  - intros (i & H). exists (i, s). split; [done|]. by apply elem_of_map_to_list.
Qed.

(** The reaper only marks expired sessions. *)
Definition reaped_at (now : Z) (m m' : store) : Prop :=
  ∀ id, match m !! id with
        | Some x => m' !! id = Some x ∨
                    sessionExpired x now = true ∧ m' !! id = Some (mark_expired now x)
        | None => m' !! id = None
        end.

Lemma reap_loop now put_ok m l acc :
  (∀ s, s ∈ l → m !! ID s = Some s) → reaped_at now m acc.1.1 →
  reaped_at now m (foldl (reap_one now put_ok) acc l).1.1.
Proof.
  revert acc. induction l as [|s l IH]; intros [[m0 n] r] Hl Hacc; [done|]. simpl.
  apply IH; [intros s' Hs'; apply Hl; by right|]. unfold reap_one.
  destruct (sessionExpired s now && put_ok (ID s)) eqn:E; [|done]. to_prop.
  intros id. specialize (Hacc id). simpl in *.
  pose proof (Hl s ltac:(by left)) as Hs. destruct (decide (id = ID s)) as [->|Hi].
  - rewrite Hs, lookup_insert_eq. by right.
  - by rewrite lookup_insert_ne.
Qed.

Lemma ReapExpired_marks now put_ok m :
  wf_store m → reaped_at now m (ReapExpired now put_ok m).1.1.
Proof.
  intros Hwf. apply reap_loop.
  - intros s Hs. apply elem_sorted_values in Hs as [id Hid]. by rewrite (Hwf id s Hid).
  - intros id. simpl. destruct (m !! id); auto.
Qed.

Lemma reaped_wf now m m' : wf_store m → reaped_at now m m' → wf_store m'.
Proof.
  intros Hwf Hr id s Hs. specialize (Hr id). destruct (m !! id) as [x|] eqn:E; [|congruence].
  apply Hwf in E. destruct Hr as [Hr|[_ Hr]]; simplify_eq; done.
Qed.

Lemma evolves_ReapExpired A now put_ok m : evolves A m (ReapExpired now put_ok m).1.1.
Proof.
  intros Hwf. pose proof (ReapExpired_marks now put_ok m Hwf) as Hr.
  split; [by eapply reaped_wf|]. intros id. specialize (Hr id). unfold entry_evolves.
  destruct (m !! id) as [x|]; [|by rewrite Hr].
  destruct Hr as [->|[He ->]]; (split; [by repeat split|]); intros _; [by left|right; eauto].
Qed.

Lemma evolves_Reserve A now ok s m :
  SessionSource s ≠ A → evolves A m (Reserve now ok s m).1.
Proof.
  intros HA. unfold Reserve. repeat (case_match; try done). by apply evolves_fresh.
Qed.

(** An update callback that keeps the identity of a session. *)
Definition keeps_identity (f : Session → result Session) : Prop :=
  ∀ v v', f v = Ok v' → same_identity v v'.

Lemma evolves_update A gate now ok id source f m :
  source ≠ A → keeps_identity f → evolves A m (update_session gate now ok id source f m).1.
Proof.
  intros HA Hf. unfold update_session. destruct (m !! id) as [x|] eqn:Hx; [|done].
  repeat (case_match; try done); to_prop; simpl.
  eapply evolves_insert; [done| |naive_solver].
  match goal with H : f x = Ok _ |- _ => apply Hf in H end. done.
Qed.

Section isolation.
Context {B BE : Type} `{Bk : !Backend B BE}.
Context (organizationID : string) (has_meter has_watcher : bool)
        (url_Parse : string → result URL) (A : string).

(** The guarantee of a thread on the store of the server. *)
Definition on_sessions (s s' : server (B := B)) : Prop := evolves A (sessions s) (sessions s').

#[local] Instance on_sessions_preorder : PreOrder on_sessions.
Proof.
  split; [intros s; unfold on_sessions; reflexivity|].
  intros s1 s2 s3 ? ?. unfold on_sessions in *. by etrans.
Qed.

#[local] Abbreviation guar := (@guarantees (server (B := B)) (answer (BE := BE)) on_sessions _).

Lemma guar_load {X} (f : answer (BE := BE) → server (B := B) → X) : guar (load f).
Proof. apply guarantees_atomic. intros e s. simpl. reflexivity. Qed.

Lemma guar_on_backend {X} (f : BE → B → B * X) : guar (on_backend f).
Proof.
  apply guarantees_atomic. intros e s. destruct (f (back e) (backend s)).
  unfold on_sessions. simpl. reflexivity.
Qed.

Lemma guar_on_store {X} (f : answer (BE := BE) → store → store * X) :
  (∀ e m, evolves A m (f e m).1) → guar (on_store f).
Proof.
  intros H. apply guarantees_atomic. intros e s. specialize (H e (sessions s)).
  by destruct (f e (sessions s)).
Qed.

Lemma guar_Update id source f : source ≠ A → keeps_identity f → guar (Update_ id source f).
Proof. intros. apply guar_on_store. intros. by apply evolves_update. Qed.

Lemma guar_UpdateCleanup id source f :
  source ≠ A → keeps_identity f → guar (UpdateCleanup_ id source f).
Proof. intros. apply guar_on_store. intros. by apply evolves_update. Qed.

Lemma guar_meter s channel : guar (meterCompletion has_meter s channel).
Proof.
  unfold meterCompletion. case_match; [done|]. apply guarantees_atomic.
  intros e st. unfold on_sessions. simpl. reflexivity.
Qed.

Lemma guar_reapExpired : guar reapExpired.
Proof.
  apply guarantees_bind.
  - apply guar_on_store. intros e m. pose proof (evolves_ReapExpired A (now e) (put_ok e) m).
    by destruct (ReapExpired (now e) (put_ok e) m) as [[m' n] r].
  - intros restored. induction restored as [|s rest IH]; [done|].
    apply guarantees_bind; [apply guar_on_backend|done].
Qed.

Lemma guar_validate workload assets : guar (validate_assets workload assets).
Proof.
  induction assets as [|a assets IH]; [done|]. apply guarantees_bind; [apply guar_load|].
  by intros [|].
Qed.
Lemma guar_notify s : guar (notify_held s).
Proof.
  apply guarantees_bind; [|done]. apply guarantees_atomic. intros e st.
  unfold on_sessions. simpl. reflexivity.
Qed.

(** The callbacks of the handlers keep the identity of the session. *)
Lemma keeps_quota_gate ref : keeps_identity (quota_gate ref).
Proof. intros v v' H. unfold quota_gate in H. repeat case_match; simplify_eq. by repeat split. Qed.
Lemma keeps_commit : keeps_identity commit_update.
Proof. intros v v' H. unfold commit_update in H. repeat case_match; simplify_eq. by repeat split. Qed.
Lemma keeps_hold i : keeps_identity (hold_update i).
Proof. intros v v' H. unfold hold_update in H. repeat case_match; simplify_eq. by repeat split. Qed.

Create HintDb isolation.
#[local] Hint Resolve guar_load guar_on_backend guar_meter guar_reapExpired guar_validate
  guar_notify guar_Update guar_UpdateCleanup keeps_quota_gate keeps_commit keeps_hold
  guarantees_ret : isolation.

(** Walk a handler: every action is one of the above. *)
Ltac walk :=
  repeat (first
    [ exact I
    | progress auto with isolation
    | apply guar_Update; [done|by intros ? ? ?; repeat case_match; simplify_eq; repeat split]
    | apply guar_UpdateCleanup; [done|by intros ? ? ?; repeat case_match; simplify_eq; repeat split]
    | apply guarantees_bind; [|intros ?]
    | case_match ]).

Lemma guar_ingest session source ref : source ≠ A → guar (ingest session source ref).
Proof. intros. unfold ingest. walk. Qed.

Lemma guar_loadManifest session : guar (loadSessionManifest session).
Proof. unfold loadSessionManifest. walk. Qed.

#[local] Hint Resolve guar_ingest guar_loadManifest : isolation.

Lemma guar_dispatch q source :
  source ≠ A → guar (dispatch organizationID has_meter has_watcher url_Parse q source).
Proof.
  intros HA. destruct q; unfold dispatch, reserve, importKey, importManifest, importChunk, verify,
    restore, commit, rollback, hold, withdraw, get_, getCleanup, Get_, GetForCleanup_; walk.
  - apply guar_on_store. intros. by apply evolves_Reserve.
  - apply guarantees_atomic. intros e st. unfold on_sessions. simpl. reflexivity.
Qed.

(** Requests authenticated as a machine other than [A], or not at all. *)
Definition foreign (t : thread (server (B := B)) (answer (BE := BE)) response) : Prop :=
  ∃ peer q, peer ≠ Some A ∧
    t = Handler organizationID has_meter has_watcher url_Parse peer q.

Lemma guar_foreign t : foreign t → guar t.
Proof.
  intros (peer & q & HA & ->). unfold Handler, withAuth. destruct peer as [p|]; [|done].
  case_match; [done|]. apply guar_dispatch. congruence.
Qed.

(** C23.  Sources are isolated.  Whatever requests other machines
    send, however their handlers interleave and whatever the environment
    answers, the sessions machine [A] reserved are never created, removed or
    rebound by them, and the only change any of them can undergo is to be
    marked failed once its own reservation has expired. *)
Theorem sources_isolated (c c' : system response) :
  wf_store (sessions (shared c)) → threads c = [] → rtc (sys_step foreign) c c' →
  wf_store (sessions (shared c')) ∧
  ∀ id, match sessions (shared c) !! id, sessions (shared c') !! id with
        | Some x, Some y => same_identity x y ∧ (SessionSource x = A → at_most_expired x y)
        | Some _, None => False
        | None, Some y => SessionSource y ≠ A
        | None, None => True
        end.
Proof.
  intros Hwf Hts Hr.
  destruct (interleaving_guarantee on_sessions foreign c c') as [HG _]; try done.
  - apply guar_foreign.
  - rewrite Hts. constructor.
  - by apply HG.
Qed.
End isolation.
