(* ===== verification/SessionLife.v ===== *)
(** * The life of a transfer session ([internal/transfer])

    A request served while no other is, run to its end or cut short by a crash
    of the process: which states a session can still reach, what a handler may
    do to the session it read, and which chunks reach the chunk store.
    [SessionTraffic] builds on it for requests that overlap. *)
From S2P Require Import Prelude Prog GoStr Model Workload Conc Session.

(** ** States *)

(** The states a session in state [a] can still reach. *)
Definition leads (a b : SessionState) : bool :=
  match a with
  | SessionReserved => true
  | SessionKeyReady => negb (bool_decide (b = SessionReserved))
  | SessionManifestReady => negb (bool_decide (b ∈ [SessionReserved; SessionKeyReady]))
  | SessionVerified =>
      negb (bool_decide (b ∈ [SessionReserved; SessionKeyReady; SessionManifestReady]))
  | SessionHeld => bool_decide (b ∈ [SessionHeld; SessionRolledBack; SessionFailed])
  | SessionRestored =>
      bool_decide (b ∈ [SessionRestored; SessionCommitted; SessionRolledBack; SessionFailed])
  | SessionFailed => bool_decide (b ∈ [SessionFailed; SessionRolledBack])
  | SessionCommitted => bool_decide (b = SessionCommitted)
  | SessionRolledBack => bool_decide (b = SessionRolledBack)
  end.

Lemma leads_refl a : leads a a = true.
Proof. by destruct a. Qed.
Lemma leads_trans a b c : leads a b = true → leads b c = true → leads a c = true.
Proof. by destruct a, b, c. Qed.

(** The states in which a session may have been billed. *)
Definition billable (st : SessionState) : bool :=
  bool_decide (st ∈ [SessionHeld; SessionCommitted; SessionRolledBack; SessionFailed]).

Lemma billable_leads a b : billable a = true → leads a b = true → billable b = true.
Proof. by destruct a, b. Qed.

Abbreviation meter_log := (list (string * string * string * Z)).

(** How often session [id] was billed. *)
Definition billed (log : meter_log) (id : string) : nat :=
  length (filter (λ entry, entry.1.1.1 = id) log).

Definition lifecycle (m m' : store) : Prop :=
  ∀ id x, m !! id = Some x →
    ∃ y, m' !! id = Some y ∧ leads (State x) (State y) = true ∧
         (State x = SessionCommitted → y = x).

(** The store is keyed by session id and no session was billed twice. *)
Definition consistent (m : store) (log : meter_log) : Prop :=
  wf_store m ∧
  ∀ id, match m !! id with
        | None => billed log id = 0%nat
        | Some x => (billed log id ≤ 1)%nat ∧ (billed log id ≠ 0%nat → billable (State x) = true)
        end.

#[export] Instance lifecycle_preorder : PreOrder lifecycle.
Proof.
  split.
  - intros m id x Hx. exists x. by rewrite leads_refl.
  - intros m1 m2 m3 H12 H23 id x Hx. destruct (H12 id x Hx) as (y & Hy & Lxy & Cxy).
    destruct (H23 id y Hy) as (z & Hz & Lyz & Cyz). exists z. split; [done|].
    split; [by eapply leads_trans|]. intros Hc. specialize (Cxy Hc). subst y. by apply Cyz.
Qed.

(** What one request may have done so far to a store that was [m0]. *)
Definition progressed (m0 m : store) (log : meter_log) : Prop :=
  consistent m log ∧ lifecycle m0 m.

Lemma progressed_insert m0 m log id x y :
  progressed m0 m log → m !! id = Some x → ID y = ID x → leads (State x) (State y) = true →
  State x ≠ SessionCommitted → progressed m0 (<[id := y]> m) log.
Proof.
  intros [[Hwf Hb] Hl] Hx Hid Hlead Hnc. split; [split|].
  - intros i s Hs. apply lookup_insert_Some in Hs as [[<- <-]|[? Hs]]; [|by apply Hwf].
    rewrite Hid. by apply Hwf.
  - intros i. specialize (Hb i). destruct (decide (i = id)) as [->|Hi].
    + rewrite lookup_insert_eq. rewrite Hx in Hb. destruct Hb as [Hb1 Hb2]. split; [done|].
      intros Hn. eapply billable_leads; [by apply Hb2|done].
    + by rewrite lookup_insert_ne.
  - etrans; [exact Hl|]. intros i s Hs. destruct (decide (i = id)) as [->|Hi].
    + rewrite lookup_insert_eq. exists y. split; [done|]. simplify_eq. done.
    + rewrite lookup_insert_ne by done. exists s. by rewrite leads_refl.
Qed.

Lemma progressed_fresh m0 m log s :
  progressed m0 m log → m !! ID s = None → progressed m0 (<[ID s := s]> m) log.
Proof.
  intros [[Hwf Hb] Hl] Hx. split; [split|].
  - intros i s' Hs. apply lookup_insert_Some in Hs as [[<- <-]|[? Hs]]; [done|by apply Hwf].
  - intros i. specialize (Hb i). destruct (decide (i = ID s)) as [->|Hi].
    + rewrite lookup_insert_eq. rewrite Hx in Hb. rewrite Hb. split; [lia|done].
    + by rewrite lookup_insert_ne.
  - etrans; [exact Hl|]. intros i s' Hs. rewrite lookup_insert_ne by congruence.
    exists s'. by rewrite leads_refl.
Qed.

Lemma progressed_Reserve m0 m log now ok s :
  progressed m0 m log → progressed m0 (Reserve now ok s m).1 log.
Proof.
  intros H. unfold Reserve. repeat (case_match; try done).
  by apply (progressed_fresh _ _ _ (fresh_session now s)).
Qed.

Lemma progressed_reap m0 m log now put_ok :
  progressed m0 m log → progressed m0 (ReapExpired now put_ok m).1.1 log.
Proof.
  intros [[Hwf Hb] Hl]. pose proof (ReapExpired_marks now put_ok m Hwf) as Hr.
  assert (lifecycle m (ReapExpired now put_ok m).1.1) as Hl'.
  { intros id x Hx. specialize (Hr id). rewrite Hx in Hr. destruct Hr as [->|[He ->]].
    - exists x. by rewrite leads_refl.
    - exists (mark_expired now x). split; [done|]. unfold sessionExpired in He. to_prop.
      split; [|done]. simpl. by destruct (State x). }
  split; [split; [by eapply reaped_wf|]|by etrans]. intros id. specialize (Hb id).
  destruct (m !! id) as [x|] eqn:Hx.
  - destruct (Hl' id x Hx) as (y & -> & Hlead & _). destruct Hb as [Hb1 Hb2]. split; [done|].
    intros Hn. eapply billable_leads; [by apply Hb2|done].
  - specialize (Hr id). rewrite Hx in Hr. by rewrite Hr.
Qed.

Lemma billed_snoc log entry id :
  billed (log ++ [entry]) id =
  (billed log id + if decide (entry.1.1.1 = id) then 1 else 0)%nat.
Proof.
  unfold billed. rewrite filter_app, length_app, filter_cons, filter_nil.
  by destruct (decide (entry.1.1.1 = id)).
Qed.

(** Billing a session that was not billed before. *)
Lemma progressed_bill m0 m log x entry :
  progressed m0 m log → m !! entry.1.1.1 = Some x → billed log entry.1.1.1 = 0%nat →
  billable (State x) = true → progressed m0 m (log ++ [entry]).
Proof.
  intros [[Hwf Hb] Hl] Hx H0 Hbl. split; [split; [done|]|done]. intros id.
  specialize (Hb id). rewrite billed_snoc.
  destruct (decide (entry.1.1.1 = id)) as [<-|Hne]; simpl.
  - rewrite Hx in *. rewrite H0. split; [lia|done].
  - by rewrite Nat.add_0_r.
Qed.

(** ** The session machine

    What a handler that runs alone may do to a session it read: the abstract
    machine the handlers implement. *)

Section machine.
(** What is assumed of the chunk references and estimates peers send, and
    what every stored session satisfies. *)
Context (okref : ChunkRef → Prop) (okest : Z → Prop) (stored : Session → Prop).

Inductive session_update : Session → Session → Prop :=
| U_key v version :
    State v = SessionReserved ∨ State v = SessionKeyReady →
    session_update v (v <| SessionKeyVersion := version |> <| State := SessionKeyReady |>)
| U_manifest v checkpoint :
    State v = SessionKeyReady ∨ State v = SessionManifestReady →
    session_update v (v <| SessionCheckpoint := checkpoint |> <| State := SessionManifestReady |>)
| U_gate v ref v' :
    State v = SessionKeyReady ∨ State v = SessionManifestReady → okref ref →
    quota_gate ref v = Ok v' → session_update v v'
| U_release v0 ref v n :
    State v0 = SessionKeyReady ∨ State v0 = SessionManifestReady → okref ref → stored v0 →
    quota_gate ref v0 = Ok v →
    session_update (v <| SessionUpdatedAt := n |>)
      (v <| SessionUpdatedAt := n |> <| ReceivedBytes := int64 (ReceivedBytes v - StoredSize ref) |>)
| U_verify v :
    State v = SessionManifestReady ∨ State v = SessionVerified →
    session_update v (v <| State := SessionVerified |>)
| U_restored v restoreID :
    State v = SessionVerified →
    session_update v (v <| State := SessionRestored |> <| RestoreID := restoreID |>)
| U_restore_failed v why :
    State v = SessionVerified →
    session_update v (v <| State := SessionFailed |> <| SessionFailure := why |>)
| U_hold v keep url fencing :
    State v = SessionVerified →
    session_update v (v <| State := SessionHeld |> <| SessionKeepLast := keep |>
                        <| SourceAgentURL := url |> <| SessionFencing := fencing |>)
| U_commit v :
    State v = SessionRestored → session_update v (v <| State := SessionCommitted |>)
| U_rollback v :
    State v ≠ SessionCommitted → session_update v (v <| State := SessionRolledBack |>).

(** A request the peer may send under the assumptions. *)
Definition admissible (q : request) : Prop :=
  match q with
  | QReserve (Some input) => okest (RequestEstimate input)
  | QChunk _ input => ∀ ref, ChunkHeader input = Some ref → okref ref
  | _ => True
  end.
End machine.

(** ** One handler at a time *)

Section serial.
Context {B BE : Type} `{Bk : !Backend B BE}.
Context (organizationID : string) (has_meter has_watcher : bool)
        (url_Parse : string → result URL).

Context (okref : ChunkRef → Prop) (okest : Z → Prop) (stored : Session → Prop).

(** An invariant [Inv] of the store and the meter that every step of the
    machine keeps; [Unbilled] is what it knows of a session not billed yet. *)
Context (Inv : store → meter_log → Prop) (Unbilled : string → meter_log → Prop).
Hypothesis Inv_stored : ∀ m log id x, Inv m log → m !! id = Some x → stored x.
Hypothesis Inv_wf : ∀ m log, Inv m log → wf_store m.
Hypothesis Inv_update : ∀ m log id x y n,
  Inv m log → m !! id = Some x → session_update okref stored x y →
  Inv (<[id := y <| SessionUpdatedAt := n |>]> m) log.
Hypothesis Inv_reserve : ∀ m log now ok s,
  Inv m log → okest (EstimatedBytes s) → ReceivedBytes s = 0 → AttemptedBytes s = 0 →
  RestoreID s = "" → Inv (Reserve now ok s m).1 log.
Hypothesis Inv_reap : ∀ m log now put_ok, Inv m log → Inv (ReapExpired now put_ok m).1.1 log.
Hypothesis Inv_unbilled : ∀ m log id x,
  Inv m log → m !! id = Some x → State x = SessionRestored ∨ State x = SessionVerified →
  Unbilled id log.
Hypothesis Inv_bill : ∀ m log x entry,
  Inv m log → m !! entry.1.1.1 = Some x → Unbilled entry.1.1.1 log →
  State x = SessionCommitted ∨ State x = SessionHeld → Inv m (log ++ [entry]).

#[local] Abbreviation server := (server (B := B)).
#[local] Abbreviation answer := (answer (BE := BE)).

(** An assertion on the store and the meter; the backend is not mentioned. *)
Definition view (P : store → meter_log → Prop) (s : server) : Prop := P (sessions s) (metered s).

(** From [P], the handler leaves a state of the invariant wherever it stops. *)
Definition runs (P : store → meter_log → Prop) {R} (t : thread server answer R) : Prop :=
  triple (λ _, True) (view P) (alone t) (λ _, view Inv) (view Inv).

(** Session [x] is stored under [id]; [u] says it has not been billed yet. *)
Definition own (id : string) (u : bool) (x : Session) (m : store) (log : meter_log) : Prop :=
  Inv m log ∧ m !! id = Some x ∧ (u = true → Unbilled id log).

Lemma own_inv id u x m log : own id u x m log → Inv m log.
Proof. by intros [? _]. Qed.

Section rules.
Context {R : Type}.

Lemma runs_ret (P : store → meter_log → Prop) (a : R) :
  (∀ m log, P m log → Inv m log) → runs P (mret a).
Proof. intros H. apply alone_ret. intros s. apply H. Qed.

(** An action that touches neither the store nor the meter. *)
Lemma runs_silent {X} (P : store → meter_log → Prop) (f : answer → server → server * X)
    (k : X → thread server answer R) :
  (∀ e s, sessions (fst (f e s)) = sessions s ∧ metered (fst (f e s)) = metered s) →
  (∀ m log, P m log → Inv m log) → (∀ a, runs P (k a)) →
  runs P (atomic f ≫= k).
Proof.
  intros Hf HP Hk. eapply (alone_bind _ _ _ _ (λ _, view P)).
  - apply alone_atomic; [intros s; apply HP|]. intros e s _ Hs. unfold view in *.
    destruct (Hf e s) as [-> ->]. done.
  - intros a. apply Hk.
Qed.

Lemma runs_load {X} (P : store → meter_log → Prop) (f : answer → server → X)
    (k : X → thread server answer R) :
  (∀ m log, P m log → Inv m log) → (∀ a, runs P (k a)) →
  runs P (load f ≫= k).
Proof. intros. by apply runs_silent. Qed.

Lemma runs_backend {X} (P : store → meter_log → Prop) (f : BE → B → B * X)
    (k : X → thread server answer R) :
  (∀ m log, P m log → Inv m log) → (∀ a, runs P (k a)) →
  runs P (on_backend f ≫= k).
Proof.
  intros. apply runs_silent; [|done..]. intros e s. by destruct (f (back e) (backend s)).
Qed.

(** Reading a session. *)
Lemma runs_get gate id source (k : result Session → thread server answer R) :
  (∀ err, runs Inv (k (Err err))) →
  (∀ x, ID x = id → runs (own id false x) (k (Ok x))) →
  runs Inv
    (load (λ e s, get_session gate (now e) id source (sessions s)) ≫= k).
Proof.
  intros Herr Hok. apply alone_read; [done|]. intros e s0 _ Hs0. unfold view in Hs0.
  destruct (get_session gate (now e) id source (sessions s0)) as [x|err] eqn:E.
  - unfold get_session in E. destruct (sessions s0 !! id) as [y|] eqn:Hy; [|done].
    repeat case_match; simplify_eq. eapply triple_pre; [|apply Hok].
    + intros s ->. by split.
    + by eapply Inv_wf.
  - eapply triple_pre; [|apply Herr]. by intros s ->.
Qed.

(** Updating a session that is known. *)
Lemma runs_update gate id source f u x (k : result Session → thread server answer R) :
  (∀ y, f x = Ok y → session_update okref stored x y) →
  (∀ err, runs (own id u x) (k (Err err))) →
  (∀ y n, f x = Ok y →
     let y' := y <| SessionUpdatedAt := n |> in runs (own id u y') (k (Ok y'))) →
  runs (own id u x)
    (on_store (λ e m, update_session gate (now e) (store_ok e) id source f m) ≫= k).
Proof.
  intros Hf Herr Hok. eapply (alone_bind _ _ _ _ (λ r, view (match r with
    | Err _ => own id u x
    | Ok y => λ m log, ∃ y0 n, f x = Ok y0 ∧ y = y0 <| SessionUpdatedAt := n |> ∧
                               own id u y m log end))).
  - apply alone_atomic; [intros s; apply own_inv|]. intros e s _ Hs.
    unfold view in *. destruct Hs as (Hp & Hx & Hu). unfold update_session. rewrite Hx.
    destruct (negb _); [done|]. destruct (gate && _); [done|].
    destruct (f x) as [y|err] eqn:Hfx; [|done]. destruct (store_ok e); [|done].
    specialize (Hf y eq_refl). simpl.
    exists y, (now e). split; [done|]. split; [done|].
    split; [|split; [by rewrite lookup_insert_eq|done]].
    by eapply (Inv_update _ _ _ _ y).
  - intros [y|err]; [|apply Herr]. intros s es Hes (y0 & n & Hy & -> & Hown).
    by apply (Hok y0 n Hy s es Hes).
Qed.
End rules.

(** *** Each handler *)

Create HintDb serial.
#[local] Hint Resolve own_inv : serial.

(** A side condition on an update: it is the step [c] of the machine. *)
Ltac edge c :=
  let y := fresh "y" in let Hy := fresh "Hy" in
  intros y Hy; unfold commit_update, hold_update, requireState in *;
  simplify_eq/=; repeat (case_match; simplify_eq/=); to_prop; apply c; first [done | set_solver].

(** Walk through a handler. *)
Ltac walk_serial :=
  repeat first
    [ apply runs_ret; by eauto with serial
    | apply runs_get; [intros ?|intros ? ?]
    | apply runs_backend; [by eauto with serial|intros ?]
    | apply runs_load; [by eauto with serial|intros ?]
    | case_match ].

Lemma runs_meter id x channel {R} (k : unit → thread server answer R) :
  ID x = id → State x = SessionCommitted ∨ State x = SessionHeld → runs Inv (k tt) →
  runs (own id true x) (meterCompletion has_meter x channel ≫= k).
Proof.
  intros Hid Hb Hk. unfold meterCompletion. case_match.
  - eapply triple_pre; [|exact Hk]. intros s. apply own_inv.
  - eapply (alone_bind _ _ _ _ (λ _, view Inv)); [|by intros []].
    apply alone_atomic; [intros s; apply own_inv|]. intros e s _ (Hp & Hx & Hn).
    unfold view. simpl. eapply Inv_bill; [done|by rewrite Hid|by rewrite Hid; apply Hn|done].
Qed.

Lemma runs_notify x (P : store → meter_log → Prop) :
  (∀ m log, P m log → Inv m log) → runs P (notify_held x).
Proof. intros HP. apply runs_silent; [done|done|]. intros ?. by apply runs_ret. Qed.

Lemma runs_reap {R} (k : unit → thread server answer R) :
  runs Inv (k tt) → runs Inv (reapExpired ≫= k).
Proof.
  intros Hk. eapply (alone_bind _ _ _ _ (λ _, view Inv)); [|by intros []].
  eapply (alone_bind _ _ _ _ (λ _, view Inv)).
  - apply alone_atomic; [done|]. intros e s _ Hs. unfold view in *.
    pose proof (Inv_reap _ _ (now e) (put_ok e) Hs) as Hr.
    by destruct (ReapExpired (now e) (put_ok e) (sessions s)) as [[m n] r].
  - intros restored. change (runs Inv (rollbackReapedRestores (B := B) (BE := BE) restored)).
    induction restored as [|x rest IH]; [by apply runs_ret|]. by apply runs_backend.
Qed.

(** A session about to complete was not billed. *)
Lemma own_unbilled id x m log :
  State x = SessionRestored ∨ State x = SessionVerified →
  own id false x m log → own id true x m log.
Proof. intros Hst (Hp & Hx & _). split; [done|]. split; [done|]. intros _. by eapply Inv_unbilled. Qed.

Lemma runs_ingest id x source ref :
  ID x = id → State x = SessionKeyReady ∨ State x = SessionManifestReady → okref ref →
  runs (own id false x) (ingest x source ref).
Proof.
  intros Hid Hst Href. apply (triple_pre _ _ (λ s, stored x ∧ view (own id false x) s)).
  { intros s Hs. split; [|done]. destruct Hs as (Hi & Hx & _). by eapply Inv_stored. }
  apply triple_pure. intros Hstored. change (runs (own id false x) (ingest x source ref)).
  unfold ingest. apply runs_load; [by eauto with serial|]. intros free.
  destruct (match free with Ok n => n <? freeSpaceFloor | Err _ => false end);
    walk_serial. rewrite Hid. apply runs_update.
  - intros y Hy. by apply (U_gate _ _ _ ref).
  - intros err. walk_serial.
  - intros y n Hy y'. apply runs_backend; [by eauto with serial|]. intros imported.
    eapply (alone_bind _ _ _ _ (λ _, view Inv)).
    + case_match; [by apply runs_ret; eauto with serial|].
      assert (ID y' = id) as ->.
      { unfold quota_gate in Hy. repeat case_match; simplify_eq. done. }
      apply runs_update.
      * intros z [= <-]. by apply (U_release _ _ x ref).
      * intros err. walk_serial.
      * intros z n' Hz z'. walk_serial.
    + intros ?. by apply runs_ret.
Qed.

Lemma runs_loadManifest id u x y {R} (k : result CheckpointManifest → thread server answer R) :
  (∀ r, runs (own id u x) (k r)) →
  runs (own id u x) (loadSessionManifest y ≫= k).
Proof.
  intros Hk. unfold loadSessionManifest. case_match; [apply Hk|].
  apply runs_load; [by eauto with serial|done].
Qed.

Lemma runs_validate id u x workload assets {R} (k : result unit → thread server answer R) :
  (∀ r, runs (own id u x) (k r)) →
  runs (own id u x) (validate_assets workload assets ≫= k).
Proof.
  intros Hk. eapply (alone_bind _ _ _ _ (λ _, view (own id u x))); [|done].
  induction assets as [|a assets IH]; cbn [validate_assets]; [by apply alone_ret|].
  apply alone_read; [intros s; apply own_inv|]. intros e s0 _ Hs0.
  case_match; [by eapply triple_pre; [|apply IH]; intros s ->|].
  apply alone_ret. by intros s ->.
Qed.

Lemma runs_reserve input source :
  admissible okref okest (QReserve input) → runs Inv (reserve organizationID input source).
Proof.
  intros Hadm. unfold reserve. destruct input as [input|]; [|walk_serial].
  walk_serial. apply runs_reap. walk_serial.
  eapply (alone_bind _ _ _ _ (λ _, view Inv)).
  - apply alone_atomic; [done|]. intros e s _ Hs. unfold view in *.
    match goal with |- context [Reserve ?n ?ok ?x ?m] =>
      pose proof (Inv_reserve m (metered s) n ok x Hs Hadm eq_refl eq_refl eq_refl) as Hr;
      by destruct (Reserve n ok x m)
    end.
  - intros ?. walk_serial.
Qed.

Lemma runs_importKey id input source :
  runs Inv (importKey id input source).
Proof.
  unfold importKey. destruct input as [input|]; [|walk_serial].
  apply runs_get; [intros; walk_serial|]. intros x <-. walk_serial.
  apply runs_update; [edge U_key| |]; intros; walk_serial.
Qed.

Lemma runs_importManifest id input source :
  runs Inv (importManifest id input source).
Proof.
  unfold importManifest. destruct input as [manifest|]; [|walk_serial].
  apply runs_get; [intros; walk_serial|]. intros x <-. walk_serial.
  apply runs_update; [edge U_manifest| |]; intros; walk_serial.
Qed.

Lemma runs_importChunk id request source :
  admissible okref okest (QChunk id request) → runs Inv (importChunk id request source).
Proof.
  intros Hadm. unfold importChunk. apply runs_get; [intros; walk_serial|]. intros x <-.
  destruct (requireState x _) eqn:Hst; cbn [negb]; [|walk_serial]. case_match; [walk_serial|].
  simpl in Hadm. destruct (ChunkHeader request) as [ref|]; [|walk_serial].
  assert (State x = SessionKeyReady ∨ State x = SessionManifestReady) as Hx
    by (unfold requireState in Hst; to_prop; set_solver).
  case_match; [walk_serial|]. case_match; [apply runs_ingest; auto|].
  apply runs_loadManifest. intros [manifest|]; [|walk_serial]. case_match; [walk_serial|].
  apply runs_ingest; auto.
Qed.

Lemma runs_verify id source : runs Inv (verify id source).
Proof.
  unfold verify. apply runs_get; [intros; walk_serial|]. intros x <-. case_match; [walk_serial|].
  apply runs_loadManifest. intros [manifest|]; [|walk_serial].
  apply runs_validate. intros [|]; [|walk_serial].
  apply runs_update; [edge U_verify| |]; intros; walk_serial.
Qed.

Lemma runs_restore id input source : runs Inv (restore id input source).
Proof.
  unfold restore. destruct input as [timeout|]; [|walk_serial].
  apply runs_get; [intros; walk_serial|]. intros x <-. case_match; [walk_serial|].
  case_match; [walk_serial|]. case_match; [walk_serial|].
  apply runs_backend; [by eauto with serial|]. intros [restoreID|why].
  - apply runs_update; [edge U_restored| |]; intros; walk_serial.
  - apply runs_update; [edge U_restore_failed| |]; intros; walk_serial.
Qed.

Lemma runs_commit id source : runs Inv (commit has_meter id source).
Proof.
  unfold commit. apply runs_get; [intros; walk_serial|]. intros x <-. case_match; [walk_serial|].
  destruct (requireState x _) eqn:Hst; cbn [negb]; [|walk_serial].
  assert (State x = SessionRestored) as Hx
    by (unfold requireState in Hst; to_prop; set_solver).
  apply runs_backend; [by eauto with serial|]. intros [|]; [|walk_serial].
  eapply triple_pre; [intros s; apply own_unbilled; by left|].
  apply runs_update; [edge U_commit| |].
  - intros err. case_match; [apply runs_load; [by eauto with serial|intros; walk_serial]|].
    walk_serial.
  - intros y t Hy y'. assert (ID y' = ID x ∧ State y' = SessionCommitted) as [HID HS].
    { unfold commit_update in Hy. repeat case_match; simplify_eq. done. }
    apply runs_meter; [done|by left|walk_serial].
Qed.

Lemma runs_rollback id source : runs Inv (rollback id source).
Proof.
  unfold rollback. apply runs_get; [intros; walk_serial|]. intros x <-. case_match; [walk_serial|].
  assert (∀ rolledBack : result unit, runs (own (ID x) false x)
    (match rolledBack with
     | Err _ => mret (Refuse 500 "RESTORE_ROLLBACK_FAILED")
     | Ok _ => updated ← UpdateCleanup_ (ID x) source (λ v, Ok (v <| State := SessionRolledBack |>));
               match updated with
               | Err _ => mret (Refuse 500 "TRANSFER_PERSIST_FAILED")
               | Ok s => mret (Reply 200 (BSession s))
               end
     end)) as Hrest.
  { intros [|]; [|walk_serial]. apply runs_update; [edge U_rollback| |]; intros; walk_serial. }
  case_match; [apply (Hrest (Ok tt))|]. apply runs_backend; [by eauto with serial|exact Hrest].
Qed.

Lemma runs_hold id input source :
  runs Inv (hold has_meter has_watcher url_Parse id input source).
Proof.
  unfold hold. case_match; [walk_serial|]. destruct input as [input|]; [|walk_serial].
  case_match; [walk_serial|]. case_match; [walk_serial|].
  apply runs_get; [intros; walk_serial|]. intros x <-.
  case_match; [apply runs_notify; eauto with serial|]. case_match; [walk_serial|].
  destruct (requireState x _) eqn:Hst; cbn [negb]; [|walk_serial].
  assert (State x = SessionVerified) as Hx
    by (unfold requireState in Hst; to_prop; set_solver).
  eapply triple_pre; [intros s; apply own_unbilled; by right|].
  apply runs_update; [edge U_hold| |].
  - intros err. case_match; [|walk_serial].
    apply runs_load; [by eauto with serial|]. intros ?. apply runs_notify; eauto with serial.
  - intros y t Hy y'. assert (ID y' = ID x ∧ State y' = SessionHeld) as [HID HS].
    { unfold hold_update in Hy. repeat case_match; simplify_eq. done. }
    apply runs_meter; [done|by right|]. by apply runs_notify.
Qed.

Lemma runs_Handler peer q :
  admissible okref okest q → runs Inv (Handler organizationID has_meter has_watcher url_Parse peer q).
Proof.
  intros Hadm. unfold Handler, withAuth. destruct peer as [p|]; [|walk_serial].
  case_match; [walk_serial|]. destruct q; unfold dispatch; auto using runs_reserve, runs_importKey, runs_importManifest,
    runs_importChunk, runs_verify, runs_restore, runs_commit, runs_rollback, runs_hold.
  - unfold withdraw. walk_serial. apply runs_silent; [done|done|]. intros. walk_serial.
  - unfold get_. apply runs_load; [done|]. intros. walk_serial.
  - unfold getCleanup. apply runs_load; [done|]. intros. walk_serial.
Qed.

End serial.

(** ** Life cycle and billing *)

Lemma session_update_leads okref stored x y :
  session_update okref stored x y →
  ID y = ID x ∧ leads (State x) (State y) = true ∧ State x ≠ SessionCommitted.
Proof.
  destruct 1 as [v ? [Hs|Hs]|v ? [Hs|Hs]|v ref v' Hs _ Hq|v0 ref v n Hs _ _ Hq|v [Hs|Hs]
                |v ? Hs|v ? Hs|v ? ? ? Hs|v Hs|v Hs]; simpl; rewrite ?Hs; try done.
  - unfold quota_gate in Hq. repeat case_match; simplify_eq. simpl. rewrite leads_refl.
    split; [done|]. split; [done|]. destruct Hs; congruence.
  - unfold quota_gate in Hq. repeat case_match; simplify_eq. simpl. rewrite leads_refl.
    split; [done|]. split; [done|]. destruct Hs; congruence.
  - by destruct (State v).
Qed.

(** ** Quotas *)

(** Chunk sizes and estimates far enough from the ends of [int64]. *)
Definition sane_ref (r : ChunkRef) : Prop := 0 ≤ StoredSize r < 2 ^ 62.
Definition sane_estimate (e : Z) : Prop := e < 2 ^ 60.

Definition within_quota (s : Session) : Prop :=
  0 < EstimatedBytes s < 2 ^ 60 ∧ 0 ≤ ReceivedBytes s ≤ quotaLimit (EstimatedBytes s) ∧
  0 ≤ AttemptedBytes s ≤ attemptLimit (EstimatedBytes s).

Lemma quot20 e : 0 < e → 0 ≤ e /' 20 ≤ e.
Proof.
  intros H. rewrite Z.quot_div_nonneg by lia. split; [apply Z.div_pos; lia|].
  apply Z.div_le_upper_bound; lia.
Qed.

Lemma quotaLimit_value e : 0 < e < 2 ^ 60 → quotaLimit e = e + e /' 20.
Proof.
  intros H. unfold quotaLimit. destruct (Z.leb_spec e 0); [lia|]. apply int64_id.
  unfold in_int64. pose proof (quot20 e). lia.
Qed.

Lemma attemptLimit_value e : 0 < e < 2 ^ 60 → attemptLimit e = 3 * e + 96 * 2 ^ 20.
Proof.
  intros H. unfold attemptLimit. destruct (Z.leb_spec e 0); [lia|].
  rewrite (int64_id (3 * e)) by (unfold in_int64; lia). apply int64_id. unfold in_int64. lia.
Qed.

Lemma quota_bounds e : 0 < e < 2 ^ 60 → 0 < quotaLimit e < 2 ^ 61 ∧ 0 < attemptLimit e < 2 ^ 62.
Proof.
  intros H. rewrite quotaLimit_value, attemptLimit_value by done.
  pose proof (quot20 e). lia.
Qed.

Lemma quota_gate_within ref v v' :
  within_quota v → sane_ref ref → quota_gate ref v = Ok v' →
  within_quota v' ∧ ReceivedBytes v' = ReceivedBytes v + StoredSize ref ∧
  EstimatedBytes v' = EstimatedBytes v ∧ AttemptedBytes v' = AttemptedBytes v + StoredSize ref.
Proof.
  intros (He & Hr & Ha) Href H. destruct (quota_bounds _ He). unfold sane_ref in Href.
  unfold quota_gate in H. repeat case_match; simplify_eq. to_prop.
  rewrite (int64_id (ReceivedBytes v + StoredSize ref)) in * by (unfold in_int64; lia).
  rewrite (int64_id (AttemptedBytes v + StoredSize ref)) in * by (unfold in_int64; lia).
  unfold within_quota. simpl. lia.
Qed.

Lemma fresh_within now s :
  sane_estimate (EstimatedBytes s) → ReceivedBytes s = 0 → AttemptedBytes s = 0 →
  within_quota (fresh_session now s).
Proof.
  intros Hest Hr Ha. unfold sane_estimate in Hest. unfold within_quota. simpl.
  rewrite Hr, Ha. unfold defaultEstimatedBytes. destruct (Z.leb_spec (EstimatedBytes s) 0);
    match goal with |- context [quotaLimit ?e] => destruct (quota_bounds e) end; lia.
Qed.

(** ** Which chunks reach the chunk store *)

Section authorization.
Context {B BE : Type} `{Bk : !Backend B BE}.

(** The chunk store may be asked to take the chunk of the request for session
    [id], when the upload meets the answer [e] first and then [es]. *)
Definition authorized (id source : string) (request : ChunkRequest) (e : answer (BE := BE))
    (es : list (answer (BE := BE))) (s : server (B := B)) : Prop :=
  ∃ x ref v, sessions s !! id = Some x ∧ SessionSource x = source ∧
    (State x = SessionKeyReady ∨ State x = SessionManifestReady) ∧
    sessionExpired x (now e) = false ∧ (∃ e', e' ∈ es ∧ sessionExpired x (now e') = false) ∧
    ChunkHeader request = Some ref ∧ Address ref = ChunkAddress request ∧
    KeyVersion ref = SessionKeyVersion x ∧ quota_gate ref x = Ok v ∧
    (SessionCheckpoint x ≠ "" →
       ∃ e' m, e' ∈ es ∧ LoadManifest (back e') (backend s) (SessionCheckpoint x) = Ok m ∧
               manifestContainsChunk m ref = true).

Section upload.
Context (id source : string) (request : ChunkRequest) (s0 : server (B := B))
        (e0 : answer (BE := BE)) (es0 : list (answer (BE := BE))).

Definition guarded (s : server (B := B)) : Prop :=
  backend s = backend s0 ∨ authorized id source request e0 es0 s0.

#[local] Abbreviation gtriple t :=
  (triple (λ e, e ∈ es0) (λ s, s = s0) (alone t) (λ _, guarded) guarded).

(** A branch that answers without having touched the backend. *)
Ltac unchanged := apply alone_ret; intros ? ->; by left.

Lemma ingest_guarded x ref :
  sessions s0 !! id = Some x → ID x = id →
  (∀ e, e ∈ es0 → sessionExpired x (now e) = false → (∃ v, quota_gate ref x = Ok v) →
     authorized id source request e0 es0 s0) →
  gtriple (ingest x source ref).
Proof.
  intros Hx Hid Hauth. unfold ingest.
  apply alone_read; [intros s ->; by left|]. intros e1 ? _ ->.
  destruct (match FreeBytes (back e1) (backend s0) with Ok n => _ | Err _ => _ end);
    [unchanged|].
  apply alone_read; [intros s ->; by left|]. intros e2 ? _ ->.
  destruct (slot e2); cbn [negb]; [|unchanged].
  rewrite Hid. apply (alone_bind _ _ _ _ (λ r s, backend s = backend s0 ∧
    match r with Ok _ => authorized id source request e0 es0 s0 | Err _ => True end)).
  { apply alone_atomic; [intros s ->; by left|]. intros e ? He ->.
    unfold UpdateSession, update_session. rewrite Hx. repeat (case_match; try done); simplify_eq/=.
    split; [done|]. eauto. }
  intros [y|err].
  - intros s es Hes [_ Ha]. match goal with |- context [alone ?t s es] =>
      pose proof (alone_guarantees (λ e, e ∈ es0) _ (λ _, True) (λ _, True) t (guarantees_any t)
                    ltac:(done) ltac:(done) s es Hes I) as H;
      destruct (alone t s es) as [[[r|] s'] rest]; [|by right] end.
    destruct H as [_ H]. split; [by right|done].
  - apply alone_ret. intros s [Hb _]. by left.
Qed.

(** What follows the lookup of the session. *)
Lemma found_guarded x :
  wf_store (sessions s0) → sessions s0 !! id = Some x → SessionSource x = source →
  sessionExpired x (now e0) = false →
  gtriple
    (if negb (requireState x [SessionKeyReady; SessionManifestReady]) then
       mret (Refuse 409 "TRANSFER_STATE_INVALID")
     else if negb (bool_decide (ChunkVersion request = Some (SessionKeyVersion x))) then
       mret (Refuse 400 "KEY_VERSION_INVALID")
     else
       match ChunkHeader request with
       | None => mret (Refuse 400 "CHUNK_REF_INVALID")
       | Some ref =>
           if bool_decide (Address ref ≠ ChunkAddress request ∨
                           Some (KeyVersion ref) ≠ ChunkVersion request) then
             mret (Refuse 400 "CHUNK_REF_INVALID")
           else if decide (SessionCheckpoint x = "") then ingest x source ref
           else
             manifest ← loadSessionManifest x;
             match manifest with
             | Err _ => mret (Refuse 500 "MANIFEST_LOAD_FAILED")
             | Ok m =>
                 if negb (manifestContainsChunk m ref) then mret (Refuse 403 "CHUNK_NOT_AUTHORIZED")
                 else ingest x source ref
             end
       end).
Proof.
  intros Hwf Hx Hsrc Hlive.
  destruct (requireState x _) eqn:Hst; cbn [negb]; [|unchanged].
  destruct (bool_decide (ChunkVersion request = _)) eqn:Hver; cbn [negb]; [|unchanged].
  destruct (ChunkHeader request) as [ref|] eqn:Href; [|unchanged].
  destruct (bool_decide (_ ∨ _)) eqn:Hbad; [unchanged|].
  unfold requireState in Hst. to_prop.
  assert (Address ref = ChunkAddress request ∧ KeyVersion ref = SessionKeyVersion x) as [Hb1 Hb2].
  { destruct (decide (Address ref = ChunkAddress request));
      destruct (decide (KeyVersion ref = SessionKeyVersion x)); naive_solver congruence. }
  assert (State x = SessionKeyReady ∨ State x = SessionManifestReady) as Hst' by set_solver.
  pose proof (Hwf id x Hx) as Hid.
  case_decide as Hcp.
  - apply ingest_guarded; [done|done|]. intros e He Hl [v Hv]. exists x, ref, v. naive_solver.
  - unfold loadSessionManifest. case_match; [unchanged|].
    apply alone_read; [intros s ->; by left|]. intros e2 ? He2 ->.
    destruct (LoadManifest (back e2) (backend s0) (SessionCheckpoint x)) as [m|] eqn:Hm; [|unchanged].
    destruct (manifestContainsChunk m ref) eqn:Hc; cbn [negb]; [|unchanged].
    apply ingest_guarded; [done|done|]. intros e He Hl [v Hv]. exists x, ref, v. naive_solver.
Qed.
End upload.

Lemma run_load {X R} (f : answer (BE := BE) → server (B := B) → X)
    (k : X → thread (server (B := B)) (answer (BE := BE)) R) e es s :
  run (load f ≫= k) (e :: es) s = run (k (f e s)) es s.
Proof. done. Qed.

(** C32.  Only authorized bytes reach the chunk store.  If an upload that is
    served while no other request is changed anything behind the server, even
    one cut short by a crash, then the session existed, belonged to the
    authenticated machine, was still ingesting and had not expired, neither
    when it was looked up nor when the bytes were charged; the reference named
    the address of the request under the session's key version, the quota gate
    let its size through, and, once a manifest is bound to the session, the
    reference is one of that manifest. *)
Theorem chunk_authorized (id source : string) (request : ChunkRequest)
    (es : list (answer (BE := BE))) (s : server (B := B)) :
  wf_store (sessions s) →
  backend (run (importChunk id request source) es s).1.2 ≠ backend s →
  ∃ e es', es = e :: es' ∧ authorized id source request e es' s.
Proof.
  intros Hwf Hne. destruct es as [|e es]; [done|]. exists e, es. split; [done|].
  unfold importChunk, Get_ in Hne. rewrite run_load in Hne.
  unfold GetSession, get_session in Hne. destruct (sessions s !! id) as [x|] eqn:Hx; [|by destruct es].
  destruct (bool_decide (SessionSource x = source)) eqn:Hsrc; [|by destruct es].
  destruct (sessionExpired x (now e)) eqn:Hl; [by destruct es|]. cbn [negb andb] in Hne. to_prop.
  pose proof (found_guarded id source request s e es x Hwf Hx Hsrc Hl s es) as H.
  unfold alone in H. specialize (H ltac:(by apply Forall_forall) eq_refl).
  destruct (run _ es s) as [[[r|] s'] es']; simpl in *.
  - destruct H as [[H|H] _]; [done|exact H].
  - by destruct H as [H|H].
Qed.
End authorization.

(** ** A concrete destination *)

(** Just enough of a machine to run the handlers: which restored copies run. *)
Record node := { running : list string; stored_chunks : list string }.

#[export] Instance node_backend : Backend node bool := {|
  ImportWorkloadKey _ b _ _ _ := (b, Ok tt);
  VerifyManifest _ := Ok tt;
  SaveManifest _ b _ := (b, Ok tt);
  LoadManifest _ _ _ := Err "not stored";
  MissingChunks _ _ refs := Ok refs;
  FreeBytes _ _ := Ok (2 ^ 40);
  ImportChunkResult ok b _ ref :=
    if StoredSize ref <? 1 then (b, Err "chunk stored size out of range")
    else if (ok : bool) then
      ({| running := running b; stored_chunks := Address ref :: stored_chunks b |}, Ok true)
    else (b, Ok false);
  ValidateAsset _ _ _ _ := Ok tt;
  Inspect _ _ := Ok [2 ^ 40];
  Prepare ok b checkpoint _ :=
    if (ok : bool) then
      ({| running := "restore-1" :: running b; stored_chunks := stored_chunks b |}, Ok "restore-1")
    else (b, Err "restore failed");
  CommitRestore _ b _ := (b, Ok tt);
  RollbackRestore _ b r :=
    ({| running := filter (λ x, x ≠ r) (running b); stored_chunks := stored_chunks b |}, Ok tt);
  GetRestore _ b r := if decide (r ∈ running b) then Ok tt else Err "missing";
|}.

Definition demo_session (st : SessionState) : Session := {|
  ID := "t"; SessionSource := "a"; SessionWorkload := "w"; OrganizationID := "org";
  SessionCheckpoint := "cp"; SessionKeyVersion := 1; State := st; EstimatedBytes := 2 ^ 20;
  ReceivedBytes := 100; AttemptedBytes := 100; RestoreID := ""; Purpose := "";
  SourceAgentURL := ""; SessionKeepLast := 0; SessionFencing := ""; SessionCreatedAt := 1;
  SessionUpdatedAt := 1; ExpiresAt := 2 * hour; SessionFailure := "" |}.

Definition demo_server (st : SessionState) : server (B := node) := {|
  sessions := {["t" := demo_session st]};
  backend := {| running := []; stored_chunks := [] |}; metered := []; held := [];
  withdrawn := [] |}.

(** Every call succeeds, at time [2]. *)
Definition fine : answer (BE := bool) :=
  {| now := 2; store_ok := true; put_ok := λ _, true; slot := true; back := true |}.

Definition demo_ref (size : Z) : ChunkRef := {|
  Address := "c0"; KeyVersion := 1; PlainSize := 10; StoredSize := size; CipherSHA256 := "";
  PlainSHA256 := ""; Sequence := 0; Compression := ""; Encryption := "" |}.

Definition demo_chunk (size : Z) : ChunkRequest :=
  {| ChunkVersion := Some 1; ChunkAddress := "c0"; ChunkHeader := Some (demo_ref size) |}.

Lemma demo_consistent st : consistent (sessions (demo_server st)) (metered (demo_server st)).
Proof.
  split; [intros id x H|intros id]; simpl in *.
  - by apply lookup_singleton_Some in H as [<- <-].
  - destruct (_ !! id); [|done]. unfold billed. simpl. split; [lia|done].
Qed.

(** A session that has its key but no manifest yet. *)
Definition demo_early : server (B := node) :=
  (demo_server SessionKeyReady) <| sessions :=
    {["t" := (demo_session SessionKeyReady) <| SessionCheckpoint := "" |>]} |>.

Lemma chunk_authorized_witness :
  ∃ e es', replicate 9 fine = e :: es' ∧ authorized "t" "a" (demo_chunk 500) e es' demo_early.
Proof.
  apply (chunk_authorized "t" "a" (demo_chunk 500) (replicate 9 fine) demo_early).
  - intros id x H. simpl in H. by apply lookup_singleton_Some in H as [<- <-].
  - vm_compute. discriminate.
Defined.

(** ** What the guarantees do not cover *)

(** A reservation of one maximum chunk, and uploads of a chunk that is stored
    already. *)
Definition demo_small : server (B := node) :=
  (demo_server SessionKeyReady) <| sessions :=
    {["t" := (demo_session SessionKeyReady) <| SessionCheckpoint := "" |>
               <| EstimatedBytes := 96 * 2 ^ 20 |> <| ReceivedBytes := 0 |>
               <| AttemptedBytes := 0 |>]} |>.

Definition present : answer (BE := bool) :=
  {| now := 2; store_ok := true; put_ok := λ _, true; slot := true; back := false |}.

(** The statuses of a sequence of uploads of the given sizes, and the bytes
    the session accounts for as attempted after them. *)
Fixpoint uploads (sizes : list Z) (s : server (B := node)) : list Z * option Z :=
  match sizes with
  | [] => ([], AttemptedBytes <$> sessions s !! "t")
  | size :: rest =>
      let '(r, s', _) := run (importChunk "t" (demo_chunk size) "a") (replicate 9 present) s in
      let '(statuses, attempted) := uploads rest s' in
      (match r with Some (Reply n _) | Some (Refuse n _) => n | None => 0 end :: statuses, attempted)
  end.

(** The attempt ceiling can be lowered away.  With a reservation
    of 96 MiB the fifth upload of a 96 MiB chunk is refused.  But the size a
    reference claims is not checked before it is accounted: one upload that
    claims a negative size is refused by the chunk store while its size stays
    subtracted from the attempted bytes, and the session then accepts as
    many uploads as the peer cares to send. *)
Theorem attempt_ceiling_bypassed :
  let chunk := 96 * 2 ^ 20 in
  uploads (replicate 5 chunk) demo_small = ([200; 200; 200; 200; 507], Some (4 * chunk)) ∧
  uploads (- 2 ^ 62 :: replicate 20 chunk) demo_small =
    (400 :: replicate 20 200, Some (20 * chunk - 2 ^ 62)).
Proof. vm_compute. split; reflexivity. Qed.

(** ** Two handlers at once *)

(** The requests of one machine. *)
Definition from (source : string) (t : thread (server (B := node)) (answer (BE := bool)) response)
    : Prop :=
  ∃ q, t = Handler "org" true false demo_parse (Some source) q.

(** A rollback can overtake a restore.  The handler of [restore]
    checks that the session is verified before it restores the workload, but
    writes RESTORED without looking again.  If the source gives up on a
    restore that is still running and asks for a rollback, the rollback finds
    no restore to undo, marks the session rolled back and answers success;
    the restore then completes, answers success as well, and leaves the
    restored copy running behind a session whose source was told it is gone. *)
Theorem restore_overtaken_by_rollback :
  ∃ c y z,
    rtc (sys_step (from "a")) (Build_system (demo_server SessionVerified) []) c ∧
    threads c = [Done (Reply 200 (BRestore "restore-1")); Done (Reply 200 (BSession y))] ∧
    State y = SessionRolledBack ∧
    sessions (shared c) !! "t" = Some z ∧ State z = SessionRestored ∧
    running (backend (shared c)) = ["restore-1"].
Proof.
  exists (schedule [(0%nat, fine); (1%nat, fine); (1%nat, fine); (0%nat, fine); (0%nat, fine)]
    (Build_system (demo_server SessionVerified)
       [Handler "org" true false demo_parse (Some "a") (QRestore "t" (Some 30));
        Handler "org" true false demo_parse (Some "a") (QRollback "t")])).
  exists ((demo_session SessionVerified) <| SessionUpdatedAt := 2 |> <| State := SessionRolledBack |>).
  exists ((demo_session SessionRestored) <| SessionUpdatedAt := 2 |> <| RestoreID := "restore-1" |>).
  split; [|vm_compute; repeat split].
  etrans; [|apply schedule_steps].
  apply (spawn_steps _ _ []). repeat constructor; by eexists.
Qed.

(** A foreign machine tries to roll back the session of [a]. *)
Definition intruded : system response :=
  schedule [(0%nat, fine); (0%nat, fine)]
    (Build_system (demo_server SessionVerified)
       [Handler "org" true false demo_parse (Some "b") (QRollback "t")]).

Lemma sources_isolated_witness :
  sessions (shared intruded) = sessions (demo_server SessionVerified) ∧
  wf_store (sessions (shared intruded)) ∧
  ∀ id, match sessions (demo_server SessionVerified) !! id, sessions (shared intruded) !! id with
        | Some x, Some y => same_identity x y ∧ (SessionSource x = "a" → at_most_expired x y)
        | Some _, None => False
        | None, Some y => SessionSource y ≠ "a"
        | None, None => True
        end.
Proof.
  split; [vm_compute; reflexivity|].
  apply (sources_isolated "org" true false demo_parse "a"
    (Build_system (demo_server SessionVerified) []) intruded).
  - intros id x H. simpl in H. by apply lookup_singleton_Some in H as [<- <-].
  - reflexivity.
  - etrans; [|apply schedule_steps]. apply (spawn_steps _ _ []).
    repeat constructor. exists (Some "b"), (QRollback "t"). split; [discriminate|reflexivity].
Defined.
