(* ===== verification/SessionTraffic.v ===== *)
(** * Requests of the peer API that overlap ([internal/transfer])

    A destination serves many requests at once.  Here their handlers
    interleave action by action, a request may also be served in one go, and
    the process may die at any moment.  The byte quotas hold however any
    requests overlap, because the quota is checked and charged inside one
    serialized update.  The life cycle and the billing of a session rest on
    checks that [commit], [hold] and [importKey] repeat inside the serialized
    update; the handlers that write a state without looking again
    ([importManifest], [verify], [restore], [rollback]) are served in one go
    there, and the last section shows what happens when they are not. *)
From S2P Require Import Prelude Prog GoStr Model Workload Conc Tokens Session SessionLife.

(** What a handler owes: a session it completed and is about to bill, bytes
    it charged and may give back. *)
Inductive token :=
| Bill (id : string)
| Chunk (id : string) (size : Z).
#[export] Instance token_eq_dec : EqDecision token.
Proof. solve_decision. Defined.

Section traffic.
Context {B BE : Type} `{Bk : !Backend B BE}.
Context (organizationID : string) (has_meter has_watcher : bool)
        (url_Parse : string → result URL).

#[local] Abbreviation server := (server (B := B)).
#[local] Abbreviation answer := (answer (BE := BE)).
#[local] Abbreviation handle := (Handler organizationID has_meter has_watcher url_Parse).

(** Requests that [admits] arrive; those that [mixes] interleave with each
    other, any of them is served in one go (or is cut short in the middle of
    it, when the answers run out), and the process dies with every handler
    that is in flight. *)
Inductive traffic (admits mixes : request → Prop) :
    system (S := server) (E := answer) response → system response → Prop :=
| request_arrives s ts peer q :
    admits q → mixes q →
    traffic admits mixes (Build_system s ts) (Build_system s (ts ++ [handle peer q]))
| handler_acts s ts i f k e :
    ts !! i = Some (Act f k) →
    traffic admits mixes (Build_system s ts) (Build_system (f e s) (<[i := k e s]> ts))
| request_served s ts peer q es :
    admits q →
    traffic admits mixes (Build_system s ts) (Build_system (run (handle peer q) es s).1.2 ts)
| process_dies s ts : traffic admits mixes (Build_system s ts) (Build_system s []).

(** Handlers that arrive together and act in a given order. *)
Lemma traffic_schedule admits mixes (reqs : list (option string * request)) picks s ts :
  Forall (λ r, admits r.2 ∧ mixes r.2) reqs →
  rtc (traffic admits mixes) (Build_system s ts)
    (schedule picks (Build_system s (ts ++ ((λ r, handle r.1 r.2) <$> reqs)))).
Proof.
  intros Hreqs.
  transitivity (Build_system s (ts ++ ((λ r, handle r.1 r.2) <$> reqs))).
  - revert ts. induction Hreqs as [|[peer q] reqs [Ha Hm] _ IH]; intros ts;
      [simpl; rewrite app_nil_r; reflexivity|].
    eapply rtc_l; [by apply request_arrives|]. specialize (IH (ts ++ [handle peer q])).
    rewrite <- app_assoc in IH. exact IH.
  - generalize (ts ++ ((λ r, handle r.1 r.2) <$> reqs)). clear ts Hreqs reqs. revert s.
    induction picks as [|[i e] picks IH]; intros s ts; simpl; [done|].
    destruct (ts !! i) as [[r|f k]|] eqn:Hi; [apply IH| |apply IH].
    eapply rtc_l; [by apply handler_acts|apply IH].
Qed.

(** ** What the handlers keep *)

Section rules.
Context (okref : ChunkRef → Prop) (okest : Z → Prop).
Context (Inv : store → meter_log → list token → Prop) (G : store → store → Prop) `{!PreOrder G}.

(** [plain] changes of a session keep the invariant. *)
Context (plain : Session → Session → Prop).
Hypothesis Inv_wf : ∀ m log toks, Inv m log toks → wf_store m.
Hypothesis Inv_plain : ∀ m log toks id v y n,
  Inv m log toks → m !! id = Some v → plain v y →
  Inv (<[id := y <| SessionUpdatedAt := n |>]> m) log toks ∧
  G m (<[id := y <| SessionUpdatedAt := n |>]> m).
Hypothesis Inv_gate : ∀ m log toks id v ref y n,
  Inv m log toks → m !! id = Some v → okref ref → quota_gate ref v = Ok y →
  Inv (<[id := y <| SessionUpdatedAt := n |>]> m) log (Chunk id (StoredSize ref) :: toks) ∧
  G m (<[id := y <| SessionUpdatedAt := n |>]> m).
Hypothesis Inv_release : ∀ m log toks id v size n,
  Inv m log (Chunk id size :: toks) → m !! id = Some v →
  let y := v <| ReceivedBytes := int64 (ReceivedBytes v - size) |> in
  Inv (<[id := y <| SessionUpdatedAt := n |>]> m) log toks ∧
  G m (<[id := y <| SessionUpdatedAt := n |>]> m).
Hypothesis Inv_complete : ∀ m log toks id v y n,
  Inv m log toks → m !! id = Some v → (commit_update v = Ok y ∨ ∃ input, hold_update input v = Ok y) →
  Inv (<[id := y <| SessionUpdatedAt := n |>]> m) log (Bill id :: toks) ∧
  G m (<[id := y <| SessionUpdatedAt := n |>]> m).
Hypothesis Inv_bill : ∀ m log toks entry,
  Inv m log (Bill entry.1.1.1 :: toks) → Inv m (log ++ [entry]) toks.
Hypothesis Inv_reserve : ∀ m log toks now ok s,
  Inv m log toks → okest (EstimatedBytes s) → ReceivedBytes s = 0 → AttemptedBytes s = 0 →
  Inv (Reserve now ok s m).1 log toks ∧ G m (Reserve now ok s m).1.
Hypothesis Inv_reap : ∀ m log toks now put_ok, Inv m log toks →
  Inv (ReapExpired now put_ok m).1.1 log toks ∧ G m (ReapExpired now put_ok m).1.1.
Hypothesis plain_key : ∀ v version,
  State v = SessionReserved ∨ State v = SessionKeyReady →
  plain v (v <| SessionKeyVersion := version |> <| State := SessionKeyReady |>).

Definition books (s : server) (toks : list token) : Prop := Inv (sessions s) (metered s) toks.
Definition moves (s s' : server) : Prop := G (sessions s) (sessions s').

#[local] Instance moves_preorder : PreOrder moves.
Proof.
  split; [intros s; unfold moves; reflexivity|]. intros s1 s2 s3 ? ?. unfold moves in *. by eapply transitivity.
Qed.

Lemma moves_refl s : moves s s.
Proof. reflexivity. Qed.

Definition keeps {R} (toks : list token) (t : thread server answer R) : Prop :=
  obeys books moves toks t (λ _ _, True).

Lemma keeps_ret {R} toks (a : R) : keeps toks (mret a).
Proof. exact I. Qed.

(** An action that touches neither the store nor the meter. *)
Lemma keeps_silent {X R} toks (f : answer → server → server * X) (k : X → thread server answer R) :
  (∀ e s, sessions (fst (f e s)) = sessions s ∧ metered (fst (f e s)) = metered s) →
  (∀ a, keeps toks (k a)) → keeps toks (atomic f ≫= k).
Proof.
  intros Hf Hk. apply (obeys_bind _ _ _ _ _ (λ _ toks', toks' = toks)); [|intros a ? ->; apply Hk].
  apply obeys_atomic. intros e s rest Hi. exists toks. unfold books, moves in *.
  destruct (Hf e s) as [-> ->]. by split_and!.
Qed.

Lemma keeps_load {X R} toks (f : answer → server → X) (k : X → thread server answer R) :
  (∀ a, keeps toks (k a)) → keeps toks (load f ≫= k).
Proof. intros. by apply keeps_silent. Qed.

Lemma keeps_backend {X R} toks (f : BE → B → B * X) (k : X → thread server answer R) :
  (∀ a, keeps toks (k a)) → keeps toks (on_backend f ≫= k).
Proof. intros. apply keeps_silent; [|done]. intros e s. by destruct (f (back e) (backend s)). Qed.

Lemma keeps_get {R} toks gate id source (k : result Session → thread server answer R) :
  (∀ err, keeps toks (k (Err err))) → (∀ x, ID x = id → keeps toks (k (Ok x))) →
  keeps toks (load (λ e s, get_session gate (now e) id source (sessions s)) ≫= k).
Proof.
  intros Herr Hok. apply (obeys_bind _ _ _ _ _ (λ r toks', toks' = toks ∧
    match r with Ok x => ID x = id | Err _ => True end)).
  - apply obeys_atomic. intros e s rest Hi. exists toks. simpl. split; [done|]. split; [apply moves_refl|].
    split; [done|]. unfold get_session. destruct (sessions s !! id) as [y|] eqn:Hy; [|done].
    repeat case_match; simplify_eq; try done. by eapply Inv_wf.
  - intros [x|err] toks' [-> Hx]; [by apply Hok|apply Herr].
Qed.

(** An update that turns the tokens [toks] into [toks']. *)
Lemma keeps_update {R} toks toks' gate id source f (k : result Session → thread server answer R) :
  (∀ m log rest v y n, Inv m log (toks ++ rest) → m !! id = Some v → f v = Ok y →
     Inv (<[id := y <| SessionUpdatedAt := n |>]> m) log (toks' ++ rest) ∧
     G m (<[id := y <| SessionUpdatedAt := n |>]> m)) →
  (∀ err, keeps toks (k (Err err))) →
  (∀ v y n, ID v = id → f v = Ok y → keeps toks' (k (Ok (y <| SessionUpdatedAt := n |>)))) →
  keeps toks (on_store (λ e m, update_session gate (now e) (store_ok e) id source f m) ≫= k).
Proof.
  intros Hf Herr Hok. apply (obeys_bind _ _ _ _ _ (λ r ts, match r with
    | Ok z => ts = toks' ∧ ∃ v y n, ID v = id ∧ f v = Ok y ∧ z = y <| SessionUpdatedAt := n |>
    | Err _ => ts = toks end)).
  - apply obeys_atomic. intros e s rest Hi.
    assert (∃ ts, Inv (sessions s) (metered s) (ts ++ rest) ∧ moves s s ∧ ts = toks) as Hsame
      by (exists toks; split_and!; [done|apply moves_refl|done]).
    unfold update_session. destruct (sessions s !! id) as [v|] eqn:Hv; [|done].
    destruct (negb _); [done|]. destruct (gate && _); [done|].
    destruct (f v) as [y|err] eqn:Hfv; [|done]. destruct (store_ok e); [|done].
    exists toks'. destruct (Hf _ _ rest v y (now e) Hi Hv Hfv) as [Hi' HG]. simpl.
    split; [done|]. split; [done|]. split; [done|]. exists v, y, (now e). split; [by apply (Inv_wf _ _ _ Hi)|done].
  - intros [z|err] ts; [|intros ->; apply Herr]. intros (-> & v & y & n & Hv & Hy & ->). by eapply Hok.
Qed.

Lemma keeps_plain {R} toks gate id source f (k : result Session → thread server answer R) :
  (∀ v y, f v = Ok y → plain v y) → (∀ r, keeps toks (k r)) →
  keeps toks (on_store (λ e m, update_session gate (now e) (store_ok e) id source f m) ≫= k).
Proof.
  intros Hf Hk. apply (keeps_update toks toks); [|done|by intros].
  intros m log rest v y n Hi Hv Hy. by eapply Inv_plain; eauto.
Qed.

Lemma keeps_meter {R} x channel toks (k : unit → thread server answer R) :
  keeps toks (k tt) → keeps (Bill (ID x) :: toks) (k tt) →
  keeps (Bill (ID x) :: toks) (meterCompletion has_meter x channel ≫= k).
Proof.
  intros Hk Hk'. unfold meterCompletion. case_match; [exact Hk'|].
  apply (obeys_bind _ _ _ _ _ (λ _ ts, ts = toks)); [|intros [] ? ->; apply Hk].
  apply obeys_atomic. intros e s rest Hi. exists toks. unfold books, moves. simpl.
  split; [by apply Inv_bill|done].
Qed.

Lemma keeps_notify toks x : keeps toks (notify_held x).
Proof. apply keeps_silent; [done|]. intros. apply keeps_ret. Qed.

Lemma keeps_reap {R} toks (k : unit → thread server answer R) :
  keeps toks (k tt) → keeps toks (reapExpired ≫= k).
Proof.
  intros Hk. apply (obeys_bind _ _ _ _ _ (λ _ ts, ts = toks)); [|intros [] ? ->; apply Hk].
  apply (obeys_bind _ _ _ _ _ (λ _ ts, ts = toks)).
  - apply obeys_atomic. intros e s rest Hi. exists toks.
    destruct (Inv_reap _ _ _ (now e) (put_ok e) Hi) as [Hi' HG]. unfold books, moves.
    by destruct (ReapExpired (now e) (put_ok e) (sessions s)) as [[m n] r].
  - intros restored ? ->. induction restored as [|x rest IH]; [done|].
    apply (obeys_bind _ _ _ _ _ (λ _ ts, ts = toks)); [|by intros ? ? ->].
    apply obeys_atomic. intros e s others Hi. exists toks.
    unfold books, moves in *. destruct (RollbackRestore (back e) (backend s) (RestoreID x)).
    by split_and!.
Qed.

(** *** Each handler *)

Ltac walk_mixed :=
  repeat first
    [ apply keeps_ret
    | apply keeps_notify
    | apply keeps_get; [intros ?|intros ? ?]
    | apply keeps_backend; intros ?
    | apply keeps_load; intros ?
    | case_match ].

Lemma keeps_reserve input source :
  admissible okref okest (QReserve input) → keeps [] (reserve organizationID input source).
Proof.
  intros Hadm. unfold reserve. destruct input as [input|]; [|walk_mixed]. walk_mixed.
  apply keeps_reap. walk_mixed. apply (obeys_bind _ _ _ _ _ (λ _ ts, ts = [])).
  - apply obeys_atomic. intros e s rest Hi. exists []. unfold books, moves.
    match goal with |- context [Reserve ?n ?ok ?x ?m] =>
      destruct (Inv_reserve m (metered s) rest n ok x Hi Hadm eq_refl eq_refl);
      by destruct (Reserve n ok x m)
    end.
  - intros reserved ? ->. walk_mixed.
Qed.

Lemma keeps_importKey id input source : keeps [] (importKey id input source).
Proof.
  unfold importKey. destruct input as [input|]; [|walk_mixed]. walk_mixed.
  apply keeps_plain; [|intros; walk_mixed]. intros v y Hy.
  destruct (requireState v _) eqn:Hst; [|done]. simplify_eq. apply plain_key.
  unfold requireState in Hst. to_prop. set_solver.
Qed.

Lemma keeps_ingest id x source ref : ID x = id → okref ref → keeps [] (ingest x source ref).
Proof.
  intros Hid Href. unfold ingest. apply keeps_load. intros free.
  destruct (match free with Ok n => n <? freeSpaceFloor | Err _ => false end); [walk_mixed|].
  apply keeps_load. intros acquired. case_match; [walk_mixed|].
  apply (keeps_update [] [Chunk (ID x) (StoredSize ref)]).
  - intros m log rest v y n Hi Hv Hy. by apply (Inv_gate m log rest (ID x) v ref).
  - intros err. walk_mixed.
  - intros v y n Hv Hy. apply keeps_backend. intros imported.
    apply (obeys_bind _ _ _ _ _ (λ _ _, True)); [|by intros]. case_match; [done|].
    assert (ID (y <| SessionUpdatedAt := n |>) = ID x) as ->.
    { unfold quota_gate in Hy. repeat case_match; by simplify_eq. }
    apply (keeps_update _ []); [|intros; walk_mixed..].
    intros m log rest v' y' n' Hi Hv' [= <-]. by apply Inv_release.
Qed.

Lemma keeps_loadManifest {R} toks y (k : result CheckpointManifest → thread server answer R) :
  (∀ r, keeps toks (k r)) → keeps toks (loadSessionManifest y ≫= k).
Proof. intros Hk. unfold loadSessionManifest. case_match; [apply Hk|]. by apply keeps_load. Qed.

Lemma keeps_importChunk id request source :
  admissible okref okest (QChunk id request) → keeps [] (importChunk id request source).
Proof.
  intros Hadm. unfold importChunk. apply keeps_get; [intros; walk_mixed|]. intros x Hx.
  case_match; [walk_mixed|]. case_match; [walk_mixed|]. simpl in Hadm.
  destruct (ChunkHeader request) as [ref|]; [|walk_mixed]. case_match; [walk_mixed|].
  case_match; [by eapply keeps_ingest; auto|].
  apply keeps_loadManifest. intros [manifest|]; [|walk_mixed]. case_match; [walk_mixed|].
  by eapply keeps_ingest; auto.
Qed.

Lemma keeps_commit_handler id source : keeps [] (commit has_meter id source).
Proof.
  unfold commit. apply keeps_get; [intros; walk_mixed|]. intros x Hx. walk_mixed.
  apply (keeps_update [] [Bill (ID x)]).
  - intros m log rest v y at_ Hi Hv Hy. by apply (Inv_complete m log rest (ID x) v); auto.
  - intros err. walk_mixed.
  - intros v y at_ Hv Hy. assert (ID x = ID (y <| SessionUpdatedAt := at_ |>)) as ->.
    { rewrite <- Hv. unfold commit_update in Hy. repeat case_match; by simplify_eq. }
    apply keeps_meter; walk_mixed.
Qed.

Lemma keeps_hold_handler id input source : keeps [] (hold has_meter has_watcher url_Parse id input source).
Proof.
  unfold hold. case_match; [walk_mixed|]. destruct input as [input|]; [|walk_mixed].
  case_match; [walk_mixed|]. case_match; [walk_mixed|]. apply keeps_get; [intros; walk_mixed|].
  intros x Hx. walk_mixed. apply (keeps_update [] [Bill (ID x)]).
  - intros m log rest v y at_ Hi Hv Hy. by apply (Inv_complete m log rest (ID x) v); eauto.
  - intros err. walk_mixed.
  - intros v y at_ Hv Hy. assert (ID x = ID (y <| SessionUpdatedAt := at_ |>)) as ->.
    { rewrite <- Hv. unfold hold_update in Hy. repeat case_match; by simplify_eq. }
    apply keeps_meter; walk_mixed.
Qed.

(** Requests whose handlers check the state inside the serialized update, or
    write no state. *)
Definition rechecks (q : request) : Prop :=
  match q with QManifest _ _ | QVerify _ | QRestore _ _ | QRollback _ => False | _ => True end.

Lemma keeps_withdraw input source : keeps [] (withdraw has_watcher input source).
Proof.
  unfold withdraw. case_match; [walk_mixed|]. case_match; [|walk_mixed]. case_match; [walk_mixed|].
  apply keeps_silent; [done|]. intros. walk_mixed.
Qed.

Lemma keeps_rechecked peer q :
  admissible okref okest q → rechecks q → keeps [] (handle peer q).
Proof.
  intros Hadm Hq. unfold Handler, withAuth. destruct peer as [p|]; [|walk_mixed].
  case_match; [walk_mixed|]. destruct q; try done; unfold dispatch;
    auto using keeps_reserve, keeps_importKey, keeps_importChunk, keeps_commit_handler,
      keeps_hold_handler, keeps_withdraw; unfold get_, getCleanup; walk_mixed.
Qed.

(** *** The handlers that write a state without looking again *)

Section unchecked.
(** Any change that leaves the counters alone is plain. *)
Hypothesis plain_any : ∀ v y,
  ID y = ID v → EstimatedBytes y = EstimatedBytes v → ReceivedBytes y = ReceivedBytes v →
  AttemptedBytes y = AttemptedBytes v → plain v y.

#[local] Ltac overwrite := apply keeps_plain; [intros ? ? [= <-]; by apply plain_any|intros].

Lemma keeps_importManifest id input source : keeps [] (importManifest id input source).
Proof. unfold importManifest. walk_mixed. overwrite. walk_mixed. Qed.

Lemma keeps_validate {R} toks workload assets (k : result unit → thread server answer R) :
  (∀ r, keeps toks (k r)) → keeps toks (validate_assets workload assets ≫= k).
Proof.
  intros Hk. apply (obeys_bind _ _ _ _ _ (λ _ ts, ts = toks)); [|intros a ? ->; apply Hk].
  induction assets as [|a assets IH]; [done|]. cbn [validate_assets].
  apply (obeys_bind _ _ _ _ _ (λ _ ts, ts = toks)); [|by intros [|] ? ->].
  apply obeys_atomic. intros e s rest Hi. exists toks. split_and!; [done|apply moves_refl|done].
Qed.

Lemma keeps_verify id source : keeps [] (verify id source).
Proof.
  unfold verify. walk_mixed. apply keeps_loadManifest. intros [manifest|]; [|walk_mixed].
  apply keeps_validate. intros [|]; [|walk_mixed]. overwrite. walk_mixed.
Qed.

Lemma keeps_restore id input source : keeps [] (restore id input source).
Proof. unfold restore. walk_mixed; overwrite; walk_mixed. Qed.

Lemma keeps_rollback id source : keeps [] (rollback id source).
Proof.
  unfold rollback. apply keeps_get; [intros; walk_mixed|]. intros x Hx. case_match; [walk_mixed|].
  apply (obeys_bind _ _ _ _ _ (λ _ ts, ts = [])).
  - case_match; [done|]. apply obeys_atomic. intros e s rest Hi. exists [].
    unfold books, moves in *. destruct (RollbackRestore (back e) (backend s) (RestoreID x)).
    by split_and!.
  - intros [|] ? ->; [|walk_mixed]. overwrite. walk_mixed.
Qed.

Lemma keeps_Handler peer q : admissible okref okest q → keeps [] (handle peer q).
Proof.
  intros Hadm. destruct q; try (by apply keeps_rechecked); unfold Handler, withAuth;
    (destruct peer as [p|]; [|walk_mixed]); (case_match; [walk_mixed|]); unfold dispatch;
    auto using keeps_importManifest, keeps_verify, keeps_restore, keeps_rollback.
Qed.
End unchecked.

(** *** All of them together *)

Hypothesis Inv_perm : ∀ m log toks toks', toks ≡ₚ toks' → Inv m log toks → Inv m log toks'.
Hypothesis Inv_drop : ∀ m log toks rest, Inv m log (toks ++ rest) → Inv m log rest.

Definition settled (c : system response) : Prop := owned (E := answer) books moves c.

Lemma settled_start s : Inv (sessions s) (metered s) [] → settled (Build_system s []).
Proof. intros H. apply (owned_none _ _) with []; [|done]. intros s'. apply Inv_drop. Qed.

Lemma settled_inv c : settled c → Inv (sessions (shared c)) (metered (shared c)) [].
Proof. intros (tokss & _ & Hi). apply (Inv_drop _ _ (concat tokss)). by rewrite app_nil_r. Qed.

Lemma keeps_served peer q es s toks :
  keeps [] (handle peer q) → books s toks →
  books (run (handle peer q) es s).1.2 toks ∧ moves s (run (handle peer q) es s).1.2.
Proof.
  intros Hk Hi. destruct (obeys_run _ _ [] _ _ es s toks Hk Hi) as (toks' & Hi' & HG).
  split; [|done]. by eapply Inv_drop.
Qed.

Lemma traffic_settled admits mixes c c' :
  (∀ peer q, admits q → mixes q → keeps [] (handle peer q)) →
  (∀ peer q es s toks, admits q → books s toks →
     books (run (handle peer q) es s).1.2 toks ∧ moves s (run (handle peer q) es s).1.2) →
  settled c → rtc (traffic admits mixes) c c' → settled c' ∧ moves (shared c) (shared c').
Proof.
  intros Hkeeps Hserved Hc Hr. induction Hr as [c|c1 c2 c3 Hstep _ IH]; [by split|].
  assert (settled c2 ∧ moves (shared c1) (shared c2)) as [H2 HG].
  { destruct Hstep as [s ts peer q Ha Hm|s ts i f k e Hi|s ts peer q es Ha|s ts]; simpl.
    - split; [|reflexivity]. apply owned_spawn; [done|]. by apply Hkeeps.
    - eapply owned_act; [|done|done]. intros ???. apply Inv_perm.
    - split; [|destruct Hc as (tokss & _ & Hi); by eapply Hserved].
      eapply owned_move; [exact Hc|]. intros toks Hi. by apply Hserved.
    - split; [|reflexivity]. apply (owned_crash _ _ (λ s, Inv_drop (sessions s) (metered s)) _ Hc). }
  destruct (IH H2) as [H3 HG']. split; [done|by etrans].
Qed.
End rules.
End traffic.

(** ** Quotas *)

(** The bytes of session [id] that uploads in flight may still give back. *)
Definition charged (id : string) (toks : list token) : Z :=
  foldr (λ tok n, match tok with
                  | Chunk i size => if decide (i = id) then size + n else n
                  | Bill _ => n
                  end) 0 toks.

(** Every session is within its quota, and what is in flight was charged. *)
Definition quota_books (m : store) (_ : meter_log) (toks : list token) : Prop :=
  wf_store m ∧
  map_Forall (λ id x, within_quota x ∧ charged id toks ≤ ReceivedBytes x) m ∧
  Forall (λ tok, match tok with Chunk i size => 0 ≤ size ∧ is_Some (m !! i) | Bill _ => True end) toks.

Lemma charged_perm id toks toks' : toks ≡ₚ toks' → charged id toks = charged id toks'.
Proof.
  induction 1 as [|[] ? ? _ IH|[] []|]; simpl; [done|done|by rewrite IH| | | | |congruence];
    repeat case_decide; lia.
Qed.

Lemma charged_app id toks toks' : charged id (toks ++ toks') = charged id toks + charged id toks'.
Proof. induction toks as [|[] toks IH]; simpl; [lia|done|]. case_decide; lia. Qed.

Lemma charged_nonneg id toks (P : string → Prop) :
  Forall (λ tok, match tok with Chunk i size => 0 ≤ size ∧ P i | Bill _ => True end) toks →
  0 ≤ charged id toks.
Proof. induction 1 as [|[] toks H _ IH]; simpl; [lia|done|]. case_decide; lia. Qed.

(** One session changes, and the tokens with it. *)
Lemma quota_books_insert m log toks toks' id x y :
  quota_books m log toks → m !! id = Some x → ID y = ID x →
  within_quota y ∧ charged id toks' ≤ ReceivedBytes y →
  (∀ i, i ≠ id → charged i toks' = charged i toks) →
  Forall (λ tok, match tok with
                 | Chunk i size => 0 ≤ size ∧ is_Some (m !! i) | Bill _ => True end) toks' →
  quota_books (<[id := y]> m) log toks'.
Proof.
  intros (Hwf & Hm & Htoks) Hx Hid Hy Hothers Htoks'. split_and!.
  - intros i s Hs. apply lookup_insert_Some in Hs as [[<- <-]|[? Hs]]; [|by apply Hwf].
    rewrite Hid. by apply Hwf.
  - intros i s Hs. apply lookup_insert_Some in Hs as [[<- <-]|[? Hs]]; [done|].
    rewrite Hothers by done. by apply (Hm i).
  - eapply Forall_impl; [exact Htoks'|]. intros [|i size]; [done|]. intros [? [z Hz]]. split; [done|].
    destruct (decide (i = id)) as [->|]; [rewrite lookup_insert_eq|rewrite lookup_insert_ne by done]; eauto.
Qed.

Definition counters_kept (v y : Session) : Prop :=
  ID y = ID v ∧ EstimatedBytes y = EstimatedBytes v ∧ ReceivedBytes y = ReceivedBytes v ∧
  AttemptedBytes y = AttemptedBytes v.

Lemma quota_plain m log toks id v y n :
  quota_books m log toks → m !! id = Some v → counters_kept v y →
  quota_books (<[id := y <| SessionUpdatedAt := n |>]> m) log toks.
Proof.
  intros Hq Hv (Hid & He & Hr & Ha). pose proof Hq as (_ & Hm & Ht). eapply quota_books_insert; try done.
  specialize (Hm id v Hv). unfold within_quota in *. simpl. by rewrite He, Hr, Ha.
Qed.

Lemma quota_charge m log toks id v ref y n :
  quota_books m log toks → m !! id = Some v → sane_ref ref → quota_gate ref v = Ok y →
  quota_books (<[id := y <| SessionUpdatedAt := n |>]> m) log (Chunk id (StoredSize ref) :: toks).
Proof.
  intros Hq Hv Href Hy. pose proof Hq as (_ & Hm & Ht). destruct (Hm id v Hv) as [Hw Hc].
  destruct (quota_gate_within ref v y Hw Href Hy) as (Hw' & Hr & _).
  destruct Href. eapply quota_books_insert; [done|done| | | |].
  - unfold quota_gate in Hy. repeat case_match; by simplify_eq.
  - simpl. rewrite decide_True by done. split; [done|lia].
  - intros i Hi. simpl. by rewrite decide_False.
  - constructor; [|done]. split; [lia|by exists v].
Qed.

Lemma quota_release m log toks id v size n :
  quota_books m log (Chunk id size :: toks) → m !! id = Some v →
  quota_books (<[id := v <| ReceivedBytes := int64 (ReceivedBytes v - size) |>
                         <| SessionUpdatedAt := n |>]> m) log toks.
Proof.
  intros Hq Hv. pose proof Hq as (_ & Hm & Ht). destruct (Hm id v Hv) as [(He & Hr & Ha) Hc].
  apply Forall_cons in Ht as [[Hsize _] Ht]. simpl in Hc. rewrite decide_True in Hc by done.
  pose proof (charged_nonneg id toks _ Ht). destruct (quota_bounds _ He).
  eapply quota_books_insert; [done|done|done| | |done].
  - simpl. unfold within_quota. simpl. rewrite int64_id by (unfold in_int64; lia). lia.
  - intros i Hi. simpl. by rewrite decide_False.
Qed.

Lemma quota_reserve m log toks now ok s :
  quota_books m log toks → sane_estimate (EstimatedBytes s) → ReceivedBytes s = 0 →
  AttemptedBytes s = 0 → quota_books (Reserve now ok s m).1 log toks.
Proof.
  intros Hq Hest Hr Ha. unfold Reserve. repeat (case_match; try done).
  destruct Hq as (Hwf & Hm & Ht). simpl. split_and!.
  - intros i z Hz. apply lookup_insert_Some in Hz as [[<- <-]|[? Hz]]; [done|by apply Hwf].
  - apply map_Forall_insert_2; [|done]. split; [by apply fresh_within|].
    assert (charged (ID s) toks = 0) as ->; [|simpl; lia]. clear Hm. induction Ht as [|[] toks Htok Ht IH]; [done|done|].
    simpl. rewrite decide_False; [done|]. intros ->. destruct Htok as [_ [z Hz]]. congruence.
  - eapply Forall_impl; [exact Ht|]. intros [|i size]; [done|]. intros [? Hi]. split; [done|].
    destruct (decide (i = ID s)) as [->|]; [rewrite lookup_insert_eq; eauto|by rewrite lookup_insert_ne].
Qed.

Lemma quota_reap m log toks now put_ok :
  quota_books m log toks → quota_books (ReapExpired now put_ok m).1.1 log toks.
Proof.
  intros (Hwf & Hm & Ht). pose proof (ReapExpired_marks now put_ok m Hwf) as Hreap. split_and!.
  - by eapply reaped_wf.
  - intros id x Hx. specialize (Hreap id). destruct (m !! id) as [z|] eqn:Hz; [|congruence].
    apply (Hm id) in Hz. destruct Hreap as [Hreap|[_ Hreap]]; simplify_eq; done.
  - eapply Forall_impl; [exact Ht|]. intros [|i size]; [done|]. intros [? [z Hz]]. split; [done|].
    specialize (Hreap i). rewrite Hz in Hreap. destruct Hreap as [->|[_ ->]]; eauto.
Qed.

Lemma quota_perm m log toks toks' : toks ≡ₚ toks' → quota_books m log toks → quota_books m log toks'.
Proof.
  intros Hp (? & Hm & Ht). split_and!; [done| |by rewrite <- Hp].
  intros id x Hx. rewrite <- (charged_perm id toks toks' Hp). by apply (Hm id).
Qed.

Lemma quota_drop m log toks rest : quota_books m log (toks ++ rest) → quota_books m log rest.
Proof.
  intros (? & Hm & Ht). apply Forall_app in Ht as [Ht1 Ht2]. split_and!; [done| |done].
  intros id x Hx. destruct (Hm id x Hx) as [? Hc]. split; [done|]. rewrite charged_app in Hc.
  pose proof (charged_nonneg id toks _ Ht1). lia.
Qed.

(** No guarantee besides the invariant. *)
Definition anyhow (_ _ : store) : Prop := True.
#[export] Instance anyhow_preorder : PreOrder anyhow.
Proof. by split. Qed.

Section quotas.
Context {B BE : Type} `{Bk : !Backend B BE}.
Context (organizationID : string) (has_meter has_watcher : bool)
        (url_Parse : string → result URL).

Lemma keeps_quota peer q :
  admissible sane_ref sane_estimate q →
  keeps (B := B) (BE := BE) quota_books anyhow []
    (Handler organizationID has_meter has_watcher url_Parse peer q).
Proof.
  apply (keeps_Handler _ _ _ _ sane_ref sane_estimate _ _ counters_kept).
  - by intros m log toks (? & _).
  - intros. split; [by eapply quota_plain|done].
  - intros. split; [by eapply quota_charge|done].
  - intros m log toks id v size n Hq Hv y. split; [by apply quota_release|done].
  - intros m log toks id v y n Hq Hv Hy. split; [|done]. eapply (quota_plain _ _ _ _ v); [|done|].
    + destruct Hq as (? & ? & ?). split_and!; [done..|]. by constructor.
    + destruct Hy as [Hy|[input Hy]]; unfold commit_update, hold_update in Hy;
        repeat case_match; by simplify_eq.
  - intros m log toks entry (? & ? & Ht). apply Forall_cons in Ht as [_ Ht]. by split_and!.
  - intros. split; [by apply quota_reserve|done].
  - intros. split; [by apply quota_reap|done].
  - done.
  - done.
Qed.

(** C33.  Ingest is bounded.  As long as peers send chunk references and
    estimates that are not absurd numbers (a stored size between zero and
    [2^62], an estimate below [2^60]), whatever requests arrive, however their
    handlers overlap, whatever fails and wherever the process dies, no session
    ever accounts for more received bytes than its reservation plus five
    percent, or for more attempted bytes than three times the reservation plus
    one maximum chunk, and no counter goes negative or wraps.  The sessions
    are assumed to be within these bounds at the start. *)
Theorem ingest_bounded (s : server (B := B)) (c : system (E := answer (BE := BE)) response) :
  wf_store (sessions s) → map_Forall (λ _, within_quota) (sessions s) →
  rtc (traffic organizationID has_meter has_watcher url_Parse
         (admissible sane_ref sane_estimate) (λ _, True)) (Build_system s []) c →
  map_Forall (λ _ x,
      0 ≤ ReceivedBytes x ≤ EstimatedBytes x + EstimatedBytes x /' 20 ∧
      0 ≤ AttemptedBytes x ≤ 3 * EstimatedBytes x + 96 * 2 ^ 20) (sessions (shared c)).
Proof.
  intros Hwf Hq Hr.
  assert (settled quota_books anyhow c) as Hc.
  { eapply (traffic_settled _ _ _ _ quota_books anyhow); [apply quota_perm|apply quota_drop| | | |exact Hr].
    - intros peer q Hadm _. by apply keeps_quota.
    - intros peer q es s' toks Hadm. apply keeps_served; [apply _|apply quota_drop|by apply keeps_quota].
    - apply settled_start; [apply quota_drop|]. split_and!; [done| |done].
      intros id x Hx. specialize (Hq id x Hx). split; [done|]. destruct Hq as (_ & [? _] & _). done. }
  apply settled_inv in Hc as (_ & Hm & _); [|apply quota_drop].
  eapply map_Forall_impl; [exact Hm|]. intros id x [(He & Hr' & Ha) _].
  rewrite quotaLimit_value in Hr' by done. rewrite attemptLimit_value in Ha by done. done.
Qed.
End quotas.

(** ** Life cycle and billing *)

Definition bills (id : string) (toks : list token) : nat :=
  length (filter (λ tok, tok = Bill id) toks).

(** The store is keyed by session id, and no session was or is about to be
    billed twice. *)
Definition bill_books (m : store) (log : meter_log) (toks : list token) : Prop :=
  wf_store m ∧
  ∀ id, match m !! id with
        | None => (billed log id + bills id toks = 0)%nat
        | Some x => (billed log id + bills id toks ≤ 1)%nat ∧
                    ((billed log id + bills id toks)%nat ≠ 0%nat → billable (State x) = true)
        end.

(** Two records of a session differ in its byte counters at most. *)
Definition recounted (x y : Session) : Prop :=
  y = x <| ReceivedBytes := ReceivedBytes y |> <| AttemptedBytes := AttemptedBytes y |>
        <| SessionUpdatedAt := SessionUpdatedAt y |>.

(** Sessions move towards later states; of a committed one only the counters
    still change. *)
Definition stages (m m' : store) : Prop :=
  ∀ id x, m !! id = Some x →
    ∃ y, m' !! id = Some y ∧ leads (State x) (State y) = true ∧
         (State x = SessionCommitted → recounted x y).

Lemma recounted_refl x : recounted x x.
Proof. by destruct x. Qed.

Lemma recounted_trans x y z : recounted x y → recounted y z → recounted x z.
Proof. unfold recounted. intros -> ->. done. Qed.

#[export] Instance stages_preorder : PreOrder stages.
Proof.
  split.
  - intros m id x Hx. exists x. rewrite leads_refl. split_and!; [done..|]. intros _. apply recounted_refl.
  - intros m1 m2 m3 H12 H23 id x Hx. destruct (H12 id x Hx) as (y & Hy & Lxy & Cxy).
    destruct (H23 id y Hy) as (z & Hz & Lyz & Cyz). exists z. split; [done|].
    split; [by eapply leads_trans|]. intros Hc. specialize (Cxy Hc).
    eapply recounted_trans; [done|]. apply Cyz. by rewrite Cxy.
Qed.

Lemma bills_perm id toks toks' : toks ≡ₚ toks' → bills id toks = bills id toks'.
Proof. intros H. unfold bills. by rewrite H. Qed.

Lemma bills_app id toks toks' : bills id (toks ++ toks') = (bills id toks + bills id toks')%nat.
Proof. unfold bills. by rewrite filter_app, length_app. Qed.

Lemma bills_cons id tok toks :
  bills id (tok :: toks) = ((if decide (tok = Bill id) then 1 else 0) + bills id toks)%nat.
Proof. unfold bills. rewrite filter_cons. by case_decide. Qed.

(** One session changes, with the bills that are due for it. *)
Lemma bill_books_insert m log toks toks' id x y :
  bill_books m log toks → m !! id = Some x → ID y = ID x →
  (billed log id + bills id toks' ≤ 1)%nat →
  ((billed log id + bills id toks')%nat ≠ 0%nat → billable (State y) = true) →
  (∀ i, i ≠ id → bills i toks' = bills i toks) → bill_books (<[id := y]> m) log toks'.
Proof.
  intros [Hwf Hb] Hx Hid H1 H2 Hothers. split.
  - intros i s Hs. apply lookup_insert_Some in Hs as [[<- <-]|[? Hs]]; [|by apply Hwf].
    rewrite Hid. by apply Hwf.
  - intros i. specialize (Hb i). destruct (decide (i = id)) as [->|Hi]; [by rewrite lookup_insert_eq|].
    rewrite lookup_insert_ne, Hothers by done. done.
Qed.

Lemma stages_insert m id x y :
  m !! id = Some x → leads (State x) (State y) = true → (State x = SessionCommitted → recounted x y) →
  stages m (<[id := y]> m).
Proof.
  intros Hx Hl Hc i s Hs. destruct (decide (i = id)) as [->|Hi].
  - rewrite lookup_insert_eq. exists y. by simplify_eq.
  - rewrite lookup_insert_ne by done. exists s. rewrite leads_refl. split_and!; [done..|].
    intros _. apply recounted_refl.
Qed.

(** A change of state that billing allows. *)
Lemma bill_state m log toks id v y :
  bill_books m log toks → m !! id = Some v → ID y = ID v → leads (State v) (State y) = true →
  (State v = SessionCommitted → recounted v y) →
  bill_books (<[id := y]> m) log toks ∧ stages m (<[id := y]> m).
Proof.
  intros Hb Hv Hid Hl Hc. split; [|by eapply stages_insert]. pose proof Hb as [_ H]. specialize (H id).
  rewrite Hv in H. destruct H as [H1 H2]. eapply bill_books_insert; [done..| |done].
  intros Hn. eapply billable_leads; [by apply H2|done].
Qed.

(** Tokens for bytes do not matter here. *)
Lemma bill_books_bytes m log toks id size :
  bill_books m log (Chunk id size :: toks) ↔ bill_books m log toks.
Proof.
  unfold bill_books. f_equiv. split; intros H i; specialize (H i); by rewrite bills_cons in *.
Qed.

Lemma bill_reserve m log toks now ok s :
  bill_books m log toks → bill_books (Reserve now ok s m).1 log toks ∧ stages m (Reserve now ok s m).1.
Proof.
  intros Hb. unfold Reserve. repeat (case_match; try (by split)). destruct Hb as [Hwf Hb]. simpl.
  split; [split|].
  - intros i s' Hs. apply lookup_insert_Some in Hs as [[<- <-]|[? Hs]]; [done|by apply Hwf].
  - intros i. specialize (Hb i). destruct (decide (i = ID s)) as [->|Hi].
    + rewrite lookup_insert_eq. destruct (m !! ID s); [done|]. rewrite Hb. split; [lia|done].
    + by rewrite lookup_insert_ne.
  - intros i s' Hs. rewrite lookup_insert_ne by congruence. exists s'. rewrite leads_refl.
    split_and!; [done..|]. intros _. apply recounted_refl.
Qed.

Lemma bill_reap m log toks now put_ok :
  bill_books m log toks →
  bill_books (ReapExpired now put_ok m).1.1 log toks ∧ stages m (ReapExpired now put_ok m).1.1.
Proof.
  intros [Hwf Hb]. pose proof (ReapExpired_marks now put_ok m Hwf) as Hr.
  assert (stages m (ReapExpired now put_ok m).1.1) as Hl.
  { intros id x Hx. specialize (Hr id). rewrite Hx in Hr. destruct Hr as [->|[He ->]].
    - exists x. rewrite leads_refl. split_and!; [done..|]. intros _. apply recounted_refl.
    - exists (mark_expired now x). split; [done|]. unfold sessionExpired in He. to_prop.
      split; [|done]. simpl. by destruct (State x). }
  split; [|done]. split; [by eapply reaped_wf|]. intros id. specialize (Hb id).
  destruct (m !! id) as [x|] eqn:Hx.
  - destruct (Hl id x Hx) as (y & -> & Hlead & _). destruct Hb as [Hb1 Hb2]. split; [done|].
    intros Hn. eapply billable_leads; [by apply Hb2|done].
  - specialize (Hr id). rewrite Hx in Hr. by rewrite Hr.
Qed.

(** A session that completes gets its one bill. *)
Lemma bill_complete m log toks id v y n :
  bill_books m log toks → m !! id = Some v →
  (commit_update v = Ok y ∨ ∃ input, hold_update input v = Ok y) →
  bill_books (<[id := y <| SessionUpdatedAt := n |>]> m) log (Bill id :: toks) ∧
  stages m (<[id := y <| SessionUpdatedAt := n |>]> m).
Proof.
  intros Hb Hv Hy.
  assert (ID y = ID v ∧ (State v = SessionRestored ∧ State y = SessionCommitted ∨
                         State v = SessionVerified ∧ State y = SessionHeld)) as [Hid Hst].
  { destruct Hy as [Hy|[input Hy]]; unfold commit_update, hold_update, requireState in Hy;
      repeat case_match; simplify_eq; to_prop; set_solver. }
  split; [|eapply stages_insert; [done|..]; simpl; by destruct Hst as [[-> ->]|[-> ->]]].
  pose proof Hb as [_ H]. specialize (H id). rewrite Hv in H. destruct H as [_ H2].
  assert (billed log id + bills id toks = 0)%nat as H0.
  { destruct (billed log id + bills id toks)%nat; [done|]. specialize (H2 ltac:(done)).
    by destruct Hst as [[Hs _]|[Hs _]]; rewrite Hs in H2. }
  eapply bill_books_insert; [exact Hb|done|done| | |].
  - rewrite bills_cons, decide_True by done. lia.
  - intros _. simpl. by destruct Hst as [[_ ->]|[_ ->]].
  - intros i Hi. rewrite bills_cons, decide_False by congruence. done.
Qed.

Lemma bill_pay m log toks entry :
  bill_books m log (Bill entry.1.1.1 :: toks) → bill_books m (log ++ [entry]) toks.
Proof.
  intros [Hwf Hb]. split; [done|]. intros id. specialize (Hb id). rewrite bills_cons in Hb.
  rewrite billed_snoc.
  replace (billed log id + (if decide (entry.1.1.1 = id) then 1 else 0) + bills id toks)%nat
    with (billed log id + ((if decide (Bill entry.1.1.1 = Bill id) then 1 else 0) + bills id toks))%nat;
    [done|]. repeat case_decide; simplify_eq; lia.
Qed.

Lemma bill_drop m log toks rest : bill_books m log (toks ++ rest) → bill_books m log rest.
Proof.
  intros [Hwf Hb]. split; [done|]. intros id. specialize (Hb id). rewrite bills_app in Hb.
  destruct (m !! id); [|lia]. destruct Hb as [H1 H2]. split; [lia|]. intros. apply H2. lia.
Qed.

Lemma bill_perm m log toks toks' : toks ≡ₚ toks' → bill_books m log toks → bill_books m log toks'.
Proof.
  intros Hp [Hwf Hb]. split; [done|]. intros id. specialize (Hb id).
  by rewrite (bills_perm id toks toks' Hp) in Hb.
Qed.

Section billing.
Context {B BE : Type} `{Bk : !Backend B BE}.
Context (organizationID : string) (has_meter has_watcher : bool)
        (url_Parse : string → result URL).

#[local] Abbreviation handle :=
  (Handler (B := B) (BE := BE) organizationID has_meter has_watcher url_Parse).

Lemma keeps_bills peer q : rechecks q → keeps bill_books stages [] (handle peer q).
Proof.
  apply (keeps_rechecked _ _ _ _ (λ _, True) (λ _, True) _ _ (λ v y,
    ID y = ID v ∧ leads (State v) (State y) = true ∧ State v ≠ SessionCommitted)).
  - by intros m log toks [? _].
  - intros m log toks id v y n Hb Hv (Hid & Hl & Hc). by eapply bill_state.
  - intros m log toks id v ref y n Hb Hv _ Hy. rewrite bill_books_bytes.
    unfold quota_gate in Hy. repeat case_match; simplify_eq. eapply bill_state; [done..| |done].
    apply leads_refl.
  - intros m log toks id v size n Hb Hv y. rewrite bill_books_bytes in Hb.
    eapply bill_state; [done..| |done]. apply leads_refl.
  - intros. by eapply bill_complete.
  - intros. by apply bill_pay.
  - intros. by apply bill_reserve.
  - intros. by apply bill_reap.
  - intros v version [Hs|Hs]; simpl; by rewrite Hs.
  - by destruct q as [[]| | | | | | | | | | |].
Qed.

(** A request that is served in one go, beside bills that are due. *)
Lemma bills_served peer q es (s : server (B := B)) toks :
  books bill_books s toks →
  books bill_books (run (handle peer q) es s).1.2 toks ∧ moves stages s (run (handle peer q) es s).1.2.
Proof.
  intros Hs. set (I := λ m log, bill_books m log toks ∧ stages (sessions s) m).
  assert (runs (B := B) I I (handle peer q)) as H.
  { apply (runs_Handler _ _ _ _ (λ _, True) (λ _, True) (λ _, True) I
             (λ id log, (billed log id + bills id toks = 0)%nat)).
    - done.
    - by intros m log [[? _] _].
    - intros m log id x y n [Hb Hst] Hx Hu. apply session_update_leads in Hu as (Hid & Hl & Hc).
      destruct (bill_state m log toks id x (y <| SessionUpdatedAt := n |>)); [done..|].
      split; [done|by etrans].
    - intros m log now ok x [Hb Hst] _ _ _ _. destruct (bill_reserve m log toks now ok x Hb).
      split; [done|by etrans].
    - intros m log now put_ok [Hb Hst]. destruct (bill_reap m log toks now put_ok Hb).
      split; [done|by etrans].
    - intros m log id x [[_ Hb] _] Hx Hst. specialize (Hb id). rewrite Hx in Hb. destruct Hb as [_ Hb].
      destruct (_ + _)%nat; [done|]. specialize (Hb ltac:(done)). by destruct Hst as [Hst|Hst]; rewrite Hst in Hb.
    - intros m log x entry [[Hwf Hb] Hst] Hx H0 Hc. split; [split; [done|]|done]. intros id.
      specialize (Hb id). rewrite billed_snoc. case_decide as Hid; [|by rewrite Nat.add_0_r].
      subst id. rewrite Hx in *. split; [lia|]. intros _. by destruct Hc as [-> | ->].
    - by destruct q as [[]| | | | | | | | | | |]. }
  specialize (H s es ltac:(by apply Forall_true)). unfold alone, view in H.
  destruct (run (handle peer q) es s) as [[[r|] s'] es']; simpl; apply H; split; done.
Qed.

(** C22.  The life of a session.  Requests interleave action by action, except
    that one to import a manifest, to verify, to restore or to roll back is
    served in one go; whoever sends them, whatever fails and wherever the
    process dies with the requests it is serving.  Then between any two
    moments a session only moves towards later states of its life cycle, so
    that nothing is restored from a session that failed, was rolled back or
    was parked as a standby copy; of a committed session nothing but the byte
    counters and the time of the last change still changes; and each session
    is billed at most once, also when commits and holds race. *)
Theorem session_lifecycle (s : server (B := B)) (c c' : system (E := answer (BE := BE)) response) :
  let step := traffic organizationID has_meter has_watcher url_Parse (λ _, True) rechecks in
  consistent (sessions s) (metered s) → rtc step (Build_system s []) c → rtc step c c' →
  wf_store (sessions (shared c')) ∧
  (∀ id, (billed (metered (shared c')) id ≤ 1)%nat) ∧
  ∀ id x, sessions (shared c) !! id = Some x →
    ∃ y, sessions (shared c') !! id = Some y ∧ leads (State x) (State y) = true ∧
         (State x = SessionCommitted → recounted x y).
Proof.
  intros step [Hwf Hcons] Hr Hr'.
  assert (∀ c1 c2, settled bill_books stages c1 → rtc step c1 c2 →
    settled bill_books stages c2 ∧ moves stages (shared c1) (shared c2)) as Hstep.
  { intros c1 c2 H1 H12. eapply (traffic_settled _ _ _ _ bill_books stages);
      [apply bill_perm|apply bill_drop| | |exact H1|exact H12].
    - intros peer q _ Hq. by apply keeps_bills.
    - intros peer q es s' toks _. apply bills_served. }
  destruct (Hstep (Build_system s []) c) as [Hc _]; [|done|].
  { apply settled_start; [apply bill_drop|]. split; [done|]. intros id. specialize (Hcons id).
    unfold bills. simpl. by rewrite Nat.add_0_r. }
  destruct (Hstep c c' Hc Hr') as [Hc' HG].
  apply settled_inv in Hc' as [Hwf' Hb]; [|apply bill_drop]. split; [done|]. split; [|exact HG].
  intros id. specialize (Hb id). destruct (sessions (shared c') !! id); lia.
Qed.
End billing.

(** ** Requests that race *)

(** Two requests of the same machine, in flight on the demonstration server. *)
Definition race `{Bk : !Backend node bool} (watcher : bool) (q1 q2 : request) (picks : list nat) (s : server (B := node))
    : system response :=
  schedule ((λ i, (i, fine)) <$> picks)
    (Build_system s [Handler "org" true watcher demo_parse (Some "a") q1;
                     Handler "org" true watcher demo_parse (Some "a") q2]).

(** Two commits at once: both pass the check before the update, and one of
    them bills. *)
Lemma session_lifecycle_witness :
  let c := race false (QCommit "t") (QCommit "t") [0; 1; 0; 1; 0; 1; 0; 1]%nat
             (demo_server SessionRestored) in
  (State <$> sessions (shared c) !! "t" = Some SessionCommitted ∧
   metered (shared c) = [("t", "org", "egress", 100)]) ∧
  wf_store (sessions (shared c)) ∧
  (∀ id, (billed (metered (shared c)) id ≤ 1)%nat) ∧
  ∀ id x, sessions (demo_server SessionRestored) !! id = Some x →
    ∃ y, sessions (shared c) !! id = Some y ∧ leads (State x) (State y) = true ∧
         (State x = SessionCommitted → recounted x y).
Proof.
  intros c. split; [vm_compute; split; reflexivity|].
  apply (session_lifecycle "org" true false demo_parse (demo_server SessionRestored)
    (Build_system (demo_server SessionRestored) []) c).
  - apply demo_consistent.
  - reflexivity.
  - apply (traffic_schedule "org" true false demo_parse (λ _, True) rechecks
      [(Some "a", QCommit "t"); (Some "a", QCommit "t")]
      ((λ i, (i, fine)) <$> [0; 1; 0; 1; 0; 1; 0; 1]%nat) _ []). by repeat constructor.
Defined.

(** Two uploads at once, of which the quota admits one. *)
Definition full_session : server (B := node) :=
  (demo_server SessionKeyReady) <| sessions :=
    {["t" := (demo_session SessionKeyReady) <| SessionCheckpoint := "" |>]} |>.

Lemma ingest_bounded_witness :
  let c := race false (QChunk "t" (demo_chunk (2 ^ 20))) (QChunk "t" (demo_chunk (2 ^ 20)))
             [0; 1; 0; 1; 0; 1; 0; 1; 0; 1]%nat full_session in
  (threads c !! 1%nat = Some (Done (Refuse 507 "TRANSFER_QUOTA_EXCEEDED")) ∧
   ReceivedBytes <$> sessions (shared c) !! "t" = Some (2 ^ 20 + 100)) ∧
  map_Forall (λ _ x,
      0 ≤ ReceivedBytes x ≤ EstimatedBytes x + EstimatedBytes x /' 20 ∧
      0 ≤ AttemptedBytes x ≤ 3 * EstimatedBytes x + 96 * 2 ^ 20) (sessions (shared c)).
Proof.
  intros c. split; [vm_compute; split; reflexivity|].
  apply (ingest_bounded "org" true false demo_parse full_session c).
  - intros id x H. simpl in H. by apply lookup_singleton_Some in H as [<- <-].
  - apply map_Forall_singleton. vm_compute. repeat split; discriminate.
  - apply (traffic_schedule "org" true false demo_parse (admissible sane_ref sane_estimate) (λ _, True)
      [(Some "a", QChunk "t" (demo_chunk (2 ^ 20))); (Some "a", QChunk "t" (demo_chunk (2 ^ 20)))]
      ((λ i, (i, fine)) <$> [0; 1; 0; 1; 0; 1; 0; 1; 0; 1]%nat) _ []).
    assert (admissible sane_ref sane_estimate (QChunk "t" (demo_chunk (2 ^ 20)))) as Hq.
    { intros ref [= <-]. split; vm_compute; first [discriminate | reflexivity]. }
    constructor; [done|]. constructor; [done|constructor].
Defined.

(** A destination that has the manifest of the session. *)
Definition bare_manifest : CheckpointManifest := {|
  Format := ""; FormatVersion := ""; ManifestID := "cp"; ParentID := ""; Kind := CheckpointFull;
  ManifestWorkload := demo_admitted; SourceIdentityID := "a"; ManifestCreatedAt := 1;
  Engine := {| EngineName := "criu"; EngineVersion := ""; LeaveRunning := false;
               ParentImages := false; PreCopy := false; EnginePreCopyPasses := 0;
               TCPState := false; ShellJob := false; FileLocks := false |};
  Assets := []; RequiredBytes := 1;
  ManifestMetrics := {| MetricsStartedAt := 0; FreezeStartedAt := 0; MetricsCompletedAt := 0;
    MetricsDuration := 0; PlainBytes := 0; StoredBytes := 0; MetricsDeduplicatedBytes := 0;
    ChunkCount := 0 |};
  Security := {| SecurityKeyVersion := 1; ManifestSignature := ""; SignerMachineID := "";
                 SecurityAlgorithm := "" |};
  ManifestSHA256 := ""; CompatibilityID := "" |}.

Definition manifest_node : Backend node bool := {|
  ImportWorkloadKey := @ImportWorkloadKey _ _ node_backend;
  VerifyManifest _ := Ok tt;
  SaveManifest _ b _ := (b, Ok tt);
  LoadManifest _ _ _ := Ok bare_manifest;
  MissingChunks _ _ refs := Ok refs;
  FreeBytes _ _ := Ok (2 ^ 40);
  ImportChunkResult := @ImportChunkResult _ _ node_backend;
  ValidateAsset _ _ _ _ := Ok tt;
  Inspect _ _ := Ok [2 ^ 40];
  Prepare := @Prepare _ _ node_backend;
  CommitRestore _ b _ := (b, Ok tt);
  RollbackRestore := @RollbackRestore _ _ node_backend;
  GetRestore := @GetRestore _ _ node_backend;
|}.

(** A verification can overtake a hold.  [verify] may be asked again for a
    session that is verified, and writes VERIFIED without looking whether the
    session was parked in the meantime; the next hold then completes and bills
    the session a second time. *)
Theorem verify_overtakes_hold :
  let ready := (demo_server SessionVerified) <| sessions :=
    {["t" := (demo_session SessionVerified) <| Purpose := PurposeReplication |>]} |> in
  let hold := QHold "t" (Some {| HoldKeepLast := 0; HoldSourceAgentURL := "";
                                 HoldFencingProvider := "" |}) in
  let first := race (Bk := manifest_node) true (QVerify "t") hold [0; 0; 1; 1; 1; 1; 0]%nat ready in
  let second := race (Bk := manifest_node) true hold (QGet "t") [0; 0; 0; 0]%nat (shared first) in
  State <$> sessions (shared first) !! "t" = Some SessionVerified ∧
  metered (shared second) = [("t", "org", "restore", 100); ("t", "org", "restore", 100)].
Proof. vm_compute. split; reflexivity. Qed.
