(* ===== verification/Network.v ===== *)
(** * Network identity, port mappings and the host port table

    The network layer of an agent (internal/network): what a workload's port
    declarations mean on a machine ([MappingsFor]), the virtual address that
    follows the workload ([IdentityFor]), the plan shown to the operator
    ([PlanFor]), the table that keeps two workloads off each other's host
    ports ([NATTable]), and the [Coordinator] that drives them through a
    restore.  The coordinator takes its lock more than once in an
    activation, so its operations are threads whose actions interleave. *)
From Stdlib Require Import Ascii.
From S2P Require Import Prelude GoStr Model Prog Conc.

Local Open Scope string_scope.
Local Open Scope Z_scope.

(** ** Port mappings *)

Definition ProtocolTCP : string := "tcp".

Definition lower_char (a : ascii) : ascii :=
  let n := N_of_ascii a in
  if ((65 <=? n) && (n <=? 90))%N then ascii_of_N (n + 32) else a.

(** [strings.ToLower] on the ASCII letters: no other letter has a lower case
    form among the letters of ["tcp"]. *)
Fixpoint ToLower (s : string) : string :=
  match s with
  | EmptyString => EmptyString
  | String a r => String (lower_char a) (ToLower r)
  end.

Definition valid_port (p : Z) : bool := (1 <=? p) && (p <=? 65535).

(** One turn of the first loop of [MappingsFor]. *)
Definition resolve_port (p : PortSpec) : result PortMapping :=
  let protocol := let t := ToLower (TrimSpace (SpecProtocol p)) in
                  if decide (t = "") then ProtocolTCP else t in
  _ ← require (bool_decide (protocol = ProtocolTCP)) "protocol is not supported for forwarding";
  _ ← require (valid_port (SpecContainerPort p)) "container port is outside 1-65535";
  let hostPort := if SpecHostPort p =? 0 then SpecContainerPort p else SpecHostPort p in
  _ ← require (valid_port hostPort) "host port is outside 1-65535";
  Ok {| Protocol := protocol; ContainerPort := SpecContainerPort p; HostPort := hostPort |}.

Fixpoint resolve_ports (ps : list PortSpec) : result (list PortMapping) :=
  match ps with
  | [] => Ok []
  | p :: rest => m ← resolve_port p; ms ← resolve_ports rest; Ok (m :: ms)
  end.

(** The duplicate check: [seen] holds the host ports met so far. *)
Fixpoint distinct_ports (seen : list Z) (ms : list PortMapping) : bool :=
  match ms with
  | [] => true
  | m :: rest => negb (bool_decide (HostPort m ∈ seen)) && distinct_ports (HostPort m :: seen) rest
  end.

Definition port_le (a b : PortMapping) : Prop := HostPort a ≤ HostPort b.
#[export] Instance port_le_dec a b : Decision (port_le a b).
Proof. unfold port_le. apply _. Defined.

(** [MappingsFor]. *)
Definition MappingsFor (spec : WorkloadSpec) : result (list PortMapping) :=
  mappings ← resolve_ports (Ports spec);
  _ ← require (distinct_ports [] mappings) "host port is mapped twice";
  Ok (merge_sort port_le mappings).

(** ** Virtual identities *)

(** The dotted form of an IPv4 address. *)
Definition ip_String (a : Z) : string :=
  join "."%char [Itoa (a `div` 2 ^ 24); Itoa ((a `div` 2 ^ 16) `mod` 256);
                 Itoa ((a `div` 2 ^ 8) `mod` 256); Itoa (a `mod` 256)].

(** One decimal field of [net.ParseIP]: one to three digits, no leading
    zero, at most 255. *)
Definition parse_octet (s : string) : option Z :=
  if decide (s = "") then None
  else if (3 <? String.length s)%nat then None
  else if (1 <? String.length s)%nat && HasPrefix s "0" then None
  else n ← digits 0 s; if n <=? 255 then Some n else None.

(** [net.ParseIP] on an IPv4 address. *)
Definition ParseIPv4 (s : string) : option Z :=
  match split "."%char s with
  | [a; b; c; d] =>
      a ← parse_octet a; b ← parse_octet b; c ← parse_octet c; d ← parse_octet d;
      Some (a * 2 ^ 24 + b * 2 ^ 16 + c * 2 ^ 8 + d)
  | _ => None
  end.

(** 100.64.0.0/10. *)
Definition virtualNetwork : Z := 100 * 2 ^ 24 + 64 * 2 ^ 16.
Definition virtualPrefixLength : Z := 10.

(** [VirtualIdentity.Validate]. *)
Definition VirtualIdentity_Validate (i : VirtualIdentity) : result unit :=
  match ParseIPv4 (IP i) with
  | None => Err "virtual network identity is not an IPv4 address"
  | Some a =>
      _ ← require (Z.land a (Z.shiftl (Z.ones 10) 22) =? virtualNetwork)
            "virtual network identity is outside the range";
      require (PrefixLength i =? 10) "virtual network identity prefix length must be 10"
  end.

(** [IdentityFor], for the first four bytes of the SHA-256 digest of the
    workload id under its domain prefix. *)
Definition IdentityFor (digest32 : string → Z) (workloadID : string) : result VirtualIdentity :=
  let trimmed := TrimSpace workloadID in
  _ ← require (negb (bool_decide (trimmed = ""))) "network identity requires a workload id";
  let hostBits := 32 - virtualPrefixLength in
  let host := Z.land (digest32 trimmed) (Z.shiftl 1 hostBits - 1) in
  let identity := {| IP := ip_String (uint32 (virtualNetwork + host));
                     PrefixLength := virtualPrefixLength |} in
  match VirtualIdentity_Validate identity with
  | Err _ => Err "derived identity is invalid"
  | Ok _ => Ok identity
  end.

(** ** The plan *)

(** [PortMapping.String]; the arrow is U+2192. *)
Definition PortMapping_String (m : PortMapping) : string :=
  if Direct m then Protocol m +:+ " " +:+ Itoa (HostPort m)
  else Protocol m +:+ " " +:+ Itoa (HostPort m) +:+ "→" +:+ Itoa (ContainerPort m).

Fixpoint strings_Join (sep : string) (xs : list string) : string :=
  match xs with
  | [] => ""
  | [x] => x
  | x :: rest => x +:+ sep +:+ strings_Join sep rest
  end.

(** [SummarizePlan]; a policy outside the three is quoted by the caller. *)
Definition SummarizePlan (p : NetworkPlan) : string :=
  let policy :=
    if decide (PlanPolicy p = NetworkPreserve) then "TCP state travels with the checkpoint"
    else if decide (PlanPolicy p = NetworkReconnect) then
      "listeners are re-established and connections must reconnect"
    else if decide (PlanPolicy p = NetworkDrain) then
      "connections are drained before checkpoint and listeners re-established"
    else "unknown network policy" in
  let ports :=
    match PlanPorts p with
    | [] => "no ports are declared"
    | ps => "ports " +:+ strings_Join ", " ((λ s, PortMapping_String (Mapping s)) <$> ps)
    end in
  strings_Join "; " [policy; ports;
    "virtual address " +:+ IP (PlanIdentity p) +:+ " follows the workload"] +:+ ".".

(** [PlanFor]. *)
Definition PlanFor (digest32 : string → Z) (spec : WorkloadSpec) : result NetworkPlan :=
  identity ← IdentityFor digest32 (SpecID spec);
  mappings ← MappingsFor spec;
  let policy := if decide (NetworkPolicy spec = "") then NetworkReconnect
                else NetworkPolicy spec in
  _ ← require (bool_decide (policy ∈ [NetworkPreserve; NetworkReconnect; NetworkDrain]))
        "unknown network policy";
  let preserve := bool_decide (policy = NetworkPreserve) in
  let plan := {| PlanPolicy := policy; PlanIdentity := identity;
    PlanPorts := (λ m, {| Mapping := m;
        Disposition := if preserve then SocketPreserved else SocketRecreated;
        Mechanism := if Direct m then "direct" else "forwarded" |}) <$> mappings;
    SocketsCarried := preserve; ConnectionsDropped := negb preserve;
    DrainBeforeCheckpoint := bool_decide (policy = NetworkDrain); PlanSummary := "" |} in
  Ok {| PlanPolicy := PlanPolicy plan; PlanIdentity := PlanIdentity plan;
        PlanPorts := PlanPorts plan; SocketsCarried := SocketsCarried plan;
        ConnectionsDropped := ConnectionsDropped plan;
        DrainBeforeCheckpoint := DrainBeforeCheckpoint plan; PlanSummary := SummarizePlan plan |}.

(** ** The host port table *)

Record NATEntry := {
  Owner : string;
  EntryMapping : PortMapping;
  Forwarded : bool;
}.
#[export] Instance NATEntry_eta : Eta NATEntry := fun e =>
  Build_NATEntry (Owner e) (EntryMapping e) (Forwarded e).

Abbreviation NATTable := (gmap Z NATEntry) (only parsing).

(** A port is free or already this mapping of this workload. *)
Definition check_entry (workloadID : string) (m : PortMapping) (existing : option NATEntry)
    : result unit :=
  match existing with
  | None => Ok tt
  | Some e =>
      _ ← require (bool_decide (Owner e = workloadID))
            "host port is already reserved by another workload";
      require (bool_decide (EntryMapping e = m))
        "host port is already reserved with a different mapping"
  end.

(** The first loop of [Reserve]. *)
Fixpoint check_claims (table : NATTable) (workloadID : string) (claimed : list Z)
    (ms : list PortMapping) : result unit :=
  match ms with
  | [] => Ok tt
  | m :: rest =>
      _ ← require (negb (bool_decide (HostPort m ∈ claimed)))
            "host port is mapped twice in one reservation";
      _ ← check_entry workloadID m (table !! HostPort m);
      check_claims table workloadID (HostPort m :: claimed) rest
  end.

Definition claim (workloadID : string) (table : NATTable) (m : PortMapping) : NATTable :=
  <[HostPort m := {| Owner := workloadID; EntryMapping := m; Forwarded := false |}]> table.

(** [NATTable.Reserve]. *)
Definition NAT_Reserve (workloadID : string) (mappings : list PortMapping) (table : NATTable)
    : NATTable * result unit :=
  if decide (TrimSpace workloadID = "") then (table, Err "NAT reservation requires a workload id")
  else match check_claims table workloadID [] mappings with
       | Err e => (table, Err e)
       | Ok _ => (foldl (claim workloadID) table mappings, Ok tt)
       end.

(** [NATTable.Release]. *)
Definition NAT_Release (workloadID : string) (table : NATTable) : NATTable :=
  filter (λ kv, Owner kv.2 ≠ workloadID) table.

(** [NATTable.SetForwarded]. *)
Definition SetForwarded (workloadID : string) (forwarded : bool) (table : NATTable) : NATTable :=
  (λ e, if bool_decide (Owner e = workloadID) && negb (Direct (EntryMapping e))
        then e <| Forwarded := forwarded |> else e) <$> table.

(** ** The coordinator *)

(** The table, the live forwarders of each workload (by their mapping), the
    host ports some process of the machine listens on, the startup claims
    and which version of them the coordinator has adopted. *)
Record coordinator := {
  table : gmap Z NATEntry;
  forwarders : gmap string (list PortMapping);
  listening : gset Z;
  startupWorkloads : list Workload;
  startupVersion : Z;
  claimsVersion : Z;
}.
#[export] Instance coordinator_eta : Eta coordinator := fun c =>
  Build_coordinator (table c) (forwarders c) (listening c) (startupWorkloads c)
    (startupVersion c) (claimsVersion c).

(** What the machine answers: whether a bind or a write succeeds for reasons
    of its own, how many connections outlived a drain, and the time. *)
Record net_env := {
  listen_ok : bool;
  remaining : Z;
  write_ok : bool;
  net_now : Z;
}.

#[local] Abbreviation op := (thread coordinator net_env).

(** [RebuildReservations]. *)
Definition RebuildReservations (ws : list Workload) (c : coordinator) : coordinator :=
  c <| startupVersion := uint64 (startupVersion c + 1) |> <| startupWorkloads := ws |>.

(** One turn of the loop of [syncStartupClaims]; conflicts are only logged. *)
Definition adopt_claim (t : NATTable) (w : Workload) : NATTable :=
  if decide (SpecID (Spec w) = "") then t
  else match MappingsFor (Spec w) with
       | Err _ | Ok [] => t
       | Ok ms => fst (NAT_Reserve (SpecID (Spec w)) ms t)
       end.

(** [syncStartupClaims]. *)
Definition syncStartupClaims (c : coordinator) : coordinator :=
  if startupVersion c =? claimsVersion c then c
  else c <| claimsVersion := startupVersion c |>
         <| table := foldl adopt_claim (table c) (startupWorkloads c) |>.

Definition on_table {A} (f : gmap Z NATEntry → gmap Z NATEntry * A) : op A :=
  atomic (λ _ c, let '(t, a) := f (table c) in (c <| table := t |>, a)).

(** [Coordinator.Prepare]. *)
Definition Net_Prepare (workloadID : string) (mappings : list PortMapping) : op (result unit) :=
  _ ← atomic (λ _ c, (syncStartupClaims c, tt));
  on_table (NAT_Reserve workloadID mappings).

(** [Forwarder.Start]: bind the host port. *)
Definition Forwarder_Start (m : PortMapping) : op (result unit) :=
  atomic (λ e c,
    if listen_ok e && negb (bool_decide (HostPort m ∈ listening c)) then
      (c <| listening := {[HostPort m]} ∪ listening c |>, Ok tt)
    else (c, Err "bind host port")).

(** [Forwarder.Drain]: the listener closes; how many connections had to be
    cut is the machine's answer. *)
Definition Forwarder_Drain (m : PortMapping) : op Z :=
  atomic (λ e c, (c <| listening := listening c ∖ {[HostPort m]} |>, remaining e)).

Fixpoint stop_all (fs : list PortMapping) : op Z :=
  match fs with
  | [] => mret 0
  | f :: rest => n ← Forwarder_Drain f; more ← stop_all rest; mret (n + more)
  end.

(** The loop of [Activate]: the forwarders started, or the failure after
    everything this call started has been stopped and the reservations
    released. *)
Fixpoint start_all (workloadID : string) (ms pending : list PortMapping)
    : op (result (list PortMapping)) :=
  match ms with
  | [] => mret (Ok pending)
  | m :: rest =>
      if Direct m then start_all workloadID rest pending
      else
        started ← Forwarder_Start m;
        match started with
        | Err e =>
            _ ← stop_all pending;
            _ ← on_table (λ t, (NAT_Release workloadID t, tt));
            mret (Err e)
        | Ok _ => start_all workloadID rest (pending ++ [m])
        end
  end.

Definition errAlreadyForwarding : string := "workload already has active network forwarding".

(** [Activate]: the two critical sections and what runs between them. *)
Definition Activate (workloadID : string) (mappings : list PortMapping) : op (result unit) :=
  busy ← atomic (λ _ c, (c, bool_decide (is_Some (forwarders c !! workloadID))));
  if (busy : bool) then mret (Err errAlreadyForwarding)
  else
    started ← start_all workloadID mappings [];
    match started with
    | Err e => mret (Err e)
    | Ok [] => mret (Ok tt)
    | Ok pending =>
        stands ← atomic (λ _ c,
          if decide (is_Some (forwarders c !! workloadID)) then (c, true)
          else (c <| forwarders := <[workloadID := pending]> (forwarders c) |>, false));
        if (stands : bool) then
          _ ← stop_all pending;
          mret (Err errAlreadyForwarding)
        else
          _ ← on_table (λ t, (SetForwarded workloadID true t, tt));
          mret (Ok tt)
    end.

(** [DrainForwarders]. *)
Definition DrainForwarders (workloadID : string) : op Z :=
  _ ← on_table (λ t, (SetForwarded workloadID false t, tt));
  active ← atomic (λ _ c, (c <| forwarders := delete workloadID (forwarders c) |>,
                           default [] (forwarders c !! workloadID)));
  stop_all active.

(** [Deactivate]. *)
Definition Deactivate (workloadID : string) : op Z :=
  forceClosed ← DrainForwarders workloadID;
  _ ← on_table (λ t, (NAT_Release workloadID t, tt));
  mret forceClosed.

(** ** The status document *)

Record StatusDocument := {
  SchemaVersion : Z;
  OperationID : string;
  Operation : string;
  Outcome : string;
  DocPolicy : string;
  VirtualIP : string;
  SocketsPreserved : bool;
  DocConnectionsDropped : bool;
  DocPorts : list NetworkPortStatus;
  ForwardedPorts : list Z;
  RecordedAt : Z;
  Detail : string;
}.
#[export] Instance StatusDocument_eta : Eta StatusDocument := fun d =>
  Build_StatusDocument (SchemaVersion d) (OperationID d) (Operation d) (Outcome d) (DocPolicy d)
    (VirtualIP d) (SocketsPreserved d) (DocConnectionsDropped d) (DocPorts d) (ForwardedPorts d)
    (RecordedAt d) (Detail d).

Definition StatusCompleted : string := "completed".
Definition StatusFailed : string := "failed".
Definition OperationRestore : string := "restore".

(** [WriteStatus]: the document that is published. *)
Definition WriteStatus (now : Z) (d : StatusDocument) : result StatusDocument :=
  _ ← require (negb (bool_decide (TrimSpace (OperationID d) = "")))
        "migration status requires an operation id";
  _ ← require (bool_decide (Operation d ∈ ["migration"; "restore"; "fork"; "clone"]))
        "migration status operation is not recognized";
  _ ← require (bool_decide (Outcome d ∈ [StatusCompleted; StatusFailed]))
        "migration status outcome is not recognized";
  Ok (d <| SchemaVersion := if SchemaVersion d =? 0 then 1 else SchemaVersion d |>
        <| RecordedAt := if RecordedAt d =? 0 then now else RecordedAt d |>).

(** [RecordStatus]. *)
Definition RecordStatus (spec : WorkloadSpec) (plan : NetworkPlan)
    (operation operationID outcome detail : string) (socketsPreserved : bool)
    : op (result StatusDocument) :=
  atomic (λ e c,
    (c, d ← WriteStatus (net_now e) {|
          SchemaVersion := 0; OperationID := operationID; Operation := operation;
          Outcome := outcome; DocPolicy := PlanPolicy plan; VirtualIP := IP (PlanIdentity plan);
          SocketsPreserved := socketsPreserved; DocConnectionsDropped := negb socketsPreserved;
          DocPorts := (λ p, {| Mapping := Mapping p;
              Disposition := match Disposition p with
                             | SocketPreserved =>
                                 if socketsPreserved then SocketPreserved else SocketRecreated
                             | SocketRecreated => SocketRecreated
                             end;
              Mechanism := Mechanism p |}) <$> PlanPorts plan;
          ForwardedPorts := HostPort <$> default [] (forwarders c !! SpecID spec);
          RecordedAt := 0; Detail := detail |};
        if write_ok e then Ok d else Err "record migration status")).

(** ** Mappings *)

(** What a port declaration means: the protocol is TCP (blank, or ["tcp"] in
    any case), both ports are ports, and the host port defaults to the
    container port. *)
Definition resolves (p : PortSpec) (m : PortMapping) : Prop :=
  ToLower (TrimSpace (SpecProtocol p)) ∈ [""; "tcp"] ∧ Protocol m = "tcp" ∧
  ContainerPort m = SpecContainerPort p ∧ 1 ≤ ContainerPort m ≤ 65535 ∧
  HostPort m = (if SpecHostPort p =? 0 then SpecContainerPort p else SpecHostPort p) ∧
  1 ≤ HostPort m ≤ 65535.

Lemma resolve_port_spec p m : resolve_port p = Ok m ↔ resolves p m.
Proof.
  unfold resolve_port, resolves, ProtocolTCP, valid_port. cbv zeta. rewrite bind_ok. split.
  - intros (u & Hp & H). inv_ok. to_prop. subst m; simpl.
    rewrite !elem_of_cons. case_decide; naive_solver.
  - intros (Ht & Hp & Hc & Hcr & Hh & Hhr). exists tt. split.
    { apply require_ok, bool_decide_eq_true. rewrite !elem_of_cons, elem_of_nil in Ht.
      case_decide; naive_solver. }
    destruct m as [pr cp hp]; simpl in *; subst.
    rewrite (proj2 (require_ok _ _ tt)) by (apply andb_true_iff; split; lia). simpl.
    rewrite (proj2 (require_ok _ _ tt)) by (apply andb_true_iff; split; lia). simpl.
    rewrite !elem_of_cons, elem_of_nil in Ht. repeat f_equal. case_decide; naive_solver.
Qed.

Lemma resolve_ports_spec ps :
  match resolve_ports ps with
  | Ok ms => Forall2 resolves ps ms
  | Err _ => ∃ p, p ∈ ps ∧ ∀ m, ¬ resolves p m
  end.
Proof.
  induction ps as [|p ps IH]; simpl; [constructor|].
  destruct (resolve_port p) as [m|e] eqn:Hp; simpl.
  - apply resolve_port_spec in Hp. destruct (resolve_ports ps); simpl; [by constructor|].
    destruct IH as (q & Hq & Hn). exists q. split; [by right|done].
  - exists p. split; [by left|]. intros m Hm%resolve_port_spec. congruence.
Qed.

Lemma distinct_ports_spec seen ms :
  distinct_ports seen ms = true ↔
  NoDup (HostPort <$> ms) ∧ (∀ m, m ∈ ms → HostPort m ∉ seen).
Proof.
  revert seen. induction ms as [|m ms IH]; intros seen; simpl.
  - split; [split; [constructor|by intros ? ?%elem_of_nil]|done].
  - rewrite andb_true_iff, negb_true_iff, bool_decide_eq_false, IH, NoDup_cons.
    setoid_rewrite elem_of_cons. rewrite list_elem_of_fmap. naive_solver.
Qed.

#[export] Instance port_le_total : Total port_le.
Proof. intros a b. unfold port_le. lia. Qed.
#[export] Instance port_le_trans : Transitive port_le.
Proof. intros a b c. unfold port_le. lia. Qed.

Lemma sorted_strict ms :
  NoDup (HostPort <$> ms) → StronglySorted port_le ms →
  StronglySorted (λ a b, HostPort a < HostPort b) ms.
Proof.
  intros Hn Hs. induction Hs as [|m ms Hs IH Hm]; [constructor|].
  apply NoDup_cons in Hn as [Hni Hn]. constructor; [by apply IH|].
  rewrite Forall_forall in *. intros x Hx. specialize (Hm x Hx). unfold port_le in Hm.
  assert (HostPort x ≠ HostPort m); [|lia]. intros E. apply Hni. rewrite <- E.
  by apply list_elem_of_fmap_2.
Qed.

(** Port declarations are resolved exactly.  [MappingsFor] accepts
    a workload precisely when every declared port is a TCP port in range and
    no two of them publish the same host port.  Its answer holds one mapping
    per declaration, with the host port defaulting to the container port, in
    strictly increasing order of host ports; nothing is dropped. *)
Theorem mappings_exact (spec : WorkloadSpec) :
  match MappingsFor spec with
  | Ok ms => ∃ rs, Forall2 resolves (Ports spec) rs ∧ ms ≡ₚ rs ∧
                   StronglySorted (λ a b, HostPort a < HostPort b) ms
  | Err _ => (∃ p, p ∈ Ports spec ∧ ∀ m, ¬ resolves p m) ∨
             (∃ rs, Forall2 resolves (Ports spec) rs ∧ ¬ NoDup (HostPort <$> rs))
  end.
Proof.
  unfold MappingsFor. pose proof (resolve_ports_spec (Ports spec)) as H.
  destruct (resolve_ports (Ports spec)) as [rs|e]; simpl; [|by left].
  destruct (distinct_ports [] rs) eqn:Hd; simpl.
  - apply distinct_ports_spec in Hd as [Hn _]. exists rs. split; [done|].
    split; [apply merge_sort_Permutation|]. apply sorted_strict.
    + by rewrite merge_sort_Permutation.
    + apply StronglySorted_merge_sort; apply _.
  - right. exists rs. split; [done|]. intros Hn. assert (distinct_ports [] rs = true); [|congruence].
    apply distinct_ports_spec. split; [done|]. intros m _ ?%elem_of_nil. done.
Qed.

(** ** Identities *)

Lemma octets_parse :
  forallb (λ n, let s := Itoa (Z.of_nat n) in
    bool_decide (parse_octet s = Some (Z.of_nat n)) && no_char "."%char s) (seq 0 256) = true.
Proof. vm_compute. reflexivity. Qed.

Lemma octet_parses n :
  0 ≤ n < 256 → parse_octet (Itoa n) = Some n ∧ no_char "."%char (Itoa n) = true.
Proof.
  intros Hn. pose proof octets_parse as H. rewrite forallb_forall in H.
  specialize (H (Z.to_nat n)). rewrite Z2Nat.id in H by lia.
  assert (In (Z.to_nat n) (seq 0 256)) as Hin by (apply in_seq; lia).
  apply H in Hin. cbv zeta in Hin. by to_prop.
Qed.

Ltac divide := Z.to_euclidean_division_equations; lia.

Lemma ParseIPv4_String a : 0 ≤ a < 2 ^ 32 → ParseIPv4 (ip_String a) = Some a.
Proof.
  intros Ha. unfold ParseIPv4, ip_String.
  destruct (octet_parses (a `div` 2 ^ 24)) as [P1 N1]; [divide|].
  destruct (octet_parses ((a `div` 2 ^ 16) `mod` 256)) as [P2 N2]; [divide|].
  destruct (octet_parses ((a `div` 2 ^ 8) `mod` 256)) as [P3 N3]; [divide|].
  destruct (octet_parses (a `mod` 256)) as [P4 N4]; [divide|].
  rewrite split_join by first [done | by rewrite !Forall_cons; auto using Forall_nil].
  rewrite P1; simpl. rewrite P2; simpl. rewrite P3; simpl. rewrite P4; simpl. f_equal. divide.
Qed.

Lemma host_bits h i : 0 ≤ h < 2 ^ 22 → 22 ≤ i → Z.testbit h i = false.
Proof.
  intros. rewrite <- (Z.mod_small h (2 ^ 22)) by done. apply Z.mod_pow2_bits_high. lia.
Qed.

Lemma network_bits i : i < 22 → Z.testbit virtualNetwork i = false.
Proof. apply (Z.mul_pow2_bits_low 401 22). Qed.

Lemma network_lor h : 0 ≤ h < 2 ^ 22 → virtualNetwork + h = Z.lor virtualNetwork h.
Proof.
  intros Hh. rewrite <- Z.add_lor_land. enough (Z.land virtualNetwork h = 0) by lia.
  apply Z.bits_inj_0. intros i. rewrite Z.land_spec. destruct (Z.lt_ge_cases i 22).
  - by rewrite network_bits.
  - by rewrite (host_bits h i), andb_false_r.
Qed.

Lemma virtual_mask h :
  0 ≤ h < 2 ^ 22 → Z.land (virtualNetwork + h) (Z.shiftl (Z.ones 10) 22) = virtualNetwork.
Proof.
  intros Hh. rewrite network_lor by done. apply Z.bits_inj'. intros i Hi.
  rewrite Z.land_spec, Z.lor_spec, Z.shiftl_spec by lia. destruct (Z.lt_ge_cases i 22).
  - rewrite (Z.testbit_neg_r (Z.ones 10)), andb_false_r by lia. by rewrite network_bits.
  - rewrite (host_bits h), orb_false_r by lia. destruct (Z.lt_ge_cases i 32).
    + by rewrite Z.ones_spec_low, andb_true_r by lia.
    + rewrite Z.ones_spec_high, andb_false_r by lia. symmetry.
      apply Z.bits_above_log2; [done|]. change (Z.log2 virtualNetwork) with 30. lia.
Qed.

(** Every workload has a virtual address.  Whatever the digest
    function answers, a workload id that is not blank gets an identity: its
    address parses back to a number of 100.64.0.0/10, its prefix length is
    that of the range, the internal validity check never fires, and the
    identity depends only on the trimmed id, so that every machine derives
    the same one. *)
Theorem identity_in_range (digest32 : string → Z) (workloadID : string) :
  TrimSpace workloadID ≠ "" →
  ∃ i a, IdentityFor digest32 workloadID = Ok i ∧ ParseIPv4 (IP i) = Some a ∧
         virtualNetwork ≤ a < virtualNetwork + 2 ^ 22 ∧ PrefixLength i = 10 ∧
         ∀ other, TrimSpace other = TrimSpace workloadID → IdentityFor digest32 other = Ok i.
Proof.
  intros Hn. set (h := Z.land (digest32 (TrimSpace workloadID)) (Z.ones 22)).
  assert (0 ≤ h < 2 ^ 22) as Hh.
  { subst h. rewrite Z.land_ones by lia. apply Z.mod_pos_bound. lia. }
  assert (ParseIPv4 (ip_String (uint32 (virtualNetwork + h))) = Some (virtualNetwork + h)) as Hp.
  { unfold uint32. rewrite Z.mod_small by (unfold virtualNetwork; lia).
    apply ParseIPv4_String. unfold virtualNetwork. lia. }
  assert (∀ id, TrimSpace id = TrimSpace workloadID → IdentityFor digest32 id =
    Ok {| IP := ip_String (uint32 (virtualNetwork + h)); PrefixLength := 10 |}) as Hi.
  { intros id Hid. unfold IdentityFor. rewrite Hid, (bool_decide_false (_ = "")) by done.
    assert (Z.shiftl 1 (32 - virtualPrefixLength) - 1 = Z.ones 22) as -> by reflexivity. fold h.
    unfold VirtualIdentity_Validate. cbn [mbind result_bind require negb IP PrefixLength].
    rewrite Hp, virtual_mask, Z.eqb_refl by done. done. }
  eexists _, _. split; [by apply Hi|]. split; [done|]. split; [lia|]. by split.
Qed.

Lemma identity_in_range_witness :
  ∃ i a, IdentityFor (λ _, 0xdeadbeef) " w-1 " = Ok i ∧ ParseIPv4 (IP i) = Some a ∧
         virtualNetwork ≤ a < virtualNetwork + 2 ^ 22 ∧ PrefixLength i = 10 ∧
         ∀ other, TrimSpace other = TrimSpace " w-1 " →
                  IdentityFor (λ _, 0xdeadbeef) other = Ok i.
Proof. apply (identity_in_range (λ _, 0xdeadbeef) " w-1 "). vm_compute. discriminate. Defined.

(** ** The table *)

Lemma check_entry_ok w m o u :
  check_entry w m o = Ok u ↔ ∀ e, o = Some e → Owner e = w ∧ EntryMapping e = m.
Proof.
  destruct u, o as [e|]; simpl; [|naive_solver].
  rewrite bind_ok. setoid_rewrite require_ok. setoid_rewrite bool_decide_eq_true. naive_solver.
Qed.

Lemma check_claims_ok t w claimed ms u :
  check_claims t w claimed ms = Ok u ↔
  NoDup (HostPort <$> ms) ∧ (∀ m, m ∈ ms → HostPort m ∉ claimed) ∧
  (∀ m e, m ∈ ms → t !! HostPort m = Some e → Owner e = w ∧ EntryMapping e = m).
Proof.
  destruct u. revert claimed. induction ms as [|m ms IH]; intros claimed.
  { split; [|done]. split; [constructor|]. by split; [intros ? ?%elem_of_nil|intros ? ? ?%elem_of_nil]. }
  cbn [check_claims fmap list_fmap]. rewrite bind_ok, NoDup_cons, list_elem_of_fmap.
  setoid_rewrite bind_ok. setoid_rewrite IH. setoid_rewrite require_ok.
  setoid_rewrite check_entry_ok. setoid_rewrite negb_true_iff.
  setoid_rewrite bool_decide_eq_false. setoid_rewrite elem_of_cons. split.
  - intros ([] & Hm & [] & He & Hn & Hc & Ht). naive_solver.
  - intros ([Hm Hn] & Hc & Ht). exists tt. split; [apply Hc; by left|]. exists tt. naive_solver.
Qed.

Lemma claims_lookup w ms t p :
  NoDup (HostPort <$> ms) →
  foldl (claim w) t ms !! p =
  match list_find (λ m, HostPort m = p) ms with
  | Some (_, m) => Some {| Owner := w; EntryMapping := m; Forwarded := false |}
  | None => t !! p
  end.
Proof.
  revert t. induction ms as [|m ms IH]; intros t Hn; simpl; [done|].
  apply NoDup_cons in Hn as [Hm Hn]. rewrite IH by done. unfold claim.
  case_decide as E.
  - destruct (list_find (λ x, HostPort x = p) ms) as [[i x]|] eqn:Hf; simpl.
    + apply list_find_Some in Hf as (Hx & Hxp & _). destruct Hm. rewrite E, <- Hxp.
      apply list_elem_of_fmap_2. by eapply list_elem_of_lookup_2.
    + subst p. by rewrite lookup_insert_eq.
  - destruct (list_find (λ x, HostPort x = p) ms) as [[i x]|]; simpl; [done|].
    by rewrite lookup_insert_ne.
Qed.

Lemma claims_in w ms t m :
  NoDup (HostPort <$> ms) → m ∈ ms →
  foldl (claim w) t ms !! HostPort m = Some {| Owner := w; EntryMapping := m; Forwarded := false |}.
Proof.
  intros Hn Hm. rewrite claims_lookup by done.
  destruct (list_find (λ x, HostPort x = HostPort m) ms) as [[i x]|] eqn:Hf.
  - apply list_find_Some in Hf as (Hx & Hp & _). do 2 f_equal.
    apply list_elem_of_lookup_2 in Hx. by apply (NoDup_fmap_elem_inj HostPort ms).
  - apply list_find_None in Hf. rewrite Forall_forall in Hf. by destruct (Hf m Hm).
Qed.

Lemma claims_out w ms t p :
  NoDup (HostPort <$> ms) → p ∉ HostPort <$> ms → foldl (claim w) t ms !! p = t !! p.
Proof.
  intros Hn Hp. rewrite claims_lookup by done.
  destruct (list_find (λ x, HostPort x = p) ms) as [[i x]|] eqn:Hf; [|done].
  apply list_find_Some in Hf as (Hx & <- & _). destruct Hp.
  apply list_elem_of_fmap_2. by eapply list_elem_of_lookup_2.
Qed.

(** Reservations are all or nothing and exclusive.  A reservation
    that is refused leaves the table as it was; one that is granted gives
    exactly the requested ports to the workload, leaves every other port
    alone and never takes a port from another workload.  It is granted
    whenever the ports are distinct and each of them is free or already holds
    this very mapping of the workload.  Releasing the workload afterwards
    returns its ports and leaves those of the others. *)
Theorem reserve_exclusive (workloadID : string) (ms : list PortMapping) (t : gmap Z NATEntry) :
  let '(t', r) := NAT_Reserve workloadID ms t in
  match r with
  | Err _ => t' = t
  | Ok _ =>
      (∀ m, m ∈ ms → t' !! HostPort m =
         Some {| Owner := workloadID; EntryMapping := m; Forwarded := false |}) ∧
      (∀ p, p ∉ HostPort <$> ms → t' !! p = t !! p) ∧
      (∀ p e, t !! p = Some e → Owner e ≠ workloadID → t' !! p = Some e) ∧
      (∀ p, NAT_Release workloadID t' !! p = NAT_Release workloadID t !! p)
  end ∧
  (TrimSpace workloadID ≠ "" → NoDup (HostPort <$> ms) →
   (∀ m e, m ∈ ms → t !! HostPort m = Some e → Owner e = workloadID ∧ EntryMapping e = m) →
   r = Ok tt).
Proof.
  unfold NAT_Reserve. case_decide as Hw; [by split|].
  destruct (check_claims t workloadID [] ms) as [[]|e] eqn:Hc.
  2:{ split; [done|]. intros _ Hn Ht. assert (check_claims t workloadID [] ms = Ok tt); [|congruence].
      apply check_claims_ok. split; [done|]. split; [|done]. intros m _ ?%elem_of_nil. done. }
  apply check_claims_ok in Hc as (Hn & _ & Ht). split; [|done].
  assert (∀ p e, t !! p = Some e → Owner e ≠ workloadID →
            foldl (claim workloadID) t ms !! p = Some e) as Hkeep.
  { intros p e Hp He. rewrite claims_out; [done|done|]. intros Hin.
    apply list_elem_of_fmap in Hin as (m & -> & Hm). by destruct (Ht m e Hm Hp). }
  split; [intros m Hm; by apply claims_in|]. split; [intros p Hp; by apply claims_out|].
  split; [done|]. intros p. unfold NAT_Release. apply option_eq. intros e.
  rewrite !map_lookup_filter_Some; simpl. split; intros [Hp He]; split; try done; [|by apply Hkeep].
  destruct (decide (p ∈ HostPort <$> ms)) as [Hin|Hin]; [|by rewrite claims_out in Hp].
  apply list_elem_of_fmap in Hin as (m & -> & Hm). rewrite claims_in in Hp by done. naive_solver.
Qed.

(** ** Interleavings of the coordinator *)

(** The ports of [A] stay its own, under the same mapping. *)
Definition keeps_entries (A : string) (t t' : gmap Z NATEntry) : Prop :=
  ∀ p e, t !! p = Some e → Owner e = A →
    ∃ e', t' !! p = Some e' ∧ Owner e' = A ∧ EntryMapping e' = EntryMapping e.

#[export] Instance keeps_entries_preorder A : PreOrder (keeps_entries A).
Proof.
  split; [intros t p e Hp He; by exists e|]. intros t1 t2 t3 H1 H2 p e Hp He.
  destruct (H1 p e Hp He) as (e1 & Hp1 & He1 & Hm1).
  destruct (H2 p e1 Hp1 He1) as (e2 & Hp2 & He2 & Hm2). exists e2. split_and!; [done..|congruence].
Qed.

(** The table keeps the entries of [A], and its forwarders stay. *)
Definition keeps_ports (A : string) (c c' : coordinator) : Prop :=
  keeps_entries A (table c) (table c') ∧ forwarders c' !! A = forwarders c !! A.

#[export] Instance keeps_ports_preorder A : PreOrder (keeps_ports A).
Proof.
  split; [by split|]. intros c1 c2 c3 [H1 F1] [H2 F2]. split; [by etrans|congruence].
Qed.

(** Reserving never takes the port of any workload. *)
Lemma reserve_keeps w A ms t : keeps_entries A t (fst (NAT_Reserve w ms t)).
Proof.
  intros p e Hp He. unfold NAT_Reserve. case_decide; [by exists e|].
  destruct (check_claims t w [] ms) as [u|] eqn:Hc; [|by exists e]. simpl.
  apply check_claims_ok in Hc as (Hn & _ & Ht).
  destruct (decide (p ∈ HostPort <$> ms)) as [Hin|Hin].
  - apply list_elem_of_fmap in Hin as (m & -> & Hm). destruct (Ht m e Hm Hp) as [Ho He'].
    rewrite claims_in by done. eexists. split; [done|]. simpl. by split; congruence.
  - rewrite claims_out by done. by exists e.
Qed.

Lemma adopt_keeps A ws t : keeps_entries A t (foldl adopt_claim t ws).
Proof.
  revert t. induction ws as [|w ws IH]; intros t; [reflexivity|]. simpl. etrans; [|apply IH].
  unfold adopt_claim. case_decide; [reflexivity|].
  destruct (MappingsFor (Spec w)) as [[|m ms]|]; [reflexivity|apply reserve_keeps|reflexivity].
Qed.

Lemma release_keeps w A t : w ≠ A → keeps_entries A t (NAT_Release w t).
Proof.
  intros Hw p e Hp He. exists e. split; [|done]. unfold NAT_Release.
  apply map_lookup_filter_Some. simpl. split; [done|congruence].
Qed.

Lemma SetForwarded_keeps w A b t : keeps_entries A t (SetForwarded w b t).
Proof.
  intros p e Hp He. unfold SetForwarded. rewrite lookup_fmap, Hp. simpl.
  eexists. split; [done|]. by case_match.
Qed.

Section ports.
Context (A : string).
#[local] Abbreviation guar := (guarantees (keeps_ports A)).

Lemma guar_on_table {R} (f : gmap Z NATEntry → gmap Z NATEntry * R) :
  (∀ t, keeps_entries A t (fst (f t))) → guar (on_table f).
Proof.
  intros H. apply guarantees_atomic. intros e c. specialize (H (table c)).
  by destruct (f (table c)).
Qed.

Lemma guar_Prepare w ms : guar (Net_Prepare w ms).
Proof.
  apply guarantees_bind.
  - apply guarantees_atomic. intros e c. unfold syncStartupClaims. case_match; [done|].
    split; [apply adopt_keeps|done].
  - intros _. apply guar_on_table. intros t. apply reserve_keeps.
Qed.

Lemma guar_stop_all fs : guar (stop_all fs).
Proof.
  induction fs as [|f fs IH]; [done|]. apply guarantees_bind; [by apply guarantees_atomic|].
  intros n. apply guarantees_bind; [apply IH|done].
Qed.

Lemma guar_start_all w ms pending : w ≠ A → guar (start_all w ms pending).
Proof.
  intros Hw. revert pending. induction ms as [|m ms IH]; intros pending; [done|].
  cbn [start_all]. case_match; [apply IH|]. apply guarantees_bind.
  { apply guarantees_atomic. intros e c. by case_match. }
  intros [u|e]; [apply IH|]. apply guarantees_bind; [apply guar_stop_all|]. intros _.
  apply guarantees_bind; [|done]. apply guar_on_table. intros t. by apply release_keeps.
Qed.

Lemma guar_Activate w ms : w ≠ A → guar (Activate w ms).
Proof.
  intros Hw. apply guarantees_bind; [by apply guarantees_atomic|]. intros [|]; [done|].
  apply guarantees_bind; [by apply guar_start_all|]. intros [[|p ps]|e]; [done| |done].
  apply guarantees_bind.
  { apply guarantees_atomic. intros e c. case_decide; [done|]. split; [done|]. simpl.
    by rewrite lookup_insert_ne. }
  intros [|]; (apply guarantees_bind; [|done]); [apply guar_stop_all|].
  apply guar_on_table. intros t. by apply SetForwarded_keeps.
Qed.

Lemma guar_DrainForwarders w : w ≠ A → guar (DrainForwarders w).
Proof.
  intros Hw. apply guarantees_bind; [apply guar_on_table; intros t; by apply SetForwarded_keeps|].
  intros _. apply guarantees_bind; [|intros fs; apply guar_stop_all].
  apply guarantees_atomic. intros e c. split; [done|]. simpl. by rewrite lookup_delete_ne.
Qed.

Lemma guar_Deactivate w : w ≠ A → guar (Deactivate w).
Proof.
  intros Hw. apply guarantees_bind; [by apply guar_DrainForwarders|]. intros n.
  apply guarantees_bind; [|done]. apply guar_on_table. intros t. by apply release_keeps.
Qed.
End ports.

(** Requests of the restore path on behalf of a workload. *)
Inductive net_request :=
| NPrepare (workloadID : string) (ms : list PortMapping)
| NActivate (workloadID : string) (ms : list PortMapping)
| NDrain (workloadID : string)
| NDeactivate (workloadID : string).

Definition requester (q : net_request) : string :=
  match q with NPrepare w _ | NActivate w _ | NDrain w | NDeactivate w => w end.

Definition perform (q : net_request) : thread coordinator net_env (result Z) :=
  match q with
  | NPrepare w ms => r ← Net_Prepare w ms; mret (_ ← r; Ok 0)
  | NActivate w ms => r ← Activate w ms; mret (_ ← r; Ok 0)
  | NDrain w => n ← DrainForwarders w; mret (Ok n)
  | NDeactivate w => n ← Deactivate w; mret (Ok n)
  end.

Definition by_others (A : string) (t : thread coordinator net_env (result Z)) : Prop :=
  ∃ q, requester q ≠ A ∧ t = perform q.

Lemma guar_by_others A t : by_others A t → guarantees (keeps_ports A) t.
Proof.
  intros (q & Hq & ->). destruct q; cbn [requester perform] in *; (apply guarantees_bind; [|done]);
    [apply guar_Prepare|by apply guar_Activate|by apply guar_DrainForwarders|by apply guar_Deactivate].
Qed.

(** Workloads keep their ports.  Whatever other workloads
    prepare, activate, drain and withdraw, and however those operations
    interleave and fail, every host port a workload holds stays its own under
    the same mapping, and its live forwarders stay registered. *)
Theorem ports_isolated (A : string) (c c' : system (result Z)) :
  threads c = [] → rtc (sys_step (by_others A)) c c' →
  (∀ p e, table (shared c) !! p = Some e → Owner e = A →
     ∃ e', table (shared c') !! p = Some e' ∧ Owner e' = A ∧
           EntryMapping e' = EntryMapping e) ∧
  forwarders (shared c') !! A = forwarders (shared c) !! A.
Proof.
  intros Hts Hr. destruct (interleaving_guarantee (keeps_ports A) (by_others A) c c') as [HG _];
    [apply guar_by_others|by rewrite Hts|done|done].
Qed.

(** ** Activation *)

(** The mappings a forwarder carries. *)
Definition carried (ms : list PortMapping) : list PortMapping :=
  filter (λ m, Direct m = false) ms.

Definition ports_of (ms : list PortMapping) : gset Z := list_to_set (HostPort <$> ms).

Lemma ports_of_app l k : ports_of (l ++ k)%list = ports_of l ∪ ports_of k.
Proof. unfold ports_of. by rewrite fmap_app, list_to_set_app_L. Qed.

Section activation.
#[local] Abbreviation sure := (λ _ : coordinator, True).
#[local] Abbreviation any := (λ _ : net_env, True).

Lemma stop_all_spec fs c0 :
  triple any (λ c, c = c0) (alone (stop_all fs))
    (λ _ c, c = c0 <| listening := listening c0 ∖ ports_of fs |>) sure.
Proof.
  revert c0. induction fs as [|f fs IH]; intros c0.
  - apply alone_ret. intros c ->. unfold ports_of. simpl. rewrite difference_empty_L. by destruct c0.
  - cbn [stop_all].
    eapply (alone_bind _ _ _ _ (λ _ c, c = c0 <| listening := listening c0 ∖ {[HostPort f]} |>)).
    { apply alone_atomic; [done|]. by intros e c _ ->. }
    intros n. eapply alone_bind; [apply IH|]. intros k. apply alone_ret. intros c ->.
    unfold ports_of. simpl. by rewrite difference_difference_l_L.
Qed.

Lemma on_table_spec (f : gmap Z NATEntry → gmap Z NATEntry) c0 :
  triple any (λ c, c = c0) (alone (on_table (λ t, (f t, tt))))
    (λ _ c, c = c0 <| table := f (table c0) |>) sure.
Proof. apply alone_atomic; [done|]. by intros e c _ ->. Qed.

(** From a state whose listeners are those of [pending] and [L]. *)
Lemma start_all_spec w ms pending L c0 :
  listening c0 = ports_of pending ∪ L → ports_of pending ## L →
  triple any (λ c, c = c0) (alone (start_all w ms pending))
    (λ r c, match r with
            | Ok fs => fs = (pending ++ carried ms)%list ∧ ports_of fs ## L ∧
                       c = c0 <| listening := ports_of fs ∪ L |>
            | Err _ => c = c0 <| table := NAT_Release w (table c0) |> <| listening := L |>
            end) sure.
Proof.
  revert pending c0. induction ms as [|m ms IH]; intros pending c0 HL Hd.
  { apply alone_ret. intros c ->. unfold carried. rewrite app_nil_r, <- HL. by destruct c0. }
  cbn [start_all]. unfold carried. rewrite filter_cons. destruct (Direct m) eqn:Hm.
  { rewrite decide_False by congruence. by apply IH. }
  rewrite decide_True by done.
  eapply (alone_bind _ _ _ _ (λ r c, match r with
     | Ok _ => (HostPort m ∉ listening c0) ∧
               c = c0 <| listening := ({[HostPort m]} ∪ listening c0) |>
     | Err _ => c = c0 end)); [apply alone_atomic; [done|]|].
  { intros e c _ ->. destruct (_ && _) eqn:He; simpl; [|done]. by to_prop. }
  intros [u|e].
  - apply triple_pure. intros Hni. eapply triple_post; [|apply IH].
    + intros [fs|?] c; [|by intros ->]. intros (-> & Hd' & ->).
      split; [by rewrite <- app_assoc|done].
    + simpl. rewrite HL, ports_of_app. unfold ports_of at 3. set_solver.
    + rewrite HL in Hni. rewrite ports_of_app. unfold ports_of at 2. set_solver.
  - eapply alone_bind; [apply stop_all_spec|]. intros n.
    eapply alone_bind; [apply on_table_spec|]. intros u. apply alone_ret. intros c ->. simpl.
    rewrite HL. f_equal. set_solver.
Qed.

Lemma Activate_spec w ms c0 :
  triple any (λ c, c = c0) (alone (Activate w ms))
    (λ r c, match r with
            | Ok _ => forwarders c0 !! w = None ∧ ports_of (carried ms) ## listening c0 ∧
                c = (if decide (carried ms = []) then c0
                     else c0 <| listening := (ports_of (carried ms) ∪ listening c0) |>
                             <| forwarders := <[w := carried ms]> (forwarders c0) |>
                             <| table := SetForwarded w true (table c0) |>)
            | Err _ => (c = c0 ∧ is_Some (forwarders c0 !! w)) ∨
                       c = c0 <| table := NAT_Release w (table c0) |>
            end) sure.
Proof.
  eapply alone_read; [done|]. intros _ c _ ->.
  destruct (forwarders c0 !! w) as [fs|] eqn:Hb.
  { rewrite bool_decide_true by done. apply alone_ret. intros c ->. by left. }
  rewrite bool_decide_false by (by intros []).
  eapply alone_bind; [apply (start_all_spec w ms [] (listening c0)); set_solver|].
  intros [fs|e]; [|apply alone_ret; intros c ->; right; by destruct c0].
  do 2 (apply triple_pure; intros ?). subst fs. change ([] ++ carried ms)%list with (carried ms) in *.
  destruct (carried ms) as [|f fs] eqn:Hf.
  { apply alone_ret. intros c ->. split_and!; [done..|]. unfold ports_of. simpl.
    rewrite union_empty_l_L. by destruct c0. }
  rewrite decide_False by done. eapply alone_bind.
  { apply (alone_atomic _ _ _ (λ b c, b = false ∧
      c = c0 <| listening := (ports_of (f :: fs) ∪ listening c0) |>
             <| forwarders := <[w := f :: fs]> (forwarders c0) |>)); [done|].
    intros e c _ ->. simpl. rewrite Hb. rewrite decide_False by (by intros []). done. }
  intros b. apply triple_pure. intros ->.
  eapply alone_bind; [apply on_table_spec|]. intros u. apply alone_ret. by intros c ->.
Qed.

Lemma DrainForwarders_spec w c0 :
  triple any (λ c, c = c0) (alone (DrainForwarders w))
    (λ _ c, c = c0 <| table := SetForwarded w false (table c0) |>
                   <| forwarders := delete w (forwarders c0) |>
                   <| listening := listening c0 ∖ ports_of (default [] (forwarders c0 !! w)) |>)
    sure.
Proof.
  eapply alone_bind; [apply on_table_spec|]. intros u. eapply alone_bind.
  { apply (alone_atomic _ _ _ (λ fs c, fs = default [] (forwarders c0 !! w) ∧
      c = c0 <| table := SetForwarded w false (table c0) |>
             <| forwarders := delete w (forwarders c0) |>)); [done|]. by intros e c _ ->. }
  intros fs. apply triple_pure. intros ->.
  eapply triple_post; [|apply (stop_all_spec (default [] (forwarders c0 !! w))
    (c0 <| table := SetForwarded w false (table c0) |>
        <| forwarders := delete w (forwarders c0) |>))].
  by intros n c ->.
Qed.

Lemma Deactivate_spec w c0 :
  triple any (λ c, c = c0) (alone (Deactivate w))
    (λ _ c, c = c0 <| table := NAT_Release w (table c0) |>
                   <| forwarders := delete w (forwarders c0) |>
                   <| listening := listening c0 ∖ ports_of (default [] (forwarders c0 !! w)) |>)
    sure.
Proof.
  eapply alone_bind; [apply DrainForwarders_spec|]. intros n.
  eapply alone_bind; [apply on_table_spec|]. intros u. apply alone_ret. intros c ->.
  simpl. f_equal. unfold NAT_Release, SetForwarded. apply map_eq. intros p. apply option_eq. intros e.
  rewrite !map_lookup_filter_Some, lookup_fmap, fmap_Some; simpl. split.
  - intros [(e0 & Hp & ->) He]. revert He. case_match; [|by auto]. simpl. by to_prop.
  - intros [Hp He]. split; [|done]. exists e. split; [done|].
    by rewrite (bool_decide_false (Owner e = w)).
Qed.
End activation.

(** C38.  Publishing a workload is all or nothing, and withdrawing it
    undoes it.  An activation that runs alone always ends: either every
    mapping that needs a forwarder has one, on a host port nobody listened
    on, and the table says so; or nothing listens that did not before and the
    reservations are gone, unless an earlier activation of the workload
    stands, which then keeps them.  Withdrawing the workload closes exactly
    its own listeners and releases exactly its own ports. *)
Theorem activation_all_or_nothing (w : string) (ms : list PortMapping) (c : coordinator) :
  completes (λ _, True) (Activate w ms) c (λ r c',
    match r with
    | Err _ => listening c' = listening c ∧ forwarders c' = forwarders c ∧
               (table c' = NAT_Release w (table c) ∨
                table c' = table c ∧ is_Some (forwarders c !! w))
    | Ok _ =>
        listening c' = ports_of (carried ms) ∪ listening c ∧
        ports_of (carried ms) ## listening c ∧
        (∀ p e, table c !! p = Some e → Owner e = w → p ∈ ports_of (carried ms) →
                Direct (EntryMapping e) = false →
                table c' !! p = Some (e <| Forwarded := true |>)) ∧
        completes (λ _, True) (Deactivate w) c' (λ _ c'',
          listening c'' = listening c ∧ forwarders c'' = forwarders c ∧
          table c'' = NAT_Release w (table c'))
    end).
Proof.
  eapply triple_completes, triple_post; [|apply Activate_spec].
  intros [u|e] c'; cbn beta iota; [|by intros [[-> ?]| ->]; simpl; auto].
  intros (Hb & Hd & ->). case_decide as Hc.
  - rewrite Hc in *. unfold ports_of in *. simpl in *. rewrite union_empty_l_L. split_and!; try done.
    eapply triple_completes, triple_post; [|apply Deactivate_spec].
    intros _ c' ->. simpl. rewrite Hb. unfold ports_of. simpl. split_and!; [set_solver| |done].
    by apply delete_id.
  - split_and!; [done|done| |].
    + intros p e Hp He _ Hdir. simpl. unfold SetForwarded. rewrite lookup_fmap, Hp. simpl.
      by rewrite Hdir, bool_decide_true.
    + eapply triple_completes, triple_post; [|apply Deactivate_spec].
      intros _ c' ->. simpl. rewrite lookup_insert_eq, delete_insert_id by done. simpl.
      split_and!; [set_solver|done|done].
Qed.

(** ** Two activations at once *)

Definition web : PortMapping := {| Protocol := "tcp"; ContainerPort := 80; HostPort := 8080 |}.

Definition reserved_web : coordinator := {|
  table := {[8080 := {| Owner := "w"; EntryMapping := web; Forwarded := false |}]};
  forwarders := ∅; listening := ∅; startupWorkloads := []; startupVersion := 0;
  claimsVersion := 0 |}.

Definition up : net_env :=
  {| listen_ok := true; remaining := 0; write_ok := true; net_now := 1 |}.

(** A second activation can unpublish the first.  When two
    activations of one workload overlap, the slower one fails to bind the
    port the faster one is already forwarding, and takes that for a failure
    of its own: it releases the workload's reservations.  The forwarder keeps
    carrying traffic on a port the table hands to the next workload. *)
Theorem racing_activation_unreserves :
  ∃ c, rtc (sys_step (λ t, t = perform (NActivate "w" [web])))
         (Build_system reserved_web []) c ∧
    threads c = [Done (Ok 0); Done (Err "bind host port")] ∧
    forwarders (shared c) !! "w" = Some [web] ∧ 8080 ∈ listening (shared c) ∧
    table (shared c) = ∅ ∧
    snd (NAT_Reserve "other" [web] (table (shared c))) = Ok tt.
Proof.
  exists (schedule ((λ i, (i, up)) <$> [0; 1; 0; 0; 0; 1; 1]%nat)
    (Build_system reserved_web
       [perform (NActivate "w" [web]); perform (NActivate "w" [web])])).
  split.
  - etrans; [|apply schedule_steps]. apply (spawn_steps _ _ []). by repeat constructor.
  - vm_compute. split_and!; try reflexivity.
Qed.

(** Reserving the same ports again is not without effect: the entries of a
    workload that is being forwarded are marked as carrying no traffic. *)
Lemma rereserve_clears_forwarded :
  let t := SetForwarded "w" true (table reserved_web) in
  Forwarded <$> t !! 8080 = Some true ∧
  snd (NAT_Reserve "w" [web] t) = Ok tt ∧
  Forwarded <$> fst (NAT_Reserve "w" [web] t) !! 8080 = Some false.
Proof. vm_compute. done. Qed.

(** Another workload fails to take the port and withdraws. *)
Definition contested : system (result Z) :=
  schedule [(0%nat, up); (0%nat, up); (1%nat, up); (1%nat, up); (1%nat, up)]
    (Build_system reserved_web [perform (NPrepare "v" [web]); perform (NDeactivate "v")]).

Lemma ports_isolated_witness :
  threads contested = [Done (Err "host port is already reserved by another workload");
                       Done (Ok 0)] ∧
  (∀ p e, table reserved_web !! p = Some e → Owner e = "w" →
     ∃ e', table (shared contested) !! p = Some e' ∧ Owner e' = "w" ∧
           EntryMapping e' = EntryMapping e) ∧
  forwarders (shared contested) !! "w" = forwarders reserved_web !! "w".
Proof.
  split; [vm_compute; reflexivity|].
  apply (ports_isolated "w" (Build_system reserved_web []) contested); [reflexivity|].
  etrans; [|apply schedule_steps]. apply (spawn_steps _ _ []).
  repeat constructor; [exists (NPrepare "v" [web])|exists (NDeactivate "v")]; by split.
Defined.
