(* ===== verification/Host.v ===== *)
(** * The machine an agent runs on

    The state the process runtime and the restore transaction share: the
    kernel's process table, the directory entries a restore replaces, the
    durable record collections, and the agent's own locks.  An operation is a
    thread of actions on this state; each action is one call into the kernel
    or into a record collection, so that the agent may be killed between any
    two of them, and each action is answered by the [kernel].

    An absolute, cleaned path is the list of its elements.  Only the entries
    the agent creates, moves or removes as a whole are kept, each with an
    opaque content; power failures are not modelled, only the death of the
    agent and of the workloads. *)
From S2P Require Import Prelude GoStr Model Prog Conc Network.

Local Open Scope string_scope.
Local Open Scope Z_scope.

(** ** Processes *)

(** A workload's process tree, by its root process. *)
Record proc := {
  start_ticks : Z;
  group : Z;
  frozen : bool;
  cgroup : string;
  uid : Z;
  gid : Z;
}.
#[export] Instance proc_eta : Eta proc := fun p =>
  Build_proc (start_ticks p) (group p) (frozen p) (cgroup p) (uid p) (gid p).

(** ** Directory entries *)

Abbreviation path := (list string).

(** A directory tree with its content, or a symbolic link.  The content
    [EmptyString] is the empty directory. *)
Inductive node := Tree (content : string) | Link.
#[export] Instance node_eq_dec : EqDecision node.
Proof. solve_decision. Defined.

(** ** Restore transactions *)

Inductive RestoreState :=
| RestorePreparing | RestoreFilesystemSwitched | RestoreProcessRunning | RestoreValidated
| RestoreCommitted | RestoreRollingBack | RestoreRolledBack | RestoreFailed.
#[export] Instance RestoreState_eq_dec : EqDecision RestoreState.
Proof. solve_decision. Defined.

Record RestoreRecord := {
  RecordID : string;
  RecordCheckpoint : string;
  RecordWorkload : string;
  RecordState : RestoreState;
  TargetRoot : path;
  BackupRoot : option path;
  StagingRoot : path;
  RestoreDirectory : path;
  RecordPID : Z;
  CreatedWorkload : bool;
  PreviousWorkload : option Workload;
  RecordCreatedAt : Z;
  RecordUpdatedAt : Z;
  RecordError : string;
  Lazy : bool;
  TimeToFirstExecutionMS : Z;
  LazyPagesPID : Z;
}.
#[export] Instance RestoreRecord_eta : Eta RestoreRecord := fun r =>
  Build_RestoreRecord (RecordID r) (RecordCheckpoint r) (RecordWorkload r) (RecordState r)
    (TargetRoot r) (BackupRoot r) (StagingRoot r) (RestoreDirectory r) (RecordPID r)
    (CreatedWorkload r) (PreviousWorkload r) (RecordCreatedAt r) (RecordUpdatedAt r)
    (RecordError r) (Lazy r) (TimeToFirstExecutionMS r) (LazyPagesPID r).

(** ** The state *)

Record host := {
  procs : gmap Z proc;
  disk : gmap path node;
  workloads : gmap string Workload;
  stopping : gset string;
  manifests : gmap string CheckpointManifest;
  restores : gmap string RestoreRecord;
  inFlight : gset path;
  createInFlight : gset string;
  network : coordinator;
}.
#[export] Instance host_eta : Eta host := fun h =>
  Build_host (procs h) (disk h) (workloads h) (stopping h) (manifests h) (restores h)
    (inFlight h) (createInFlight h) (network h).

(** What the kernel answers to one call: whether it succeeds, the numbers,
    names, entries and chunks it yields, the ids a restored process runs
    under, whether a failed rename crossed filesystems, which processes ended
    on their own since the last call, and what the network stack answers. *)
Record kernel := {
  ok : bool;
  clock : Z;
  num : Z;
  ticks : Z;
  text : string;
  extracted : list (string * node);
  captured : list ChunkRef;
  owner : Z * Z;
  exdev : bool;
  ended : list Z;
  net : net_env;
}.

Abbreviation call := (thread host kernel).

(** ** Calls *)

(** Processes that end on their own do so between two calls. *)
Definition reap (e : kernel) (h : host) : host :=
  h <| procs := filter (λ kv, kv.1 ∉ ended e) (procs h) |>.

Definition act {A} (f : kernel → host → host * A) : call A := atomic (λ e h, f e (reap e h)).

(** A call that only reads. *)
Definition look {A} (f : kernel → host → A) : call A := act (λ e h, (h, f e h)).

(** A call that changes the state when it succeeds. *)
Definition try (err : string) (f : kernel → host → host) : call (result unit) :=
  act (λ e h, if ok e then (f e h, Ok tt) else (h, Err err)).

(** A call whose answer decides alone. *)
Definition succeeds (err : string) : call (result unit) := try err (λ _ h, h).

Definition on_network {A} (t : thread coordinator net_env A) : call A :=
  zoom network (λ n h, h <| network := n |>) net t.

(** *** Records *)

Definition errPut : string := "persist record".

Definition put_workload (id : string) (w : Workload) : call (result unit) :=
  try errPut (λ _ h, h <| workloads := <[id := w]> (workloads h) |>).

Definition put_restore (id : string) (r : RestoreRecord) : call (result unit) :=
  try errPut (λ _ h, h <| restores := <[id := r]> (restores h) |>).

(** *** Processes *)

(** [linuxplatform.ProcessAlive]. *)
Definition ProcessAlive (h : host) (pid expected : Z) : bool :=
  match procs h !! pid with
  | Some p => (0 <? pid) && (start_ticks p =? expected)
  | None => false
  end.

Definition process_alive (h : host) (p : option ProcessState) : bool :=
  match p with
  | Some p => ProcessAlive h (PID p) (ProcStartTicks p)
  | None => false
  end.

Inductive signal := SIGTERM | SIGKILL | SIGSTOP | SIGCONT.

(** The effect of a signal on the processes it reaches.  A process that
    honors SIGTERM ends later, by itself. *)
Definition deliver (s : signal) (reached : Z → proc → bool) (m : gmap Z proc) : gmap Z proc :=
  map_imap (λ pid p,
    if reached pid p then
      match s with
      | SIGKILL => None
      | SIGTERM => Some p
      | SIGSTOP => Some (p <| frozen := true |>)
      | SIGCONT => Some (p <| frozen := false |>)
      end
    else Some p) m.

Definition in_group (g : Z) (_ : Z) (p : proc) : bool := group p =? g.
Definition is_pid (n : Z) (pid : Z) (_ : proc) : bool := pid =? n.
Definition in_cgroup (c : string) (_ : Z) (p : proc) : bool := bool_decide (cgroup p = c).

Definition errESRCH : string := "no such process".
Definition errEPERM : string := "operation not permitted".

(** [syscall.Kill]. *)
Definition Kill (s : signal) (reached : Z → proc → bool) : call (result unit) :=
  act (λ e h,
    if bool_decide (map_Exists (λ pid p, reached pid p = true) (procs h)) then
      if ok e then (h <| procs := deliver s reached (procs h) |>, Ok tt) else (h, Err errEPERM)
    else (h, Err errESRCH)).

(** *** Directory entries *)

(** [os.RemoveAll]: the tree loses its content first, and goes away when
    nothing stopped the removal. *)
Definition RemoveAll (p : path) : call (result unit) :=
  _ ← act (λ e h, (h <| disk := map_imap (λ q n,
                            if decide (p `prefix_of` q) then Some (Tree (text e)) else Some n)
                          (disk h) |>, tt));
  try "remove" (λ _ h, h <| disk := filter (λ kv, ¬ p `prefix_of` kv.1) (disk h) |>).

(** [os.MkdirAll]. *)
Definition MkdirAll (p : path) : call (result unit) :=
  try "mkdir" (λ _ h, match disk h !! p with
                      | Some _ => h
                      | None => h <| disk := <[p := Tree ""]> (disk h) |>
                      end).

Definition errEXDEV : string := "invalid cross-device link".

(** [renameat]: a directory replaces nothing, or an empty directory. *)
Definition Rename (from to : path) : call (result unit) :=
  act (λ e h,
    match disk h !! from with
    | None => (h, Err "no such file or directory")
    | Some n =>
        if negb (bool_decide (disk h !! to = None ∨ disk h !! to = Some (Tree ""))) then
          (h, Err "directory not empty")
        else if ok e then
          (h <| disk := <[to := n]> (delete from (disk h)) |>, Ok tt)
        else (h, Err (if exdev e then errEXDEV else "rename"))
    end).

(** [os.Lstat], with the error of a missing entry told apart from others. *)
Definition Lstat (p : path) : call (result (option node)) :=
  look (λ e h, if ok e then Ok (disk h !! p) else Err "lstat").

(** [filepath.Dir] and [filepath.Base]. *)
Definition Dir (p : path) : path := removelast p.
Definition Base (p : path) : string := List.last p "/".

#[global] Arguments act : simpl never.
#[global] Arguments look : simpl never.
#[global] Arguments try : simpl never.
#[global] Arguments Kill : simpl never.
#[global] Arguments RemoveAll : simpl never.
#[global] Arguments on_network : simpl never.

(** ** Rules for calls *)

(** A condition that survives the end of processes. *)
Definition reap_closed (P : host → Prop) : Prop := ∀ e h, P h → P (reap e h).

Section calls.
Context (okE : kernel → Prop).

Lemma call_act {A} (f : kernel → host → host * A) (P : host → Prop) (Q : A → host → Prop)
    (C : host → Prop) :
  reap_closed P → (∀ h, P h → C h) →
  (∀ e h, okE e → P h → Q (snd (f e h)) (fst (f e h))) →
  triple okE P (alone (act f)) Q C.
Proof. intros HP HC HQ. apply alone_atomic; [done|]. intros e h He Hh. by apply HQ, HP. Qed.

Lemma call_look {A B} (f : kernel → host → A) (k : A → call B) (P : host → Prop)
    (Q : B → host → Prop) (C : host → Prop) :
  reap_closed P → (∀ h, P h → C h) →
  (∀ e h, okE e → P h → triple okE (λ h', h' = h) (alone (k (f e h))) Q C) →
  triple okE P (alone (look f ≫= k)) Q C.
Proof.
  intros HP HC Hk h es Hes Hh. destruct es as [|e es]; [by apply HC|].
  apply Forall_cons in Hes as [He Hes].
  exact (Hk e (reap e h) He (HP e h Hh) (reap e h) es Hes eq_refl).
Qed.

(** The same where [P] only survives the answers that are admitted. *)
Definition reap_under (P : host → Prop) : Prop := ∀ e h, okE e → P h → P (reap e h).

Lemma act_under {A} (f : kernel → host → host * A) (P : host → Prop) (Q : A → host → Prop)
    (C : host → Prop) :
  reap_under P → (∀ h, P h → C h) →
  (∀ e h, okE e → P h → Q (snd (f e h)) (fst (f e h))) →
  triple okE P (alone (act f)) Q C.
Proof. intros HP HC HQ. apply alone_atomic; [done|]. intros e h He Hh. by apply HQ, HP. Qed.

Lemma look_under {A B} (f : kernel → host → A) (k : A → call B) (P : host → Prop)
    (Q : B → host → Prop) (C : host → Prop) :
  reap_under P → (∀ h, P h → C h) →
  (∀ e h, okE e → P h → triple okE (λ h', h' = h) (alone (k (f e h))) Q C) →
  triple okE P (alone (look f ≫= k)) Q C.
Proof.
  intros HP HC Hk h es Hes Hh. destruct es as [|e es]; [by apply HC|].
  apply Forall_cons in Hes as [He Hes].
  exact (Hk e (reap e h) He (HP e h He Hh) (reap e h) es Hes eq_refl).
Qed.

(** When the rest only needs [P] again. *)
Lemma call_read {A B} (f : kernel → host → A) (k : A → call B) (P : host → Prop)
    (Q : B → host → Prop) (C : host → Prop) :
  reap_closed P → (∀ h, P h → C h) →
  (∀ e h, okE e → P h → triple okE P (alone (k (f e h))) Q C) →
  triple okE P (alone (look f ≫= k)) Q C.
Proof.
  intros HP HC Hk. apply call_look; [done|done|]. intros e h He Hh.
  eapply triple_pre; [|by apply (Hk e h)]. by intros h' ->.
Qed.

Lemma call_try {B} err (f : kernel → host → host) (k : result unit → call B) (P P' : host → Prop)
    (Q : B → host → Prop) (C : host → Prop) :
  reap_closed P → (∀ h, P h → C h) →
  (∀ e h, okE e → P h → ok e = true → P' (f e h)) →
  triple okE P (alone (k (Err err))) Q C → triple okE P' (alone (k (Ok tt))) Q C →
  triple okE P (alone (try err f ≫= k)) Q C.
Proof.
  intros HP HC Hf Herr Hok.
  eapply (alone_bind _ _ _ _ (λ r h, match r with Ok _ => P' h | Err x => x = err ∧ P h end)).
  - apply call_act; [done|done|]. intros e h He Hh. destruct (ok e) eqn:E; simpl; [by apply Hf|done].
  - intros [[]|x]; [done|]. by apply triple_pure; intros ->.
Qed.

(** Calls that keep [P] whatever is answered. *)
Definition maintains {A} (P : host → Prop) (t : call A) : Prop :=
  guarantees (λ h h', P h → P h') t.

Lemma call_maintains {A} (t : call A) (P : host → Prop) (C : host → Prop) :
  maintains P t → (∀ h, P h → C h) → triple okE P (alone t) (λ _, P) C.
Proof.
  intros Ht HC h es Hes HP. revert es h Hes HP Ht. unfold alone.
  induction t as [r|f c IH]; intros es h Hes HP Ht; [by destruct es|].
  destruct es as [|e es]; [by apply HC|]. apply Forall_cons in Hes as [He Hes].
  destruct (Ht e h) as [HG Hc]. apply IH; [done|by apply HG|done].
Qed.

Lemma call_skip {A B} (t : call A) (k : A → call B) (P : host → Prop) (Q : B → host → Prop)
    (C : host → Prop) :
  maintains P t → (∀ h, P h → C h) → (∀ a, triple okE P (alone (k a)) Q C) →
  triple okE P (alone (t ≫= k)) Q C.
Proof. intros Ht HC Hk. eapply alone_bind; [by apply call_maintains|done]. Qed.
End calls.

Lemma maintains_act {A} (P : host → Prop) (f : kernel → host → host * A) :
  reap_closed P → (∀ e h, P h → P (fst (f e h))) → maintains P (act f).
Proof. intros HP Hf. apply guarantees_atomic. intros e h Hh. by apply Hf, HP. Qed.

Lemma maintains_look {A} (P : host → Prop) (f : kernel → host → A) :
  reap_closed P → maintains P (look f).
Proof. intros HP. by apply maintains_act. Qed.

Lemma maintains_try (P : host → Prop) err (f : kernel → host → host) :
  reap_closed P → (∀ e h, P h → P (f e h)) → maintains P (try err f).
Proof. intros HP Hf. apply maintains_act; [done|]. intros e h Hh. case_match; simpl; auto. Qed.

Lemma maintains_bind {A B} (P : host → Prop) (t : call A) (k : A → call B) :
  maintains P t → (∀ a, maintains P (k a)) → maintains P (t ≫= k).
Proof. apply guarantees_bind. Qed.

Lemma maintains_ret {A} (P : host → Prop) (a : A) : maintains P (mret a).
Proof. done. Qed.

Lemma maintains_Kill (P : host → Prop) s reached :
  reap_closed P → (∀ h, P h → P (h <| procs := deliver s reached (procs h) |>)) →
  maintains P (Kill s reached).
Proof.
  intros HP Hd. apply maintains_act; [done|]. intros e h Hh.
  destruct (bool_decide _); [|done]. destruct (ok e); [by apply Hd|done].
Qed.

Lemma maintains_network {A} (P : host → Prop) (t : thread coordinator net_env A) :
  (∀ n h, P h → P (h <| network := n |>)) → maintains P (on_network t).
Proof. intros HP. apply guarantees_zoom. intros n h. apply HP. Qed.

(** Delivering a signal never creates a process. *)
Lemma deliver_subseteq s reached m pid p :
  deliver s reached m !! pid = Some p → ∃ q, m !! pid = Some q ∧ start_ticks q = start_ticks p.
Proof.
  unfold deliver. rewrite map_lookup_imap. intros (q & Hq & Hp)%bind_Some.
  exists q. split; [done|]. repeat case_match; by simplify_eq.
Qed.

Lemma deliver_kill reached m pid :
  deliver SIGKILL reached m !! pid =
  p ← m !! pid; if reached pid p then None else Some p.
Proof. unfold deliver. by rewrite map_lookup_imap. Qed.
