(* ===== verification/Runtime.v ===== *)
(** * The process runtime ([internal/runtime/manager.go])

    Workload records, the processes behind them and the cgroups that confine
    them: registration, policies, start, pause, resume and stop, adoption of
    a restored process, the parking of the frozen source of a checkpoint, and
    what an agent does with the records it finds after a restart.

    The goroutine that waits for a process and the watcher of an adopted one
    are [recordExit] at a moment of the environment's choosing.  Log files
    and the exec shim are answers of the kernel. *)
From Stdlib Require Import Ascii.
From S2P Require Import Prelude GoStr Model Workload Prog Conc Network Host.

Local Open Scope string_scope.
Local Open Scope Z_scope.

(** ** Cgroups *)

(** [strings.NewReplacer] of [CgroupManager.path]: slashes, backslashes and
    [..] become underscores. *)
Fixpoint cgroup_name (id : string) : string :=
  match id with
  | EmptyString => EmptyString
  | String a rest =>
      if decide (a = "/"%char ∨ a = "\"%char) then String "_"%char (cgroup_name rest)
      else match rest with
           | String b rest' =>
               if decide (a = "."%char ∧ b = "."%char) then String "_"%char (cgroup_name rest')
               else String a (cgroup_name rest)
           | EmptyString => String a EmptyString
           end
  end.

Definition move_cgroup (from to : string) (h : host) : host :=
  h <| procs := (λ p, if in_cgroup from 0 p then p <| cgroup := to |> else p) <$> procs h |>.

(** [CgroupManager.ParkFrozenSource], when cgroups are enabled. *)
Definition ParkFrozenSource (w : Workload) (key : string) : call (result unit) :=
  try "park frozen source" (λ _, move_cgroup (cgroup_name (SpecID (Spec w))) (cgroup_name key)).

(** [CgroupManager.UnparkFrozenSource]. *)
Definition UnparkFrozenSource (workloadID key : string) : call (result unit) :=
  try "unpark frozen source" (λ _, move_cgroup (cgroup_name key) (cgroup_name workloadID)).

(** [CgroupManager.ReapFrozenSource]: [cgroup.kill] on the parked tree. *)
Definition ReapFrozenSource (key : string) : call (result unit) :=
  try "reap frozen source" (λ _ h,
    h <| procs := deliver SIGKILL (in_cgroup (cgroup_name key)) (procs h) |>).

(** ** The manager *)

Definition errWorkloadNotFound : string := "record not found".

(** [records.List]. *)
Definition listed (h : host) : list Workload :=
  snd <$> merge_sort (λ a b, Is_true (String.leb a.1 b.1)) (map_to_list (workloads h)).

(** [Manager.Get]. *)
Definition Get (h : host) (idOrName : string) : result Workload :=
  match workloads h !! idOrName with
  | Some w => Ok w
  | None => match list_find (λ w, SpecName (Spec w) = idOrName) (listed h) with
            | Some (_, w) => Ok w
            | None => Err errWorkloadNotFound
            end
  end.

Definition get_workload (idOrName : string) : call (result Workload) :=
  look (λ _ h, Get h idOrName).

(** [workload.Generation++]. *)
Definition next_generation (w : Workload) : Workload :=
  w <| Generation := uint64 (Generation w + 1) |>.

(** [return workload, m.records.Put(...)]. *)
Definition stored (w : Workload) : call (result Workload) :=
  put ← put_workload (SpecID (Spec w)) w;
  mret (_ ← put; Ok w).

Section manager.
(** The agent's working directory, Go's URL parser and [strings.EqualFold];
    whether the agent is privileged, and its own ids. *)
Context (cwd : result string) (url_Parse : string → result URL)
        (EqualFold : string → string → bool) (privileged : bool) (euid egid : Z).

Definition Normalize (e : kernel) (s : WorkloadSpec) : result WorkloadSpec :=
  WorkloadSpec_Normalize cwd (if ok e then Ok (text e) else Err "id") (clock e) url_Parse s.

(** The loop of [Create] over the existing records. *)
Definition collides (s : WorkloadSpec) (existing : Workload) : bool :=
  EqualFold (SpecName (Spec existing)) (SpecName s) ||
  bool_decide (SpecID (Spec existing) = SpecID s) ||
  EqualFold (SpecName (Spec existing)) (SpecID s) ||
  bool_decide (SpecID (Spec existing) = SpecName s).

(** [Create]. *)
Definition Create (spec : WorkloadSpec) : call (result Workload) :=
  normal ← look (λ e _, Normalize e spec);
  match normal with
  | Err err => mret (Err err)
  | Ok spec =>
      root ← succeeds "workload root must be a directory";
      match root with
      | Err err => mret (Err err)
      | Ok _ =>
          working ← succeeds "working directory does not exist or is not a directory";
          match working with
          | Err err => mret (Err err)
          | Ok _ =>
              taken ← look (λ _ h, existsb (collides spec) (listed h));
              if (taken : bool) then mret (Err "workload already exists")
              else stored {| Spec := spec; Status := WorkloadRegistered; Process := None;
                             LatestCheckpointID := ""; Generation := 1; LastError := "" |}
          end
      end
  end.

(** [SetCheckpointPolicy]. *)
Definition SetCheckpointPolicy (idOrName : string) (policy : option CheckpointPolicySpec)
    : call (result Workload) :=
  match CheckpointPolicySpec_Validate policy with
  | Err err => mret (Err err)
  | Ok _ =>
      found ← look (λ e h, w ← Get h idOrName; Ok (clock e, w));
      match found with
      | Err err => mret (Err err)
      | Ok (now, w) =>
          if bool_decide (policy = None) && bool_decide (is_Some (FailoverPolicy (Spec w))) then
            mret (Err "workload has a failover policy")
          else stored (w <| Spec := (Spec w) <| CheckpointPolicy := policy |>
                                             <| SpecUpdatedAt := now |> |>)
      end
  end.

(** [SetFailoverPolicy]. *)
Definition SetFailoverPolicy (idOrName : string) (policy : option FailoverPolicySpec)
    : call (result Workload) :=
  match FailoverPolicySpec_Validate url_Parse policy with
  | Err err => mret (Err err)
  | Ok policy =>
      found ← look (λ e h, w ← Get h idOrName; Ok (clock e, w));
      match found with
      | Err err => mret (Err err)
      | Ok (now, w) =>
          if bool_decide (is_Some policy) && bool_decide (CheckpointPolicy (Spec w) = None) then
            mret (Err "failover policy requires a checkpoint policy")
          else stored (w <| Spec := (Spec w) <| FailoverPolicy := policy |>
                                             <| SpecUpdatedAt := now |> |>)
      end
  end.

(** Calls that only have to succeed, in order. *)
Fixpoint preflight (errs : list string) : call (result unit) :=
  match errs with
  | [] => mret (Ok tt)
  | err :: rest =>
      r ← succeeds err;
      match r with
      | Err err => mret (Err err)
      | Ok _ => preflight rest
      end
  end.

#[global] Arguments preflight : simpl never.

(** [waitForStartTicks]. *)
Fixpoint waitForStartTicks (attempts : nat) (pid : Z) : call (result Z) :=
  match attempts with
  | O => mret (Err "read process identity")
  | S attempts =>
      value ← look (λ e h, if ok e then start_ticks <$> procs h !! pid else None);
      match value with
      | Some t => mret (Ok t)
      | None => waitForStartTicks attempts pid
      end
  end.

(** [command.Start]: the child leads its own session and group, in the
    workload's cgroup.  The kernel never hands out the pid of a process that
    still exists. *)
Definition spawn (w : Workload) : call (result Z) :=
  act (λ e h,
    if ok e && (0 <? num e) && bool_decide (procs h !! num e = None) then
      (h <| procs := <[num e := {| start_ticks := ticks e; group := num e; frozen := false;
                                   cgroup := cgroup_name (SpecID (Spec w));
                                   uid := UID (Spec w); gid := GID (Spec w) |}]> (procs h) |>,
       Ok (num e))
    else (h, Err "start workload")).

(** [command.Process.Kill] on the agent's own child, and the group kill of a
    tree the agent has just started: neither can be refused. *)
Definition kill_child (pid : Z) : call unit :=
  act (λ _ h, (h <| procs := deliver SIGKILL (in_group pid) (procs h) |>, tt)).

(** The record of a workload that was just started. *)
Definition started (w : Workload) (pid pgid startTicks now : Z) : Workload :=
  next_generation
    (w <| Status := WorkloadRunning |>
       <| Process := Some {| PID := pid; PGID := pgid; ProcStartTicks := startTicks;
                             StartedAt := now; ExitCode := None |} |>
       <| LastError := "" |>).

(** The part of [Start] after the process exists. *)
Definition record_start (w : Workload) (pid : Z) : call (result Workload) :=
  startTicks ← waitForStartTicks 20 pid;
  match startTicks with
  | Err err => _ ← kill_child pid; mret (Err err)
  | Ok startTicks =>
      pgid ← look (λ e h, if ok e then match procs h !! pid with
                                       | Some p => Ok (group p, clock e)
                                       | None => Err errESRCH
                                       end
                          else Err "getpgid");
      match pgid with
      | Err err => _ ← kill_child pid; mret (Err err)
      | Ok (pgid, now) =>
          let w := started w pid pgid startTicks now in
          put ← put_workload (SpecID (Spec w)) w;
          match put with
          | Err err => _ ← kill_child pgid; mret (Err err)
          | Ok _ =>
              _ ← act (λ _ h, (h <| stopping := stopping h ∖ {[SpecID (Spec w)]} |>, tt));
              mret (Ok w)
          end
      end
  end.

(** [Start]. *)
Definition Start (idOrName : string) : call (result Workload) :=
  found ← look (λ _ h, w ← Get h idOrName; Ok (w, process_alive h (Process w)));
  match found with
  | Err err => mret (Err err)
  | Ok (w, alive) =>
      if (alive : bool) then mret (Err "workload is already running")
      else if negb (bool_decide (Status w ∈ [WorkloadRegistered; WorkloadStopped;
                                             WorkloadCheckpointed; WorkloadFailed])) then
        mret (Err "cannot start workload")
      else
        ready ← preflight (["resolve executable"; "open workload log"; "prepare workload cgroup"] ++
                           (if privileged then ["resolve the agent binary"] else []))%list;
        match ready with
        | Err err => mret (Err err)
        | Ok _ =>
            if negb privileged && negb ((UID (Spec w) =? euid) && (GID (Spec w) =? egid)) then
              mret (Err "changing workload uid/gid requires a root agent")
            else
              pid ← spawn w;
              match pid with
              | Err err => mret (Err err)
              | Ok pid => record_start w pid
              end
        end
  end.

(** [signalAndUpdate]. *)
Definition signalAndUpdate (idOrName : string) (s : signal) (status : WorkloadStatus)
    : call (result Workload) :=
  found ← look (λ _ h, w ← Get h idOrName;
                       if process_alive h (Process w) then Ok w
                       else Err "workload process is not alive");
  match found with
  | Err err => mret (Err err)
  | Ok w =>
      signaled ← Kill s (in_group (match Process w with Some p => PGID p | None => 0 end));
      match signaled with
      | Err err => mret (Err "signal workload")
      | Ok _ => stored (next_generation (w <| Status := status |>))
      end
  end.

Definition Pause (idOrName : string) : call (result Workload) :=
  signalAndUpdate idOrName SIGSTOP WorkloadPaused.
Definition Resume (idOrName : string) : call (result Workload) :=
  signalAndUpdate idOrName SIGCONT WorkloadRunning.

(** [Stop] once the tree has been told to end: kill what is left of it after
    the grace period, then record the end. *)
Definition finish_stop (id : string) (process : ProcessState) : call (result Workload) :=
  alive ← look (λ _ h, ProcessAlive h (PID process) (ProcStartTicks process));
  killed ← (if (alive : bool) then Kill SIGKILL (in_group (PGID process)) else mret (Ok tt));
  if negb (bool_decide (killed ∈ [Ok tt; Err errESRCH])) then mret (Err errEPERM)
  else
    found ← get_workload id;
    match found with
    | Err err => mret (Err err)
    | Ok w =>
        let w := next_generation (w <| Status := WorkloadStopped |> <| Process := None |>) in
        put ← put_workload (SpecID (Spec w)) w;
        match put with
        | Err err => mret (Err err)
        | Ok _ =>
            _ ← act (λ _ h, (h <| stopping := stopping h ∖ {[SpecID (Spec w)]} |>, tt));
            mret (Ok w)
        end
    end.

(** [Stop]. *)
Definition Stop (idOrName : string) : call (result Workload) :=
  found ← look (λ _ h, w ← Get h idOrName; Ok (w, process_alive h (Process w)));
  match found with
  | Err err => mret (Err err)
  | Ok (w, alive) =>
      match Process w, (alive : bool) with
      | Some process, true =>
          _ ← act (λ _ h, (h <| stopping := stopping h ∪ {[SpecID (Spec w)]} |>, tt));
          terminated ←
            (if decide (Status w = WorkloadCheckpointed) then Kill SIGKILL (in_group (PGID process))
             else _ ← Kill SIGCONT (in_group (PGID process));
                  Kill SIGTERM (in_group (PGID process)));
          if negb (bool_decide (terminated ∈ [Ok tt; Err errESRCH])) then
            _ ← act (λ _ h, (h <| stopping := stopping h ∖ {[SpecID (Spec w)]} |>, tt));
            mret (Err errEPERM)
          else finish_stop (SpecID (Spec w)) process
      | _, _ =>
          _ ← act (λ _ h, (h <| stopping := stopping h ∖ {[SpecID (Spec w)]} |>, tt));
          stored (next_generation (w <| Status := WorkloadStopped |> <| Process := None |>))
      end
  end.

(** [Retire]. *)
Definition Retire (id : string) : call unit :=
  act (λ _ h, (h <| stopping := stopping h ∪ {[id]} |>, tt)).

(** [verifyRestoredCredentials] on what [/proc] says. *)
Definition verifyRestoredCredentials (h : host) (e : kernel) (pid : Z) (s : WorkloadSpec)
    : result unit :=
  match (if ok e then procs h !! pid else None) with
  | None => Err "cannot verify the restored process's credentials"
  | Some p => require ((uid p =? UID s) && (gid p =? GID s))
                "the restored process has another identity than the manifest declares"
  end.

(** [AdoptRestored]. *)
Definition AdoptRestored (id : string) (pid : Z) : call (result Workload) :=
  found ← get_workload id;
  match found with
  | Err err => mret (Err err)
  | Ok w =>
      verified ← look (λ e h, verifyRestoredCredentials h e pid (Spec w));
      match verified with
      | Err err => _ ← Kill SIGKILL (is_pid pid); mret (Err err)
      | Ok _ =>
          identity ← look (λ e h, match (if ok e then procs h !! pid else None) with
                                  | Some p => Ok (start_ticks p, group p, clock e)
                                  | None => Err errESRCH
                                  end);
          match identity with
          | Err err => mret (Err err)
          | Ok (startTicks, pgid, now) =>
              let w := next_generation
                (w <| Process := Some {| PID := pid; PGID := pgid; ProcStartTicks := startTicks;
                                         StartedAt := now; ExitCode := None |} |>
                   <| Status := WorkloadRunning |>) in
              _ ← act (λ _ h, (h <| stopping := stopping h ∖ {[id]} |>, tt));
              attached ← try "attach to cgroup" (λ _ h,
                h <| procs := alter (λ p, p <| cgroup := cgroup_name (SpecID (Spec w)) |>) pid
                                (procs h) |>);
              match attached with
              | Err err => mret (Err err)
              | Ok _ => put ← put_workload id w; mret (_ ← put; Ok w)
              end
          end
      end
  end.

(** [PrepareRestore]: the record a restore runs under, and whether it is new. *)
Definition PrepareRestore (spec : WorkloadSpec) : call (result (Workload * bool)) :=
  found ← look (λ e h, (Get h (SpecID spec), Normalize e spec));
  match found with
  | (Err _, normal) =>
      match normal with
      | Err err => mret (Err err)
      | Ok spec =>
          taken ← look (λ _ h, existsb (λ x, EqualFold (SpecName (Spec x)) (SpecName spec) &&
                                negb (bool_decide (SpecID (Spec x) = SpecID spec))) (listed h));
          if (taken : bool) then mret (Err "workload name already exists")
          else
            let w := {| Spec := spec; Status := WorkloadRestoring; Process := None;
                        LatestCheckpointID := ""; Generation := 1; LastError := "" |} in
            put ← put_workload (SpecID spec) w;
            mret (_ ← put; Ok (w, true))
      end
  | (Ok w, normal) =>
      if negb (bool_decide (SpecID (Spec w) = SpecID spec)) then
        mret (Err "restore spec id does not match the workload record it would replace")
      else if negb (EqualFold (SpecName (Spec w)) (SpecName spec)) then
        mret (Err "restore cannot rename workload")
      else
        match normal with
        | Err err => mret (Err err)
        | Ok spec =>
            alive ← look (λ _ h, process_alive h (Process w));
            if (alive : bool) && negb (bool_decide (Status w = WorkloadCheckpointed)) then
              mret (Err "destination workload is already active")
            else
              let w := next_generation (w <| Spec := spec |> <| Status := WorkloadRestoring |>
                                          <| Process := None |>) in
              put ← put_workload (SpecID spec) w;
              mret (_ ← put; Ok (w, false))
        end
  end.

(** [MarkRestoreFailed]. *)
Definition MarkRestoreFailed (id reason : string) : call (result unit) :=
  found ← get_workload id;
  match found with
  | Err err => mret (Err err)
  | Ok w => put_workload id (next_generation (w <| Status := WorkloadFailed |>
                                                <| Process := None |> <| LastError := reason |>))
  end.

(** [RestoreMetadata]. *)
Definition RestoreMetadata (w : Workload) : call (result unit) :=
  if decide (SpecID (Spec w) = "") then mret (Err "workload id is required")
  else
    active ← look (λ _ h, match Get h (SpecID (Spec w)) with
                          | Ok current => process_alive h (Process current)
                          | Err _ => false
                          end);
    if (active : bool) then mret (Err "cannot replace metadata for an active workload")
    else put_workload (SpecID (Spec w)) w.

(** [MarkCheckpoint]. *)
Definition MarkCheckpoint (id checkpointID : string) (sourceStillRunning : bool)
    : call (result Workload) :=
  found ← get_workload id;
  match found with
  | Err err => mret (Err err)
  | Ok w => stored (next_generation
              (w <| LatestCheckpointID := checkpointID |>
                 <| Status := if sourceStillRunning then WorkloadRunning else WorkloadCheckpointed |>))
  end.

(** [Delete]. *)
Definition Delete (idOrName : string) : call (result unit) :=
  found ← look (λ _ h, w ← Get h idOrName; Ok (w, process_alive h (Process w)));
  match found with
  | Err err => mret (Err err)
  | Ok (w, alive) =>
      if (alive : bool) then mret (Err "stop the workload before deleting it")
      else try "delete record" (λ _ h, h <| workloads := delete (SpecID (Spec w)) (workloads h) |>)
  end.

(** What [Reconcile] makes of the record of a process that is gone. *)
Definition reconciled (w : Workload) : Workload :=
  next_generation
    (if bool_decide (Status w ∈ [WorkloadRunning; WorkloadPaused; WorkloadStarting]) then
       w <| Process := None |> <| Status := WorkloadFailed |>
         <| LastError := "recorded process is no longer running" |>
     else w <| Process := None |> <| Status := WorkloadStopped |>).

Fixpoint reconcile_all (ws : list Workload) : call (result unit) :=
  match ws with
  | [] => mret (Ok tt)
  | w :: rest =>
      if decide (Process w = None) then reconcile_all rest
      else
        alive ← look (λ _ h, process_alive h (Process w));
        if (alive : bool) then reconcile_all rest
        else
          put ← put_workload (SpecID (Spec w)) (reconciled w);
          match put with
          | Err err => mret (Err err)
          | Ok _ => reconcile_all rest
          end
  end.

(** [Reconcile]. *)
Definition Reconcile : call (result unit) :=
  ws ← look (λ _ h, listed h);
  reconcile_all ws.

(** [portHoldingWorkloads]. *)
Definition portHoldingWorkloads (h : host) : list Workload :=
  filter (λ w, Process w ≠ None ∨ Status w = WorkloadCheckpointed) (listed h).

(** [OpenManagerWithCgroups], once the collection is open: [stopping] starts
    empty, the records are reconciled and the port claims rebuilt. *)
Definition OpenManager : call (result unit) :=
  _ ← act (λ _ h, (h <| stopping := ∅ |>, tt));
  r ← Reconcile;
  match r with
  | Err err => mret (Err err)
  | Ok _ =>
      _ ← act (λ _ h, (h <| network := RebuildReservations (portHoldingWorkloads h) (network h) |>, tt));
      mret (Ok tt)
  end.

(** [recordExit]: [exitErr] is the error [Wait] or the watcher reported. *)
Definition recordExit (id : string) (startTicks : Z) (exitErr : option string) : call unit :=
  found ← look (λ _ h, workloads h !! id);
  match found with
  | None => mret tt
  | Some w =>
      match Process w with
      | None => mret tt
      | Some process =>
          if negb (ProcStartTicks process =? startTicks) then mret tt
          else
            retired ← act (λ _ h, (h <| stopping := stopping h ∖ {[id]} |>,
                                   bool_decide (id ∈ stopping h)));
            let w := next_generation
              (match exitErr, (retired : bool) with
               | Some err, false =>
                   w <| LastError := err |> <| Status := WorkloadFailed |> <| Process := None |>
               | _, _ => w <| LastError := "" |> <| Status := WorkloadStopped |>
                           <| Process := None |>
               end) in
            _ ← put_workload id w;
            mret tt
      end
  end.
End manager.

(** ** Reasoning about calls *)

(** Calls that leave the workload records alone. *)
Definition same_workloads (h h' : host) : Prop := workloads h' = workloads h.

#[export] Instance same_workloads_preorder : PreOrder same_workloads.
Proof. split; [done|]. unfold same_workloads. intros h1 h2 h3. congruence. Qed.

Section rules.
Context (okE : kernel → Prop) (Inv : gmap string Workload → Prop).

(** The records are [m]; a crash leaves records of [Inv]. *)
Definition at_records {R} (m : gmap string Workload) (t : call R)
    (Q : R → gmap string Workload → Prop) : Prop :=
  triple okE (λ h, workloads h = m) (alone t) (λ r h, Q r (workloads h)) (λ h, Inv (workloads h)).

Lemma at_ret {R} m (r : R) Q : Q r m → at_records m (mret r) Q.
Proof. intros HQ. apply alone_ret. by intros h ->. Qed.

Lemma at_look {A R} m (f : kernel → host → A) (k : A → call R) Q :
  Inv m → (∀ e h, okE e → workloads h = m → at_records m (k (f e h)) Q) →
  at_records m (look f ≫= k) Q.
Proof.
  intros Hm Hk h es Hes Hh. destruct es as [|e es]; [by simpl; rewrite Hh|].
  apply Forall_cons in Hes as [He Hes].
  exact (Hk e (reap e h) He Hh (reap e h) es Hes Hh).
Qed.

Lemma at_quiet {A R} m (t : call A) (k : A → call R) Q :
  Inv m → guarantees same_workloads t → (∀ a, at_records m (k a) Q) →
  at_records m (t ≫= k) Q.
Proof.
  intros Hm Ht Hk. eapply (alone_bind _ _ _ _ (λ _ h, workloads h = m)); [|done].
  intros h es Hes Hh. revert es h Hes Hh Ht. unfold alone.
  induction t as [r|f c IH]; intros es h Hes Hh Ht; [by destruct es|].
  destruct es as [|e es]; [by simpl; rewrite Hh|]. apply Forall_cons in Hes as [He Hes].
  destruct (Ht e h) as [HG Hc]. apply IH; [done| |done]. by rewrite HG.
Qed.

Lemma at_put {R} m id w (k : result unit → call R) Q :
  Inv m → Inv (<[id := w]> m) →
  (∀ err, at_records m (k (Err err)) Q) → at_records (<[id := w]> m) (k (Ok tt)) Q →
  at_records m (put_workload id w ≫= k) Q.
Proof.
  intros Hm Hm' Herr Hok. eapply (alone_bind _ _ _ _ (λ r h,
    workloads h = match r with Ok _ => <[id := w]> m | Err _ => m end)).
  - apply alone_atomic; [by intros h ->|]. intros e h _ Hh. cbv beta.
    destruct (ok e); simpl; by rewrite ?Hh.
  - intros [[]|err]; [apply Hok|apply Herr].
Qed.

Lemma at_post {R} m (t : call R) (Q Q' : R → gmap string Workload → Prop) :
  (∀ r m', Q r m' → Q' r m') → at_records m t Q → at_records m t Q'.
Proof. intros H. apply triple_post. intros r h. apply H. Qed.

Lemma at_stored {R} m w (k : result Workload → call R) Q :
  Inv m → Inv (<[SpecID (Spec w) := w]> m) →
  (∀ err, at_records m (k (Err err)) Q) →
  at_records (<[SpecID (Spec w) := w]> m) (k (Ok w)) Q → at_records m (stored w ≫= k) Q.
Proof.
  intros Hm Hm' Herr Hok. unfold stored.
  change ((?t ≫= ?f) ≫= k) with (thread_bind_fix k (thread_bind_fix f t)).
  apply (at_put m (SpecID (Spec w)) w
    (λ put, thread_bind_fix k (mret (_ ← put; Ok w) : call _))); try done.
Qed.
End rules.

Lemma quiet_act {A} (f : kernel → host → host * A) :
  (∀ e h, workloads (fst (f e h)) = workloads h) → guarantees same_workloads (act f).
Proof. intros H. apply guarantees_atomic. intros e h. unfold same_workloads. by rewrite H. Qed.

Lemma quiet_look {A} (f : kernel → host → A) : guarantees same_workloads (look f).
Proof. by apply quiet_act. Qed.

Lemma quiet_try err (f : kernel → host → host) :
  (∀ e h, workloads (f e h) = workloads h) → guarantees same_workloads (try err f).
Proof. intros H. apply quiet_act. intros e h. case_match; simpl; auto. Qed.

Lemma quiet_Kill s reached : guarantees same_workloads (Kill s reached).
Proof. apply quiet_act. intros e h. by repeat case_match. Qed.

Lemma quiet_preflight errs : guarantees same_workloads (preflight errs).
Proof.
  induction errs as [|err errs IH]; [done|]. cbn [preflight].
  apply guarantees_bind; [by apply quiet_try|]. by intros [].
Qed.

Lemma quiet_waitForStartTicks n pid : guarantees same_workloads (waitForStartTicks n pid).
Proof.
  induction n as [|n IH]; [done|]. cbn [waitForStartTicks].
  apply guarantees_bind; [apply quiet_look|]. by intros [].
Qed.

(** ** The registry *)

(** Requests to the manager. *)
Inductive runtime_op :=
| OCreate (spec : WorkloadSpec)
| OSetCheckpointPolicy (id : string) (p : option CheckpointPolicySpec)
| OSetFailoverPolicy (id : string) (p : option FailoverPolicySpec)
| OStart (id : string)
| OSignal (id : string) (s : signal) (status : WorkloadStatus)
| OStop (id : string)
| ORetire (id : string)
| OAdoptRestored (id : string) (pid : Z)
| OPark (w : Workload) (key : string)
| OUnpark (id key : string)
| OReap (key : string)
| OPrepareRestore (spec : WorkloadSpec)
| OMarkRestoreFailed (id reason : string)
| ORestoreMetadata (w : Workload)
| OMarkCheckpoint (id checkpoint : string) (running : bool)
| ODelete (id : string)
| OOpenManager
| ORecordExit (id : string) (startTicks : Z) (exitErr : option string).

Definition done_with {A} (t : call A) : call unit := _ ← t; mret tt.

Section registry.
Context (cwd : result string) (url_Parse : string → result URL)
        (EqualFold : string → string → bool) (privileged : bool) (euid egid : Z).

Definition perform_op (o : runtime_op) : call unit :=
  match o with
  | OCreate s => done_with (Create cwd url_Parse EqualFold s)
  | OSetCheckpointPolicy id p => done_with (SetCheckpointPolicy id p)
  | OSetFailoverPolicy id p => done_with (SetFailoverPolicy url_Parse id p)
  | OStart id => done_with (Start privileged euid egid id)
  | OSignal id s status => done_with (signalAndUpdate id s status)
  | OStop id => done_with (Stop id)
  | ORetire id => Retire id
  | OAdoptRestored id pid => done_with (AdoptRestored id pid)
  | OPark w key => done_with (ParkFrozenSource w key)
  | OUnpark id key => done_with (UnparkFrozenSource id key)
  | OReap key => done_with (ReapFrozenSource key)
  | OPrepareRestore s => done_with (PrepareRestore cwd url_Parse EqualFold s)
  | OMarkRestoreFailed id reason => done_with (MarkRestoreFailed id reason)
  | ORestoreMetadata w => done_with (RestoreMetadata w)
  | OMarkCheckpoint id c b => done_with (MarkCheckpoint id c b)
  | ODelete id => done_with (Delete id)
  | OOpenManager => done_with OpenManager
  | ORecordExit id t err => recordExit id t err
  end.

(** Records sit under their id, and every specification is one admission
    would accept. *)
Definition registered (m : gmap string Workload) : Prop :=
  map_Forall (λ id w, SpecID (Spec w) = id ∧ admitted url_Parse (Spec w)) m.

(** No two workloads have the same name, whatever its case. *)
Definition names_distinct (m : gmap string Workload) : Prop :=
  ∀ i j v w, m !! i = Some v → m !! j = Some w → i ≠ j →
    EqualFold (SpecName (Spec v)) (SpecName (Spec w)) = false.

Definition registry (m : gmap string Workload) : Prop := registered m ∧ names_distinct m.

(** A record that may replace whatever is under its id. *)
Definition fits (m : gmap string Workload) (w : Workload) : Prop :=
  admitted url_Parse (Spec w) ∧
  ∀ j v, m !! j = Some v → j ≠ SpecID (Spec w) →
    EqualFold (SpecName (Spec v)) (SpecName (Spec w)) = false.

(** What the callers within the agent provide: ids of registered workloads
    where the operation writes under the id it was given, and metadata that
    was a record of the registry. *)
Definition admissible_op (o : runtime_op) (m : gmap string Workload) : Prop :=
  match o with
  | OAdoptRestored id _ | OMarkRestoreFailed id _ => is_Some (m !! id)
  | ORestoreMetadata w => fits m w
  | _ => True
  end.

(** One request served to its end, or up to a crash. *)
Inductive runtime_step (okE : kernel → Prop) : host → host → Prop :=
| serve_op o es h :
    Forall okE es → admissible_op o (workloads h) →
    runtime_step okE h (final (alone (perform_op o) h es)).

(** *** Preservation *)

Context (cwd_abs : ∀ d, cwd = Ok d → IsAbs d = true)
        (fold_sym : ∀ a b, EqualFold a b = EqualFold b a)
        (fold_trans : ∀ a b c, EqualFold a b = true → EqualFold a c = EqualFold b c)
        (fold_refl : ∀ a, EqualFold a a = true).

(** The clock never reads zero and fresh ids are not empty. *)
Definition sane_kernel (e : kernel) : Prop := clock e ≠ 0 ∧ text e ≠ "".

Lemma elem_of_listed h w : w ∈ listed h ↔ ∃ id, workloads h !! id = Some w.
Proof.
  unfold listed. rewrite list_elem_of_fmap. setoid_rewrite merge_sort_Permutation. split.
  - intros ([id v] & -> & Hv). exists id. by apply elem_of_map_to_list.
  - intros [id Hw]. exists (id, w). split; [done|]. by apply elem_of_map_to_list.
Qed.

Lemma Get_registered h x w :
  registered (workloads h) → Get h x = Ok w → workloads h !! SpecID (Spec w) = Some w.
Proof.
  intros Hr. unfold Get. destruct (workloads h !! x) as [v|] eqn:Hx.
  - intros [= ->]. destruct (Hr x w Hx) as [<- _]. done.
  - destruct (list_find _ _) as [[i v]|] eqn:Hf; [|done]. intros [= ->].
    apply list_find_Some in Hf as (Hv & _ & _). apply list_elem_of_lookup_2, elem_of_listed in Hv
      as [id Hid]. destruct (Hr id w Hid) as [<- _]. done.
Qed.

Lemma registry_insert m w : registry m → fits m w → registry (<[SpecID (Spec w) := w]> m).
Proof using fold_sym.
  intros [Hr Hn] [Ha Hf]. split.
  - apply map_Forall_insert_2; [done|done].
  - intros i j v u Hi Hj Hij. apply lookup_insert_Some in Hi as [[<- <-]|[Hi1 Hi]].
    + rewrite lookup_insert_ne in Hj by done. rewrite fold_sym. by apply (Hf j).
    + apply lookup_insert_Some in Hj as [[<- <-]|[Hj1 Hj]]; [by apply (Hf i)|by apply (Hn i j)].
Qed.

(** The next record of a registered workload. *)
Lemma fits_update m v w :
  registry m → m !! SpecID (Spec w) = Some v → admitted url_Parse (Spec w) →
  EqualFold (SpecName (Spec v)) (SpecName (Spec w)) = true → fits m w.
Proof using fold_sym fold_trans.
  intros [Hr Hn] Hv Ha He. split; [done|]. intros j u Hu Hj.
  rewrite fold_sym, <- (fold_trans _ _ _ He). rewrite fold_sym. by apply (Hn j (SpecID (Spec w))).
Qed.

Lemma fits_same_spec m w v :
  registry m → m !! SpecID (Spec v) = Some v → Spec w = Spec v → fits m w.
Proof using fold_sym fold_trans fold_refl.
  intros Hm Hv Hs. apply (fits_update m v); rewrite ?Hs; try done.
  by destruct Hm as [Hr _], (Hr _ _ Hv).
Qed.

#[local] Abbreviation keeps m t :=
  (at_records sane_kernel registry m t (λ _ m', registry m')).

Lemma keeps_put m id w : registry m → registry (<[id := w]> m) → keeps m (put_workload id w).
Proof.
  intros Hm Hm'. apply alone_atomic; [by intros h ->|]. intros e h _ Hh. cbv beta.
  destruct (ok e); simpl; by rewrite Hh.
Qed.

Lemma keeps_stored m w : registry m → fits m w → keeps m (stored w).
Proof using fold_sym.
  intros Hm Hf. pose proof (registry_insert m w Hm Hf) as Hm'.
  apply at_put; [done|done|intros err|]; by apply at_ret.
Qed.

Lemma keeps_done {A} m (t : call A) : keeps m t → keeps m (done_with t).
Proof.
  intros Ht. eapply alone_bind; [apply Ht|]. intros a. by apply alone_ret.
Qed.

Lemma keeps_quiet {A R} m (t : call A) (k : A → call R) :
  registry m → guarantees same_workloads t → (∀ a, keeps m (k a)) → keeps m (t ≫= k).
Proof. intros. by apply at_quiet. Qed.

Lemma Normalize_admitted e s s' :
  sane_kernel e → Normalize cwd url_Parse e s = Ok s' → admitted url_Parse s'.
Proof using cwd_abs.
  intros [Hc Ht]. unfold Normalize. intros H. eapply Normalize_admits; [done| |exact Hc|exact H].
  by destruct (ok e); congruence.
Qed.

Lemma Normalize_identity e s s' :
  SpecID s ≠ "" → Normalize cwd url_Parse e s = Ok s' →
  SpecID s' = SpecID s ∧ SpecName s' = SpecName s.
Proof. unfold Normalize. apply Normalize_identity_kept. Qed.

Lemma keeps_Create m s : registry m → keeps m (Create cwd url_Parse EqualFold s).
Proof using cwd_abs fold_sym.
  intros Hm. unfold Create. apply at_look; [done|]. intros e h He Hh.
  destruct (Normalize cwd url_Parse e s) as [s'|err] eqn:Hs; [|by apply at_ret].
  apply Normalize_admitted in Hs; [|done].
  do 2 (apply keeps_quiet; [done|by apply quiet_try|]; intros [?|?]; [|by apply at_ret]).
  apply at_look; [done|]. intros e2 h2 _ Hh2.
  destruct (existsb _ _) eqn:Hx; [by apply at_ret|]. apply keeps_stored; [done|].
  split; [done|]. intros j v Hv Hj. simpl in *.
  assert (collides EqualFold s' v = false) as Hcol.
  { destruct (collides EqualFold s' v) eqn:E; [|done].
    rewrite <- Hx. symmetry. apply existsb_exists. exists v. split; [|done].
    apply list_elem_of_In, elem_of_listed. exists j. by rewrite Hh2. }
  unfold collides in Hcol. by to_prop.
Qed.

Lemma keeps_SetCheckpointPolicy m id p : registry m → keeps m (SetCheckpointPolicy id p).
Proof using fold_sym fold_trans fold_refl.
  intros Hm. unfold SetCheckpointPolicy.
  destruct (CheckpointPolicySpec_Validate p) as [[]|err] eqn:Hp; [|by apply at_ret].
  apply at_look; [done|]. intros e h _ Hh.
  destruct (Get h id) as [w|err] eqn:Hg; [|by apply at_ret]. ok_step.
  apply Get_registered in Hg; [|by rewrite Hh; destruct Hm]. rewrite Hh in Hg.
  case_match eqn:Hx; [by apply at_ret|]. apply keeps_stored; [done|].
  apply (fits_update m w); [done|done| |apply fold_refl].
  destruct Hm as [Hr _], (Hr _ _ Hg) as [_ Ha]. destruct Ha. split; simpl; try done.
  - by eapply CheckpointPolicySpec_Validate_ok.
  - intros f Hf. destruct (ad_failover f Hf) as [? _]. split; [done|].
    destruct p; [by eexists|]. by rewrite Hf in Hx.
Qed.

Lemma keeps_SetFailoverPolicy m id p : registry m → keeps m (SetFailoverPolicy url_Parse id p).
Proof using fold_sym fold_trans fold_refl.
  intros Hm. unfold SetFailoverPolicy.
  destruct (FailoverPolicySpec_Validate url_Parse p) as [p'|err] eqn:Hp; [|by apply at_ret].
  apply FailoverPolicySpec_Validate_admits in Hp as [_ Hp].
  apply at_look; [done|]. intros e h _ Hh.
  destruct (Get h id) as [w|err] eqn:Hg; [|by apply at_ret]. ok_step.
  apply Get_registered in Hg; [|by rewrite Hh; destruct Hm]. rewrite Hh in Hg.
  case_match eqn:Hx; [by apply at_ret|]. apply keeps_stored; [done|].
  apply (fits_update m w); [done|done| |apply fold_refl].
  destruct Hm as [Hr _], (Hr _ _ Hg) as [_ Ha]. destruct Ha. split; simpl; try done.
  intros f ->. split; [by apply Hp|]. destruct (CheckpointPolicy (Spec w)); [by eexists|done].
Qed.

(** A record with the specification of a registered workload. *)
Lemma keeps_stored_same m w v :
  registry m → m !! SpecID (Spec v) = Some v → Spec w = Spec v → keeps m (stored w).
Proof using fold_sym fold_trans fold_refl.
  intros. apply keeps_stored; [done|]. by eapply fits_same_spec.
Qed.

Lemma registry_insert_same m id w v :
  registry m → m !! id = Some v → Spec w = Spec v → registry (<[id := w]> m).
Proof using fold_sym fold_trans fold_refl.
  intros Hm Hv Hs. destruct Hm as [Hr Hn]. destruct (Hr _ _ Hv) as [Hid Ha].
  rewrite <- Hid, <- Hs. apply registry_insert; [done|].
  apply (fits_same_spec m w v); [done| |done]. by rewrite Hid.
Qed.

Lemma keeps_record_start m w pid :
  registry m → m !! SpecID (Spec w) = Some w → keeps m (record_start w pid).
Proof using fold_sym fold_trans fold_refl.
  intros Hm Hw. unfold record_start. apply keeps_quiet; [done|apply quiet_waitForStartTicks|].
  assert (∀ n err, keeps m (_ ← kill_child n; mret (Err err) : call (result Workload))) as Hkill.
  { intros n err. apply keeps_quiet; [done|by apply quiet_act|]. intros _. by apply at_ret. }
  intros [t|err]; [|apply Hkill]. apply keeps_quiet; [done|apply quiet_look|].
  intros [[pgid now]|err]; [|apply Hkill].
  assert (registry (<[SpecID (Spec w) := started w pid pgid t now]> m)) as Hm'
    by (by eapply (registry_insert_same m _ _ w)).
  apply at_put; [done|done|intros err; apply Hkill|].
  apply at_quiet; [done|by apply quiet_act|]. intros _. by apply at_ret.
Qed.

Lemma keeps_Start m id : registry m → keeps m (Start privileged euid egid id).
Proof using fold_sym fold_trans fold_refl.
  intros Hm. unfold Start. apply at_look; [done|]. intros e h _ Hh.
  destruct (Get h id) as [w|err] eqn:Hg; [|by apply at_ret]. ok_step.
  apply Get_registered in Hg; [|by rewrite Hh; destruct Hm]. rewrite Hh in Hg.
  case_match; [by apply at_ret|]. case_match; [by apply at_ret|].
  apply keeps_quiet; [done|apply quiet_preflight|]. intros [?|?]; [|by apply at_ret].
  case_match; [by apply at_ret|]. apply keeps_quiet; [done|..].
  { apply quiet_act. intros e' h'. by case_match. }
  intros [pid|?]; [by apply keeps_record_start|by apply at_ret].
Qed.

Lemma keeps_signal m id s status : registry m → keeps m (signalAndUpdate id s status).
Proof using fold_sym fold_trans fold_refl.
  intros Hm. unfold signalAndUpdate. apply at_look; [done|]. intros e h _ Hh.
  destruct (Get h id) as [w|err] eqn:Hg; [|by apply at_ret]. ok_step.
  apply Get_registered in Hg; [|by rewrite Hh; destruct Hm]. rewrite Hh in Hg.
  destruct (process_alive h (Process w)); [|by apply at_ret].
  apply keeps_quiet; [done|apply quiet_Kill|].
  intros [?|?]; [by apply (keeps_stored_same m _ w)|by apply at_ret].
Qed.

Lemma keeps_finish_stop m id p : registry m → keeps m (finish_stop id p).
Proof using fold_sym fold_trans fold_refl.
  intros Hm. unfold finish_stop. apply at_look; [done|]. intros e h _ Hh.
  apply keeps_quiet; [done|case_match; [apply quiet_Kill|done]|]. intros r.
  case_match; [by apply at_ret|]. apply at_look; [done|]. intros e' h' _ Hh'.
  destruct (Get h' id) as [w|err] eqn:Hg; [|by apply at_ret].
  apply Get_registered in Hg; [|by rewrite Hh'; destruct Hm]. rewrite Hh' in Hg.
  apply at_put; [done|by eapply (registry_insert_same m _ _ w)|intros; by apply at_ret|].
  apply at_quiet; [by eapply (registry_insert_same m _ _ w)|by apply quiet_act|]. intros _.
  apply at_ret. by eapply (registry_insert_same m _ _ w).
Qed.

Lemma keeps_Stop m id : registry m → keeps m (Stop id).
Proof using fold_sym fold_trans fold_refl.
  intros Hm. unfold Stop. apply at_look; [done|]. intros e h _ Hh.
  destruct (Get h id) as [w|err] eqn:Hg; [|by apply at_ret]. ok_step.
  apply Get_registered in Hg; [|by rewrite Hh; destruct Hm]. rewrite Hh in Hg.
  assert (keeps m (_ ← act (λ _ h, (h <| stopping := stopping h ∖ {[SpecID (Spec w)]} |>, tt));
    stored (next_generation (w <| Status := WorkloadStopped |> <| Process := None |>)))).
  { apply keeps_quiet; [done|by apply quiet_act|]. intros _. by apply (keeps_stored_same m _ w). }
  destruct (Process w) as [p|]; [|done]. case_match; [|done].
  apply keeps_quiet; [done|by apply quiet_act|]. intros _. apply keeps_quiet; [done|..].
  { case_decide; [apply quiet_Kill|]. apply guarantees_bind; [apply quiet_Kill|].
    intros _. apply quiet_Kill. }
  intros r. case_match; [|by apply keeps_finish_stop].
  apply keeps_quiet; [done|by apply quiet_act|]. intros _. by apply at_ret.
Qed.

Lemma keeps_AdoptRestored m id pid :
  registry m → is_Some (m !! id) → keeps m (AdoptRestored id pid).
Proof using fold_sym fold_trans fold_refl.
  intros Hm [v Hv]. unfold AdoptRestored. apply at_look; [done|]. intros e h _ Hh.
  unfold Get. rewrite Hh, Hv. apply keeps_quiet; [done|apply quiet_look|].
  intros [?|?].
  2:{ apply keeps_quiet; [done|apply quiet_Kill|]. intros _. by apply at_ret. }
  apply keeps_quiet; [done|apply quiet_look|]. intros [[[t g] now]|?]; [|by apply at_ret].
  apply keeps_quiet; [done|by apply quiet_act|]. intros _.
  apply keeps_quiet; [done|by apply quiet_try|]. intros [?|?]; [|by apply at_ret].
  apply at_put; [done|by eapply (registry_insert_same m _ _ v)|intros; by apply at_ret|].
  apply at_ret. by eapply (registry_insert_same m _ _ v).
Qed.

Lemma keeps_PrepareRestore m s :
  registry m → keeps m (PrepareRestore cwd url_Parse EqualFold s).
Proof using cwd_abs fold_sym fold_trans.
  intros Hm. unfold PrepareRestore. apply at_look; [done|]. intros e h He Hh.
  destruct (Get h (SpecID s)) as [w|err] eqn:Hg; cbv beta iota.
  - apply Get_registered in Hg; [|by rewrite Hh; destruct Hm]. rewrite Hh in Hg.
    destruct (bool_decide (SpecID (Spec w) = SpecID s)) eqn:Hid; [|by apply at_ret].
    destruct (EqualFold (SpecName (Spec w)) (SpecName s)) eqn:Hname; [|by apply at_ret].
    cbn [negb]. destruct (Normalize cwd url_Parse e s) as [s'|] eqn:Hs; [|by apply at_ret].
    assert (SpecID s' = SpecID s ∧ SpecName s' = SpecName s) as [Hid' Hname'].
    { eapply Normalize_identity; [|exact Hs]. to_prop. rewrite <- Hid.
      destruct Hm as [Hr _], (Hr _ _ Hg) as [_ []]. done. }
    apply Normalize_admitted in Hs; [|done]. to_prop.
    apply keeps_quiet; [done|apply quiet_look|]. intros alive. case_match; [by apply at_ret|].
    assert (registry (<[SpecID s' := next_generation (w <| Spec := s' |>
      <| Status := WorkloadRestoring |> <| Process := None |>)]> m)).
    { apply registry_insert; [done|]. apply (fits_update m w); simpl; [done| |done|].
      - by rewrite Hid', <- Hid.
      - by rewrite Hname'. }
    apply at_put; [done|done|intros; by apply at_ret|by apply at_ret].
  - destruct (Normalize cwd url_Parse e s) as [s'|] eqn:Hs; [|by apply at_ret].
    apply Normalize_admitted in Hs; [|done]. apply at_look; [done|]. intros e2 h2 _ Hh2.
    destruct (existsb _ _) eqn:Hx; [by apply at_ret|].
    assert (registry (<[SpecID s' := {| Spec := s'; Status := WorkloadRestoring;
      Process := None; LatestCheckpointID := ""; Generation := 1; LastError := "" |}]> m)).
    { apply (registry_insert m {| Spec := s'; Status := WorkloadRestoring; Process := None;
        LatestCheckpointID := ""; Generation := 1; LastError := "" |}); [done|].
      split; [done|]. intros j v Hv Hj. simpl in *.
      destruct (EqualFold (SpecName (Spec v)) (SpecName s')) eqn:E; [|done].
      rewrite <- Hx. symmetry. apply existsb_exists. exists v.
      split; [apply list_elem_of_In, elem_of_listed; exists j; by rewrite Hh2|].
      rewrite E. apply negb_true_iff, bool_decide_eq_false.
      destruct Hm as [Hr _], (Hr _ _ Hv) as [-> _]. done. }
    apply at_put; [done|done|intros; by apply at_ret|by apply at_ret].
Qed.

Lemma keeps_MarkRestoreFailed m id reason :
  registry m → is_Some (m !! id) → keeps m (MarkRestoreFailed id reason).
Proof using fold_sym fold_trans fold_refl.
  intros Hm [v Hv]. unfold MarkRestoreFailed. apply at_look; [done|]. intros e h _ Hh.
  unfold Get. rewrite Hh, Hv. apply keeps_put; [done|].
  by eapply (registry_insert_same m _ _ v).
Qed.

Lemma keeps_RestoreMetadata m w : registry m → fits m w → keeps m (RestoreMetadata w).
Proof using fold_sym.
  intros Hm Hf. unfold RestoreMetadata. case_decide; [by apply at_ret|].
  apply keeps_quiet; [done|apply quiet_look|]. intros [|]; [by apply at_ret|].
  apply keeps_put; [done|]. by apply registry_insert.
Qed.

Lemma keeps_MarkCheckpoint m id c b : registry m → keeps m (MarkCheckpoint id c b).
Proof using fold_sym fold_trans fold_refl.
  intros Hm. unfold MarkCheckpoint. apply at_look; [done|]. intros e h _ Hh.
  destruct (Get h id) as [w|err] eqn:Hg; [|by apply at_ret].
  apply Get_registered in Hg; [|by rewrite Hh; destruct Hm]. rewrite Hh in Hg.
  by apply (keeps_stored_same m _ w).
Qed.

Lemma keeps_Delete m id : registry m → keeps m (Delete id).
Proof.
  intros Hm. unfold Delete. apply at_look; [done|]. intros e h _ Hh.
  destruct (Get h id) as [w|err] eqn:Hg; [|by apply at_ret]. ok_step.
  case_match; [by apply at_ret|]. apply alone_atomic; [by intros ? ->|].
  intros e' h' _ Hh'. cbv beta. destruct (ok e'); simpl; rewrite Hh'; [|done].
  destruct Hm as [Hr Hn]. split; [by apply map_Forall_delete|].
  intros i j v u Hi%lookup_delete_Some Hj%lookup_delete_Some. naive_solver.
Qed.

Lemma keeps_reconcile ws m :
  registry m → NoDup ((λ w, SpecID (Spec w)) <$> ws) →
  (∀ w, w ∈ ws → m !! SpecID (Spec w) = Some w) → keeps m (reconcile_all ws).
Proof using fold_sym fold_trans fold_refl.
  revert m. induction ws as [|w ws IH]; intros m Hm Hn Hws; [by apply at_ret|].
  apply NoDup_cons in Hn as [Hw Hn]. cbn [reconcile_all].
  case_decide; [apply IH; [done|done|]; intros; apply Hws; by right|].
  apply at_quiet; [done|apply quiet_look|]. intros alive.
  destruct alive; [apply IH; [done|done|]; intros; apply Hws; by right|].
  assert (registry (<[SpecID (Spec w) := reconciled w]> m)).
  { eapply (registry_insert_same m _ _ w); [done|apply Hws; by left|].
    unfold reconciled. by case_match. }
  apply at_put; [done|done|intros; by apply at_ret|]. apply IH; [done|done|].
  intros v Hv. rewrite lookup_insert_ne; [apply Hws; by right|].
  intros E. apply Hw. rewrite E. by apply (list_elem_of_fmap_2 (λ w, SpecID (Spec w))).
Qed.

Lemma listed_ids h :
  registered (workloads h) → NoDup ((λ w, SpecID (Spec w)) <$> listed h).
Proof.
  intros Hr. unfold listed. rewrite <- list_fmap_compose.
  assert (((λ w, SpecID (Spec w)) ∘ snd) <$>
            merge_sort (λ a b, Is_true (String.leb a.1 b.1)) (map_to_list (workloads h)) =
          fst <$> merge_sort (λ a b, Is_true (String.leb a.1 b.1)) (map_to_list (workloads h))) as ->.
  { apply list_fmap_ext. intros i [id w] Hi. simpl.
    apply list_elem_of_lookup_2 in Hi. rewrite merge_sort_Permutation in Hi.
    apply elem_of_map_to_list in Hi. by destruct (Hr id w Hi). }
  rewrite merge_sort_Permutation. apply NoDup_fst_map_to_list.
Qed.

Lemma keeps_OpenManager m : registry m → keeps m OpenManager.
Proof using fold_sym fold_trans fold_refl.
  intros Hm. unfold OpenManager. apply at_quiet; [done|by apply quiet_act|]. intros _.
  eapply (alone_bind _ _ _ _ (λ _ h, registry (workloads h))).
  - unfold Reconcile. apply at_look; [done|]. intros e h _ Hh. destruct Hm as [Hr Hn].
    apply keeps_reconcile; [done|apply listed_ids; by rewrite Hh|].
    intros w [id Hw]%elem_of_listed. rewrite Hh in Hw. destruct (Hr _ _ Hw) as [Hid _]. by rewrite Hid.
  - intros [?|?]; [|by apply alone_ret].
    eapply (alone_bind _ _ _ _ (λ _ h, registry (workloads h))); [|intros ?; by apply alone_ret].
    apply alone_atomic; [done|]. intros e h _ Hh. exact Hh.
Qed.

Lemma keeps_recordExit m id t err : registry m → keeps m (recordExit id t err).
Proof using fold_sym fold_trans fold_refl.
  intros Hm. unfold recordExit. apply at_look; [done|]. intros e h _ Hh. rewrite Hh.
  destruct (m !! id) as [w|] eqn:Hw; [|by apply at_ret].
  destruct (Process w) as [p|]; [|by apply at_ret]. case_match; [by apply at_ret|].
  apply keeps_quiet; [done|by apply quiet_act|]. intros retired.
  assert (∀ v, Spec v = Spec w → keeps m (_ ← put_workload id v; mret tt)) as Hput.
  { intros v Hv. apply at_put; [done| |intros; by apply at_ret|apply at_ret];
      by eapply (registry_insert_same m _ _ w). }
  apply Hput. by destruct err, retired.
Qed.

Lemma keeps_op o m : registry m → admissible_op o m → keeps m (perform_op o).
Proof using cwd_abs fold_sym fold_trans fold_refl.
  intros Hm Ho. destruct o; cbn [perform_op]; try apply keeps_done;
    [by apply keeps_Create|by apply keeps_SetCheckpointPolicy|by apply keeps_SetFailoverPolicy
    |by apply keeps_Start|by apply keeps_signal|by apply keeps_Stop| |by apply keeps_AdoptRestored
    | | | |by apply keeps_PrepareRestore|by apply keeps_MarkRestoreFailed
    |by apply keeps_RestoreMetadata|by apply keeps_MarkCheckpoint|by apply keeps_Delete
    |by apply keeps_OpenManager|by apply keeps_recordExit];
    (apply alone_atomic; [by intros h ->|]); intros e h _ Hh; cbv beta;
    try (destruct (ok e); simpl); by rewrite Hh.
Qed.
End registry.

(** C26.  The registry stays coherent.  Whatever requests the manager
    serves, whatever the kernel answers and wherever the agent dies in
    between, every record sits under its own id, every specification in it is
    one that admission accepts (confined to its root, with policies the agent
    can honor, a failover policy only beside a checkpoint schedule), and no
    two workloads carry the same name in any case. *)
Theorem registry_invariant (cwd : result string) (url_Parse : string → result URL)
    (EqualFold : string → string → bool) (privileged : bool) (euid egid : Z) (h h' : host) :
  (∀ d, cwd = Ok d → IsAbs d = true) →
  (∀ a, EqualFold a a = true) → (∀ a b, EqualFold a b = EqualFold b a) →
  (∀ a b c, EqualFold a b = true → EqualFold a c = EqualFold b c) →
  registry url_Parse EqualFold (workloads h) →
  rtc (runtime_step cwd url_Parse EqualFold privileged euid egid sane_kernel) h h' →
  registry url_Parse EqualFold (workloads h').
Proof.
  intros Hcwd Hrefl Hsym Htrans Hh Hr. induction Hr as [h|h h1 h2 Hstep _ IH]; [done|].
  apply IH. destruct Hstep as [o es h Hes Ho].
  pose proof (keeps_op cwd url_Parse EqualFold privileged euid egid Hcwd Hsym Htrans Hrefl
    o (workloads h) Hh Ho h es Hes eq_refl) as H. unfold final.
  destruct (alone _ h es) as [[[r|] h1] es']; [by destruct H|done].
Qed.

(** ** Processes *)

(** No process that was not there before, up to the signals it received. *)
Definition no_new (m m' : gmap Z proc) : Prop :=
  ∀ pid p, m' !! pid = Some p → ∃ q, m !! pid = Some q ∧ start_ticks q = start_ticks p.

Lemma maintains_preflight P errs : reap_closed P → maintains P (preflight errs).
Proof.
  intros HP. induction errs as [|err errs IH]; [done|]. unfold preflight; fold preflight.
  apply maintains_bind; [by apply maintains_try|]. by intros [].
Qed.

Section start.
Context (privileged : bool) (euid egid : Z) (h0 : host) (v : Workload).

(** Nothing was started, the process of the record [v] is gone, and the
    records are untouched. *)
Definition idle (h : host) : Prop :=
  workloads h = workloads h0 ∧ no_new (procs h0) (procs h) ∧ process_alive h (Process v) = false.

(** The same, but for the new process [pid]. *)
Definition launched (m : gmap string Workload) (pid t : Z) (h : host) : Prop :=
  workloads h = m ∧
  ∀ n p, procs h !! n = Some p →
    if decide (n = pid) then start_ticks p = t ∧ group p = pid
    else (∃ q, procs h0 !! n = Some q ∧ start_ticks q = start_ticks p) ∧
         ∀ old, Process v = Some old → PID old = n → ProcessAlive h n (ProcStartTicks old) = false.

Lemma ProcessAlive_reap e h pid t : ProcessAlive (reap e h) pid t = true → ProcessAlive h pid t = true.
Proof.
  unfold ProcessAlive. simpl. destruct (filter _ _ !! pid) as [p|] eqn:Hp; [|done].
  apply map_lookup_filter_Some in Hp as [-> _]. done.
Qed.

Lemma idle_reap : reap_closed idle.
Proof.
  intros e h (Hw & Hp & Ha). split; [done|]. split.
  - intros n p [Hn _]%map_lookup_filter_Some. by apply Hp.
  - destruct (Process v) as [old|]; [|done]. simpl in *.
    destruct (ProcessAlive (reap e h) _ _) eqn:E; [|done].
    apply ProcessAlive_reap in E. congruence.
Qed.

Lemma launched_reap m pid t : reap_closed (launched m pid t).
Proof.
  intros e h [Hw Hp]. split; [done|]. intros n p [Hn _]%map_lookup_filter_Some.
  specialize (Hp n p Hn). case_decide; [done|]. destruct Hp as [Hq Ho]. split; [done|].
  intros old H1 H2. destruct (ProcessAlive (reap e h) _ _) eqn:E; [|done].
  apply ProcessAlive_reap in E. rewrite (Ho old) in E; done.
Qed.

Definition unstarted (h : host) : Prop :=
  workloads h = workloads h0 ∧ no_new (procs h0) (procs h).

Lemma unstarted_reap : reap_closed unstarted.
Proof. intros e h [Hw Hp]. split; [done|]. intros n p [Hn _]%map_lookup_filter_Some. by apply Hp. Qed.

Lemma kill_child_spec okE pid t (err : string) :
  triple okE (launched (workloads h0) pid t)
    (alone (_ ← kill_child pid; mret (Err err) : call (result Workload)))
    (λ r h, r = Err err ∧ unstarted h) (λ _, True).
Proof.
  eapply (alone_bind _ _ _ _ (λ _, unstarted)); [|intros ?; by apply alone_ret].
  apply call_act; [apply launched_reap|done|]. intros e h _ [Hw Hp]. split; [done|].
  intros n p. simpl. rewrite deliver_kill. intros (q & Hq & Hk)%bind_Some.
  specialize (Hp n q Hq). unfold in_group in Hk. case_decide.
  - destruct Hp as [_ Hg]. rewrite Hg, Z.eqb_refl in Hk. done.
  - destruct (group q =? pid); simplify_eq. by destruct Hp.
Qed.

Lemma waitForStartTicks_spec okE n pid t m :
  triple okE (launched m pid t) (alone (waitForStartTicks n pid))
    (λ r h, (∀ x, r = Ok x → x = t) ∧ launched m pid t h) (λ _, True).
Proof.
  induction n as [|n IH]; [by apply alone_ret|]. cbn [waitForStartTicks].
  apply call_read; [apply launched_reap|done|]. intros e h _ [_ Hp].
  destruct (ok e); [|apply IH]. destruct (procs h !! pid) as [p|] eqn:Hpid; [|apply IH].
  apply alone_ret. intros h' Hh'. split; [|done]. intros x [= <-].
  specialize (Hp pid p Hpid). rewrite decide_True in Hp by done. by destruct Hp.
Qed.

(** What [Start] returns. *)
Definition start_outcome (r : result Workload) (h : host) : Prop :=
  match r with
  | Err _ => unstarted h
  | Ok w => ∃ p, Process w = Some p ∧ Status w = WorkloadRunning ∧ Spec w = Spec v ∧
              launched (<[SpecID (Spec v) := w]> (workloads h0)) (PID p) (ProcStartTicks p) h
  end.

Lemma record_start_spec okE pid t :
  triple okE (launched (workloads h0) pid t) (alone (record_start v pid)) start_outcome (λ _, True).
Proof.
  assert (∀ err, triple okE (launched (workloads h0) pid t)
    (alone (_ ← kill_child pid; mret (Err err) : call (result Workload))) start_outcome
    (λ _, True)) as Hkill.
  { intros err. eapply triple_post; [|apply kill_child_spec]. by intros r h [-> ?]. }
  unfold record_start. eapply alone_bind; [apply waitForStartTicks_spec|].
  intros [t'|err]; [|eapply triple_pre; [|apply Hkill]; by intros h []].
  apply triple_pure. intros Ht. rewrite (Ht t' eq_refl).
  apply call_look; [apply launched_reap|done|]. intros e h _ Hh.
  eapply (triple_pre _ _ (launched (workloads h0) pid t)); [by intros ? ->|].
  destruct Hh as [Hw Hp]. destruct (ok e); [|apply Hkill].
  destruct (procs h !! pid) as [p|] eqn:Hpid; [|apply Hkill].
  specialize (Hp pid p Hpid). rewrite decide_True in Hp by done. destruct Hp as [_ ->].
  eapply (call_try _ _ _ _ _ (launched (<[SpecID (Spec v) := started v pid pid t (clock e)]> (workloads h0)) pid t));
    [apply launched_reap|done| |apply Hkill|].
  - intros e' h' _ [Hw' Hp'] _. split; [simpl; by rewrite Hw'|done].
  - eapply (alone_bind _ _ _ _ (λ _, launched _ pid t)).
    + apply call_act; [apply launched_reap|done|]. intros e' h' _ Hh'. exact Hh'.
    + intros ?. apply alone_ret. intros h' Hh'. eexists. split_and!; done.
Qed.

Lemma Start_spec id :
  Get h0 id = Ok v →
  triple (λ _, True) (λ h, h = h0) (alone (Start privileged euid egid id)) start_outcome (λ _, True).
Proof.
  intros Hg. unfold Start.
  eapply (triple_pre _ _ unstarted).
  { intros h ->. split; [done|]. intros n p Hn. by exists p. }
  apply call_look; [apply unstarted_reap|done|]. intros e h _ [Hw Hp].
  assert (Get h id = Ok v) as -> by (rewrite <- Hg; unfold Get, listed; by rewrite Hw). ok_step.
  destruct (process_alive h (Process v)) eqn:Ha; [by apply alone_ret; intros ? ->|].
  eapply (triple_pre _ _ idle); [by intros ? ->|].
  assert (∀ err : string, triple (λ _ : kernel, True) idle (alone (mret (Err err))) start_outcome
    (λ _, True)) as Hret by (intros err; apply alone_ret; by intros h' (? & ? & _)).
  case_match; [apply Hret|]. apply call_skip; [apply maintains_preflight, idle_reap|done|].
  intros [?|?]; [|apply Hret]. case_match; [apply Hret|].
  eapply (alone_bind _ _ _ _ (λ r h, match r with
    | Err _ => idle h | Ok pid => ∃ t, launched (workloads h0) pid t h end)).
  - apply call_act; [apply idle_reap|done|]. intros e' h' _ (Hw' & Hp' & Ha').
    destruct (ok e' && (0 <? num e') && bool_decide (procs h' !! num e' = None)) eqn:Hs;
      simpl; [|done]. to_prop. exists (ticks e'). split; [done|].
    intros n p. simpl. intros [[<- <-]|[Hn Hq]]%lookup_insert_Some.
    + by rewrite decide_True.
    + rewrite decide_False by done. split; [by apply Hp'|]. intros old Ho <-.
      rewrite Ho in Ha'. simpl in Ha'. unfold ProcessAlive in *. simpl.
      by rewrite lookup_insert_ne.
  - intros [pid|err]; [|apply Hret]. intros h' es Hes [t Ht]. by apply (record_start_spec _ pid t).
Qed.
End start.

(** C36.  Starting a workload starts it once.  A [Start] that ends in
    an error has left no process behind, whatever step it failed at, and has
    not touched the records.  One that succeeds has created exactly one
    process tree, recorded it as the running process of the workload, and
    the process the record named before was no longer alive. *)
Theorem start_single_instance (privileged : bool) (euid egid : Z) (id : string) (h : host)
    (v : Workload) :
  Get h id = Ok v →
  completes (λ _, True) (Start privileged euid egid id) h (λ r h',
    match r with
    | Err _ => workloads h' = workloads h ∧ no_new (procs h) (procs h')
    | Ok w => ∃ p, Process w = Some p ∧ Status w = WorkloadRunning ∧
        workloads h' = <[SpecID (Spec v) := w]> (workloads h) ∧
        (∀ n q, procs h' !! n = Some q →
           if decide (n = PID p) then start_ticks q = ProcStartTicks p
           else ∃ q0, procs h !! n = Some q0 ∧ start_ticks q0 = start_ticks q) ∧
        (∀ old, Process v = Some old → PID old ≠ PID p →
           ProcessAlive h' (PID old) (ProcStartTicks old) = false)
    end).
Proof.
  intros Hg. eapply triple_completes, triple_post; [|by apply (Start_spec _ _ _ h v)].
  intros [w|err] h'; [|by intros []]. simpl. intros (p & Hp & Hs & _ & Hw & Hn).
  exists p. split_and!; [done..| |].
  - intros n q Hq. specialize (Hn n q Hq). case_decide; naive_solver.
  - intros old Ho Hne. unfold ProcessAlive. destruct (procs h' !! PID old) as [q|] eqn:Hq; [|done].
    specialize (Hn _ _ Hq). rewrite decide_False in Hn by done. destruct Hn as [_ Hn].
    specialize (Hn old Ho eq_refl). unfold ProcessAlive in Hn. by rewrite Hq in Hn.
Qed.

Section stop.
Context (h0 : host) (v : Workload) (p : ProcessState).
Hypothesis Hv : workloads h0 !! SpecID (Spec v) = Some v.

(** The recorded process, while it lives, leads the recorded group. *)
Definition leads_group (h : host) : Prop :=
  ∀ q, procs h !! PID p = Some q → start_ticks q = ProcStartTicks p → group q = PGID p.

Definition stoppable (h : host) : Prop := workloads h = workloads h0 ∧ leads_group h.

Definition ended_process (h : host) : Prop :=
  workloads h = workloads h0 ∧ ProcessAlive h (PID p) (ProcStartTicks p) = false.

Lemma stoppable_reap : reap_closed stoppable.
Proof. intros e h [Hw Hg]. split; [done|]. intros q [Hq _]%map_lookup_filter_Some. by apply Hg. Qed.

Lemma ended_reap : reap_closed ended_process.
Proof.
  intros e h [Hw Ha]. split; [done|]. destruct (ProcessAlive (reap e h) _ _) eqn:E; [|done].
  apply ProcessAlive_reap in E. congruence.
Qed.

Lemma stoppable_deliver s reached h :
  stoppable h → stoppable (h <| procs := deliver s reached (procs h) |>).
Proof.
  intros [Hw Hg]. split; [done|]. intros q. simpl. unfold deliver. rewrite map_lookup_imap.
  intros (q' & Hq' & Hq)%bind_Some Ht. specialize (Hg q' Hq'). repeat case_match; simplify_eq; auto.
Qed.

Lemma kill_ends okE :
  triple okE stoppable (alone (Kill SIGKILL (in_group (PGID p))))
    (λ r h, match r with
            | Err x => if decide (x = errESRCH) then ended_process h else stoppable h
            | Ok _ => ended_process h
            end) (λ _, True).
Proof.
  apply call_act; [apply stoppable_reap|done|]. intros e h _ [Hw Hg].
  destruct (bool_decide _) eqn:Hr; [destruct (ok e)|]; simpl; [| |]; [split; [done|]|split; done|].
  - unfold ProcessAlive. simpl. rewrite deliver_kill.
    destruct (procs h !! PID p) as [q|] eqn:Hq; [|done]. simpl. unfold in_group.
    destruct (start_ticks q =? ProcStartTicks p) eqn:Et; to_prop.
    + rewrite (Hg q Hq Et), Z.eqb_refl. done.
    + destruct (group q =? PGID p); [done|]. apply Z.eqb_neq in Et. rewrite Et. apply andb_false_r.
  - split; [done|]. unfold ProcessAlive. destruct (procs h !! PID p) as [q|] eqn:Hq; [|done].
    destruct (start_ticks q =? ProcStartTicks p) eqn:Et; [|apply andb_false_r]. to_prop.
    destruct Hr. exists (PID p), q. split; [done|]. unfold in_group. rewrite (Hg q Hq Et). lia.
Qed.

Definition stop_outcome (r : result Workload) (h : host) : Prop :=
  match r with
  | Err _ => workloads h = workloads h0
  | Ok w => Status w = WorkloadStopped ∧ Process w = None ∧ Spec w = Spec v ∧
            workloads h = <[SpecID (Spec v) := w]> (workloads h0) ∧
            ProcessAlive h (PID p) (ProcStartTicks p) = false
  end.

Lemma stop_refused (okE : kernel → Prop) P err :
  (∀ h, P h → workloads h = workloads h0) →
  triple okE P (alone (mret (Err err))) stop_outcome (λ _, True).
Proof. intros H. by apply alone_ret. Qed.

Definition stopped_record : Workload :=
  next_generation (v <| Status := WorkloadStopped |> <| Process := None |>).

(** Once the process is gone, recording it. *)
Lemma put_stopped (okE : kernel → Prop) {A} (k : result unit → call A) Q :
  triple okE ended_process (alone (k (Err errPut))) Q (λ _, True) →
  triple okE (λ h, workloads h = <[SpecID (Spec v) := stopped_record]> (workloads h0) ∧
                   ProcessAlive h (PID p) (ProcStartTicks p) = false) (alone (k (Ok tt))) Q
    (λ _, True) →
  triple okE ended_process (alone (put_workload (SpecID (Spec v)) stopped_record ≫= k)) Q
    (λ _, True).
Proof.
  intros H1 H2. eapply call_try; [apply ended_reap|done| |exact H1|exact H2].
  intros e h _ [Hw Ha] _. split; [simpl; by rewrite Hw|done].
Qed.

Lemma finish_stop_spec okE :
  triple okE stoppable (alone (finish_stop (SpecID (Spec v)) p)) stop_outcome (λ _, True).
Proof using Hv.
  unfold finish_stop. apply call_look; [apply stoppable_reap|done|]. intros e h _ Hh.
  eapply (alone_bind _ _ _ _ (λ r h, match r with
    | Err x => if decide (x = errESRCH) then ended_process h else stoppable h
    | Ok _ => ended_process h end)).
  - destruct (ProcessAlive h (PID p) (ProcStartTicks p)) eqn:Ha.
    + eapply triple_pre; [|apply kill_ends]. by intros ? ->.
    + apply alone_ret. intros ? ->. by destruct Hh.
  - intros r. destruct (negb (bool_decide (r ∈ [Ok tt; Err errESRCH]))) eqn:Hr.
    { apply negb_true_iff, bool_decide_eq_false in Hr.
      destruct r as [[]|x]; [exfalso; apply Hr; by left|]. apply stop_refused. intros h' Hh'. by case_decide; destruct Hh'. }
    eapply (triple_pre _ _ ended_process).
    { apply negb_false_iff, bool_decide_eq_true in Hr. intros h' Hh'. destruct r as [?|x]; [done|].
      apply elem_of_cons in Hr as [|Hr]; [done|]. apply list_elem_of_singleton in Hr as [= ->]. done. }
    apply call_read; [apply ended_reap|done|]. intros e' h' _ [Hw' _].
    unfold Get. rewrite Hw', Hv. fold stopped_record.
    apply put_stopped; [by apply stop_refused; intros ? []|].
    eapply (alone_bind _ _ _ _ (λ _ h, workloads h =
      <[SpecID (Spec v) := stopped_record]> (workloads h0) ∧
      ProcessAlive h (PID p) (ProcStartTicks p) = false)); [|intros ?; by apply alone_ret; intros ? []].
    apply call_act; [|done|by intros ? ? _ ?]. intros e2 h2 [Hw2 Ha2]. split; [done|].
    destruct (ProcessAlive (reap e2 h2) _ _) eqn:E; [|done]. apply ProcessAlive_reap in E. congruence.
Qed.

Lemma Stop_spec okE id :
  Get h0 id = Ok v → Process v = Some p → leads_group h0 →
  triple okE (λ h, h = h0) (alone (Stop id)) stop_outcome (λ _, True).
Proof using Hv.
  intros Hg Hp Hl. unfold Stop.
  eapply (triple_pre _ _ stoppable); [by intros h ->|].
  apply call_look; [apply stoppable_reap|done|]. intros e h _ [Hw Hh].
  assert (Get h id = Ok v) as -> by (rewrite <- Hg; unfold Get, listed; by rewrite Hw). ok_step.
  rewrite Hp. destruct (process_alive h (Some p)) eqn:Ha.
  - eapply (triple_pre _ _ stoppable); [by intros ? ->|].
    apply call_skip; [apply maintains_act; [apply stoppable_reap|by intros ? ? []]|done|]. intros _.
    eapply (alone_bind _ _ _ _ (λ _, stoppable)).
    + apply call_maintains; [|done]. case_decide.
      * apply maintains_Kill; [apply stoppable_reap|apply stoppable_deliver].
      * apply maintains_bind; [|intros _]; (apply maintains_Kill; [apply stoppable_reap|];
          apply stoppable_deliver).
    + intros r. case_match; [|apply finish_stop_spec].
      apply call_skip; [apply maintains_act; [apply stoppable_reap|by intros ? ? []]|done|].
      intros _. apply stop_refused. by intros ? [].
  - eapply (triple_pre _ _ ended_process); [by intros ? ->|].
    eapply (alone_bind _ _ _ _ (λ _, ended_process)).
    { apply call_act; [apply ended_reap|done|]. by intros ? ? _ []. }
    intros ?. unfold stored. fold stopped_record. apply put_stopped.
    + apply stop_refused. by intros ? [].
    + by apply alone_ret; intros ? [].
Qed.
End stop.

(** Stopping a workload ends it.  When [Stop] reports success the
    process the record named is no longer alive, whether it honored the
    request, outlived the grace period or was frozen, and the record says
    stopped with no process.  A [Stop] that fails leaves the records as they
    were, so that the workload can be stopped again. *)
Theorem stop_ends_process (id : string) (h : host) (v : Workload) (p : ProcessState) :
  Get h id = Ok v → workloads h !! SpecID (Spec v) = Some v → Process v = Some p →
  (∀ q, procs h !! PID p = Some q → start_ticks q = ProcStartTicks p → group q = PGID p) →
  completes (λ _, True) (Stop id) h (λ r h',
    match r with
    | Err _ => workloads h' = workloads h
    | Ok w => Status w = WorkloadStopped ∧ Process w = None ∧ Spec w = Spec v ∧
              workloads h' = <[SpecID (Spec v) := w]> (workloads h) ∧
              ProcessAlive h' (PID p) (ProcStartTicks p) = false
    end).
Proof. intros Hg Hv Hp Hl. eapply triple_completes. by apply (Stop_spec h v p Hv). Qed.

(** ** Examples *)

Definition demo_process : ProcessState :=
  {| PID := 100; PGID := 100; ProcStartTicks := 7; StartedAt := 5; ExitCode := None |}.

Definition demo_workload (p : option ProcessState) (status : WorkloadStatus) : Workload := {|
  Spec := demo_admitted; Status := status; Process := p; LatestCheckpointID := "";
  Generation := 3; LastError := "" |}.

Definition demo_network : coordinator := {| table := ∅; forwarders := ∅; listening := ∅;
  startupWorkloads := []; startupVersion := 0; claimsVersion := 0 |}.

(** A machine with one running workload. *)
Definition demo_host : host := {|
  procs := {[100 := {| start_ticks := 7; group := 100; frozen := false; cgroup := "w-1";
                       uid := 1000; gid := 1000 |}]};
  disk := {[["srv"; "app"] := Tree "original"]};
  workloads := {["w-1" := demo_workload (Some demo_process) WorkloadRunning]};
  stopping := ∅; manifests := ∅; restores := ∅; inFlight := ∅; createInFlight := ∅; network := demo_network |}.

(** Everything works, and the clock stands still. *)
Definition willing : kernel := {| ok := true; clock := 9; num := 200; ticks := 8; text := "id-1";
  extracted := []; captured := []; owner := (1000, 1000); exdev := false; ended := [];
  net := {| listen_ok := true; remaining := 0; write_ok := true; net_now := 9 |} |}.

Definition demo_stopped : host :=
  final (alone (perform_op (Ok "/srv") demo_parse String.eqb true 0 0 (OStop "web")) demo_host
           (replicate 20 willing)).

Lemma registry_invariant_witness :
  Status <$> workloads demo_stopped !! "w-1" = Some WorkloadStopped ∧
  registry demo_parse String.eqb (workloads demo_stopped).
Proof.
  split; [vm_compute; reflexivity|].
  apply (registry_invariant (Ok "/srv") demo_parse String.eqb true 0 0 demo_host demo_stopped).
  - intros d [= <-]. reflexivity.
  - apply String.eqb_refl.
  - apply String.eqb_sym.
  - intros a b c H. apply String.eqb_eq in H as ->. reflexivity.
  - split.
    + intros id w H. cbn [workloads demo_host] in H. apply lookup_singleton_Some in H as [<- <-].
      split; [vm_compute; reflexivity|apply demo_admitted_ok].
    + intros i j v w Hi Hj. cbn [workloads demo_host] in Hi, Hj.
      apply lookup_singleton_Some in Hi as [<- _].
      apply lookup_singleton_Some in Hj as [<- _]. done.
  - apply rtc_once.
    apply (serve_op (Ok "/srv") demo_parse String.eqb true 0 0 sane_kernel (OStop "web")
      (replicate 20 willing) demo_host); [|done].
    repeat constructor; discriminate.
Defined.

Lemma stop_ends_process_witness :
  completes (λ _, True) (Stop "web") demo_host (λ r h',
    match r with
    | Err _ => workloads h' = workloads demo_host
    | Ok w => Status w = WorkloadStopped ∧ Process w = None ∧ Spec w = demo_admitted ∧
              workloads h' = <["w-1" := w]> (workloads demo_host) ∧
              ProcessAlive h' 100 7 = false
    end).
Proof.
  apply (stop_ends_process "web" demo_host (demo_workload (Some demo_process) WorkloadRunning)
    demo_process); try (vm_compute; reflexivity).
  intros q Hq. vm_compute in Hq. injection Hq as <-. reflexivity.
Defined.

(** The machine after its workload ended on its own. *)
Definition demo_idle : host :=
  demo_host <| procs := ∅ |>
            <| workloads := {["w-1" := demo_workload (Some demo_process) WorkloadFailed]} |>.

Lemma start_single_instance_witness :
  completes (λ _, True) (Start true 0 0 "w-1") demo_idle (λ r h',
    match r with
    | Err _ => workloads h' = workloads demo_idle ∧ no_new (procs demo_idle) (procs h')
    | Ok w => ∃ p, Process w = Some p ∧ Status w = WorkloadRunning ∧
        workloads h' = <["w-1" := w]> (workloads demo_idle) ∧
        (∀ n q, procs h' !! n = Some q →
           if decide (n = PID p) then start_ticks q = ProcStartTicks p
           else ∃ q0, procs demo_idle !! n = Some q0 ∧ start_ticks q0 = start_ticks q) ∧
        (∀ old, Some demo_process = Some old → PID old ≠ PID p →
           ProcessAlive h' (PID old) (ProcStartTicks old) = false)
    end).
Proof.
  apply (start_single_instance true 0 0 "w-1" demo_idle
    (demo_workload (Some demo_process) WorkloadFailed)). vm_compute. reflexivity.
Defined.
