(* ===== verification/Restorer.v ===== *)
(** * The restore transaction ([internal/checkpoint/restore.go])

    Restoring a checkpoint replaces a workload's root directory and brings
    its process back, as one transaction: [Prepare] stages the files, moves
    the present root aside, activates the restored one, restores the process
    and validates it; [Commit] discards what was moved aside; [Rollback] puts
    it back; [Recover] decides after a restart of the agent.  Each step is a
    call on the [host], so that a run may fail or be cut short anywhere.

    Trust, compatibility and target admission are answers of the kernel, as
    are CRIU, the health probes and the lazy-pages daemon. *)
From S2P Require Import Prelude GoStr Model Workload Prog Conc Network Host Runtime.

Local Open Scope string_scope.
Local Open Scope Z_scope.

(** ** Checkpoint chains *)

(** [assetByName]. *)
Definition assetByName (assets : list AssetManifest) (name : string) : option AssetManifest :=
  snd <$> list_find (λ a, AssetName a = name) assets.

Definition precopy_prefix : string := "process-state-precopy-".

(** [strings.TrimPrefix]. *)
Fixpoint TrimPrefix (s pre : string) : string :=
  match pre, s with
  | EmptyString, _ => s
  | String a pre', String b s' => if decide (a = b) then TrimPrefix s' pre' else s
  | _, _ => s
  end.

(** The loop of [processImageAssets] that collects the passes. *)
Fixpoint collect_passes (assets : list AssetManifest) (byIndex : gmap Z AssetManifest)
    : result (gmap Z AssetManifest) :=
  match assets with
  | [] => Ok byIndex
  | a :: rest =>
      if bool_decide (AssetName a = "process-state") || negb (HasPrefix (AssetName a) precopy_prefix)
      then collect_passes rest byIndex
      else match Atoi (TrimPrefix (AssetName a) precopy_prefix) with
           | Err _ => Err "malformed pre-copy asset"
           | Ok number =>
               if number <? 1 then Err "malformed pre-copy asset"
               else if decide (is_Some (byIndex !! number)) then Err "two assets for a pre-copy pass"
               else collect_passes rest (<[number := a]> byIndex)
           end
  end.

(** The loop that requires the passes to be contiguous from 1. *)
Fixpoint contiguous (n : nat) (index : Z) (byIndex : gmap Z AssetManifest)
    : result (list AssetManifest) :=
  match n with
  | O => Ok []
  | S n => match byIndex !! index with
           | None => Err "the image chain is broken"
           | Some a => rest ← contiguous n (index + 1) byIndex; Ok (a :: rest)
           end
  end.

(** [processImageAssets]: the final image set and the passes in order. *)
Definition processImageAssets (m : CheckpointManifest)
    : result (AssetManifest * list AssetManifest) :=
  match assetByName (Assets m) "process-state" with
  | None => Err "checkpoint has no process-state asset"
  | Some final =>
      byIndex ← collect_passes (Assets m) ∅;
      passes ← contiguous (size byIndex) 1 byIndex;
      Ok (final, passes)
  end.

(** The first loop of [processChain], over a repository that answers
    [load]: the lineage newest first, at most 256 members. *)
Fixpoint walk_chain (load : string → result CheckpointManifest) (fuel : nat) (workload : string)
    (current : CheckpointManifest) (seen : list string) (chain : list CheckpointManifest)
    : result (list CheckpointManifest) :=
  if decide (ParentID current = "") then Ok chain
  else
    match fuel with
    | O => Err "checkpoint parent chain exceeds 256 entries"
    | S fuel =>
        match load (ParentID current) with
        | Err _ => Err "load checkpoint parent"
        | Ok parent =>
            if negb (bool_decide (SpecID (ManifestWorkload parent) = workload)) then
              Err "checkpoint parent belongs to another workload"
            else if decide (ManifestID parent ∈ seen) then
              Err "checkpoint parent chain contains a cycle"
            else walk_chain load fuel workload parent (ManifestID parent :: seen) (chain ++ [parent])%list
        end
    end.

(** The lineage of a manifest: 255 parents beside itself. *)
Definition lineage (load : string → result CheckpointManifest) (m : CheckpointManifest)
    : result (list CheckpointManifest) :=
  walk_chain load 255 (SpecID (ManifestWorkload m)) m [ManifestID m] [m].

(** [repository.Load]. *)
Definition LoadCheckpoint (e : kernel) (h : host) (id : string) : result CheckpointManifest :=
  if ok e then match manifests h !! id with
               | Some m => Ok m
               | None => Err "checkpoint not found"
               end
  else Err "load checkpoint".

(** The second loop of [processChain]: every image set is complete and its
    chunks validate. *)
Fixpoint check_chain (chain : list CheckpointManifest) : call (result (list (list AssetManifest))) :=
  match chain with
  | [] => mret (Ok [])
  | m :: rest =>
      match processImageAssets m with
      | Err err => mret (Err err)
      | Ok (final, passes) =>
          valid ← preflight ((λ _, "validate process state") <$> final :: passes);
          match valid with
          | Err err => mret (Err err)
          | Ok _ => sets ← check_chain rest; mret (sets ← sets; Ok ((final :: passes) :: sets))
          end
      end
  end.

(** [processChain]: the image sets of the lineage, newest first. *)
Definition processChain (m : CheckpointManifest) : call (result (list (list AssetManifest))) :=
  chain ← look (λ e h, lineage (LoadCheckpoint e h) m);
  match chain with
  | Err err => mret (Err err)
  | Ok chain => check_chain chain
  end.

(** ** Files *)

(** [extractDirectory]: the entries the archive unpacks to, also when it
    fails half way. *)
Definition extractDirectory (destination : path) : call (result unit) :=
  act (λ e h,
    (h <| disk := foldl (λ d x, <[(destination ++ [x.1])%list := x.2]> d) (disk h) (extracted e) |>,
     if ok e then Ok tt else Err "extract archive")).

(** [validateExtractedRoot]: the one entry of the staging directory. *)
Definition validateExtractedRoot (staging : path) (expectedBase : string) : call (result path) :=
  look (λ e h,
    if negb (ok e) then Err "read staging directory"
    else match filter (λ kv, Dir kv.1 = staging ∧ kv.1 ≠ []) (map_to_list (disk h)) with
         | [(root, n)] =>
             if negb (bool_decide (root = (staging ++ [expectedBase])%list)) then
               Err "filesystem archive does not contain the expected single workload root"
             else if decide (n = Link) then Err "restored workload root is not a directory"
             else Ok root
         | _ => Err "filesystem archive does not contain the expected single workload root"
         end).

(** One image set after the other, each level under its own directory. *)
Fixpoint extract_sets (sets : list (list AssetManifest)) (target : path) : call (result unit) :=
  match sets with
  | [] => mret (Ok tt)
  | set :: rest =>
      extracted ← (fix extract_set (assets : list AssetManifest) : call (result unit) :=
        match assets with
        | [] => mret (Ok tt)
        | _ :: more =>
            r ← extractDirectory target;
            match r with
            | Err err => mret (Err err)
            | Ok _ => extract_set more
            end
        end) set;
      match extracted with
      | Err err => mret (Err err)
      | Ok _ => extract_sets rest (target ++ ["parent-images"])%list
      end
  end.

(** [materializeProcessChain]. *)
Definition materializeProcessChain (m : CheckpointManifest) (destination : path)
    : call (result unit) :=
  sets ← processChain m;
  match sets with
  | Err err => mret (Err err)
  | Ok sets => extract_sets sets destination
  end.

(** [pinTargetDir]. *)
Definition pinTargetDir (target : path) : call (result unit) :=
  if decide (target = []) then mret (Err "not a usable absolute workload root")
  else succeeds "target parent must be reachable as a real directory without symlinks".

(** [CloneTree]: the copy appears, then is complete. *)
Definition CloneTree (from to : path) : call (result unit) :=
  _ ← act (λ e h, (h <| disk := <[to := Tree (text e)]> (disk h) |>, tt));
  act (λ e h,
    match disk h !! from with
    | Some n => if ok e then (h <| disk := <[to := n]> (disk h) |>, Ok tt) else (h, Err "clone")
    | None => (h, Err "clone")
    end).

(** [materializeRootAt]: a rename, or a copy across filesystems. *)
Definition materializeRootAt (target staged : path) : call (result unit) :=
  opened ← succeeds "open staging directory";
  match opened with
  | Err err => mret (Err err)
  | Ok _ =>
      renamed ← Rename staged target;
      match renamed with
      | Ok _ => mret (Ok tt)
      | Err err =>
          if negb (bool_decide (err = errEXDEV)) then mret (Err err)
          else
            cloned ← CloneTree staged target;
            match cloned with
            | Err err => _ ← RemoveAll target; mret (Err err)
            | Ok _ => RemoveAll staged
            end
      end
  end.

(** [syncDir]. *)
Definition syncDir (p : path) : call (result unit) := succeeds "sync directory".

(** ** The transaction guard *)

(** [beginRestore]. *)
Definition beginRestore (target : path) : call (result unit) :=
  act (λ _ h, if decide (target ∈ inFlight h) then (h, Err "a restore is already in progress")
              else (h <| inFlight := inFlight h ∪ {[target]} |>, Ok tt)).

(** [endRestore]. *)
Definition endRestore (target : path) : call unit :=
  act (λ _ h, (h <| inFlight := inFlight h ∖ {[target]} |>, tt)).

(** A step of a transaction that returns early with the record as it is. *)
Definition step {A B} (rec : RestoreRecord) (t : call (result A))
    (k : A → call (RestoreRecord * result B)) : call (RestoreRecord * result B) :=
  r ← t;
  match r with
  | Err err => mret (rec, Err err)
  | Ok a => k a
  end.

Notation "x ⇐ t 'in' rec ; k" := (step rec t (λ x, k))
  (at level 20, t at level 100, rec at level 100, k at level 200, only parsing).

Definition stamp (now : Z) (rec : RestoreRecord) : RestoreRecord := rec <| RecordUpdatedAt := now |>.

Definition time : call Z := look (λ e _, clock e).

(** [records.Put(record.ID, record)]. *)
Definition save (rec : RestoreRecord) : call (result unit) := put_restore (RecordID rec) rec.

(** ** The frozen source *)

(** [reapSupersededSource]. *)
Definition reapSupersededSource (rec : RestoreRecord) : call unit :=
  match PreviousWorkload rec with
  | None => mret tt
  | Some previous =>
      _ ← ReapFrozenSource (RecordID rec);
      match Process previous with
      | None => mret tt
      | Some process =>
          alive ← look (λ _ h, ProcessAlive h (PID process) (ProcStartTicks process));
          if negb alive then mret tt
          else
            _ ← Retire (RecordWorkload rec);
            _ ← Kill SIGKILL (is_pid (PID process));
            _ ← Kill SIGKILL (in_group (PGID process));
            mret tt
      end
  end.

(** [stopLazyPages]: the daemon is not a process of the model. *)
Definition stopLazyPages (rec : RestoreRecord) : call unit :=
  if negb (Lazy rec) || (LazyPagesPID rec <=? 0) then mret tt else look (λ _ _, tt).

Section restorer.
(** The agent's working directory, Go's URL parser and [strings.EqualFold],
    the digest behind virtual identities, the agent's state directory,
    whether it has a network layer and a lazy-pages engine. *)
Context (cwd : result string) (url_Parse : string → result URL)
        (EqualFold : string → string → bool) (digest32 : string → Z)
        (stateDir : path) (has_network lazy_engine : bool).

(** ** Rolling back *)

(** Putting the filesystem back: the restored root steps aside under a name
    of its own, and the backup returns.  Yields the path to discard. *)
Definition switch_back (rec : RestoreRecord) (backupOnDisk : bool)
    : call (option path * result unit) :=
  pinned ← pinTargetDir (TargetRoot rec);
  match pinned with
  | Err err => mret (None, Err err)
  | Ok _ =>
      found ← Lstat (TargetRoot rec);
      match found with
      | Err err => mret (None, Err err)
      | Ok found =>
          let failedRoot := (Dir (TargetRoot rec) ++
            [Base (TargetRoot rec) +:+ ".shift-failed-" +:+ RecordID rec])%list in
          aside ← (match found with
                   | None => mret (None, Ok tt)
                   | Some _ =>
                       renamed ← Rename (TargetRoot rec) failedRoot;
                       mret (match renamed with
                             | Err err => (None, Err err)
                             | Ok _ => (Some failedRoot, Ok tt)
                             end)
                   end);
          match aside, BackupRoot rec, backupOnDisk with
          | (failed, Err err), _, _ => mret (failed, Err err)
          | (failed, Ok _), Some backup, true =>
              restored ← Rename backup (TargetRoot rec);
              mret (failed, match restored with
                            | Err _ => Err "restore destination backup"
                            | Ok _ => Ok tt
                            end)
          | (failed, Ok _), _, _ => mret (failed, Ok tt)
          end
      end
  end.

(** What happens to the workload record. *)
Definition restore_workload (rec : RestoreRecord) (reason : string) : call unit :=
  if CreatedWorkload rec then _ ← Delete (RecordWorkload rec); mret tt
  else match PreviousWorkload rec with
       | Some previous =>
           alive ← look (λ _ h, process_alive h (Process previous));
           let previous := if (alive : bool) then previous else previous <| Process := None |> in
           _ ← RestoreMetadata previous;
           match Process previous with
           | None => mret tt
           | Some _ => _ ← Resume (RecordWorkload rec); mret tt
           end
       | None => _ ← MarkRestoreFailed (RecordWorkload rec) reason; mret tt
       end.

(** The rest of [rollback], once the files are back. *)
Definition finish_rollback (rec : RestoreRecord) (reason : string)
    : call (RestoreRecord * result unit) :=
  _ ← UnparkFrozenSource (RecordWorkload rec) (RecordID rec);
  _ ← restore_workload rec reason;
  _ ← RemoveAll (StagingRoot rec);
  _ ← stopLazyPages rec;
  _ ← RemoveAll (RestoreDirectory rec);
  now ← time;
  let rec := stamp now (rec <| RecordState := RestoreRolledBack |>) in
  saved ← save rec;
  match saved with
  | Err err => mret (rec, Err err)
  | Ok _ => synced ← syncDir (Dir (TargetRoot rec)); mret (rec, synced)
  end.

(** [rollback]. *)
Definition rollback (rec : RestoreRecord) (reason : string)
    : call (RestoreRecord * result unit) :=
  let originalState := RecordState rec in
  now ← time;
  let rec := stamp now (rec <| RecordState := RestoreRollingBack |> <| RecordError := reason |>) in
  _ ← save rec;
  found ← get_workload (RecordWorkload rec);
  _ ← (match found with
       | Ok w => if decide (Process w = None) then mret tt
                 else _ ← Stop (RecordWorkload rec); mret tt
       | Err _ => mret tt
       end);
  _ ← (if has_network then _ ← on_network (Deactivate (RecordWorkload rec)); mret tt else mret tt);
  backupOnDisk ← (match BackupRoot rec with
                  | None => mret false
                  | Some backup =>
                      found ← Lstat backup;
                      mret (match found with Ok (Some _) => true | _ => false end)
                  end);
  let filesystemWasSwitched := backupOnDisk ||
    bool_decide (originalState ∈ [RestoreFilesystemSwitched; RestoreProcessRunning;
                                  RestoreValidated; RestoreRollingBack]) in
  switched ← (if filesystemWasSwitched then switch_back rec backupOnDisk else mret (None, Ok tt));
  out ← (match switched.2 with
         | Err err => mret (rec, Err err)
         | Ok _ => finish_rollback rec reason
         end);
  _ ← (match switched.1 with
       | Some failedRoot => _ ← RemoveAll failedRoot; mret tt
       | None => mret tt
       end);
  _ ← endRestore (TargetRoot rec);
  mret out.

(** ** Preparing *)

(** Staging: the files and the process images, before anything moves. *)
Definition stage (m : CheckpointManifest) (rec : RestoreRecord)
    : call (RestoreRecord * result path) :=
  _ ⇐ MkdirAll (StagingRoot rec) in rec;
  _ ⇐ MkdirAll (RestoreDirectory rec) in rec;
  _ ⇐ extractDirectory (StagingRoot rec) in rec;
  restoredRoot ⇐ validateExtractedRoot (StagingRoot rec) (Base (TargetRoot rec)) in rec;
  _ ⇐ materializeProcessChain m (RestoreDirectory rec) in rec;
  _ ⇐ look (λ e h, match disk h !! (RestoreDirectory rec ++ ["images"])%list with
                   | Some (Tree _) => if ok e then Ok tt
                                      else Err "restored process image directory is missing"
                   | _ => Err "restored process image directory is missing"
                   end) in rec;
  mret (rec, Ok restoredRoot).

(** Moving the present root aside. *)
Definition set_aside (rec : RestoreRecord) (backup : path)
    : call (RestoreRecord * result unit) :=
  now ← time;
  let rec := stamp now (rec <| BackupRoot := Some backup |>) in
  _ ⇐ save rec in rec;
  renamed ← Rename (TargetRoot rec) backup;
  match renamed with
  | Err err => mret (rec <| BackupRoot := None |>, Err "preserve destination root")
  | Ok _ => mret (rec, Ok tt)
  end.

(** A target that does not exist yet has nothing to move. *)
Definition claim_fresh (rec : RestoreRecord) : call (RestoreRecord * result unit) :=
  now ← time;
  let rec := stamp now (rec <| BackupRoot := None |>
                            <| RecordState := RestoreFilesystemSwitched |>) in
  _ ⇐ save rec in rec;
  mret (rec, Ok tt).

(** The filesystem switch. *)
Definition switch_root (rec : RestoreRecord) (backup restoredRoot : path)
    : call (RestoreRecord * result unit) :=
  _ ⇐ pinTargetDir (TargetRoot rec) in rec;
  _ ⇐ succeeds "restore target denied" in rec;
  found ⇐ Lstat (TargetRoot rec) in rec;
  aside ← (match found with
           | Some Link => mret (rec, Err "refusing to replace a symlinked workload root")
           | Some (Tree _) => set_aside rec backup
           | None => claim_fresh rec
           end);
  let '(rec, aside) := aside in
  match aside with
  | Err err => mret (rec, Err err)
  | Ok _ =>
      materialized ← materializeRootAt (TargetRoot rec) restoredRoot;
      match materialized with
      | Err err =>
          _ ← (match BackupRoot rec with
               | Some _ => _ ← Rename backup (TargetRoot rec); mret tt
               | None => mret tt
               end);
          mret (rec, Err "activate restored filesystem")
      | Ok _ =>
          now ← time;
          let rec := stamp now (rec <| RecordState := RestoreFilesystemSwitched |>) in
          _ ⇐ syncDir (Dir (TargetRoot rec)) in rec;
          _ ⇐ save rec in rec;
          mret (rec, Ok tt)
      end
  end.

(** [criu.Restore]: the process the images describe, under ids of their own. *)
Definition criu_Restore (w : string) : call (result Z) :=
  act (λ e h,
    if ok e && (0 <? num e) && bool_decide (procs h !! num e = None) then
      (h <| procs := <[num e := {| start_ticks := ticks e; group := num e; frozen := false;
                                   cgroup := cgroup_name w; uid := (owner e).1;
                                   gid := (owner e).2 |}]> (procs h) |>, Ok (num e))
    else (h, Err "criu restore")).

Fixpoint health_attempts (attempts : nat) : call (result unit) :=
  match attempts with
  | O => mret (Err "workload health validation failed")
  | S attempts =>
      probe ← succeeds "health check";
      match probe with
      | Ok _ => mret (Ok tt)
      | Err err =>
          match attempts with
          | O => mret (Err "workload health validation failed")
          | S _ => waited ← succeeds "context canceled";
                   match waited with
                   | Err err => mret (Err err)
                   | Ok _ => health_attempts attempts
                   end
          end
      end
  end.

(** [validateHealth]. *)
Definition validateHealth (spec : WorkloadSpec) : call (result unit) :=
  match HealthCheck spec with
  | None =>
      waited ← succeeds "context canceled";
      match waited with
      | Err err => mret (Err err)
      | Ok _ =>
          look (λ _ h, match Get h (SpecID spec) with
                       | Ok w => require (process_alive h (Process w))
                                   "restored process exited during validation"
                       | Err _ => Err "restored process exited during validation"
                       end)
      end
  | Some check =>
      delayed ← (if 0 <? HealthStartDelay check then succeeds "context canceled" else mret (Ok tt));
      match delayed with
      | Err err => mret (Err err)
      | Ok _ => health_attempts (Z.to_nat (if HealthRetries check <? 1 then 3 else HealthRetries check))
      end
  end.

(** Parking the frozen source of the checkpoint, and reaping it at once when
    it still holds the ports the restored process must bind. *)
Definition make_room (m : CheckpointManifest) (rec : RestoreRecord)
    : call (RestoreRecord * result unit) :=
  parked ← (match PreviousWorkload rec with
            | Some previous =>
                alive ← look (λ _ h, process_alive h (Process previous));
                if (alive : bool) && bool_decide (Status previous = WorkloadCheckpointed)
                then ParkFrozenSource previous (RecordID rec) else mret (Ok tt)
            | None => mret (Ok tt)
            end);
  match parked with
  | Err err => mret (rec, Err "park the frozen source for the restore")
  | Ok _ =>
      _ ← (match Ports (ManifestWorkload m) with
           | [] => mret tt
           | _ => reapSupersededSource rec
           end);
      mret (rec, Ok tt)
  end.

(** The lazy-pages daemon, when one was asked for. *)
Definition start_lazy_pages (lazy : bool) (rec : RestoreRecord)
    : call (RestoreRecord * result unit) :=
  if negb lazy then mret (rec, Ok tt)
  else
    daemon ⇐ look (λ e _, if ok e then Ok (num e) else Err "start lazy-pages") in rec;
    let rec := rec <| Lazy := true |> <| LazyPagesPID := daemon |> in
    _ ⇐ save rec in rec;
    mret (rec, Ok tt).

(** The process: restored, adopted and resumed. *)
Definition start_process (m : CheckpointManifest) (started : Z) (rec : RestoreRecord)
    : call (RestoreRecord * result unit) :=
  let id := SpecID (ManifestWorkload m) in
  pid ⇐ criu_Restore id in rec;
  adopted ← AdoptRestored id pid;
  match adopted with
  | Err err => _ ← Kill SIGKILL (is_pid pid); mret (rec, Err err)
  | Ok _ =>
      resumed ← Resume id;
      match resumed with
      | Err err => mret (rec, Err "resume restored process")
      | Ok _ =>
          now ← time;
          let rec := stamp now (rec <| TimeToFirstExecutionMS := (now - started) /' 1000000 |>
                                    <| RecordPID := pid |>
                                    <| RecordState := RestoreProcessRunning |>) in
          _ ⇐ save rec in rec;
          mret (rec, Ok tt)
      end
  end.

(** [RecordStatus] also writes into the restored root. *)
Definition record_status (spec : WorkloadSpec) (plan : NetworkPlan) (rec : RestoreRecord)
    (tcp : bool) : call (result unit) :=
  written ← on_network (RecordStatus spec plan OperationRestore (RecordID rec) StatusCompleted "" tcp);
  match written with
  | Err err => mret (Err err)
  | Ok _ =>
      act (λ e h, (match disk h !! TargetRoot rec with
                   | Some (Tree _) => h <| disk := <[TargetRoot rec := Tree (text e)]> (disk h) |>
                   | _ => h
                   end, Ok tt))
  end.

(** Health, then the network. *)
Definition validate_and_publish (m : CheckpointManifest) (rec : RestoreRecord)
    : call (RestoreRecord * result unit) :=
  let spec := ManifestWorkload m in
  _ ⇐ validateHealth spec in rec;
  published ←
    (if negb has_network then mret (Ok tt)
     else
       match PlanFor digest32 spec, MappingsFor spec with
       | Err err, _ => mret (Err "network plan")
       | _, Err err => mret (Err "resolve network mappings")
       | Ok plan, Ok mappings =>
           active ← on_network (Activate (SpecID spec) mappings);
           match active with
           | Err err => mret (Err "publish workload ports")
           | Ok _ => record_status spec plan rec (TCPState (Engine m))
           end
       end);
  match published with
  | Err err => mret (rec, Err err)
  | Ok _ =>
      now ← time;
      let rec := stamp now (rec <| RecordState := RestoreValidated |>) in
      _ ⇐ save rec in rec;
      mret (rec, Ok tt)
  end.

(** The transaction, from the moment its record exists. *)
Definition transaction (m : CheckpointManifest) (lazy : bool) (backup : path) (rec : RestoreRecord)
    : call (RestoreRecord * result unit) :=
  staged ← stage m rec;
  let '(rec, staged) := staged in
  match staged with
  | Err err => mret (rec, Err err)
  | Ok restoredRoot =>
      switched ← switch_root rec backup restoredRoot;
      let '(rec, switched) := switched in
      match switched with
      | Err err => mret (rec, Err err)
      | Ok _ =>
          prepared ⇐ PrepareRestore cwd url_Parse EqualFold (ManifestWorkload m) in rec;
          let rec := rec <| CreatedWorkload := prepared.2 |> in
          _ ⇐ save rec in rec;
          room ← make_room m rec;
          match room with
          | (rec, Err err) => mret (rec, Err err)
          | (rec, Ok _) =>
              restoreStarted ← time;
              paged ← start_lazy_pages lazy rec;
              match paged with
              | (rec, Err err) => mret (rec, Err err)
              | (rec, Ok _) =>
                  started ← start_process m restoreStarted rec;
                  match started with
                  | (rec, Err err) => mret (rec, Err err)
                  | (rec, Ok _) => validate_and_publish m rec
                  end
              end
          end
      end
  end.

(** The record of a new transaction. *)
Definition fresh_record (id checkpointID : string) (w : WorkloadSpec) (previous : option Workload)
    (now : Z) : RestoreRecord :=
  let target := segments (RootPath w) in
  {| RecordID := id; RecordCheckpoint := checkpointID; RecordWorkload := SpecID w;
     RecordState := RestorePreparing; TargetRoot := target;
     BackupRoot := Some (Dir target ++ [".shift-backup-" +:+ id])%list;
     StagingRoot := (Dir target ++ [".shift-restore-" +:+ id])%list;
     RestoreDirectory := (stateDir ++ ["restores"; id])%list;
     RecordPID := 0; CreatedWorkload := false; PreviousWorkload := previous;
     RecordCreatedAt := now; RecordUpdatedAt := now; RecordError := ""; Lazy := false;
     TimeToFirstExecutionMS := 0; LazyPagesPID := 0 |}.

(** Reserving the declared ports; yields whether they have to be given back. *)
Definition reserve_ports (spec : WorkloadSpec) : call (result bool) :=
  match Ports spec with
  | [] => mret (Ok false)
  | _ =>
      if negb has_network then mret (Err "this agent has no network layer configured")
      else match MappingsFor spec with
           | Err err => mret (Err "resolve network mappings")
           | Ok mappings =>
               r ← on_network (Net_Prepare (SpecID spec) mappings);
               mret (match r with Err _ => Err "reserve host ports" | Ok _ => Ok true end)
           end
  end.

(** Between the reservation and the record. *)
Definition examine (m : CheckpointManifest) : call (result string) :=
  valid ← preflight ((λ _, "validate asset") <$> Assets m);
  match valid, assetByName (Assets m) "filesystem-root" with
  | Err err, _ => mret (Err err)
  | Ok _, None => mret (Err "checkpoint has no filesystem root asset")
  | Ok _, Some _ =>
      chain ← processChain m;
      match chain with
      | Err err => mret (Err err)
      | Ok _ => look (λ e _, if ok e then Ok (text e) else Err "id")
      end
  end.

(** The transaction and what the deferred calls do when it fails. *)
Definition transact (m : CheckpointManifest) (lazy : bool) (backup : path) (rec : RestoreRecord)
    : call (result RestoreRecord) :=
  out ← transaction m lazy backup rec;
  match out with
  | (rec, Ok _) => mret (Ok rec)
  | (rec, Err err) => _ ← rollback rec err; mret (Err err)
  end.

(** [Prepare] under the guard. *)
Definition guarded_prepare (checkpointID : string) (m : CheckpointManifest) (lazy : bool)
    : call (result RestoreRecord) :=
  let spec := ManifestWorkload m in
  reserved ← reserve_ports spec;
  match reserved with
  | Err err => mret (Err err)
  | Ok reserved =>
      outcome ←
        (id ← examine m;
         match id with
         | Err err => mret (Err err)
         | Ok id =>
             rec ← look (λ e h, fresh_record id checkpointID spec
                                  (match Get h (SpecID spec) with
                                   | Ok w => Some w
                                   | Err _ => None
                                   end) (clock e));
             saved ← save rec;
             match saved with
             | Err err => mret (Err err)
             | Ok _ => transact m lazy (default [] (BackupRoot rec)) rec
             end
         end);
      _ ← (match outcome with
           | Err _ => if (reserved : bool) then _ ← on_network (Deactivate (SpecID spec)); mret tt
                      else mret tt
           | Ok _ => mret tt
           end);
      mret outcome
  end.

(** [Prepare]. *)
Definition Prepare (checkpointID : string) (lazy : bool) : call (result RestoreRecord) :=
  capable ← (if negb lazy then mret (Ok tt)
             else if negb lazy_engine then
               mret (Err "this checkpoint engine cannot serve lazy restores")
             else succeeds "lazy restore is unavailable");
  match capable with
  | Err err => mret (Err err)
  | Ok _ =>
      loaded ← look (λ e h, LoadCheckpoint e h checkpointID);
      match loaded with
      | Err err => mret (Err err)
      | Ok m =>
          let target := segments (RootPath (ManifestWorkload m)) in
          admitted ← preflight ["checkpoint is not trusted"; "inspect destination";
            "destination is incompatible"; "load restore policy"; "restore target denied";
            "restoring directly over a mountpoint requires a filesystem snapshot adapter"];
          match admitted with
          | Err err => mret (Err err)
          | Ok _ =>
              claimed ← beginRestore target;
              match claimed with
              | Err err => mret (Err err)
              | Ok _ =>
                  outcome ← guarded_prepare checkpointID m lazy;
                  match outcome with
                  | Err err => _ ← endRestore target; mret (Err err)
                  | Ok rec => mret (Ok rec)
                  end
              end
          end
      end
  end.

(** ** Commit, rollback, recovery *)

Definition get_restore (id : string) : call (result RestoreRecord) :=
  look (λ _ h, match restores h !! id with
               | Some rec => Ok rec
               | None => Err "record not found"
               end).

(** [Commit]. *)
Definition Commit (id : string) : call (result RestoreRecord) :=
  found ← get_restore id;
  match found with
  | Err err => mret (Err err)
  | Ok rec =>
      if decide (RecordState rec = RestoreCommitted) then
        _ ← endRestore (TargetRoot rec);
        mret (Ok rec)
      else if negb (bool_decide (RecordState rec = RestoreValidated)) then
        mret (Err "restore is not validated")
      else
        _ ← reapSupersededSource rec;
        removed ← (match BackupRoot rec with
                   | Some backup => RemoveAll backup
                   | None => mret (Ok tt)
                   end);
        match removed with
        | Err err => mret (Err "remove committed filesystem backup")
        | Ok _ =>
            _ ← RemoveAll (StagingRoot rec);
            _ ← (if Lazy rec then mret tt
                 else _ ← RemoveAll (RestoreDirectory rec); mret tt);
            now ← time;
            let rec := stamp now (rec <| RecordState := RestoreCommitted |>) in
            saved ← put_restore id rec;
            match saved with
            | Err err => mret (Err err)
            | Ok _ => _ ← endRestore (TargetRoot rec); mret (Ok rec)
            end
        end
  end.

(** [Rollback]. *)
Definition Rollback (id reason : string) : call (result RestoreRecord) :=
  found ← get_restore id;
  match found with
  | Err err => mret (Err err)
  | Ok rec =>
      if decide (RecordState rec = RestoreRolledBack) then mret (Ok rec)
      else if decide (RecordState rec = RestoreCommitted) then
        mret (Err "a committed restore cannot be rolled back")
      else
        out ← rollback rec reason;
        mret (_ ← out.2; Ok out.1)
  end.

Definition listed_restores (h : host) : list RestoreRecord :=
  snd <$> merge_sort (λ a b, Is_true (String.leb a.1 b.1)) (map_to_list (restores h)).

(** What [Recover] does with one record. *)
Definition recover_one (rec : RestoreRecord) : call (result unit) :=
  if bool_decide (RecordState rec ∈ [RestorePreparing; RestoreFilesystemSwitched;
                                     RestoreProcessRunning; RestoreRollingBack]) then
    out ← rollback rec "agent restarted before restore validation";
    mret out.2
  else if decide (RecordState rec = RestoreValidated) then
    alive ← look (λ _ h, match Get h (RecordWorkload rec) with
                         | Ok w => process_alive h (Process w)
                         | Err _ => false
                         end);
    if negb alive then
      out ← rollback rec "validated destination process missing after agent restart";
      mret out.2
    else committed ← Commit (RecordID rec); mret (_ ← committed; Ok tt)
  else mret (Ok tt).

Fixpoint recover_all (recs : list RestoreRecord) : call (result unit) :=
  match recs with
  | [] => mret (Ok tt)
  | rec :: rest =>
      r ← recover_one rec;
      match r with
      | Err err => mret (Err err)
      | Ok _ => recover_all rest
      end
  end.

(** The retained images of lazy restores whose daemon is gone. *)
Fixpoint sweep_lazy (recs : list RestoreRecord) : call unit :=
  match recs with
  | [] => mret tt
  | rec :: rest =>
      _ ← (if negb (Lazy rec) ||
              negb (bool_decide (RecordState rec ∈ [RestoreCommitted; RestoreValidated])) then mret tt
           else
             serving ← look (λ e _, ok e);
             if (serving : bool) then mret tt else _ ← RemoveAll (RestoreDirectory rec); mret tt);
      sweep_lazy rest
  end.

(** [Recover]. *)
Definition Recover : call (result unit) :=
  recs ← look (λ _ h, listed_restores h);
  r ← recover_all recs;
  match r with
  | Err err => mret (Err err)
  | Ok _ =>
      recs ← look (λ _ h, listed_restores h);
      _ ← sweep_lazy recs;
      mret (Ok tt)
  end.

(** [OpenRestorer], in a process whose guard starts empty. *)
Definition OpenRestorer : call (result unit) :=
  _ ← act (λ _ h, (h <| inFlight := ∅ |>, tt));
  Recover.
End restorer.
