(* ===== verification/Chain.v ===== *)
(** * The images a restore plays back

    What [processImageAssets] and the first loop of [processChain]
    ([internal/checkpoint/restore.go]) accept: pre-copy passes numbered from
    one without a gap, and a lineage of checkpoints of one workload, each the
    parent of the one before, without a cycle and of bounded length. *)
From S2P Require Import Prelude GoStr Model Workload Prog Conc Network Host Runtime Restorer.

Local Open Scope string_scope.
Local Open Scope list_scope.
Local Open Scope Z_scope.

(** ** Pre-copy passes *)

Definition is_pass (a : AssetManifest) : Prop :=
  AssetName a ≠ "process-state" ∧ HasPrefix (AssetName a) precopy_prefix = true.

Definition pass_number (a : AssetManifest) : result Z :=
  Atoi (TrimPrefix (AssetName a) precopy_prefix).

(** What the collected passes are: every pass under its number. *)
Lemma collect_passes_sound assets : ∀ byIndex byIndex',
  collect_passes assets byIndex = Ok byIndex' →
  (∀ n a, byIndex' !! n = Some a ↔
     byIndex !! n = Some a ∨ a ∈ assets ∧ is_pass a ∧ pass_number a = Ok n ∧ byIndex !! n = None) ∧
  (∀ a, a ∈ assets → is_pass a → ∃ n, pass_number a = Ok n ∧ byIndex' !! n = Some a).
Proof.
  induction assets as [|a assets IH]; intros byIndex byIndex' H; cbn [collect_passes] in H.
  { injection H as <-. split; [|by intros a ?%elem_of_nil].
    intros n a. rewrite elem_of_nil. naive_solver. }
  destruct (bool_decide _ || negb _) eqn:Hskip.
  - assert (¬ is_pass a) as Hnot.
    { intros [Hne Hpre]. rewrite Hpre, bool_decide_eq_false_2 in Hskip by done. done. }
    destruct (IH _ _ H) as [H1 H2]. split.
    + intros n b. rewrite H1, elem_of_cons. naive_solver.
    + intros b [->|Hb]%elem_of_cons Hpass; [done|by apply H2].
  - apply orb_false_iff in Hskip as [Hne%bool_decide_eq_false Hpre%negb_false_iff].
    assert (is_pass a) as Ha by done.
    destruct (Atoi _) as [number|] eqn:Hnum; [|done]. destruct (number <? 1); [done|].
    destruct (decide (is_Some _)) as [|Hfree]; [done|]. change (pass_number a = Ok number) in Hnum.
    apply eq_None_not_Some in Hfree. destruct (IH _ _ H) as [H1 H2]. split.
    + intros n b. rewrite H1, elem_of_cons. destruct (decide (n = number)) as [->|Hn].
      * rewrite lookup_insert_eq, Hfree. split; [intros [[= <-]|(_ & _ & _ & [=])]; auto|].
        intros [[=]|([->|Hb] & Hp & Hb' & _)]; [by left|].
        destruct (H2 b Hb Hp) as (n & Hn & Hl). assert (n = number) as -> by congruence.
        apply H1 in Hl. rewrite lookup_insert_eq in Hl. destruct Hl as [|(_ & _ & _ & [=])]. by left.
      * rewrite lookup_insert_ne by done. split; [naive_solver|].
        intros [Hb|([->|Hb] & Hp & Hb' & Hnone)]; [by left|congruence|]. right. auto.
    + intros b [->|Hb]%elem_of_cons Hpass; [|by apply H2]. exists number. split; [done|].
      apply H1. left. by rewrite lookup_insert_eq.
Qed.

Lemma contiguous_sound n : ∀ index byIndex l,
  contiguous n index byIndex = Ok l →
  length l = n ∧ ∀ i a, l !! i = Some a → byIndex !! (index + Z.of_nat i) = Some a.
Proof.
  induction n as [|n IH]; intros index byIndex l H; cbn [contiguous] in H.
  { injection H as <-. done. }
  destruct (byIndex !! index) as [a|] eqn:Ha; [|done].
  destruct (contiguous n (index + 1) byIndex) as [rest|] eqn:Hrest; [|done]. injection H as <-.
  destruct (IH _ _ _ Hrest) as [Hlen Hl]. split; [simpl; lia|]. intros [|i] b Hb; simpl in Hb.
  - replace (index + Z.of_nat 0) with index by lia. congruence.
  - replace (index + Z.of_nat (S i)) with (index + 1 + Z.of_nat i) by lia. by apply Hl.
Qed.

(** As many consecutive numbers as there are passes leave none out. *)
Lemma contiguous_complete (byIndex : gmap Z AssetManifest) l n a :
  contiguous (size byIndex) 1 byIndex = Ok l → byIndex !! n = Some a → a ∈ l.
Proof.
  intros Hc Hn. destruct (contiguous_sound _ _ _ _ Hc) as [Hlen Hl].
  set (numbers := (λ i, 1 + Z.of_nat i) <$> seq 0 (size byIndex)).
  assert (n ∈ dom byIndex) as Hdom by (apply elem_of_dom; by exists a).
  assert (list_to_set numbers = dom byIndex) as Heq.
  { apply set_subseteq_size_eq.
    - intros k (i & -> & Hi)%elem_of_list_to_set%list_elem_of_fmap. apply elem_of_seq in Hi.
      destruct (lookup_lt_is_Some_2 l i) as [b Hb]; [lia|]. apply elem_of_dom. exists b. by apply Hl.
    - rewrite size_dom, size_list_to_set; [unfold numbers; by rewrite length_fmap, length_seq|].
      apply NoDup_fmap; [intros i j ?; lia|apply NoDup_seq]. }
  rewrite <- Heq in Hdom. apply elem_of_list_to_set, list_elem_of_fmap in Hdom as (i & -> & Hi).
  apply elem_of_seq in Hi. destruct (lookup_lt_is_Some_2 l i) as [b Hb]; [lia|].
  rewrite (Hl i b Hb) in Hn. injection Hn as ->. by eapply list_elem_of_lookup_2.
Qed.

Lemma processImageAssets_sound m last passes :
  processImageAssets m = Ok (last, passes) →
  (last ∈ Assets m ∧ AssetName last = "process-state") ∧
  (∀ i a, passes !! i = Some a → a ∈ Assets m ∧ pass_number a = Ok (Z.of_nat i + 1)) ∧
  (∀ a, a ∈ Assets m → is_pass a → a ∈ passes).
Proof.
  unfold processImageAssets, assetByName. intros H.
  destruct (list_find _ _) as [[k f]|] eqn:Hfind; [|done]. cbn in H.
  destruct (collect_passes _ _) as [byIndex|] eqn:Hcol; [|done]. cbn in H.
  destruct (contiguous _ _ _) as [l|] eqn:Hcon; [|done]. injection H as <- <-.
  apply list_find_Some in Hfind as (Hk & Hname & _).
  destruct (collect_passes_sound _ _ _ Hcol) as [H1 H2].
  split; [split; [by eapply list_elem_of_lookup_2|done]|]. split.
  - intros i a Ha. destruct (contiguous_sound _ _ _ _ Hcon) as [_ Hl].
    apply Hl, H1 in Ha as [|(Ha & _ & Hn & _)]; [by rewrite lookup_empty in *|].
    split; [done|]. rewrite Hn. f_equal. lia.
  - intros a Ha Hp. destruct (H2 a Ha Hp) as (n & _ & Hn). by eapply contiguous_complete.
Qed.

(** ** The lineage *)

(** Each member's successor is its parent; the oldest has none. *)
Definition linked (load : string → result CheckpointManifest) (chain : list CheckpointManifest) : Prop :=
  ∀ i c, chain !! i = Some c →
    match chain !! S i with
    | Some p => ParentID c ≠ "" ∧ load (ParentID c) = Ok p
    | None => ParentID c = ""
    end.

Lemma linked_single load m : ParentID m = "" → linked load [m].
Proof. intros Hm [|i] c Hc; simplify_eq/=; done. Qed.

(** The loop appends a linked lineage that starts at the current manifest. *)
Lemma walk_chain_sound load w : ∀ fuel current seen chain out,
  walk_chain load fuel w current seen chain = Ok out →
  ∃ older, out = chain ++ older ∧ linked load (current :: older) ∧ (length older ≤ fuel)%nat ∧
    Forall (λ p, SpecID (ManifestWorkload p) = w) older ∧
    NoDup (ManifestID <$> older) ∧ (∀ p, p ∈ older → ManifestID p ∉ seen).
Proof.
  induction fuel as [|fuel IH]; intros current seen chain out H; cbn [walk_chain] in H;
    destruct (decide (ParentID current = "")) as [Hp|Hp]; simplify_eq.
  1, 2: exists []; rewrite app_nil_r; split_and!;
    [done|by apply linked_single|simpl; lia|done|constructor|by intros p ?%elem_of_nil].
  destruct (load (ParentID current)) as [parent|] eqn:Hload; [|done].
  destruct (bool_decide _) eqn:Hw; cbn [negb] in H; [|done]. apply bool_decide_eq_true in Hw.
  destruct (decide (ManifestID parent ∈ seen)) as [|Hseen]; [done|].
  destruct (IH _ _ _ _ H) as (older & -> & Hlink & Hlen & Hall & Hnd & Hfresh).
  exists (parent :: older). rewrite <- app_assoc. split_and!; [done| |simpl; lia|by constructor| |].
  - intros [|i] c Hc; [by simplify_eq/=|by apply (Hlink i)].
  - rewrite fmap_cons. apply NoDup_cons. split; [|done].
    intros (p & Heq & Hin)%list_elem_of_fmap. apply (Hfresh p Hin). rewrite <- Heq. left.
  - intros p [->|Hin]%elem_of_cons; [done|]. intros Hs. apply (Hfresh p Hin). by right.
Qed.

(** C35.  The images of a restore are exactly the checkpoint's
    history.  When the lineage of a checkpoint is accepted it starts at that
    checkpoint, every following member is what the repository holds under its
    predecessor's parent id, it ends at a checkpoint without a parent, all
    members belong to the same workload, no id occurs twice, and there are at
    most 256.  When the process images of a member are accepted, the n-th
    pre-copy pass played back is the asset numbered n, and every pre-copy
    asset of the manifest is among them. *)
Theorem lineage_exact load m chain (c : CheckpointManifest) (last : AssetManifest) passes :
  lineage load m = Ok chain → c ∈ chain → processImageAssets c = Ok (last, passes) →
  head chain = Some m ∧ linked load chain ∧ (length chain ≤ 256)%nat ∧
  Forall (λ p, SpecID (ManifestWorkload p) = SpecID (ManifestWorkload m)) chain ∧
  NoDup (ManifestID <$> chain) ∧
  last ∈ Assets c ∧ AssetName last = "process-state" ∧
  (∀ i a, passes !! i = Some a → a ∈ Assets c ∧ pass_number a = Ok (Z.of_nat i + 1)) ∧
  (∀ a, a ∈ Assets c → is_pass a → a ∈ passes).
Proof.
  intros Hline Hc Himg. destruct (processImageAssets_sound _ _ _ Himg) as ([Hl Hn] & Hp & Hall).
  destruct (walk_chain_sound _ _ _ _ _ _ _ Hline) as (older & -> & Hlink & Hlen & Hw & Hnd & Hfresh).
  split_and!; [done|done|simpl; lia|by constructor| |done..].
  cbn [app]. rewrite fmap_cons. apply NoDup_cons. split; [|done].
  intros (p & Heq & Hin)%list_elem_of_fmap. apply (Hfresh p Hin). rewrite <- Heq. left.
Qed.

(** An incremental checkpoint over a full one, with two pre-copy passes
    listed out of order. *)
Definition incremental : CheckpointManifest :=
  let base := {| Format := ""; FormatVersion := ""; ManifestID := "cp-2"; ParentID := "cp-1";
    Kind := CheckpointIncremental; ManifestWorkload := demo_admitted; SourceIdentityID := "";
    ManifestCreatedAt := 1;
    Engine := {| EngineName := "criu"; EngineVersion := ""; LeaveRunning := false;
                 ParentImages := false; PreCopy := false; EnginePreCopyPasses := 0;
                 TCPState := false; ShellJob := false; FileLocks := false |};
    Assets := []; RequiredBytes := 1;
    ManifestMetrics := {| MetricsStartedAt := 0; FreezeStartedAt := 0; MetricsCompletedAt := 0;
      MetricsDuration := 0; PlainBytes := 0; StoredBytes := 0; MetricsDeduplicatedBytes := 0;
      ChunkCount := 0 |};
    Security := {| SecurityKeyVersion := 0; ManifestSignature := ""; SignerMachineID := "";
                   SecurityAlgorithm := "" |};
    ManifestSHA256 := ""; CompatibilityID := "" |} in
  base <| Assets := (λ n, {| AssetName := n; MediaType := ""; AssetPlainSize := 1;
                             AssetStoredSize := 1; AssetSHA256 := ""; Chunks := [];
                             AssetRequired := true; RestoreOrder := 0 |}) <$>
    ["process-state-precopy-2"; "process-state"; "process-state-precopy-1"] |>.

Definition full : CheckpointManifest :=
  incremental <| ManifestID := "cp-1" |> <| ParentID := "" |> <| Kind := CheckpointFull |>.

Definition demo_load (id : string) : result CheckpointManifest :=
  if decide (id = "cp-1") then Ok full else Err "checkpoint not found".

Lemma lineage_exact_witness :
  lineage demo_load incremental = Ok [incremental; full] ∧
  NoDup (ManifestID <$> [incremental; full]) ∧
  ∃ last passes, processImageAssets full = Ok (last, passes) ∧
    AssetName <$> passes = ["process-state-precopy-1"; "process-state-precopy-2"].
Proof.
  assert (lineage demo_load incremental = Ok [incremental; full]) as Hl by (vm_compute; reflexivity).
  destruct (processImageAssets full) as [[last passes]|] eqn:Hp; [|vm_compute in Hp; discriminate].
  split; [exact Hl|]. split.
  - apply (lineage_exact demo_load incremental [incremental; full] full last passes); [exact Hl| |exact Hp].
    right. left.
  - exists last, passes. split; [reflexivity|]. vm_compute in Hp. injection Hp as <- <-. reflexivity.
Defined.
