(* ===== verification/RestorerSafe.v ===== *)
(** * The restore transaction loses nothing

    Whatever fails in a restore and wherever the agent dies while the
    transaction runs, the original workload root is still on the disk under
    one of two names, and the record says which ([undoable]).  A rollback
    from there puts it back, whether it runs at once or after a restart. *)
From S2P Require Import Prelude GoStr Model Workload Prog Conc Network Host Runtime Restorer.

Local Open Scope string_scope.
Local Open Scope list_scope.
Local Open Scope Z_scope.

(** ** Calls that leave files and restore records alone *)

Definition same_files (h h' : host) : Prop := disk h' = disk h ∧ restores h' = restores h.

#[export] Instance same_files_preorder : PreOrder same_files.
Proof. split; [done|]. intros h1 h2 h3 [] []. split; congruence. Qed.

Abbreviation still := (guarantees same_files).

Lemma still_act {A} (f : kernel → host → host * A) :
  (∀ e h, same_files h (fst (f e h))) → still (act f).
Proof. intros H. apply guarantees_atomic. intros e h. apply (H e (reap e h)). Qed.

Lemma still_look {A} (f : kernel → host → A) : still (look f).
Proof. by apply still_act. Qed.

Lemma still_try err (f : kernel → host → host) : (∀ e h, same_files h (f e h)) → still (try err f).
Proof. intros H. apply still_act. intros e h. destruct (ok e); [apply H|done]. Qed.

Lemma still_Kill s reached : still (Kill s reached).
Proof. apply still_act. intros e h. by destruct (bool_decide _), (ok e). Qed.

Lemma still_network {A} (t : thread coordinator net_env A) : still (on_network t).
Proof. by apply guarantees_zoom. Qed.

Lemma still_put_workload id w : still (put_workload id w).
Proof. by apply still_try. Qed.

Lemma still_preflight errs : still (preflight errs).
Proof.
  induction errs as [|err errs IH]; [done|]. unfold preflight; fold preflight.
  apply guarantees_bind; [by apply still_try|]. by intros [].
Qed.

(** Walk through a call and show every action still. *)
Ltac hush :=
  repeat first
    [ apply guarantees_ret
    | apply still_look | apply still_Kill | apply still_network | apply still_put_workload
    | apply still_preflight
    | apply still_try; intros; done
    | apply still_act; intros; done
    | apply guarantees_bind; [|intros ?]
    | progress cbv beta iota
    | case_match ].

Lemma still_stored w : still (stored w).
Proof. unfold stored. hush. Qed.

Lemma still_signal id s status : still (signalAndUpdate id s status).
Proof. unfold signalAndUpdate. hush; apply still_stored. Qed.

Lemma still_Stop id : still (Stop id).
Proof. unfold Stop, finish_stop, get_workload. hush; apply still_stored. Qed.

Lemma still_Delete id : still (Delete id).
Proof. unfold Delete. hush. Qed.

Lemma still_RestoreMetadata w : still (RestoreMetadata w).
Proof. unfold RestoreMetadata. hush. Qed.

Lemma still_MarkRestoreFailed id reason : still (MarkRestoreFailed id reason).
Proof. unfold MarkRestoreFailed, get_workload. hush. Qed.

Lemma still_restore_workload rec reason : still (restore_workload rec reason).
Proof.
  unfold restore_workload, Resume.
  hush; auto using still_Delete, still_RestoreMetadata, still_signal, still_MarkRestoreFailed.
Qed.

Lemma still_reapSupersededSource rec : still (reapSupersededSource rec).
Proof. unfold reapSupersededSource, ReapFrozenSource, Retire. hush. Qed.

Lemma still_AdoptRestored id pid : still (AdoptRestored id pid).
Proof. unfold AdoptRestored, get_workload. hush. Qed.

Lemma still_PrepareRestore cwd parse fold spec : still (PrepareRestore cwd parse fold spec).
Proof. unfold PrepareRestore. hush. Qed.

Lemma still_processChain m : still (processChain m).
Proof.
  unfold processChain. apply guarantees_bind; [apply still_look|]. intros [chain|]; [|done].
  induction chain as [|c chain IH]; [done|]. cbn [check_chain]. hush. apply IH.
Qed.

Lemma still_health spec : still (validateHealth spec).
Proof.
  assert (∀ n, still (health_attempts n)).
  { intros n. induction n as [|n IH]; [done|]. cbn [health_attempts].
    apply guarantees_bind; [by apply still_try|]. intros [?|?]; [done|]. destruct n as [|n]; [done|].
    apply guarantees_bind; [by apply still_try|]. by intros [?|?]. }
  unfold validateHealth. destruct (HealthCheck spec) as [c|]; [|hush].
  apply guarantees_bind; [case_match; [by apply still_try|done]|]. by intros [?|?].
Qed.

(** ** Names *)

Lemma failed_name_own base id : base +:+ ".shift-failed-" +:+ id ≠ base.
Proof.
  intros H. apply (f_equal String.length) in H. rewrite !string_app_length in H. simpl in H. lia.
Qed.

Lemma failed_name_backup base id : base +:+ ".shift-failed-" +:+ id ≠ ".shift-backup-" +:+ id.
Proof.
  rewrite string_app_assoc. intros H%string_app_cancel. destruct base as [|a base]; [done|].
  apply (f_equal String.length) in H. simpl in H. rewrite string_app_length in H. simpl in H. lia.
Qed.

Lemma failed_name_staging base id : base +:+ ".shift-failed-" +:+ id ≠ ".shift-restore-" +:+ id.
Proof.
  rewrite string_app_assoc. intros H%string_app_cancel.
  destruct base as [|a [|b base]]; [done|simplify_eq/=|].
  apply (f_equal String.length) in H. simpl in H. rewrite string_app_length in H. simpl in H. lia.
Qed.

Lemma siblings_apart {A} (l : list A) x y : x ≠ y → ¬ l ++ [x] `prefix_of` l ++ [y].
Proof.
  intros Hxy [z Hz]. rewrite <- !app_assoc in Hz. apply app_inv_head in Hz. simplify_eq/=.
Qed.

(** ** Where the original root is *)

Create HintDb restore.

Section safe.
Context (stateDir : path) (has_network : bool).

(** A transaction [id] over [parent/base], and what was there before. *)
Context (id : string) (parent : path) (base : string) (original : option node).

Definition target : path := parent ++ [base].
Definition backup : path := parent ++ [".shift-backup-" +:+ id].
Definition staging : path := parent ++ [".shift-restore-" +:+ id].
Definition failed : path := parent ++ [base +:+ ".shift-failed-" +:+ id].
Definition images : path := stateDir ++ ["restores"; id].

(** The random id collides with no sibling of the root, and nothing that is
    replaced lies inside the transaction's own image directory. *)
Context (backup_fresh : ".shift-backup-" +:+ id ≠ base)
        (staging_fresh : ".shift-restore-" +:+ id ≠ base)
        (images_apart : ∀ p, p ∈ [target; backup; failed] → ¬ images `prefix_of` p).

Definition guarded (p : path) : Prop := p ∈ [target; backup; failed].

Lemma staging_apart p : guarded p → ¬ staging `prefix_of` p.
Proof.
  unfold guarded. rewrite !elem_of_cons, elem_of_nil.
  intros [->|[->|[->|[]]]]; apply siblings_apart; [done| |].
  - intros H%string_app_cancel. done.
  - intros H. by apply (failed_name_staging base id).
Qed.

Lemma backup_not_target : backup ≠ target.
Proof. intros H. apply app_inv_head in H. by simplify_eq. Qed.

Lemma failed_not_target : failed ≠ target.
Proof. intros H. apply app_inv_head in H. simplify_eq. by apply (failed_name_own base id). Qed.

Lemma failed_not_backup : failed ≠ backup.
Proof. intros H. apply app_inv_head in H. simplify_eq. by apply (failed_name_backup base id). Qed.

(** *** Calls that leave the guarded entries and the records alone *)

Definition kept (ps : list path) (h h' : host) : Prop :=
  (∀ p, p ∈ ps → disk h' !! p = disk h !! p) ∧ restores h' = restores h.

Lemma still_kept {A} ps (t : call A) : still t → guarantees (kept ps) t.
Proof. apply guarantees_mono. intros h h' [Hd Hr]. split; [by rewrite Hd|done]. Qed.

Lemma kept_maintains {A} ps (P : host → Prop) (t : call A) :
  (∀ h h', kept ps h h' → P h → P h') → guarantees (kept ps) t → maintains P t.
Proof. intros HP. apply guarantees_mono. apply HP. Qed.

Lemma kept_reap ps (P : host → Prop) : (∀ h h', kept ps h h' → P h → P h') → reap_closed P.
Proof. intros HP e h. by apply HP. Qed.

Lemma kept_RemoveAll ps p :
  (∀ q, q ∈ ps → ¬ p `prefix_of` q) → guarantees (kept ps) (RemoveAll p).
Proof.
  intros Hp. apply guarantees_bind; [|intros _]; apply guarantees_atomic; intros e h.
  - split; [|done]. intros q Hq. simpl. rewrite map_lookup_imap.
    destruct (disk h !! q); simpl; [|done]. rewrite decide_False; [done|by apply Hp].
  - destruct (ok e); [|done]. split; [|done]. intros q Hq. simpl.
    apply option_eq. intros n. rewrite map_lookup_filter_Some. simpl. naive_solver.
Qed.

Lemma kept_MkdirAll ps p :
  (∀ q, q ∈ ps → ¬ p `prefix_of` q) → guarantees (kept ps) (MkdirAll p).
Proof.
  intros Hp. apply guarantees_atomic. intros e h. destruct (ok e); [|done]. simpl.
  destruct (disk h !! p); [done|]. split; [|done]. intros q Hq. simpl.
  rewrite lookup_insert_ne; [done|]. intros ->. by apply (Hp q).
Qed.

Lemma kept_extract ps p : (∀ q, q ∈ ps → ¬ p `prefix_of` q) →
  guarantees (kept ps) (extractDirectory p).
Proof.
  intros Hp. apply guarantees_atomic. intros e h. split; [|done]. intros q Hq. simpl.
  generalize (disk h). induction (extracted e) as [|x xs IH]; intros d; [done|]. simpl.
  rewrite IH, lookup_insert_ne; [done|]. intros <-. apply (Hp _ Hq). by eexists.
Qed.

Lemma kept_extract_sets ps p sets : (∀ q, q ∈ ps → ¬ p `prefix_of` q) →
  guarantees (kept ps) (extract_sets sets p).
Proof.
  revert p. induction sets as [|set sets IH]; intros p Hp; [done|]. cbn [extract_sets].
  apply guarantees_bind.
  - induction set as [|a set IHs]; [done|]. apply guarantees_bind; [by apply kept_extract|].
    by intros [?|?].
  - intros [?|?]; [|done]. apply IH. intros q Hq Hpre.
    apply (Hp q Hq). etrans; [by eexists|done].
Qed.

(** *** The record and the disk agree *)

Definition aligned (rec : RestoreRecord) : Prop :=
  RecordID rec = id ∧ TargetRoot rec = target ∧ StagingRoot rec = staging ∧
  RestoreDirectory rec = images ∧ (BackupRoot rec = Some backup ∨ BackupRoot rec = None).

(** The original is under its own name, or waits under the backup's. *)
Definition home (d : gmap path node) : Prop :=
  d !! target = original ∧ d !! backup = None ∧ d !! failed = None.
Definition away (d : gmap path node) : Prop := d !! backup = original ∧ d !! failed = None.

(** Records that go with the one and with the other. *)
Definition prior (rec : RestoreRecord) : Prop := aligned rec ∧ RecordState rec = RestorePreparing.
Definition switched (st : RestoreState) : Prop :=
  st ∈ [RestoreFilesystemSwitched; RestoreProcessRunning; RestoreValidated; RestoreRollingBack].
#[local] Instance switched_decision st : Decision (switched st).
Proof. unfold switched. apply _. Defined.
Definition moved (rec : RestoreRecord) : Prop :=
  aligned rec ∧ (is_Some original → BackupRoot rec = Some backup) ∧
  (switched (RecordState rec) ∨ RecordState rec = RestorePreparing ∧ is_Some original).

(** A record that says validated goes with a restored root in place. *)
Definition filled (rec : RestoreRecord) (d : gmap path node) : Prop :=
  RecordState rec = RestoreValidated → is_Some (d !! target).

Definition undoable (rec : RestoreRecord) (d : gmap path node) : Prop :=
  prior rec ∧ home d ∨ moved rec ∧ away d ∧ filled rec d.

(** Every other transaction of the agent is over. *)
Definition others (h : host) : Prop :=
  ∀ k rec, restores h !! k = Some rec → k ≠ id →
    RecordState rec ∈ [RestoreCommitted; RestoreRolledBack; RestoreFailed] ∧
    ¬ RestoreDirectory rec `prefix_of` target.

(** What a crash leaves behind. *)
Definition recoverable (h : host) : Prop :=
  others h ∧ ∃ rec, restores h !! id = Some rec ∧ undoable rec (disk h).

(** The transaction at work, with [rec] in memory: before the switch, after
    it, and at any time. *)
Definition at_home (h : host) : Prop :=
  home (disk h) ∧ others h ∧ ∃ s, restores h !! id = Some s ∧ prior s.
Definition at_away (h : host) : Prop :=
  away (disk h) ∧ is_Some (disk h !! target) ∧ others h ∧ ∃ s, restores h !! id = Some s ∧ moved s.
Definition underway (rec : RestoreRecord) (h : host) : Prop :=
  undoable rec (disk h) ∧ recoverable h.

Lemma home_recoverable h : at_home h → recoverable h.
Proof. unfold at_home, recoverable, undoable. naive_solver. Qed.
Lemma away_recoverable h : at_away h → recoverable h.
Proof. unfold at_away, recoverable, undoable, filled. naive_solver. Qed.
Lemma home_underway rec h : prior rec → at_home h → underway rec h.
Proof. intros Hr Hh. split; [left; split; [done|apply Hh]|by apply home_recoverable]. Qed.
Lemma away_underway rec h : moved rec → at_away h → underway rec h.
Proof.
  intros Hr Hh. split; [|by apply away_recoverable]. right. split; [done|]. split; [apply Hh|].
  intros _. apply Hh.
Qed.
Lemma others_insert rec h : others h →
  others (h <| restores := <[id := rec]> (restores h) |>).
Proof. intros Ho k s Hs Hk. apply (Ho k s); [|done]. simpl in Hs. by rewrite lookup_insert_ne in Hs. Qed.

Lemma underway_recoverable rec h : underway rec h → recoverable h.
Proof. by intros []. Qed.

Lemma away_kept h h' : kept [target; backup; failed] h h' → at_away h → at_away h'.
Proof.
  intros [Hd Hr]. unfold at_away, away, others. rewrite Hr.
  rewrite (Hd target), (Hd backup), (Hd failed) by set_solver. done.
Qed.

Lemma home_kept h h' : kept [target; backup; failed] h h' → at_home h → at_home h'.
Proof.
  intros [Hd Hr]. unfold at_home, home, others. rewrite Hr.
  rewrite (Hd target), (Hd backup), (Hd failed) by set_solver. done.
Qed.

Lemma underway_kept rec h h' : kept [target; backup; failed] h h' → underway rec h → underway rec h'.
Proof.
  intros [Hd Hr]. unfold underway, recoverable, undoable, filled, home, away, others. rewrite Hr.
  rewrite (Hd target), (Hd backup), (Hd failed) by set_solver. done.
Qed.

Lemma away_reap : reap_closed at_away.
Proof. apply (kept_reap [target; backup; failed]), away_kept. Qed.
Lemma home_reap : reap_closed at_home.
Proof. apply (kept_reap [target; backup; failed]), home_kept. Qed.

Lemma still_away {A} (t : call A) : still t → maintains at_away t.
Proof.
  intros Ht. apply (kept_maintains [target; backup; failed]); [apply away_kept|by apply still_kept].
Qed.
Lemma still_home {A} (t : call A) : still t → maintains at_home t.
Proof.
  intros Ht. apply (kept_maintains [target; backup; failed]); [apply home_kept|by apply still_kept].
Qed.
#[local] Hint Resolve away_reap home_reap home_recoverable away_recoverable home_underway
  away_underway : restore.

(** *** The transaction *)

Section transaction.
Context (okE : kernel → Prop).
Context (cwd : result string) (url_Parse : string → result URL)
        (EqualFold : string → string → bool) (digest32 : string → Z).

(** A part of the transaction ends as [P] says, or undoable. *)
Definition ends {A} (P : RestoreRecord → host → Prop) (out : RestoreRecord * result A) (h : host) : Prop :=
  match out.2 with Ok _ => P out.1 h | Err _ => underway out.1 h end.

Definition after_switch (rec : RestoreRecord) (h : host) : Prop := moved rec ∧ at_away h.

Lemma return_away {A} rec (err : string) P : moved rec →
  triple okE at_away (alone (mret (rec, Err err : result A))) (ends P) recoverable.
Proof. intros Hr. apply alone_ret. intros h. by apply away_underway. Qed.

Lemma return_home {A} rec (err : string) P : prior rec →
  triple okE at_home (alone (mret (rec, Err err : result A))) (ends P) recoverable.
Proof. intros Hr. apply alone_ret. intros h. by apply home_underway. Qed.

Lemma step_away {A B} rec (t : call (result A)) (k : A → call (RestoreRecord * result B)) P :
  moved rec → maintains at_away t →
  (∀ a, triple okE at_away (alone (k a)) (ends P) recoverable) →
  triple okE at_away (alone (step rec t k)) (ends P) recoverable.
Proof.
  intros Hr Ht Hk. apply call_skip; [done|auto with restore|]. intros [a|err]; [apply Hk|].
  by apply return_away.
Qed.

Lemma step_home {A B} rec (t : call (result A)) (k : A → call (RestoreRecord * result B)) P :
  prior rec → maintains at_home t →
  (∀ a, triple okE at_home (alone (k a)) (ends P) recoverable) →
  triple okE at_home (alone (step rec t k)) (ends P) recoverable.
Proof.
  intros Hr Ht Hk. apply call_skip; [done|auto with restore|]. intros [a|err]; [apply Hk|].
  by apply return_home.
Qed.

Lemma moved_id rec : moved rec → RecordID rec = id.
Proof. by intros [[]]. Qed.

Lemma save_away rec : moved rec → maintains at_away (save rec).
Proof.
  intros Hr. apply maintains_try; [auto with restore|]. intros e h (Hd & Hf & Ho & _). rewrite (moved_id rec Hr). split; [done|]. split; [done|].
  split; [by apply others_insert|]. exists rec. simpl. by rewrite lookup_insert_eq.
Qed.

Lemma time_away {B} (k : Z → call B) Q :
  (∀ now, triple okE at_away (alone (k now)) Q recoverable) →
  triple okE at_away (alone (time ≫= k)) Q recoverable.
Proof. intros Hk. apply call_skip; [by apply still_away, still_look|auto with restore|done]. Qed.

(** Saving the record of the next state. *)
Lemma save_step rec : moved rec →
  triple okE at_away (alone (step rec (save rec) (λ _, mret (rec, Ok tt)))) (ends after_switch) recoverable.
Proof. intros Hr. apply step_away; [done|by apply save_away|]. intros _. by apply alone_ret. Qed.

(** A record keeps its paths as it advances. *)
Lemma moved_to rec rec' : moved rec →
  (RecordID rec', TargetRoot rec', StagingRoot rec', RestoreDirectory rec', BackupRoot rec') =
  (RecordID rec, TargetRoot rec, StagingRoot rec, RestoreDirectory rec, BackupRoot rec) →
  RecordState rec' = RecordState rec ∨ switched (RecordState rec') → moved rec'.
Proof.
  intros (Ha & Hb & Hs) Heq Hst. injection Heq as E1 E2 E3 E4 E5.
  unfold moved, aligned. rewrite E1, E2, E3, E4, E5. split; [done|]. split; [done|].
  destruct Hst as [->|]; auto.
Qed.

Ltac carry := eapply moved_to; [eassumption|reflexivity|first [by left|right; unfold switched; cbn; repeat constructor]].

Lemma make_room_away m rec : moved rec →
  triple okE at_away (alone (make_room m rec)) (ends after_switch) recoverable.
Proof.
  intros Hr. unfold make_room. apply call_skip; [|auto with restore|].
  { apply still_away. unfold ParkFrozenSource. hush. }
  intros [?|?]; [|by apply return_away].
  apply call_skip; [|auto with restore|intros _; by apply alone_ret].
  apply still_away. destruct (Ports _); [done|]. apply still_reapSupersededSource.
Qed.

Lemma lazy_pages_away lazy rec : moved rec →
  triple okE at_away (alone (start_lazy_pages lazy rec)) (ends after_switch) recoverable.
Proof.
  intros Hr. unfold start_lazy_pages. destruct lazy; simpl; [|by apply alone_ret].
  apply step_away; [done|by apply still_away, still_look|]. intros daemon. apply save_step. carry.
Qed.

Lemma start_process_away m started rec : moved rec →
  triple okE at_away (alone (start_process m started rec)) (ends after_switch) recoverable.
Proof.
  intros Hr. unfold start_process. apply step_away; [done| |].
  { apply still_away, still_act. intros e h. by case_match. }
  intros pid. apply call_skip; [by apply still_away, still_AdoptRestored|auto with restore|].
  intros [?|?].
  2:{ apply call_skip; [by apply still_away, still_Kill|auto with restore|].
      intros _. by apply return_away. }
  apply call_skip; [by apply still_away, still_signal|auto with restore|].
  intros [?|?]; [|by apply return_away].
  apply time_away. intros now. apply save_step. carry.
Qed.

Lemma record_status_away spec plan rec tcp : moved rec →
  maintains at_away (record_status spec plan rec tcp).
Proof.
  intros [(_ & Ht & _) _]. apply maintains_bind; [by apply still_away, still_network|].
  intros [?|?]; [|done]. apply maintains_act; [auto with restore|]. intros e h. rewrite Ht.
  destruct (disk h !! target) as [[]|]; [|done|done]. intros ([Hbk Hf] & _ & Ho & Hs).
  split; [|split; [simpl; by rewrite lookup_insert_eq|done]]. unfold away. simpl.
  rewrite !lookup_insert_ne; [done|by apply not_eq_sym, failed_not_target|by apply not_eq_sym, backup_not_target].
Qed.

Lemma validate_away m rec : moved rec →
  triple okE at_away (alone (validate_and_publish digest32 has_network m rec)) (ends after_switch) recoverable.
Proof.
  intros Hr. unfold validate_and_publish. apply step_away; [done|by apply still_away, still_health|].
  intros _. apply call_skip; [|auto with restore|].
  { destruct has_network; cbn [negb]; [|done].
    destruct (PlanFor _ _) as [plan|]; [|done]. destruct (MappingsFor _) as [mappings|]; [|done].
    apply maintains_bind; [by apply still_away, still_network|].
    intros [?|?]; [by apply record_status_away|done]. }
  intros [?|?]; [|by apply return_away].
  apply time_away. intros now. apply save_step. carry.
Qed.

Definition staged (rec : RestoreRecord) (out : RestoreRecord * result path) (h : host) : Prop :=
  at_home h ∧ out.1 = rec ∧ (∀ root, out.2 = Ok root → root = staging ++ [base]).

Lemma step_staged {A} rec (t : call (result A)) (k : A → call (RestoreRecord * result path)) :
  maintains at_home t → (∀ a, triple okE at_home (alone (k a)) (staged rec) recoverable) →
  triple okE at_home (alone (step rec t k)) (staged rec) recoverable.
Proof.
  intros Ht Hk. apply call_skip; [done|auto with restore|]. intros [a|err]; [apply Hk|].
  by apply alone_ret.
Qed.

Lemma Dir_target : Dir target = parent.
Proof. apply removelast_last. Qed.
Lemma Base_target : Base target = base.
Proof. apply last_last. Qed.

Lemma stage_home m rec : prior rec → triple okE at_home (alone (stage m rec)) (staged rec) recoverable.
Proof.
  intros [(_ & Ht & Hs & Hi & _) _]. unfold stage. rewrite Hs, Hi, Ht, Base_target.
  assert (Hk : ∀ A (t : call A), guarantees (kept [target; backup; failed]) t → maintains at_home t).
  { intros A t. apply kept_maintains, home_kept. }
  apply step_staged; [apply Hk, kept_MkdirAll, staging_apart|]. intros _.
  apply step_staged; [apply Hk, kept_MkdirAll, images_apart|]. intros _.
  apply step_staged; [apply Hk, kept_extract, staging_apart|]. intros _.
  apply call_read; [auto with restore..|]. intros e h _ _.
  destruct (negb (ok e)); [by apply alone_ret|].
  destruct (filter _ _) as [|[root n] [|]]; [by apply alone_ret| |by apply alone_ret].
  destruct (bool_decide _) eqn:Hroot; cbn [negb]; [|by apply alone_ret].
  destruct (decide (n = Link)); [by apply alone_ret|]. apply bool_decide_eq_true in Hroot as ->.
  apply step_staged.
  { apply maintains_bind; [by apply still_home, still_processChain|].
    intros [sets|]; [|done]. apply Hk, kept_extract_sets, images_apart. }
  intros _. apply step_staged; [by apply still_home, still_look|]. intros _.
  apply alone_ret. intros h' Hh. split_and!; [done|done|]. by intros root [= <-].
Qed.

(** *** The switch *)

(** Between the two renames the record on disk is the one in memory. *)
Definition holding (rec : RestoreRecord) (h : host) : Prop :=
  away (disk h) ∧ others h ∧ restores h !! id = Some rec.
Definition aside (rec : RestoreRecord) (h : host) : Prop :=
  holding rec h ∧ moved rec ∧ RecordState rec ≠ RestoreValidated ∧ (BackupRoot rec = None ∨ prior rec).

Lemma holding_kept rec h h' : kept [backup; failed] h h' → holding rec h → holding rec h'.
Proof.
  intros [Hd Hr]. unfold holding, away, others. rewrite Hr.
  rewrite (Hd backup), (Hd failed) by set_solver. done.
Qed.

Definition unvalidated (rec : RestoreRecord) : Prop := RecordState rec ≠ RestoreValidated.

Lemma holding_recoverable rec h : moved rec → unvalidated rec → holding rec h → recoverable h.
Proof. intros Hr Hv (Hd & Ho & Hs). split; [done|]. exists rec. split; [done|]. right. split_and!; [done|apply Hd..|]. intros Hst. by destruct Hv. Qed.

Lemma holding_underway rec h : moved rec → unvalidated rec → holding rec h → underway rec h.
Proof.
  intros Hr Hv Hh. split; [|by eapply holding_recoverable]. right. split_and!; [done|apply Hh..|].
  intros Hst. by destruct Hv.
Qed.

Lemma prior_id rec : prior rec → RecordID rec = id.
Proof. by intros [[]]. Qed.

Lemma time_home {B} (k : Z → call B) Q :
  (∀ now, triple okE at_home (alone (k now)) Q recoverable) →
  triple okE at_home (alone (time ≫= k)) Q recoverable.
Proof. intros Hk. apply call_skip; [by apply still_home, still_look|auto with restore|done]. Qed.

(** Writing the record before anything moves. *)
Lemma save_home rec (k : unit → call (RestoreRecord * result unit)) P :
  RecordID rec = id → (∀ h, at_home h → underway rec h) →
  triple okE (λ h, home (disk h) ∧ others h ∧ restores h !! id = Some rec) (alone (k tt)) (ends P) recoverable →
  triple okE at_home (alone (step rec (save rec) k)) (ends P) recoverable.
Proof.
  intros Hid Hu Hk. apply call_try with
    (P' := λ h, home (disk h) ∧ others h ∧ restores h !! id = Some rec); [auto with restore..| | |done].
  - intros e h _ (Hd & Ho & _) _. rewrite Hid. split; [done|]. split; [by apply others_insert|].
    simpl. by rewrite lookup_insert_eq.
  - apply alone_ret. apply Hu.
Qed.

Lemma set_aside_spec rec : is_Some original → prior rec →
  triple okE at_home (alone (set_aside rec backup)) (ends aside) recoverable.
Proof.
  intros Ho [Ha Hp]. unfold set_aside. apply time_home. intros now.
  set (rec' := stamp now _).
  assert (Hr : aligned rec') by (destruct Ha as (? & ? & ? & ? & ?); split_and!; by try left).
  assert (moved rec') as Hm by (split_and!; [done|done|right; split; done]).
  assert (prior rec') as Hprior by done.
  assert (unvalidated rec') as Hnv by (unfold unvalidated; by rewrite (proj2 Hprior)).
  apply save_home; [apply Hr|by intros h; apply home_underway|].
  assert (TargetRoot rec' = target) as -> by apply Hr.
  eapply (alone_bind _ _ _ _ (λ r h, (others h ∧ restores h !! id = Some rec') ∧
            match r with Ok _ => away (disk h) | Err _ => home (disk h) end)).
  - apply call_act; [intros e h Hh; exact Hh| |].
    { intros h (Hd & Hot & Hs). split; [done|]. exists rec'. split; [done|]. by left. }
    intros e h _ [(Ht & Hb & Hf) Hs]. rewrite Ht. destruct Ho as [t Ho]. rewrite Ho, Hb.
    rewrite bool_decide_eq_true_2 by auto. cbn [negb]. destruct (ok e); [|done].
    split; [done|]. split; simpl; [by rewrite lookup_insert_eq|].
    rewrite lookup_insert_ne by (by apply not_eq_sym, failed_not_backup).
    rewrite lookup_delete_ne; [done|]. by apply not_eq_sym, failed_not_target.
  - intros [?|?]; apply alone_ret; intros h [[Hot Hs] Hd].
    { split; [by split_and!|]. split; [done|]. split; [exact Hnv|by right]. }
    split; [|split; [done|]; exists rec'; split; [done|by left]]. left. split; [|done].
    split; [|done]. destruct Hr as (? & ? & ? & ? & _). split_and!; by try right.
Qed.

Lemma claim_fresh_spec rec : original = None → prior rec →
  triple okE at_home (alone (claim_fresh rec)) (ends aside) recoverable.
Proof.
  intros Ho [Ha Hp]. unfold claim_fresh. apply time_home. intros now.
  set (rec' := stamp now _).
  assert (Hr : aligned rec') by (destruct Ha as (? & ? & ? & ? & ?); split_and!; by try right).
  assert (moved rec') as Hm.
  { split_and!; [done| |left; repeat constructor]. rewrite Ho. by intros []. }
  assert (∀ h, home (disk h) → away (disk h)) as Haway.
  { intros h (_ & Hb & Hf). split; [by rewrite Ho|done]. }
  apply save_home; [apply Hr| |].
  - intros h Hh. split; [right; split; [done|]; split; [apply Haway, Hh|done]|by apply home_recoverable].
  - apply alone_ret. intros h [Hd Hs].
    split; [split; [by apply Haway|done]|]. split; [done|]. split; [done|by left].
Qed.

Lemma backup_failed_apart p q :
  p ∈ [target; staging ++ [base]] → q ∈ [backup; failed] → ¬ p `prefix_of` q.
Proof.
  rewrite !elem_of_cons, !elem_of_nil. intros [->|[->|[]]] Hq.
  - destruct Hq as [->|[->|[]]]; apply siblings_apart; intros H.
    + by apply backup_fresh.
    + by apply (failed_name_own base id).
  - intros Hp. apply (staging_apart q); [unfold guarded; set_solver|]. etrans; [by eexists|done].
Qed.

(** Filling the target touches neither of the other names. *)
Lemma kept_set_target n h :
  kept [backup; failed] h (h <| disk := <[target := n]> (disk h) |>).
Proof.
  split; [|done]. intros q Hq. apply lookup_insert_ne. intros <-.
  by apply (backup_failed_apart target target); [set_solver|done|].
Qed.

Lemma kept_materialize : guarantees (kept [backup; failed]) (materializeRootAt target (staging ++ [base])).
Proof.
  assert (∀ p q, p ∈ [target; staging ++ [base]] → q ∈ [backup; failed] → p ≠ q) as Hne.
  { intros p q Hp Hq ->. by apply (backup_failed_apart q q). }
  apply guarantees_bind; [by apply still_kept, still_try|]. intros [?|?]; [|done].
  apply guarantees_bind.
  { apply guarantees_atomic. intros e h. destruct (disk _ !! _) as [n|]; [|done].
    destruct (negb _); [done|]. destruct (ok e); [|done]. split; [|done]. intros q Hq. simpl.
    rewrite lookup_insert_ne, lookup_delete_ne; [done|apply Hne; set_solver..]. }
  intros [?|err]; [done|]. destruct (negb _); [done|]. apply guarantees_bind.
  { apply guarantees_bind; [|intros _]; apply guarantees_atomic; intros e h.
    - exact (kept_set_target _ (reap e h)).
    - destruct (disk _ !! _) as [n|]; [|done].
      destruct (ok e); [exact (kept_set_target _ (reap e h))|done]. }
  intros [?|?].
  - apply kept_RemoveAll. intros q. apply backup_failed_apart. set_solver.
  - apply guarantees_bind; [|done]. apply kept_RemoveAll. intros q. apply backup_failed_apart. set_solver.
Qed.

Lemma materialize_fills :
  triple okE (λ _, True) (alone (materializeRootAt target (staging ++ [base])))
    (λ r h, r = Ok tt → is_Some (disk h !! target)) (λ _, True).
Proof.
  assert (∀ A (t : call (result A)) err, triple okE (λ _, True) (alone (t ≫= λ _, mret (Err err)))
    (λ (r : result unit) h, r = Ok tt → is_Some (disk h !! target)) (λ _, True)) as Herr.
  { intros A t err. eapply alone_bind; [by apply (alone_guarantees _ _ (λ _, True) _ _ (guarantees_any t))|].
    intros a. by apply alone_ret. }
  unfold materializeRootAt. apply (alone_bind _ _ _ _ (λ _ _, True)); [by apply call_act|].
  intros [[]|err]; [|by apply alone_ret].
  apply (alone_bind _ _ _ _ (λ r h, r = Ok tt → is_Some (disk h !! target))).
  { apply call_act; [done|done|]. intros e h _ _. repeat case_match; try done. intros _. simpl.
    by rewrite lookup_insert_eq. }
  intros [[]|err]; [apply alone_ret; auto|]. destruct (negb _); [by apply alone_ret|].
  apply (alone_bind _ _ _ _ (λ r h, r = Ok tt → is_Some (disk h !! target))).
  { apply (alone_bind _ _ _ _ (λ _ _, True)); [by apply call_act|]. intros _.
    apply call_act; [done|done|]. intros e h _ _. repeat case_match; try done. intros _. simpl.
    by rewrite lookup_insert_eq. }
  intros [[]|err']; [|eapply triple_pre; [|apply Herr]; done].
  eapply triple_conseq; [apply (alone_guarantees okE (kept [target]) (λ h, is_Some (disk h !! target)) (λ _, True))|..].
  - apply kept_RemoveAll. intros q ->%list_elem_of_singleton Hq.
    apply (staging_apart target); [unfold guarded; set_solver|]. etrans; [by eexists|done].
  - intros h h' [Hd _]. by rewrite (Hd target) by set_solver.
  - done.
  - intros h Hh. by apply Hh.
  - done.
  - done.
Qed.

Lemma materialize_spec rec : moved rec → unvalidated rec →
  triple okE (holding rec) (alone (materializeRootAt target (staging ++ [base])))
    (λ r h, holding rec h ∧ (r = Ok tt → is_Some (disk h !! target))) recoverable.
Proof.
  intros Hm Hv.
  assert (triple okE (holding rec) (alone (materializeRootAt target (staging ++ [base])))
    (λ _, holding rec) recoverable) as Hk.
  { apply call_maintains; [apply (kept_maintains [backup; failed]); [apply holding_kept|apply kept_materialize]|].
    intros h. by apply holding_recoverable. }
  eapply triple_conseq; [apply triple_and; [exact Hk|eapply triple_pre; [|apply materialize_fills]; done]|..].
  - done.
  - by intros r h.
  - by intros h [? _].
Qed.

(** When the restored root cannot be put in place, the backup may return at
    once, and the record still says so. *)
Lemma put_back rec : moved rec → unvalidated rec → BackupRoot rec = None ∨ prior rec →
  triple okE (holding rec)
    (alone (_ ← (match BackupRoot rec with
                 | Some _ => _ ← Rename backup target; mret tt
                 | None => mret tt
                 end); mret (rec, Err "activate restored filesystem" : result unit)))
    (ends after_switch) recoverable.
Proof.
  intros Hm Hv Hb. destruct (BackupRoot rec) as [p|] eqn:Hp.
  2:{ apply alone_ret. intros h. by apply holding_underway. }
  destruct Hb as [|Hprior]; [done|].
  eapply (alone_bind _ _ _ _ (λ _, underway rec)); [|intros _; by apply alone_ret].
  eapply (alone_bind _ _ _ _ (λ _, underway rec)); [|intros _; by apply alone_ret].
  apply call_act.
  - apply (kept_reap [backup; failed]), holding_kept.
  - intros h. by apply holding_recoverable.
  - intros e h _ ([Hd Hf] & Hot & Hs).
    assert (underway rec h) as Hu by by apply holding_underway.
    destruct (disk h !! backup) as [n|] eqn:Hn; [|done]. destruct (negb _); [done|].
    destruct (ok e); [|done]. simpl.
    assert (home (<[target := n]> (delete backup (disk h)))) as Hhome.
    { split_and!; [by rewrite lookup_insert_eq| |].
      - rewrite lookup_insert_ne by (by apply not_eq_sym, backup_not_target). apply lookup_delete_eq.
      - rewrite lookup_insert_ne by (by apply not_eq_sym, failed_not_target).
        rewrite lookup_delete_ne; [done|]. by apply not_eq_sym, failed_not_backup. }
    split; [by left|]. split; [done|]. exists rec. split; [done|by left].
Qed.

Lemma switch_root_spec rec : prior rec →
  triple okE at_home (alone (switch_root rec backup (staging ++ [base]))) (ends after_switch) recoverable.
Proof.
  intros Hr. assert (TargetRoot rec = target) as Ht by apply Hr.
  unfold switch_root. rewrite Ht.
  apply step_home; [done| |intros _].
  { apply still_home. unfold pinTargetDir. case_match; [done|by apply still_try]. }
  apply step_home; [done|by apply still_home, still_try|]. intros _.
  apply call_read; [auto with restore..|]. intros e h _ [(Htarget & _ & _) _].
  destruct (ok e); [|by apply return_home]. rewrite Htarget.
  eapply (alone_bind _ _ _ _ (ends aside)).
  { destruct original as [[c|]|] eqn:Ho; rewrite <- ?Ho.
    - apply set_aside_spec; [by rewrite Ho|done].
    - by apply return_home.
    - by apply claim_fresh_spec. }
  intros [rec1 [?|?]]; [|by apply alone_ret].
  apply triple_pre with (P' := λ h, (moved rec1 ∧ unvalidated rec1 ∧
    (BackupRoot rec1 = None ∨ prior rec1)) ∧ holding rec1 h).
  { intros h' (? & ? & ? & ?). by split_and!. }
  apply triple_pure. intros (Hm & Hv & Hb).
  assert (TargetRoot rec1 = target) as -> by apply Hm.
  eapply alone_bind; [by apply materialize_spec|].
  intros [[]|?]; [|eapply triple_pre; [|by apply put_back]; by intros h' [? _]].
  apply triple_pre with (P' := at_away).
  { intros h' [(Hd & Hot & Hs) Hfull]. split_and!; [apply Hd..|by apply Hfull|done|by exists rec1]. }
  apply time_away. intros now.
  assert (moved (stamp now (rec1 <| RecordState := RestoreFilesystemSwitched |>))) by carry.
  apply step_away; [done|by apply still_away, still_try|]. intros _. by apply save_step.
Qed.

(** *** Any failure, any crash *)

Lemma transaction_spec m lazy rec : prior rec →
  triple okE at_home
    (alone (transaction cwd url_Parse EqualFold digest32 has_network m lazy backup rec))
    (ends after_switch) recoverable.
Proof.
  intros Hr. unfold transaction. eapply alone_bind; [by apply stage_home|].
  intros [rec0 out]. apply triple_pre with (P' := λ h, (rec0 = rec ∧
    ∀ root, out = Ok root → root = staging ++ [base]) ∧ at_home h).
  { intros h (? & ? & ?). done. }
  apply triple_pure. intros [-> Hroot]. destruct out as [root|]; [|by apply return_home].
  rewrite (Hroot root eq_refl). eapply alone_bind; [by apply switch_root_spec|].
  intros [rec1 [?|?]]; [|by apply alone_ret]. apply triple_pure. intros Hm1.
  apply step_away; [done|by apply still_away, still_PrepareRestore|]. intros prepared.
  assert (moved (rec1 <| CreatedWorkload := prepared.2 |>)) as Hm2 by carry.
  apply step_away; [done|by apply save_away|]. intros _.
  eapply alone_bind; [by apply make_room_away|].
  intros [rec3 [?|?]]; [|by apply alone_ret]. apply triple_pure. intros Hm3.
  apply time_away. intros started. eapply alone_bind; [by apply lazy_pages_away|].
  intros [rec4 [?|?]]; [|by apply alone_ret]. apply triple_pure. intros Hm4.
  eapply alone_bind; [by apply start_process_away|].
  intros [rec5 [?|?]]; [|by apply alone_ret]. apply triple_pure. intros Hm5.
  by apply validate_away.
Qed.
End transaction.

(** *** Rolling back *)

(** The rollback itself is not cut short and its calls succeed. *)
Definition benign (e : kernel) : Prop := ok e = true.

Definition anywhere (h : host) : Prop := True.

(** The files are back; what had taken their place may wait to be discarded. *)
Definition back (discard : option path) (d : gmap path node) : Prop :=
  d !! target = original ∧ d !! backup = None ∧
  match discard with None => d !! failed = None | Some p => p = failed end.

(** A condition on the guarded entries alone. *)
Definition on_guarded (D : gmap path node → Prop) : Prop :=
  ∀ d d', (∀ p, guarded p → d' !! p = d !! p) → D d → D d'.

Lemma home_on_guarded : on_guarded home.
Proof. intros d d' Hd. unfold home. by rewrite !Hd by (unfold guarded; set_solver). Qed.
Lemma away_on_guarded : on_guarded away.
Proof. intros d d' Hd. unfold away. by rewrite !Hd by (unfold guarded; set_solver). Qed.
Lemma back_on_guarded discard : on_guarded (back discard).
Proof. intros d d' Hd. unfold back. by rewrite !Hd by (unfold guarded; set_solver). Qed.

Definition at_disk (D : gmap path node → Prop) (h : host) : Prop := D (disk h) ∧ others h.

(** The record closes the transaction. *)
Definition closed_as (st : RestoreState) (h : host) : Prop :=
  others h ∧ ∃ s, restores h !! id = Some s ∧ RecordState s = st ∧ aligned s.

Section rolling_back.
Context (D : gmap path node → Prop) (HD : on_guarded D).

Lemma disk_reap : reap_closed (at_disk D).
Proof. intros e h Hh. exact Hh. Qed.

Lemma disk_kept {A} (t : call A) :
  guarantees (kept [target; backup; failed]) t → maintains (at_disk D) t.
Proof.
  apply (kept_maintains [target; backup; failed]). intros h h' [Hd Hr] [H Ho].
  split; [by apply (HD (disk h))|]. unfold others. by rewrite Hr.
Qed.

Lemma disk_quiet {A} (t : call A) : still t → maintains (at_disk D) t.
Proof. intros Ht. by apply disk_kept, still_kept. Qed.

Lemma disk_save rec : RecordID rec = id → maintains (at_disk D) (save rec).
Proof.
  intros Hid. apply maintains_try; [apply disk_reap|]. intros e h [Hh Ho]. rewrite Hid.
  split; [done|by apply others_insert].
Qed.

(** The calls before the files are looked at, and after they are back. *)
Lemma disk_skip {A B} (t : call A) (k : A → call B) Q :
  maintains (at_disk D) t →
  (∀ a, triple benign (at_disk D) (alone (k a)) Q anywhere) →
  triple benign (at_disk D) (alone (t ≫= k)) Q anywhere.
Proof. intros Ht Hk. by apply call_skip. Qed.

Lemma disk_look {A B} (f : kernel → host → A) (k : A → call B) Q :
  (∀ e h, benign e → at_disk D h → triple benign (at_disk D) (alone (k (f e h))) Q anywhere) →
  triple benign (at_disk D) (alone (look f ≫= k)) Q anywhere.
Proof. intros Hk. apply call_read; [apply disk_reap|done|done]. Qed.

Lemma finish_rollback_spec rec reason : aligned rec →
  triple benign (at_disk D) (alone (finish_rollback rec reason))
    (λ out h, out.2 = Ok tt ∧ D (disk h) ∧ closed_as RestoreRolledBack h) anywhere.
Proof.
  intros Ha. assert (Ha' := Ha). destruct Ha' as (Hid & Ht & Hs & Hi & _).
  unfold finish_rollback. rewrite Hs, Hi.
  apply disk_skip; [by apply disk_quiet, still_try|]. intros _.
  apply disk_skip; [by apply disk_quiet, still_restore_workload|]. intros _.
  apply disk_skip; [apply disk_kept, kept_RemoveAll, staging_apart|]. intros _.
  apply disk_skip; [apply disk_quiet; unfold stopLazyPages; hush|]. intros _.
  apply disk_skip; [apply disk_kept, kept_RemoveAll, images_apart|]. intros _.
  apply disk_skip; [by apply disk_quiet, still_look|]. intros now.
  set (rec' := stamp now _).
  eapply (alone_bind _ _ _ _ (λ r h, r = Ok tt ∧ at_disk D h ∧ restores h !! id = Some rec')).
  { apply call_act; [apply disk_reap|done|]. intros e h He [Hh Ho]. rewrite He.
    split; [done|]. simpl. rewrite Hid. split; [by split; [|apply others_insert]|].
    by rewrite lookup_insert_eq. }
  intros r. apply triple_pure. intros ->.
  eapply (alone_bind _ _ _ _ (λ r h, r = Ok tt ∧ at_disk D h ∧ restores h !! id = Some rec')).
  { apply call_act; [intros e h Hh; exact Hh|done|]. intros e h He Hh. by rewrite He. }
  intros r. apply triple_pure. intros ->. apply alone_ret. intros h [[Hh Ho] Hr].
  split; [done|]. split; [done|]. split; [done|]. by exists rec'.
Qed.
End rolling_back.

Lemma Rename_succeeds from to n (P : host → Prop) (Q : host → Prop) :
  reap_closed P →
  (∀ h, P h → disk h !! from = Some n ∧ disk h !! to = None) →
  (∀ h, P h → Q (h <| disk := <[to := n]> (delete from (disk h)) |>)) →
  triple benign P (alone (Rename from to)) (λ r h, r = Ok tt ∧ Q h) anywhere.
Proof.
  intros HP Hd HQ. apply call_act; [done|done|]. intros e h He Hh.
  destruct (Hd h Hh) as [-> ->]. rewrite bool_decide_eq_true_2 by auto. rewrite He.
  split; [done|by apply HQ].
Qed.

(** The target's name is free. *)
Definition cleared (discard : option path) (d : gmap path node) : Prop :=
  d !! target = None ∧ d !! backup = original ∧
  match discard with None => d !! failed = None | Some p => p = failed end.

Lemma step_target_aside h : at_disk away h →
  triple benign (λ h', h' = h)
    (alone (match disk h !! target with
            | None => mret (None, Ok tt)
            | Some _ =>
                renamed ← Rename target failed;
                mret (match renamed with
                      | Err err => (None, Err err)
                      | Ok _ => (Some failed, Ok tt)
                      end)
            end))
    (λ a h', a.2 = Ok tt ∧ at_disk (cleared a.1) h') anywhere.
Proof.
  intros [[Hb Hf] Ho]. destruct (disk h !! target) as [n|] eqn:Ht.
  2:{ apply alone_ret. intros h' ->. done. }
  apply triple_pre with (P' := λ h', disk h' = disk h ∧ others h'); [by intros h' ->|].
  eapply alone_bind.
  - apply Rename_succeeds with (n := n) (P := λ h', disk h' = disk h ∧ others h')
      (Q := at_disk (cleared (Some failed))).
    + intros e h' Hh. exact Hh.
    + by intros h' [-> _].
    + intros h' [-> Ho']. split; [|done]. simpl. split_and!; [| |done].
      * rewrite lookup_insert_ne by (by apply failed_not_target). apply lookup_delete_eq.
      * rewrite lookup_insert_ne by (by apply failed_not_backup).
        rewrite lookup_delete_ne; [done|]. by apply not_eq_sym, backup_not_target.
  - intros r. apply triple_pure. intros ->. by apply alone_ret.
Qed.

Lemma switch_back_spec rec : aligned rec → (is_Some original → BackupRoot rec = Some backup) →
  triple benign (at_disk away) (alone (switch_back rec (bool_decide (is_Some original))))
    (λ sw h, sw.2 = Ok tt ∧ at_disk (back sw.1) h) anywhere.
Proof.
  intros (Hid & Ht & _) Hb. unfold switch_back. rewrite Ht, Hid, Dir_target, Base_target.
  eapply (alone_bind _ _ _ _ (λ r h, r = Ok tt ∧ at_disk away h)).
  { unfold pinTargetDir. rewrite decide_False by (intros H; by apply (app_cons_not_nil parent [] base)).
    apply call_act; [apply disk_reap|done|]. intros e h He Hh. by rewrite He. }
  intros r. apply triple_pure. intros ->. apply call_look; [apply disk_reap|done|]. intros e h He Hh. rewrite He.
  eapply alone_bind; [by apply step_target_aside|].
  intros [discard r]. apply triple_pure. intros Hr. cbn [snd] in Hr. subst r. cbn [fst].
  destruct original as [t|] eqn:Ho; rewrite <- Ho in *.
  - rewrite Hb, bool_decide_eq_true_2 by (by rewrite Ho). eapply alone_bind.
    + apply Rename_succeeds with (n := t) (P := at_disk (cleared discard))
        (Q := at_disk (back discard)); [apply disk_reap| |].
      * intros h' [(? & Hbk & _) _]. split; [by rewrite Hbk|done].
      * intros h' [(_ & _ & Hf) Hot]. split; [|done]. simpl. split_and!; [by rewrite lookup_insert_eq| |].
        -- rewrite lookup_insert_ne by (by apply not_eq_sym, backup_not_target). apply lookup_delete_eq.
        -- destruct discard; [done|].
           rewrite lookup_insert_ne by (by apply not_eq_sym, failed_not_target).
           rewrite lookup_delete_ne; [done|]. by apply not_eq_sym, failed_not_backup.
    + intros r. apply triple_pure. intros ->. by apply alone_ret.
  - rewrite bool_decide_eq_false_2 by (rewrite Ho; by intros []).
    assert (∀ h, at_disk (cleared discard) h → at_disk (back discard) h) as Hc.
    { intros h' [(Htt & Hbb & Hf) Hot]. split; [|done]. unfold back. rewrite Htt, Hbb, Ho. done. }
    destruct (BackupRoot rec); apply alone_ret; intros h' Hc'; by split; [|apply Hc].
Qed.

(** The original is back, and the record closes the transaction. *)
Definition undone (h : host) : Prop := home (disk h) ∧ closed_as RestoreRolledBack h.

(** Discarding what had taken the target's place. *)
Lemma discard_spec discard :
  triple benign (λ h, back discard (disk h) ∧ closed_as RestoreRolledBack h)
    (alone (match discard with
            | Some failedRoot => _ ← RemoveAll failedRoot; mret tt
            | None => mret tt
            end)) (λ _, undone) anywhere.
Proof.
  destruct discard as [p|]; [|by apply alone_ret].
  eapply (alone_bind _ _ _ _ (λ _, undone)); [|intros _; by apply alone_ret].
  apply triple_pre with (P' := λ h, p = failed ∧ (disk h !! target = original ∧
    disk h !! backup = None) ∧ closed_as RestoreRolledBack h).
  { intros h [(? & ? & ?) ?]. done. }
  apply triple_pure. intros ->.
  assert (¬ failed `prefix_of` target ∧ ¬ failed `prefix_of` backup) as [Hft Hfb].
  { split; apply siblings_apart; [apply failed_name_own|apply failed_name_backup]. }
  eapply (alone_bind _ _ _ _ (λ _ h, (disk h !! target = original ∧ disk h !! backup = None) ∧
                                     closed_as RestoreRolledBack h)).
  - apply call_act; [intros e h Hh; exact Hh|done|]. intros e h _ [[Ht Hb] Hc]. split; [|done]. simpl.
    rewrite !map_lookup_imap, Ht, Hb. split; [|done]. destruct original; [|done]. simpl.
    by rewrite decide_False.
  - intros _. apply call_act; [intros e h Hh; exact Hh|done|]. intros e h He [[Ht Hb] Hc]. rewrite He.
    split; [|done]. simpl. split_and!.
    + destruct original as [t|]; [by apply map_lookup_filter_Some|].
      apply map_lookup_filter_None. by left.
    + apply map_lookup_filter_None. by left.
    + apply map_lookup_filter_None. right. intros n _ Hn. by apply Hn.
Qed.

(** Is the backup there? *)
Lemma backup_check {B : Type} (D : gmap path node → Prop) (b : bool) (rec : RestoreRecord)
    (k : bool → call B) Q :
  (∀ d, D d → match BackupRoot rec with Some p => bool_decide (is_Some (d !! p)) | None => false end = b) →
  triple benign (at_disk D) (alone (k b)) Q anywhere →
  triple benign (at_disk D)
    (alone (backupOnDisk ← (match BackupRoot rec with
                            | None => mret false
                            | Some backup =>
                                found ← Lstat backup;
                                mret (match found with Ok (Some _) => true | _ => false end)
                            end); k backupOnDisk)) Q anywhere.
Proof.
  intros Hb Hk. eapply (alone_bind _ _ _ _ (λ b' h, b' = b ∧ at_disk D h)).
  2:{ intros b'. apply triple_pure. by intros ->. }
  destruct (BackupRoot rec) as [p|].
  - apply disk_look. intros e h He Hh. rewrite He. apply alone_ret. intros h' Hh'.
    split; [|done]. specialize (Hb _ (proj1 Hh)). case_bool_decide as Hd; subst; [by destruct Hd as [? ->]|].
    by destruct (disk h !! p); [destruct Hd|].
  - apply alone_ret. intros h Hh. split; [apply (Hb (disk h)), Hh|done].
Qed.

Lemma rollback_from (D : gmap path node → Prop) (b : bool) rec reason :
  aligned rec → on_guarded D →
  (∀ d, D d → match BackupRoot rec with Some p => bool_decide (is_Some (d !! p)) | None => false end = b) →
  (∀ rec', aligned rec' → BackupRoot rec' = BackupRoot rec →
     triple benign (at_disk D)
       (alone (if b || bool_decide (switched (RecordState rec)) then switch_back rec' b
               else mret (None, Ok tt)))
       (λ sw h, sw.2 = Ok tt ∧ at_disk (back sw.1) h) anywhere) →
  triple benign (at_disk D) (alone (rollback has_network rec reason))
    (λ out h, out.2 = Ok tt ∧ undone h) anywhere.
Proof.
  intros Ha HD Hb Hsw. unfold rollback.
  apply disk_skip; [by apply disk_quiet, still_look|]. intros now. set (rec' := stamp now _).
  assert (aligned rec') as Ha' by done.
  apply disk_skip; [apply disk_save, Ha'|]. intros _.
  apply disk_skip; [by apply disk_quiet, still_look|]. intros found.
  apply disk_skip; [apply disk_quiet; [done|]|intros _].
  { destruct found as [w|]; [|done]. case_decide; [done|].
    apply guarantees_bind; [apply still_Stop|done]. }
  apply disk_skip; [apply disk_quiet; [done|]|intros _].
  { destruct has_network; [|done]. apply guarantees_bind; [apply still_network|done]. }
  apply (backup_check D b rec'); [done|].
  eapply alone_bind; [by apply Hsw|].
  intros [discard r]. apply triple_pure. cbn [fst snd]. intros ->.
  eapply alone_bind; [apply finish_rollback_spec; [apply back_on_guarded|done]|].
  intros out. apply triple_pure. intros Hout. eapply (alone_bind _ _ _ _ (λ _, undone)); [apply discard_spec|]. intros _.
  eapply (alone_bind _ _ _ _ (λ _, undone)); [|intros _; by apply alone_ret].
  apply call_act; [intros e h Hh; exact Hh|done|]. intros e h _ Hh. exact Hh.
Qed.

Lemma rollback_spec rec reason :
  triple benign (at_disk (undoable rec)) (alone (rollback has_network rec reason))
    (λ out h, out.2 = Ok tt ∧ undone h) anywhere.
Proof.
  apply triple_at. intros h0 [[[[Ha Hp] Hd]|[(Ha & Hb & Hs) [Hd _]]] Hot].
  - apply triple_pre with (P' := at_disk home); [by intros h ->|].
    apply (rollback_from home false); [done|apply home_on_guarded| |].
    + intros d (_ & Hbk & _). destruct Ha as (_ & _ & _ & _ & [->| ->]); [|done]. by rewrite Hbk.
    + intros rec' _ _. rewrite Hp. apply alone_ret. intros h [(? & ? & ?) ?]. done.
  - apply triple_pre with (P' := at_disk away); [by intros h ->|].
    apply (rollback_from away (bool_decide (is_Some original))); [done|apply away_on_guarded| |].
    + intros d (Hbk & _). destruct original as [t|] eqn:Ho.
      * rewrite Hb by done. by rewrite Hbk.
      * destruct Ha as (_ & _ & _ & _ & [->| ->]); [|done]. by rewrite Hbk.
    + intros rec' Ha' Hb'. replace (_ || _) with true; [apply switch_back_spec; [done|by rewrite Hb']|].
      symmetry. apply orb_true_iff. rewrite !bool_decide_eq_true. destruct Hs as [|[]]; auto.
Qed.

(** *** Committing *)

(** A validated restore: [content] is in place, the original in the backup. *)
Definition in_place (content : option node) (d : gmap path node) : Prop :=
  d !! target = content ∧ away d.
Definition replaced (content : option node) (d : gmap path node) : Prop :=
  d !! target = content ∧ d !! backup = None ∧ d !! failed = None.

Lemma in_place_on_guarded content : on_guarded (in_place content).
Proof. intros d d' Hd. unfold in_place, away. by rewrite !Hd by (unfold guarded; set_solver). Qed.
Lemma replaced_on_guarded content : on_guarded (replaced content).
Proof. intros d d' Hd. unfold replaced. by rewrite !Hd by (unfold guarded; set_solver). Qed.

Lemma discard_backup content :
  triple benign (at_disk (in_place content)) (alone (RemoveAll backup))
    (λ r h, r = Ok tt ∧ at_disk (replaced content) h) anywhere.
Proof.
  assert (¬ backup `prefix_of` target) as Hbt by (by apply siblings_apart).
  eapply (alone_bind _ _ _ _ (λ _, at_disk (λ d, d !! target = content ∧ d !! failed = None))).
  - apply call_act; [apply disk_reap|done|]. intros e h _ [(Ht & _ & Hf) Ho]. split; [|done]. simpl.
    rewrite !map_lookup_imap, Ht, Hf. split; [|done]. destruct content; [|done]. simpl.
    by rewrite decide_False.
  - intros _. apply call_act; [apply disk_reap|done|]. intros e h He [[Ht Hf] Ho]. rewrite He.
    split; [done|]. split; [|done]. simpl. split_and!.
    + destruct content as [t|]; [by apply map_lookup_filter_Some|].
      apply map_lookup_filter_None. by left.
    + apply map_lookup_filter_None. right. intros n _ Hn. by apply Hn.
    + apply map_lookup_filter_None. by left.
Qed.

Lemma Commit_spec content rec : moved rec → RecordState rec = RestoreValidated →
  triple benign (λ h, restores h !! id = Some rec ∧ at_disk (in_place content) h) (alone (Commit id))
    (λ r h, (∃ rec', r = Ok rec') ∧ replaced content (disk h) ∧ closed_as RestoreCommitted h) anywhere.
Proof.
  intros (Ha & Hb & _) Hst. assert (Ha' := Ha). destruct Ha' as (Hid & _ & Hs & Hi & Hbk).
  unfold Commit. apply call_look; [intros e h Hh; exact Hh|done|]. intros e h _ [Hrec Hh].
  rewrite Hrec, Hst. apply triple_pre with (P' := at_disk (in_place content)); [by intros h' ->|].
  cbn [decide negb]. rewrite decide_False by done. rewrite bool_decide_eq_true_2 by done. cbn [negb].
  apply disk_skip; [apply disk_quiet; [apply in_place_on_guarded|apply still_reapSupersededSource]|].
  intros _. eapply (alone_bind _ _ _ _ (λ r h, r = Ok tt ∧ at_disk (replaced content) h)).
  { destruct Hbk as [->|Hn]; [apply discard_backup|rewrite Hn]. apply alone_ret.
    intros h' [(? & Hbackup & ?) ?]. split; [done|]. split; [|done]. split; [done|]. split; [|done].
    rewrite Hbackup. destruct original; [|done]. rewrite Hb in Hn by (by eexists). done. }
  intros r. apply triple_pure. intros ->. rewrite Hs, Hi.
  apply disk_skip; [apply disk_kept; [apply replaced_on_guarded|apply kept_RemoveAll, staging_apart]|].
  intros _. apply disk_skip; [|intros _].
  { destruct (Lazy rec); [done|]. apply maintains_bind; [|done].
    apply disk_kept; [apply replaced_on_guarded|apply kept_RemoveAll, images_apart]. }
  apply disk_skip; [by apply disk_quiet; [apply replaced_on_guarded|apply still_look]|]. intros now.
  set (rec' := stamp now _).
  eapply (alone_bind _ _ _ _ (λ r h, r = Ok tt ∧ replaced content (disk h) ∧
            closed_as RestoreCommitted h)).
  { apply call_act; [apply disk_reap|done|]. intros e' h' He [Hh' Ho]. rewrite He.
    split; [done|]. split; [done|]. split; [by apply others_insert|]. exists rec'. simpl.
    by rewrite lookup_insert_eq. }
  intros r. apply triple_pure. intros ->.
  eapply (alone_bind _ _ _ _ (λ _ h, replaced content (disk h) ∧ closed_as RestoreCommitted h)).
  { apply call_act; [intros e' h' Hh'; exact Hh'|done|]. intros e' h' _ Hh'. exact Hh'. }
  intros _. apply alone_ret. intros h' Hh'. split; [by eexists|done].
Qed.

(** *** After a restart *)

(** Recovery found the transaction validated in the state [h0] of a crash: the
    record says so, the restored root is in place, and the process that the
    record of the workload names is alive. *)
Definition validated (h0 : host) : Prop :=
  ∃ rec v, restores h0 !! id = Some rec ∧ RecordState rec = RestoreValidated ∧
    is_Some (disk h0 !! target) ∧ Get h0 (RecordWorkload rec) = Ok v ∧
    process_alive h0 (Process v) = true.

(** How a transaction that was cut short in [h0] ends: undone, or, when it was
    validated, committed with the content it had put in place. *)
Definition resolved (h0 h : host) : Prop :=
  home (disk h) ∧ closed_as RestoreRolledBack h ∨
  validated h0 ∧ replaced (disk h0 !! target) (disk h) ∧ closed_as RestoreCommitted h.

(** A machine on which nothing happened since [h0] but the end of processes. *)
Definition untouched (h0 h : host) : Prop :=
  workloads h = workloads h0 ∧ procs h ⊆ procs h0 ∧ restores h = restores h0 ∧ disk h = disk h0.

Lemma untouched_reap h0 : reap_closed (untouched h0).
Proof.
  intros e h (H1 & H2 & H3 & H4). split_and!; [done| |done|done].
  etrans; [|exact H2]. apply map_filter_subseteq.
Qed.

Lemma untouched_alive h0 h q : untouched h0 h → process_alive h q = true → process_alive h0 q = true.
Proof.
  intros (_ & Hp & _). destruct q as [q|]; [|done]. cbn. unfold ProcessAlive.
  destruct (procs h !! PID q) as [x|] eqn:Hx; [|done]. by rewrite (lookup_weaken _ _ _ _ Hx Hp).
Qed.

Definition finished (rec : RestoreRecord) : Prop :=
  RecordState rec ∈ [RestoreCommitted; RestoreRolledBack; RestoreFailed].

Definition crashed (h0 : host) (rec : RestoreRecord) (h : host) : Prop :=
  untouched h0 h ∧ restores h0 !! id = Some rec ∧ undoable rec (disk h0) ∧ others h0.

Lemma crashed_reap h0 rec : reap_closed (crashed h0 rec).
Proof. intros e h [Hu H]. split; [by apply untouched_reap|done]. Qed.

Lemma crashed_disk h0 rec h : crashed h0 rec h → at_disk (undoable rec) h.
Proof. intros ((_ & _ & Hr & Hd) & _ & Hu & Ho). split; [by rewrite Hd|]. unfold others. by rewrite Hr. Qed.

Lemma rolled_back h0 rec reason :
  triple benign (crashed h0 rec)
    (alone (out ← rollback has_network rec reason; mret out.2))
    (λ r h, r = Ok tt ∧ resolved h0 h) anywhere.
Proof.
  eapply alone_bind.
  - eapply triple_pre; [|apply rollback_spec]. apply crashed_disk.
  - intros out. apply alone_ret. intros h [Hout Hu]. split; [done|by left].
Qed.

Lemma recover_one_spec h0 rec :
  triple benign (crashed h0 rec) (alone (recover_one has_network rec))
    (λ r h, r = Ok tt ∧ resolved h0 h) anywhere.
Proof.
  unfold recover_one. case_bool_decide as Hst; [apply rolled_back|].
  case_decide as Hv.
  - apply call_read; [apply crashed_reap|done|]. intros e h _ Hc.
    destruct (match Get h _ with Ok _ => _ | Err _ => _ end) eqn:Halive; cbn [negb]; [|apply rolled_back].
    destruct Hc as (Hun & Hrec & [[[_ Hp] _]|(Hm & Haway & Hf)] & Ho); [congruence|].
    assert (validated h0) as Hval.
    { destruct (Get h (RecordWorkload rec)) as [v|] eqn:Hg; [|done]. exists rec, v.
      split_and!; [done|done|by apply Hf| |by eapply untouched_alive].
      rewrite <- Hg. unfold Get, listed. by rewrite (proj1 Hun). }
    eapply alone_bind.
    + rewrite (moved_id rec Hm). eapply triple_pre; [|by apply (Commit_spec (disk h0 !! target) rec)].
      intros h' ((_ & _ & Hr & Hd) & _). split; [by rewrite Hr|]. split.
      { rewrite Hd. by split. } unfold others. by rewrite Hr.
    + intros r. apply triple_pure. intros [rec' ->]. apply alone_ret. intros h' Hh'.
      split; [done|by right].
  - apply triple_absurd. intros h (_ & _ & [[[_ Hp] _]|[(_ & _ & [Hs|[Hp _]]) _]] & _).
    + apply Hst. rewrite Hp. repeat constructor.
    + unfold switched in Hs. rewrite !elem_of_cons, elem_of_nil in Hs, Hst. naive_solver.
    + apply Hst. rewrite Hp. repeat constructor.
Qed.

Lemma recover_finished rec : finished rec → recover_one has_network rec = mret (Ok tt).
Proof.
  unfold finished, recover_one. intros Hf. rewrite bool_decide_eq_false_2, decide_False; [done| |];
    rewrite ?elem_of_cons, ?elem_of_nil in Hf; rewrite ?elem_of_cons, ?elem_of_nil;
    intuition congruence.
Qed.

Lemma recover_finished_all recs : Forall finished recs →
  recover_all has_network recs = mret (Ok tt).
Proof.
  induction 1 as [|rec recs Hr _ IH]; [done|]. cbn [recover_all]. by rewrite (recover_finished rec Hr).
Qed.

Lemma recover_all_spec h0 before rec after : Forall finished before → Forall finished after →
  triple benign (crashed h0 rec) (alone (recover_all has_network (before ++ rec :: after)))
    (λ r h, r = Ok tt ∧ resolved h0 h) anywhere.
Proof.
  intros Hbefore Hafter. induction Hbefore as [|r before Hr _ IH].
  - simpl app. cbn [recover_all]. eapply alone_bind; [apply recover_one_spec|]. intros r.
    apply triple_pure. intros ->. rewrite recover_finished_all by done. by apply alone_ret.
  - simpl app. cbn [recover_all]. by rewrite (recover_finished r Hr).
Qed.

(** The records [Recover] walks. *)
Lemma listed_restores_elem h rec :
  rec ∈ listed_restores h ↔ ∃ k, restores h !! k = Some rec.
Proof.
  unfold listed_restores. rewrite list_elem_of_fmap. split.
  - intros ([k r] & -> & Hr). rewrite merge_sort_Permutation in Hr.
    apply elem_of_map_to_list in Hr. by exists k.
  - intros [k Hk]. exists (k, rec). split; [done|]. rewrite merge_sort_Permutation.
    by apply elem_of_map_to_list.
Qed.

Lemma listed_restores_split h rec : others h → restores h !! id = Some rec →
  ∃ before after, listed_restores h = before ++ rec :: after ∧
    Forall finished before ∧ Forall finished after.
Proof.
  intros Ho Hrec. unfold listed_restores. set (l := merge_sort _ _).
  assert (l ≡ₚ map_to_list (restores h)) as Hl by apply merge_sort_Permutation.
  assert ((id, rec) ∈ l) as (l1 & l2 & Hsplit)%list_elem_of_split.
  { rewrite Hl. by apply elem_of_map_to_list. }
  assert (NoDup (l.*1)) as Hnd by (rewrite Hl; apply NoDup_fst_map_to_list).
  rewrite Hsplit in Hnd. rewrite Hsplit. rewrite !fmap_app, !fmap_cons in *.
  apply NoDup_app in Hnd as (_ & H1 & [H2 _]%NoDup_cons).
  assert (∀ kr, kr ∈ l1 ++ l2 → finished kr.2) as Hfin.
  { intros [k r] Hkr. apply (Ho k r).
    - apply elem_of_map_to_list. rewrite <- Hl, Hsplit. set_solver.
    - intros ->. apply elem_of_app in Hkr as [Hkr|Hkr].
      + apply (H1 id); [by apply (list_elem_of_fmap_2 fst _ (id, r))|left].
      + apply H2. by apply (list_elem_of_fmap_2 fst _ (id, r)). }
  exists (l1.*2), (l2.*2). split; [done|].
  split; apply Forall_fmap, Forall_forall; intros kr Hkr; apply Hfin; set_solver.
Qed.

(** The sweep of retained images only removes, and never the target. *)
Definition shrinks (h h' : host) : Prop :=
  kept [target] h h' ∧ ∀ q, disk h !! q = None → disk h' !! q = None.

Lemma shrinks_RemoveAll p : ¬ p `prefix_of` target → guarantees shrinks (RemoveAll p).
Proof.
  intros Hp. apply guarantees_bind; [|intros _]; apply guarantees_atomic; intros e h.
  - split; [split; [|done]|]; simpl.
    + intros q ->%list_elem_of_singleton. rewrite map_lookup_imap.
      destruct (disk h !! target); simpl; [|done]. by rewrite decide_False.
    + intros q Hq. by rewrite map_lookup_imap, Hq.
  - destruct (ok e); [|done]. split; [split; [|done]|]; simpl.
    + intros q ->%list_elem_of_singleton. apply option_eq. intros n.
      rewrite map_lookup_filter_Some. naive_solver.
    + intros q Hq. apply map_lookup_filter_None. by left.
Qed.

Lemma resolved_shrinks h0 h h' : shrinks h h' → resolved h0 h → resolved h0 h'.
Proof.
  intros [[Ht Hr] Hn]. unfold resolved, home, replaced, closed_as, others.
  rewrite (Ht target), Hr by set_solver. naive_solver.
Qed.

Lemma sweep_lazy_resolved h0 recs :
  (∀ rec, rec ∈ recs → ¬ RestoreDirectory rec `prefix_of` target) →
  maintains (resolved h0) (sweep_lazy recs).
Proof.
  intros Hrecs. apply (guarantees_mono shrinks); [apply resolved_shrinks|].
  induction recs as [|rec recs IH]; [done|]. cbn [sweep_lazy].
  apply guarantees_bind; [|intros _; apply IH; set_solver].
  destruct (negb (Lazy rec) || _); [done|]. apply guarantees_bind; [by apply guarantees_atomic|].
  intros serving. destruct (serving : bool); [done|]. apply guarantees_bind; [|done].
  apply shrinks_RemoveAll, Hrecs. set_solver.
Qed.

Lemma Recover_spec h0 : recoverable h0 →
  triple benign (untouched h0) (alone (Recover has_network))
    (λ r h, r = Ok tt ∧ resolved h0 h) anywhere.
Proof.
  intros (Ho & rec & Hrec & Hu). unfold Recover. apply call_look; [apply untouched_reap|done|].
  intros e h _ Hun. pose proof Hun as (_ & _ & Hr & _).
  destruct (listed_restores_split h0 rec Ho Hrec) as (before & after & Hl & Hb & Ha).
  assert (listed_restores h = before ++ rec :: after) as -> by (unfold listed_restores in *; by rewrite Hr).
  eapply triple_pre with (P' := crashed h0 rec); [by intros h' ->|].
  eapply alone_bind; [by apply recover_all_spec|]. intros r. apply triple_pure. intros ->.
  apply call_look; [intros e' h' Hh; exact Hh|done|]. intros e' h' _ Hres.
  eapply (alone_bind _ _ _ _ (λ _, resolved h0)); [|intros _; by apply alone_ret].
  eapply triple_pre; [by intros h'' ->|]. apply call_maintains; [|done].
  apply sweep_lazy_resolved. intros r [k Hk]%listed_restores_elem.
  assert (closed_as RestoreRolledBack h' ∨ closed_as RestoreCommitted h') as Hc
    by (destruct Hres as [[]|(_ & _ & ?)]; auto).
  destruct (decide (k = id)) as [->|Hne].
  - assert (aligned r) as (_ & _ & _ & -> & _)
      by (destruct Hc as [(_ & s & ? & _ & ?)|(_ & s & ? & _ & ?)]; congruence).
    apply images_apart. set_solver.
  - destruct Hc as [[Hoth _]|[Hoth _]]; by apply (Hoth k r).
Qed.

Lemma OpenRestorer_spec h0 : recoverable h0 →
  triple benign (untouched h0) (alone (OpenRestorer has_network))
    (λ r h, r = Ok tt ∧ resolved h0 h) anywhere.
Proof.
  intros Hrec. eapply (alone_bind _ _ _ _ (λ _, untouched h0)); [|intros _; by apply Recover_spec].
  apply call_act; [apply untouched_reap|done|]. intros e h _ Hh. exact Hh.
Qed.
End safe.

Lemma fresh_record_prior stateDir id parent base cp spec previous now :
  segments (RootPath spec) = parent ++ [base] →
  prior stateDir id parent base (fresh_record stateDir id cp spec previous now).
Proof.
  intros Hroot. split; [|done]. unfold aligned, fresh_record. simpl. rewrite Hroot.
  unfold target, staging, images, backup, Dir. rewrite removelast_last. split_and!; auto.
Qed.

(** C6.  Restores lose no files.  A restore transaction is cut short by the
    death of the agent after any number of calls, any of which may have failed.
    When the agent starts again and its calls succeed, recovery closes the
    transaction: either the original root is back at its place and the record
    is rolled back, or the record had been written as validated, the restored
    root was in place and the process of the workload was alive, and then the
    restore is committed with that root; no backup and no half-restored root
    remains.  And when the transaction reports an error, a rollback that is not
    disturbed puts the original root back.  The random id of the transaction is
    assumed not to collide with a name beside the root, and no other
    transaction to be open. *)
Theorem restore_recoverable cwd url_Parse EqualFold digest32 stateDir has_network
    id parent base m lazy cp previous now (h : host) (es : list kernel) :
  let rec := fresh_record stateDir id cp (ManifestWorkload m) previous now in
  let original := disk h !! target parent base in
  segments (RootPath (ManifestWorkload m)) = parent ++ [base] →
  ".shift-backup-" +:+ id ≠ base → ".shift-restore-" +:+ id ≠ base →
  (∀ p, p ∈ [target parent base; backup id parent; failed id parent base] →
     ¬ images stateDir id `prefix_of` p) →
  restores h !! id = Some rec → others id parent base h →
  disk h !! backup id parent = None → disk h !! failed id parent base = None →
  let '(out, h', _) :=
    run (transaction cwd url_Parse EqualFold digest32 has_network m lazy (backup id parent) rec) es h in
  completes benign (OpenRestorer has_network) h' (λ r h'',
    r = Ok tt ∧ resolved stateDir id parent base original h' h'') ∧
  (∀ rec' err, out = Some (rec', Err err) →
     completes benign (rollback has_network rec' err) h' (λ r h'',
       r.2 = Ok tt ∧ undone stateDir id parent base original h'')).
Proof.
  intros rec original Hroot Hb Hs Hi Hrec Ho Hbk Hf.
  pose proof (fresh_record_prior stateDir id parent base cp _ previous now Hroot) as Hprior.
  pose proof (transaction_spec stateDir has_network id parent base original Hb Hs Hi
    (λ _, True) cwd url_Parse EqualFold digest32 m lazy rec Hprior h es) as Ht.
  unfold alone in Ht. destruct (run _ es h) as [[out h'] es'].
  specialize (Ht (Forall_true _ _ (λ _, I))).
  assert (at_home stateDir id parent base original h) as Hstart.
  { split; [done|]. split; [done|]. by exists rec. }
  specialize (Ht Hstart).
  assert (recoverable stateDir id parent base original h') as Hrecov.
  { destruct out as [[rec' [?|?]]|]; [|by destruct Ht as [[] ?]|done].
    destruct Ht as [[_ Haway] _]. by apply away_recoverable. }
  split.
  - eapply triple_completes, triple_pre;
      [|by apply (OpenRestorer_spec stateDir has_network id parent base original)].
    intros ? ->. done.
  - intros rec' err ->. eapply triple_completes, triple_pre;
      [|by apply (rollback_spec stateDir has_network id parent base original)].
    intros ? ->. destruct Ht as [[Hu _] _]. destruct Hrecov as [Ho' _]. by split.
Qed.

(** ** A restore over an existing root *)

Definition demo_asset (name : string) : AssetManifest :=
  {| AssetName := name; MediaType := ""; AssetPlainSize := 1; AssetStoredSize := 1;
     AssetSHA256 := ""; Chunks := []; AssetRequired := true; RestoreOrder := 0 |}.

Definition demo_manifest : CheckpointManifest := {|
  Format := ""; FormatVersion := ""; ManifestID := "cp-1"; ParentID := ""; Kind := CheckpointFull;
  ManifestWorkload := demo_admitted; SourceIdentityID := ""; ManifestCreatedAt := 1;
  Engine := {| EngineName := "criu"; EngineVersion := ""; LeaveRunning := false;
               ParentImages := false; PreCopy := false; EnginePreCopyPasses := 0;
               TCPState := false; ShellJob := false; FileLocks := false |};
  Assets := [demo_asset "filesystem-root"; demo_asset "process-state"]; RequiredBytes := 1;
  ManifestMetrics := {| MetricsStartedAt := 0; FreezeStartedAt := 0; MetricsCompletedAt := 0;
    MetricsDuration := 0; PlainBytes := 0; StoredBytes := 0; MetricsDeduplicatedBytes := 0;
    ChunkCount := 0 |};
  Security := {| SecurityKeyVersion := 0; ManifestSignature := ""; SignerMachineID := "";
                 SecurityAlgorithm := "" |};
  ManifestSHA256 := ""; CompatibilityID := "" |}.

Definition unpacks (name content : string) : kernel :=
  {| ok := true; clock := 9; num := 200; ticks := 8; text := "id-1";
     extracted := [(name, Tree content)]; captured := []; owner := (1000, 1000); exdev := false; ended := [];
     net := net willing |}.

(** The calls of the transaction up to the rename of the present root. *)
Definition demo_staging : list kernel :=
  [willing; willing; unpacks "app" "restored"; willing; willing; willing;
   unpacks "images" "process"; willing].

Definition demo_state_dir : path := ["var"; "lib"; "shift"].

Definition demo_digest (s : string) : Z := Z.of_nat (String.length s).

Definition demo_record : RestoreRecord :=
  fresh_record demo_state_dir "r-1" "cp-1" (ManifestWorkload demo_manifest) None 9.

Definition demo_prepared : host :=
  demo_host <| restores := {["r-1" := demo_record]} |>
            <| manifests := {["cp-1" := demo_manifest]} |>.

Definition demo_transaction : call (RestoreRecord * result unit) :=
  transaction (Ok "/srv") demo_parse String.eqb demo_digest true demo_manifest false
    (backup "r-1" ["srv"]) demo_record.

(** The agent dies right after the present root was moved aside. *)
Definition demo_crash : option (RestoreRecord * result unit) * host * list kernel :=
  run demo_transaction (demo_staging ++ replicate 6 willing) demo_prepared.

Lemma restore_recoverable_witness :
  disk demo_crash.1.2 !! ["srv"; "app"] = None ∧
  let '(_, h', _) := demo_crash in
  completes benign (OpenRestorer true) h' (λ r h'',
    r = Ok tt ∧ resolved demo_state_dir "r-1" ["srv"] "app"
      (disk demo_prepared !! target ["srv"] "app") h' h'').
Proof.
  split; [vm_compute; reflexivity|].
  assert (H := restore_recoverable (Ok "/srv") demo_parse String.eqb demo_digest demo_state_dir true
    "r-1" ["srv"] "app" demo_manifest false "cp-1" None 9 demo_prepared
    (demo_staging ++ replicate 6 willing)).
  cbv zeta in H. unfold demo_crash, demo_transaction, demo_record.
  destruct (run _ _ _) as [[out h'] es']. apply H.
  - vm_compute. reflexivity.
  - vm_compute. discriminate.
  - vm_compute. discriminate.
  - intros p Hp. apply (bool_decide_unpack _). revert p Hp. apply Forall_forall.
    repeat constructor.
  - vm_compute. reflexivity.
  - intros k r Hr Hk. change (({["r-1" := demo_record]} : gmap string RestoreRecord) !! k = Some r) in Hr.
    apply lookup_singleton_Some in Hr as [<- _]. by destruct Hk.
  - vm_compute. reflexivity.
  - vm_compute. reflexivity.
Defined.
