(* ===== verification/RestorerCases.v ===== *)
(** * Restores that do lose something

    Runs of the restore transaction, evaluated on concrete machines, in which
    the original root or the original process does not survive: a rollback
    that is itself interrupted, a restore that fails before it has replaced
    the running process, a commit repeated while another restore runs, and a
    commit interrupted while it discards the backup. *)
From S2P Require Import Prelude GoStr Model Workload Prog Conc Network Host Runtime Restorer RestorerSafe.

Local Open Scope string_scope.
Local Open Scope list_scope.
Local Open Scope Z_scope.

(** The machine after a call was given these answers. *)
Definition after {A} (t : call A) (es : list kernel) (h : host) : host := (run t es h).1.2.

Definition recovered (h : host) : host := after (OpenRestorer true) (replicate 80 willing) h.

(** ** A rollback interrupted after its first record *)

(** Staging fails, nothing has moved, and the agent dies once the rollback
    has written that it is rolling back. *)
Definition interrupted_rollback : host :=
  after (rollback true demo_record "staging failed") [willing; willing] demo_prepared.

(** An interrupted rollback destroys the original root.  A
    rollback records that it is rolling back before it looks at the files; a
    restart reads that state as proof that the filesystem had been switched,
    moves the root at the target aside as the failed restore, and removes it.
    Here nothing had been switched: the original was in place before the
    restart, and after it no copy is left under any of the three names. *)
Theorem interrupted_rollback_destroys_root :
  disk interrupted_rollback !! target ["srv"] "app" = Some (Tree "original") ∧
  (RecordState <$> restores (recovered interrupted_rollback) !! "r-1") = Some RestoreRolledBack ∧
  disk (recovered interrupted_rollback) = ∅.
Proof. split; [|split]; vm_compute; reflexivity. Qed.

(** ** A rollback interrupted after the backup returned *)

(** The restored root was set aside and the original put back; the agent
    dies before the record says so. *)
Definition interrupted_after_return : host :=
  after (rollback true (demo_record <| RecordState := RestoreFilesystemSwitched |>) "unhealthy")
    (replicate 17 willing)
    (demo_prepared <| disk := {[target ["srv"] "app" := Tree "restored";
                                backup "r-1" ["srv"] := Tree "original"]} |>
                   <| workloads := ∅ |>).

(** The restart then finds a root at the target and the failed restore still
    under the name it wants to use, and the agent does not open, however
    often it is started. *)
Lemma interrupted_rollback_blocks_restart :
  disk interrupted_after_return !! target ["srv"] "app" = Some (Tree "original") ∧
  (run (OpenRestorer true) (replicate 80 willing) interrupted_after_return).1.1 =
    Some (Err "directory not empty") ∧
  (run (OpenRestorer true) (replicate 80 willing) (recovered interrupted_after_return)).1.1 =
    Some (Err "directory not empty").
Proof. split; [|split]; vm_compute; reflexivity. Qed.

(** ** A restore that fails before the old process is replaced *)

Definition frozen_source : Workload := demo_workload (Some demo_process) WorkloadCheckpointed.

(** The source of a checkpoint, still frozen on the machine it came from. *)
Definition demo_frozen : host :=
  demo_host <| workloads := {["w-1" := frozen_source]} |>
            <| manifests := {["cp-1" := demo_manifest]} |>
            <| procs := {[100 := {| start_ticks := 7; group := 100; frozen := true; cgroup := "w-1";
                                    uid := 1000; gid := 1000 |}]} |>.

(** The same workload, running. *)
Definition demo_running : host := demo_host <| manifests := {["cp-1" := demo_manifest]} |>.

Definition refuses : kernel := {| ok := false; clock := 9; num := 200; ticks := 8; text := "id-1";
  extracted := []; captured := []; owner := (1000, 1000); exdev := false; ended := [];
  net := net willing |}.

(** The restore fails on its first file operation. *)
Definition failed_restore (h : host) : option (result RestoreRecord) * host * list kernel :=
  run (Prepare (Ok "/srv") demo_parse String.eqb demo_digest demo_state_dir true false "cp-1" false)
    (replicate 15 willing ++ [refuses] ++ replicate 80 willing) h.

(** A restore that fails early ends the original process.  The
    rollback stops whatever process the workload record names, and until the
    restored process is adopted that is the original one: a restore whose
    first directory cannot be created kills the frozen source of the
    checkpoint, and a running workload as well, although no file of theirs
    was touched. *)
Theorem failed_restore_kills_source :
  (failed_restore demo_frozen).1.1 = Some (Err "mkdir") ∧
  procs demo_frozen !! 100 ≠ None ∧ procs (failed_restore demo_frozen).1.2 = ∅ ∧
  disk (failed_restore demo_frozen).1.2 = disk demo_frozen ∧
  (failed_restore demo_running).1.1 = Some (Err "mkdir") ∧
  procs (failed_restore demo_running).1.2 = ∅.
Proof. repeat split; vm_compute; done. Qed.

(** ** A commit repeated while another restore runs *)

(** [r-1] is committed; a second restore over the same root holds the guard. *)
Definition committed_and_busy : host :=
  demo_host <| restores := {["r-1" := demo_record <| RecordState := RestoreCommitted |>]} |>
            <| inFlight := {[target ["srv"] "app"]} |>.

(** The repeated commit releases the guard of the other transaction. *)
Lemma repeated_commit_frees_guard :
  inFlight (after (Commit "r-1") (replicate 4 willing) committed_and_busy) = ∅.
Proof. vm_compute. reflexivity. Qed.

(** ** A commit interrupted while it discards the backup *)

Definition validated : host :=
  demo_prepared <| restores := {["r-1" := demo_record <| RecordState := RestoreValidated |>]} |>
                <| disk := {[target ["srv"] "app" := Tree "restored";
                             backup "r-1" ["srv"] := Tree "original"]} |>.

(** The backup has lost its content when the agent dies. *)
Definition interrupted_commit : host := after (Commit "r-1") (replicate 2 willing) validated.

Definition all_ended : kernel := {| ok := true; clock := 9; num := 200; ticks := 8; text := "";
  extracted := []; captured := []; owner := (1000, 1000); exdev := false; ended := [100];
  net := net willing |}.

(** When the restored process has died as well, recovery rolls back: it
    returns what is left of the backup and removes the restored root. *)
Lemma interrupted_commit_returns_remains :
  disk validated !! backup "r-1" ["srv"] = Some (Tree "original") ∧
  let h := after (OpenRestorer true) (replicate 80 all_ended) interrupted_commit in
  disk h !! target ["srv"] "app" = Some (Tree "id-1") ∧
  (RecordState <$> restores h !! "r-1") = Some RestoreRolledBack.
Proof. repeat split; vm_compute; reflexivity. Qed.
