(* ===== verification/Checkpoint.v ===== *)
(** * Taking checkpoints ([internal/checkpoint/service.go], [live.go], [repository.go])

    [CreateCheckpoint] freezes a workload, dumps its process, captures its
    root and records the manifest; a [LiveSession] does the same after
    pre-copy passes that run while the workload executes.  Both thaw the
    workload again when they fail.  The repository keeps the manifests and
    prunes old ones without breaking the lineage of those it keeps.

    CRIU, the archiver, filesystem snapshots, dependency discovery, the
    machine inventory, keys and signatures are answers of the kernel.  A
    float64 is a rational. *)
From Stdlib Require Import Ascii.
From S2P Require Import Prelude Float64 GoStr Model Workload Prog Conc Network Host Runtime Restorer.

Local Open Scope string_scope.
Local Open Scope list_scope.
Local Open Scope Z_scope.

(** ** The repository *)

Definition id_head (a : ascii) : bool :=
  let n := N_of_ascii a in
  ((97 <=? n) && (n <=? 122) || (65 <=? n) && (n <=? 90) || (48 <=? n) && (n <=? 57))%N.
Definition id_tail (a : ascii) : bool :=
  id_head a || bool_decide (a ∈ ["."%char; "_"%char; "-"%char]).

(** [idShape]. *)
Definition idShape (id : string) : bool :=
  match id with
  | EmptyString => false
  | String a rest => id_head a && forallb id_tail (String.list_ascii_of_string rest) &&
                     (Z.of_nat (String.length rest) <=? 127)
  end.

(** [validateID]. *)
Definition validateID (id : string) : result unit :=
  _ ← require (negb (bool_decide (id = ""))) "id is required";
  _ ← require (idShape id) "ids must be single path-safe components";
  require (negb (bool_decide (id ∈ ["index.enc.json"; "trusted-sources.json"])))
    "reserved repository name".

(** [checkpointDir], with the repository root as a cleaned path. *)
Definition checkpointDir (root : path) (id : string) : result path :=
  _ ← validateID id;
  let dir := root ++ segments id in
  _ ← require (bool_decide (Dir dir = root) && bool_decide (Base dir = id))
        "checkpoint id escapes the repository root";
  Ok dir.

(** [Repository.Save]: the file is written first, and becomes visible with
    its index entry. *)
Definition SaveManifest (m : CheckpointManifest) : call (result unit) :=
  act (λ e h,
    match validateID (ManifestID m), validateID (SpecID (ManifestWorkload m)) with
    | Err err, _ | _, Err err => (h, Err err)
    | Ok _, Ok _ =>
        if negb (ok e) then (h, Err "save manifest")
        else match manifests h !! ManifestID m with
             | Some existing =>
                 if decide (ManifestSHA256 existing = ManifestSHA256 m) then (h, Ok tt)
                 else (h, Err "checkpoint id already exists with different contents")
             | None => (h <| manifests := <[ManifestID m := m]> (manifests h) |>, Ok tt)
             end
    end).

(** [Repository.List]: the newest first. *)
Definition ListCheckpoints (h : host) (workloadID : string) : list CheckpointManifest :=
  merge_sort (λ a b, Is_true (ManifestCreatedAt b <=? ManifestCreatedAt a))
    (filter (λ m, workloadID = "" ∨ SpecID (ManifestWorkload m) = workloadID)
       (snd <$> merge_sort (λ a b, Is_true (String.leb a.1 b.1)) (map_to_list (manifests h)))).

(** [Repository.Delete]: the index entry goes first, then the file. *)
Definition DeleteManifest (id : string) : call (result unit) :=
  gone ← act (λ e h,
    match validateID id, manifests h !! id with
    | Err err, _ => (h, Err err)
    | Ok _, None => (h, Err "record not found")
    | Ok _, Some _ => if ok e then (h <| manifests := delete id (manifests h) |>, Ok tt)
                      else (h, Err "delete index entry")
    end);
  match gone with
  | Err err => mret (Err err)
  | Ok _ => succeeds "remove checkpoint directory"
  end.

(** ** Retention *)

(** The walk of [deleteUnlessNeeded] up the lineage of one checkpoint. *)
Fixpoint reaches (byID : gmap string CheckpointManifest) (hops : nat) (target parentID : string)
    : result bool :=
  if decide (parentID = "") then Ok false
  else match hops with
       | O => Err "checkpoint parent chain exceeds 256 entries"
       | S hops =>
           if decide (parentID = target) then Ok true
           else match byID !! parentID with
                | None => Ok false
                | Some parent => reaches byID hops target (ParentID parent)
                end
       end.

Fixpoint needed_by (byID : gmap string CheckpointManifest) (target : string)
    (others : list CheckpointManifest) : result unit :=
  match others with
  | [] => Ok tt
  | m :: rest =>
      if decide (ManifestID m = target) then needed_by byID target rest
      else r ← reaches byID 256 target (ParentID m);
           if (r : bool) then Err "checkpoint is still the parent of a retained checkpoint"
           else needed_by byID target rest
  end.

Definition by_id (ms : list CheckpointManifest) : gmap string CheckpointManifest :=
  list_to_map ((λ m, (ManifestID m, m)) <$> reverse ms).

(** [deleteUnlessNeeded]; the order of the walk over the map only decides
    which refusal is reported. *)
Definition deleteUnlessNeeded (h : host) (m : CheckpointManifest) : result unit :=
  let byID := by_id (ListCheckpoints h (SpecID (ManifestWorkload m))) in
  needed_by byID (ManifestID m) (snd <$> map_to_list byID).

(** [Service.Delete]. *)
Definition DeleteCheckpoint (id : string) : call (result unit) :=
  checked ← look (λ e h, m ← LoadCheckpoint e h id; deleteUnlessNeeded h m);
  match checked with
  | Err err => mret (Err err)
  | Ok _ => DeleteManifest id
  end.

(** The loop of [PruneWorkload] that marks one lineage. *)
Fixpoint protect (byID : gmap string CheckpointManifest) (fuel : nat) (parentID : string)
    (protected : gset string) : gset string :=
  match fuel with
  | O => protected
  | S fuel =>
      if decide (parentID = "") then protected
      else match byID !! parentID with
           | None => protected
           | Some parent =>
               if decide (parentID ∈ protected) then protected
               else protect byID fuel (ParentID parent) ({[parentID]} ∪ protected)
           end
  end.

(** The checkpoints that keep the newest restorable: each step of the inner
    loop marks a new member, so their number bounds it. *)
Definition protected_by (summaries : list CheckpointManifest) (kept : list CheckpointManifest)
    : gset string :=
  foldl (λ protected m, protect (by_id summaries) (S (length summaries)) (ParentID m)
                          ({[ManifestID m]} ∪ protected)) ∅ kept.

Fixpoint delete_all (ids : list string) (deleted : list string)
    : call (list string * result unit) :=
  match ids with
  | [] => mret (deleted, Ok tt)
  | id :: rest =>
      r ← DeleteCheckpoint id;
      match r with
      | Err err => mret (deleted, Err err)
      | Ok _ => delete_all rest (deleted ++ [id])
      end
  end.

(** [PruneWorkload]. *)
Definition PruneWorkload (workloadID : string) (keepLast : Z) : call (list string * result unit) :=
  if keepLast <? 0 then mret ([], Err "keep count cannot be negative")
  else
    summaries ← look (λ _ h, ListCheckpoints h workloadID);
    if Z.of_nat (length summaries) <=? keepLast then mret ([], Ok tt)
    else
      let n := Z.to_nat keepLast in
      let protected := protected_by summaries (take n summaries) in
      delete_all (filter (λ id, id ∉ protected) (ManifestID <$> drop n summaries)) [].

(** ** Capturing *)

(** A call that returns early on an error. *)
Definition attempt {A B} (t : call (result A)) (k : A → call (result B)) : call (result B) :=
  r ← t;
  match r with
  | Err err => mret (Err err)
  | Ok a => k a
  end.

Local Notation "x ⇐ t ; k" := (attempt t (λ x, k))
  (at level 20, t at level 100, k at level 200, only parsing).

(** [captureDirectory] with [Store.PutAsset]: the archiver's stream as the
    chunks it was stored in, and the bytes that were already there. *)
Definition captureDirectory (name : string) (order : Z) : call (result (AssetManifest * Z)) :=
  look (λ e _,
    if ok e then
      Ok ({| AssetName := name; MediaType := "application/vnd.shift.filesystem-tar";
             AssetPlainSize := foldr (λ r n, PlainSize r + n) 0 (captured e);
             AssetStoredSize := foldr (λ r n, StoredSize r + n) 0 (captured e);
             AssetSHA256 := text e; Chunks := captured e; AssetRequired := true;
             RestoreOrder := order |}, num e)
    else Err "capture directory").

(** [criu.PreDump] and [criu.Dump]: both need the process, and a dump leaves
    it stopped. *)
Definition PreDump (process : ProcessState) (images : path) : call (result unit) :=
  act (λ e h, if ok e && ProcessAlive h (PID process) (ProcStartTicks process) then
                (h <| disk := <[images := Tree (text e)]> (disk h) |>, Ok tt)
              else (h, Err "criu pre-dump")).
Definition Dump (process : ProcessState) (images : path) : call (result unit) :=
  act (λ e h, if ok e && ProcessAlive h (PID process) (ProcStartTicks process) then
                (h <| procs := deliver SIGSTOP (in_group (PGID process)) (procs h) |>
                   <| disk := <[images := Tree (text e)]> (disk h) |>, Ok tt)
              else (h, Err "criu dump")).

Definition StateFormatName : string := "shift-state".
Definition StateFormatVersion : string := "1.0.0".

(** The numbers of a manifest. *)
Definition checkpoint_metrics (started frozenAt completed deduplicated : Z)
    (assets : list AssetManifest) : CheckpointMetrics :=
  {| MetricsStartedAt := started; FreezeStartedAt := frozenAt; MetricsCompletedAt := completed;
     MetricsDuration := completed - started;
     PlainBytes := foldr (λ a n, AssetPlainSize a + n) 0 assets;
     StoredBytes := foldr (λ a n, AssetStoredSize a + n) 0 assets;
     MetricsDeduplicatedBytes := deduplicated;
     ChunkCount := foldr (λ a n, Z.of_nat (length (Chunks a)) + n) 0 assets |}.

(** [SignManifest]: the digest and the signature are answers. *)
Definition SignManifest (machine : string) (m : CheckpointManifest)
    : call (result CheckpointManifest) :=
  digest ⇐ look (λ e _, if ok e then Ok (text e) else Err "sign manifest");
  signature ← look (λ e _, text e);
  mret (Ok (m <| SourceIdentityID := machine |> <| ManifestSHA256 := digest |>
              <| Security := {| SecurityKeyVersion := SecurityKeyVersion (Security m);
                                ManifestSignature := signature; SignerMachineID := machine;
                                SecurityAlgorithm := "Ed25519+SHA-256" |} |>)).

(** The single-checkpoint guard. *)
Definition guard_create (workloadID : string) : call (result unit) :=
  act (λ _ h, if decide (workloadID ∈ createInFlight h) then
                (h, Err "a checkpoint of the workload is already in progress")
              else (h <| createInFlight := createInFlight h ∪ {[workloadID]} |>, Ok tt)).
Definition release_create (workloadID : string) : call unit :=
  act (λ _ h, (h <| createInFlight := createInFlight h ∖ {[workloadID]} |>, tt)).

(** The workload a checkpoint is taken of. *)
Definition find_live (workloadID : string) : call (result (Workload * ProcessState)) :=
  look (λ _ h, w ← Get h workloadID;
               match Process w with
               | Some p => if ProcessAlive h (PID p) (ProcStartTicks p) then Ok (w, p)
                           else Err "workload must be running or paused to checkpoint"
               | None => Err "workload must be running or paused to checkpoint"
               end).

(** [originallyRunning]. *)
Definition runs (w : Workload) : bool := bool_decide (Status w = WorkloadRunning).

(** [criu.Check], [criu.Version], [NewID]: the version and the id. *)
Definition ready_engine : call (result (string * string)) :=
  _ ⇐ succeeds "criu check";
  version ⇐ look (λ e _, if ok e then Ok (text e) else Err "criu version");
  look (λ e _, if ok e then Ok (version, text e) else Err "id").

(** ** Creating a checkpoint *)

Record CreateOptions := {
  OptionKind : string;
  OptionParentID : string;
  OptionLeaveRunning : bool;
  OptionTCPState : bool;
}.

(** The kind a request asks for. *)
Definition requested_kind (o : CreateOptions) : result CheckpointKind :=
  let kind := if decide (OptionKind o = "") then "full" else OptionKind o in
  let kind := if bool_decide (OptionParentID o ≠ "") && bool_decide (kind = "full")
              then "incremental" else kind in
  _ ← require (bool_decide (kind ∈ ["full"; "incremental"])) "unsupported checkpoint kind";
  _ ← require (negb (bool_decide (kind = "incremental") && bool_decide (OptionParentID o = "")))
        "incremental checkpoint requires a parent checkpoint";
  _ ← require (negb (bool_decide (kind = "full") && bool_decide (OptionParentID o ≠ "")))
        "full checkpoint cannot have a parent checkpoint";
  Ok (if decide (kind = "full") then CheckpointFull else CheckpointIncremental).

(** What a creation ends with: the error of a checkpoint that is durable is
    a [BookkeepingError]. *)
Inductive creation :=
| Created (m : CheckpointManifest)
| Persisted (m : CheckpointManifest) (err : string)
| NotCreated (err : string).

Section service.
(** The agent's state directory, its machine id, and whether checkpoints are
    mirrored to an object store. *)
Context (stateDir : path) (machine : string) (mirrored : bool).

Definition checkpoint_staging (id : string) : path :=
  stateDir ++ ["staging"; ("checkpoint-" +:+ id)%string].

(** [materializeParentImages]. *)
Definition materializeParentImages (workloadID parentID : string) (destination : path)
    : call (result unit) :=
  parent ⇐ look (λ e h, LoadCheckpoint e h parentID);
  if negb (bool_decide (SpecID (ManifestWorkload parent) = workloadID)) then
    mret (Err "parent checkpoint belongs to another workload")
  else
    _ ⇐ succeeds "restore policy";
    materializeProcessChain parent destination.

(** [MirrorCheckpoint]. *)
Definition MirrorCheckpoint (id : string) : call (result unit) :=
  if negb mirrored then mret (Err "object-store mirror is not configured")
  else if decide (id = "") then mret (Err "checkpoint id is required")
  else
    _ ⇐ look (λ e h, LoadCheckpoint e h id);
    succeeds "mirror upload".

(** Freezing a workload that runs: the instant it stopped at. *)
Definition freeze (w : Workload) : call (result Z) :=
  if runs w then
    _ ⇐ (paused ← Pause (SpecID (Spec w));
         mret (match paused with Err _ => Err "freeze workload" | Ok _ => Ok tt end));
    now ← time;
    mret (Ok now)
  else mret (Ok 0).

(** From the dump to the point where a workload with a snapshot of its root
    may run again; yields whether it does. *)
Definition dump_frozen (w : Workload) (p : ProcessState) (images : path) (leaveRunning : bool)
    : call (result bool) :=
  _ ⇐ Dump p images;
  _ ⇐ succeeds "probe filesystem";
  snapshot ← look (λ e _, ok e);
  _ ⇐ preflight ["load index"; "index tree"];
  if (snapshot : bool) && runs w && leaveRunning then
    _ ⇐ (resumed ← Resume (SpecID (Spec w));
         mret (match resumed with Err _ => Err "resume workload after snapshot" | Ok _ => Ok tt end));
    mret (Ok true)
  else mret (Ok false).

(** Dependency discovery, machine inspection and the compatibility id. *)
Definition describe_machine : call (result string) :=
  _ ⇐ preflight ["discover workload dependencies"; "inspect machine"];
  compatibility ← look (λ e _, text e);
  mret (Ok compatibility).

(** From the captures to the saved manifest. *)
Definition record_checkpoint (w : Workload) (o : CreateOptions) (kind : CheckpointKind)
    (version id : string) (started frozenAt : Z) : call (result CheckpointManifest) :=
  image ⇐ captureDirectory "process-state" 20;
  files ⇐ captureDirectory "filesystem-root" 10;
  compatibility ⇐ describe_machine;
  completed ← time;
  let assets := [files.1; image.1] in
  let metrics := checkpoint_metrics started frozenAt completed (files.2 + image.2) assets in
  keyVersion ⇐ look (λ e _, if ok e then Ok (num e) else Err "active key version");
  m ⇐ SignManifest machine
    {| Format := StateFormatName; FormatVersion := StateFormatVersion; ManifestID := id;
       ParentID := OptionParentID o; Kind := kind; ManifestWorkload := Spec w;
       SourceIdentityID := machine; ManifestCreatedAt := started;
       Engine := {| EngineName := "CRIU"; EngineVersion := version;
                    LeaveRunning := OptionLeaveRunning o;
                    ParentImages := bool_decide (OptionParentID o ≠ "");
                    PreCopy := false; EnginePreCopyPasses := 0;
                    TCPState := OptionTCPState o; ShellJob := true; FileLocks := true |};
       Assets := assets; RequiredBytes := PlainBytes metrics; ManifestMetrics := metrics;
       Security := {| SecurityKeyVersion := keyVersion; ManifestSignature := "";
                      SignerMachineID := ""; SecurityAlgorithm := "" |};
       ManifestSHA256 := ""; CompatibilityID := compatibility |};
  _ ⇐ SaveManifest m;
  mret (Ok m).

(** What follows once the checkpoint is durable, and whether a failure still
    has to thaw the workload. *)
Definition keep_books (w : Workload) (m : CheckpointManifest) (leaveRunning resumedEarly : bool)
    : call (creation * bool) :=
  let resume := runs w && leaveRunning && negb resumedEarly in
  indexed ← (_ ⇐ MkdirAll (stateDir ++ ["indices"]);
             _ ⇐ succeeds "persist changed-file index";
             if mirrored then MirrorCheckpoint (ManifestID m) else mret (Ok tt));
  match indexed with
  | Err err => mret (Persisted m err, resume)
  | Ok _ =>
      resumed ← (if resume then r ← Resume (SpecID (Spec w)); mret (_ ← r; Ok tt)
                 else mret (Ok tt));
      match resumed with
      | Err err => mret (Persisted m err, resume)
      | Ok _ =>
          marked ← MarkCheckpoint (SpecID (Spec w)) (ManifestID m) (runs w && leaveRunning);
          mret (match marked with
                | Err err => (Persisted m err, false)
                | Ok _ => (Created m, false)
                end)
      end
  end.

(** The creation once its staging exists: the outcome, and
    [resumeOnFailure] as it returns. *)
Definition create_staged (w : Workload) (p : ProcessState) (o : CreateOptions)
    (kind : CheckpointKind) (version id : string) (started : Z) : call (creation * bool) :=
  let staging := checkpoint_staging id in
  frozen ← (_ ⇐ (if decide (OptionParentID o = "") then mret (Ok tt)
                 else _ ⇐ MkdirAll (staging ++ ["parent-images"]);
                      materializeParentImages (SpecID (Spec w)) (OptionParentID o)
                        (staging ++ ["parent-images"]));
            freeze w);
  match frozen with
  | Err err => mret (NotCreated err, runs w)
  | Ok frozenAt =>
      dumped ← dump_frozen w p (staging ++ ["images"]) (OptionLeaveRunning o);
      match dumped with
      | Err err => mret (NotCreated err, runs w)
      | Ok resumedEarly =>
          recorded ← record_checkpoint w o kind version id started frozenAt;
          match recorded with
          | Err err => mret (NotCreated err, runs w && negb resumedEarly)
          | Ok m => keep_books w m (OptionLeaveRunning o) resumedEarly
          end
      end
  end.

(** The deferred thaw of a failed creation. *)
Definition thaw (w : Workload) (due : bool) : call unit :=
  if due then _ ← Resume (SpecID (Spec w)); mret tt else mret tt.

(** The creation under the guard. *)
Definition create_guarded (workloadID : string) (o : CreateOptions) : call creation :=
  started ← time;
  prepared ← (found ⇐ find_live workloadID;
              kind ⇐ mret (requested_kind o);
              engine ⇐ ready_engine;
              _ ⇐ MkdirAll (checkpoint_staging engine.2 ++ ["images"]);
              mret (Ok (found, kind, engine)));
  match prepared with
  | Err err => mret (NotCreated err)
  | Ok ((w, p), kind, (version, id)) =>
      out ← create_staged w p o kind version id started;
      _ ← thaw w out.2;
      _ ← RemoveAll (checkpoint_staging id);
      mret out.1
  end.

(** [Service.Create]. *)
Definition CreateCheckpoint (workloadID : string) (o : CreateOptions) : call creation :=
  guarded ← guard_create workloadID;
  match guarded with
  | Err err => mret (NotCreated err)
  | Ok _ =>
      out ← create_guarded workloadID o;
      _ ← release_create workloadID;
      mret out
  end.

(** ** Live sessions *)

Record LiveOptions := {
  LivePasses : Z;
  LiveConvergence : float64;
  LiveLeaveRunning : bool;
  LiveTCPState : bool;
}.

Record LiveSession := {
  liveWorkload : Workload;
  liveProcess : ProcessState;
  options : LiveOptions;
  checkpointID : string;
  passImages : list path;
  passAssets : list AssetManifest;
  baseline : Z;
  deduplicated : Z;
  passLimit : Z;
  convergence : float64;
  startedAt : Z;
  criuVersion : string;
  sessionKey : Z;
  sessionFrozen : bool;
  freezeStartedAt : Z;
  closed : bool;
  passFailed : bool;
}.
#[export] Instance LiveSession_eta : Eta LiveSession := fun l =>
  Build_LiveSession (liveWorkload l) (liveProcess l) (options l) (checkpointID l) (passImages l)
    (passAssets l) (baseline l) (deduplicated l) (passLimit l) (convergence l) (startedAt l)
    (criuVersion l) (sessionKey l) (sessionFrozen l) (freezeStartedAt l) (closed l) (passFailed l).

(** The clamped pass cap and the convergence fraction. *)
Definition clamp_passes (passes : Z) : Z := Z.min 16 (Z.max 1 passes).
Definition clamp_convergence (c : float64) : float64 :=
  if (c <=? 0)%F || (1 <=? c)%F then 0.25%F else c.

(** [BeginLive]. *)
Definition BeginLive (workloadID : string) (o : LiveOptions) : call (result LiveSession) :=
  guarded ← guard_create workloadID;
  match guarded with
  | Err err => mret (Err err)
  | Ok _ =>
      began ← (found ⇐ find_live workloadID;
               engine ⇐ ready_engine;
               let staging := checkpoint_staging engine.2 in
               _ ⇐ MkdirAll (staging ++ ["images"]);
               key ← look (λ e _, if ok e then Ok (num e) else Err "active key version");
               match key with
               | Err err => _ ← RemoveAll staging; mret (Err err)
               | Ok key =>
                   now ← time;
                   mret (Ok {| liveWorkload := found.1; liveProcess := found.2; options := o;
                               checkpointID := engine.2; passImages := []; passAssets := [];
                               baseline := 0; deduplicated := 0;
                               passLimit := clamp_passes (LivePasses o);
                               convergence := clamp_convergence (LiveConvergence o);
                               startedAt := now; criuVersion := engine.1; sessionKey := key;
                               sessionFrozen := false; freezeStartedAt := 0; closed := false;
                               passFailed := false |})
               end);
      match began with
      | Err err => _ ← release_create workloadID; mret (Err err)
      | Ok l => mret (Ok l)
      end
  end.

(** [CanPass]. *)
Definition CanPass (l : LiveSession) : bool :=
  runs (liveWorkload l) && negb (closed l) && negb (passFailed l).

(** [requireKeyVersion]. *)
Definition requireKeyVersion (l : LiveSession) (a : AssetManifest) : result unit :=
  require (forallb (λ r, KeyVersion r =? sessionKey l) (Chunks a))
    "workload key rotated during the live checkpoint".

Record PreCopyPass := {
  PassIndex : Z;
  DeltaBytes : Z;
  PassAsset : AssetManifest;
  PassKeyVersion : Z;
  More : bool;
}.

(** [int64(convergence * float64(baseline))]. *)
Definition converged (l : LiveSession) (delta : Z) : bool :=
  (0 <? baseline l) && (delta <=? to_int64 (convergence l * of_Z (baseline l))%F).

(** The switch of [Pass] over the measured delta: whether more passes are
    warranted, and the baseline. *)
Definition measure (l : LiveSession) (pass delta : Z) (measured : bool) : LiveSession * bool :=
  let more := Z.of_nat (length (passImages l)) <? passLimit l in
  if negb measured then (l, more)
  else if pass =? 1 then (l <| baseline := delta |>, more)
  else if converged l delta then (l, false)
  else (l, more).

(** [Pass]. *)
Definition Pass (l : LiveSession) : call (LiveSession * result PreCopyPass) :=
  if closed l then mret (l, Err "live checkpoint session is closed")
  else if passFailed l then mret (l, Err "pre-copy pass failed earlier in this session")
  else if negb (runs (liveWorkload l)) then
    mret (l, Err "pre-copy passes require a workload that was running when the session began")
  else if passLimit l <=? Z.of_nat (length (passImages l)) then
    mret (l, Err "pre-copy pass cap reached")
  else
    let pass := Z.of_nat (length (passImages l)) + 1 in
    let images := checkpoint_staging (checkpointID l) ++ [("precopy-" +:+ Itoa pass)%string] in
    packaged ← (_ ⇐ MkdirAll images;
                _ ⇐ PreDump (liveProcess l) images;
                result ⇐ captureDirectory (precopy_prefix +:+ Itoa pass) 20;
                _ ⇐ mret (requireKeyVersion l result.1);
                mret (Ok result));
    match packaged with
    | Err err => mret (l <| passFailed := true |>, Err err)
    | Ok (asset, dedup) =>
        let l := l <| passImages := passImages l ++ [images] |>
                   <| passAssets := passAssets l ++ [asset] |>
                   <| deduplicated := deduplicated l + dedup |> in
        delta ← look (λ e _, (num e, ok e));
        let '(l, more) := measure l pass delta.1 delta.2 in
        mret (l, Ok {| PassIndex := pass; DeltaBytes := delta.1;
                       PassAsset := asset; PassKeyVersion := sessionKey l; More := more |})
    end.

(** [close]. *)
Definition close_session (l : LiveSession) : call unit :=
  _ ← RemoveAll (checkpoint_staging (checkpointID l));
  release_create (SpecID (Spec (liveWorkload l))).

(** The manifest of a finished session. *)
Definition live_manifest (l : LiveSession) (image files : AssetManifest * Z)
    (compatibility : string) (completed : Z) : CheckpointManifest :=
  let assets := [files.1; image.1] ++ passAssets l in
  let metrics := checkpoint_metrics (startedAt l) (freezeStartedAt l) completed
                   (files.2 + image.2 + deduplicated l) assets in
  let passes := Z.of_nat (length (passImages l)) in
  {| Format := StateFormatName; FormatVersion := StateFormatVersion;
     ManifestID := checkpointID l; ParentID := ""; Kind := CheckpointFull;
     ManifestWorkload := Spec (liveWorkload l); SourceIdentityID := machine;
     ManifestCreatedAt := startedAt l;
     Engine := {| EngineName := "CRIU"; EngineVersion := criuVersion l;
                  LeaveRunning := LiveLeaveRunning (options l);
                  ParentImages := 0 <? passes; PreCopy := 0 <? passes;
                  EnginePreCopyPasses := passes;
                  TCPState := LiveTCPState (options l); ShellJob := true; FileLocks := true |};
     Assets := assets; RequiredBytes := PlainBytes metrics; ManifestMetrics := metrics;
     Security := {| SecurityKeyVersion := sessionKey l; ManifestSignature := "";
                    SignerMachineID := ""; SecurityAlgorithm := "" |};
     ManifestSHA256 := ""; CompatibilityID := compatibility |}.

(** From the captures of [Finalize] to the saved manifest. *)
Definition record_live (l : LiveSession) : call (result CheckpointManifest) :=
  image ⇐ captureDirectory "process-state" 20;
  _ ⇐ mret (requireKeyVersion l image.1);
  files ⇐ captureDirectory "filesystem-root" 10;
  _ ⇐ mret (requireKeyVersion l files.1);
  compatibility ⇐ describe_machine;
  completed ← time;
  m ⇐ SignManifest machine (live_manifest l image files compatibility completed);
  _ ⇐ SaveManifest m;
  mret (Ok m).

(** What follows in [Finalize] once the checkpoint is durable. *)
Definition keep_live_books (l : LiveSession) (m : CheckpointManifest)
    : call (LiveSession * creation) :=
  let w := liveWorkload l in
  let leave := runs w && LiveLeaveRunning (options l) in
  indexed ← (_ ⇐ MkdirAll (stateDir ++ ["indices"]);
             _ ⇐ succeeds "persist changed-file index";
             if mirrored then MirrorCheckpoint (ManifestID m) else mret (Ok tt));
  match indexed with
  | Err err => mret (l, Persisted m err)
  | Ok _ =>
      resumed ← (if leave && sessionFrozen l then r ← Resume (SpecID (Spec w)); mret (_ ← r; Ok false)
                 else mret (Ok (sessionFrozen l)));
      match resumed with
      | Err err => mret (l, Persisted m err)
      | Ok still =>
          let l := l <| sessionFrozen := still |> in
          marked ← MarkCheckpoint (SpecID (Spec w)) (ManifestID m) leave;
          mret (l, match marked with
                   | Err err => Persisted m err
                   | Ok _ => Created m
                   end)
      end
  end.

(** The frozen window of [Finalize], before its deferred part. *)
Definition finalize_open (l : LiveSession) : call (LiveSession * creation) :=
  let w := liveWorkload l in
  froze ← freeze w;
  match froze with
  | Err err => mret (l, NotCreated err)
  | Ok now =>
      let l := l <| sessionFrozen := runs w |> <| freezeStartedAt := now |> in
      dumped ← dump_frozen w (liveProcess l) (checkpoint_staging (checkpointID l) ++ ["images"])
                 (LiveLeaveRunning (options l));
      match dumped with
      | Err err => mret (l, NotCreated err)
      | Ok early =>
          let l := if (early : bool) then l <| sessionFrozen := false |> else l in
          recorded ← record_live l;
          match recorded with
          | Err err => mret (l, NotCreated err)
          | Ok m => keep_live_books l m
          end
      end
  end.

(** [Finalize]. *)
Definition Finalize (l : LiveSession) : call (LiveSession * creation) :=
  if closed l then mret (l, NotCreated "live checkpoint session is closed")
  else if passFailed l then mret (l, NotCreated "a pre-copy pass failed earlier in this session")
  else
    out ← finalize_open (l <| closed := true |>);
    _ ← thaw (liveWorkload l)
          (match out.2 with
           | Created _ => false
           | _ => sessionFrozen out.1 && runs (liveWorkload l)
           end);
    _ ← close_session l;
    mret out.

(** [Abort]. *)
Definition Abort (l : LiveSession) : call LiveSession :=
  if closed l then mret l
  else
    _ ← thaw (liveWorkload l) (sessionFrozen l && runs (liveWorkload l));
    _ ← close_session l;
    mret (l <| closed := true |>).

(** [EstimateLiveTransferBytes], over the bound on the root's archive. *)
Definition EstimateLiveTransferBytes (root firstPassStored passLimit : Z) : Z :=
  int64 (root + int64 (firstPassStored * (Z.max 1 passLimit + 1))).
End service.
