(* ===== verification/Retention.v ===== *)
(** * Retention of checkpoints

    Deleting and pruning never make a retained checkpoint unrestorable, and
    the race with a checkpoint that is being taken that makes them. *)
From S2P Require Import Prelude GoStr Model Workload Prog Conc Network Host Runtime Restorer Chain Checkpoint.

Local Open Scope string_scope.
Local Open Scope list_scope.
Local Open Scope Z_scope.

(** What the repository answers when its files can be read. *)
Definition load_from (M : gmap string CheckpointManifest) (id : string)
    : result CheckpointManifest :=
  match M !! id with
  | Some m => Ok m
  | None => Err "checkpoint not found"
  end.

(** Every manifest is stored under its own id. *)
Definition keyed (M : gmap string CheckpointManifest) : Prop :=
  ∀ id m, M !! id = Some m → ManifestID m = id.

(** ** Listing *)

Definition listed_for (w : string) (m : CheckpointManifest) : Prop :=
  w = "" ∨ SpecID (ManifestWorkload m) = w.

Lemma elem_of_ListCheckpoints h w m :
  m ∈ ListCheckpoints h w ↔ listed_for w m ∧ ∃ id, manifests h !! id = Some m.
Proof.
  unfold ListCheckpoints, listed_for. rewrite merge_sort_Permutation, list_elem_of_filter.
  rewrite list_elem_of_fmap. setoid_rewrite merge_sort_Permutation.
  split; intros [Hw H]; (split; [done|]).
  - destruct H as ([id m'] & -> & Hin%elem_of_map_to_list). by exists id.
  - destruct H as [id H]. exists (id, m). split; [done|]. by apply elem_of_map_to_list.
Qed.

Lemma NoDup_ids_listed h w :
  keyed (manifests h) → NoDup (ManifestID <$> ListCheckpoints h w).
Proof.
  intros Hk.
  assert (∀ l, NoDup l → (∀ m, m ∈ l → ∃ id, manifests h !! id = Some m) →
    NoDup (ManifestID <$> l)) as Hids.
  { intros l Hl Hin. apply NoDup_fmap_2_strong; [|done]. intros x y Hx Hy Hxy.
    destruct (Hin x Hx) as [i Hi], (Hin y Hy) as [j Hj].
    apply Hk in Hi as Hi', Hj as Hj'. congruence. }
  apply Hids; [|by intros m [_ ?]%elem_of_ListCheckpoints].
  unfold ListCheckpoints. rewrite merge_sort_Permutation. apply NoDup_filter.
  rewrite merge_sort_Permutation. apply NoDup_fmap_2_strong; [|apply NoDup_map_to_list].
  intros [i x] [j y] Hi%elem_of_map_to_list Hj%elem_of_map_to_list Hxy. simpl in Hxy. subst y.
  apply Hk in Hi as Hi', Hj as Hj'. congruence.
Qed.

Lemma by_id_listed h w id m :
  keyed (manifests h) →
  by_id (ListCheckpoints h w) !! id = Some m ↔ manifests h !! id = Some m ∧ listed_for w m.
Proof.
  intros Hk. unfold by_id. rewrite <- elem_of_list_to_map.
  - rewrite list_elem_of_fmap. setoid_rewrite elem_of_reverse. setoid_rewrite elem_of_ListCheckpoints.
    split.
    + intros (x & [= -> ->] & Hw & j & Hj). by rewrite (Hk _ _ Hj).
    + intros [Hm Hw]. exists m. rewrite (Hk _ _ Hm). eauto.
  - rewrite <- list_fmap_compose, fmap_reverse, reverse_Permutation. by apply NoDup_ids_listed.
Qed.

(** ** Lineages *)

(** When the walk does not meet the target, the lineage does not need it. *)
Lemma lineage_without M byID target w :
  keyed M → (∀ id m, M !! id = Some m → SpecID (ManifestWorkload m) = w → byID !! id = Some m) →
  ∀ fuel hops current seen chain out,
    (fuel < hops)%nat → reaches byID hops target (ParentID current) = Ok false →
    walk_chain (load_from M) fuel w current seen chain = Ok out →
    walk_chain (load_from (delete target M)) fuel w current seen chain = Ok out.
Proof.
  intros Hk Hin. induction fuel as [|fuel IH]; intros hops current seen chain out Hf Hr Hw;
    cbn [walk_chain] in *; destruct (decide (ParentID current = "")) as [|Hp]; try done.
  destruct hops as [|hops]; [lia|]. cbn [reaches] in Hr. rewrite decide_False in Hr by done.
  destruct (decide (ParentID current = target)) as [|Hne]; [done|]. unfold load_from in *.
  rewrite lookup_delete_ne by congruence. destruct (M !! ParentID current) as [parent|] eqn:Hm; [|done].
  destruct (bool_decide _) eqn:Hb; cbn [negb] in *; [|done]. apply bool_decide_eq_true in Hb.
  rewrite (Hin _ _ Hm Hb) in Hr. destruct (decide _); [done|]. eapply (IH hops); [lia|done|done].
Qed.

(** The lineage of a checkpoint of another workload does not need it either. *)
Lemma lineage_elsewhere M target w :
  M !! ManifestID target = Some target → w ≠ SpecID (ManifestWorkload target) →
  ∀ fuel current seen chain out,
    walk_chain (load_from M) fuel w current seen chain = Ok out →
    walk_chain (load_from (delete (ManifestID target) M)) fuel w current seen chain = Ok out.
Proof.
  intros Ht Hne. induction fuel as [|fuel IH]; intros m seen acc out Hl;
    cbn [walk_chain] in *; destruct (decide (ParentID m = "")); try done.
  unfold load_from in *. destruct (decide (ParentID m = ManifestID target)) as [Hp|Hp].
  - rewrite Hp, Ht in Hl. rewrite bool_decide_eq_false_2 in Hl by congruence. done.
  - rewrite lookup_delete_ne by congruence.
    destruct (M !! ParentID m) as [parent|]; [|done].
    destruct (bool_decide _); cbn [negb] in *; [|done]. destruct (decide _); [done|]. by apply IH.
Qed.

Lemma needed_by_sound byID target others :
  needed_by byID target others = Ok tt →
  ∀ m, m ∈ others → ManifestID m ≠ target → reaches byID 256 target (ParentID m) = Ok false.
Proof.
  induction others as [|m others IH]; intros H x Hx Hne; [by apply elem_of_nil in Hx|].
  cbn [needed_by] in H. apply elem_of_cons in Hx as [->|Hx].
  - rewrite decide_False in H by done. destruct (reaches _ _ _ _) as [[]|]; done.
  - destruct (decide _); [by apply IH|]. destruct (reaches _ _ _ _) as [[]|]; [done| |done].
    by apply IH.
Qed.

(** The lineages of what a repository still holds are what they were. *)
Definition keeps_lineages (M M' : gmap string CheckpointManifest) : Prop :=
  M' ⊆ M ∧ ∀ id m chain, M' !! id = Some m →
    lineage (load_from M) m = Ok chain → lineage (load_from M') m = Ok chain.

#[export] Instance keeps_lineages_preorder : PreOrder keeps_lineages.
Proof.
  split.
  - intros M. done.
  - intros M1 M2 M3 [H12 L12] [H23 L23]. split; [by etrans|]. intros id m chain Hm Hl.
    apply (L23 id); [done|]. apply (L12 id); [|done]. by eapply lookup_weaken.
Qed.

Lemma keyed_subseteq M M' : M' ⊆ M → keyed M → keyed M'.
Proof. intros Hs Hk id m Hm. apply Hk. by eapply lookup_weaken. Qed.

(** The guard of [Delete] is enough. *)
Lemma deleteUnlessNeeded_sound h target :
  keyed (manifests h) → manifests h !! ManifestID target = Some target →
  deleteUnlessNeeded h target = Ok tt →
  keeps_lineages (manifests h) (delete (ManifestID target) (manifests h)).
Proof.
  intros Hk Ht H. split; [apply delete_subseteq|]. intros id m chain Hm Hl.
  apply lookup_delete_Some in Hm as [Hne Hm]. unfold deleteUnlessNeeded in H.
  set (byID := by_id _) in H. pose proof (Hk _ _ Hm) as Hid.
  destruct (decide (SpecID (ManifestWorkload m) = SpecID (ManifestWorkload target))) as [Hw|Hw].
  - eapply (lineage_without _ byID _ _ Hk); [|by instantiate (1 := 256%nat); lia| |exact Hl].
    + intros i x Hx Hxw. apply by_id_listed; [done|]. split; [done|]. right. congruence.
    + eapply needed_by_sound; [exact H| |congruence]. apply list_elem_of_fmap.
      exists (id, m). split; [done|]. apply elem_of_map_to_list, by_id_listed; [done|].
      split; [done|]. by right.
  - by eapply lineage_elsewhere.
Qed.

(** ** Deleting and pruning *)

Section retention.
Context (okE : kernel → Prop).

Definition holds (M : gmap string CheckpointManifest) (h : host) : Prop := manifests h = M.

Lemma holds_reap M : reap_closed (holds M).
Proof. intros e h Hh. exact Hh. Qed.

(** What one deletion may do. *)
Definition deleted_at_most (M : gmap string CheckpointManifest) (id : string) (h : host) : Prop :=
  holds M h ∨ holds (delete id M) h ∧ keeps_lineages M (delete id M).

Lemma deleted_at_most_reap M id : reap_closed (deleted_at_most M id).
Proof. intros e h Hh. exact Hh. Qed.

Lemma DeleteManifest_spec M id :
  keeps_lineages M (delete id M) →
  triple okE (holds M) (alone (DeleteManifest id))
    (λ _, deleted_at_most M id) (deleted_at_most M id).
Proof.
  intros HM. unfold DeleteManifest. apply (alone_bind _ _ _ _ (λ _, deleted_at_most M id)).
  - apply call_act; [apply holds_reap|by left|]. intros e h _ Hh. unfold holds in Hh.
    destruct (validateID id); [|by left]. destruct (manifests h !! id); [|by left].
    destruct (ok e); [|by left]. right. split; [|done]. by rewrite <- Hh.
  - intros [[]|err]; [|by apply alone_ret].
    apply call_maintains; [|done]. apply maintains_try; [apply deleted_at_most_reap|done].
Qed.

Lemma DeleteCheckpoint_spec M id :
  keyed M →
  triple okE (holds M) (alone (DeleteCheckpoint id))
    (λ _, deleted_at_most M id) (deleted_at_most M id).
Proof.
  intros Hk. unfold DeleteCheckpoint. apply call_look; [apply holds_reap|by left|].
  intros e h _ Hh. unfold LoadCheckpoint.
  destruct (ok e); [|apply alone_ret; intros ? ->; by left].
  destruct (manifests h !! id) as [m|] eqn:Hm; [|apply alone_ret; intros ? ->; by left].
  match goal with |- context [Ok m ≫= ?f] => change (Ok m ≫= f) with (deleteUnlessNeeded h m) end.
  destruct (deleteUnlessNeeded h m) as [[]|] eqn:Hn; [|apply alone_ret; intros ? ->; by left].
  unfold holds in Hh. subst M. eapply triple_pre; [|apply (DeleteManifest_spec (manifests h))].
  - by intros ? ->.
  - rewrite <- (Hk _ _ Hm). apply deleteUnlessNeeded_sound; [done| |done]. by rewrite (Hk _ _ Hm).
Qed.

(** What a pruning leaves: the lineages of what it keeps, and everything it
    was not asked to delete. *)
Definition pruned (M : gmap string CheckpointManifest) (ids : list string) (h : host) : Prop :=
  keeps_lineages M (manifests h) ∧ ∀ id, id ∉ ids → manifests h !! id = M !! id.

Lemma pruned_refl M ids h : holds M h → pruned M ids h.
Proof. intros <-. by split. Qed.

Lemma pruned_step M ids id h h' :
  pruned M ids h → id ∈ ids → deleted_at_most (manifests h) id h' → pruned M ids h'.
Proof.
  intros [Hl Hs] Hid [Heq|[Heq HM]]; unfold holds in Heq.
  - split; rewrite Heq; done.
  - split; rewrite Heq; [by etrans|]. intros i Hi. rewrite lookup_delete_ne by congruence. by apply Hs.
Qed.

Lemma delete_all_spec M ids : ∀ todo acc,
  keyed M → (∀ id, id ∈ todo → id ∈ ids) →
  triple okE (pruned M ids) (alone (delete_all todo acc)) (λ _, pruned M ids) (pruned M ids).
Proof.
  induction todo as [|id todo IH]; intros acc Hk Hin; [by apply alone_ret|]. cbn [delete_all].
  apply triple_at. intros h0 H0.
  assert (keyed (manifests h0)) as Hk0 by (eapply keyed_subseteq; [apply H0|done]).
  assert (∀ h, deleted_at_most (manifests h0) id h → pruned M ids h) as Hstep.
  { intros h. apply pruned_step; [done|]. apply Hin. left. }
  apply (alone_bind _ _ _ _ (λ _, pruned M ids)).
  - eapply triple_conseq; [apply (DeleteCheckpoint_spec (manifests h0) id Hk0)| | |]; [by intros ? ->|auto..].
  - intros [[]|err]; [|by apply alone_ret]. apply IH; [done|]. intros i Hi. apply Hin. by right.
Qed.
End retention.

Lemma protect_subseteq byID : ∀ fuel parent protected,
  protected ⊆ protect byID fuel parent protected.
Proof.
  induction fuel as [|fuel IH]; intros parent protected; cbn [protect]; [done|].
  destruct (decide _); [done|]. destruct (byID !! parent); [|done]. destruct (decide _); [done|].
  etrans; [|apply IH]. apply union_subseteq_r.
Qed.

Lemma protected_by_kept summaries kept m :
  m ∈ kept → ManifestID m ∈ protected_by summaries kept.
Proof.
  unfold protected_by. generalize (∅ : gset string) as acc.
  assert (∀ l acc, acc ⊆ foldl (λ protected m, protect (by_id summaries) (S (length summaries))
      (ParentID m) ({[ManifestID m]} ∪ protected)) acc l) as Hmono.
  { induction l as [|x l IH]; intros acc; cbn [foldl]; [done|]. etrans; [|apply IH].
    etrans; [|apply protect_subseteq]. apply union_subseteq_r. }
  induction kept as [|x kept IH]; intros acc Hm; [by apply elem_of_nil in Hm|].
  cbn [foldl]. apply elem_of_cons in Hm as [->|Hm]; [|by apply IH].
  apply Hmono, protect_subseteq. apply elem_of_union_l. by apply elem_of_singleton.
Qed.

(** C21.  Retention never breaks a checkpoint it keeps.  Whatever the
    machine answers and wherever the agent dies while it prunes a workload
    to its newest [keepLast] checkpoints, those checkpoints are still
    stored, nothing new appears, and every checkpoint that remains, of this
    or of any other workload, still has the lineage it had. *)
Theorem prune_retains (workloadID : string) (keepLast : Z) (h : host) (es : list kernel) :
  keyed (manifests h) →
  let h' := final (alone (PruneWorkload workloadID keepLast) h es) in
  keeps_lineages (manifests h) (manifests h') ∧
  ∀ m, m ∈ take (Z.to_nat keepLast) (ListCheckpoints h workloadID) →
    manifests h' !! ManifestID m = Some m.
Proof.
  intros Hk h'.
  set (n := Z.to_nat keepLast). set (summaries := ListCheckpoints h workloadID).
  set (todo := filter (λ id, id ∉ protected_by summaries (take n summaries))
                 (ManifestID <$> drop n summaries)).
  assert (pruned (manifests h) todo h') as [Hl Hs].
  { enough (triple (λ _, True) (λ s, s = h) (alone (PruneWorkload workloadID keepLast))
      (λ _, pruned (manifests h) todo) (pruned (manifests h) todo)) as H.
    { specialize (H h es (Forall_true _ _ (λ _, I)) eq_refl). unfold h', final.
      destruct (alone _ h es) as [[[r|] s] es']; naive_solver. }
    unfold PruneWorkload. destruct (keepLast <? 0); [apply alone_ret; by intros ? ->|].
    apply triple_pre with (P' := λ s, manifests s = manifests h); [by intros ? ->|].
    apply call_look; [intros e s Hs; exact Hs|intros s Hs; by apply pruned_refl|]. intros e s _ Hs.
    assert (ListCheckpoints s workloadID = summaries) as ->.
    { unfold summaries, ListCheckpoints. by rewrite Hs. }
    destruct (_ <=? _); [apply alone_ret; intros ? ->; by apply pruned_refl|].
    eapply triple_pre; [|by apply delete_all_spec]. intros ? ->. by apply pruned_refl. }
  split; [done|]. intros m Hm.
  assert (m ∈ summaries) as Hin.
  { rewrite <- (take_drop n summaries). apply elem_of_app. by left. }
  apply elem_of_ListCheckpoints in Hin as (_ & id & Hid). rewrite Hs; [by rewrite (Hk _ _ Hid)|].
  intros [Hnot _]%list_elem_of_filter. apply Hnot. by apply protected_by_kept.
Qed.

(** ** Examples *)

(** A running workload with a full checkpoint, an incremental one over it,
    and an older one that nothing needs. *)
Definition demo_repository : host :=
  demo_host <| manifests := <["cp-0" := full <| ManifestID := "cp-0" |> <| ManifestCreatedAt := 0 |>]>
                            {["cp-1" := full; "cp-2" := incremental <| ManifestCreatedAt := 5 |>]} |>.

Lemma keyed_demo : keyed (manifests demo_repository).
Proof.
  assert (map_Forall (λ id m, ManifestID m = id) (manifests demo_repository)) as H.
  { apply (bool_decide_unpack _). vm_compute. done. }
  intros id m Hm. exact (H id m Hm).
Qed.

Lemma prune_retains_witness :
  let h' := final (alone (PruneWorkload "w-1" 1) demo_repository (replicate 20 willing)) in
  dom (manifests h') = {["cp-1"; "cp-2"]} ∧ keeps_lineages (manifests demo_repository) (manifests h').
Proof.
  split.
  - apply (bool_decide_unpack _). vm_compute. done.
  - apply (prune_retains "w-1" 1 demo_repository (replicate 20 willing)). exact keyed_demo.
Defined.

Definition incremental_over (parent : string) : CreateOptions :=
  {| OptionKind := ""; OptionParentID := parent; OptionLeaveRunning := true;
     OptionTCPState := false |}.

(** A checkpoint over [cp-1], while [cp-1] is deleted. *)
Definition taking : call unit :=
  done_with (CreateCheckpoint ["var"] "m-1" false "w-1" (incremental_over "cp-1")).
Definition deleting : call unit := done_with (DeleteCheckpoint "cp-1").

(** Deleting a checkpoint can orphan one that is being taken.
    The check that nothing needs the checkpoint and its removal are separate
    steps, and a checkpoint on top of it may be stored in between: the new
    checkpoint is reported as created, and its lineage is broken. *)
Theorem racing_delete_orphans :
  ∃ h0 c, manifests h0 = {["cp-1" := full]} ∧
    rtc (sys_step (λ t, t = taking ∨ t = deleting)) (Build_system h0 []) c ∧
    threads c = [Done tt; Done tt] ∧ manifests (shared c) !! "cp-1" = None ∧
    ∃ m, manifests (shared c) !! "id-1" = Some m ∧ ParentID m = "cp-1" ∧
      lineage (load_from (manifests (shared c))) m = Err "load checkpoint parent".
Proof.
  set (h0 := demo_host <| manifests := {["cp-1" := full]} |>).
  set (picks := (λ i, (i, willing)) <$> replicate 20 0%nat ++ [1%nat] ++ replicate 60 0%nat ++ [1; 1]%nat).
  exists h0, (schedule picks (Build_system h0 [taking; deleting])).
  split; [done|]. split; [|split; [vm_compute; reflexivity|split; [vm_compute; reflexivity|]]].
  - etrans; [|apply schedule_steps]. apply (spawn_steps _ _ []).
    constructor; [by left|]. constructor; [by right|done].
  - destruct (manifests _ !! "id-1") as [m|] eqn:Hm; [|by vm_compute in Hm].
    exists m. split; [done|]. vm_compute in Hm. injection Hm as <-. vm_compute. done.
Qed.
