(* ===== verification/LiveChain.v ===== *)
(** * Live checkpoints restore

    What a live session packages, pass by pass, is what a restore plays back:
    [Pass] and [Finalize] against [processImageAssets] and the lineage walk. *)
From S2P Require Import Prelude Float64 GoStr Model Workload Prog Conc Network Host Runtime Restorer Chain Checkpoint.

Local Open Scope string_scope.
Local Open Scope list_scope.
Local Open Scope Z_scope.

(** ** Names of passes *)

Lemma TrimPrefix_app pre s : TrimPrefix (pre +:+ s) pre = s.
Proof. induction pre as [|a pre IH]; simpl; [by destruct s|]. by rewrite decide_True by done. Qed.

Lemma HasPrefix_app pre s : HasPrefix (pre +:+ s) pre = true.
Proof. induction pre as [|a pre IH]; simpl; [by destruct s|].
  by rewrite bool_decide_eq_true_2.
Qed.

Lemma Atoi_Itoa n : 1 ≤ n ≤ 16 → Atoi (Itoa n) = Ok n.
Proof.
  intros Hn. assert (n ∈ Z.of_nat <$> seq 1 16) as H.
  { apply list_elem_of_fmap. exists (Z.to_nat n). rewrite elem_of_seq. lia. }
  vm_compute in H. repeat (apply elem_of_cons in H as [->|H]; [vm_compute; reflexivity|]).
  by apply elem_of_nil in H.
Qed.

Definition pass_name (i : nat) : string := precopy_prefix +:+ Itoa (Z.of_nat i + 1).

Lemma pass_name_is_pass i a : AssetName a = pass_name i → is_pass a.
Proof. intros Ha. unfold is_pass. rewrite Ha. split; [done|apply HasPrefix_app]. Qed.

Lemma pass_name_number i a :
  AssetName a = pass_name i → (i < 16)%nat → pass_number a = Ok (Z.of_nat i + 1).
Proof. intros Ha Hi. unfold pass_number. rewrite Ha. unfold pass_name. rewrite TrimPrefix_app. apply Atoi_Itoa. lia. Qed.

(** Passes numbered in order are collected under their numbers. *)
Lemma collect_named passes : ∀ k byIndex,
  (∀ i a, passes !! i = Some a → AssetName a = pass_name (k + i)) → (k + length passes ≤ 16)%nat →
  (∀ n, is_Some (byIndex !! n) → n ≤ Z.of_nat k) →
  ∃ byIndex', collect_passes passes byIndex = Ok byIndex' ∧
    size byIndex' = (size byIndex + length passes)%nat ∧
    (∀ n, n ≤ Z.of_nat k → byIndex' !! n = byIndex !! n) ∧
    (∀ i a, passes !! i = Some a → byIndex' !! (Z.of_nat (k + i) + 1) = Some a).
Proof.
  induction passes as [|a passes IH]; intros k byIndex Hn Hlen Hold; cbn [collect_passes].
  { exists byIndex. split_and!; [done|simpl; lia|done|done]. }
  assert (AssetName a = pass_name k) as Ha by (rewrite (Hn 0%nat a) by done; f_equal; lia).
  destruct (pass_name_is_pass _ _ Ha) as [Hne Hpre].
  pose proof (pass_name_number _ _ Ha ltac:(simpl in Hlen; lia)) as Hnum. unfold pass_number in Hnum.
  rewrite (bool_decide_eq_false_2 _ Hne), Hpre, Hnum. cbn [orb negb].
  replace (Z.of_nat k + 1 <? 1) with false by (symmetry; apply Z.ltb_ge; lia).
  assert (byIndex !! (Z.of_nat k + 1) = None) as Hfree.
  { apply eq_None_not_Some. intros H%Hold. lia. }
  rewrite decide_False by (rewrite Hfree; intros [? [=]]).
  destruct (IH (S k) (<[Z.of_nat k + 1 := a]> byIndex)) as (byIndex' & -> & Hsize & Hlow & Hall).
  - intros i b Hb. rewrite (Hn (S i) b) by done. f_equal. lia.
  - simpl in Hlen. lia.
  - intros n [b Hb]. destruct (decide (n = Z.of_nat k + 1)) as [->|Hnk]; [lia|].
    rewrite lookup_insert_ne in Hb by done. specialize (Hold n (mk_is_Some _ _ Hb)). lia.
  - exists byIndex'. split_and!; [done| | |].
    + rewrite Hsize, map_size_insert_None by done. simpl. lia.
    + intros n Hk. rewrite Hlow by lia. rewrite lookup_insert_ne by lia. done.
    + intros [|i] b Hb; simpl in Hb.
      * replace (Z.of_nat (k + 0) + 1) with (Z.of_nat k + 1) by lia. rewrite Hlow by lia.
        by rewrite lookup_insert_eq.
      * rewrite <- (Hall i b Hb). f_equal. lia.
Qed.

Lemma contiguous_named (byIndex : gmap Z AssetManifest) passes : ∀ k,
  (∀ i a, passes !! i = Some a → byIndex !! (k + Z.of_nat i) = Some a) →
  contiguous (length passes) k byIndex = Ok passes.
Proof.
  induction passes as [|a passes IH]; intros k H; cbn [contiguous length]; [done|].
  replace k with (k + Z.of_nat 0) at 1 by lia. rewrite (H 0%nat a) by done.
  rewrite IH; [done|]. intros i b Hb. rewrite <- (H (S i) b) by done. f_equal. lia.
Qed.

(** A manifest that lists its files, its final image and its passes in order
    gives them back. *)
Lemma processImageAssets_named m files image passes :
  Assets m = [files; image] ++ passes →
  AssetName files = "filesystem-root" → AssetName image = "process-state" →
  (∀ i a, passes !! i = Some a → AssetName a = pass_name i) → (length passes ≤ 16)%nat →
  processImageAssets m = Ok (image, passes).
Proof.
  intros Hm Hf Hi Hn Hlen. unfold processImageAssets, assetByName. rewrite Hm. cbn [app list_find].
  rewrite decide_False by (by rewrite Hf). rewrite decide_True by done. cbn [fmap option_fmap option_map prod_map snd].
  cbn [collect_passes]. rewrite (bool_decide_eq_false_2 (AssetName files = _)) by (by rewrite Hf).
  rewrite Hf. rewrite (bool_decide_eq_true_2 _ Hi). cbn [orb negb].
  destruct (collect_named passes 0 ∅) as (byIndex & Hc & Hsize & _ & Hall); [done|lia| |].
  { intros n [? [=]]. }
  replace (HasPrefix "filesystem-root" precopy_prefix) with false by done. cbn [negb].
  rewrite Hc. rewrite map_size_empty in Hsize. cbn [plus] in Hsize.
  cbn. rewrite Hsize, (contiguous_named byIndex passes 1); [done|].
  intros i a Ha. rewrite <- (Hall i a Ha). f_equal. lia.
Qed.

(** ** The session *)

(** Every chunk of an asset is under one key version. *)
Definition under_key (key : Z) (a : AssetManifest) : Prop :=
  ∀ r, r ∈ Chunks a → KeyVersion r = key.

(** What holds of a session between two calls. *)
Record session_ok (l : LiveSession) : Prop := {
  ok_images : length (passImages l) = length (passAssets l);
  ok_limit : 1 ≤ passLimit l ≤ 16;
  ok_cap : Z.of_nat (length (passAssets l)) ≤ passLimit l;
  ok_names : ∀ i a, passAssets l !! i = Some a → AssetName a = pass_name i;
  ok_keys : ∀ a, a ∈ passAssets l → under_key (sessionKey l) a;
}.

Lemma requireKeyVersion_sound l a : requireKeyVersion l a = Ok tt → under_key (sessionKey l) a.
Proof.
  unfold requireKeyVersion, require. destruct (forallb _ _) eqn:H; [|done]. intros _ r Hr.
  rewrite forallb_forall in H. by apply Z.eqb_eq, H, list_elem_of_In.
Qed.

Lemma yields_attempt {A B} (t : call (result A)) (k : A → call (result B)) (Q : A → Prop)
    (R : result B → Prop) :
  yields t (λ r, match r with Ok a => Q a | Err _ => True end) →
  (∀ a, Q a → yields (k a) R) → (∀ err, R (Err err)) → yields (attempt t k) R.
Proof.
  intros Ht Hk He. unfold attempt. eapply yields_bind; [exact Ht|].
  intros [a|err] Ha; [by apply Hk|]. apply yields_ret, He.
Qed.

Lemma yields_attempt_skip {A B} (t : call (result A)) (k : A → call (result B)) (R : result B → Prop) :
  (∀ a, yields (k a) R) → (∀ err, R (Err err)) → yields (attempt t k) R.
Proof.
  intros Hk He. eapply (yields_attempt _ _ (λ _, True)); [|done..].
  eapply yields_mono; [|apply yields_any]. by intros [].
Qed.

Lemma captureDirectory_yields name order :
  yields (captureDirectory name order)
    (λ r, match r with Ok x => AssetName x.1 = name | Err _ => True end).
Proof. apply yields_atomic. intros e h. simpl. by destruct (ok e). Qed.

Section session.
Context (stateDir : path) (machine : string) (mirrored : bool).

Lemma Pass_ok l : session_ok l → yields (Pass stateDir l) (λ out, session_ok out.1).
Proof.
  intros Hl. unfold Pass. repeat case_match; try by apply yields_ret. clear H H0 H1.
  rename H2 into Hcap. apply Z.leb_gt in Hcap. rewrite (ok_images l Hl) in *.
  eapply (yields_bind _ _ (λ r, match r with
    | Ok x => AssetName x.1 = pass_name (length (passAssets l)) ∧ under_key (sessionKey l) x.1
    | Err _ => True end)).
  - apply yields_attempt_skip; [|done]. intros _. apply yields_attempt_skip; [|done]. intros _.
    eapply yields_attempt; [apply captureDirectory_yields| |done]. intros x Hx.
    eapply (yields_attempt _ _ (λ _, under_key (sessionKey l) x.1)); [| |done].
    + apply yields_ret. destruct (requireKeyVersion l x.1) as [[]|] eqn:Hk; [|done].
      by apply requireKeyVersion_sound.
    + intros _ Hk. by apply yields_ret.
  - intros [[asset dedup]|err] Hx; [|apply yields_ret; by destruct Hl].
    destruct Hx as [Hname Hkey]. apply yields_skip. intros [delta measured]. cbn [fst snd].
    match goal with |- context [measure ?x _ _ _] => set (l' := x) end.
    assert (session_ok l') as Hl'.
    { destruct Hl as [H1 H2 H3 H4 H5]. split; simpl.
      - rewrite !length_app. simpl. lia.
      - done.
      - rewrite length_app. simpl. lia.
      - intros i a [Ha|[Hi Ha]]%lookup_app_Some; [by apply H4|].
        destruct (i - length (passAssets l))%nat as [|k] eqn:Hk; [|done]. simplify_eq/=.
        rewrite Hname. f_equal. lia.
      - intros a [Ha|Ha%list_elem_of_singleton]%elem_of_app; [by apply H5|by subst]. }
    destruct (measure _ _ _ _) as [l2 more] eqn:Hm. apply yields_ret. simpl. revert Hm.
    unfold measure. repeat case_match; intros [= <- _]; destruct Hl'; done.
Qed.

Lemma BeginLive_ok id o :
  yields (BeginLive stateDir id o) (λ r, match r with Ok l => session_ok l | Err _ => True end).
Proof.
  unfold BeginLive. apply yields_skip. intros [[]|err]; [|by apply yields_ret].
  eapply (yields_bind _ _ (λ r, match r with Ok l => session_ok l | Err _ => True end)).
  - apply yields_attempt_skip; [|done]. intros found. apply yields_attempt_skip; [|done].
    intros engine. apply yields_attempt_skip; [|done]. intros _. apply yields_skip.
    intros [key|err]; apply yields_skip; [intros now|intros ?]; apply yields_ret; [|done].
    split; simpl; [done|unfold clamp_passes; lia..| |]; [done|]. by intros a ?%elem_of_nil.
  - intros [l|err] Hl; [by apply yields_ret|]. by apply yields_skip.
Qed.

(** What a finished session's manifest promises. *)
Definition restorable_manifest (l : LiveSession) (m : CheckpointManifest) : Prop :=
  (∀ load, lineage load m = Ok [m]) ∧
  (∃ last, processImageAssets m = Ok (last, passAssets l)) ∧
  (∀ a, a ∈ Assets m → under_key (SecurityKeyVersion (Security m)) a) ∧
  EnginePreCopyPasses (Engine m) = Z.of_nat (length (passAssets l)) ∧
  (length (passAssets l) ≤ 16)%nat ∧
  RequiredBytes m = foldr (λ a n, AssetPlainSize a + n) 0 (Assets m).

Lemma record_live_ok l :
  session_ok l →
  yields (record_live machine l)
    (λ r, match r with Ok m => restorable_manifest l m | Err _ => True end).
Proof.
  intros Hl. unfold record_live.
  eapply yields_attempt; [apply captureDirectory_yields| |done]. intros image Himage.
  eapply (yields_attempt _ _ (λ _, under_key (sessionKey l) image.1)); [| |done].
  { apply yields_ret. destruct (requireKeyVersion l image.1) as [[]|] eqn:Hk; [|done].
    by apply requireKeyVersion_sound. }
  intros _ Hik. eapply yields_attempt; [apply captureDirectory_yields| |done]. intros files Hfiles.
  eapply (yields_attempt _ _ (λ _, under_key (sessionKey l) files.1)); [| |done].
  { apply yields_ret. destruct (requireKeyVersion l files.1) as [[]|] eqn:Hk; [|done].
    by apply requireKeyVersion_sound. }
  intros _ Hfk. apply yields_attempt_skip; [|done]. intros compat. apply yields_skip. intros now.
  eapply (yields_attempt _ _ (restorable_manifest l)); [| |done].
  - unfold SignManifest. apply yields_attempt_skip; [|done]. intros digest. apply yields_skip.
    intros signature. apply yields_ret. destruct Hl as [Hi Hlim Hcap Hn Hk]. split_and!.
    + done.
    + exists image.1. by eapply processImageAssets_named; [reflexivity|done|done|done|lia].
    + cbn. intros a Ha. rewrite !elem_of_cons in Ha. destruct Ha as [->|[->|Ha]]; [done..|]. by apply Hk.
    + cbn. lia.
    + lia.
    + done.
  - intros m Hm. apply yields_attempt_skip; [|done]. intros _. by apply yields_ret.
Qed.

(** A session from its first call to its last: [n] calls of [Pass], whatever
    each of them reports, and the frozen window. *)
Fixpoint live_passes (n : nat) (l : LiveSession) : call LiveSession :=
  match n with
  | O => mret l
  | S n => out ← Pass stateDir l; live_passes n out.1
  end.

Definition live_checkpoint (id : string) (o : LiveOptions) (n : nat)
    : call (result (LiveSession * creation)) :=
  began ← BeginLive stateDir id o;
  match began with
  | Err err => mret (Err err)
  | Ok l => l ← live_passes n l;
            out ← Finalize stateDir machine mirrored l;
            mret (Ok out)
  end.

Lemma live_passes_ok n : ∀ l, session_ok l → yields (live_passes n l) session_ok.
Proof.
  induction n as [|n IH]; intros l Hl; [by apply yields_ret|]. cbn [live_passes].
  eapply yields_bind; [by apply Pass_ok|]. intros out Hout. by apply IH.
Qed.

Definition durable_ok (out : LiveSession * creation) : Prop :=
  match out.2 with
  | Created m | Persisted m _ => restorable_manifest out.1 m
  | NotCreated _ => True
  end.

Lemma keep_live_books_ok l m :
  restorable_manifest l m → yields (keep_live_books stateDir mirrored l m) durable_ok.
Proof.
  intros Hm. unfold keep_live_books. apply yields_skip. intros [[]|err]; [|by apply yields_ret].
  apply yields_skip. intros [still|err]; [|by apply yields_ret]. apply yields_skip.
  intros [w|err]; by apply yields_ret.
Qed.

Lemma Finalize_ok l : session_ok l → yields (Finalize stateDir machine mirrored l) durable_ok.
Proof.
  intros Hl. unfold Finalize. destruct (closed l); [by apply yields_ret|].
  destruct (passFailed l); [by apply yields_ret|].
  apply (yields_bind _ _ durable_ok); [|intros out Hout; do 2 (apply yields_skip; intros _); by apply yields_ret].
  unfold finalize_open. apply yields_skip. intros [now|err]; [|by apply yields_ret].
  apply yields_skip. intros [early|err]; [|by apply yields_ret].
  match goal with |- context [record_live machine ?x] => assert (session_ok x) as Hx end.
  { destruct early; destruct Hl; done. }
  eapply yields_bind; [by apply record_live_ok|]. intros [m|err] Hm; [|by apply yields_ret].
  by apply keep_live_books_ok.
Qed.
End session.

(** C25.  A live checkpoint restores.  However many passes a session
    runs, whatever they report, and whatever else happens on the machine in
    between, a manifest that [Finalize] stored is accepted by the restore
    that reads it: it has no parent, its process images are its own final
    set preceded by exactly the passes the session packaged, in the order
    they ran, at most 16 of them, every chunk of every asset is under the
    one key version the manifest names, and the size it requires is the sum
    of its assets. *)
Theorem live_roundtrip (stateDir : path) (machine : string) (mirrored : bool) (id : string)
    (o : LiveOptions) (n : nat) :
  yields (live_checkpoint stateDir machine mirrored id o n)
    (λ r, match r with
          | Ok (l, Created m) | Ok (l, Persisted m _) => restorable_manifest l m
          | _ => True
          end).
Proof.
  unfold live_checkpoint. eapply yields_bind; [apply BeginLive_ok|].
  intros [l|err] Hl; [|by apply yields_ret].
  eapply yields_bind; [by apply live_passes_ok|]. intros l' Hl'.
  eapply yields_bind; [by apply Finalize_ok|]. intros [l2 c] Hout. by apply yields_ret.
Qed.

(** Three calls of [Pass] on a session that caps at two passes. *)
Lemma live_checkpoint_example :
  let o := {| LivePasses := 2; LiveConvergence := 0; LiveLeaveRunning := false;
              LiveTCPState := false |} in
  match returned (alone (live_checkpoint ["var"] "m-1" false "w-1" o 3) demo_host
                    (replicate 60 willing)) with
  | Some (Ok (_, Created m)) => AssetName <$> Assets m =
      ["filesystem-root"; "process-state"; "process-state-precopy-1"; "process-state-precopy-2"]
  | _ => False
  end.
Proof. vm_compute. reflexivity. Qed.
