(* ===== verification/CheckpointSafe.v ===== *)
(** * What taking a checkpoint does to the workload

    The frozen window of [CreateCheckpoint] and of [Finalize]: what is
    stored, what the record says and whether the process runs, on every
    outcome. *)
From S2P Require Import Prelude Float64 GoStr Model Workload Prog Conc Network Host Runtime Restorer Chain Checkpoint.

Local Open Scope string_scope.
Local Open Scope list_scope.
Local Open Scope Z_scope.

(** ** Calls without effect on workloads *)

(** The records, the manifests and the guards stay, and no process changes. *)
Definition frame (h h' : host) : Prop :=
  workloads h' = workloads h ∧ manifests h' = manifests h ∧
  createInFlight h' = createInFlight h ∧ procs h' ⊆ procs h.

#[export] Instance frame_preorder : PreOrder frame.
Proof.
  split; [done|]. intros h1 h2 h3 (H1 & H2 & H3 & H4) (H1' & H2' & H3' & H4').
  split_and!; [congruence..|]. by etrans.
Qed.

Lemma frame_reap e h : frame h (reap e h).
Proof. split_and!; [done..|]. apply map_filter_subseteq. Qed.

Lemma frame_act {A} (f : kernel → host → host * A) :
  (∀ e h, frame h (fst (f e h))) → guarantees frame (act f).
Proof. intros H. apply guarantees_atomic. intros e h. etrans; [apply frame_reap|apply H]. Qed.

Lemma frame_look {A} (f : kernel → host → A) : guarantees frame (look f).
Proof. by apply frame_act. Qed.

Lemma frame_try err (f : kernel → host → host) :
  (∀ e h, frame h (f e h)) → guarantees frame (try err f).
Proof. intros H. apply frame_act. intros e h. by case_match; [apply H|]. Qed.

Lemma frame_succeeds err : guarantees frame (succeeds err).
Proof. by apply frame_try. Qed.

Lemma frame_preflight errs : guarantees frame (preflight errs).
Proof.
  induction errs as [|err errs IH]; [done|]. unfold preflight; fold preflight.
  apply guarantees_bind; [apply frame_succeeds|]. by intros [].
Qed.

Lemma frame_attempt {A B} (t : call (result A)) (k : A → call (result B)) :
  guarantees frame t → (∀ a, guarantees frame (k a)) → guarantees frame (attempt t k).
Proof. intros Ht Hk. apply guarantees_bind; [done|]. by intros []. Qed.

Lemma frame_MkdirAll p : guarantees frame (MkdirAll p).
Proof. apply frame_try. intros e h. by case_match. Qed.

Lemma frame_RemoveAll p : guarantees frame (RemoveAll p).
Proof. apply guarantees_bind; [by apply frame_act|]. intros _. by apply frame_try. Qed.

Lemma frame_extract_sets sets : ∀ target, guarantees frame (extract_sets sets target).
Proof.
  induction sets as [|set sets IH]; intros target; [done|]. cbn [extract_sets].
  apply guarantees_bind; [|by intros []].
  induction set as [|a set IHs]; [done|]. apply guarantees_bind; [by apply frame_act|]. by intros [].
Qed.

Lemma frame_check_chain chain : guarantees frame (check_chain chain).
Proof.
  induction chain as [|m chain IH]; [done|]. cbn [check_chain].
  destruct (processImageAssets m) as [[last passes]|]; [|done].
  apply guarantees_bind; [apply frame_preflight|]. intros []; [|done].
  apply guarantees_bind; [done|]. by intros [].
Qed.

Lemma frame_materialize m p : guarantees frame (materializeProcessChain m p).
Proof.
  apply guarantees_bind.
  - apply guarantees_bind; [apply frame_look|]. intros []; [apply frame_check_chain|done].
  - intros []; [apply frame_extract_sets|done].
Qed.

Lemma frame_ret {A} (a : A) : guarantees frame (mret a : call A).
Proof. exact I. Qed.

Create HintDb frame.
#[export] Hint Resolve frame_look frame_succeeds frame_preflight frame_MkdirAll frame_RemoveAll
  frame_materialize frame_ret : frame.

Ltac solve_frame :=
  repeat first
    [ progress intros | solve [auto with frame]
    | apply frame_attempt | apply guarantees_bind
    | match goal with |- guarantees frame (if ?b then _ else _) => destruct b end
    | match goal with |- guarantees frame (match ?r with _ => _ end) => destruct r end ].

Lemma frame_captureDirectory name order : guarantees frame (captureDirectory name order).
Proof. apply frame_look. Qed.
Lemma frame_time : guarantees frame time.
Proof. apply frame_look. Qed.
#[export] Hint Resolve frame_captureDirectory frame_time : frame.

Lemma frame_SignManifest machine m : guarantees frame (SignManifest machine m).
Proof. unfold SignManifest. solve_frame. Qed.
Lemma frame_describe : guarantees frame describe_machine.
Proof. unfold describe_machine. solve_frame. Qed.
Lemma frame_ready : guarantees frame ready_engine.
Proof. unfold ready_engine. solve_frame. Qed.
Lemma frame_find id : guarantees frame (find_live id).
Proof. apply frame_look. Qed.
Lemma frame_PreDump p images : guarantees frame (PreDump p images).
Proof. apply frame_act. intros e h. by case_match. Qed.
Lemma frame_Mirror mirrored id : guarantees frame (MirrorCheckpoint mirrored id).
Proof. unfold MirrorCheckpoint. solve_frame. Qed.
Lemma frame_parent_images w parent p : guarantees frame (materializeParentImages w parent p).
Proof. unfold materializeParentImages. solve_frame. Qed.
#[export] Hint Resolve frame_SignManifest frame_describe frame_ready frame_find frame_PreDump
  frame_Mirror frame_parent_images : frame.

(** ** The workload during a checkpoint *)

Definition anywhere (h : host) : Prop := True.
Definition any_answer (e : kernel) : Prop := True.

(** Every process of a group runs, or is stopped. *)
Definition all_frozen (g : Z) (b : bool) (h : host) : Prop :=
  ∀ pid q, procs h !! pid = Some q → group q = g → frozen q = b.

Lemma attempt_spec {A B} okE P (t : call (result A)) (k : A → call (result B)) Q E R C :
  triple okE P (alone t) (λ r h, match r with Ok a => Q a h | Err _ => E h end) C →
  (∀ a, triple okE (Q a) (alone (k a)) R C) → (∀ err h, E h → R (Err err) h) →
  triple okE P (alone (attempt t k)) R C.
Proof.
  intros Ht Hk He. eapply alone_bind; [exact Ht|]. intros [a|err]; [apply Hk|].
  apply alone_ret, He.
Qed.

(** The processes of the group a signal leaves behind. *)
Lemma deliver_frozen s g m pid q b :
  (s = SIGSTOP ∧ b = true ∨ s = SIGCONT ∧ b = false) →
  deliver s (in_group g) m !! pid = Some q → group q = g → frozen q = b.
Proof.
  intros Hs. unfold deliver. rewrite map_lookup_imap. intros (q0 & Hq0 & H)%bind_Some Hg.
  unfold in_group in H. destruct (group q0 =? g) eqn:E.
  - destruct Hs as [[-> ->]|[-> ->]]; by injection H as <-.
  - injection H as <-. apply Z.eqb_neq in E. done.
Qed.

Section window.
Context (w : Workload) (p : ProcessState).
Let wid : string := SpecID (Spec w).

(** The record is still that of the process, in a known state when one is
    given; the processes run or are stopped when that is known. *)
Definition held (M : gmap string CheckpointManifest) (G : gset string)
    (st : option WorkloadStatus) (fz : option bool) (h : host) : Prop :=
  (∃ v, workloads h !! wid = Some v ∧ Spec v = Spec w ∧ Process v = Some p ∧
        ∀ s, st = Some s → Status v = s) ∧
  (∀ b, fz = Some b → all_frozen (PGID p) b h) ∧ manifests h = M ∧ createInFlight h = G.

Lemma held_frame M G st fz h h' : frame h h' → held M G st fz h → held M G st fz h'.
Proof.
  intros (Hw & Hm & Hc & Hp) (Hv & Hf & HM & HG). unfold held. rewrite Hw, Hm, Hc.
  split_and!; try done. intros b Hb pid q Hq. apply (Hf b Hb pid). by eapply lookup_weaken.
Qed.

Lemma held_reap M G st fz : reap_closed (held M G st fz).
Proof. intros e h. apply held_frame, frame_reap. Qed.

Lemma held_weaken M G st fz st' fz' h :
  held M G st fz h → (∀ s, st' = Some s → st = Some s) → (∀ b, fz' = Some b → fz = Some b) →
  held M G st' fz' h.
Proof.
  intros ((v & Hv & Hs & Hp & Hst) & Hf & HM & HG) H1 H2. split_and!; try done; [|by auto].
  exists v. split_and!; auto.
Qed.

Lemma held_any M G st fz h : held M G st fz h → held M G None None h.
Proof. intros H. by eapply held_weaken. Qed.

Lemma held_skip {A B} (t : call A) (k : A → call B) M G st fz Q :
  guarantees frame t → (∀ a, triple any_answer (held M G st fz) (alone (k a)) Q anywhere) →
  triple any_answer (held M G st fz) (alone (t ≫= k)) Q anywhere.
Proof.
  intros Ht Hk. apply call_skip; [|done|done]. eapply guarantees_mono; [|exact Ht].
  intros h h'. apply held_frame.
Qed.

Lemma held_attempt {A B} (t : call (result A)) (k : A → call (result B)) M G st fz Q :
  guarantees frame t → (∀ a, triple any_answer (held M G st fz) (alone (k a)) Q anywhere) →
  (∀ err h, held M G st fz h → Q (Err err) h) →
  triple any_answer (held M G st fz) (alone (attempt t k)) Q anywhere.
Proof.
  intros Ht Hk He. apply held_skip; [done|]. intros [a|err]; [apply Hk|apply alone_ret, He].
Qed.

(** *** Writing the record *)

Lemma Get_held M G st fz h : held M G st fz h → ∃ v, Get h wid = Ok v ∧ workloads h !! wid = Some v ∧
  Spec v = Spec w ∧ Process v = Some p ∧ ∀ s, st = Some s → Status v = s.
Proof.
  intros ((v & Hv & Hrest) & _). exists v. split; [|done]. unfold Get. by rewrite Hv.
Qed.

Lemma stored_held M G fz v Q (P : host → Prop) :
  (∀ h, P h → held M G None fz h) → reap_closed P → Spec v = Spec w → Process v = Some p →
  (∀ h, P h → Q (Err errPut) h) →
  (∀ h, held M G (Some (Status v)) fz h → workloads h !! wid = Some v → Q (Ok v) h) →
  triple any_answer P (alone (stored v)) Q anywhere.
Proof.
  intros HP Hr Hs Hp Herr Hok. unfold stored, put_workload. rewrite Hs. fold wid.
  apply (call_try _ _ _ _ _ (λ h, held M G (Some (Status v)) fz h ∧ workloads h !! wid = Some v));
    [done|done| | |].
  - intros e h _ Hh _. apply HP in Hh as (_ & Hf & HM & HG).
    assert (<[wid := v]> (workloads h) !! wid = Some v) as Hl by apply lookup_insert_eq.
    split; [|exact Hl]. split_and!; try done. exists v. split_and!; [exact Hl|done..|].
    by intros s [= ->].
  - apply alone_ret. exact Herr.
  - apply alone_ret. intros h [Hh Hv]. by apply Hok.
Qed.

(** Freezing and thawing. *)
Lemma signal_held s status b M G st fz :
  (s = SIGSTOP ∧ b = true ∨ s = SIGCONT ∧ b = false) →
  triple any_answer (held M G st fz) (alone (signalAndUpdate wid s status))
    (λ r h, match r with
            | Ok _ => held M G (Some status) (Some b) h
            | Err _ => held M G None None h
            end) anywhere.
Proof.
  intros Hs. unfold signalAndUpdate. apply call_look; [apply held_reap|done|]. intros e h _ Hh.
  destruct (Get_held _ _ _ _ _ Hh) as (v & Hg & Hv & Hspec & Hproc & _). rewrite Hg.
  cbn [mbind result_bind]. destruct (process_alive h (Process v)).
  2: { apply alone_ret. intros ? ->. by eapply held_any. }
  rewrite Hproc. apply triple_pre with (P' := held M G st fz); [by intros ? ->|].
  apply (alone_bind _ _ _ _ (λ r, match r with Ok _ => held M G None (Some b) | Err _ => held M G None None end)).
  - apply call_act; [apply held_reap|done|]. intros e' h' _ Hh'.
    destruct (bool_decide _); [|by eapply held_any]. destruct (ok e'); [|by eapply held_any].
    destruct Hh' as ((v' & ? & ? & ? & _) & _ & HM & HG). split_and!; try done.
    + by exists v'.
    + intros b' [= <-] pid q. by apply deliver_frozen.
  - intros [[]|err]; [|by apply alone_ret].
    eapply stored_held; [done|apply held_reap|done|done| |]; [intros h'; by apply held_any|done].
Qed.

Lemma freeze_held M G st fz :
  triple any_answer (held M G st fz) (alone (freeze w))
    (λ r h, match r with
            | Ok _ => held M G None None h
            | Err _ => held M G None None h
            end) anywhere.
Proof.
  unfold freeze. destruct (runs w); [|apply alone_ret; intros h; by apply held_any].
  apply (attempt_spec _ _ _ _ (λ _, held M G None None) (held M G None None)); [|intros []|done].
  - eapply alone_bind; [apply (signal_held SIGSTOP _ true); by left|].
    intros [v|err]; apply alone_ret; [|done]. intros h. by apply held_any.
  - apply held_skip; [apply frame_time|]. intros now. by apply alone_ret.
Qed.

(** *** The dump *)

Lemma Dump_held M G st fz images :
  triple any_answer (held M G st fz) (alone (Dump p images))
    (λ r h, match r with
            | Ok _ => held M G st (Some true) h
            | Err _ => held M G st fz h
            end) anywhere.
Proof.
  apply call_act; [apply held_reap|done|]. intros e h _ Hh.
  destruct (ok e && _); [|done]. destruct Hh as (Hv & _ & HM & HG). split_and!; try done.
  intros b [= <-] pid q. apply (deliver_frozen SIGSTOP); by left.
Qed.

Lemma dump_frozen_held M G images leave :
  triple any_answer (held M G None None) (alone (dump_frozen w p images leave))
    (λ r h, match r with
            | Ok true => runs w && leave = true ∧ held M G (Some WorkloadRunning) (Some false) h
            | Ok false => held M G None (Some true) h
            | Err _ => held M G None None h
            end) anywhere.
Proof.
  unfold dump_frozen. apply (attempt_spec _ _ _ _ (λ _, held M G None (Some true)) (held M G None None));
    [apply (Dump_held M G)| |done].
  intros _. apply held_attempt; [apply frame_succeeds| |intros ?; apply held_any]. intros _.
  apply held_skip; [apply frame_look|]. intros snapshot.
  apply held_attempt; [apply frame_preflight| |intros ?; apply held_any]. intros _.
  destruct (snapshot && runs w && leave) eqn:E; [|by apply alone_ret].
  apply (attempt_spec _ _ _ _ (λ _, held M G (Some WorkloadRunning) (Some false))
           (held M G None None)); [| |done].
  - eapply alone_bind; [apply (signal_held SIGCONT _ false); by right|].
    intros [v|err]; by apply alone_ret.
  - intros _. apply alone_ret. intros h Hh. split; [|done].
    destruct snapshot, (runs w), leave; done.
Qed.

(** *** The manifest *)

(** [m] is among the manifests [M'], which lost none of [M]. *)
Definition added (M : gmap string CheckpointManifest) (m : CheckpointManifest)
    (M' : gmap string CheckpointManifest) : Prop :=
  M ⊆ M' ∧ ∃ m', M' !! ManifestID m = Some m' ∧ ManifestSHA256 m' = ManifestSHA256 m.

Definition saved_as (M : gmap string CheckpointManifest) (G : gset string)
    (st : option WorkloadStatus) (fz : option bool) (r : result CheckpointManifest) (h : host) : Prop :=
  match r with
  | Ok m => ∃ M', added M m M' ∧ held M' G st fz h
  | Err _ => held M G st fz h
  end.

Lemma SaveManifest_held M G st fz m :
  triple any_answer (held M G st fz) (alone (SaveManifest m))
    (λ r, saved_as M G st fz (match r with Ok _ => Ok m | Err err => Err err end)) anywhere.
Proof.
  apply call_act; [apply held_reap|done|]. intros e h _ Hh. destruct Hh as (Hv & Hf & HM & HG).
  destruct (validateID (ManifestID m)); [|done]. destruct (validateID _); [|done].
  destruct (ok e); cbn [negb]; [|done]. rewrite HM.
  destruct (M !! ManifestID m) as [m'|] eqn:Hm.
  - destruct (decide _); [|done]. exists M. split; [split; [done|by exists m']|done].
  - exists (<[ManifestID m := m]> M). split; [split|].
    + by apply insert_subseteq.
    + exists m. by rewrite lookup_insert_eq.
    + by split_and!.
Qed.

Lemma sign_and_save_held machine m M G st fz :
  triple any_answer (held M G st fz)
    (alone (attempt (SignManifest machine m) (λ m, attempt (SaveManifest m) (λ _, mret (Ok m)))))
    (saved_as M G st fz) anywhere.
Proof.
  apply held_attempt; [apply frame_SignManifest| |done]. intros m'.
  eapply alone_bind; [apply SaveManifest_held|]. intros [[]|err]; by apply alone_ret.
Qed.

Lemma record_checkpoint_held machine o kind version id started frozenAt M G st fz :
  triple any_answer (held M G st fz)
    (alone (record_checkpoint machine w o kind version id started frozenAt))
    (saved_as M G st fz) anywhere.
Proof.
  unfold record_checkpoint. do 3 (apply held_attempt; [auto with frame| |done]; intros ?).
  apply held_skip; [apply frame_time|]. intros completed.
  apply held_attempt; [auto with frame| |done]. intros key. apply sign_and_save_held.
Qed.

(** *** The books *)

(** How a finished creation leaves the workload: [on] says it runs on. *)
Definition marked (M : gmap string CheckpointManifest) (G : gset string) (m : CheckpointManifest)
    (on : bool) (h : host) : Prop :=
  held M G (Some (if on then WorkloadRunning else WorkloadCheckpointed)) (Some (negb on)) h ∧
  LatestCheckpointID <$> workloads h !! wid = Some (ManifestID m).

Lemma MarkCheckpoint_held M G st m on :
  triple any_answer (held M G st (Some (negb on))) (alone (MarkCheckpoint wid (ManifestID m) on))
    (λ r h, match r with
            | Ok _ => marked M G m on h
            | Err _ => held M G st (Some (negb on)) h
            end) anywhere.
Proof.
  unfold MarkCheckpoint. apply call_look; [apply held_reap|done|]. intros e h _ Hh.
  destruct (Get_held _ _ _ _ _ Hh) as (v & Hg & Hv & Hspec & Hproc & _). rewrite Hg.
  apply triple_pre with (P' := held M G st (Some (negb on))); [by intros ? ->|].
  eapply stored_held; [|apply held_reap|done|done| |].
  - intros h' Hh'. by eapply held_weaken.
  - done.
  - intros h' Hh' Hv'. split; [done|]. by rewrite Hv'.
Qed.

(** What is known when a creation returns, before the deferred thaw. *)
Definition closing (M : gmap string CheckpointManifest) (G : gset string) (leave : bool)
    (out : creation * bool) (h : host) : Prop :=
  let on := runs w && leave in
  match out.1 with
  | Created m => out.2 = false ∧ ∃ M', added M m M' ∧ marked M' G m on h
  | Persisted m _ => ∃ M', added M m M' ∧
      held M' G None (if out.2 then None else Some (negb on)) h ∧ (out.2 = true → on = true)
  | NotCreated _ =>
      held M G None None h ∧
      (out.2 = false → runs w = true → held M G (Some WorkloadRunning) (Some false) h)
  end.

Section service.
Context (stateDir : path) (machine : string) (mirrored : bool).

Lemma frame_books m :
  guarantees frame (attempt (MkdirAll (stateDir ++ ["indices"])) (λ _,
    attempt (succeeds "persist changed-file index") (λ _,
    if mirrored then MirrorCheckpoint mirrored (ManifestID m) else mret (Ok tt)))).
Proof. solve_frame. Qed.

Lemma keep_books_held M M' G m leave early :
  added M m M' → (early = true → runs w && leave = true) →
  triple any_answer (held M' G None (Some (negb early)))
    (alone (keep_books stateDir mirrored w m leave early)) (closing M G leave) anywhere.
Proof.
  intros HM He. unfold keep_books. set (on := runs w && leave) in *.
  apply held_skip; [apply frame_books|]. intros [[]|err].
  2: { apply alone_ret. intros h Hh. exists M'. split; [done|]. cbn [snd].
       fold on. destruct early; [by rewrite He|]. destruct on; [|done].
       split; [by eapply held_any|done]. }
  assert (∀ due, (due = true → on = true) → ∀ err h, held M' G None (if due then None else Some (negb on)) h →
    closing M G leave (Persisted m err, due) h) as Hpersisted.
  { intros due Hdue err h Hh. exists M'. done. }
  apply (alone_bind _ _ _ _ (λ r h, match r with
    | Ok _ => held M' G None (Some (negb on)) h
    | Err _ => on && negb early = true ∧ held M' G None None h end)).
  - destruct (on && negb early) eqn:E.
    + eapply alone_bind; [apply (signal_held SIGCONT _ false); by right|].
      intros [v|err]; apply alone_ret; intros h Hh; [|done]. destruct on; [|done].
      by eapply held_weaken.
    + apply alone_ret. intros h Hh. destruct early; [by rewrite He|]. destruct on; [done|exact Hh].
  - intros [[]|err].
    + eapply alone_bind; [apply MarkCheckpoint_held|]. intros [v|err]; apply alone_ret; intros h Hh.
      * split; [done|]. by exists M'.
      * by apply Hpersisted.
    + apply triple_pure. intros E. apply alone_ret. intros h Hh. rewrite E.
      apply Hpersisted; [|done]. intros _. destruct on; [done|]. by rewrite andb_false_l in E.
Qed.

(** *** The creation *)

Lemma create_staged_held o kind version id started M G :
  triple any_answer (held M G None None)
    (alone (create_staged stateDir machine mirrored w p o kind version id started))
    (closing M G (OptionLeaveRunning o)) anywhere.
Proof.
  assert (∀ err due h, held M G None None h → (due = false → runs w = true → False) →
    closing M G (OptionLeaveRunning o) (NotCreated err, due) h) as Hfail.
  { intros err due h Hh Hdue. split; [done|]. cbn [snd]. intros H1 H2. destruct (Hdue H1 H2). }
  unfold create_staged.
  apply (alone_bind _ _ _ _ (λ _, held M G None None)).
  { apply held_attempt; [solve_frame| |done]. intros _.
    eapply triple_post; [|apply freeze_held]. by intros [] h. }
  intros [frozenAt|err]; [|apply alone_ret; intros h Hh; apply Hfail; [done|congruence]].
  eapply alone_bind; [apply dump_frozen_held|].
  intros [early|err]; [|apply alone_ret; intros h Hh; apply Hfail; [done|congruence]].
  apply triple_pre with (P' := λ h, (early = true → runs w && OptionLeaveRunning o = true) ∧
    held M G (if early then Some WorkloadRunning else None) (Some (negb early)) h).
  { destruct early; naive_solver. }
  apply triple_pure. intros He. eapply alone_bind; [apply record_checkpoint_held|].
  intros [m|err].
  - apply triple_at. intros h0 (M' & HM & Hh0). eapply triple_pre; [|by apply keep_books_held].
    intros ? ->. by eapply held_weaken.
  - apply alone_ret. intros h Hh. split; [by eapply held_any|]. cbn [snd].
    destruct early, (runs w); done.
Qed.

(** What a creation has done when it returns. *)
Definition outcome (M : gmap string CheckpointManifest) (G : gset string) (leave : bool)
    (out : creation) (h : host) : Prop :=
  match out with
  | Created m => ∃ M', added M m M' ∧ marked M' G m (runs w && leave) h
  | Persisted m _ => ∃ M', added M m M' ∧ held M' G None None h
  | NotCreated _ => manifests h = M ∧ createInFlight h = G
  end.

Lemma thaw_held M G st fz :
  triple any_answer (held M G st fz) (alone (thaw w true)) (λ _, held M G None None) anywhere.
Proof.
  unfold thaw. eapply alone_bind; [apply (signal_held SIGCONT _ false); by right|].
  intros [v|err]; apply alone_ret; [|done]. intros h. apply held_any.
Qed.

Lemma outcome_frame M G leave out h h' :
  frame h h' → outcome M G leave out h → outcome M G leave out h'.
Proof.
  intros Hfr. destruct out as [m|m err|err]; cbn [outcome].
  - intros (M' & HM & Hh & Hl). exists M'. split; [done|]. split; [by eapply held_frame|].
    destruct Hfr as [-> _]. done.
  - intros (M' & HM & Hh). exists M'. split; [done|]. by eapply held_frame.
  - destruct Hfr as (_ & -> & -> & _). done.
Qed.

Lemma closed_thaw M G leave out :
  triple any_answer (closing M G leave out) (alone (thaw w out.2))
    (λ _, outcome M G leave out.1) anywhere.
Proof.
  destruct out as [out due]. cbn [fst snd]. destruct due.
  - apply triple_at. intros h0 H0. destruct out as [m|m err|err].
    + by destruct H0.
    + destruct H0 as (M' & HM & Hh & _). eapply triple_conseq; [apply (thaw_held M' G None None)| | |done].
      * by intros ? ->.
      * intros ? h Hh'. by exists M'.
    + destruct H0 as [Hh _]. eapply triple_conseq; [apply (thaw_held M G None None)| | |done].
      * by intros ? ->.
      * by intros ? h (_ & _ & HM & HG).
  - apply alone_ret. intros h H. destruct out as [m|m err|err].
    + by destruct H as [_ H].
    + destruct H as (M' & HM & Hh & _). exists M'. split; [done|]. by eapply held_any.
    + by destruct H as [(_ & _ & HM & HG) _].
Qed.

Lemma outcome_skip {A B} (t : call A) (k : A → call B) M G leave out Q :
  guarantees frame t → (∀ a, triple any_answer (outcome M G leave out) (alone (k a)) Q anywhere) →
  triple any_answer (outcome M G leave out) (alone (t ≫= k)) Q anywhere.
Proof.
  intros Ht Hk. apply call_skip; [|done|done]. eapply guarantees_mono; [|exact Ht].
  intros h h'. apply outcome_frame.
Qed.
End service.
End window.

Lemma Get_same h h' x : workloads h = workloads h' → Get h x = Get h' x.
Proof. intros H. unfold Get, listed. by rewrite H. Qed.

Section create.
Context (stateDir : path) (machine : string) (mirrored : bool) (workloadID : string)
        (o : CreateOptions) (W : gmap string Workload) (w : Workload) (p : ProcessState).
Context (Hget : ∀ h, workloads h = W → Get h workloadID = Ok w)
        (Hw : W !! SpecID (Spec w) = Some w) (Hp : Process w = Some p).

(** Nothing of the repository, the records and the guards has changed. *)
Definition untouched (M : gmap string CheckpointManifest) (G : gset string) (h : host) : Prop :=
  workloads h = W ∧ manifests h = M ∧ createInFlight h = G.

Lemma untouched_frame M G h h' : frame h h' → untouched M G h → untouched M G h'.
Proof. intros (H1 & H2 & H3 & _) (? & ? & ?). unfold untouched. by rewrite H1, H2, H3. Qed.

Lemma untouched_held M G h : untouched M G h → held w p M G None None h.
Proof. intros (HW & HM & HG). split_and!; try done. exists w. by rewrite HW. Qed.

Lemma untouched_attempt {A B} (t : call (result A)) (k : A → call (result B)) M G Q :
  guarantees frame t → (∀ a, triple any_answer (untouched M G) (alone (k a)) Q anywhere) →
  (∀ err h, untouched M G h → Q (Err err) h) →
  triple any_answer (untouched M G) (alone (attempt t k)) Q anywhere.
Proof.
  intros Ht Hk He. unfold attempt. apply call_skip; [|done|].
  - eapply guarantees_mono; [|exact Ht]. intros h h'. apply untouched_frame.
  - intros [a|err]; [apply Hk|]. apply alone_ret, He.
Qed.

Lemma create_guarded_spec M G :
  triple any_answer (untouched M G)
    (alone (create_guarded stateDir machine mirrored workloadID o))
    (outcome w p M G (OptionLeaveRunning o)) anywhere.
Proof.
  unfold create_guarded. apply call_skip; [|done|intros started].
  { eapply guarantees_mono; [|apply frame_time]. intros h h'. apply untouched_frame. }
  apply (alone_bind _ _ _ _ (λ r h, untouched M G h ∧
    match r with Ok x => x.1.1 = (w, p) | Err _ => True end)).
  - unfold find_live. unfold attempt at 1. apply call_look; [|done|].
    { intros e h. apply untouched_frame, frame_reap. }
    intros e h _ Hh. rewrite (Hget h) by apply Hh. cbn [mbind result_bind]. rewrite Hp.
    apply triple_pre with (P' := untouched M G); [by intros ? ->|].
    destruct (ProcessAlive _ _ _); [|by apply alone_ret].
    apply untouched_attempt; [apply frame_ret| |done]. intros kind.
    apply untouched_attempt; [apply frame_ready| |done]. intros engine.
    apply untouched_attempt; [apply frame_MkdirAll| |done]. intros _. by apply alone_ret.
  - intros [[[[w' p'] kind] [version id]]|err].
    2: { apply alone_ret. intros h [(_ & HM & HG) _]. done. }
    apply triple_pre with (P' := λ h, (w', p') = (w, p) ∧ untouched M G h); [naive_solver|].
    apply triple_pure. intros [= -> ->].
    eapply alone_bind.
    { eapply triple_pre; [|apply (create_staged_held w p _ _ _ _ _ _ _ _ M G)].
      intros h. apply untouched_held. }
    intros out. eapply alone_bind; [apply closed_thaw|]. intros [].
    apply outcome_skip; [apply frame_RemoveAll|]. intros _. by apply alone_ret.
Qed.

(** The same without the guard that is still held. *)
Definition settled (M : gmap string CheckpointManifest) (G : gset string) (out : creation)
    (h : host) : Prop :=
  createInFlight h = G ∧ M ⊆ manifests h ∧
  match out with
  | Created m =>
      let on := runs w && OptionLeaveRunning o in
      (∃ m', manifests h !! ManifestID m = Some m' ∧ ManifestSHA256 m' = ManifestSHA256 m) ∧
      (∃ v, workloads h !! SpecID (Spec w) = Some v ∧ Spec v = Spec w ∧ Process v = Some p ∧
            Status v = (if on then WorkloadRunning else WorkloadCheckpointed) ∧
            LatestCheckpointID v = ManifestID m) ∧
      all_frozen (PGID p) (negb on) h
  | Persisted m _ =>
      ∃ m', manifests h !! ManifestID m = Some m' ∧ ManifestSHA256 m' = ManifestSHA256 m
  | NotCreated _ => manifests h = M
  end.

Lemma outcome_settled M G out h :
  outcome w p M G (OptionLeaveRunning o) out h → settled M (createInFlight h) out h.
Proof.
  destruct out as [m|m err|err]; cbn [outcome].
  - intros (M' & [Hsub Hm] & ((v & Hv & Hs & Hpr & Hst) & Hf & HM & HG) & Hl).
    rewrite Hv in Hl. injection Hl as Hl. unfold settled. rewrite HM. split_and!; try done.
    + exists v. split_and!; auto.
    + by apply Hf.
  - intros (M' & [Hsub Hm] & (_ & _ & HM & HG)). unfold settled. rewrite HM. done.
  - intros [HM HG]. unfold settled. rewrite HM. done.
Qed.

Lemma CreateCheckpoint_spec M G :
  triple any_answer (untouched M G)
    (alone (CreateCheckpoint stateDir machine mirrored workloadID o)) (settled M G) anywhere.
Proof.
  unfold CreateCheckpoint. eapply (alone_bind _ _ _ _ (λ r h, match r with
    | Ok _ => (workloadID ∉ G) ∧ untouched M (G ∪ {[workloadID]}) h
    | Err _ => untouched M G h end)).
  { apply call_act; [intros e h; apply untouched_frame, frame_reap|done|].
    intros e h _ (HW & HM & HG). rewrite HG. destruct (decide _); [done|]. split; [done|].
    split_and!; simpl; congruence. }
  intros [[]|err]; [|apply alone_ret; intros h (_ & HM & HG); by rewrite <- HM].
  apply triple_pure. intros Hn. eapply alone_bind; [apply create_guarded_spec|]. intros out.
  apply (alone_bind _ _ _ _ (λ _, settled M G out)); [|intros []; by apply alone_ret].
  apply call_act; [intros e h Hh; eapply outcome_frame; [apply frame_reap|done]|done|].
  intros e h _ Hh. assert (createInFlight h = G ∪ {[workloadID]}) as HG.
  { destruct out as [m|m err|err]; [destruct Hh as (M' & _ & (_ & _ & _ & ?) & _); done| |by destruct Hh].
    destruct Hh as (M' & _ & _ & _ & _ & ?). done. }
  apply outcome_settled in Hh as (_ & Hsub & Hout). split; [|done]. simpl. rewrite HG.
  apply leibniz_equiv. intros x. rewrite elem_of_difference, elem_of_union, elem_of_singleton.
  naive_solver.
Qed.
End create.

(** C20.  A checkpoint is all or nothing.  Whatever the machine
    answers, a creation that returns has released its guard and lost no
    manifest.  When it reports success the manifest is stored, the record
    names it and is checkpointed with its processes stopped, or running with
    its processes running when the workload ran and was to run on.  When it
    reports that only the books failed the manifest is stored.  Any other
    error leaves the repository as it was. *)
Theorem create_outcome (stateDir : path) (machine : string) (mirrored : bool) (workloadID : string)
    (o : CreateOptions) (w : Workload) (p : ProcessState) (h : host) (es : list kernel) :
  Get h workloadID = Ok w → workloads h !! SpecID (Spec w) = Some w → Process w = Some p →
  match run (CreateCheckpoint stateDir machine mirrored workloadID o) es h with
  | (Some out, h', _) => settled o w p (manifests h) (createInFlight h) out h'
  | (None, _, _) => True
  end.
Proof.
  intros Hg Hw Hp.
  assert (∀ h', workloads h' = workloads h → Get h' workloadID = Ok w) as Hget.
  { intros h' Hh'. rewrite <- Hg. by apply Get_same. }
  pose proof (CreateCheckpoint_spec stateDir machine mirrored workloadID o (workloads h) w p
    Hget Hw Hp (manifests h) (createInFlight h)) as H.
  specialize (H h es (Forall_true _ _ (λ _, I))). unfold alone in H.
  destruct (run _ es h) as [[[out|] h'] es']; [|done]. by apply H.
Qed.

(** A checkpoint of the running demo workload that leaves it stopped. *)
Definition stopping_checkpoint : CreateOptions :=
  {| OptionKind := "full"; OptionParentID := ""; OptionLeaveRunning := false;
     OptionTCPState := false |}.

Lemma create_outcome_witness :
  ∃ m h' rest,
    run (CreateCheckpoint ["var"] "m-1" false "web" stopping_checkpoint) (replicate 60 willing)
      demo_host = (Some (Created m), h', rest) ∧
    Status <$> workloads h' !! "w-1" = Some WorkloadCheckpointed ∧ all_frozen 100 true h'.
Proof.
  pose proof (create_outcome ["var"] "m-1" false "web" stopping_checkpoint
    (demo_workload (Some demo_process) WorkloadRunning) demo_process demo_host (replicate 60 willing)
    ltac:(vm_compute; reflexivity) ltac:(vm_compute; reflexivity) eq_refl) as H.
  destruct (run _ _ _) as [[[out|] h'] rest] eqn:E; [|by vm_compute in E].
  destruct out as [m|m err|err]; [|by vm_compute in E..].
  destruct H as (_ & _ & _ & (v & Hv & _ & _ & Hs & _) & Hf). exists m, h', rest.
  split; [done|]. change (SpecID (Spec _)) with "w-1" in Hv. rewrite Hv. split; [|exact Hf].
  simpl. by rewrite Hs.
Defined.

(** ** Thawing after a failure *)

Section thawing.
Context (w : Workload) (p : ProcessState).

(** Calls succeed, and the process does not end by itself. *)
Definition cooperates (e : kernel) : Prop := ok e = true ∧ PID p ∉ ended e.

Definition lives (h : host) : Prop :=
  0 < PID p ∧ ∃ q, procs h !! PID p = Some q ∧ start_ticks q = ProcStartTicks p ∧ group q = PGID p.

Definition executing (h : host) : Prop :=
  lives h ∧ all_frozen (PGID p) false h ∧
  ∃ v, workloads h !! SpecID (Spec w) = Some v ∧ Process v = Some p ∧ Status v = WorkloadRunning.

Lemma lives_reap e h : cooperates e → lives h → lives (reap e h).
Proof.
  intros [_ He] (Hpos & q & Hq & Hrest). split; [done|]. exists q. split; [|done].
  by apply map_lookup_filter_Some.
Qed.

Lemma lives_deliver s h :
  s = SIGSTOP ∨ s = SIGCONT → lives h →
  lives (h <| procs := deliver s (in_group (PGID p)) (procs h) |>).
Proof.
  intros Hs (Hpos & q & Hq & Ht & Hg). split; [done|].
  exists (q <| frozen := match s with SIGSTOP => true | _ => false end |>). split; [|done].
  simpl. unfold deliver. rewrite map_lookup_imap, Hq. simpl. unfold in_group.
  rewrite Hg, Z.eqb_refl. by destruct Hs as [-> | ->].
Qed.

(** The record and the process are there. *)
Definition resumable (M : gmap string CheckpointManifest) (G : gset string) (fz : option bool)
    (h : host) : Prop := held w p M G None fz h ∧ lives h.

Lemma resumable_reap M G fz : reap_under cooperates (resumable M G fz).
Proof. intros e h He [Hh Hl]. split; [by apply held_reap|by apply lives_reap]. Qed.

Lemma Resume_executes M G fz :
  triple cooperates (resumable M G fz) (alone (Resume (SpecID (Spec w)))) (λ _, executing) anywhere.
Proof.
  unfold Resume, signalAndUpdate. apply look_under; [apply resumable_reap|done|].
  intros e h _ [Hh Hl]. destruct (Get_held _ _ _ _ _ _ _ Hh) as (v & Hg & _ & Hs & Hp & _).
  assert (process_alive h (Process v) = true) as Halive.
  { destruct Hl as (Hpos & q & Hq & Ht & _). rewrite Hp. simpl. unfold ProcessAlive. rewrite Hq.
    apply andb_true_iff. split; [by apply Z.ltb_lt|by apply Z.eqb_eq]. }
  rewrite Hg. cbn [mbind result_bind]. rewrite Halive, Hp.
  apply triple_pre with (P' := resumable M G fz); [by intros ? ->|].
  apply (alone_bind _ _ _ _ (λ r h, r = Ok tt ∧ resumable M G (Some false) h)).
  - apply act_under; [apply resumable_reap|done|]. intros e' h' [-> _] [Hh' Hl'].
    pose proof Hl' as (Hpos & q & Hq & _ & Hgr).
    rewrite bool_decide_eq_true_2; [|exists (PID p), q; split; [done|]; by apply Z.eqb_eq].
    cbn [fst snd]. split; [done|]. split; [|by apply lives_deliver; [right|]].
    destruct Hh' as (Hv' & _ & HM & HG). split_and!; try done. intros b [= <-] pid q'.
    apply (deliver_frozen SIGCONT). by right.
  - intros r. apply triple_pure. intros ->. unfold stored, put_workload. cbn [Spec].
    apply (alone_bind _ _ _ _ (λ r h, r = Ok tt ∧ executing h)).
    + apply act_under; [apply resumable_reap|done|]. intros e' h' [-> _] [(_ & Hf & _) Hl'].
      split; [done|]. split_and!; [done|by apply (Hf false)|].
      eexists. cbn. rewrite Hs, lookup_insert_eq. done.
    + intros r. apply triple_pure. intros ->. by apply alone_ret.
Qed.
End thawing.

(** C31.  A checkpoint that fails gives the workload back.  Take a
    running workload and let the creation fail anywhere, with whatever
    answers; if its process is still there and the machine then answers the
    deferred thaw, the workload executes again: the record is running and no
    process of its group is stopped. *)
Theorem failed_checkpoint_thaws (stateDir : path) (machine : string) (mirrored : bool)
    (o : CreateOptions) (kind : CheckpointKind) (version id : string) (started : Z)
    (w : Workload) (p : ProcessState) (h h1 : host) (es rest : list kernel) (err : string)
    (due : bool) :
  workloads h !! SpecID (Spec w) = Some w → Process w = Some p → Status w = WorkloadRunning →
  run (create_staged stateDir machine mirrored w p o kind version id started) es h =
    (Some (NotCreated err, due), h1, rest) →
  lives p h1 →
  completes (cooperates p) (thaw w due) h1 (λ _, executing w p).
Proof.
  intros Hw Hp Hst Hrun Hl.
  assert (held w p (manifests h) (createInFlight h) None None h) as Hh.
  { split_and!; try done. by exists w. }
  pose proof (create_staged_held w p stateDir machine mirrored o kind version id started
    (manifests h) (createInFlight h) h es (Forall_true _ _ (λ _, I)) Hh) as H.
  unfold alone in H. rewrite Hrun in H. destruct H as [[Hh1 Hrunning] _]. cbn [snd] in Hrunning.
  apply (triple_completes _ _ _ _ anywhere). destruct due; unfold thaw.
  - apply (alone_bind _ _ _ _ (λ _, executing w p)); [|intros r; by apply alone_ret].
    eapply triple_pre; [|apply (Resume_executes w p (manifests h) (createInFlight h) None)].
    by intros ? ->.
  - apply alone_ret. intros ? ->. specialize (Hrunning eq_refl). unfold runs in Hrunning.
    rewrite bool_decide_eq_true_2 in Hrunning by done. destruct (Hrunning eq_refl)
      as ((v & Hv & _ & Hpv & Hs) & Hf & _). split_and!; [done|by apply (Hf false)|]. exists v. auto.
Qed.

(** The dump is refused. *)
Definition refusing : kernel := {| ok := false; clock := 9; num := 200; ticks := 8; text := "id-1";
  extracted := []; captured := []; owner := (1000, 1000); exdev := false; ended := [];
  net := {| listen_ok := true; remaining := 0; write_ok := true; net_now := 9 |} |}.

Lemma failed_checkpoint_thaws_witness :
  let w := demo_workload (Some demo_process) WorkloadRunning in
  ∃ err due h1 rest,
    run (create_staged ["var"] "m-1" false w demo_process stopping_checkpoint CheckpointFull "" "cp" 1)
      (replicate 4 willing ++ [refusing]) demo_host = (Some (NotCreated err, due), h1, rest) ∧
    all_frozen 100 true h1 ∧
    completes (cooperates demo_process) (thaw w due) h1 (λ _, executing w demo_process).
Proof.
  intros w. destruct (run _ _ _) as [[[[out due]|] h1] rest] eqn:E; [|by vm_compute in E].
  destruct out as [m|m err|err]; [by vm_compute in E..|]. exists err, due, h1, rest.
  pose proof (failed_checkpoint_thaws ["var"] "m-1" false stopping_checkpoint CheckpointFull "" "cp" 1
    w demo_process demo_host h1 _ rest err due eq_refl eq_refl eq_refl E) as H.
  assert (procs h1 = {[100 := {| start_ticks := 7; group := 100; frozen := true; cgroup := "w-1";
                                 uid := 1000; gid := 1000 |}]}) as Hprocs.
  { apply (f_equal (λ x, procs x.1.2)) in E. cbn [fst snd] in E. rewrite <- E. vm_compute. reflexivity. }
  split; [done|]. split.
  - intros pid q. rewrite Hprocs. by intros [<- <-]%lookup_singleton_Some.
  - apply H. split; [done|]. rewrite Hprocs. eexists. by rewrite lookup_singleton_eq.
Defined.

(** ** A live session that fails to record its freeze *)

Definition one_pass : LiveOptions :=
  {| LivePasses := 1; LiveConvergence := 0; LiveLeaveRunning := false; LiveTCPState := false |}.

(** A session, one pass and the frozen window, where only the write of the
    paused record fails. *)
Definition leaking : call (result creation) :=
  began ← BeginLive ["var"] "w-1" one_pass;
  match began with
  | Err err => mret (Err err)
  | Ok l => passed ← Pass ["var"] l;
            out ← Finalize ["var"] "m-1" false passed.1;
            mret (Ok out.2)
  end.

Definition leaked : option (result creation) * host * list kernel :=
  run leaking (replicate 14 willing ++ [refusing] ++ replicate 20 willing) demo_host.

(** A live checkpoint can leave its workload stopped.  When the
    processes are stopped but the paused record cannot be written, the
    session does not count itself as frozen: it closes without thawing, and
    the record of the stopped workload says it is running. *)
Theorem live_freeze_leaks :
  leaked.1.1 = Some (Ok (NotCreated "freeze workload")) ∧
  (Status <$> workloads leaked.1.2 !! "w-1") = Some WorkloadRunning ∧
  (frozen <$> procs leaked.1.2 !! 100) = Some true ∧
  createInFlight leaked.1.2 = ∅.
Proof. vm_compute. done. Qed.
