(* ===== verification/Repository.v ===== *)
(** * The checkpoint repository ([internal/checkpoint/repository.go])

    A checkpoint is durable as two things: an envelope, the manifest
    encrypted under the workload's key in a file of its own, and a summary in
    an encrypted index.  [Save] writes the file and then the index, [Delete]
    the other way round; whatever is read is authenticated at every layer.

    An action is one call on a file, on the index or on the key manager, so
    the agent can die between any two of them.  The chunk store shares the
    key manager; both are part of the [depot].  JSON is the interface [Json],
    Ed25519 and the encodings of its keys are [Ed25519]. *)
From Stdlib Require Import Ascii.
From S2P Require Import Prelude GoStr Model Workload Prog Conc Crypto Keys ChunkStore Network Host Checkpoint.

Local Open Scope string_scope.
Local Open Scope list_scope.
Local Open Scope Z_scope.

(** ** Data *)

Record Summary := {
  SummaryID : string;
  SummaryWorkloadID : string;
  SummaryWorkloadName : string;
  SummaryParentID : string;
  SummaryKind : CheckpointKind;
  SummaryCreatedAt : Z;
  SummaryPlainBytes : Z;
  SummaryStoredBytes : Z;
  SummaryKeyVersion : Z;
  ManifestHash : string;
}.

Record encryptedManifest := {
  EnvelopeFormat : Z;
  EnvelopeWorkload : string;
  EnvelopeCheckpoint : string;
  EnvelopeKeyVersion : Z;
  EnvelopeNonce : string;
  EnvelopeCiphertext : string;
}.

(** A manifest with the public key of its source, which only the repository
    reads. *)
Record SignedManifest := { Body : CheckpointManifest; PublicKeyPEM : string }.
#[export] Instance SignedManifest_eta : Eta SignedManifest := fun m =>
  Build_SignedManifest (Body m) (PublicKeyPEM m).

(** [json.Marshal] and the strict [decodeJSON].  What is not valid UTF-8 does
    not come back as it was. *)
Class Json (A : Type) := {
  to_json : A → bytes;
  from_json : bytes → option A;
  plain_text : A → Prop;
  json_round a : plain_text a → from_json (to_json a) = Some a;
  json_some a : 1 ≤ bsize (to_json a);
}.

(** Ed25519 and the PEM and DER encodings of its public keys. *)
Class Ed25519 := {
  parsePublicKey : string → option bytes;
  ed25519_verify : bytes → bytes → bytes → bool;
  ed25519_sign : bytes → bytes → bytes;
  ed25519_public : bytes → bytes;
  pem_of : bytes → string;
  ed25519_round private message :
    ed25519_verify (ed25519_public private) message (ed25519_sign private message) = true;
  pem_round der : parsePublicKey (pem_of der) = Some der;
}.

Definition maxEncryptedManifestBytes : Z := 8 * 2 ^ 20.

(** The chunks, the index and the envelopes, by checkpoint id. *)
Record depot (K : Type) := {
  shelf : store K;
  index : gmap string Summary;
  envelopes : gmap string bytes;
}.
Arguments shelf {K} _.
Arguments index {K} _.
Arguments envelopes {K} _.
Arguments Build_depot {K} _ _ _.
#[export] Instance depot_eta K : Eta (depot K) := fun d => Build_depot (shelf d) (index d) (envelopes d).

Section signing.
Context `{HC : !Crypto, HS : !Ed25519, HJ : !Json SignedManifest}.

(** [identity.PublicKeyID] and [identity.Verify]. *)
Definition PublicKeyID (publicKeyPEM : string) : result string :=
  match parsePublicKey publicKeyPEM with
  | None => Err "invalid public key PEM"
  | Some der => Ok (hex (sha256 der))
  end.
Definition Verify (publicKeyPEM : string) (message signature : bytes) : result unit :=
  match parsePublicKey publicKeyPEM with
  | None => Err "invalid public key PEM"
  | Some der => require (ed25519_verify der message signature) "signature verification failed"
  end.

(** What is signed: the manifest without its digest and signature. *)
Definition canonical (m : SignedManifest) : bytes :=
  let b := Body m in
  to_json (m <| Body := (b <| ManifestSHA256 := "" |>
    <| Security := {| SecurityKeyVersion := SecurityKeyVersion (Security b); ManifestSignature := "";
                      SignerMachineID := SignerMachineID (Security b);
                      SecurityAlgorithm := SecurityAlgorithm (Security b) |} |>) |>).

(** [SignManifest], by the holder of [private]. *)
Definition sign_manifest (private : bytes) (m : SignedManifest) : SignedManifest :=
  let der := ed25519_public private in
  let id := hex (sha256 der) in
  let signed (b : CheckpointManifest) (digest signature : string) : CheckpointManifest :=
    b <| SourceIdentityID := id |> <| ManifestSHA256 := digest |>
      <| Security := {| SecurityKeyVersion := SecurityKeyVersion (Security b); ManifestSignature := signature;
                        SignerMachineID := id; SecurityAlgorithm := "Ed25519+SHA-256" |} |> in
  let digest := sha256 (to_json {| Body := signed (Body m) "" ""; PublicKeyPEM := pem_of der |}) in
  {| Body := signed (Body m) (hex digest) (base64 (ed25519_sign private digest)); PublicKeyPEM := pem_of der |}.

(** [VerifyManifest]. *)
Definition VerifyManifest (m : SignedManifest) : result unit :=
  let b := Body m in
  _ ← validateID (ManifestID b);
  _ ← validateID (SpecID (ManifestWorkload b));
  _ ← require (bool_decide (Format b = StateFormatName) && bool_decide (FormatVersion b = StateFormatVersion))
        "unsupported checkpoint state format";
  _ ← require (negb (bool_decide (SourceIdentityID b = "")) &&
               bool_decide (SourceIdentityID b = SignerMachineID (Security b)))
        "manifest signer identity mismatch";
  _ ← require (bool_decide (PublicKeyID (PublicKeyPEM m) = Ok (SourceIdentityID b)))
        "source machine id does not match its public key";
  signature ← from_base64 (ManifestSignature (Security b));
  let digest := sha256 (canonical m) in
  _ ← require (bool_decide (hex digest = ManifestSHA256 b)) "manifest digest mismatch";
  Verify (PublicKeyPEM m) digest signature.
End signing.

Section repository.
Context `{HC : !Crypto, HS : !Ed25519, HM : !Json SignedManifest, HE : !Json encryptedManifest}
        {K KE : Type} `{HK : !KeyManager K KE} (root : path).

#[local] Abbreviation act := (thread (depot K) (disk_answer KE)).

(** ** Calls *)

Definition on_shelf {R} (t : thread (store K) (disk_answer KE) R) : act R :=
  zoom shelf (λ s d, d <| shelf := s |>) id t.

(** The index is an encrypted collection: reads come from memory, and a failed
    write leaves the memory as it was, and the files too as far as
    [Collection] shows it durable. *)
Definition index_get (id : string) : act (result Summary) :=
  atomic (λ e d, (d, match index d !! id with Some s => Ok s | None => Err errNotFound end)).
Definition index_put (id : string) (s : Summary) : act (result unit) :=
  atomic (λ e d, if works_ e then (d <| index := <[id := s]> (index d) |>, Ok tt) else (d, Err "index put")).
Definition index_delete (id : string) : act (result unit) :=
  atomic (λ e d, if works_ e then (d <| index := delete id (index d) |>, Ok tt) else (d, Err "index delete")).

(** [persistence.WriteJSON] of an envelope. *)
Definition write_envelope (id : string) (encoded : bytes) : act (result unit) :=
  atomic (λ e d, wrote e d (d <| envelopes := <[id := encoded]> (envelopes d) |>) "write manifest").
Definition remove_envelope (id : string) : act (result unit) :=
  atomic (λ e d, wrote e d (d <| envelopes := delete id (envelopes d) |>) "remove checkpoint directory").

(** [readBoundedFile]. *)
Definition readBoundedFile (id : string) : act (result bytes) :=
  atomic (λ e d, (d, match envelopes d !! id with
                     | None => Err errNotExist
                     | Some encoded =>
                         if negb (works_ e) then Err "read manifest"
                         else if maxEncryptedManifestBytes <? bsize encoded then
                           Err "encrypted checkpoint manifest exceeds size limit"
                         else Ok encoded
                     end)).

Definition manifestAAD (workloadID checkpointID : string) (keyVersion : Z) : string :=
  "shift-checkpoint-manifest-v1" +:+ nl +:+ workloadID +:+ nl +:+ checkpointID +:+ nl +:+ Itoa keyVersion.

(** ** Reading *)

(** [decodeEncryptedManifest] up to the key, and from the key on. *)
Definition open_envelope (checkpointID : string) (encoded : bytes) : result encryptedManifest :=
  _ ← validateID checkpointID;
  _ ← require (negb (bsize encoded =? 0) && (bsize encoded <=? maxEncryptedManifestBytes))
        "encrypted checkpoint manifest exceeds size limit";
  match from_json encoded with
  | None => Err "decode encrypted checkpoint manifest"
  | Some envelope =>
      _ ← require ((EnvelopeFormat envelope =? 1) && negb (bool_decide (EnvelopeWorkload envelope = "")) &&
                   bool_decide (EnvelopeCheckpoint envelope = checkpointID) &&
                   negb (EnvelopeKeyVersion envelope =? 0))
            "invalid encrypted checkpoint manifest envelope";
      _ ← validateID (EnvelopeWorkload envelope);
      Ok envelope
  end.
Definition open_manifest (checkpointID : string) (envelope : encryptedManifest) (dataKey : bytes)
    : result SignedManifest :=
  nonce ← from_base64 (EnvelopeNonce envelope);
  ciphertext ← from_base64 (EnvelopeCiphertext envelope);
  plaintext ← Decrypt dataKey (EnvelopeWorkload envelope) "checkpoint-manifest" nonce ciphertext
    (manifestAAD (EnvelopeWorkload envelope) checkpointID (EnvelopeKeyVersion envelope));
  match from_json plaintext with
  | None => Err "decode manifest"
  | Some m =>
      _ ← require (bool_decide (ManifestID (Body m) = checkpointID) &&
                   bool_decide (SpecID (ManifestWorkload (Body m)) = EnvelopeWorkload envelope))
            "encrypted envelope and checkpoint manifest disagree";
      _ ← VerifyManifest m;
      Ok m
  end.

(** [decodeEncryptedManifest]. *)
Definition decodeEncryptedManifest (checkpointID : string) (encoded : bytes)
    : act (result (SignedManifest * encryptedManifest)) :=
  match open_envelope checkpointID encoded with
  | Err err => mret (Err err)
  | Ok envelope =>
      key ← on_shelf (workload_key (EnvelopeWorkload envelope) (EnvelopeKeyVersion envelope));
      mret (dataKey ← key; m ← open_manifest checkpointID envelope dataKey; Ok (m, envelope))
  end.

(** The index entry agrees with what was decoded. *)
Definition check_summary (id : string) (s : Summary) (m : SignedManifest) (envelope : encryptedManifest)
    : result unit :=
  _ ← require ((EnvelopeFormat envelope =? 1) && bool_decide (EnvelopeWorkload envelope = SummaryWorkloadID s) &&
               bool_decide (EnvelopeCheckpoint envelope = id) &&
               (EnvelopeKeyVersion envelope =? SummaryKeyVersion s))
        "checkpoint index and encrypted manifest disagree";
  require (bool_decide (ManifestSHA256 (Body m) = ManifestHash s)) "manifest hash does not match checkpoint index".

(** [loadEncryptedManifest]. *)
Definition loadEncryptedManifest (id : string) : act (result (SignedManifest * bytes)) :=
  match checkpointDir root id with
  | Err err => mret (Err err)
  | Ok _ =>
      found ← index_get id;
      match found with
      | Err err => mret (Err err)
      | Ok s =>
          read ← readBoundedFile id;
          match read with
          | Err err => mret (Err err)
          | Ok encoded =>
              decoded ← decodeEncryptedManifest id encoded;
              mret ('(m, envelope) ← decoded; _ ← check_summary id s m envelope; Ok (m, encoded))
          end
      end
  end.

(** [Load], [ExportEncryptedManifest] and [DecodeEncryptedManifest]. *)
Definition Load (id : string) : act (result SignedManifest) :=
  r ← loadEncryptedManifest id; mret ('(m, _) ← r; Ok m).
Definition ExportEncryptedManifest (id : string) : act (result bytes) :=
  r ← loadEncryptedManifest id; mret ('(_, encoded) ← r; Ok encoded).
Definition DecodeEncryptedManifest (checkpointID : string) (encoded : bytes) : act (result SignedManifest) :=
  r ← decodeEncryptedManifest checkpointID encoded; mret ('(m, _) ← r; Ok m).

(** ** Writing *)

(** The envelope of a manifest, under the workload's active key. *)
Definition seal_manifest (m : SignedManifest) (keyVersion : Z) (dataKey nonce : bytes)
    : result encryptedManifest :=
  let w := SpecID (ManifestWorkload (Body m)) in
  ciphertext ← Encrypt dataKey w "checkpoint-manifest" (to_json m)
    (manifestAAD w (ManifestID (Body m)) keyVersion) nonce;
  Ok {| EnvelopeFormat := 1; EnvelopeWorkload := w; EnvelopeCheckpoint := ManifestID (Body m);
        EnvelopeKeyVersion := keyVersion; EnvelopeNonce := base64 nonce;
        EnvelopeCiphertext := base64 ciphertext |}.

Definition summary_of (m : SignedManifest) (keyVersion : Z) : Summary :=
  let b := Body m in
  {| SummaryID := ManifestID b; SummaryWorkloadID := SpecID (ManifestWorkload b);
     SummaryWorkloadName := SpecName (ManifestWorkload b); SummaryParentID := ParentID b; SummaryKind := Kind b;
     SummaryCreatedAt := ManifestCreatedAt b; SummaryPlainBytes := PlainBytes (ManifestMetrics b);
     SummaryStoredBytes := StoredBytes (ManifestMetrics b); SummaryKeyVersion := keyVersion;
     ManifestHash := ManifestSHA256 b |}.

(** The end of [Save]: the file, then the index. *)
Definition save_new (m : SignedManifest) (keyVersion : Z) (envelope : encryptedManifest) : act (result unit) :=
  let id := ManifestID (Body m) in
  wrote ← write_envelope id (to_json envelope);
  match wrote with
  | Err err => mret (Err err)
  | Ok _ =>
      put ← index_put id (summary_of m keyVersion);
      match put with
      | Err err => _ ← remove_envelope id; mret (Err err)
      | Ok _ => mret (Ok tt)
      end
  end.

(** [Save]. *)
Definition Save (m : SignedManifest) : act (result unit) :=
  let id := ManifestID (Body m) in
  match _ ← validateID id; _ ← validateID (SpecID (ManifestWorkload (Body m))); VerifyManifest m with
  | Err err => mret (Err err)
  | Ok _ =>
      key ← on_shelf (active_key (SpecID (ManifestWorkload (Body m))));
      match key with
      | Err err => mret (Err err)
      | Ok (keyVersion, dataKey) =>
          sealed ← atomic (λ e d, (d, seal_manifest m keyVersion dataKey (nonce_drawn e)));
          match envelope ← sealed; _ ← checkpointDir root id; Ok envelope with
          | Err err => mret (Err err)
          | Ok envelope =>
              existing ← Load id;
              match existing with
              | Ok existing =>
                  mret (if decide (ManifestSHA256 (Body existing) = ManifestSHA256 (Body m)) then Ok tt
                        else Err "checkpoint id already exists with different contents")
              | Err err =>
                  if decide (err ∈ [errNotFound; errNotExist]) then save_new m keyVersion envelope
                  else mret (Err err)
              end
          end
      end
  end.

(** [Delete]. *)
Definition DeleteStored (id : string) : act (result unit) :=
  match checkpointDir root id with
  | Err err => mret (Err err)
  | Ok _ =>
      found ← index_get id;
      match found with
      | Err err => mret (Err err)
      | Ok _ =>
          gone ← index_delete id;
          match gone with
          | Err err => mret (Err err)
          | Ok _ => remove_envelope id
          end
      end
  end.

(** [List]: the newest first; the order of equal times is the index's. *)
Definition newest_first (a b : Summary) : Prop := SummaryCreatedAt b ≤ SummaryCreatedAt a.
#[export] Instance newest_first_dec : RelDecision newest_first.
Proof. intros a b. unfold newest_first. apply _. Defined.
Definition ListStored (workloadID : string) : act (list Summary) :=
  atomic (λ e d, (d, merge_sort newest_first
    (filter (λ s, workloadID = "" ∨ SummaryWorkloadID s = workloadID)
       (snd <$> merge_sort (λ a b, Is_true (String.leb a.1 b.1)) (map_to_list (index d)))))).
End repository.
