(* ===== verification/RepositorySafe.v ===== *)
(** * The repository keeps checkpoints

    The index and the envelopes together implement a map of manifests: what
    was saved is loaded, what was deleted is gone, nothing else changes, and
    a crash between any two calls leaves either the old map or the new one.
    This is the repository the checkpoint service is modelled with. *)
From Stdlib Require Import Ascii.
From S2P Require Import Prelude GoStr Model Workload Prog Conc Crypto Keys ChunkStore ChunkSafe Network Host Runtime Restorer Checkpoint Repository.

Local Open Scope string_scope.
Local Open Scope list_scope.
Local Open Scope Z_scope.

(** ** Signatures *)

Section signing.
Context `{HC : !Crypto, HS : !Ed25519, HJ : !Json SignedManifest}.

(** What a machine signs verifies. *)
Lemma sign_verify private m :
  is_ok (validateID (ManifestID (Body m))) = true → is_ok (validateID (SpecID (ManifestWorkload (Body m)))) = true →
  Format (Body m) = StateFormatName → FormatVersion (Body m) = StateFormatVersion →
  VerifyManifest (sign_manifest private m) = Ok tt.
Proof.
  intros Hid Hw Hf Hv. unfold VerifyManifest, sign_manifest. cbn.
  destruct (validateID (ManifestID (Body m))) as [[]|]; [|done]. rewrite ok_bind.
  destruct (validateID (SpecID (ManifestWorkload (Body m)))) as [[]|]; [|done]. rewrite ok_bind, Hf, Hv. cbn.
  assert (hex (sha256 (ed25519_public private)) ≠ "") as Hne.
  { pose proof (sha256_some (ed25519_public private)). by destruct (sha256 _). }
  rewrite (bool_decide_false (_ = "")) by done. rewrite bool_decide_true by done. cbn.
  unfold PublicKeyID. rewrite pem_round, bool_decide_true by done. cbn.
  rewrite from_base64_base64, ok_bind. unfold canonical. cbn. rewrite bool_decide_true by done. cbn.
  unfold Verify. by rewrite pem_round, ed25519_round.
Qed.
End signing.

Section repository.
Context `{HC : !Crypto, HS : !Ed25519, HM : !Json SignedManifest, HE : !Json encryptedManifest}
        {K KE : Type} `{HK : !KeyManager K KE}
        {knows : K → string → Z → bytes → Prop} {reads : KE → Prop} `{HL : !KeyLaws K KE knows reads}
        (root : path).

#[local] Abbreviation repo := (gmap string SignedManifest).

(** ** What the repository serves *)

(** The envelope [encoded] is manifest [m] to whoever has the keys of [d]. *)
Definition decodes (d : depot K) (id : string) (encoded : bytes) (m : SignedManifest)
    (envelope : encryptedManifest) : Prop :=
  open_envelope id encoded = Ok envelope ∧
  ∃ key, knows (key_state (shelf d)) (EnvelopeWorkload envelope) (EnvelopeKeyVersion envelope) key ∧
    open_manifest id envelope key = Ok m.

Definition loads (d : depot K) (id : string) (m : SignedManifest) : Prop :=
  is_ok (checkpointDir root id) = true ∧
  ∃ s encoded envelope, index d !! id = Some s ∧ envelopes d !! id = Some encoded ∧
    decodes d id encoded m envelope ∧ check_summary id s m envelope = Ok tt.

(** The index lists exactly the checkpoints of [M], and each of them loads. *)
Definition serves (M : repo) (d : depot K) : Prop :=
  ∀ id, match M !! id with Some m => loads d id m | None => index d !! id = None end.

Definition more_keys (d d' : depot K) : Prop :=
  index d' = index d ∧ envelopes d' = envelopes d ∧
  ∀ w v key, knows (key_state (shelf d)) w v key → knows (key_state (shelf d')) w v key.

Lemma loads_more d d' id m : loads d id m → more_keys d d' → loads d' id m.
Proof.
  intros (Hdir & s & enc & env & Hs & He & (Ho & key & Hk & Hm) & Hc) (Hi & Hv & Hkeys). split; [done|].
  exists s, enc, env. rewrite Hi, Hv. split_and!; [done..| |done]. split; [done|]. exists key. auto.
Qed.

Lemma serves_more M d d' : serves M d → more_keys d d' → serves M d'.
Proof.
  intros Hs Hd id. specialize (Hs id). destruct (M !! id); [by eapply loads_more|].
  destruct Hd as [-> _]. done.
Qed.

Lemma open_envelope_size id encoded envelope :
  open_envelope id encoded = Ok envelope → 1 ≤ bsize encoded ≤ maxEncryptedManifestBytes.
Proof.
  unfold open_envelope. intros ([] & _ & H)%bind_ok. apply bind_ok in H as ([] & H%require_ok & _).
  apply andb_true_iff in H as [H0 H1]. apply negb_true_iff, Z.eqb_neq in H0. apply Z.leb_le in H1.
  unfold bsize in *. lia.
Qed.

(** ** Loading *)

(** [r] is [x] or a failure that is not an absence, and is [x] when nothing
    goes wrong. *)
Definition tells {A} (okE : disk_answer KE → Prop) (x : A) (r : result A) : Prop :=
  (r = Ok x ∨ ∃ err, r = Err err ∧ err ∉ [errNotFound; errNotExist]) ∧
  ((∀ e, okE e → clear (reads := reads) e) → r = Ok x).

Lemma tells_ok {A} okE (x : A) : tells okE x (Ok x).
Proof. split; [by left|done]. Qed.

Lemma tells_bind {A B} okE (x : A) (y : B) r (f : A → result B) :
  tells okE x r → f x = Ok y → tells okE y (r ≫= f).
Proof.
  intros [[->|(err & -> & Herr)] Hc] Hf; rewrite ?ok_bind, ?Hf; [apply tells_ok|].
  split; [right; by exists err|]. intros Hall. by specialize (Hc Hall).
Qed.

Lemma tells_failed {A} okE (x : A) e err :
  okE e → ¬ clear (reads := reads) e → err ∉ [errNotFound; errNotExist] → tells okE x (Err err).
Proof. intros He Hcl Herr. split; [right; by exists err|]. intros Hall. destruct Hcl. by apply (Hall e). Qed.

Lemma shelf_same (d : depot K) : d <| shelf := shelf d |> = d.
Proof. by destruct d. Qed.

Lemma decode_tells okE d0 id encoded m envelope (C : depot K → Prop) :
  decodes d0 id encoded m envelope → C d0 →
  triple okE (λ d, d = d0) (alone (decodeEncryptedManifest id encoded))
    (λ r d, d = d0 ∧ tells okE (m, envelope) r) C.
Proof.
  intros (Ho & key & Hk & Hm) HC0. unfold decodeEncryptedManifest. rewrite Ho.
  apply (alone_bind _ _ _ _ (λ r d, d = d0 ∧ tells okE key r)).
  - apply alone_act; [by intros ? ->|]. intros e ? Hok ->. split; [by apply shelf_same|]. cbn.
    destruct (key_of (for_keys e) (key_state (shelf d0)) _ _) as [key'|err] eqn:Hr.
    + apply (key_known _ _ _ _ _ _ Hk) in Hr as ->. apply tells_ok.
    + apply (tells_failed _ _ e); [done| |].
      * intros (_ & _ & Hreads). by rewrite (key_reads _ _ _ _ _ Hreads Hk) in Hr.
      * eapply key_missed; [exact Hk|exact Hr].
  - intros r. apply alone_ret. intros ? [-> Hr]. split; [done|]. eapply tells_bind; [exact Hr|]. cbn. by rewrite Hm.
Qed.

(** What [Load] may answer when the repository serves [M]. *)
Definition load_answer (okE : disk_answer KE → Prop) (M : repo) (id : string) (r : result SignedManifest) : Prop :=
  match M !! id with
  | Some m => tells okE m r
  | None => is_ok r = false
  end.

Lemma Load_spec (okE : disk_answer KE → Prop) M d0 id (C : depot K → Prop) :
  serves M d0 → C d0 →
  triple okE (λ d, d = d0) (alone (Load root id)) (λ r d, d = d0 ∧ load_answer okE M id r) C.
Proof.
  intros Hs HC0. unfold load_answer. specialize (Hs id). destruct (M !! id) as [m|].
  - destruct Hs as (Hdir & s & enc & env & Hi & He & Hdec & Hc).
    apply (alone_bind _ _ _ _ (λ r d, d = d0 ∧ tells okE (m, enc) r));
      [|intros r; apply alone_ret; intros ? [-> Hr]; split; [done|]; by eapply tells_bind].
    unfold loadEncryptedManifest. destruct (checkpointDir root id) as [dir|]; [|done].
    apply alone_read; [by intros ? ->|]. intros e d Hok ->. rewrite Hi.
    apply alone_read; [by intros ? ->|]. intros e1 d Hok1 ->. rewrite He.
    destruct (works_ e1) eqn:Hw; cbn [negb].
    + destruct Hdec as [Ho Hk] eqn:Hd. pose proof (open_envelope_size _ _ _ Ho) as Hsize.
      destruct (Z.ltb_spec maxEncryptedManifestBytes (bsize enc)); [lia|].
      eapply alone_bind; [by apply decode_tells|]. intros r. apply alone_ret. intros ? [-> Hr]. split; [done|].
      eapply tells_bind; [exact Hr|]. cbn. by rewrite Hc.
    + apply alone_ret. intros ? ->. split; [done|]. apply (tells_failed _ _ e1); [done| |by apply (bool_decide_unpack _)].
      intros [? _]. congruence.
  - apply (alone_bind _ _ _ _ (λ r d, d = d0 ∧ is_ok r = false));
      [|intros r; apply alone_ret; intros ? [-> Hr]; by destruct r].
    unfold loadEncryptedManifest. destruct (checkpointDir root id) as [dir|]; [|by apply alone_ret; intros ? ->].
    apply alone_read; [by intros ? ->|]. intros e d Hok ->. rewrite Hs. by apply alone_ret; intros ? ->.
Qed.

(** ** Saving *)

(** The manifest survives the encoding and its envelope fits the limit. *)
Definition fits (m : SignedManifest) : Prop :=
  plain_text m ∧
  ∀ v key nonce envelope, 0 ≤ v < 2 ^ 32 → seal_manifest m v key nonce = Ok envelope → length nonce = nonceSize →
    plain_text envelope ∧ bsize (to_json envelope) ≤ maxEncryptedManifestBytes.

Lemma validateID_some id : validateID id = Ok tt → id ≠ "".
Proof. intros H ->. done. Qed.

Lemma verify_ids m :
  VerifyManifest m = Ok tt →
  validateID (ManifestID (Body m)) = Ok tt ∧ validateID (SpecID (ManifestWorkload (Body m))) = Ok tt.
Proof.
  unfold VerifyManifest. intros ([] & Hid & Hv)%bind_ok. apply bind_ok in Hv as ([] & Hw & _). done.
Qed.

Lemma seal_decodes d m v key nonce envelope :
  fits m → VerifyManifest m = Ok tt → length nonce = nonceSize → 0 < v < 2 ^ 32 →
  knows (key_state (shelf d)) (SpecID (ManifestWorkload (Body m))) v key →
  seal_manifest m v key nonce = Ok envelope →
  decodes d (ManifestID (Body m)) (to_json envelope) m envelope ∧
  check_summary (ManifestID (Body m)) (summary_of m v) m envelope = Ok tt.
Proof.
  intros [Hp Hfit] Hv Hn Hvr Hk Hs. destruct (Hfit v key nonce envelope ltac:(lia) Hs Hn) as [Hpe Hsize].
  assert (v ≠ 0) as Hv0 by lia.
  unfold seal_manifest in Hs. apply bind_ok in Hs as (c & Hc & Henv%Ok_inj).
  destruct (verify_ids m Hv) as [Hid Hw]. pose proof (json_some envelope) as Hsome.
  assert (EnvelopeFormat envelope = 1 ∧ EnvelopeWorkload envelope = SpecID (ManifestWorkload (Body m)) ∧
    EnvelopeCheckpoint envelope = ManifestID (Body m) ∧ EnvelopeKeyVersion envelope = v ∧
    EnvelopeNonce envelope = base64 nonce ∧ EnvelopeCiphertext envelope = base64 c)
    as (Ef & Ew & Ec & Ek & En & Ex) by by rewrite <- Henv.
  clear Henv. apply Z.eqb_neq in Hv0. split; [split|].
  - unfold open_envelope. rewrite Hid, ok_bind, json_round by done. rewrite Ef, Ew, Ec, Ek, Hv0, Hw.
    destruct (Z.eqb_spec (bsize (to_json envelope)) 0); [lia|].
    destruct (Z.leb_spec (bsize (to_json envelope)) maxEncryptedManifestBytes); [|lia]. cbn [negb andb require].
    rewrite ok_bind, (bool_decide_false (_ = "")) by (by apply validateID_some).
    by rewrite bool_decide_true by done.
  - exists key. rewrite Ew, Ek. split; [done|]. unfold open_manifest. rewrite En, Ex, Ew, Ek, !from_base64_base64, !ok_bind.
    rewrite (Decrypt_Encrypt _ _ _ _ _ _ _ Hn Hc), ok_bind, json_round by done.
    rewrite !bool_decide_true by done. cbn [andb require]. by rewrite ok_bind, Hv.
  - unfold check_summary, summary_of. cbn [SummaryWorkloadID SummaryKeyVersion ManifestHash].
    rewrite Ef, Ew, Ec, Ek, !Z.eqb_refl. by repeat (rewrite bool_decide_true by done).
Qed.

(** Versions have not wrapped to zero. *)
Definition unwrapped (w : string) (d : depot K) : Prop :=
  ∀ e v key, (get_key e (key_state (shelf d)) w).2 = Ok (v, key) → v ≠ 0.

(** What [Save] of [m] leaves behind. *)
Definition saved (M : repo) (m : SignedManifest) (r : result unit) (d : depot K) : Prop :=
  match r, M !! ManifestID (Body m) with
  | Err _, _ => serves M d
  | Ok _, Some m' => serves M d ∧ ManifestSHA256 (Body m') = ManifestSHA256 (Body m)
  | Ok _, None => serves (<[ManifestID (Body m) := m]> M) d
  end.
Definition save_cut (M : repo) (m : SignedManifest) (d : depot K) : Prop :=
  serves M d ∨ M !! ManifestID (Body m) = None ∧ serves (<[ManifestID (Body m) := m]> M) d.

Lemma serves_unlisted M d id encoded :
  M !! id = None → serves M d → serves M (d <| envelopes := partial_alter (λ _, encoded) id (envelopes d) |>).
Proof.
  intros Hnone Hs id'. specialize (Hs id'). destruct (M !! id') as [m|] eqn:Hm; [|done].
  destruct Hs as (Hdir & s & enc & env & Hi & He & Hd & Hc). split; [done|]. exists s, enc, env.
  split_and!; [done| |done|done]. cbn. by rewrite lookup_partial_alter_ne by congruence.
Qed.

Lemma save_new_spec (okE : disk_answer KE → Prop) M m v envelope d0 :
  M !! ManifestID (Body m) = None → serves M d0 → is_ok (checkpointDir root (ManifestID (Body m))) = true →
  decodes d0 (ManifestID (Body m)) (to_json envelope) m envelope →
  check_summary (ManifestID (Body m)) (summary_of m v) m envelope = Ok tt →
  triple okE (λ d, d = d0) (alone (save_new m v envelope)) (saved M m) (save_cut M m).
Proof.
  intros Hnone Hs Hdir Hdec Hsum. unfold save_new.
  set (d1 := d0 <| envelopes := <[ManifestID (Body m) := to_json envelope]> (envelopes d0) |>).
  assert (serves M d1) as Hs1 by by apply serves_unlisted.
  apply (alone_bind _ _ _ _ (λ r d, if is_ok r then d = d1 else serves M d)).
  - apply alone_atomic; [intros ? ->; by left|]. intros e ? _ ->. unfold wrote. by destruct (works_ e), (landed_ e).
  - intros [[]|err]; [|by apply alone_ret].
    apply (alone_bind _ _ _ _ (λ r d, if is_ok r then serves (<[ManifestID (Body m) := m]> M) d else d = d1)).
    + apply alone_atomic; [intros ? ->; by left|]. intros e ? _ ->. destruct (works_ e); [|done]. cbn.
      intros id. destruct (decide (id = ManifestID (Body m))) as [->|Hne].
      * rewrite lookup_insert_eq. split; [done|]. exists (summary_of m v), (to_json envelope), envelope. cbn.
        rewrite !lookup_insert_eq. done.
      * rewrite lookup_insert_ne by done. specialize (Hs1 id). destruct (M !! id) as [m'|].
        -- destruct Hs1 as (Hd' & s & enc & env & Hi & He & Hd & Hc). split; [done|]. exists s, enc, env.
           split_and!; [|done..]. cbn. by rewrite lookup_insert_ne.
        -- cbn. by rewrite lookup_insert_ne.
    + intros [[]|err].
      * apply alone_ret. intros d Hd. unfold saved. by rewrite Hnone.
      * eapply (alone_bind _ _ _ _ (λ _, serves M)); [|intros r; by apply alone_ret].
        apply alone_atomic; [intros ? ->; by left|]. intros e ? _ ->. unfold wrote.
        destruct (works_ e), (landed_ e); [by apply serves_unlisted..|done].
Qed.

Lemma active_key_spec (okE : disk_answer KE → Prop) M w d0 (C : depot K → Prop) :
  serves M d0 → unwrapped w d0 → C d0 →
  triple okE (λ d, d = d0) (alone (on_shelf (active_key w)))
    (λ r d, serves M d ∧ ∀ v key, r = Ok (v, key) → 0 < v < 2 ^ 32 ∧ knows (key_state (shelf d)) w v key) C.
Proof.
  intros Hs Hu HC0. apply alone_act; [by intros ? ->|]. intros e ? _ ->. cbn.
  destruct (get_key (for_keys e) (key_state (shelf d0)) w) as [k r] eqn:Hg. split.
  - eapply serves_more; [exact Hs|]. split_and!; [done..|]. cbn. intros w' v key Hk.
    apply (get_keeps (for_keys e) _ w) in Hk. by rewrite Hg in Hk.
  - cbn. intros v key ->. assert (v ≠ 0) by (apply (Hu (for_keys e) v key); by rewrite Hg).
    destruct (get_known (for_keys e) (key_state (shelf d0)) w v key) as [Hk Hv]; [by rewrite Hg|].
    rewrite Hg in Hk. split; [lia|done].
Qed.

Lemma saved_err M m err d : serves M d → saved M m (Err err) d.
Proof. done. Qed.

Lemma Save_spec M m :
  fits m →
  triple drawn_ok (λ d, serves M d ∧ unwrapped (SpecID (ManifestWorkload (Body m))) d) (alone (Save root m))
    (saved M m) (save_cut M m).
Proof.
  intros Hfits. unfold Save. set (id := ManifestID (Body m)). set (w := SpecID (ManifestWorkload (Body m))).
  destruct (_ ← validateID id; _ ← validateID w; VerifyManifest m) as [[]|err] eqn:Hver;
    [|by apply alone_ret; intros d [? _]].
  apply bind_ok in Hver as ([] & _ & Hver). apply bind_ok in Hver as ([] & _ & Hver).
  apply triple_at. intros d0 [Hs0 Hu0].
  eapply alone_bind; [apply (active_key_spec _ M w d0); [done..|by left]|].
  intros [[v key]|err]; [|by apply alone_ret; intros d [? _]].
  apply triple_at. intros d1 [Hs1 Hk1]. destruct (Hk1 v key eq_refl) as [Hv0 Hk]. clear Hk1.
  apply alone_read; [intros ? ->; by left|]. intros e d Hn ->.
  destruct (seal_manifest m v key (nonce_drawn e)) as [envelope|err] eqn:Hseal; [|by apply alone_ret; intros ? ->].
  rewrite ok_bind. destruct (checkpointDir root id) as [dir|err] eqn:Hdir; [|by apply alone_ret; intros ? ->].
  rewrite ok_bind. eapply alone_bind; [apply (Load_spec _ M d1); [done|by left]|].
  intros r. apply triple_at. intros ? [-> Hr]. unfold load_answer in Hr.
  destruct (seal_decodes d1 m v key _ envelope Hfits Hver Hn Hv0 Hk Hseal) as [Hdec Hsum].
  fold id in Hr. destruct (M !! id) as [m'|] eqn:Hid.
  - destruct Hr as [[->|(err & -> & Herr)] _].
    + apply alone_ret. intros ? ->. unfold saved. fold id. rewrite Hid. by case_decide.
    + rewrite decide_False by done. by apply alone_ret; intros ? ->.
  - destruct r as [|err]; [done|]. case_decide; [|by apply alone_ret; intros ? ->].
    apply save_new_spec; [done..| |done|done]. fold id. by rewrite Hdir.
Qed.

(** ** Deleting *)

Definition deleted (M : repo) (id : string) (r : result unit) (d : depot K) : Prop :=
  match r with
  | Ok _ => is_Some (M !! id) ∧ serves (delete id M) d
  | Err _ => serves M d ∨ is_Some (M !! id) ∧ serves (delete id M) d
  end.

Lemma serves_delisted M d id : serves M d → serves (delete id M) (d <| index := delete id (index d) |>).
Proof.
  intros Hs id'. specialize (Hs id'). destruct (decide (id' = id)) as [->|Hne].
  - rewrite lookup_delete_eq. cbn. by rewrite lookup_delete_eq.
  - rewrite lookup_delete_ne by done. destruct (M !! id') as [m'|].
    + destruct Hs as (Hdir & s & enc & env & Hi & He & Hd & Hc). split; [done|]. exists s, enc, env. cbn.
      by rewrite lookup_delete_ne.
    + cbn. by rewrite lookup_delete_ne.
Qed.

Lemma Delete_spec (okE : disk_answer KE → Prop) M id :
  triple okE (serves M) (alone (DeleteStored root id)) (deleted M id)
    (λ d, serves M d ∨ is_Some (M !! id) ∧ serves (delete id M) d).
Proof.
  unfold DeleteStored. destruct (checkpointDir root id) as [dir|]; [|apply alone_ret; by left].
  apply alone_read; [by left|]. intros e d0 _ Hs0. pose proof (Hs0 id) as Hid.
  destruct (index d0 !! id) as [s|] eqn:Hi; [|apply alone_ret; intros ? ->; by left].
  assert (is_Some (M !! id)) as Hsome by (destruct (M !! id); [by eexists|congruence]).
  set (d1 := d0 <| index := delete id (index d0) |>).
  assert (serves (delete id M) d1) as Hs1 by by apply serves_delisted.
  apply (alone_bind _ _ _ _ (λ r d, if is_ok r then d = d1 else d = d0)).
  - apply alone_atomic; [intros ? ->; by left|]. intros e1 ? _ ->. by destruct (works_ e1).
  - intros [[]|err]; [|apply alone_ret; intros ? ->; by left].
    pose proof (serves_unlisted (delete id M) d1 id None (lookup_delete_eq _ _) Hs1) as Hs2.
    apply alone_atomic; [intros ? ->; by right|]. intros e1 ? _ ->. unfold wrote.
    destruct (works_ e1); [by split|]. destruct (landed_ e1); right; (split; [done|]); [exact Hs2|exact Hs1].
Qed.

(** ** The repository of the checkpoint service *)

Inductive repo_op := OpSave (m : SignedManifest) | OpDelete (id : string) | OpLoad (id : string).

(** An operation here, and in the model of the checkpoint service. *)
Definition concrete (op : repo_op) : thread (depot K) (disk_answer KE) (result (option CheckpointManifest)) :=
  match op with
  | OpSave m => r ← Save root m; mret (_ ← r; Ok None)
  | OpDelete id => r ← DeleteStored root id; mret (_ ← r; Ok None)
  | OpLoad id => r ← Load root id; mret (m ← r; Ok (Some (Body m)))
  end.
Definition abstract_op (op : repo_op) : call (result (option CheckpointManifest)) :=
  match op with
  | OpSave m => r ← SaveManifest (Body m); mret (_ ← r; Ok None)
  | OpDelete id => r ← DeleteManifest id; mret (_ ← r; Ok None)
  | OpLoad id => look (λ e h, m ← LoadCheckpoint e h id; Ok (Some m))
  end.

(** The repository serves the manifests of the machine [h]. *)
Definition implements (h : host) (d : depot K) : Prop := ∃ M, serves M d ∧ manifests h = Body <$> M.

Definition same_answer {A} (r r' : result A) : Prop :=
  match r, r' with Ok x, Ok y => x = y | Err _, Err _ => True | _, _ => False end.

(** The abstract operation answers alike and goes to a state that the new
    state implements; after a crash it has happened or not. *)
Definition matched (op : repo_op) (h : host) (r : option (result (option CheckpointManifest))) (d : depot K) : Prop :=
  ∃ ks, implements (final (run (abstract_op op) ks h)) d ∧
    match r with
    | Some r => ∃ r', returned (run (abstract_op op) ks h) = Some r' ∧ same_answer r r'
    | None => True
    end.

Definition answers (b : bool) : kernel :=
  {| ok := b; clock := 0; num := 0; ticks := 0; text := ""; extracted := []; captured := []; owner := (0, 0);
     exdev := false; ended := []; net := {| listen_ok := b; remaining := 0; write_ok := b; net_now := 0 |} |}.

Lemma matched_cut op h d : implements h d → matched op h None d.
Proof. intros Hi. exists []. split; [|done]. by destruct op. Qed.

Lemma run_save m k h :
  run (abstract_op (OpSave m)) [k] h =
  let out := match validateID (ManifestID (Body m)), validateID (SpecID (ManifestWorkload (Body m))) with
             | Err err, _ | _, Err err => (reap k h, Err err)
             | Ok _, Ok _ =>
                 if negb (ok k) then (reap k h, Err "save manifest")
                 else match manifests h !! ManifestID (Body m) with
                      | Some existing =>
                          if decide (ManifestSHA256 existing = ManifestSHA256 (Body m)) then (reap k h, Ok tt)
                          else (reap k h, Err "checkpoint id already exists with different contents")
                      | None => (reap k h <| manifests := <[ManifestID (Body m) := Body m]> (manifests h) |>, Ok tt)
                      end
             end in
  (Some (_ ← out.2; Ok None), out.1, []).
Proof. reflexivity. Qed.

Lemma matched_save_err h m err d : implements h d → matched (OpSave m) h (Some (Err err)) d.
Proof.
  intros Hi. exists [answers false]. rewrite run_save. cbv zeta.
  destruct (validateID (ManifestID (Body m))), (validateID (SpecID (ManifestWorkload (Body m))));
    (split; [exact Hi|]); by eexists.
Qed.

Lemma matched_save m h M d r :
  VerifyManifest m = Ok tt → manifests h = Body <$> M → saved M m r d →
  matched (OpSave m) h (Some (_ ← r; Ok None)) d.
Proof.
  intros Hv Hh Hs. destruct r as [[]|err]; [|apply matched_save_err; by exists M].
  destruct (verify_ids m Hv) as [Hid Hw]. exists [answers true]. rewrite run_save, Hid, Hw. cbv zeta.
  rewrite Hh, lookup_fmap. unfold saved in Hs. destruct (M !! ManifestID (Body m)) as [m'|] eqn:Hm; cbn [fmap option_fmap option_map].
  - destruct Hs as [Hs Hsha]. rewrite decide_True by done. split; [by exists M|]. by eexists.
  - split; [|by eexists]. exists (<[ManifestID (Body m) := m]> M). split; [done|]. by rewrite fmap_insert.
Qed.

Lemma matched_save_cut m h M d :
  VerifyManifest m = Ok tt → manifests h = Body <$> M → save_cut M m d → matched (OpSave m) h None d.
Proof.
  intros Hv Hh [Hs|[Hnone Hs]]; [apply matched_cut; by exists M|].
  destruct (matched_save m h M d (Ok tt) Hv Hh) as (ks & Hi & _); [|by exists ks].
  unfold saved. by rewrite Hnone.
Qed.

Lemma delete_gone h M d id :
  manifests h = Body <$> M → serves (delete id M) d →
  implements (h <| manifests := delete id (manifests h) |>) d.
Proof. intros Hh Hs. exists (delete id M). split; [done|]. cbn. by rewrite fmap_delete, Hh. Qed.

Lemma run_delete id k1 k2 h :
  run (abstract_op (OpDelete id)) [k1; k2] h =
  match validateID id, manifests h !! id with
  | Err err, _ => (Some (Err err), reap k1 h, [k2])
  | Ok _, None => (Some (Err "record not found"), reap k1 h, [k2])
  | Ok _, Some _ =>
      if ok k1 then
        (Some (if ok k2 then Ok None else Err "remove checkpoint directory"),
         reap k2 (reap k1 h <| manifests := delete id (manifests h) |>), [])
      else (Some (Err "delete index entry"), reap k1 h, [k2])
  end.
Proof.
  unfold abstract_op, DeleteManifest. rewrite !run_bind. unfold act at 1, atomic. rewrite run_act. cbv beta.
  change (manifests (reap k1 h)) with (manifests h).
  destruct (validateID id); [|reflexivity]. destruct (manifests h !! id); [|reflexivity].
  destruct (ok k1); [|reflexivity]. simpl. by destruct (ok k2).
Qed.

Lemma matched_delete id h M d r :
  is_ok (validateID id) = true → manifests h = Body <$> M → deleted M id r d →
  matched (OpDelete id) h (Some (_ ← r; Ok None)) d.
Proof.
  intros Hid Hh Hd. destruct (validateID id) as [[]|] eqn:Hv; [|done].
  assert (is_Some (M !! id) → is_Some (manifests h !! id)) as Hin.
  { intros [m Hm]. rewrite Hh, lookup_fmap, Hm. by eexists. }
  destruct r as [[]|err]; [destruct Hd as [Hsome Hs]|destruct Hd as [Hs|[Hsome Hs]]].
  - exists [answers true; answers true]. rewrite run_delete, Hv. destruct (Hin Hsome) as [m Hm]. rewrite Hm.
    split; [by apply (delete_gone h M)|]. by eexists.
  - exists [answers false; answers false]. rewrite run_delete, Hv. destruct (manifests h !! id);
      (split; [by exists M|]); by eexists.
  - exists [answers true; answers false]. rewrite run_delete, Hv. destruct (Hin Hsome) as [m Hm]. rewrite Hm.
    split; [by apply (delete_gone h M)|]. by eexists.
Qed.

Lemma matched_load okE id h M d r :
  manifests h = Body <$> M → serves M d → load_answer okE M id r →
  matched (OpLoad id) h (Some (m ← r; Ok (Some (Body m)))) d.
Proof.
  intros Hh Hs Hr. destruct r as [m|err].
  - exists [answers true]. split; [by exists M|]. eexists. split; [reflexivity|]. cbn.
    unfold load_answer in Hr. rewrite Hh, lookup_fmap. destruct (M !! id) as [m'|]; [|done].
    by destruct Hr as [[[= ->]|(err & ? & _)] _].
  - exists [answers false]. split; [by exists M|]. by eexists.
Qed.

(** What an operation needs: a manifest that fits its envelope, and versions
    that have not wrapped. *)
Definition op_fits (op : repo_op) (d : depot K) : Prop :=
  match op with
  | OpSave m => fits m ∧ unwrapped (SpecID (ManifestWorkload (Body m))) d
  | _ => True
  end.

Lemma concrete_matched op h :
  triple drawn_ok (λ d, implements h d ∧ op_fits op d) (alone (concrete op))
    (λ r, matched op h (Some r)) (matched op h None).
Proof.
  apply triple_at. intros d0 [(M & Hs & Hh) Hfits]. destruct op as [m|id|id]; cbn [concrete].
  - destruct (VerifyManifest m) as [[]|err] eqn:Hv.
    + apply (alone_bind _ _ _ _ (saved M m)); [|intros r; apply alone_ret; intros d Hd; by eapply matched_save].
      destruct Hfits as [Hf Hu]. eapply triple_conseq; [by apply (Save_spec M m)|..].
      * by intros ? ->.
      * done.
      * intros d Hd. by eapply matched_save_cut.
    + unfold Save. rewrite Hv. destruct (validateID (ManifestID (Body m))); [destruct (validateID (SpecID _))|];
        apply alone_ret; intros ? ->; apply matched_save_err; by exists M.
  - destruct (validateID id) as [[]|err] eqn:Hid.
    + apply (alone_bind _ _ _ _ (deleted M id));
        [|intros r; apply alone_ret; intros d Hd; eapply matched_delete; [by rewrite Hid|done|done]].
      eapply triple_conseq; [by apply Delete_spec|by intros ? ->|done|].
      intros d Hd. destruct (matched_delete id h M d (Err "")) as (ks & Hi & _); [by rewrite Hid|done|exact Hd|].
      by exists ks.
    + unfold DeleteStored, checkpointDir. rewrite Hid. apply alone_ret. intros ? ->.
      exists [answers true; answers true]. rewrite run_delete, Hid. split; [by exists M|]. by eexists.
  - apply (alone_bind _ _ _ _ (λ r d, d = d0 ∧ load_answer drawn_ok M id r)).
    + apply Load_spec; [done|]. apply matched_cut. by exists M.
    + intros r. apply alone_ret. intros ? [-> Hr]. by eapply matched_load.
Qed.

End repository.

(** ** A repository *)

#[local] Existing Instances toy_crypto toy_codec toy_keys toy_laws.

(** Signatures that are the key and the message, and keys that are their own
    encoding. *)
Definition toy_ed25519 : Ed25519.
Proof.
  refine {| parsePublicKey p := Some (String.list_byte_of_string p);
            ed25519_verify public message signature := bool_decide (signature = public ++ message);
            ed25519_sign private message := private ++ message; ed25519_public private := private;
            pem_of := String.string_of_list_byte |}.
  - intros. by apply bool_decide_eq_true.
  - intros der. f_equal. apply String.list_byte_of_string_of_list_byte.
Defined.

Definition toy_spec : WorkloadSpec := demo_admitted <| SpecID := "w" |>.
Definition toy_unsigned : CheckpointManifest :=
  {| Format := StateFormatName; FormatVersion := StateFormatVersion; ManifestID := "cp-1"; ParentID := "";
     Kind := CheckpointFull; ManifestWorkload := toy_spec; SourceIdentityID := ""; ManifestCreatedAt := 1;
     Engine := {| EngineName := "CRIU"; EngineVersion := ""; LeaveRunning := true; ParentImages := false;
                  PreCopy := false; EnginePreCopyPasses := 0; TCPState := false; ShellJob := true;
                  FileLocks := true |};
     Assets := [toy_asset]; RequiredBytes := 5; ManifestMetrics := checkpoint_metrics 1 1 2 0 [toy_asset];
     Security := {| SecurityKeyVersion := 1; ManifestSignature := ""; SignerMachineID := "";
                    SecurityAlgorithm := "" |};
     ManifestSHA256 := ""; CompatibilityID := "" |}.

(** JSON that knows one manifest by its signature. *)
Definition toy_shape (m : SignedManifest) : bytes :=
  if decide (ManifestSHA256 (Body m) = "") then [x00] else [x01].
Definition toy_signed : SignedManifest :=
  let signed (b : CheckpointManifest) (digest signature : string) : CheckpointManifest :=
    b <| SourceIdentityID := hex (sha256 toy_key) |> <| ManifestSHA256 := digest |>
      <| Security := {| SecurityKeyVersion := SecurityKeyVersion (Security b); ManifestSignature := signature;
                        SignerMachineID := hex (sha256 toy_key); SecurityAlgorithm := "Ed25519+SHA-256" |} |> in
  {| Body := signed toy_unsigned (hex (sha256 [x00])) (base64 (toy_key ++ sha256 [x00]));
     PublicKeyPEM := String.string_of_list_byte toy_key |}.
Definition toy_manifests : Json SignedManifest.
Proof.
  refine {| to_json := toy_shape; from_json bs := if decide (bs = [x01]) then Some toy_signed else None;
            plain_text m := m = toy_signed |}.
  - intros m ->. reflexivity.
  - intros m. unfold toy_shape. by destruct (decide _).
Defined.

(** JSON of the envelopes of that manifest. *)
Definition toy_envelope (v : Z) (nonce : string) : encryptedManifest :=
  {| EnvelopeFormat := 1; EnvelopeWorkload := "w"; EnvelopeCheckpoint := "cp-1"; EnvelopeKeyVersion := v;
     EnvelopeNonce := nonce; EnvelopeCiphertext := base64 (x01 :: replicate 16 x00) |}.
Definition toy_envelopes : Json encryptedManifest.
Proof.
  refine {| to_json e := big_endian 4 (EnvelopeKeyVersion e) ++ String.list_byte_of_string (EnvelopeNonce e);
            from_json bs := Some (toy_envelope (from_big_endian (take 4 bs)) (String.string_of_list_byte (drop 4 bs)));
            plain_text e := 0 ≤ EnvelopeKeyVersion e < 2 ^ 32 ∧ e = toy_envelope (EnvelopeKeyVersion e) (EnvelopeNonce e) |}.
  - intros e [Hv ->]. f_equal. cbn [EnvelopeKeyVersion EnvelopeNonce toy_envelope].
    rewrite (take_app_length' (big_endian 4 _)), (drop_app_length' (big_endian 4 _)) by by rewrite big_endian_length.
    rewrite big_endian_mod, Z.mod_small by (change (256 ^ Z.of_nat 4) with (2 ^ 32); lia).
    by rewrite String.string_of_list_byte_of_string.
  - intros e. unfold bsize. rewrite length_app, big_endian_length. lia.
Defined.
#[local] Existing Instances toy_ed25519 toy_manifests toy_envelopes.

Definition empty_depot : depot unit := {| shelf := toy_store; index := ∅; envelopes := ∅ |}.

Lemma toy_signs : toy_signed = sign_manifest toy_key {| Body := toy_unsigned; PublicKeyPEM := "" |}.
Proof. vm_compute. reflexivity. Qed.

Lemma toy_fits : fits toy_signed.
Proof.
  split; [done|]. intros v key nonce envelope Hv Hs Hn. unfold seal_manifest in Hs.
  apply bind_ok in Hs as (c & Hc & Henv%Ok_inj). unfold Encrypt in Hc. apply bind_ok in Hc as (k & _ & Hc%Ok_inj).
  assert (c = x01 :: replicate 16 x00) as -> by (rewrite <- Hc; vm_compute; reflexivity).
  assert (envelope = toy_envelope v (base64 nonce)) as -> by (rewrite <- Henv; reflexivity).
  split; [done|]. do 13 (destruct nonce as [|? nonce]; try done).
Qed.

Definition toy_kept : option (result (option CheckpointManifest)) * depot unit * list (disk_answer unit) :=
  run (concrete ["var"] (OpSave toy_signed)) (replicate 9 calm_disk) empty_depot.

