(* ===== verification/GC.v ===== *)
(** * Garbage collection ([internal/gc/gc.go])

    Chunks are shared between checkpoints, so deleting a checkpoint leaves
    them behind; the collector removes the ones no manifest refers to.  [Plan]
    lists the unreferenced files and keeps a ledger of when each was first
    seen; [Sweep] derives the references again and deletes what the plan and
    the clock allow.

    The offline collector owns the state directory; the online one holds the
    agent's write guard around the scan of [Plan] and around the deletions of
    [Sweep], and lets go of it between the two and while it reclaims stale
    temporary files.  A collector is modelled as a thread that runs alone and
    dies between any two calls: what a writer does in these two windows is not
    modelled. *)
From Stdlib Require Import Ascii.
From S2P Require Import Prelude GoStr Model Workload Prog Conc Crypto Keys ChunkStore Network Host Checkpoint Repository.

Local Open Scope string_scope.
Local Open Scope list_scope.
Local Open Scope Z_scope.

(** One hour, in nanoseconds. *)
Definition minGrace : Z := 3600 * 10 ^ 9.

Record Candidate := {
  CandidateRef : ChunkRef;
  CandidateBytes : Z;
  CandidateModified : Z;
  FirstSeenAt : Z;
  EligibleAt : Z;
  CandidateStatus : string;
  CandidateError : string;
}.
#[export] Instance Candidate_eta : Eta Candidate := fun c =>
  Build_Candidate (CandidateRef c) (CandidateBytes c) (CandidateModified c) (FirstSeenAt c) (EligibleAt c)
    (CandidateStatus c) (CandidateError c).

Record Plan := {
  PlanID : string;
  GeneratedAt : Z;
  GracePeriod : Z;
  Referenced : Z;
  CheckpointCount : Z;
  Candidates : list Candidate;
  Cursor : nat;
  PlanStatus : string;
  DryRun : bool;
  PlanUpdatedAt : Z;
  Orphans : gmap string Z;
  UnindexedManifests : list string;
}.
#[export] Instance Plan_eta : Eta Plan := fun p =>
  Build_Plan (PlanID p) (GeneratedAt p) (GracePeriod p) (Referenced p) (CheckpointCount p) (Candidates p)
    (Cursor p) (PlanStatus p) (DryRun p) (PlanUpdatedAt p) (Orphans p) (UnindexedManifests p).

(** The repository and the chunks, the ledger of orphans and the saved
    plans. *)
Record yard (K : Type) := {
  goods : depot K;
  ledger : option (gmap string Z);
  plans : gmap string Plan;
}.
Arguments goods {K} _.
Arguments ledger {K} _.
Arguments plans {K} _.
Arguments Build_yard {K} _ _ _.
#[export] Instance yard_eta K : Eta (yard K) := fun y => Build_yard (goods y) (ledger y) (plans y).

(** [chunkKey]. *)
Definition chunkKey (ref : ChunkRef) : string := "v" +:+ Itoa (KeyVersion ref) +:+ "/" +:+ Address ref.

(** [validPlanID]; no accepted character is a separator. *)
Definition plan_char (a : ascii) : bool :=
  let n := N_of_ascii a in ((97 <=? n) && (n <=? 122) || (48 <=? n) && (n <=? 57) || (n =? 45))%N.
Definition validPlanID (id : string) : bool :=
  match id with
  | "" => false
  | String a _ => (String.length id <=? 64)%nat && forallb plan_char (String.list_ascii_of_string id) &&
                  negb (bool_decide (a = "-"%char))
  end.

Definition errPlanNotFound : string := "garbage collection plan not found".

(** ** The verdict on one candidate *)

Inductive verdict := Leave | Referenced_again | Due.

(** The tests of the loop of [Sweep], in their order. *)
Definition judge (now : Z) (referenced : gset string) (c : Candidate) : verdict :=
  if decide (CandidateStatus c = "deleted" ∨ CandidateStatus c = "skipped") then Leave
  else if negb (bool_decide (CandidateStatus c = "eligible")) ||
          (negb (EligibleAt c =? 0) && (now <? EligibleAt c)) then Leave
  else if now - minGrace <? CandidateModified c then Leave
  else if decide (chunkKey (CandidateRef c) ∈ referenced) then Referenced_again
  else Due.

(** The candidate [Plan] makes of a file: [first] is when the ledger saw it. *)
Definition candidate (now grace first : Z) (info : ChunkInfo) : Candidate :=
  {| CandidateRef := InfoRef info; CandidateBytes := StoredSize (InfoRef info);
     CandidateModified := InfoModified info; FirstSeenAt := first; EligibleAt := first + grace;
     CandidateStatus := if first + grace <=? now then "eligible" else "waiting"; CandidateError := "" |}.

(** The loop of [Plan]: the candidates and the new ledger. *)
Fixpoint observe (now grace : Z) (previous : gmap string Z) (referenced : gset string)
    (onDisk : list ChunkInfo) (current : gmap string Z) : list Candidate * gmap string Z :=
  match onDisk with
  | [] => ([], current)
  | info :: rest =>
      let key := chunkKey (InfoRef info) in
      if decide (key ∈ referenced) then observe now grace previous referenced rest current
      else
        let seen := default 0 (previous !! key) in
        let first := if seen =? 0 then now else seen in
        let '(cs, current) := observe now grace previous referenced rest (<[key := first]> current) in
        (candidate now grace first info :: cs, current)
  end.

Definition sooner (a b : Candidate) : Prop := EligibleAt a ≤ EligibleAt b.
#[export] Instance sooner_dec : RelDecision sooner.
Proof. intros a b. unfold sooner. apply _. Defined.

Definition manifest_refs (m : SignedManifest) : list ChunkRef := mjoin (Chunks <$> Assets (Body m)).

Section collector.
Context `{HC : !Crypto, HZ : !Codec, HS : !Ed25519, HM : !Json SignedManifest, HE : !Json encryptedManifest}
        {K KE : Type} `{HK : !KeyManager K KE} (root : path).

#[local] Abbreviation act := (thread (yard K) (disk_answer KE)).

Definition on_goods {R} (t : thread (depot K) (disk_answer KE) R) : act R :=
  zoom goods (λ d y, y <| goods := d |>) id t.

Definition now : act Z := atomic (λ e y, (y, at_time e)).

(** ** Saved state *)

(** [loadPlan] and [savePlan]. *)
Definition loadPlan (id : string) : act (result Plan) :=
  if negb (validPlanID id) then mret (Err errPlanNotFound)
  else atomic (λ e y, (y, match plans y !! id with
                          | None => Err errPlanNotFound
                          | Some p => if negb (works_ e) then Err "read plan"
                                      else if decide (PlanID p = id) then Ok p else Err errPlanNotFound
                          end)).
Definition savePlan (p : Plan) : act (result unit) :=
  if negb (validPlanID (PlanID p)) then mret (Err "gc plan id is required")
  else atomic (λ e y, wrote e y (y <| plans := <[PlanID p := p]> (plans y) |>) "write plan").

(** [loadOrphans] and [saveOrphans]. *)
Definition loadOrphans : act (result (gmap string Z)) :=
  atomic (λ e y, (y, match ledger y with
                     | None => Ok ∅
                     | Some m => if works_ e then Ok m else Err "read orphans"
                     end)).
Definition saveOrphans (m : gmap string Z) : act (result unit) :=
  atomic (λ e y, wrote e y (y <| ledger := Some m |>) "write orphans").

(** ** References *)

(** The first loop of [referencedChunks], over the index. *)
Fixpoint scan_index (summaries : list Summary) (referenced : gset string) (count : Z)
    : act (result (gset string * Z)) :=
  match summaries with
  | [] => mret (Ok (referenced, count))
  | s :: rest =>
      r ← on_goods (Load root (SummaryID s));
      match r with
      | Err _ => mret (Err "load checkpoint for gc")
      | Ok m => scan_index rest (referenced ∪ list_to_set (chunkKey <$> manifest_refs m)) (count + 1)
      end
  end.

(** [onDiskManifestChunks]: every envelope on disk must authenticate. *)
Fixpoint scan_envelopes (ids : list string) (indexed referenced : gset string) (unindexed : list string)
    : act (result (gset string * list string)) :=
  match ids with
  | [] => mret (Ok (referenced, merge_sort (λ a b, Is_true (String.leb a b)) unindexed))
  | id :: rest =>
      read ← atomic (λ e y, (y, match envelopes (goods y) !! id with
                                | None => Err errNotExist
                                | Some encoded => if works_ e then Ok encoded else Err "read manifest"
                                end));
      match read with
      | Err err => if decide (err = errNotExist) then scan_envelopes rest indexed referenced unindexed
                   else mret (Err err)
      | Ok encoded =>
          r ← on_goods (DecodeEncryptedManifest id encoded);
          match r with
          | Err _ => mret (Err "on-disk checkpoint manifest is unreadable for gc")
          | Ok m =>
              scan_envelopes rest indexed (referenced ∪ list_to_set (chunkKey <$> manifest_refs m))
                (if decide (ManifestID (Body m) ∈ indexed) then unindexed else unindexed ++ [ManifestID (Body m)])
          end
      end
  end.

(** [referencedChunks]. *)
Definition referencedChunks : act (result (gset string * Z * list string)) :=
  summaries ← on_goods (ListStored "");
  first ← scan_index summaries ∅ 0;
  match first with
  | Err err => mret (Err err)
  | Ok (referenced, count) =>
      entries ← atomic (λ e y, (y, if works_ e
        then Ok (merge_sort (λ a b, Is_true (String.leb a b)) (elements (dom (envelopes (goods y)))))
        else Err "read checkpoints"));
      match entries with
      | Err err => mret (Err err)
      | Ok ids =>
          second ← scan_envelopes ids (list_to_set (SummaryID <$> summaries)) referenced [];
          mret ('(referenced, unindexed) ← second; Ok (referenced, count, unindexed))
      end
  end.

(** ** Planning *)

(** [Collector.Plan] at time [at_]. *)
Definition MakePlan (grace at_ : Z) : act (result Plan) :=
  if grace <? 0 then mret (Err "gc grace period cannot be negative")
  else
    let grace := Z.max grace minGrace in
    at_ ← (if at_ =? 0 then now else mret at_);
    previous ← loadOrphans;
    match previous with
    | Err err => mret (Err err)
    | Ok previous =>
        scanned ← referencedChunks;
        match scanned with
        | Err err => mret (Err err)
        | Ok (referenced, count, unindexed) =>
            listed ← on_goods (on_shelf Enumerate);
            match listed with
            | Err err => mret (Err err)
            | Ok onDisk =>
                id ← atomic (λ e y, (y, hex (nonce_drawn e)));
                let '(candidates, current) := observe at_ grace previous referenced onDisk ∅ in
                let plan := {| PlanID := id; GeneratedAt := at_; GracePeriod := grace;
                  Referenced := Z.of_nat (size referenced); CheckpointCount := count;
                  Candidates := merge_sort sooner candidates; Cursor := 0; PlanStatus := "planned";
                  DryRun := false; PlanUpdatedAt := at_; Orphans := current;
                  UnindexedManifests := unindexed |} in
                kept ← saveOrphans current;
                match kept with
                | Err err => mret (Err err)
                | Ok _ =>
                    saved ← savePlan plan;
                    mret (_ ← saved; Ok plan)
                end
            end
        end
    end.

(** ** Sweeping *)

(** What is reported: the plan as it stands, and the error. *)
Definition swept : Type := Plan * result unit.

(** The loop of [Sweep] from the cursor on. *)
Fixpoint sweep_loop (at_ : Z) (referenced : gset string) (plan : Plan) (past rest : list Candidate)
    : act swept :=
  match rest with
  | [] => mret (plan <| Candidates := past |> <| Cursor := length past |>, Ok tt)
  | c :: rest =>
      stop ← atomic (λ e y, (y, ctx_done e));
      if (stop : bool) then
        mret (plan <| Candidates := past ++ c :: rest |> <| Cursor := length past |> <| PlanStatus := "paused" |>,
              Err "context done")
      else match judge at_ referenced c with
      | Leave => sweep_loop at_ referenced plan (past ++ [c]) rest
      | Referenced_again =>
          sweep_loop at_ referenced plan
            (past ++ [c <| CandidateStatus := "skipped" |> <| CandidateError := "chunk became referenced" |>]) rest
      | Due =>
          gone ← on_goods (on_shelf (DeleteRef (CandidateRef c) (CandidateModified c)));
          let c := match gone with
                   | Ok _ => c <| CandidateStatus := "deleted" |>
                   | Err err => c <| CandidateStatus := "skipped" |> <| CandidateError := err |>
                   end in
          let past := past ++ [c] in
          _ ← (if Z.of_nat (length past) `mod` 128 =? 0
               then savePlan (plan <| Candidates := past ++ rest |> <| Cursor := length past |>)
               else mret (Ok tt));
          sweep_loop at_ referenced plan past rest
      end
  end.

(** [strings.HasPrefix] of the staging files [reclaimStaleTemps] knows. *)
Definition stale_temp (cutoff : Z) (p : list string) (f : chunk_file) : bool :=
  (HasPrefix (List.last p "") ".gc-" || HasPrefix (List.last p "") ".chunk-") && (modified f <? cutoff).

(** [reclaimStaleTemps]. *)
Fixpoint remove_temps (ps : list (list string)) : act unit :=
  match ps with
  | [] => mret tt
  | p :: rest => _ ← on_goods (on_shelf (remove_file p)); remove_temps rest
  end.
Definition reclaimStaleTemps : act unit :=
  at_ ← now;
  ps ← atomic (λ e y, (y, if works_ e
    then (map_to_list (filter (λ x, Is_true (stale_temp (at_ - minGrace) x.1 x.2)) (files (shelf (goods y))))).*1
    else []));
  remove_temps ps.

(** The part of [Sweep] under the guard. *)
Definition sweep_guarded (at_ : Z) (plan : Plan) : act (bool * swept) :=
  scanned ← referencedChunks;
  match scanned with
  | Err err => mret (false, (plan <| PlanStatus := "paused" |>, Err err))
  | Ok (referenced, _, unindexed) =>
      out ← sweep_loop at_ referenced (plan <| UnindexedManifests := unindexed |>)
              (take (Cursor plan) (Candidates plan)) (drop (Cursor plan) (Candidates plan));
      mret (is_ok out.2, out)
  end.

(** [Collector.Sweep]. *)
Definition Sweep (id : string) (dryRun : bool) : act (result swept) :=
  loaded ← loadPlan id;
  match loaded with
  | Err err => mret (Err err)
  | Ok plan =>
      at_ ← now;
      if dryRun then
        let plan := plan <| DryRun := true |> <| PlanUpdatedAt := at_ |> in
        _ ← savePlan plan;
        mret (Ok (plan, Ok tt))
      else
        out ← sweep_guarded at_ (plan <| DryRun := false |> <| PlanStatus := "running" |>);
        let '(ended, (plan, verdict)) := out in
        if negb ended then
          _ ← savePlan plan;
          mret (Ok (plan, verdict))
        else
          _ ← reclaimStaleTemps;
          at_ ← now;
          let plan := plan <| PlanStatus := "completed" |> <| PlanUpdatedAt := at_ |> in
          saved ← savePlan plan;
          mret (Ok (plan, saved))
  end.

(** [Collector.Cancel]. *)
Definition CancelPlan (id : string) : act (result swept) :=
  loaded ← loadPlan id;
  match loaded with
  | Err err => mret (Err err)
  | Ok plan =>
      at_ ← now;
      let plan := plan <| PlanStatus := "cancelled" |> <| PlanUpdatedAt := at_ |> in
      saved ← savePlan plan;
      mret (Ok (plan, saved))
  end.

(** [requestDuration], in nanoseconds. *)
Definition maxRequestSeconds : Z := 86400.
Definition requestDuration (seconds : Z) : result Z :=
  _ ← require (negb ((seconds <? 0) || (maxRequestSeconds <? seconds))) "INVALID_ARGUMENT";
  Ok (seconds * 10 ^ 9).

(** The agent's request for a collection ([internal/agent/api.go]), by a
    caller with user id [uid], while nothing else writes. *)
Definition handleGC (uid graceSeconds : Z) (dryRun : bool) : act (result swept) :=
  if negb (uid =? 0) then mret (Err "GC_ROOT_REQUIRED")
  else match requestDuration graceSeconds with
  | Err err => mret (Err err)
  | Ok grace =>
    at_ ← now;
    planned ← MakePlan (if grace <=? 0 then 24 * minGrace else grace) at_;
    match planned with
    | Err _ => mret (Err "GC_PLAN_FAILED")
    | Ok plan =>
        r ← Sweep (PlanID plan) dryRun;
        mret (match r with
              | Ok (plan, Ok _) => Ok (plan, Ok tt)
              | _ => Err "GC_SWEEP_FAILED"
              end)
    end
  end.
End collector.
