(* ===== verification/GCSafe.v ===== *)
(** * Collection is safe

    A collection deletes a chunk only when no envelope on disk refers to it,
    when an earlier collection had already seen it unreferenced an hour or
    more before, and when its file is at least an hour old; so whatever fails
    and wherever the agent dies, every checkpoint keeps its chunks. *)
From Stdlib Require Import Ascii.
From S2P Require Import Prelude GoStr Model Workload Prog Conc Crypto Keys ChunkStore ChunkSafe Network Host Checkpoint Repository RepositorySafe GC.

Local Open Scope string_scope.
Local Open Scope list_scope.
Local Open Scope Z_scope.

(** ** Names *)

Lemma append_inj_r (a b suffix : string) : a +:+ suffix = b +:+ suffix → a = b.
Proof.
  intros H. assert (String.length a = String.length b) as Hl.
  { apply (f_equal String.length) in H. rewrite !string_app_length in H. lia. }
  revert b H Hl. induction a as [|x a IH]; intros [|y b] H Hl; try done. injection H as -> H. f_equal.
  apply IH; [done|]. cbn in Hl. lia.
Qed.

Lemma chunkPath_key a b p : chunkPath a = Ok p → chunkPath b = Ok p → chunkKey a = chunkKey b.
Proof.
  unfold chunkPath, chunkKey. destruct (_ || _); [done|]. intros <-%Ok_inj. destruct (_ || _); [done|].
  intros [= Hv _ Ha]. apply append_inj_r in Ha as ->. change (Itoa (KeyVersion b) = Itoa (KeyVersion a)) in Hv. by rewrite Hv.
Qed.

(** A chunk's file is not a staging file. *)
Lemma chunkPath_not_temp ref p cutoff f : chunkPath ref = Ok p → stale_temp cutoff p f = false.
Proof.
  unfold chunkPath, stale_temp. destruct (negb _ || negb (only_of _ (Address ref))) eqn:Hc; [done|].
  apply orb_false_iff in Hc as [Hl Ho]. apply negb_false_iff in Ho, Hl. intros <-%Ok_inj. cbn [List.last].
  destruct (Address ref) as [|a rest]; [done|]. cbn [only_of] in Ho. apply andb_true_iff in Ho as [Ha _].
  destruct (decide (a = "."%char)) as [->|Hne]; [done|].
  change (String a rest +:+ ".chunk") with (String a (rest +:+ ".chunk")). cbn [HasPrefix].
  by rewrite !bool_decide_false by congruence.
Qed.

Section collector.
Context `{HC : !Crypto, HZ : !Codec, HS : !Ed25519, HM : !Json SignedManifest, HE : !Json encryptedManifest}
        {K KE : Type} `{HK : !KeyManager K KE}
        {knows : K → string → Z → bytes → Prop} {reads : KE → Prop} `{HL : !KeyLaws K KE knows reads}
        (root : path).

#[local] Abbreviation decodes := (decodes (knows := knows)).

(** ** References *)

(** [R] has every chunk an envelope of [d] refers to. *)
Definition covers (d : depot K) (R : gset string) : Prop :=
  ∀ id encoded m envelope ref, envelopes d !! id = Some encoded → decodes d id encoded m envelope →
    ref ∈ manifest_refs m → chunkKey ref ∈ R.

(** A call that only reads. *)
Definition quiet {S E R} (t : thread S E R) : Prop := guarantees (λ s s', s' = s) t.

Lemma quiet_triple {S E R} (okE : E → Prop) (t : thread S E R) s0 :
  quiet t → triple okE (λ s, s = s0) (alone t) (λ _ s, s = s0) (λ s, s = s0).
Proof. intros Ht. apply (alone_guarantees okE _ (λ s, s = s0) _ t Ht); [|done]. by intros s s' -> ->. Qed.

Lemma quiet_zoom {S E S' E' R} (view : S → S') (write : S' → S → S) (answer : E → E') (t : thread S' E' R) :
  (∀ s, write (view s) s = s) → quiet t → quiet (zoom view write answer t).
Proof. intros Hw. apply guarantees_lift. intros x s ->. apply Hw. Qed.

Lemma quiet_read {S E A} (f : E → S → A) : quiet (atomic (λ e s, (s, f e s))).
Proof. by apply guarantees_atomic. Qed.

Lemma quiet_goods {R} (t : thread (depot K) (disk_answer KE) R) : quiet t → quiet (on_goods t).
Proof. apply quiet_zoom. by intros []. Qed.

Lemma quiet_shelf {R} (t : thread (store K) (disk_answer KE) R) : quiet t → quiet (on_shelf t).
Proof. apply quiet_zoom. by intros []. Qed.

Lemma quiet_decode id encoded : quiet (decodeEncryptedManifest (K := K) (KE := KE) id encoded).
Proof.
  unfold decodeEncryptedManifest. destruct (open_envelope id encoded); [|done].
  apply guarantees_bind; [|done]. apply quiet_shelf, quiet_read.
Qed.

Lemma quiet_Load id : quiet (Load (K := K) (KE := KE) root id).
Proof.
  apply guarantees_bind; [|done]. unfold loadEncryptedManifest. destruct (checkpointDir root id); [|done].
  apply guarantees_bind; [apply quiet_read|]. intros [s|]; [|done].
  apply guarantees_bind; [apply quiet_read|]. intros [enc|]; [|done].
  apply guarantees_bind; [apply quiet_decode|done].
Qed.

Lemma quiet_index summaries : ∀ R n, quiet (scan_index (K := K) (KE := KE) root summaries R n).
Proof.
  induction summaries as [|s rest IH]; intros R n; [done|].
  apply guarantees_bind; [apply quiet_goods, quiet_Load|]. intros []; [apply IH|done].
Qed.

(** A call on the repository that only reads, with what it tells. *)
Lemma goods_tell {R} (okE : disk_answer KE → Prop) (t : thread (depot K) (disk_answer KE) R) y0 (φ : R → Prop) :
  triple okE (λ d, d = goods y0) (alone t) (λ r d, d = goods y0 ∧ φ r) (λ d, d = goods y0) →
  triple okE (λ y, y = y0) (alone (on_goods t)) (λ r y, y = y0 ∧ φ r) (λ y, y = y0).
Proof.
  intros Ht. assert (∀ y, y <| goods := goods y0 |> = y0 → goods y = goods y0 → y = y0) as Heq.
  { intros [] H Hg. cbn in *. by subst. }
  eapply triple_conseq.
  - eapply (zoom_triple goods (λ d y, y <| goods := d |>) id okE okE (λ y, y <| goods := goods y0 |> = y0) t);
      [done|done|by intros ? ?|exact Ht].
  - intros y ->. by destruct y0.
  - intros r y (Hy & Hg & Hr). split; [by apply Heq|done].
  - intros y (Hy & Hg). by apply Heq.
Qed.

Lemma decode_agrees okE d0 id encoded :
  triple okE (λ d, d = d0) (alone (DecodeEncryptedManifest (KE := KE) id encoded))
    (λ r d, d = d0 ∧ ∀ m envelope m', decodes d0 id encoded m envelope → r = Ok m' → m' = m) (λ d, d = d0).
Proof.
  apply (alone_bind _ _ _ _ (λ r d, d = d0 ∧
    ∀ m envelope m', decodes d0 id encoded m envelope → ('(m, _) ← r; Ok m) = Ok m' → m' = m)); [|intros r; by apply alone_ret].
  unfold decodeEncryptedManifest. destruct (open_envelope id encoded) as [envelope|] eqn:Ho; [|by apply alone_ret].
  eapply (alone_bind _ _ _ _ (λ r d, d = d0 ∧ ∀ key key', knows (key_state (shelf d0)) (EnvelopeWorkload envelope)
    (EnvelopeKeyVersion envelope) key → r = Ok key' → key' = key)).
  - apply alone_act; [by intros ? ->|]. intros e ? _ ->. split; [by apply shelf_same|]. intros key key' Hk Hr.
    by eapply key_known.
  - intros r. apply alone_ret. intros ? [-> Hr]. split; [done|]. intros m envelope' m' (Ho' & key & Hk & Hm) Hx.
    rewrite Ho in Ho'. injection Ho' as <-.
    apply bind_ok in Hx as ([m1 e1] & Hx & [= <-]). apply bind_ok in Hx as (key' & -> & Hx).
    apply bind_ok in Hx as (m2 & Hm2 & [= <- <-]). rewrite (Hr key key') in Hm2 by done. congruence.
Qed.

Lemma scan_envelopes_covers okE y0 ids : ∀ indexed R unindexed,
  triple okE (λ y, y = y0) (alone (scan_envelopes ids indexed R unindexed))
    (λ r y, y = y0 ∧ ∀ R' u, r = Ok (R', u) → R ⊆ R' ∧
       ∀ id encoded m envelope ref, id ∈ ids → envelopes (goods y0) !! id = Some encoded →
         decodes (goods y0) id encoded m envelope → ref ∈ manifest_refs m → chunkKey ref ∈ R') (λ y, y = y0).
Proof.
  induction ids as [|id ids IH]; intros indexed R unindexed; cbn [scan_envelopes].
  - apply alone_ret. intros ? ->. split; [done|]. intros R' u [= <- <-]. split; [done|]. by intros ? ? ? ? ? ?%elem_of_nil.
  - apply alone_read; [done|]. intros e ? _ ->. destruct (envelopes (goods y0) !! id) as [encoded|] eqn:Henc.
    + destruct (works_ e); [|by apply alone_ret]. eapply alone_bind; [apply goods_tell, decode_agrees|].
      intros r. apply triple_at. intros ? [-> Hr]. destruct r as [m|]; [|by apply alone_ret; intros ? ->].
      eapply triple_post; [|apply IH]. intros r y [-> H]. split; [done|]. intros R' u Hok.
      destruct (H R' u Hok) as [Hsub Hall]. split; [etrans; [apply union_subseteq_l|exact Hsub]|].
      intros id' enc' m' env' ref [->|Hin]%elem_of_cons He' Hd Href; [|by eapply Hall].
      assert (enc' = encoded) as -> by congruence. rewrite (Hr m' env' m) in Hsub by done.
      apply Hsub, elem_of_union_r, elem_of_list_to_set, list_elem_of_fmap. by exists ref.
    + case_decide; [|done]. eapply triple_post; [|apply IH]. intros r y [-> Hx]. split; [done|]. intros R' u Hok.
      destruct (Hx R' u Hok) as [Hsub Hall]. split; [done|].
      intros id' enc' m' env' ref [->|Hin]%elem_of_cons He' Hd Href; [congruence|]. by eapply Hall.
Qed.

Lemma referenced_covers okE y0 :
  triple okE (λ y, y = y0) (alone (referencedChunks root))
    (λ r y, y = y0 ∧ ∀ R n u, r = Ok (R, n, u) → covers (goods y0) R) (λ y, y = y0).
Proof.
  unfold referencedChunks. eapply alone_bind; [apply quiet_triple, quiet_goods, quiet_read|]. intros summaries.
  eapply alone_bind; [apply quiet_triple, quiet_index|]. intros [[R n]|]; [|by apply alone_ret].
  apply alone_read; [done|]. intros e ? _ ->. destruct (works_ e); [|by apply alone_ret].
  eapply alone_bind; [apply scan_envelopes_covers|]. intros r. apply alone_ret. intros ? [-> Hr]. split; [done|].
  intros R' n' u Hx. apply bind_ok in Hx as ([R1 u1] & -> & [= <- <- <-]). destruct (Hr _ _ eq_refl) as [_ Hall].
  intros id encoded m envelope ref Henc. apply Hall; [|done]. rewrite merge_sort_Permutation.
  by apply elem_of_elements, elem_of_dom.
Qed.

(** ** Deletions *)

(** The repository is as it was and no file is new; the files that are gone
    satisfy [gone]. *)
Definition thinned (gone : list string → chunk_file → Prop) (d0 d : depot K) : Prop :=
  index d = index d0 ∧ envelopes d = envelopes d0 ∧ key_state (shelf d) = key_state (shelf d0) ∧
  ∀ p, files (shelf d) !! p = files (shelf d0) !! p ∨
       files (shelf d) !! p = None ∧ ∃ f, files (shelf d0) !! p = Some f ∧ gone p f.

Lemma thinned_refl gone d : thinned gone d d.
Proof. repeat split; try done. by left. Qed.

Lemma thinned_mono (gone gone' : list string → chunk_file → Prop) d0 d :
  (∀ p f, gone p f → gone' p f) → thinned gone d0 d → thinned gone' d0 d.
Proof.
  intros H (? & ? & ? & Hf). split_and!; [done..|]. intros p. destruct (Hf p) as [|(? & f & ? & ?)]; [by left|].
  right. split; [done|]. exists f. auto.
Qed.

Lemma thinned_delete (gone : list string → chunk_file → Prop) d0 d p :
  thinned gone d0 d → (∀ f, files (shelf d) !! p = Some f → gone p f) →
  thinned gone d0 (d <| shelf := (shelf d) <| files := delete p (files (shelf d)) |> |>).
Proof.
  intros (Hi & He & Hk & Hf) Hp. split_and!; [done..|]. intros q. cbn.
  destruct (decide (q = p)) as [->|Hne]; [|by rewrite lookup_delete_ne].
  rewrite lookup_delete_eq. destruct (Hf p) as [Heq|(Hn & f & Hs & Hg)]; [|by right; eauto].
  destruct (files (shelf d) !! p) as [f|] eqn:Hd; [right|by left]. split; [done|]. exists f.
  split; [congruence|by apply Hp].
Qed.

Definition with_shelf (s : store K) (y : yard K) : yard K := y <| goods := (goods y) <| shelf := s |> |>.

Lemma with_shelf_same y : with_shelf (shelf (goods y)) y = y.
Proof. by destruct y as [[] ? ?]. Qed.

Lemma shelf_step {R} (okE : disk_answer KE → Prop) (t : thread (store K) (disk_answer KE) R) y0
    (Φ : R → store K → Prop) (Ψ : store K → Prop) :
  triple okE (λ s, s = shelf (goods y0)) (alone t) Φ Ψ →
  triple okE (λ y, y = y0) (alone (on_goods (on_shelf t)))
    (λ r y, ∃ s, y = with_shelf s y0 ∧ Φ r s) (λ y, ∃ s, y = with_shelf s y0 ∧ Ψ s).
Proof.
  intros Ht.
  assert (∀ y, with_shelf (shelf (goods y0)) y = y0 → y = with_shelf (shelf (goods y)) y0) as Heq.
  { intros [[] ? ?] <-. done. }
  eapply triple_conseq.
  - eapply (zoom_triple goods (λ d y, y <| goods := d |>) id okE okE
      (λ y, y <| goods := goods y0 |> = y0) (on_shelf t)); [done|done|by intros ? ?|].
    eapply (zoom_triple shelf (λ s d, d <| shelf := s |>) id okE okE
      (λ d, d <| shelf := shelf (goods y0) |> = goods y0) t); [done|done|by intros ? ?|exact Ht].
  - intros y ->. split; [by destruct y0|]. split; [by destruct (goods y0)|done].
  - intros r y (Hy & Hd & HΦ). exists (shelf (goods y)). split; [|done]. apply Heq.
    unfold with_shelf. by rewrite Hd.
  - intros y (Hy & Hd & HΦ). exists (shelf (goods y)). split; [|done]. apply Heq. unfold with_shelf. by rewrite Hd.
Qed.

Definition dropped (s0 : store K) (ref : ChunkRef) (planned : Z) (s : store K) : Prop :=
  ∃ p f, chunkPath ref = Ok p ∧ files s0 !! p = Some f ∧ modified f = planned ∧
    s = s0 <| files := delete p (files s0) |>.

Lemma DeleteRef_spec (okE : disk_answer KE → Prop) s0 ref planned :
  triple okE (λ s, s = s0) (alone (DeleteRef ref planned))
    (λ r s, if is_ok r then dropped s0 ref planned s else s = s0) (λ s, s = s0).
Proof.
  unfold DeleteRef. destruct (chunkPath ref) as [p|] eqn:Hp; [|by apply alone_ret].
  apply alone_read; [done|]. intros e ? _ ->. destruct (files s0 !! p) as [f|] eqn:Hf; [|by apply alone_ret].
  destruct (works_ e); [|by apply alone_ret].
  destruct (Z.eqb_spec (modified f) planned) as [Hm|]; [|by apply alone_ret].
  destruct (_ =? _); [|by apply alone_ret]. cbn [andb negb].
  apply alone_read; [done|]. intros e1 ? _ ->. rewrite Hf. destruct (works_ e1); [|by apply alone_ret].
  destruct (_ =? _); [|by apply alone_ret]. cbn [negb].
  apply alone_atomic; [done|]. intros e2 ? _ ->. rewrite Hf. destruct (works_ e2); [|done]. cbn. by exists p, f.
Qed.

(** What the sweep may delete: the file of a candidate that is due. *)
Definition due (at_ : Z) (R : gset string) (cs : list Candidate) (p : list string) (f : chunk_file) : Prop :=
  ∃ c, c ∈ cs ∧ chunkPath (CandidateRef c) = Ok p ∧ judge at_ R c = Due ∧ modified f = CandidateModified c.

Lemma savePlan_goods (okE : disk_answer KE → Prop) plan (P : depot K → Prop) :
  triple okE (λ y, P (goods y)) (alone (savePlan plan)) (λ _ y, P (goods y)) (λ y, P (goods y)).
Proof.
  unfold savePlan. destruct (negb _); [by apply alone_ret|]. apply alone_atomic; [done|].
  intros e y _ Hy. unfold wrote. by destruct (works_ e), (landed_ e).
Qed.

Lemma sweep_loop_spec (okE : disk_answer KE → Prop) d0 at_ R all rest : ∀ plan past,
  rest ⊆ all →
  triple okE (λ y, thinned (due at_ R all) d0 (goods y)) (alone (sweep_loop at_ R plan past rest))
    (λ _ y, thinned (due at_ R all) d0 (goods y)) (λ y, thinned (due at_ R all) d0 (goods y)).
Proof.
  induction rest as [|c rest IH]; intros plan past Hall; cbn [sweep_loop]; [by apply alone_ret|].
  assert (rest ⊆ all) as Hrest by set_solver. assert (c ∈ all) as Hc by set_solver.
  apply alone_read; [done|]. intros e y0 _ Hy0. destruct (ctx_done e); [by apply alone_ret; intros ? ->|].
  destruct (judge at_ R c) eqn:Hj; [by eapply triple_pre, IH; [intros ? ->|]..|].
  eapply alone_bind.
  - eapply triple_conseq; [apply (shelf_step _ _ y0), DeleteRef_spec|done| |].
    + intros r y (s & -> & Hs). instantiate (1 := λ _ y, thinned (due at_ R all) d0 (goods y)). cbn.
      destruct (is_ok r); [|subst s; exact Hy0].
      destruct Hs as (p & f & Hp & Hf & Hm & Hs). rewrite Hs. apply thinned_delete; [done|]. intros f' Hf'.
      assert (f' = f) as -> by congruence. by exists c.
    + intros y (s & -> & ->). by rewrite with_shelf_same.
  - intros gone. cbv zeta. eapply (alone_bind _ _ _ _ (λ _ y, thinned (due at_ R all) d0 (goods y))); [|intros r; by apply IH].
    destruct (_ =? 0); [apply savePlan_goods|by apply alone_ret].
Qed.

(** The clock never passes [T]. *)
Context (T : Z).
Definition by_then (e : disk_answer KE) : Prop := at_time e ≤ T.

(** A staging file that no writer can still be using. *)
Definition abandoned (p : list string) (f : chunk_file) : Prop := stale_temp (T - minGrace) p f = true.

Lemma stale_temp_later cutoff p f : cutoff ≤ T - minGrace → stale_temp cutoff p f = true → abandoned p f.
Proof.
  unfold abandoned, stale_temp. intros Hc [-> Hm]%andb_true_iff. apply Z.ltb_lt in Hm. cbn. apply Z.ltb_lt. lia.
Qed.

Lemma remove_temps_spec (gone : list string → chunk_file → Prop) d0 ps :
  (∀ p f, p ∈ ps → files (shelf d0) !! p = Some f → gone p f) →
  triple by_then (λ y, thinned gone d0 (goods y)) (alone (remove_temps ps))
    (λ _ y, thinned gone d0 (goods y)) (λ y, thinned gone d0 (goods y)).
Proof.
  induction ps as [|p ps IH]; intros Hgone; cbn [remove_temps]; [by apply alone_ret|].
  eapply (alone_bind _ _ _ _ (λ _ y, thinned gone d0 (goods y))); [|intros r; apply IH; set_solver].
  apply alone_act; [done|]. intros e y _ Hy. cbn. destruct (works_ e).
  - apply thinned_delete; [done|]. intros f Hf. apply Hgone; [set_solver|].
    destruct Hy as (_ & _ & _ & Hy). destruct (Hy p) as [<-|[Hn _]]; [done|congruence].
  - by destruct y as [[[] ? ?] ? ?].
Qed.

Lemma reclaim_spec (gone : list string → chunk_file → Prop) d0 :
  (∀ p f, abandoned p f → gone p f) →
  triple by_then (λ y, thinned gone d0 (goods y)) (alone reclaimStaleTemps)
    (λ _ y, thinned gone d0 (goods y)) (λ y, thinned gone d0 (goods y)).
Proof.
  intros Hgone. unfold reclaimStaleTemps. apply alone_read; [done|]. intros e y0 Ht Hy0.
  apply alone_read; [by intros ? ->|]. intros e1 ? _ ->.
  eapply triple_pre; [|apply remove_temps_spec]; [by intros ? ->|]. intros p f Hp Hf.
  destruct (works_ e1); [|by apply elem_of_nil in Hp].
  apply list_elem_of_fmap in Hp as ([p' f'] & -> & Hp). apply elem_of_map_to_list, map_lookup_filter_Some in Hp as [Hf' Hs].
  cbn in *. apply Hgone. apply Is_true_true in Hs. destruct Hy0 as (_ & _ & _ & Hy0).
  assert (f' = f) as -> by (destruct (Hy0 p') as [Heq|[Hn _]]; congruence).
  eapply stale_temp_later, Hs. unfold by_then in Ht. lia.
Qed.

(** ** Sweeping *)

(** What a sweep of [plan] over [d0] may delete. *)
Definition sweepable (d0 : depot K) (plan : Plan) (p : list string) (f : chunk_file) : Prop :=
  abandoned p f ∨ ∃ at_ R, at_ ≤ T ∧ covers d0 R ∧ due at_ R (Candidates plan) p f.

Lemma sweep_guarded_spec y0 at_ plan :
  at_ ≤ T →
  triple by_then (λ y, y = y0) (alone (sweep_guarded root at_ plan))
    (λ _ y, thinned (sweepable (goods y0) plan) (goods y0) (goods y))
    (λ y, thinned (sweepable (goods y0) plan) (goods y0) (goods y)).
Proof.
  intros Hat. unfold sweep_guarded.
  eapply (alone_bind _ _ _ _ (λ r y, y = y0 ∧ ∀ R n u, r = Ok (R, n, u) → covers (goods y0) R)).
  - eapply triple_conseq; [apply (referenced_covers by_then y0)|done|done|]. intros ? ->. apply thinned_refl.
  - intros r. apply triple_at. intros ? [-> Hr].
    destruct r as [[[R n] u]|]; [|apply alone_ret; intros ? ->; apply thinned_refl].
    specialize (Hr _ _ _ eq_refl).
    eapply (alone_bind _ _ _ _ (λ _ y, thinned (sweepable (goods y0) plan) (goods y0) (goods y))); [|intros out; by apply alone_ret].
    eapply triple_conseq; [apply (sweep_loop_spec _ (goods y0) at_ R (Candidates plan))| | |].
    + intros c Hc. rewrite <- (take_drop (Cursor plan) (Candidates plan)). set_solver.
    + intros ? ->. apply thinned_refl.
    + intros ? y. apply thinned_mono. intros p f Hd. right. eauto.
    + intros y. apply thinned_mono. intros p f Hd. right. eauto.
Qed.

Definition sweeps (y0 : yard K) (id : string) (dryRun : bool) (y : yard K) : Prop :=
  goods y = goods y0 ∨ dryRun = false ∧ ∃ plan, plans y0 !! id = Some plan ∧
    thinned (sweepable (goods y0) plan) (goods y0) (goods y).

Lemma Sweep_spec y0 id dryRun :
  triple by_then (λ y, y = y0) (alone (Sweep root id dryRun)) (λ _, sweeps y0 id dryRun) (sweeps y0 id dryRun).
Proof.
  assert (∀ y, goods y = goods y0 → sweeps y0 id dryRun y) as Hsame by by left.
  unfold Sweep. eapply (alone_bind _ _ _ _ (λ r y, y = y0 ∧ ∀ plan, r = Ok plan → plans y0 !! id = Some plan)).
  - unfold loadPlan. destruct (negb _); [by apply alone_ret|]. apply alone_atomic; [intros ? ->; by apply Hsame|].
    intros e ? _ ->. split; [done|]. intros plan. cbn. destruct (plans y0 !! id) as [q|]; [|done].
    destruct (negb _); [done|]. by case_decide; intros [= ->].
  - intros r. apply triple_at. intros ? [-> Hr].
    destruct r as [plan|]; [|apply alone_ret; intros ? ->; by apply Hsame]. specialize (Hr _ eq_refl).
    apply alone_read; [intros ? ->; by apply Hsame|]. intros e ? Ht ->. cbv beta.
    destruct dryRun.
    + cbv zeta. apply alone_report.
      eapply triple_conseq; [apply (savePlan_goods _ _ (λ d, d = goods y0))|by intros ? ->|auto|auto].
    + set (plan' := plan <| DryRun := false |> <| PlanStatus := "running" |>).
      assert (∀ y, thinned (sweepable (goods y0) plan) (goods y0) (goods y) → sweeps y0 id false y) as Hdone
        by (intros y Hy; right; eauto).
      eapply (alone_bind _ _ _ _ (λ _ y, thinned (sweepable (goods y0) plan) (goods y0) (goods y))).
      * eapply triple_conseq; [apply (sweep_guarded_spec y0 _ plan' Ht)|done|done|]. exact Hdone.
      * intros [ended [p v]]. destruct (negb ended); cbv zeta.
        -- apply alone_report.
           eapply triple_conseq; [apply (savePlan_goods _ _ (λ d, thinned (sweepable (goods y0) plan) (goods y0) d))|done|auto|auto].
        -- eapply (alone_bind _ _ _ _ (λ _ y, thinned (sweepable (goods y0) plan) (goods y0) (goods y))).
           { eapply triple_conseq; [apply (reclaim_spec (sweepable (goods y0) plan) (goods y0)); by left|done|done|exact Hdone]. }
           intros r. apply alone_read; [exact Hdone|]. intros e1 y1 _ Hy1. cbv zeta.
           apply alone_report.
           eapply triple_conseq; [apply (savePlan_goods _ _ (λ d, thinned (sweepable (goods y0) plan) (goods y0) d))| |auto|auto].
           by intros ? ->.
Qed.

(** ** Planning *)

(** The ledger had seen the key unreferenced for [grace] by [at_]. *)
Definition long_seen (l : option (gmap string Z)) (grace at_ : Z) (key : string) : Prop :=
  ∃ m first, l = Some m ∧ m !! key = Some first ∧ first + grace ≤ at_.

Lemma observe_eligible at_ grace previous R onDisk : ∀ current c,
  0 < grace → c ∈ (observe at_ grace previous R onDisk current).1 → CandidateStatus c = "eligible" →
  ∃ first, previous !! chunkKey (CandidateRef c) = Some first ∧ first + grace ≤ at_.
Proof.
  induction onDisk as [|info rest IH]; intros current c Hg; cbn [observe]; [by intros ?%elem_of_nil|].
  case_decide; [by apply IH|]. cbv zeta.
  set (seen := default 0 (previous !! chunkKey (InfoRef info))).
  destruct (observe _ _ _ _ rest _) as [cs current'] eqn:Ho. cbn [fst].
  intros [->|Hc]%elem_of_cons Hs; [|eapply (IH _ c Hg); [by rewrite Ho|done]]. cbn in Hs |- *.
  destruct (Z.eqb_spec seen 0).
  { destruct (Z.leb_spec (at_ + grace) at_); [lia|done]. }
  destruct (Z.leb_spec (seen + grace) at_); [|done].
  unfold seen in *. destruct (previous !! chunkKey (InfoRef info)) as [first|]; [|done]. by exists first.
Qed.

Definition well_planned (l : option (gmap string Z)) (grace : Z) (plan : Plan) : Prop :=
  ∀ c, c ∈ Candidates plan → CandidateStatus c = "eligible" →
    long_seen l (Z.max grace minGrace) T (chunkKey (CandidateRef c)).

Definition plans_made (y0 : yard K) (grace : Z) (r : result Plan) (y : yard K) : Prop :=
  goods y = goods y0 ∧ ∀ plan, r = Ok plan → plans y !! PlanID plan = Some plan ∧ well_planned (ledger y0) grace plan.

Lemma save_made y0 grace plan y1 :
  goods y1 = goods y0 → well_planned (ledger y0) grace plan →
  triple by_then (λ y, y = y1) (alone (saved ← savePlan plan; mret (_ ← saved; Ok plan)))
    (plans_made y0 grace) (λ y, goods y = goods y0).
Proof.
  intros Hg Hw. unfold savePlan. destruct (negb _).
  - apply alone_ret. intros ? ->. by split.
  - eapply (alone_bind _ _ _ _ (λ r y, goods y = goods y0 ∧ (is_ok r = true → plans y !! PlanID plan = Some plan))).
    + apply alone_atomic; [by intros ? ->|]. intros e ? _ ->. unfold wrote. destruct (works_ e); cbn; [|by destruct (landed_ e)].
      split; [done|]. intros _. apply lookup_insert_eq.
    + intros r. apply alone_ret. intros y [Hy Hr]. split; [done|]. intros p Hp.
      apply bind_ok in Hp as ([] & -> & [= <-]). split; [by apply Hr|done].
Qed.

Lemma MakePlan_spec y0 grace at_ :
  at_ ≤ T →
  triple by_then (λ y, y = y0) (alone (MakePlan root grace at_)) (plans_made y0 grace) (λ y, goods y = goods y0).
Proof.
  intros Hat. unfold MakePlan. assert (∀ err (P : yard K → Prop), (∀ y, P y → goods y = goods y0) →
    triple by_then P (alone (mret (Err err))) (plans_made y0 grace) (λ y, goods y = goods y0)) as Herr.
  { intros err P HP. apply alone_ret. intros y Hy. split; [by apply HP|done]. }
  destruct (grace <? 0); [apply Herr; by intros ? ->|]. cbv zeta.
  eapply (alone_bind _ _ _ _ (λ a y, y = y0 ∧ a ≤ T)).
  { destruct (at_ =? 0); [|by apply alone_ret]. apply alone_atomic; [by intros ? ->|]. by intros e ? Ht ->. }
  clear at_ Hat. intros at_. apply triple_at. intros ? [-> Hat].
  apply alone_read; [by intros ? ->|]. intros e ? _ ->.
  destruct (match ledger y0 with Some _ => _ | None => _ end) as [previous|] eqn:Hprev; [|apply Herr; by intros ? ->].
  eapply alone_bind; [eapply triple_conseq; [apply (referenced_covers by_then y0)|done|intros ? ? Hx; exact Hx|by intros ? ->]|].
  intros r. apply triple_at. intros ? [-> _].
  destruct r as [[[R n] u]|]; [|apply Herr; by intros ? ->].
  eapply (alone_bind _ _ _ _ (λ _ y, y = y0)).
  { eapply triple_conseq; [apply (quiet_triple by_then _ y0), quiet_goods, quiet_shelf, quiet_read|done|done|by intros ? ->]. }
  intros [onDisk|]; [|apply Herr; by intros ? ->].
  apply alone_read; [by intros ? ->|]. intros e1 ? _ ->.
  destruct (observe at_ (Z.max grace minGrace) previous R onDisk ∅) as [cs current] eqn:Ho.
  eapply (alone_bind _ _ _ _ (λ r y, goods y = goods y0)).
  { apply alone_atomic; [by intros ? ->|]. intros e2 ? _ ->. unfold wrote. by destruct (works_ e2), (landed_ e2). }
  intros [[]|]; [|by apply Herr]. apply triple_at. intros y1 Hy1. apply save_made; [done|].
  intros c Hc Hs. cbn in Hc. rewrite merge_sort_Permutation in Hc.
  destruct (observe_eligible at_ (Z.max grace minGrace) previous R onDisk ∅ c) as (first & Hf & Hle);
    [unfold minGrace; lia|by rewrite Ho|done|].
  destruct (ledger y0) as [m|]; [|injection Hprev as <-; by rewrite lookup_empty in Hf].
  destruct (works_ e); [|done]. injection Hprev as <-. exists m, first. split_and!; [done..|lia].
Qed.

(** ** A collection *)

(** No envelope of [d] refers to the chunk. *)
Definition unreferenced (d : depot K) (key : string) : Prop :=
  ∀ id encoded m envelope ref, envelopes d !! id = Some encoded → decodes d id encoded m envelope →
    ref ∈ manifest_refs m → chunkKey ref ≠ key.

(** What a collection with [grace] may delete. *)
Definition garbage (y0 : yard K) (grace : Z) (p : list string) (f : chunk_file) : Prop :=
  abandoned p f ∨
  ∃ ref, chunkPath ref = Ok p ∧ unreferenced (goods y0) (chunkKey ref) ∧
    long_seen (ledger y0) (Z.max grace minGrace) T (chunkKey ref) ∧ modified f + minGrace ≤ T.

Lemma judge_due at_ R c :
  judge at_ R c = Due →
  CandidateStatus c = "eligible" ∧ CandidateModified c + minGrace ≤ at_ ∧ chunkKey (CandidateRef c) ∉ R.
Proof.
  unfold judge. case_decide; [done|]. destruct (bool_decide_reflect (CandidateStatus c = "eligible")); [|done].
  destruct (_ && _); [done|]. cbn. destruct (Z.ltb_spec (at_ - minGrace) (CandidateModified c)); [done|].
  case_decide; [done|]. intros _. split_and!; [done|lia|done].
Qed.

Lemma sweepable_garbage y0 y1 grace plan p f :
  goods y1 = goods y0 → well_planned (ledger y0) grace plan → sweepable (goods y1) plan p f → garbage y0 grace p f.
Proof.
  intros Hg Hw [Ha|(at_ & R & Hat & Hcov & c & Hc & Hp & Hj & Hm)]; [by left|right].
  apply judge_due in Hj as (Hs & Hold & HR). exists (CandidateRef c). split_and!; [done| |by apply Hw|lia].
  intros id encoded m envelope ref He Hd Hr Heq. apply HR. rewrite <- Heq. rewrite Hg in Hcov. by eapply Hcov.
Qed.

Definition collected (y0 : yard K) (grace : Z) (dryRun : bool) (y : yard K) : Prop :=
  goods y = goods y0 ∨ dryRun = false ∧ thinned (garbage y0 grace) (goods y0) (goods y).

(** The grace a request asks for. *)
Definition grace_of (graceSeconds : Z) : Z :=
  if graceSeconds * 10 ^ 9 <=? 0 then 24 * minGrace else graceSeconds * 10 ^ 9.

Lemma handleGC_spec y0 uid graceSeconds dryRun :
  triple by_then (λ y, y = y0) (alone (handleGC root uid graceSeconds dryRun))
    (λ _, collected y0 (grace_of graceSeconds) dryRun) (collected y0 (grace_of graceSeconds) dryRun).
Proof.
  assert (∀ y, goods y = goods y0 → collected y0 (grace_of graceSeconds) dryRun y) as Hsame by by left.
  unfold handleGC. destruct (negb _); [apply alone_ret; intros ? ->; auto|].
  destruct (requestDuration graceSeconds) as [grace|] eqn:Hgr; [|apply alone_ret; intros ? ->; auto].
  apply bind_ok in Hgr as ([] & _ & [= <-]). fold (grace_of graceSeconds).
  apply alone_read; [intros ? ->; auto|]. intros e ? Ht ->. cbv beta.
  eapply alone_bind; [eapply triple_conseq; [apply (MakePlan_spec y0 _ _ Ht)|done|intros ? ? Hx; exact Hx|auto]|].
  intros r. apply triple_at. intros y1 [Hg1 Hp]. destruct r as [plan|]; [|apply alone_ret; intros ? ->; auto].
  destruct (Hp plan eq_refl) as [Hplan Hw]. clear Hp. apply alone_report.
  assert (∀ y, sweeps y1 (PlanID plan) dryRun y → collected y0 (grace_of graceSeconds) dryRun y) as Hsw.
  { intros y [Hy|(Hd & plan' & Hp' & Hthin)]; [left; congruence|]. right. split; [done|].
    assert (plan' = plan) as -> by congruence. rewrite <- Hg1. eapply thinned_mono, Hthin.
    intros p f. by apply sweepable_garbage. }
  eapply triple_conseq; [apply (Sweep_spec y1)|done|auto|auto].
Qed.

(** Nothing a checkpoint refers to is garbage. *)
Lemma thinned_keeps y0 grace d id encoded m envelope ref w p :
  thinned (garbage y0 grace) (goods y0) d →
  envelopes (goods y0) !! id = Some encoded → decodes (goods y0) id encoded m envelope → ref ∈ manifest_refs m →
  has_chunk (knows := knows) w ref p (shelf (goods y0)) → has_chunk (knows := knows) w ref p (shelf d).
Proof.
  intros (_ & _ & Hk & Hf) He Hd Hr (path & f & key & Hp & Hfile & Hkey & Ho).
  exists path, f, key. rewrite Hk. split_and!; [done| |done|done].
  destruct (Hf path) as [->|(_ & f' & Hf' & [Ha|(ref' & Hp' & Hun & _)])]; [done|..].
  - unfold abandoned in Ha. by rewrite (chunkPath_not_temp ref) in Ha.
  - destruct (Hun _ _ _ _ _ He Hd Hr). by eapply chunkPath_key.
Qed.

Lemma thinned_loads gone d0 d id m :
  thinned gone d0 d → loads (knows := knows) root d0 id m → loads (knows := knows) root d id m.
Proof. intros (Hi & He & Hk & _) Hl. eapply loads_more; [exact Hl|]. split_and!; [done..|]. by rewrite Hk. Qed.

(** C5.  A collection that nothing writes beside is safe.  Whatever calls fail
    and wherever the agent dies, [handleGC] leaves the index, the envelopes and the keys as
    they were, a dry run leaves every file, and a file is gone only when it
    was an abandoned staging file, or a chunk that no envelope on disk refers
    to, that an earlier collection had already seen unreferenced for the
    grace asked for (an hour at least), and that was written an hour ago or
    more.  So every checkpoint that loads still loads, and every chunk of it
    that could be restored still can. *)
Theorem gc_safe (y0 : yard K) (uid graceSeconds : Z) (dryRun : bool) (es : list (disk_answer KE)) :
  Forall (λ e, at_time e ≤ T) es →
  let y := final (run (handleGC root uid graceSeconds dryRun) es y0) in
  thinned (λ p f, dryRun = false ∧ garbage y0 (grace_of graceSeconds) p f) (goods y0) (goods y) ∧
  ∀ id m, loads (knows := knows) root (goods y0) id m →
    loads (knows := knows) root (goods y) id m ∧
    ∀ w ref p, ref ∈ manifest_refs m → has_chunk (knows := knows) w ref p (shelf (goods y0)) →
      has_chunk (knows := knows) w ref p (shelf (goods y)).
Proof.
  intros Hes y. assert (collected y0 (grace_of graceSeconds) dryRun y) as Hy.
  { pose proof (handleGC_spec y0 uid graceSeconds dryRun y0 es Hes eq_refl) as H. unfold alone in H.
    unfold y, final. destruct (run _ es y0) as [[[r|] d'] es']; [by destruct H|done]. }
  clearbody y. destruct Hy as [->|[-> Hthin]].
  - split; [apply thinned_refl|]. auto.
  - split; [eapply thinned_mono, Hthin; auto|]. intros id m Hl. split; [by eapply thinned_loads|].
    intros w ref p Hr. destruct Hl as (_ & s & encoded & envelope & _ & He & Hd & _). by eapply thinned_keeps.
Qed.
End collector.

(** ** A yard *)

#[local] Existing Instances toy_crypto toy_codec toy_keys toy_laws toy_ed25519 toy_manifests toy_envelopes.

(** Calls that succeed [n] hours after the epoch. *)
Definition at_hour (n : Z) : disk_answer unit :=
  {| works_ := true; landed_ := false; ctx_done := false; at_time := n * minGrace; new_inode := n;
     nonce_drawn := replicate 12 x09; for_keys := tt |}.

(** A repository with a checkpoint, and the same chunks with no checkpoint. *)
Definition toy_yard (d : depot unit) : yard unit := {| goods := d; ledger := None; plans := ∅ |}.
Definition toy_collect (n : Z) (y : yard unit) : option (result swept) * yard unit * list (disk_answer unit) :=
  run (handleGC ["var"] 0 3600 false) (replicate 60 (at_hour n)) y.

(** One collection sees the chunks unreferenced, the next deletes them. *)
Definition toy_seen : yard unit := final (toy_collect 10 (toy_yard empty_depot)).
Definition toy_swept : yard unit := final (toy_collect 12 toy_seen).

Lemma gc_safe_witness :
  files (shelf (goods toy_swept)) = ∅ ∧
  thinned (λ p f, false = false ∧ garbage (knows := toy_knows) (12 * minGrace) toy_seen (grace_of 3600) p f)
    (goods toy_seen) (goods toy_swept).
Proof.
  split; [vm_compute; reflexivity|].
  exact (proj1 (gc_safe (knows := toy_knows) (reads := λ _, True) ["var"] (12 * minGrace) toy_seen 0 3600 false
    (replicate 60 (at_hour 12)) (Forall_replicate (λ e, at_time e ≤ 12 * minGrace) 60 (at_hour 12) (Z.le_refl (12 * minGrace))))).
Defined.

(** ** A window of live pre-copy *)

(** A pass over content whose chunks are already on disk. *)
Definition toy_pass : option (result (AssetManifest * Z)) * store unit * list (disk_answer unit) :=
  run (PutAsset 2 "w" "memory" "application/octet-stream" [x01; x02; x01; x02; x03] true 0)
    (replicate 60 (at_hour 12)) (shelf (goods toy_seen)).
Definition after_pass : yard unit := toy_seen <| goods := (goods toy_seen) <| shelf := final toy_pass |> |>.
Definition after_sweep : option (result swept) * yard unit * list (disk_answer unit) := toy_collect 12 after_pass.
Definition toy_saved : option (result unit) * depot unit * list (disk_answer unit) :=
  run (Save ["var"] toy_signed) (replicate 9 (at_hour 12)) (goods (final after_sweep)).
Definition toy_reread : option (bytes * result unit) * store unit * list (disk_answer unit) :=
  run (RestoreAsset "w" toy_asset) (replicate 60 (at_hour 12)) (shelf (final toy_saved)).

(** The write guard is not held from a pre-copy pass to the
    manifest.  A live migration releases it after each pass, and no manifest
    refers to the chunks of a pass before the last one is written; so a
    collection in between deletes chunks a pass answered with because they
    were on disk, unreferenced and old, the manifest is saved all the same,
    and the checkpoint cannot be restored. *)
Theorem precopy_chunk_swept :
  returned toy_pass = Some (Ok (toy_asset, 5)) ∧
  match returned after_sweep with Some (Ok (_, Ok _)) => True | _ => False end ∧
  returned toy_saved = Some (Ok tt) ∧
  match returned toy_reread with Some (_, Err _) => True | _ => False end.
Proof. vm_compute. by split_and!. Qed.
