(* ===== verification/Peer.v ===== *)
(** * The destination as its source sees it ([internal/transfer/client.go])

    A source drives a migration through requests to the peer API of the
    destination.  A request may fail to arrive, and an answer may get lost
    after the request was served, so that the source never knows from a
    silence what the destination did.  [Peer] is what a destination does with
    a request, [PeerLaws] what its source relies on: only a restore starts a
    copy of the workload, an acknowledged rollback leaves none, and the
    cleanup view of a session tells whether there may be one.

    The laws speak of requests that are served one at a time and to their
    end, and of the copies a destination answers for.  The peer API itself is
    [Session]; it keeps the promises for the copy that the session of a
    transfer names, as long as the session is not marked FAILED (see
    [PeerServer]; [MigrationGaps] has the copy of a failed session). *)
From S2P Require Import Prelude GoStr Model Workload Prog Conc Session.

Local Open Scope string_scope.
Local Open Scope Z_scope.

(** ** The interface *)

Class Peer (D DE : Type) := {
  answers : DE → request → D → D * response;
}.

(** What one attempt meets: whether the request arrives, whether the answer
    comes back and whether it can be read, whether the context of the caller
    is done, and what the destination's own environment answers. *)
Record link (DE : Type) := {
  reached : bool;
  heard : bool;
  garbled : bool;
  expired : bool;
  remote : DE;
}.
Arguments reached {DE} _.
Arguments heard {DE} _.
Arguments garbled {DE} _.
Arguments expired {DE} _.
Arguments remote {DE} _.
Arguments Build_link {DE} _ _ _ _ _.

(** What the caller hears: nothing, a success it cannot read, or the answer. *)
Inductive hearing :=
| Silent
| Garbled
| Heard (r : response).

Definition errTransferNotFound : string := "transfer not found".
Definition errTransport : string := "transport".
Definition errContext : string := "context done".
Definition errDecode : string := "decode response".

(** [decodeRemoteError]. *)
Definition decodeRemoteError (status : Z) (code : string) : string :=
  if status =? 404 then errTransferNotFound else "peer " +:+ code.

(** [retryableStatus]. *)
Definition retryableStatus (status : Z) : bool :=
  bool_decide (status ∈ [500; 502; 503; 504; 429]).

Section client.
Context {D DE : Type} `{!Peer D DE}.

(** What arrives of an answer; of a refusal the status is enough. *)
Definition hear (e : link DE) (r : response) : hearing :=
  if negb (heard e) then Silent
  else match r with
       | Reply _ _ => if garbled e then Garbled else Heard r
       | Refuse _ _ => Heard r
       end.

(** One exchange: [Silent] is a transport error. *)
Definition exchange (q : request) : thread D (link DE) hearing :=
  atomic (λ e d,
    if reached e then let '(d', r) := answers (remote e) q d in (d', hear e r) else (d, Silent)).

Definition context_done : thread D (link DE) bool := atomic (λ e d, (d, expired e)).

(** The loop of [doJSON]. *)
Fixpoint do_attempts (n : nat) (q : request) (last : string) : thread D (link DE) (result body) :=
  match n with
  | O => mret (Err last)
  | S n =>
      r ← exchange q;
      match r with
      | Heard (Reply _ b) => mret (Ok b)
      | Garbled => mret (Err errDecode)
      | Heard (Refuse status code) =>
          let err := decodeRemoteError status code in
          if negb (retryableStatus status) then mret (Err err)
          else done ← context_done;
               if (done : bool) then mret (Err errContext) else do_attempts n q err
      | Silent =>
          done ← context_done;
          if (done : bool) then mret (Err errContext) else do_attempts n q errTransport
      end
  end.

(** [doJSON]. *)
Definition doJSON (q : request) : thread D (link DE) (result body) := do_attempts 4 q errTransport.

(** [UploadChunk]: one attempt, whose answer is not read; a chunk that the
    source fails to export makes it fail after the destination's verdict. *)
Definition UploadChunk (id : string) (ref : ChunkRef) : thread D (link DE) (result unit) :=
  r ← exchange (QChunk id {| ChunkVersion := Some (KeyVersion ref); ChunkAddress := Address ref;
                             ChunkHeader := Some ref |});
  mret (match r with
        | Heard (Reply _ _) => Ok tt
        | Heard (Refuse status code) => Err (decodeRemoteError status code)
        | Garbled => Err "export chunk"
        | Silent => Err errTransport
        end).

(** The calls that answer with a session. *)
Definition session_call (q : request) : thread D (link DE) (result Session) :=
  r ← doJSON q;
  mret (match r with
        | Ok (BSession s) => Ok s
        | Ok _ => Err errDecode
        | Err err => Err err
        end).

(** [ImportManifest]. *)
Definition ImportManifest (id : string) (m : CheckpointManifest)
    : thread D (link DE) (result (list ChunkRef * Z)) :=
  r ← doJSON (QManifest id (Some m));
  mret (match r with
        | Ok (BMissing missing deduplicated) => Ok (missing, deduplicated)
        | Ok _ => Err errDecode
        | Err err => Err err
        end).

(** [Restore]. *)
Definition RestorePeer (id : string) (timeout : Z) : thread D (link DE) (result string) :=
  r ← doJSON (QRestore id (Some (timeout /' second)));
  mret (match r with
        | Ok (BRestore restoreID) => Ok restoreID
        | Ok _ => Err errDecode
        | Err err => Err err
        end).
End client.

(** ** The promises *)

(** The states of a session in which a source takes it that the destination
    answers for no copy. *)
Definition no_copy_states : list SessionState :=
  [SessionReserved; SessionKeyReady; SessionManifestReady; SessionRolledBack; SessionFailed].

(** [holds id d]: a copy of the workload of transfer [id] that the destination
    answers for may be executing.  [keeps id d]: the destination has committed
    it. *)
Class PeerLaws (D DE : Type) `{!Peer D DE} (holds keeps : string → D → Prop) := {
  only_restore_starts e q id d :
    holds id (answers e q d).1 → holds id d ∨ ∃ timeout, q = QRestore id timeout;
  rollback_ends e id d :
    (∃ status b, (answers e (QRollback id) d).2 = Reply status b) ∨
    (∃ code, (answers e (QRollback id) d).2 = Refuse 404 code) →
    ¬ holds id (answers e (QRollback id) d).1;
  cleanup_tells e id d :
    (∃ status s, (answers e (QGetCleanup id) d).2 = Reply status (BSession s) ∧
                 State s ∈ no_copy_states) ∨
    (∃ code, (answers e (QGetCleanup id) d).2 = Refuse 404 code) →
    ¬ holds id (answers e (QGetCleanup id) d).1;
  commit_keeps e id d status b :
    (answers e (QCommit id) d).2 = Reply status b → keeps id (answers e (QCommit id) d).1;
  cleanup_keeps e id d status s :
    (answers e (QGetCleanup id) d).2 = Reply status (BSession s) → State s = SessionCommitted →
    keeps id (answers e (QGetCleanup id) d).1;
  kept_for_good e q id d : keeps id d → keeps id (answers e q d).1;
}.

(** ** What a source learns *)

Section learned.
Context {D DE : Type} `{HP : !Peer D DE} {holds keeps : string → D → Prop} `{HL : !PeerLaws D DE holds keeps}.
Context (id : string) (okE : link DE → Prop).

(** What every answer to [q] moves along, the calls with [q] move along. *)
Lemma exchange_guarantees (G : D → D → Prop) `{!Reflexive G} q :
  (∀ e d, G d (answers e q d).1) → guarantees G (exchange q).
Proof.
  intros HG. apply guarantees_atomic. intros e d. destruct (reached e); [|done].
  specialize (HG (remote e) d). by destruct (answers _ _ _).
Qed.

Lemma do_attempts_guarantees (G : D → D → Prop) `{!Reflexive G} q n : ∀ last,
  (∀ e d, G d (answers e q d).1) → guarantees G (do_attempts n q last).
Proof.
  induction n as [|n IH]; intros last HG; [done|]. cbn [do_attempts].
  apply guarantees_bind; [by apply exchange_guarantees|].
  assert (∀ last', guarantees G
    (context_done ≫= λ stop : bool, if stop then mret (Err errContext) else do_attempts n q last')) as Hretry.
  { intros last'. apply guarantees_bind; [by apply guarantees_atomic|]. intros []; [done|by apply IH]. }
  intros [| |[status b|status code]]; [apply Hretry|done|done|]. destruct (negb _); [done|apply Hretry].
Qed.

(** Whoever asks until it gets an answer knows what the answer says. *)
Lemma do_attempts_learns (P : D → Prop) (φ : response → D → Prop) q n : ∀ last,
  (∀ e d, P d → φ (answers e q d).2 (answers e q d).1 ∧ P (answers e q d).1) →
  (∀ d, P d → decodeRemoteError 404 "" ≠ last) →
  triple okE P (alone (do_attempts n q last))
    (λ r d, P d ∧ match r with
            | Ok b => ∃ status, φ (Reply status b) d
            | Err err => err = errTransferNotFound → ∃ code, φ (Refuse 404 code) d
            end) P.
Proof.
  induction n as [|n IH]; intros last Hφ Hlast; cbn [do_attempts].
  { apply alone_ret. intros d Hd. split; [done|]. intros ->. by destruct (Hlast d). }
  apply (alone_bind _ _ _ _ (λ r d, P d ∧ match r with Heard r => φ r d | _ => True end)).
  { apply alone_atomic; [done|]. intros e d _ Hd. destruct (reached e); [|done].
    destruct (Hφ (remote e) d Hd) as [H1 H2]. destruct (answers _ _ _) as [d' r]. cbn in *.
    split; [done|]. unfold hear. by destruct (heard e), r; [destruct (garbled e)| | |]. }
  assert (∀ last', last' ≠ errTransferNotFound →
    triple okE P (alone (context_done ≫= λ done : bool,
        if done then mret (Err errContext) else do_attempts n q last'))
      (λ r d, P d ∧ match r with
            | Ok b => ∃ status, φ (Reply status b) d
            | Err err => err = errTransferNotFound → ∃ code, φ (Refuse 404 code) d
            end) P) as Hretry.
  { intros last' Hl. apply (alone_bind _ _ _ _ (λ _, P)).
    - by apply alone_atomic.
    - intros []; [by apply alone_ret|]. apply IH; [done|]. intros d _. unfold decodeRemoteError. by simpl. }
  intros [| |[status b|status code]].
  - eapply triple_pre; [|by apply Hretry]. by intros d [Hd _].
  - apply alone_ret. by intros d [Hd _].
  - apply alone_ret. intros d [Hd H]. split; [done|]. by exists status.
  - unfold decodeRemoteError. destruct (negb (retryableStatus status)) eqn:Hr.
    + apply alone_ret. intros d [Hd H]. split; [done|]. destruct (status =? 404) eqn:E; [|done].
      apply Z.eqb_eq in E as ->. by exists code.
    + eapply triple_pre; [|apply Hretry]; [by intros d [Hd _]|].
      destruct (status =? 404) eqn:E; [|done]. apply Z.eqb_eq in E as ->. done.
Qed.

(** What a call that answers with a session says when it is heard. *)
Lemma session_call_learns (ψ : option Session → D → Prop) q :
  (∀ e d status s, (answers e q d).2 = Reply status (BSession s) → ψ (Some s) (answers e q d).1) →
  (∀ e d code, (answers e q d).2 = Refuse 404 code → ψ None (answers e q d).1) →
  triple okE (λ _, True) (alone (session_call q))
    (λ r d, match r with
            | Ok s => ψ (Some s) d
            | Err err => err = errTransferNotFound → ψ None d
            end) (λ _, True).
Proof.
  intros Hok Hgone. unfold session_call, doJSON.
  apply (alone_bind _ _ _ _ (λ r d, True ∧ match r with
    | Ok b => ∃ status : Z, match b with BSession s => ψ (Some s) d | _ => True end
    | Err err => err = errTransferNotFound → ∃ code : string, ψ None d end)).
  - eapply triple_post; [|apply (do_attempts_learns (λ _, True) (λ r d, match r with
      | Reply _ b => match b with BSession s => ψ (Some s) d | _ => True end
      | Refuse status _ => status = 404 → ψ None d end)); [|done]].
    { intros [b|err] d [_ H]; (split; [done|]); [exact H|]. intros He.
      destruct (H He) as [code Hc]. exists code. by apply Hc. }
    intros e d _. split; [|done].
    destruct (answers e q d).2 as [status b|status code] eqn:Hr.
    + destruct b; try done. by eapply Hok.
    + intros ->. by eapply Hgone.
  - intros [b|err].
    + destruct b; try (apply alone_ret; by intros). apply alone_ret. by intros d [_ [_ H]].
    + apply alone_ret. intros d [_ H] He. by destruct (H He).
Qed.

(** An acknowledged rollback, and one of a transfer that is not there. *)
Lemma rollback_learns :
  triple okE (λ _, True) (alone (session_call (QRollback id)))
    (λ r d, match r with
            | Ok _ => ¬ holds id d
            | Err err => err = errTransferNotFound → ¬ holds id d
            end) (λ _, True).
Proof.
  apply (session_call_learns (λ _ d, ¬ holds id d)).
  - intros e d status s Hr. apply rollback_ends. left. by exists status, (BSession s).
  - intros e d code Hr. apply rollback_ends. right. by exists code.
Qed.

(** The cleanup view. *)
Lemma cleanup_learns :
  triple okE (λ _, True) (alone (session_call (QGetCleanup id)))
    (λ r d, match r with
            | Ok s => (State s ∈ no_copy_states → ¬ holds id d) ∧ (State s = SessionCommitted → keeps id d)
            | Err err => err = errTransferNotFound → ¬ holds id d
            end) (λ _, True).
Proof.
  apply (session_call_learns (λ o d, match o with
    | Some s => (State s ∈ no_copy_states → ¬ holds id d) ∧ (State s = SessionCommitted → keeps id d)
    | None => ¬ holds id d end)).
  - intros e d status s Hr. split.
    + intros Hs. apply cleanup_tells. left. by exists status, s.
    + intros Hs. by eapply cleanup_keeps.
  - intros e d code Hr. apply cleanup_tells. right. by exists code.
Qed.

Lemma commit_learns :
  triple okE (λ _, True) (alone (session_call (QCommit id)))
    (λ r d, match r with Ok _ => keeps id d | Err _ => True end) (λ _, True).
Proof.
  eapply triple_post; [|apply (session_call_learns (λ o d, match o with Some _ => keeps id d | None => True end))].
  - intros [s|err] d H; [exact H|done].
  - intros e d status s Hr. by eapply commit_keeps.
  - done.
Qed.
End learned.
