(* ===== verification/PeerServer.v ===== *)
(** * The peer API as the destination of a migration

    The server of [Session] keeps the promises of [PeerLaws] while it serves
    each request to its end before the next; its store fails as it likes, and
    so do preparing a restore and rolling one back.  The copy it answers for is
    the one the session of the transfer names, as long as the session is not
    marked FAILED: a failed session no longer tells whether its copy runs (see
    [MigrationGaps]).  What a source migrates against in [MigrationLife] is
    therefore the peer API as it is written. *)
From S2P Require Import Prelude Prog GoStr Model Workload Conc Session SessionLife Peer.

Local Open Scope string_scope.
Local Open Scope list_scope.
Local Open Scope Z_scope.

(** ** What the server relies on *)

(** No restore that was known comes to life, and none is forgotten. *)
Definition quiet {B} (live issued : B → string → Prop) (b b' : B) : Prop :=
  (∀ r, issued b r → live b' r → live b r) ∧ (∀ r, issued b r → issued b' r).

#[export] Instance quiet_preorder {B} (live issued : B → string → Prop) : PreOrder (quiet live issued).
Proof. split; [done|]. intros b1 b2 b3 [? ?] [? ?]. split; auto. Qed.

(** [live b r]: the copy that restore [r] brought up may be executing.
    [issued b r]: the id [r] has been given to a restore.  A restore that is
    prepared gets an id of its own, whether it comes up or not; one that was
    rolled back successfully is not executing. *)
Class RestoreLaws {B BE} `{!Backend B BE} (live issued : B → string → Prop) := {
  live_issued b r : live b r → issued b r;
  issued_named b : ¬ issued b "";
  key_quiet e b i v k : quiet live issued b (ImportWorkloadKey e b i v k).1;
  manifest_quiet e b m : quiet live issued b (SaveManifest e b m).1;
  chunk_quiet e b i ref : quiet live issued b (ImportChunkResult e b i ref).1;
  commit_quiet e b r : quiet live issued b (CommitRestore e b r).1;
  prepare_quiet e b c t : quiet live issued b (Prepare e b c t).1;
  prepare_fresh e b c t r :
    (Prepare e b c t).2 = Ok r → ¬ issued b r ∧ issued (Prepare e b c t).1 r;
  rollback_quiet e b r : quiet live issued b (RollbackRestore e b r).1;
  rollback_ends_it e b r : (RollbackRestore e b r).2 = Ok tt → ¬ live (RollbackRestore e b r).1 r;
}.

Section server.
Context {B BE : Type} `{Bk : !Backend B BE} (live issued : B → string → Prop)
        `{HR : !RestoreLaws (BE := BE) live issued}.
Context (organizationID : string) (has_meter has_watcher : bool)
        (url_Parse : string → result URL) (source : string).

#[local] Abbreviation server := (server (B := B)).
#[local] Abbreviation answer := (answer (BE := BE)).
#[local] Abbreviation quietly := (quiet live issued).

(** ** Soundness *)

Definition dead (x : Session) : Prop := State x = SessionRolledBack.

(** A session has no restore before it has restored. *)
Definition unstarted (m : store) : Prop :=
  ∀ id x, m !! id = Some x →
    State x ∈ [SessionReserved; SessionKeyReady; SessionManifestReady; SessionVerified; SessionHeld] →
    RestoreID x = "".

(** The restore of a session is a known one, and ended once it is rolled back. *)
Definition tracked (s : server) : Prop :=
  ∀ id x, sessions s !! id = Some x → RestoreID x ≠ "" →
    issued (backend s) (RestoreID x) ∧ (dead x → ¬ live (backend s) (RestoreID x)).

Definition sound (s : server) : Prop :=
  consistent (sessions s) (metered s) ∧ unstarted (sessions s) ∧ tracked s.

(** The copy that the session of a transfer names may be executing, and the
    session is not marked failed. *)
Definition has_copy (id : string) (s : server) : Prop :=
  ∃ x, sessions s !! id = Some x ∧ SessionSource x = source ∧ State x ≠ SessionFailed ∧
       live (backend s) (RestoreID x).

Definition has_committed (id : string) (s : server) : Prop :=
  ∃ x, sessions s !! id = Some x ∧ SessionSource x = source ∧ State x = SessionCommitted.

Lemma live_named b r : live b r → r ≠ "".
Proof. intros H ->. by apply (issued_named b), live_issued. Qed.

(** ** Requests that start nothing *)

(** How a server evolves while it starts nothing that a session names. *)
Definition since (s0 s : server) : Prop :=
  quietly (backend s0) (backend s) ∧
  ∀ id y, sessions s !! id = Some y → RestoreID y ≠ "" →
    ∃ x, sessions s0 !! id = Some x ∧ RestoreID x = RestoreID y ∧ SessionSource x = SessionSource y ∧
         (dead y → dead x ∨ (issued (backend s0) (RestoreID y) → ¬ live (backend s) (RestoreID y))).

Lemma since_refl s : since s s.
Proof. split; [done|]. intros id y Hy Hn. exists y. auto. Qed.

Lemma since_trans s1 s2 s3 : since s1 s2 → since s2 s3 → since s1 s3.
Proof.
  intros [Hq1 H1] [Hq2 H2]. split; [by etrans|]. intros id z Hz Hn.
  destruct (H2 id z Hz Hn) as (y & Hy & Hr & Hs & Hd). destruct (H1 id y Hy) as (x & Hx & Hr' & Hs' & Hd'); [congruence|].
  exists x. split; [done|]. split; [congruence|]. split; [congruence|]. intros Hz'.
  destruct (Hd Hz') as [Hy'|Hl]; [|right; intros Hi; by apply Hl, Hq1].
  destruct (Hd' Hy') as [?|Hl]; [by left|]. right. rewrite <- Hr. intros Hi H.
  apply (Hl Hi). apply Hq2; [by apply Hq1|done].
Qed.

Lemma since_tracked s0 s : tracked s0 → since s0 s → tracked s.
Proof.
  intros Ht [[Hl Hi] Hs] id y Hy Hn. destruct (Hs id y Hy Hn) as (x & Hx & Hr & _ & Hd).
  destruct (Ht id x Hx) as [H1 H2]; [congruence|]. rewrite Hr in H1, H2. split; [by apply Hi|].
  intros Hdead. destruct (Hd Hdead) as [Hdx|Hnl]; [|by apply Hnl]. intros Hy2. by apply (H2 Hdx), Hl.
Qed.

(** A named copy that is live was live before. *)
Lemma since_live id s0 s y :
  tracked s0 → since s0 s → sessions s !! id = Some y → live (backend s) (RestoreID y) →
  ∃ x, sessions s0 !! id = Some x ∧ SessionSource x = SessionSource y ∧ live (backend s0) (RestoreID x).
Proof.
  intros Ht [[Hl _] Hs] Hy Hlive. pose proof (live_named _ _ Hlive) as Hn.
  destruct (Hs id y Hy Hn) as (x & Hx & Hr & Hs' & _). exists x. split; [done|]. split; [done|].
  destruct (Ht id x Hx) as [Hi _]; [congruence|]. rewrite Hr in *. by apply Hl.
Qed.

(** The same as a relation between two states of a handler. *)
Definition carries (s s' : server) : Prop := since s s'.

#[local] Instance carries_preorder : PreOrder carries.
Proof. split; [intros s; apply since_refl|]. intros s1 s2 s3. apply since_trans. Qed.

Lemma carries_same s s' :
  backend s' = backend s → sessions s' = sessions s → carries s s'.
Proof.
  intros Hb Hs. split; [by rewrite Hb|]. intros id y Hy _. rewrite Hs in Hy. exists y. auto.
Qed.

Lemma carries_load {X} (f : answer → server → X) : guarantees carries (load f).
Proof. apply guarantees_atomic. intros e s. by apply carries_same. Qed.

Lemma carries_backend {X} (f : BE → B → B * X) :
  (∀ e b, quietly b (f e b).1) → guarantees carries (on_backend f).
Proof.
  intros H. apply guarantees_atomic. intros e s. specialize (H (back e) (backend s)).
  destruct (f (back e) (backend s)) as [b x]. split; [exact H|]. intros id y Hy _. exists y. auto.
Qed.

(** An update callback that neither gives a session a restore nor ends it. *)
Definition keeps_restore (f : Session → result Session) : Prop :=
  ∀ v v', f v = Ok v' →
    RestoreID v' = RestoreID v ∧ SessionSource v' = SessionSource v ∧ (dead v' → dead v).

Lemma carries_update gate id f :
  keeps_restore f →
  guarantees carries
    (on_store (λ e m, update_session gate (now e) (store_ok e) id source f m) : thread server answer _).
Proof.
  intros Hf. apply guarantees_atomic. intros e s. unfold update_session.
  destruct (sessions s !! id) as [x|] eqn:Hx; [|by apply carries_same].
  destruct (negb _); [by apply carries_same|]. destruct (gate && _); [by apply carries_same|].
  destruct (f x) as [x'|] eqn:Hfx; [|by apply carries_same].
  destruct (store_ok e); [|by apply carries_same]. destruct (Hf x x' Hfx) as (H1 & H2 & H3).
  split; [done|]. cbn. intros i y Hy Hn. apply lookup_insert_Some in Hy as [[<- <-]|[Hi Hy]].
  - exists x. cbn in *. split; [done|]. split; [done|]. split; [done|]. auto.
  - exists y. auto.
Qed.

Lemma carries_meter x channel : guarantees carries (meterCompletion (B := B) (BE := BE) has_meter x channel).
Proof.
  unfold meterCompletion. case_match; [done|]. apply guarantees_atomic. intros e s. by apply carries_same.
Qed.

Lemma carries_notify x : guarantees carries (notify_held (B := B) (BE := BE) x).
Proof. apply guarantees_bind; [|done]. apply guarantees_atomic. intros e s. by apply carries_same. Qed.

Lemma carries_validate i assets : guarantees carries (validate_assets i assets).
Proof.
  induction assets as [|a assets IH]; [done|]. apply guarantees_bind; [apply carries_load|]. by intros [].
Qed.

Lemma keeps_restore_gate ref : keeps_restore (quota_gate ref).
Proof. intros v v' H. unfold quota_gate in H. repeat case_match; simplify_eq. by repeat split. Qed.
Lemma keeps_restore_commit : keeps_restore commit_update.
Proof.
  intros v v' H. unfold commit_update in H. repeat case_match; simplify_eq. by repeat split.
Qed.
Lemma keeps_restore_hold i : keeps_restore (hold_update i).
Proof.
  intros v v' H. unfold hold_update in H. repeat case_match; simplify_eq. by repeat split.
Qed.

Create HintDb carries.
#[local] Hint Resolve carries_load carries_meter carries_notify carries_validate guarantees_ret
  keeps_restore_gate keeps_restore_commit keeps_restore_hold : carries.

Ltac solve_keeps :=
  first [ solve [auto with carries]
        | intros ? ? ?; repeat case_match; simplify_eq; repeat split; try done; unfold dead; cbn; set_solver ].

Ltac carrying :=
  repeat (first
    [ exact I
    | solve [auto with carries]
    | apply carries_update; solve_keeps
    | apply carries_backend; intros; first [apply key_quiet|apply manifest_quiet|apply chunk_quiet|apply commit_quiet]
    | apply guarantees_bind; [|intros ?]
    | case_match ]).

Lemma carries_dispatch q :
  match q with QReserve _ | QRestore _ _ | QRollback _ => False | _ => True end →
  guarantees carries (dispatch organizationID has_meter has_watcher url_Parse q source).
Proof.
  intros Hq. destruct q; try done; unfold dispatch, importKey, importManifest, importChunk, verify,
    commit, hold, withdraw, get_, getCleanup, Get_, GetForCleanup_, ingest, loadSessionManifest,
    Update_, UpdateCleanup_, UpdateSession, UpdateCleanup; carrying.
  apply guarantees_atomic. intros ? ?. by apply carries_same.
Qed.

(** ** Reaping *)

Lemma reap_since s0 s now put_ok m' n restored :
  wf_store (sessions s) → since s0 s → ReapExpired now put_ok (sessions s) = (m', n, restored) →
  since s0 (s <| sessions := m' |>).
Proof.
  intros Hwf Hs Hr. eapply since_trans; [exact Hs|]. split; [done|]. cbn. intros id y Hy Hn.
  pose proof (ReapExpired_marks now put_ok (sessions s) Hwf id) as Hm. rewrite Hr in Hm. cbn in Hm.
  destruct (sessions s !! id) as [z|] eqn:Hz; [|congruence]. exists z.
  destruct Hm as [Hm|[_ Hm]]; rewrite Hm in Hy; injection Hy as <-; [by auto|]. done.
Qed.

Lemma rollback_reaped s0 restored :
  triple (λ _, True) (since s0) (alone (rollbackReapedRestores (BE := BE) restored))
    (λ _, since s0) (λ _, True).
Proof.
  apply (alone_guarantees _ carries); [|intros s s' H1 H2; by eapply since_trans|done].
  induction restored as [|x restored IH]; [done|]. cbn [rollbackReapedRestores].
  apply guarantees_bind; [|intros _; exact IH]. apply carries_backend. intros. apply rollback_quiet.
Qed.

Lemma since_Reserve s0 (e : answer) x s :
  RestoreID x = "" → since s0 s →
  since s0 (s <| sessions := (Reserve (now e) (store_ok e) x (sessions s)).1 |>).
Proof.
  intros Hx [Hq Hs]. split; [exact Hq|]. cbn. unfold Reserve.
  repeat (case_match; try (exact Hs)). cbn. intros id y Hy Hn.
  apply lookup_insert_Some in Hy as [[<- <-]|[Hi Hy]]; [done|]. by apply Hs.
Qed.

Lemma reserve_since input s0 :
  wf_store (sessions s0) →
  triple (λ _, True) (λ s, s = s0) (alone (reserve organizationID input source)) (λ _, since s0) (λ _, True).
Proof.
  intros Hwf. assert (since s0 s0) as H0 by apply since_refl.
  unfold reserve. destruct input as [input|]; [|by apply alone_ret; intros ? ->].
  do 3 (case_match; [by apply alone_ret; intros ? ->|]).
  apply (alone_bind _ _ _ _ (λ _, since s0)).
  { unfold reapExpired. apply (alone_bind _ _ _ _ (λ _, since s0)); [|apply rollback_reaped].
    apply alone_atomic; [done|]. intros e s _ ->.
    destruct (ReapExpired _ _ _) as [[m' n] restored] eqn:Hr. cbn [fst snd].
    by eapply reap_since. }
  intros _. apply alone_read; [done|]. intros e s _ Hs. apply triple_pre with (P' := since s0);
    [by intros ? ->|]. clear Hs. case_match; [|by apply alone_ret]. case_match; [by apply alone_ret|].
  eapply (alone_bind _ _ _ _ (λ _, since s0)); [|intros []; by apply alone_ret].
  apply alone_atomic; [done|]. intros e' s' _ Hs'.
  match goal with |- context [Reserve ?n ?ok ?x ?m] =>
    pose proof (since_Reserve s0 e' x s' eq_refl Hs') as Hres; by destruct (Reserve n ok x m) end.
Qed.

(** ** Rolling back *)

Lemma get_found gate n id (s : server) x :
  get_session gate n id source (sessions s) = Ok x → sessions s !! id = Some x ∧ SessionSource x = source.
Proof.
  unfold get_session. destruct (sessions s !! id) as [y|]; [|done].
  destruct (negb _) eqn:E; [done|]. destruct (gate && _); [done|]. intros [= ->].
  split; [done|]. by apply negb_false_iff, bool_decide_eq_true in E.
Qed.

Lemma get_missing n id (s : server) err :
  GetForCleanup n id source (sessions s) = Err err → ¬ has_copy id s.
Proof.
  unfold GetForCleanup, get_session. intros H (x & Hx & Hs & _). rewrite Hx in H.
  by rewrite bool_decide_eq_true_2 in H.
Qed.

Lemma since_backend s0 b : quietly (backend s0) b → since s0 (s0 <| backend := b |>).
Proof. intros Hq. split; [exact Hq|]. cbn. intros id y Hy _. exists y. auto. Qed.

Definition rolled (id : string) (s0 : server) (r : response) (s : server) : Prop :=
  since s0 s ∧
  match r with
  | Reply _ _ => ¬ has_copy id s
  | Refuse status _ => status = 404 → ¬ has_copy id s
  end.

Lemma rollback_rolled id s0 :
  wf_store (sessions s0) →
  triple (λ _, True) (λ s, s = s0) (alone (rollback id source)) (rolled id s0) (λ _, True).
Proof.
  intros Hwf. unfold rollback. apply alone_read; [done|]. intros e s _ ->.
  destruct (GetForCleanup _ _ _ _) as [x|err] eqn:Hg.
  2: { apply alone_ret. intros ? ->. split; [apply since_refl|]. intros _. by eapply get_missing. }
  apply get_found in Hg as [Hx Hsrc]. pose proof (Hwf id x Hx) as Hid. rewrite Hid.
  destruct (decide _) as [_|Hnc].
  { apply alone_ret. intros ? ->. split; [apply since_refl|done]. }
  set (ended := λ s, ∃ b, quietly (backend s0) b ∧ ¬ live b (RestoreID x) ∧ s = s0 <| backend := b |>).
  apply (alone_bind _ _ _ _ (λ r s, match r with Ok _ => ended s | Err _ => since s0 s end)).
  { destruct (decide _) as [Hn|Hn].
    - apply alone_ret. intros ? ->. exists (backend s0). split; [done|]. split; [|by destruct s0].
      rewrite Hn. intros Hl. by apply live_named in Hl.
    - apply alone_atomic; [done|]. intros e' s _ ->.
      pose proof (rollback_quiet (back e') (backend s0) (RestoreID x)) as Hq.
      pose proof (rollback_ends_it (back e') (backend s0) (RestoreID x)) as Hl.
      destruct (RollbackRestore _ _ _) as [b' [[]|err]]; cbn in *; [|by apply since_backend].
      exists b'. auto. }
  intros [[]|err].
  2: { apply alone_ret. intros s Hs. by split. }
  apply triple_at. intros s1 (b & Hq & Hnl & ->).
  apply (alone_bind _ _ _ _ (λ r, match r with Ok y => rolled id s0 (Reply 200 (BSession y))
    | Err _ => since s0 end)).
  2: { intros [y|err]; apply alone_ret; intros s Hs; [exact Hs|by split]. }
  apply alone_atomic; [done|]. intros e' s _ ->. unfold UpdateCleanup, update_session. cbn [sessions].
  change (sessions (s0 <| backend := b |>)) with (sessions s0). rewrite Hx.
  rewrite bool_decide_eq_true_2 by done. cbn [negb andb]. destruct (store_ok e').
  2: { cbn. by apply since_backend. }
  cbn [fst snd]. split; [split; [exact Hq|]|].
  - cbn. intros i y Hy Hn. apply lookup_insert_Some in Hy as [[<- <-]|[Hi Hy]]; [|by exists y; auto].
    exists x. cbn. auto 10.
  - intros (y & Hy & _ & _ & Hl). cbn in Hy, Hl. rewrite lookup_insert_eq in Hy. by injection Hy as <-.
Qed.

(** ** Restoring *)

(** A copy that the session [i] names was live before. *)
Definition lived (i : string) (s0 s : server) : Prop :=
  ∀ y, sessions s !! i = Some y → live (backend s) (RestoreID y) →
    ∃ x, sessions s0 !! i = Some x ∧ SessionSource x = SessionSource y ∧ live (backend s0) (RestoreID x).

(** Only the transfer [id] may have got a copy. *)
Definition started (id : string) (s0 s : server) : Prop :=
  tracked s ∧ ∀ i, i ≠ id → lived i s0 s.

Lemma since_started id s0 s : tracked s0 → since s0 s → started id s0 s.
Proof. intros Ht Hs. split; [by eapply since_tracked|]. intros i _ y. by apply since_live. Qed.

Lemma started_update id s0 b r x n :
  tracked s0 → sessions s0 !! id = Some x → quietly (backend s0) b → ¬ issued (backend s0) r → issued b r →
  started id s0 (s0 <| backend := b |> <| sessions := <[id := x <| State := SessionRestored |>
    <| RestoreID := r |> <| SessionUpdatedAt := n |>]> (sessions s0) |>).
Proof.
  intros Ht Hx [Hlive Hmono] Hfresh Hissued. split.
  - intros i y. cbn. intros Hy Hn. apply lookup_insert_Some in Hy as [[<- <-]|[Hi Hy]]; [done|].
    destruct (Ht i y Hy Hn) as [H1 H2]. split; [by apply Hmono|]. intros Hd Hl. by apply (H2 Hd), Hlive.
  - intros i Hi y Hy Hl. cbn in Hy, Hl. rewrite lookup_insert_ne in Hy by done. exists y.
    split; [done|]. split; [done|]. destruct (Ht i y Hy) as [H1 _]; [by apply live_named in Hl|]. by apply Hlive.
Qed.

Lemma restore_started id input s0 :
  sound s0 →
  triple (λ _, True) (λ s, s = s0) (alone (restore id input source)) (λ _, started id s0) (λ _, True).
Proof.
  intros ([Hwf _] & Hu & Ht).
  assert (started id s0 s0) as H0 by (apply since_started; [done|apply since_refl]).
  assert (∀ r : response, triple (λ _, True) (λ s, s = s0) (alone (mret r : thread server answer _))
    (λ _, started id s0) (λ _, True)) as Hret by (intros r; by apply alone_ret; intros ? ->).
  unfold restore. destruct input as [timeout|]; [|apply Hret].
  apply alone_read; [done|]. intros e s _ ->.
  destruct (GetSession _ _ _ _) as [x|err] eqn:Hg; [|apply Hret].
  apply get_found in Hg as [Hx Hsrc]. pose proof (Hwf id x Hx) as Hid. rewrite Hid.
  case_match. { apply alone_read; [done|]. intros e' s _ ->. case_match; apply Hret. }
  destruct (requireState x _) eqn:Hst; cbn [negb]; [|apply Hret].
  assert (RestoreID x = "") as Hnone.
  { apply (Hu id x Hx). unfold requireState in Hst. apply bool_decide_eq_true in Hst. set_solver. }
  case_match; [apply Hret|].
  apply (alone_bind _ _ _ _ (λ r s, ∃ b, s = s0 <| backend := b |> ∧ match r with
    | Ok r => quietly (backend s0) b ∧ ¬ issued (backend s0) r ∧ issued b r
    | Err _ => quietly (backend s0) b end)).
  { apply alone_atomic; [done|]. intros e' s _ ->.
    match goal with |- context [Prepare ?a ?b ?c ?t] => pose proof (prepare_quiet a b c t) as Hp;
      pose proof (prepare_fresh a b c t) as Hf; destruct (Prepare a b c t) as [b' out] end.
    cbn [fst snd] in *. exists b'. split; [done|]. destruct out as [r|]; [|done]. split; [done|]. by apply Hf. }
  intros [r|why]; apply triple_at; intros s1 (b & -> & Hb).
  - destruct Hb as (Hquiet & Hfresh & Hissued).
    apply (alone_bind _ _ _ _ (λ out s, match out with Ok _ => started id s0 s
      | Err _ => s = s0 <| backend := b |> end)).
    { apply alone_atomic; [done|]. intros e' s _ ->. unfold UpdateSession, update_session.
      change (sessions (s0 <| backend := b |>)) with (sessions s0). rewrite Hx.
      rewrite bool_decide_eq_true_2 by done. cbn [negb]. destruct (true && _); [done|].
      destruct (store_ok e'); [|done]. by apply started_update. }
    intros [y|err]; [by apply alone_ret|].
    apply (alone_bind _ _ _ _ (λ _, started id s0)); [|intros _; by apply alone_ret].
    apply alone_atomic; [done|]. intros e' s _ ->. cbn [backend].
    pose proof (rollback_quiet (back e') b r) as Hq. change (backend (s0 <| backend := b |>)) with b.
    destruct (RollbackRestore _ _ _) as [b' out]. cbn in *.
    apply since_started; [done|]. apply since_backend. by etrans.
  - apply (alone_bind _ _ _ _ (λ _, started id s0)); [|intros _; by apply alone_ret].
    apply alone_atomic; [done|]. intros e' s _ ->. apply since_started; [done|].
    unfold UpdateCleanup, update_session. change (sessions (s0 <| backend := b |>)) with (sessions s0).
    rewrite Hx, bool_decide_eq_true_2 by done. cbn [negb andb]. destruct (store_ok e').
    2: { split; [exact Hb|]. cbn. intros i y Hy _. exists y. auto. }
    split; [exact Hb|]. cbn. intros i y Hy Hn. apply lookup_insert_Some in Hy as [[<- <-]|[Hi Hy]]; [done|].
    exists y. auto.
Qed.

(** ** The store *)

Lemma unstarted_insert m id x y okref stored n :
  unstarted m → m !! id = Some x → session_update okref stored x y →
  unstarted (<[id := y <| SessionUpdatedAt := n |>]> m).
Proof.
  intros Hm Hx Hu i z Hz. apply lookup_insert_Some in Hz as [[<- <-]|[Hi Hz]]; [|by apply (Hm i)].
  specialize (Hm id x Hx).
  destruct Hu as [v ? Hs|v ? Hs|v ref v' Hs _ Hq|v0 ref v k Hs _ _ Hq|v Hs|v ? Hs|v ? Hs|v ? ? ? Hs|v Hs|v Hs];
    cbn in *; try (intros; apply Hm; rewrite ?Hs; set_solver); try set_solver.
  - unfold quota_gate in Hq. repeat case_match; simplify_eq. cbn. exact Hm.
Qed.

(** What one request may have done to a store that was [m0]. *)
Definition store_since (m0 m : store) (log : meter_log) : Prop := progressed m0 m log ∧ unstarted m.

Lemma Handler_store q m0 :
  triple (λ _, True) (view (store_since m0))
    (alone (Handler organizationID has_meter has_watcher url_Parse (Some source) q))
    (λ _, view (B := B) (store_since m0)) (view (store_since m0)).
Proof.
  apply (runs_Handler _ _ _ _ (λ _, True) (λ _, True) (λ _, True) (store_since m0)
           (λ id log, billed log id = 0%nat)).
  - done.
  - by intros m log [[[Hwf _] _] _].
  - intros m log id x y n [Hp Hn] Hx Hu. split; [|by eapply unstarted_insert].
    apply session_update_leads in Hu as (Hid & Hl & Hc). by eapply (progressed_insert _ _ _ _ x).
  - intros m log now ok x [Hp Hn] _ _ _ Hr. split; [by apply progressed_Reserve|].
    unfold Reserve. repeat (case_match; try exact Hn). cbn. intros i z Hz.
    apply lookup_insert_Some in Hz as [[<- <-]|[Hi Hz]]; [done|by apply (Hn i)].
  - intros m log now put_ok [Hp Hn]. split; [by apply progressed_reap|].
    destruct Hp as [[Hwf _] _]. pose proof (ReapExpired_marks now put_ok m Hwf) as Hr.
    intros i z Hz. specialize (Hr i). destruct (m !! i) as [y|] eqn:Hy; [|congruence].
    destruct Hr as [Hr|[_ Hr]]; rewrite Hr in Hz; injection Hz as <-; [by apply (Hn i)|]. cbn. set_solver.
  - intros m log id x [[[_ Hc] _] _] Hx Hst. specialize (Hc id). rewrite Hx in Hc.
    destruct Hc as [_ Hc]. destruct (billed log id); [done|].
    destruct Hst as [Hst|Hst]; rewrite Hst in Hc; by discriminate Hc.
  - intros m log x entry [Hp Hn] Hx H0 Hst. split; [|done]. eapply progressed_bill; [done|done|done|].
    by destruct Hst as [-> | ->].
  - by destruct q as [[]| | | | | | | | | | |].
Qed.

(** ** One request *)

#[local] Abbreviation serving q := (Handler (BE := BE) organizationID has_meter has_watcher url_Parse (Some source) q).

(** The destination answers one request of this source at a time.  Requests
    that interleave are the subject of [SessionTraffic]. *)
Definition served (e : nat → answer) (q : request) (s : server) : server * response :=
  finish (serving q) e s.

Lemma served_store e q s :
  sound s → consistent (sessions (served e q s).1) (metered (served e q s).1) ∧
            unstarted (sessions (served e q s).1) ∧ lifecycle (sessions s) (sessions (served e q s).1).
Proof.
  intros (Hc & Hu & Ht). pose proof (finish_triple _ _ _ _ _ e s (Handler_store q (sessions s))) as H.
  destruct H as [[H1 H2] H3]; [done|split; [split; [done|reflexivity]|done]|]. done.
Qed.

Lemma served_dispatch q (Q : response → server → Prop) s0 e :
  triple (λ _, True) (λ s, s = s0) (alone (dispatch organizationID has_meter has_watcher url_Parse q source)) Q
    (λ _, True) →
  Q (Refuse 401 "PEER_AUTHENTICATION_FAILED") s0 → Q (served e q s0).2 (served e q s0).1.
Proof.
  intros Ht Hr. unfold served, Handler, withAuth. destruct (decide (source = "")) as [->|]; [exact Hr|].
  by apply (finish_triple (λ _, True) _ (λ s, s = s0) _ (λ _, True)).
Qed.

Lemma carries_since (s0 : server) {R} (t : thread server answer R) :
  guarantees carries t → triple (λ _, True) (λ s, s = s0) (alone t) (λ _, since s0) (λ _, True).
Proof.
  intros Ht. eapply triple_pre; [|apply (alone_guarantees _ carries (since s0)); [exact Ht| |done]].
  - intros ? ->. apply since_refl.
  - intros s s' H1 H2. by eapply since_trans.
Qed.

Lemma served_lived e q s :
  sound s → tracked (served e q s).1 ∧
    ∀ i, lived i s (served e q s).1 ∨ ∃ timeout, q = QRestore i timeout.
Proof.
  intros Hs. pose proof Hs as ([Hwf _] & _ & Ht).
  assert (∀ s', since s s' → tracked s' ∧ ∀ i, lived i s s' ∨ ∃ timeout, q = QRestore i timeout) as Hsince.
  { intros s' Hss. split; [by eapply since_tracked|]. intros i. left. intros y. by apply since_live. }
  destruct q as [input| | | | |id input| |id| | | |];
    try (apply Hsince, (served_dispatch _ (λ _, since s)); [apply carries_since; by apply carries_dispatch|apply since_refl]).
  - apply Hsince, (served_dispatch _ (λ _, since s)); [by apply reserve_since|apply since_refl].
  - destruct (served_dispatch (QRestore id input) (λ _, started id s) s e) as [H1 H2].
    { by apply restore_started. } { apply since_started; [done|apply since_refl]. }
    split; [done|]. intros i. destruct (decide (i = id)) as [->|Hne]; [by right; exists input|left; by apply H2].
  - apply Hsince, (served_dispatch (QRollback id) (λ r s', rolled id s r s')).
    + by apply rollback_rolled.
    + split; [apply since_refl|done].
Qed.

Lemma served_started e q s i :
  sound s → has_copy i (served e q s).1 → has_copy i s ∨ ∃ timeout, q = QRestore i timeout.
Proof.
  intros Hs (y & Hy & Hsrc & Hst & Hl). destruct (served_lived e q s Hs) as [Ht Hlived].
  destruct (Hlived i) as [H|?]; [left|by right]. destruct (H y Hy Hl) as (x & Hx & Hsx & Hlx).
  exists x. split_and!; [done|congruence| |done]. intros Hf.
  destruct (served_store e q s Hs) as (_ & _ & Hlife). destruct (Hlife i x Hx) as (y' & Hy' & Hlead & _).
  rewrite Hy in Hy'. injection Hy' as <-. rewrite Hf in Hlead. cbn in Hlead. to_prop.
  destruct (Ht i y Hy) as [_ Hd]; [by apply live_named in Hl|]. apply Hd; [|done]. unfold dead. set_solver.
Qed.

Lemma served_sound e q s : sound s → sound (served e q s).1.
Proof.
  intros Hs. destruct (served_store e q s Hs) as (H1 & H2 & _). destruct (served_lived e q s Hs) as [H3 _]. done.
Qed.

(** ** Committing *)

Lemma commit_commits id s0 :
  wf_store (sessions s0) →
  triple (λ _, True) (λ s, s = s0) (alone (commit has_meter id source))
    (λ r s, ∀ status b, r = Reply status b → has_committed id s) (λ _, True).
Proof.
  intros Hwf.
  assert (∀ status code (P : server → Prop), triple (λ _, True) P (alone (mret (Refuse status code) : thread server answer _))
    (λ r s, ∀ status b, r = Reply status b → has_committed id s) (λ _, True)) as Hrefuse.
  { intros status code P. by apply alone_ret. }
  unfold commit. apply alone_read; [done|]. intros e s _ ->.
  destruct (GetSession _ _ _ _) as [x|err] eqn:Hg; [|apply Hrefuse].
  apply get_found in Hg as [Hx Hsrc]. pose proof (Hwf id x Hx) as Hid. rewrite Hid.
  destruct (decide _) as [Hc|Hc].
  { apply alone_ret. intros ? -> status b _. by exists x. }
  destruct (negb _); [apply Hrefuse|].
  apply (alone_bind _ _ _ _ (λ _ s, sessions s = sessions s0)).
  { apply alone_atomic; [done|]. intros e' s _ ->. by destruct (CommitRestore _ _ _). }
  intros [[]|err]; [|apply Hrefuse].
  apply (alone_bind _ _ _ _ (λ r s, match r with Ok y => has_committed id s
    | Err err => err ≠ errAlreadyCommitted end)).
  { apply alone_atomic; [done|]. intros e' s _ Hs. rewrite Hs. unfold UpdateSession, update_session. rewrite Hx.
    destruct (negb _); [done|]. destruct (true && _); [done|].
    unfold commit_update. rewrite decide_False by done. destruct (negb _); [done|].
    destruct (store_ok e'); [|done]. eexists. cbn. rewrite lookup_insert_eq. by split. }
  intros [y|err].
  - apply (alone_bind _ _ _ _ (λ _, has_committed id)); [|intros _; by apply alone_ret].
    unfold meterCompletion. case_match; [by apply alone_ret|]. by apply alone_atomic.
  - apply triple_at. intros s1 Herr. rewrite decide_False by done. destruct (decide _); apply Hrefuse.
Qed.

(** ** The instance *)

Definition peer_state : Type := { s : server | sound s }.

#[export] Instance server_peer : Peer peer_state (nat → answer) := {|
  answers e q d :=
    (exist _ (served e q (proj1_sig d)).1 (served_sound e q _ (proj2_sig d)),
     (served e q (proj1_sig d)).2);
|}.

Definition copy_of (id : string) (d : peer_state) : Prop := has_copy id (proj1_sig d).
Definition committed_of (id : string) (d : peer_state) : Prop := has_committed id (proj1_sig d).

Lemma no_copy id s x :
  sound s → sessions s !! id = Some x → State x ∈ no_copy_states → ¬ has_copy id s.
Proof.
  intros (_ & Hu & Ht) Hx Hst (y & Hy & _ & Hnf & Hl). rewrite Hx in Hy. injection Hy as <-.
  pose proof (live_named _ _ Hl) as Hn. destruct (Ht id x Hx Hn) as [_ Hd].
  unfold no_copy_states in Hst. rewrite !elem_of_cons in Hst.
  destruct Hst as [Hst|[Hst|[Hst|[Hst|[Hst|Hst]]]]]; [..|done|by apply elem_of_nil in Hst].
  1-3: apply Hn, (Hu id x Hx); rewrite Hst; set_solver.
  by apply (Hd Hst).
Qed.

Lemma getCleanup_reads id s0 :
  triple (λ _, True) (λ s, s = s0) (alone (getCleanup (BE := BE) id source))
    (λ r s, s = s0 ∧ match r with
       | Reply _ b => ∃ x, b = BSession x ∧ sessions s0 !! id = Some x ∧ SessionSource x = source
       | Refuse _ _ => ¬ has_copy id s0
       end) (λ _, True).
Proof.
  unfold getCleanup. apply alone_read; [done|]. intros e s _ ->.
  destruct (GetForCleanup _ _ _ _) as [x|err] eqn:Hg; apply alone_ret; intros ? ->; (split; [done|]).
  - apply get_found in Hg as [? ?]. by exists x.
  - by eapply get_missing.
Qed.

(** The peer API keeps the promises its source relies on. *)
#[export] Instance server_laws : PeerLaws peer_state (nat → answer) copy_of committed_of.
Proof.
  split; unfold copy_of, committed_of; cbn [answers server_peer fst snd proj1_sig].
  - intros e q id [s Hs]. by apply served_started.
  - intros e id [s Hs] Hr. cbn [proj1_sig fst snd] in *. pose proof Hs as ([Hwf _] & _).
    assert (rolled id s (Refuse 401 "PEER_AUTHENTICATION_FAILED") s) as H401 by (split; [apply since_refl|done]).
    pose proof (served_dispatch (QRollback id) (λ r s', rolled id s r s') s e (rollback_rolled id s Hwf) H401)
      as [_ H].
    destruct Hr as [(status & b & Hr)|[code Hr]]; rewrite Hr in H; [done|by apply H].
  - intros e id [s Hs] Hr. cbn [proj1_sig fst snd] in *.
    pose proof (served_dispatch (QGetCleanup id) (λ r s', s' = s ∧ match r with
       | Reply _ b => ∃ x, b = BSession x ∧ sessions s !! id = Some x ∧ SessionSource x = source
       | Refuse status _ => status = 404 → ¬ has_copy id s
       end) s e) as H.
    destruct H as [-> H].
    { eapply triple_post; [|apply getCleanup_reads]. by intros [] s' [? ?]. }
    { done. }
    destruct Hr as [(status & x & Hr & Hst)|[code Hr]]; rewrite Hr in H; [|by apply H].
    destruct H as (y & [= ->] & Hx & _). by eapply no_copy.
  - intros e id [s Hs] status b Hr. cbn [proj1_sig fst snd] in *. pose proof Hs as ([Hwf _] & _).
    by apply (served_dispatch (QCommit id) (λ r s', ∀ status b, r = Reply status b → has_committed id s') s e
      (commit_commits id s Hwf) ltac:(done)  status b).
  - intros e id [s Hs] status x Hr Hst. cbn [proj1_sig fst snd] in *.
    pose proof (served_dispatch (QGetCleanup id) (λ r s', ∀ status x, r = Reply status (BSession x) →
       s' = s ∧ sessions s !! id = Some x ∧ SessionSource x = source) s e) as H.
    destruct (λ H1 H2, H H1 H2 status x Hr) as (-> & Hx & Hsrc); [|done|by exists x].
    eapply triple_post; [|apply getCleanup_reads]. intros r s' [-> Hm] st z ->.
    by destruct Hm as (y & [= ->] & ? & ?).
  - intros e q id [s Hs] (x & Hx & Hsrc & Hst). cbn [proj1_sig fst snd] in *. destruct (served_store e q s Hs) as (_ & _ & Hl).
    destruct (Hl id x Hx) as (y & Hy & _ & Heq). exists y. rewrite (Heq Hst) in *. done.
Qed.
End server.

(** ** A concrete destination *)

(** The manifests a machine has, the copies it runs, and how many restores it
    has numbered. *)
Record depot := { shelf : gmap string CheckpointManifest; copies : list string; numbered : nat }.

Definition restore_name (n : nat) : string := String.string_of_list_ascii (replicate (S n) (Ascii.ascii_of_nat 114)).

Lemma restore_name_inj n n' : restore_name n = restore_name n' → n = n'.
Proof.
  intros H. apply (f_equal String.list_ascii_of_string) in H. unfold restore_name in H.
  rewrite !String.list_ascii_of_string_of_list_ascii in H. apply (f_equal length) in H.
  rewrite !length_replicate in H. lia.
Qed.

#[export] Instance depot_backend : Backend depot bool := {|
  ImportWorkloadKey _ b _ _ _ := (b, Ok tt);
  VerifyManifest _ := Ok tt;
  SaveManifest _ b m := ({| shelf := <[ManifestID m := m]> (shelf b); copies := copies b;
                            numbered := numbered b |}, Ok tt);
  LoadManifest _ b id := match shelf b !! id with Some m => Ok m | None => Err "not stored" end;
  MissingChunks _ _ refs := Ok refs;
  FreeBytes _ _ := Ok (2 ^ 40);
  ImportChunkResult _ b _ _ := (b, Ok true);
  ValidateAsset _ _ _ _ := Ok tt;
  Inspect _ _ := Ok [2 ^ 40];
  Prepare ok b _ _ :=
    if (ok : bool) then
      ({| shelf := shelf b; copies := restore_name (numbered b) :: copies b;
          numbered := S (numbered b) |}, Ok (restore_name (numbered b)))
    else (b, Err "restore failed");
  CommitRestore _ b _ := (b, Ok tt);
  RollbackRestore ok b r :=
    if (ok : bool) then
      ({| shelf := shelf b; copies := filter (λ x, x ≠ r) (copies b); numbered := numbered b |}, Ok tt)
    else (b, Err "the restored process does not stop");
  GetRestore _ b r := if decide (r ∈ copies b) then Ok tt else Err "missing";
|}.

Definition numbered_restore (b : depot) (r : string) : Prop :=
  ∃ n, (n < numbered b)%nat ∧ r = restore_name n.
Definition runs_copy (b : depot) (r : string) : Prop := r ∈ copies b ∧ numbered_restore b r.

#[export] Instance depot_laws : RestoreLaws (BE := bool) runs_copy numbered_restore.
Proof.
  split.
  - by intros b r [_ H].
  - by intros b (n & _ & H).
  - done.
  - done.
  - done.
  - done.
  - intros [] b c t; cbn; [|done]. split.
    + intros r Hi [Hr Hn]. split; [|done]. apply elem_of_cons in Hr as [Hr|Hr]; [|done].
      destruct Hi as (n & Hi & ->). apply restore_name_inj in Hr. lia.
    + intros r (n & Hn & ->). exists n. cbn. split; [lia|done].
  - intros [] b c t r; cbn; [|done]. intros [= <-]. split.
    + intros (n & Hn & H). apply restore_name_inj in H. lia.
    + exists (numbered b). cbn. split; [lia|done].
  - intros [] b r; cbn; [|done]. split; [|done]. intros r' Hi [Hr _]. split; [|done].
    by apply list_elem_of_filter in Hr as [_ Hr].
  - intros [] b r; cbn; [|done]. intros _ [Hr _]. by apply list_elem_of_filter in Hr as [? _].
Qed.

Definition empty_server : server (B := depot) := {|
  sessions := ∅; backend := {| shelf := ∅; copies := []; numbered := 0 |}; metered := []; held := [];
  withdrawn := [] |}.

Lemma empty_sound : sound runs_copy numbered_restore empty_server.
Proof. by split; [split|]. Qed.
