(* ===== verification/Migration.v ===== *)
(** * The migration orchestrator ([internal/migration])

    The source's half of a migration: admission, the run through the stages
    from discovery to cleanup, the rollback of a run that failed or was
    cancelled, and what a restarted agent does with the runs it finds.  A run
    drives the checkpoint service and the runtime of its own machine
    ([Checkpoint], [Runtime]) and the peer API of the destination ([Peer]).

    A thread acts on the [world]: the source machine, the destination and the
    orchestrator's two collections.  Waiting for a slot, for a backoff and
    for timers is not modelled; a context that is cancelled or out of time is
    an answer, as are the machine inventories and the compatibility report.
    The four workers that upload chunks are interleaved inside the action of
    the run, in an order the environment picks. *)
From S2P Require Import Prelude Float64 GoStr Model Workload Prog Conc Network Session Host Runtime Restorer Checkpoint Peer.

Local Open Scope string_scope.
Local Open Scope list_scope.
Local Open Scope Z_scope.

(** ** Records *)

(** [migrationFreeze]. *)
Record migrationFreeze := {
  FreezeMigration : string;
  FreezeWorkload : string;
  OwnsFreeze : bool;
  DowntimeStart : Z;
  FreezeRecordedAt : Z;
}.
#[export] Instance migrationFreeze_eta : Eta migrationFreeze := fun f =>
  Build_migrationFreeze (FreezeMigration f) (FreezeWorkload f) (OwnsFreeze f) (DowntimeStart f)
    (FreezeRecordedAt f).

Record world (D : Type) := {
  agent : host;
  destination : D;
  records : gmap string Migration;
  freezes : gmap string migrationFreeze;
}.
Arguments agent {D} _.
Arguments destination {D} _.
Arguments records {D} _.
Arguments freezes {D} _.
Arguments Build_world {D} _ _ _ _.
#[export] Instance world_eta D : Eta (world D) := fun s =>
  Build_world (agent s) (destination s) (records s) (freezes s).

(** What one action is answered: the kernel, the link to the destination,
    whether a write of the orchestrator's own collections succeeds, whether
    the run has been cancelled, what the machines report, which goroutine of
    a worker pool acts next and whether a [select] prefers the done context. *)
Record moment (DE : Type) := {
  ker : kernel;
  wire : link DE;
  stored_ok : bool;
  cancelled : bool;
  machine_of : string;
  report : CompatibilityReport;
  turn : nat;
  gives_up : bool;
}.
Arguments ker {DE} _.
Arguments wire {DE} _.
Arguments stored_ok {DE} _.
Arguments cancelled {DE} _.
Arguments machine_of {DE} _.
Arguments report {DE} _.
Arguments turn {DE} _.
Arguments gives_up {DE} _.
Arguments Build_moment {DE} _ _ _ _ _ _ _ _.

(** [appendEvent]. *)
Definition appendEvent (now : Z) (message : string) (progress : float64) (done total : Z)
    (v : Migration) : Migration :=
  let events := Events v ++
    [{| EventSequence := uint64 (Z.of_nat (length (Events v)) + 1); EventStage := Stage v;
        EventMessage := message; EventTimestamp := now; EventProgress := progress;
        BytesDone := done; BytesTotal := total |}] in
  v <| Events := if (256 <? length events)%nat then drop (length events - 256) events else events |>.

(** [migrationProgress]. *)
Definition migrationProgress (s : MigrationStage) : float64 :=
  match s with
  | MigrationDiscover => 0.03
  | MigrationValidate => 0.08
  | MigrationSnapshot => 0.12
  | MigrationPrepare => 0.28
  | MigrationTransfer => 0.32
  | MigrationVerify => 0.72
  | MigrationRestore => 0.80
  | MigrationPostValidate => 0.90
  | MigrationSwitch => 0.94
  | MigrationCommit => 0.97
  | MigrationCleanup => 0.99
  | _ => 0
  end.

(** [frozenStageRank]. *)
Definition frozenStageRank (s : MigrationStage) : option Z :=
  match s with
  | MigrationSnapshot => Some 1
  | MigrationPrepare => Some 2
  | MigrationTransfer => Some 3
  | MigrationVerify => Some 4
  | MigrationRestore => Some 5
  | MigrationPostValidate => Some 6
  | MigrationSwitch => Some 7
  | MigrationCommit => Some 8
  | MigrationCleanup => Some 9
  | MigrationRollingBack => Some 10
  | _ => None
  end.

(** [recoveryOwnsFreeze]. *)
Definition recoveryOwnsFreeze (m : Migration) (fact : option migrationFreeze) : bool :=
  match fact with
  | Some fact => OwnsFreeze fact
  | None =>
      match frozenStageRank (Stage m) with
      | None => false
      | Some rank => if decide (Mode m = MigrationLive) then 3 <=? rank else true
      end
  end.

Definition maxReservationWindow : Z := 24 * hour.

(** The budget of a run. *)
Definition run_timeout (timeout : Z) : Z :=
  let timeout := if timeout <=? 0 then 2 * hour else timeout in
  if maxReservationWindow <? timeout then maxReservationWindow else timeout.

(** [reservationExpiry]. *)
Definition reservationExpiry (now timeout : Z) : Z :=
  now + (if (timeout <=? 0) || (maxReservationWindow <? timeout) then maxReservationWindow
         else timeout).

(** [destinationMatches]. *)
Definition destinationMatches (request stored : Destination) : bool :=
  bool_decide (AgentURL request = AgentURL stored) &&
  bool_decide (ServerName request = ServerName stored) &&
  bool_decide (Route request = Route stored) &&
  bool_decide (RelayEndpoint request = RelayEndpoint stored) &&
  bool_decide (RelayTicket request = RelayTicket stored) &&
  negb (bool_decide (DestMachineID request ≠ "") && bool_decide (DestMachineID stored ≠ "") &&
        bool_decide (DestMachineID request ≠ DestMachineID stored)).

(** [compatibilityFailure]. *)
Definition compatibilityFailure (r : CompatibilityReport) : string :=
  String.concat "; " ((λ i, IssueCode i +:+ ": " +:+ IssueDescription i) <$>
             filter (λ i, IssueSeverity i = "error") (Issues r)).

(** ** Admission *)

Record CreateRequest := {
  RequestedWorkload : string;
  RequestedKey : string;
  RequestedDestination : Destination;
  RequestedMode : string;
  RequestedPasses : Z;
}.
#[export] Instance CreateRequest_eta : Eta CreateRequest := fun r =>
  Build_CreateRequest (RequestedWorkload r) (RequestedKey r) (RequestedDestination r)
    (RequestedMode r) (RequestedPasses r).

Definition errIdempotencyConflict : string :=
  "migration idempotency key was reused with different parameters".
Definition errMigrationAlreadyActive : string := "workload already has an active migration".

(** The mode a request asks for. *)
Definition requested_mode (mode : string) : result MigrationMode :=
  if decide (mode = "" ∨ mode = "cold") then Ok MigrationCold
  else if decide (mode = "live") then Ok MigrationLive
  else Err "unsupported migration mode".

(** The request repeats a recorded one. *)
Definition same_request (r : CreateRequest) (mode : MigrationMode) (existing : Migration) : bool :=
  bool_decide (WorkloadID existing = RequestedWorkload r) &&
  destinationMatches (RequestedDestination r) (DestinationOf existing) &&
  bool_decide (Mode existing = mode) && (PreCopyPasses existing =? RequestedPasses r).

Definition same_key (r : CreateRequest) (existing : Migration) : bool :=
  bool_decide (RequestedKey r ≠ "") && bool_decide (IdempotencyKey existing = RequestedKey r).

(** The loop of [Create] over the records: the replayed record, a refusal,
    or nothing in the way. *)
Fixpoint admission (r : CreateRequest) (mode : MigrationMode) (existing : list Migration)
    : result (option Migration) :=
  match existing with
  | [] => Ok None
  | m :: rest =>
      if negb (bool_decide (WorkloadID m = RequestedWorkload r)) && negb (same_key r m) then
        admission r mode rest
      else if same_key r m then
        if same_request r mode m then Ok (Some m) else Err errIdempotencyConflict
      else if negb (terminal (Stage m)) then Err errMigrationAlreadyActive
      else admission r mode rest
  end.

(** The loop of [Preflight] over the records. *)
Fixpoint admission_dry (r : CreateRequest) (mode : MigrationMode) (existing : list Migration)
    : result unit :=
  match existing with
  | [] => Ok tt
  | m :: rest =>
      if same_key r m then
        if same_request r mode m then admission_dry r mode rest else Err errIdempotencyConflict
      else if bool_decide (WorkloadID m = RequestedWorkload r) && negb (terminal (Stage m)) then
        Err errMigrationAlreadyActive
      else admission_dry r mode rest
  end.

(** [records.List]. *)
Definition listed_records (m : gmap string Migration) : list Migration :=
  snd <$> merge_sort (λ a b, Is_true (String.leb a.1 b.1)) (map_to_list m).

Definition no_report : CompatibilityReport := {| Compatible := false; Issues := []; CheckedAt := 0 |}.
Definition no_plan : NetworkPlan := {|
  PlanPolicy := ""; PlanIdentity := {| IP := ""; PrefixLength := 0 |}; PlanPorts := [];
  SocketsCarried := false; ConnectionsDropped := false; DrainBeforeCheckpoint := false;
  PlanSummary := "" |}.
Definition no_metrics : MigrationMetrics := {|
  TotalStateBytes := 0; TransferredBytes := 0; DeduplicatedBytes := 0;
  PreCopyTransferredBytes := 0; CheckpointDuration := 0; RestoreDuration := 0; Downtime := 0;
  TransferDuration := 0; TransferBytesPerSec := 0 |}.

(** The record of an admitted migration. *)
Definition new_migration (id machine : string) (now : Z) (w : Workload) (r : CreateRequest)
    (mode : MigrationMode) : Migration := {|
  MID := id; IdempotencyKey := RequestedKey r; WorkloadID := SpecID (Spec w); CheckpointID := "";
  SourceMachineID := machine; DestinationOf := RequestedDestination r; Mode := mode;
  PreCopyPasses := RequestedPasses r; Stage := MigrationCreated; Compatibility := no_report;
  Network := no_plan; Metrics := no_metrics;
  Events := [{| EventSequence := 1; EventStage := MigrationCreated;
                EventMessage := "migration created"; EventTimestamp := now; EventProgress := 0;
                BytesDone := 0; BytesTotal := 0 |}];
  CreatedAt := now; UpdatedAt := now; CompletedAt := None; FailureCode := "";
  FailureReason := ""; SourcePreserved := true; Revision := 1 |}.

(** ** The worker pool of a transfer *)

(** A busy worker makes an attempt, after which it may make [more], or has a
    result to post. *)
Inductive work :=
| Trying (more : nat)
| Posting (r : result unit).

(** The jobs the feeder still has, the capacity of the channel of results, the
    workers that wait for a job and those at work, the results, and what the
    reader of the results has counted. *)
Record pool := {
  queued : list ChunkRef;
  width : nat;
  waiting : nat;
  busy : list (ChunkRef * work);
  posted : list (ChunkRef * result unit);
  uploaded : nat;
  transferred : Z;
}.
#[export] Instance pool_eta : Eta pool := fun p =>
  Build_pool (queued p) (width p) (waiting p) (busy p) (posted p) (uploaded p) (transferred p).

Definition workerCount (len : nat) : nat := Nat.min len 4.
Definition uploadAttempts : nat := 5.

Definition new_pool (refs : list ChunkRef) : pool := {|
  queued := refs; width := workerCount (length refs); waiting := workerCount (length refs); busy := []; posted := [];
  uploaded := 0; transferred := 0 |}.

Definition stored_bytes (refs : list ChunkRef) : Z := foldr (λ r n, StoredSize r + n) 0 refs.

(** What a turn amounts to: a worker uploads, the reader handles a result,
    the pool changes without either, or every goroutine has ended. *)
Inductive move :=
| Upload (i : nat) (ref : ChunkRef) (more : nat)
| Handle (at_ : ChunkRef * list (ChunkRef * result unit)) (r : result unit)
| Become (p : pool)
| AllEnded.

(** The feeder hands the next job to a waiting worker, or stops. *)
Definition feed (leave : bool) (p : pool) : option move :=
  match queued p, waiting p with
  | [], _ => None
  | ref :: rest, waiting_ =>
      if leave then Some (Become (p <| queued := [] |>))
      else match waiting_ with
           | O => None
           | S n => Some (Become (p <| queued := rest |> <| waiting := n |>
                                    <| busy := busy p ++ [(ref, Trying (uploadAttempts - 1))] |>))
           end
  end.

(** Worker [i] makes its next attempt, or posts its result: with a done
    context it may return instead, and it waits while the channel is full. *)
Definition work_on (i : nat) (leave : bool) (p : pool) : option move :=
  match busy p !! i with
  | None => None
  | Some (ref, Trying more) => Some (Upload i ref more)
  | Some (ref, Posting r) =>
      if leave then Some (Become (p <| busy := delete i (busy p) |>))
      else if (length (posted p) <? width p)%nat then
        Some (Become (p <| busy := delete i (busy p) |> <| posted := posted p ++ [(ref, r)] |>
                        <| waiting := (if is_ok r then S (waiting p) else waiting p) |>))
      else None
  end.

Definition read_result (p : pool) : option move :=
  match posted p with
  | [] => None
  | (ref, r) :: rest => Some (Handle (ref, rest) r)
  end.

(** Whose turn it is; a turn that its goroutine cannot use goes to one that
    can, and when there is none, all have ended. *)
Definition next_move (turn : nat) (leave : bool) (p : pool) : move :=
  let chosen := match turn with
                | O => read_result p
                | S O => feed leave p
                | S (S i) => work_on i leave p
                end in
  match chosen with
  | Some m => m
  | None =>
      match read_result p with
      | Some m => m
      | None =>
          match feed leave p with
          | Some m => m
          | None => match work_on 0 leave p with Some m => m | None => AllEnded end
          end
      end
  end.


Section orchestrator.
Context {D DE : Type} `{!Peer D DE}.
(** The agent's state directory, its machine id, whether checkpoints are
    mirrored, the digest behind virtual identities, and whether the machine
    has a network layer; the parser and normal form of agent endpoints. *)
Context (stateDir : path) (machine : string) (mirrored : bool) (digest32 : string → Z)
        (has_network : bool) (normalize_endpoint : Destination → result Destination).

#[local] Abbreviation act_on := (thread (world D) (moment DE)).

(** ** Actions *)

Definition on_agent {A} (t : call A) : act_on A :=
  zoom agent (λ h s, s <| agent := h |>) ker t.

Definition on_peer {A} (t : thread D (link DE) A) : act_on A :=
  zoom destination (λ d s, s <| destination := d |>) wire t.

Definition observe {A} (f : moment DE → world D → A) : act_on A := atomic (λ e s, (s, f e s)).

Definition now_at (e : moment DE) : Z := clock (ker e).

Definition now : act_on Z := observe (λ e _, now_at e).

(** [update]. *)
Definition update (id : string) (f : Z → Migration → result Migration) : act_on (result unit) :=
  atomic (λ e s,
    match records s !! id with
    | None => (s, Err "record not found")
    | Some v =>
        match f (now_at e) v with
        | Err err => (s, Err err)
        | Ok v =>
            let v := v <| UpdatedAt := now_at e |> <| Revision := uint64 (Revision v + 1) |> in
            if stored_ok e then (s <| records := <[id := v]> (records s) |>, Ok tt)
            else (s, Err "persist migration")
        end
    end).

(** An update whose outcome is ignored. *)
Definition note (id : string) (f : Z → Migration → Migration) : act_on unit :=
  _ ← update id (λ t v, Ok (f t v)); mret tt.

(** [transition]. *)
Definition transition (id : string) (to : MigrationStage) (message : string) (progress : float64)
    : act_on (result unit) :=
  update id (λ t v, Transition t to message progress v).

(** [progress]. *)
Definition progress (id message : string) (at_ : float64) (done total : Z) : act_on unit :=
  note id (λ t, appendEvent t message at_ done total).

Definition event (id message : string) : act_on unit :=
  note id (λ t v, appendEvent t message (migrationProgress (Stage v)) 0 0 v).

Definition put_freeze (f : migrationFreeze) : act_on unit :=
  atomic (λ e s, (if stored_ok e then s <| freezes := <[FreezeMigration f := f]> (freezes s) |>
                  else s, tt)).

(** [noteFreezeOwnership]. *)
Definition noteFreezeOwnership (id workloadID : string) (owns : bool) : act_on unit :=
  existing ← observe (λ e s, (now_at e, freezes s !! id));
  let '(t, existing) := existing in
  put_freeze {| FreezeMigration := id; FreezeWorkload := workloadID; OwnsFreeze := owns;
                DowntimeStart := match existing with Some f => DowntimeStart f | None => 0 end;
                FreezeRecordedAt := match existing with
                              | Some f => if FreezeRecordedAt f =? 0 then t else FreezeRecordedAt f
                              | None => t
                              end |}.

(** [noteDowntimeStart]. *)
Definition noteDowntimeStart (id : string) (at_ : Z) : act_on unit :=
  if at_ =? 0 then mret tt
  else
    existing ← observe (λ _ s, freezes s !! id);
    put_freeze (match existing with
                | Some f => f <| DowntimeStart := at_ |>
                | None => {| FreezeMigration := id; FreezeWorkload := ""; OwnsFreeze := false;
                             DowntimeStart := at_; FreezeRecordedAt := at_ |}
                end).

Definition get_record (id : string) : act_on (option Migration) := observe (λ _ s, records s !! id).

(** ** Creating *)

(** [Create], up to the goroutine it starts. *)
Definition CreateMigration (r : CreateRequest) : act_on (result Migration) :=
  if decide (RequestedWorkload r = "") then mret (Err "workload id is required")
  else
    match d ← normalize_endpoint (RequestedDestination r); m ← requested_mode (RequestedMode r);
          Ok (d, m) with
    | Err err => mret (Err err)
    | Ok (d, mode) =>
        let r := r <| RequestedDestination := d |> in
        found ← on_agent (get_workload (RequestedWorkload r));
        match found with
        | Err err => mret (Err err)
        | Ok w =>
            if negb (bool_decide (Status w ∈ [WorkloadRunning; WorkloadPaused])) then
              mret (Err "workload must be running or paused")
            else
              atomic (λ e s,
                match admission r mode (listed_records (records s)) with
                | Err err => (s, Err err)
                | Ok (Some existing) => (s, Ok existing)
                | Ok None =>
                    let v := new_migration (text (ker e)) machine (now_at e) w r mode in
                    if ok (ker e) && stored_ok e then
                      (s <| records := <[text (ker e) := v]> (records s) |>, Ok v)
                    else (s, Err "persist migration")
                end)
        end
    end.

(** [Preflight]. *)
Definition Preflight (r : CreateRequest) : act_on (result (CompatibilityReport * NetworkPlan)) :=
  match d ← normalize_endpoint (RequestedDestination r); m ← requested_mode (RequestedMode r);
        Ok (d, m) with
  | Err err => mret (Err err)
  | Ok (d, mode) =>
      let r := r <| RequestedDestination := d |> in
      found ← on_agent (get_workload (RequestedWorkload r));
      match found with
      | Err err => mret (Err err)
      | Ok w =>
          if negb (bool_decide (Status w ∈ [WorkloadRunning; WorkloadPaused])) then
            mret (Err "workload must be running or paused")
          else
            admitted ← observe (λ _ s, admission_dry r mode (listed_records (records s)));
            match admitted with
            | Err err => mret (Err err)
            | Ok _ =>
                found ← observe (λ e _, if reached (wire e) && heard (wire e) then Ok (machine_of e)
                                        else Err "destination unreachable");
                match found with
                | Err err => mret (Err err)
                | Ok target =>
                    if decide (target = machine) then
                      mret (Err "source and destination resolve to the same machine identity")
                    else if bool_decide (DestMachineID d ≠ "") && bool_decide (DestMachineID d ≠ target) then
                      mret (Err "destination certificate does not match the requested machine")
                    else
                      observe (λ e _, if ok (ker e) then
                                        plan ← PlanFor digest32 (Spec w); Ok (report e, plan)
                                      else Err "source inventory")
                end
            end
      end
  end.

(** ** Undoing *)

(** What a run knows when it fails: whether it has a client for the
    destination, a reservation there, a committed destination, since when
    the workload is down and since when it runs again, and whether this run
    stopped it. *)
Record vars := {
  has_peer : bool;
  reserved : bool;
  committed : bool;
  downtimeStart : Z;
  workloadResumedAt : Z;
  sourceFrozen : bool;
}.
#[export] Instance vars_eta : Eta vars := fun v =>
  Build_vars (has_peer v) (reserved v) (committed v) (downtimeStart v) (workloadResumedAt v)
    (sourceFrozen v).

(** The loop of [rollbackDestination]. *)
Fixpoint rollback_attempts (n : nat) (first : bool) (id last : string)
    : act_on (bool * list string) :=
  match n with
  | O => mret (false, ["destination rollback failed: " +:+ last])
  | S n =>
      stop ← (if first then mret false else observe (λ e _, expired (wire e)));
      if (stop : bool) then mret (false, ["destination rollback failed: " +:+ last])
      else
        r ← on_peer (session_call (QRollback id));
        match r with
        | Ok _ => mret (true, [])
        | Err err => if decide (err = errTransferNotFound) then mret (true, [])
                     else rollback_attempts n false id err
        end
  end.

(** [rollbackDestination]. *)
Definition rollbackDestination (id : string) (has_peer reserved : bool)
    : act_on (bool * list string) :=
  if negb reserved then mret (true, [])
  else if negb has_peer then
    mret (false, ["destination rollback could not be attempted: no destination client"])
  else rollback_attempts 4 true id "rollback aborted by cancellation".

(** [destinationHoldsLiveCopy]. *)
Definition destinationHoldsLiveCopy (id : string) (has_peer : bool) : act_on bool :=
  if negb has_peer then mret true
  else
    r ← on_peer (session_call (QGetCleanup id));
    mret (match r with
          | Err err => negb (bool_decide (err = errTransferNotFound))
          | Ok s => negb (bool_decide (State s ∈ no_copy_states))
          end).

(** [sourceWorkloadRunning]. *)
Definition sourceWorkloadRunning (workloadID : string) : act_on bool :=
  found ← on_agent (get_workload workloadID);
  mret (match found with Ok w => bool_decide (Status w = WorkloadRunning) | Err _ => false end).

(** [recordSourceOutcome]: the document the source's root is left with. *)
Definition recordSourceOutcome (id workloadID : string) (plan : NetworkPlan) (outcome detail : string)
    : act_on (result StatusDocument) :=
  found ← on_agent (get_workload workloadID);
  match (w ← found; if decide (IP (PlanIdentity plan) = "") then PlanFor digest32 (Spec w)
                    else Ok plan) with
  | Err err => mret (Err err)
  | Ok plan =>
      let preserved := bool_decide (outcome = StatusCompleted) && SocketsCarried plan in
      observe (λ e _,
        d ← WriteStatus (now_at e) {|
              SchemaVersion := 0; OperationID := id; Operation := "migration"; Outcome := outcome;
              DocPolicy := PlanPolicy plan; VirtualIP := IP (PlanIdentity plan);
              SocketsPreserved := preserved; DocConnectionsDropped := negb preserved;
              DocPorts := PlanPorts plan; ForwardedPorts := []; RecordedAt := 0;
              Detail := detail |};
        if ok (ker e) then Ok d else Err "write status")
  end.

(** [drainSourceForwarders]. *)
Definition drainSourceForwarders (id workloadID : string) (plan : NetworkPlan) : act_on Z :=
  if negb has_network || negb (DrainBeforeCheckpoint plan) || bool_decide (length (PlanPorts plan) = 0%nat)
  then mret 0
  else
    drainedAt ← now;
    forced ← on_agent (on_network (DrainForwarders workloadID));
    _ ← note id (λ t, appendEvent t ("drained source forwarding; " +:+ Itoa forced +:+
                   " connections closed after the grace period") 0.12 0 0);
    mret drainedAt.

(** [restoreSourceNetwork]. *)
Definition restoreSourceNetwork (m : Migration) : act_on unit :=
  if negb has_network || negb (DrainBeforeCheckpoint (Network m)) ||
     bool_decide (length (PlanPorts (Network m)) = 0%nat)
  then mret tt
  else _ ← on_agent (on_network (Activate (WorkloadID m) (Mapping <$> PlanPorts (Network m)))); mret tt.

(** [stopSourceWithRetry]. *)
Fixpoint stopSourceWithRetry (n : nat) (workloadID : string) (last : result unit)
    : act_on (result unit) :=
  match n with
  | O => mret last
  | S n =>
      r ← on_agent (Stop workloadID);
      match r with
      | Ok _ => mret (Ok tt)
      | Err err => stopSourceWithRetry n workloadID (Err err)
      end
  end.

(** [forceSettle]. *)
Definition forceSettle (id : string) (to : MigrationStage) (message : string) : act_on unit :=
  note id (λ t v, appendEvent t message 1 0 0
                    (v <| Stage := to |> <| UpdatedAt := t |> <| CompletedAt := Some t |>)).

(** [forceCompleteRecovered]. *)
Definition forceCompleteRecovered (id message : string) (stopped : result unit) : act_on unit :=
  note id (λ t v,
    let v := v <| Stage := MigrationCompleted |> <| SourcePreserved := negb (is_ok stopped) |> in
    let v := match stopped with
             | Err err => v <| FailureCode := "SOURCE_CLEANUP_FAILED" |> <| FailureReason := err |>
             | Ok _ => v
             end in
    appendEvent t message 1 0 0 (v <| UpdatedAt := t |> <| CompletedAt := Some t |>)).

(** [settleCommitted]. *)
Definition settleCommitted (id workloadID message : string) : act_on unit :=
  stopped ← stopSourceWithRetry 3 workloadID (Ok tt);
  forceCompleteRecovered id message stopped.

(** The retried write of a stage. *)
Fixpoint persist_stage (n : nat) (id : string) (to : MigrationStage) (message : string) (at_ : float64)
    : act_on unit :=
  match n with
  | O => mret tt
  | S n =>
      r ← transition id to message at_;
      match r with
      | Ok _ => mret tt
      | Err _ => persist_stage n id to message at_
      end
  end.

(** Thawing the source: whether it runs again, and what went wrong. *)
Definition resume_source (workloadID : string) : act_on (bool * list string) :=
  found ← on_agent (get_workload workloadID);
  match found with
  | Err _ => mret (false, [])
  | Ok w =>
      if decide (Status w = WorkloadRunning) then mret (true, [])
      else match Process w with
           | None => mret (false, [])
           | Some _ =>
               r ← on_agent (Resume workloadID);
               mret (match r with
                     | Err err => (false, ["source resume: " +:+ err])
                     | Ok _ => (true, [])
                     end)
           end
  end.

(** How the undoing went. *)
Record undone := { settles : bool; rollbackErrors : list string; resumeErrors : list string }.

Definition loud_unconfirmed : string :=
  "destination rollback unconfirmed; source resumed because the destination holds no restored workload".
Definition loud_drained : string :=
  "source forwarding left drained while the workload is not running".

(** The part [handleFailure] and [handleCancellation] share: roll the
    destination back, thaw the source when that is safe, republish it, and
    record what went wrong. *)
Definition undo (id : string) (v : vars) (m : Migration) (detail : string) : act_on undone :=
  rolled ← rollbackDestination id (has_peer v) (reserved v);
  let '(confirmed, rollbackErrors) := rolled in
  holds ← (if negb confirmed && sourceFrozen v then destinationHoldsLiveCopy id (has_peer v)
           else mret true);
  let safeToThaw := confirmed || negb holds in
  resumed ← (if sourceFrozen v && safeToThaw then resume_source (WorkloadID m) else mret (false, []));
  let '(sourceResumed, resumeErrors) := resumed in
  running ← (if (sourceResumed : bool) then mret true else sourceWorkloadRunning (WorkloadID m));
  _ ← (if (running : bool) then restoreSourceNetwork m else mret tt);
  let notes : list string := (if negb confirmed && safeToThaw then [loud_unconfirmed] else []) ++
               (if (running : bool) then [] else [loud_drained]) in
  _ ← note id (λ _ r,
        r <| SourcePreserved := true |>
          <| FailureReason := FailureReason r +:+
               (match rollbackErrors with
                | [] => ""
                | _ => "; rollback incomplete: " +:+ String.concat "; " rollbackErrors
                end) +:+
               (match resumeErrors with
                | [] => ""
                | _ => "; " +:+ String.concat "; " resumeErrors
                end) +:+
               String.concat "" ((λ n, "; " +:+ n) <$> notes) |>);
  _ ← recordSourceOutcome id (WorkloadID m) (Network m) StatusFailed detail;
  mret {| settles := safeToThaw && bool_decide (resumeErrors = []);
          rollbackErrors := rollbackErrors; resumeErrors := resumeErrors |}.

(** The last switch of both: settle, settle loudly, or leave the record to
    recovery. *)
Definition settle (id : string) (u : undone) (to : MigrationStage) (message loud kept : string)
    : act_on unit :=
  if settles u && bool_decide (rollbackErrors u = []) then
    current ← get_record id;
    if match current with Some m => CanTransition (Stage m) to | None => false end then
      _ ← transition id to message 1; mret tt
    else forceSettle id to message
  else if settles u then forceSettle id to loud
  else event id kept.

(** The window a failed run reports. *)
Definition downtime_of (v : vars) (t : Z) : Z :=
  if downtimeStart v =? 0 then 0
  else (if workloadResumedAt v =? 0 then t else workloadResumedAt v) - downtimeStart v.

Definition set_downtime (d : Z) (r : Migration) : Migration :=
  r <| Metrics := (Metrics r) <| Downtime := d |> |>.

(** [handleFailure]. *)
Definition handleFailure (id : string) (v : vars) (code cause : string) (downtime : Z) : act_on unit :=
  found ← get_record id;
  match found with
  | None => mret tt
  | Some m =>
      if terminal (Stage m) then mret tt
      else
        _ ← note id (λ _ r, set_downtime downtime
              (if decide (FailureCode r = "") then
                 r <| FailureCode := code |> <| FailureReason := cause |>
               else r <| FailureReason := FailureReason r +:+ "; " +:+ code +:+ ": " +:+ cause |>));
        if committed v then
          settleCommitted id (WorkloadID m) "destination committed; settled after interruption"
        else
          preFailed ←
            (if decide (Stage m = MigrationRollingBack) then
               _ ← event id "resuming rollback after interruption"; mret false
             else if CanTransition (Stage m) MigrationRollingBack then
               _ ← persist_stage 3 id MigrationRollingBack
                     "rolling back destination and preserving source" (migrationProgress (Stage m));
               mret false
             else if CanTransition (Stage m) MigrationFailed then
               _ ← transition id MigrationFailed cause (migrationProgress (Stage m)); mret true
             else mret false);
          current ← get_record id;
          u ← undo id v (default m current) cause;
          if (preFailed : bool) then mret tt
          else settle id u MigrationRolledBack "migration rolled back; source workload preserved"
                 "source preserved; destination rollback was not confirmed"
                 "rollback or source resume incomplete; record kept non-terminal for recovery to re-attempt"
  end.

(** [handleCancellation]. *)
Definition handleCancellation (id : string) (v : vars) (cause : string) (downtime : Z) : act_on unit :=
  found ← get_record id;
  match found with
  | None => mret tt
  | Some m =>
      if terminal (Stage m) then mret tt
      else if committed v then
        _ ← note id (λ _ r, set_downtime downtime (r <| SourcePreserved := true |>));
        settleCommitted id (WorkloadID m) "destination committed before cancellation was processed"
      else
        _ ← note id (λ _ r, set_downtime downtime
              (r <| FailureCode := "MIGRATION_CANCELLED" |> <| FailureReason := cause |>
                 <| SourcePreserved := true |>));
        _ ← (if decide (Stage m = MigrationRollingBack) then
               event id "resuming cancellation rollback after interruption"
             else if CanTransition (Stage m) MigrationRollingBack then
               persist_stage 3 id MigrationRollingBack
                 "cancellation requested; preserving source workload" (migrationProgress (Stage m))
             else mret tt);
        current ← get_record id;
        u ← undo id v (default m current) ("migration cancelled: " +:+ cause);
        settle id u MigrationCancelled "migration cancelled; source workload preserved"
          "source preserved; destination rollback was not confirmed"
          "cancellation rollback or source resume incomplete; record kept non-terminal for recovery to re-attempt"
  end.

(** The [fail] of a run. *)
Definition fail (id : string) (v : vars) (code cause : string) : act_on unit :=
  asked ← observe (λ e _, (cancelled e, downtime_of v (now_at e)));
  let '(stopped, downtime) := asked in
  if (stopped : bool) then handleCancellation id v cause downtime
  else handleFailure id v code cause downtime.

(** ** Recovering *)

(** [recoverOne]. *)
Definition recoverOne (id : string) : act_on unit :=
  found ← get_record id;
  match found with
  | None => mret tt
  | Some m =>
      if terminal (Stage m) then mret tt
      else
        asked ← observe (λ e s, (freezes s !! id, now_at e));
        let '(fact, t) := asked in
        let frozen := recoveryOwnsFreeze m fact in
        let downtime := match fact with
                        | Some f => if DowntimeStart f =? 0 then 0 else t - DowntimeStart f
                        | None => 0
                        end in
        client ← observe (λ e _, ok (ker e));
        probed ← (if (client : bool) then
                    r ← on_peer (session_call (QGetCleanup id));
                    mret (match r with
                          | Ok s => Ok (Some (State s))
                          | Err err => if decide (err = errTransferNotFound) then Ok None else Err err
                          end)
                  else mret (Err "no destination client"));
        match probed with
        | Ok (Some SessionCommitted) =>
            stopped ← stopSourceWithRetry 3 (WorkloadID m) (Ok tt);
            forceCompleteRecovered id "destination was already committed before agent restart" stopped
        | _ =>
            let reserved := match probed with
                            | Ok (Some st) => negb (bool_decide (st ∈ [SessionRolledBack; SessionFailed]))
                            | Ok None => false
                            | Err _ => true
                            end in
            _ ← (if negb reserved then
                   event id "agent restarted before destination reservation; no destination state to roll back"
                 else if negb (is_ok probed) then
                   event id "agent restarted; destination state could not be probed and will be rolled back"
                 else mret tt);
            handleFailure id {| has_peer := client; reserved := reserved; committed := false;
                                downtimeStart := 0; workloadResumedAt := 0; sourceFrozen := frozen |}
              "AGENT_RESTARTED" "agent restarted during migration" downtime
        end
  end.

(** [Recover]: one thread for each record that is not settled. *)
Definition RecoverMigrations (s : world D) : list (act_on unit) :=
  recoverOne <$> (MID <$> filter (λ m, terminal (Stage m) = false) (listed_records (records s))).

(** ** Running *)

(** A step of a run goes on, or fails with what the run knows. *)
Inductive stepped (A : Type) :=
| Next (a : A)
| Failed (v : vars) (code cause : string).
Arguments Next {A} a.
Arguments Failed {A} v code cause.

Definition expect {A B} (v : vars) (code : string) (t : act_on (result A))
    (k : A → act_on (stepped B)) : act_on (stepped B) :=
  r ← t;
  match r with
  | Err cause => mret (Failed v code cause)
  | Ok a => k a
  end.

Local Notation "x ⇐ t 'or' code 'given' v ; k" := (expect v code t (λ x, k))
  (at level 20, t at level 100, code at level 100, v at level 100, k at level 200, only parsing).

Definition persist_failed : string := "STATE_PERSIST_FAILED".

(** The peer's machine id. *)
Definition peer_machine : act_on (result string) :=
  observe (λ e _, if reached (wire e) && heard (wire e) && negb (garbled (wire e)) then Ok (machine_of e)
                  else Err "destination unreachable").

Definition start_vars : vars :=
  {| has_peer := false; reserved := false; committed := false; downtimeStart := 0;
     workloadResumedAt := 0; sourceFrozen := false |}.

(** What a run carries out of its first stages. *)
Record plan_of_run := {
  runMigration : Migration;
  runWorkload : Workload;
  runTarget : string;
  runPlan : NetworkPlan;
  drainedAt : Z;
}.

(** Discovery: the workload, and the destination it may go to. *)
Definition discover (id : string) : act_on (stepped (vars * Migration * Workload * string)) :=
  let v := start_vars in
  _ ⇐ transition id MigrationDiscover "discovering source and destination capabilities" 0.03
    or persist_failed given v;
  m ⇐ (found ← get_record id;
       mret (match found with Some m => Ok m | None => Err "record not found" end))
    or "WORKLOAD_NOT_FOUND" given v;
  w ⇐ on_agent (get_workload (WorkloadID m)) or "WORKLOAD_NOT_FOUND" given v;
  _ ← noteFreezeOwnership id (SpecID (Spec w)) (bool_decide (Status w = WorkloadRunning));
  _ ⇐ on_agent (succeeds "no client") or "DESTINATION_CLIENT_FAILED" given v;
  let v := v <| has_peer := true |> in
  target ⇐ peer_machine or "DESTINATION_UNREACHABLE" given v;
  if decide (target = machine) then
    mret (Failed v "DESTINATION_IS_SOURCE" "source and destination resolve to the same machine identity")
  else if bool_decide (DestMachineID (DestinationOf m) ≠ "") &&
          bool_decide (DestMachineID (DestinationOf m) ≠ target) then
    mret (Failed v "DESTINATION_IDENTITY_MISMATCH"
            "destination certificate does not match the requested machine")
  else mret (Next (v, m, w, target)).

Definition set_target (target : string) (r : Migration) : Migration :=
  let d := DestinationOf r in
  r <| DestinationOf := {| DestMachineID := target; AgentURL := AgentURL d; ServerName := ServerName d;
                           Route := Route d; RelayEndpoint := RelayEndpoint d;
                           RelayTicket := RelayTicket d |} |>.

(** Validation: the compatibility report and the network plan, the drain,
    and the move to the snapshot. *)
Definition validate_run (id : string) (v : vars) (m : Migration) (w : Workload) (target : string)
    : act_on (stepped (vars * plan_of_run)) :=
  _ ← note id (λ _, set_target target);
  _ ⇐ transition id MigrationValidate "validating destination compatibility" 0.08
    or persist_failed given v;
  _ ⇐ on_agent (succeeds "inspect machine") or "SOURCE_INVENTORY_FAILED" given v;
  checked ← observe (λ e _, report e);
  _ ⇐ update id (λ _ r, Ok (r <| Compatibility := checked |>)) or persist_failed given v;
  if negb (Compatible checked) then
    mret (Failed v "DESTINATION_INCOMPATIBLE" (compatibilityFailure checked))
  else
    plan ⇐ mret (PlanFor digest32 (Spec w)) or "NETWORK_PLAN_INVALID" given v;
    _ ⇐ update id (λ t r, Ok (appendEvent t ("network plan: " +:+ PlanSummary plan) 0.10 0 0
                                (r <| Network := plan |>)))
      or persist_failed given v;
    drained ← drainSourceForwarders id (SpecID (Spec w)) plan;
    _ ← noteDowntimeStart id drained;
    let v := v <| downtimeStart := drained |> in
    _ ⇐ transition id MigrationSnapshot
          (if decide (Mode m = MigrationLive) then
             if decide (Status w = WorkloadRunning) then
               "running pre-copy passes while the workload keeps running"
             else "workload is already paused; creating the final checkpoint directly"
           else "freezing source and creating checkpoint") 0.12
      or persist_failed given v;
    mret (Next (v, {| runMigration := m; runWorkload := w; runTarget := target; runPlan := plan;
                      drainedAt := drained |})).

(** The chunk uploads of one asset or round.  [upload_one] is one attempt of
    a worker; what the worker does next. *)
Definition upload_one (id : string) (ref : ChunkRef) (more : nat) : act_on work :=
  r ← on_peer (UploadChunk id ref);
  match r with
  | Ok _ => mret (Posting (Ok tt))
  | Err err =>
      stop ← observe (λ e _, expired (wire e));
      mret (match more with
            | S more => if (stop : bool) then Posting (Err err) else Trying more
            | O => Posting (Err err)
            end)
  end.

(** The loop that reads the results, with the goroutines beside it.  Each
    turn uses up at least one unit of the work that is left, of which a chunk
    brings eight, so that [n] is never used up. *)
Fixpoint drain_pool (n : nat) (id : string) (p : pool) (len : nat) (total : Z) (base span : float64)
    (message : string) : act_on (Z * result unit) :=
  match n with
  | O => mret (transferred p, Err "out of turns")
  | S n =>
      asked ← observe (λ e _, next_move (turn e) (gives_up e && expired (wire e)) p);
      match asked with
      | Upload i ref more =>
          w ← upload_one id ref more;
          drain_pool n id (p <| busy := <[i := (ref, w)]> (busy p) |>) len total base span message
      | Become p => drain_pool n id p len total base span message
      | Handle _ (Err err) => mret (transferred p, Err err)
      | Handle (ref, rest) (Ok _) =>
          let moved := int64 (transferred p + StoredSize ref) in
          let completed := S (uploaded p) in
          _ ← (if (completed =? len)%nat || (completed mod 8 =? 0)%nat then
                 progress id message (base + span * of_Z moved / of_Z (Z.max total 1))%F moved total
               else mret tt);
          drain_pool n id (p <| posted := rest |> <| uploaded := completed |> <| transferred := moved |>)
            len total base span message
      | AllEnded =>
          stop ← observe (λ e _, expired (wire e));
          mret (transferred p,
                if (stop : bool) then Err errContext
                else if (uploaded p =? len)%nat then Ok tt
                else Err "chunk transfer stopped before all chunks completed")
      end
  end.

(** [uploadChunks]. *)
Definition uploadChunks (id : string) (refs : list ChunkRef) (base span : float64) (message : string)
    : act_on (Z * result unit) :=
  match refs with
  | [] => mret (0, Ok tt)
  | _ => drain_pool (8 * length refs + 1) id (new_pool refs) (length refs)
           (int64 (stored_bytes refs)) base span message
  end.

(** [noteReservation]. *)
Definition noteReservation (id message : string) (expiresAt : Z) : act_on unit :=
  note id (λ t, appendEvent t (if expiresAt =? 0 then message
                               else message +:+ "; transfer reservation expires " +:+ Itoa expiresAt)
                  0.28 0 0).

(** [peer.Reserve] and [peer.ImportKey]. *)
Definition reserve_peer (id workloadID : string) (estimated timeout : Z) : act_on (result Session) :=
  t ← now;
  on_peer (session_call (QReserve (Some {|
    RequestID := id; RequestSource := machine; RequestWorkload := workloadID;
    RequestEstimate := estimated; RequestExpiresAt := reservationExpiry t timeout;
    RequestPurpose := "" |}))).

Definition send_key (id workloadID : string) (version : Z) (key : string) : act_on (result Session) :=
  on_peer (session_call (QKey id (Some {| KeyWorkload := workloadID; KeyRequestVersion := version;
                                          KeyBytes := Some key |}))).

(** [keys.ExportWorkloadKey]. *)
Definition export_key : act_on (result string) :=
  observe (λ e _, if ok (ker e) then Ok (text (ker e)) else Err "export workload key").

(** A step while a live session is open: a failure returns the session, for
    the deferred [Abort]. *)
Definition expect_open {A B} (v : vars) (l : LiveSession) (code : string) (t : act_on (result A))
    (k : A → act_on (LiveSession * stepped B)) : act_on (LiveSession * stepped B) :=
  r ← t;
  match r with
  | Err cause => mret (l, Failed v code cause)
  | Ok a => k a
  end.

Local Notation "x ⇐ t 'or' code 'given' v 'during' l ; k" := (expect_open v l code t (λ x, k))
  (at level 20, t at level 100, code at level 100, v at level 100, l at level 100, k at level 200,
   only parsing).

Definition set_transferred (preCopy transferred : Z) (r : Migration) : Migration :=
  r <| Metrics := (Metrics r) <| PreCopyTransferredBytes := preCopy |>
                              <| TransferredBytes := preCopy + transferred |> |>.

(** The loop over the passes.  [Pass] refuses once the cap of at most 16 is
    reached, which is also what running out of [n] says. *)
Fixpoint transfer_passes (n : nat) (id : string) (v : vars) (l : LiveSession) (current : PreCopyPass)
    (moved : Z) : act_on (LiveSession * stepped Z) :=
  match n with
  | O => mret (l, Failed v "CHECKPOINT_FAILED" "pre-copy pass cap reached")
  | S n =>
      sent ← uploadChunks id (Chunks (PassAsset current))
               (0.12 + 0.16 * of_Z (PassIndex current - 1) / of_Z (passLimit l))%F
               (0.16 / of_Z (passLimit l))%F
               ("transferring pre-copy pass " +:+ Itoa (PassIndex current) +:+
                " while the workload keeps running");
      match sent with
      | (_, Err err) => mret (l, Failed v "CHUNK_TRANSFER_FAILED" err)
      | (bytes, Ok _) =>
          let moved := moved + bytes in
          _ ← note id (λ _, set_transferred moved 0);
          if negb (More current) then mret (l, Next moved)
          else
            passed ← on_agent (Pass stateDir l);
            match passed with
            | (l, Err err) => mret (l, Failed v "CHECKPOINT_FAILED" err)
            | (l, Ok next) => transfer_passes n id v l next moved
            end
      end
  end.

(** The passes that are transferred while the workload runs. *)
Definition precopy (id : string) (timeout : Z) (v : vars) (w : Workload) (l : LiveSession)
    : act_on (LiveSession * stepped (vars * Z)) :=
  first ← on_agent (Pass stateDir l);
  match first with
  | (l, Err err) => mret (l, Failed v "CHECKPOINT_FAILED" err)
  | (l, Ok pass) =>
      estimated ← observe (λ e _, EstimateLiveTransferBytes (num (ker e))
                                    (AssetStoredSize (PassAsset pass)) (passLimit l));
      session ⇐ reserve_peer id (SpecID (Spec w)) estimated timeout
        or "DESTINATION_RESERVATION_FAILED" given v during l;
      let v := v <| reserved := true |> in
      key ⇐ export_key or "KEY_EXPORT_FAILED" given v during l;
      _ ⇐ send_key id (SpecID (Spec w)) (sessionKey l) key or "KEY_TRANSFER_FAILED" given v during l;
      _ ← noteReservation id
            "destination session reserved; pre-copy transfers begin while the workload keeps running"
            (ExpiresAt session);
      out ← transfer_passes (Z.to_nat (passLimit l)) id v l pass 0;
      match out with
      | (l, Failed v code cause) => mret (l, Failed v code cause)
      | (l, Next moved) =>
          _ ← progress id "freezing the workload for the final delta checkpoint" 0.28 0 0;
          mret (l, Next (v, moved))
      end
  end.

(** A bound on the downtime that nothing earlier gave. *)
Definition bound_downtime (id : string) (v : vars) : act_on vars :=
  if negb (downtimeStart v =? 0) then mret v
  else t ← now; _ ← noteDowntimeStart id t; mret (v <| downtimeStart := t |>).

Definition preserves_tcp (w : Workload) : bool := bool_decide (NetworkPolicy (Spec w) = NetworkPreserve).

(** The frozen window of a live run: the checkpoint, or the failure with the
    freeze it caused. *)
Definition finalize_run (id : string) (v : vars) (r : plan_of_run) (l : LiveSession)
    : act_on (stepped (vars * CheckpointManifest)) :=
  v ← bound_downtime id v;
  out ← on_agent (Finalize stateDir machine mirrored l);
  let '(l, made) := out in
  match made with
  | Created m => mret (Next (v, m))
  | Persisted _ err | NotCreated err =>
      if freezeStartedAt l =? 0 then mret (Failed v "CHECKPOINT_FAILED" err)
      else
        let v := v <| sourceFrozen := runs (runWorkload r) |> in
        if drainedAt r =? 0 then
          _ ← noteDowntimeStart id (freezeStartedAt l);
          mret (Failed (v <| downtimeStart := freezeStartedAt l |>) "CHECKPOINT_FAILED" err)
        else mret (Failed v "CHECKPOINT_FAILED" err)
  end.

(** The checkpoint of a live run, and the session that is still open when it
    fails. *)
Definition checkpoint_live (id : string) (timeout : Z) (v : vars) (r : plan_of_run)
    : act_on (option LiveSession * stepped (vars * CheckpointManifest * Z)) :=
  let w := runWorkload r in
  began ← on_agent (BeginLive stateDir (SpecID (Spec w))
            {| LivePasses := PreCopyPasses (runMigration r); LiveConvergence := 0;
               LiveLeaveRunning := false; LiveTCPState := preserves_tcp w |});
  match began with
  | Err err => mret (None, Failed v "CHECKPOINT_FAILED" err)
  | Ok l =>
      v ← (if CanPass l then mret v else bound_downtime id v);
      copied ← (if CanPass l then precopy id timeout v w l else mret (l, Next (v, 0)));
      match copied with
      | (l, Failed v code cause) => mret (Some l, Failed v code cause)
      | (l, Next (v, moved)) =>
          out ← finalize_run id v r l;
          mret (None, match out with
                      | Failed v code cause => Failed v code cause
                      | Next (v, m) => Next (v, m, moved)
                      end)
      end
  end.

(** The checkpoint of a cold run. *)
Definition checkpoint_cold (id : string) (v : vars) (r : plan_of_run)
    : act_on (stepped (vars * CheckpointManifest * Z)) :=
  v ← bound_downtime id v;
  let v := v <| sourceFrozen := runs (runWorkload r) |> in
  made ← on_agent (CreateCheckpoint stateDir machine mirrored (SpecID (Spec (runWorkload r)))
           {| OptionKind := "full"; OptionParentID := ""; OptionLeaveRunning := false;
              OptionTCPState := preserves_tcp (runWorkload r) |});
  mret (match made with
        | Created m => Next (v, m, 0)
        | Persisted _ err | NotCreated err => Failed v "CHECKPOINT_FAILED" err
        end).

(** Opening the destination session against the finished checkpoint, when
    the passes did not. *)
Definition prepare_destination (id : string) (timeout : Z) (v : vars) (w : Workload)
    (m : CheckpointManifest) : act_on (stepped vars) :=
  if reserved v then mret (Next v)
  else
    _ ⇐ transition id MigrationPrepare "reserving destination and establishing workload key" 0.28
      or persist_failed given v;
    session ⇐ reserve_peer id (SpecID (Spec w)) (StoredBytes (ManifestMetrics m)) timeout
      or "DESTINATION_RESERVATION_FAILED" given v;
    let v := v <| reserved := true |> in
    _ ← noteReservation id "destination session reserved against the finished checkpoint"
          (ExpiresAt session);
    key ⇐ export_key or "KEY_EXPORT_FAILED" given v;
    _ ⇐ send_key id (SpecID (Spec w)) (SecurityKeyVersion (Security m)) key
      or "KEY_TRANSFER_FAILED" given v;
    mret (Next v).

(** The loop of the frozen-window transfer: the bytes moved, the bytes that
    were already there, and the failure of the last round with whether the
    manifest was refused. *)
Fixpoint transfer_rounds (n : nat) (first : bool) (id : string) (m : CheckpointManifest)
    (preCopy moved deduplicated : Z) (last : option (string * bool))
    : act_on (Z * Z * option (string * bool)) :=
  match n with
  | O => mret (moved, deduplicated, last)
  | S n =>
      stop ← (if first then mret false else observe (λ e _, expired (wire e)));
      if (stop : bool) then
        mret (moved, deduplicated, Some (errContext, match last with Some (_, b) => b | None => false end))
      else
        r ← on_peer (ImportManifest id m);
        match r with
        | Err err => transfer_rounds n false id m preCopy moved deduplicated (Some (err, true))
        | Ok (missing, dedup) =>
            sent ← uploadChunks id missing 0.32 0.38 "transferring encrypted checkpoint chunks";
            let moved := moved + sent.1 in
            _ ← note id (λ _, set_transferred preCopy moved);
            match sent.2 with
            | Ok _ => mret (moved, dedup, None)
            | Err err => transfer_rounds n false id m preCopy moved dedup (Some (err, false))
            end
        end
  end.

(** From the checkpoint to the verified transfer. *)
Definition transfer_state (id : string) (timeout : Z) (v : vars) (r : plan_of_run)
    (m : CheckpointManifest) (preCopy : Z) : act_on (stepped vars) :=
  let frozenAt := FreezeStartedAt (ManifestMetrics m) in
  v ← (if frozenAt =? 0 then mret v
       else
         let v := v <| sourceFrozen := runs (runWorkload r) |> in
         if drainedAt r =? 0 then
           _ ← noteDowntimeStart id frozenAt; mret (v <| downtimeStart := frozenAt |>)
         else mret v);
  _ ⇐ update id (λ _ r, Ok (r <| CheckpointID := ManifestID m |>
        <| Metrics := (Metrics r) <| TotalStateBytes := PlainBytes (ManifestMetrics m) |>
                                  <| CheckpointDuration := MetricsDuration (ManifestMetrics m) |> |>))
    or persist_failed given v;
  prepared ← prepare_destination id timeout v (runWorkload r) m;
  match prepared with
  | Failed v code cause => mret (Failed v code cause)
  | Next v =>
      _ ⇐ transition id MigrationTransfer "negotiating missing chunks" 0.32
        or persist_failed given v;
      started ← now;
      out ← transfer_rounds 3 true id m preCopy 0 0 None;
      ended ← now;
      match out with
      | (_, _, Some (err, manifestFailed)) =>
          mret (Failed v (if (manifestFailed : bool) then "MANIFEST_TRANSFER_FAILED"
                          else "CHUNK_TRANSFER_FAILED") err)
      | (moved, deduplicated, None) =>
          let took := ended - started in
          _ ⇐ update id (λ _ r, Ok (set_transferred preCopy moved
                (r <| Metrics := (Metrics r) <| DeduplicatedBytes := deduplicated |>
                                             <| TransferDuration := took |>
                                             <| TransferBytesPerSec :=
                                                  if 0 <? took then
                                                    (of_Z moved / Seconds took)%F
                                                  else TransferBytesPerSec (Metrics r) |> |>)))
            or persist_failed given v;
          _ ⇐ transition id MigrationVerify "verifying destination checkpoint integrity" 0.72
            or persist_failed given v;
          _ ⇐ on_peer (session_call (QVerify id)) or "DESTINATION_VERIFY_FAILED" given v;
          mret (Next v)
      end
  end.

(** The restore on the destination, its validation and its commit. *)
Definition switch_over (id : string) (timeout : Z) (v : vars) : act_on (stepped vars) :=
  _ ⇐ transition id MigrationRestore "restoring workload on destination" 0.80
    or persist_failed given v;
  started ← now;
  _ ⇐ on_peer (RestorePeer id (timeout /' 3)) or "DESTINATION_RESTORE_FAILED" given v;
  resumed ← now;
  let v := v <| workloadResumedAt := resumed |> in
  _ ← note id (λ _ r, set_downtime (resumed - downtimeStart v)
                        (r <| Metrics := (Metrics r) <| RestoreDuration := resumed - started |> |>));
  _ ⇐ transition id MigrationPostValidate "destination process passed health validation" 0.90
    or persist_failed given v;
  session ⇐ on_peer (session_call (QGet id)) or "DESTINATION_VALIDATION_FAILED" given v;
  if negb (bool_decide (State session = SessionRestored)) then
    mret (Failed v "DESTINATION_VALIDATION_FAILED" "destination reported another state than RESTORED")
  else
    _ ⇐ transition id MigrationSwitch
          "destination is authoritative; source remains preserved and stopped" 0.94
      or persist_failed given v;
    _ ⇐ transition id MigrationCommit "committing destination restore" 0.97
      or persist_failed given v;
    _ ⇐ on_peer (session_call (QCommit id)) or "DESTINATION_COMMIT_FAILED" given v;
    mret (Next (v <| committed := true |>)).

(** Removing the source of a committed migration. *)
Definition clean_up (id : string) (r : plan_of_run) : act_on unit :=
  let workloadID := SpecID (Spec (runWorkload r)) in
  _ ← transition id MigrationCleanup "removing the preserved source process" 0.99;
  _ ← recordSourceOutcome id workloadID (runPlan r) StatusCompleted ("workload migrated to " +:+ runTarget r);
  stopped ← stopSourceWithRetry 3 workloadID (Ok tt);
  booked ← update id (λ t v, Ok
    (match stopped with
     | Ok _ => v <| SourcePreserved := false |>
     | Err err => appendEvent t "destination committed; source cleanup requires operator attention" 1 0 0
                    (v <| SourcePreserved := true |> <| FailureCode := "SOURCE_CLEANUP_FAILED" |>
                       <| FailureReason := err |>)
     end));
  match booked with
  | Err _ => forceCompleteRecovered id "destination committed; final bookkeeping settled best-effort" stopped
  | Ok _ =>
      completed ← transition id MigrationCompleted
        (if is_ok stopped then "migration completed"
         else "destination committed; source remains preserved because cleanup failed") 1;
      match completed with
      | Err _ =>
          forceCompleteRecovered id "destination committed; completion transition settled best-effort" stopped
      | Ok _ => mret tt
      end
  end.

(** A run from its checkpoint on. *)
Definition run_stages (id : string) (timeout : Z) (v : vars) (r : plan_of_run)
    : act_on (option LiveSession * stepped vars) :=
  made ← (if decide (Mode (runMigration r) = MigrationLive) then checkpoint_live id timeout v r
          else out ← checkpoint_cold id v r; mret (None, out));
  match made with
  | (open, Failed v code cause) => mret (open, Failed v code cause)
  | (_, Next (v, m, preCopy)) =>
      moved ← transfer_state id timeout v r m preCopy;
      match moved with
      | Failed v code cause => mret (None, Failed v code cause)
      | Next v => out ← switch_over id timeout v; mret (None, out)
      end
  end.

(** [run]. *)
Definition run_migration (id : string) (timeout : Z) : act_on unit :=
  let timeout := run_timeout timeout in
  found ← discover id;
  match found with
  | Failed v code cause => fail id v code cause
  | Next (v, m, w, target) =>
      validated ← validate_run id v m w target;
      match validated with
      | Failed v code cause => fail id v code cause
      | Next (v, r) =>
          out ← run_stages id timeout v r;
          match out with
          | (_, Next _) => clean_up id r
          | (None, Failed v code cause) => fail id v code cause
          | (Some l, Failed v code cause) =>
              _ ← fail id v code cause; _ ← on_agent (Abort stateDir l); mret tt
          end
      end
  end.
End orchestrator.
Arguments Next {A} a.
Arguments Failed {A} v code cause.
