(* ===== verification/Upload.v ===== *)
(** * The worker pool of a transfer

    What [uploadChunks] of the orchestrator promises under every order in
    which its feeder, its four workers and the reader of their results act:
    it returns, it counts exactly chunks the destination acknowledged, each
    at most once, and reports success only when it counted them all.  With a
    destination that acknowledges every chunk it does succeed. *)
From S2P Require Import Prelude Float64 GoStr Model Workload Prog Conc Network Session SessionLife Host Runtime Restorer Checkpoint Peer Migration.

Local Open Scope string_scope.
Local Open Scope list_scope.
Local Open Scope Z_scope.

(** ** Counting *)

(** The turns a pool can still take. *)
Definition load (w : work) : nat :=
  match w with Trying more => more + 3 | Posting _ => 2 end.
Definition pool_measure (p : pool) : nat :=
  8 * length (queued p) + sum_list_with (load ∘ snd) (busy p) + length (posted p).

Lemma sum_list_with_delete {A} (f : A → nat) (l : list A) i x :
  l !! i = Some x → sum_list_with f l = (f x + sum_list_with f (delete i l))%nat.
Proof.
  revert i. induction l as [|y l IH]; intros [|i] H; simplify_eq/=; [done|]. rewrite (IH i H). lia.
Qed.

Lemma sum_list_with_insert {A} (f : A → nat) (l : list A) i x y :
  l !! i = Some x → (sum_list_with f (<[i := y]> l) + f x = sum_list_with f l + f y)%nat.
Proof.
  revert i. induction l as [|z l IH]; intros [|i] H; simplify_eq/=; [lia|]. specialize (IH i H). lia.
Qed.

Lemma uploadChunks_pool {D DE : Type} `{!Peer D DE} id refs base span message :
  refs ≠ [] → uploadChunks (D := D) (DE := DE) id refs base span message =
    drain_pool (8 * length refs + 1) id (new_pool refs) (length refs) (int64 (stored_bytes refs))
      base span message.
Proof. by destruct refs. Qed.

Section upload.
Context {D DE : Type} `{HP : !Peer D DE}.
Context (id : string).

Definition chunk_request (ref : ChunkRef) : request :=
  QChunk id {| ChunkVersion := Some (KeyVersion ref); ChunkAddress := Address ref;
               ChunkHeader := Some ref |}.

(** What the destination keeps of an acknowledged chunk. *)
Context (landed : ChunkRef → D → Prop).
Context (landed_stays : ∀ e ref' ref d, landed ref d → landed ref (answers e (chunk_request ref') d).1).
Context (acknowledged : ∀ e ref d status b,
  (answers e (chunk_request ref) d).2 = Reply status b → landed ref (answers e (chunk_request ref) d).1).

(** [smooth]: the destination takes every chunk and nothing gets lost. *)
Context (smooth : bool) (refs : list ChunkRef).
Context (takes : smooth = true → ∀ e ref d, ref ∈ refs →
  ∃ status b, (answers e (chunk_request ref) d).2 = Reply status b).

Definition clear (e : link DE) : Prop :=
  reached e = true ∧ heard e = true ∧ garbled e = false ∧ expired e = false.
Definition weather (e : moment DE) : Prop := smooth = true → clear (wire e).

(** ** The invariant *)

Definition out_of_turns : string := "out of turns".

Definition posted_ok (d : D) (x : ChunkRef * result unit) : Prop :=
  match x.2 with
  | Ok _ => landed x.1 d
  | Err err => smooth = false ∧ err ≠ out_of_turns
  end.
Definition busy_ok (d : D) (x : ChunkRef * work) : Prop :=
  match x.2 with
  | Trying _ => True
  | Posting r => posted_ok d (x.1, r)
  end.

(** Every chunk is counted, given up, queued, being uploaded or posted. *)
Record pool_ok (p : pool) (d : D) := {
  chunk_places : ∃ counted dropped,
    counted ++ dropped ++ queued p ++ (busy p).*1 ++ (posted p).*1 ≡ₚ refs ∧
    transferred p = int64 (stored_bytes counted) ∧ uploaded p = length counted ∧
    Forall (λ ref, landed ref d) counted ∧
    (smooth = true → dropped = [] ∧ (waiting p + length (busy p) = width p)%nat ∧ (0 < width p)%nat);
  all_busy_ok : Forall (busy_ok d) (busy p);
  all_posted_ok : Forall (posted_ok d) (posted p);
}.

(** What the next turn may be. *)
Definition sound_move (p : pool) (d : D) (m : move) : Prop :=
  match m with
  | Upload i ref more => busy p !! i = Some (ref, Trying more)
  | Handle (ref, rest) r => posted p = (ref, r) :: rest
  | Become p' => pool_ok p' d ∧ (pool_measure p' < pool_measure p)%nat
  | AllEnded => smooth = true → queued p = [] ∧ busy p = [] ∧ posted p = []
  end.

Lemma feed_sound leave p d m :
  (smooth = true → leave = false) → pool_ok p d → feed leave p = Some m → sound_move p d m.
Proof.
  intros Hl [(counted & dropped & Hperm & Ht & Hu & Hc & Hs) Hb Hp]. unfold feed.
  destruct (queued p) as [|ref rest] eqn:Hq; [done|]. destruct leave.
  - intros [= <-]. cbn. split; [|unfold pool_measure; cbn; rewrite Hq; cbn; lia].
    split; [|done|done]. exists counted, (dropped ++ ref :: rest). cbn.
    split_and!; [|done|done|done|by intros H%Hl]. rewrite <- Hperm. by rewrite <- !app_assoc.
  - destruct (waiting p) as [|n] eqn:Hw; [done|]. intros [= <-]. cbn. split.
    + split; cbn; [|apply Forall_app; split; [done|by repeat constructor]|done]. exists counted, dropped. cbn.
      split_and!; try done.
      * rewrite <- Hperm, fmap_app. cbn. solve_Permutation.
      * intros H. destruct (Hs H) as (? & ? & ?). rewrite length_app. cbn. split_and!; [done|lia|done].
    + unfold pool_measure. cbn. rewrite Hq, sum_list_with_app. cbn. lia.
Qed.

Lemma work_sound i leave p d m :
  (smooth = true → leave = false) → pool_ok p d → work_on i leave p = Some m → sound_move p d m.
Proof.
  intros Hl [(counted & dropped & Hperm & Ht & Hu & Hc & Hs) Hb Hp]. unfold work_on.
  destruct (busy p !! i) as [[ref [more|r]]|] eqn:Hi; [by intros [= <-]| |done].
  pose proof (delete_Permutation _ _ _ Hi) as Hd.
  pose proof (sum_list_with_delete (load ∘ snd) _ _ _ Hi) as Hm. cbn in Hm.
  pose proof (Forall_lookup_1 _ _ _ _ Hb Hi) as Hr. rewrite Hd in Hb, Hperm.
  apply Forall_cons in Hb as [_ Hb]. cbn in Hperm.
  assert (length (busy p) = S (length (delete i (busy p)))) as Hlen
    by by apply Permutation_length in Hd.
  destruct leave; [|destruct (length (posted p) <? width p)%nat; [|done]]; intros [= <-]; cbn.
  - split; [|unfold pool_measure; cbn; lia]. split; [|done|done]. exists counted, (ref :: dropped). cbn.
    split_and!; [|done|done|done|by intros H%Hl]. rewrite <- Hperm. solve_Permutation.
  - split; [|unfold pool_measure; cbn; rewrite length_app; cbn; lia].
    split; cbn; [|done|apply Forall_app; split; [done|by repeat constructor]].
    exists counted, dropped. cbn. split_and!; try done.
    + rewrite <- Hperm, fmap_app. cbn. solve_Permutation.
    + intros H. destruct (Hs H) as (? & ? & ?). split_and!; [done| |done].
      destruct r as [[]|err]; cbn in *; [lia|]. destruct Hr as [Hr _]. by rewrite H in Hr.
Qed.

Lemma next_move_sound turn leave p d :
  (smooth = true → leave = false) → pool_ok p d → sound_move p d (next_move turn leave p).
Proof.
  intros Hl Hp. unfold next_move.
  assert (∀ m, read_result p = Some m → sound_move p d m) as Hread.
  { intros m. unfold read_result. destruct (posted p) as [|[ref r] rest] eqn:E; [done|]. by intros [= <-]. }
  pose proof (feed_sound leave p d) as Hfeed. pose proof (λ i, work_sound i leave p d) as Hwork.
  assert (∀ o : option move, (∀ m, o = Some m → sound_move p d m) → ∀ other, sound_move p d other →
            sound_move p d (match o with Some m => m | None => other end)) as Hor by (intros []; auto).
  apply Hor; [destruct turn as [|[|i]]; eauto|].
  destruct (read_result p) eqn:Hr; [by eauto|]. destruct (feed leave p) eqn:Hf; [by eauto|].
  destruct (work_on 0 leave p) eqn:Hw; [by eauto|]. cbn. intros H. specialize (Hl H) as ->.
  destruct Hp as [(counted & dropped & _ & _ & _ & _ & Hs) _ _]. destruct (Hs H) as (_ & Hcount & Hwidth).
  unfold read_result in Hr. destruct (posted p) as [|[]] eqn:Hp; [|done].
  unfold work_on in Hw. destruct (busy p) as [|[ref [more|r]] rest] eqn:Hb; simpl in Hw; [|done|].
  - unfold feed in Hf. destruct (queued p); [done|]. destruct (waiting p); [cbn in *; lia|done].
  - rewrite Hp in Hw. destruct (width p); [lia|done].
Qed.

(** ** The loop *)

(** An exchange moves everything but the chunk itself forward. *)
Lemma posted_stays e ref d x : posted_ok d x → posted_ok (answers e (chunk_request ref) d).1 x.
Proof. unfold posted_ok. destruct x.2; [apply landed_stays|done]. Qed.

Lemma pool_stays e ref p d : pool_ok p d → pool_ok p (answers e (chunk_request ref) d).1.
Proof.
  intros [(counted & dropped & ? & ? & ? & Hc & ?) Hb Hp]. split.
  - exists counted, dropped. split_and!; try done. eapply Forall_impl; [done|]. intros ? ?. by apply landed_stays.
  - eapply Forall_impl; [done|]. intros [? []]; unfold busy_ok; cbn; [done|]. apply posted_stays.
  - eapply Forall_impl; [done|]. intros ?. apply posted_stays.
Qed.

(** One attempt: the pool stays sound, and what the worker does next is. *)
Lemma upload_one_sound p ref more : ref ∈ refs →
  triple weather (λ s, pool_ok p (destination s)) (alone (upload_one id ref more))
    (λ w s, pool_ok p (destination s) ∧ busy_ok (destination s) (ref, w) ∧
            (load w < load (Trying more))%nat) (λ _, True).
Proof.
  intros Href. unfold upload_one.
  apply (alone_bind _ _ _ _ (λ r s, pool_ok p (destination s) ∧ posted_ok (destination s) (ref, r))).
  - eapply triple_conseq;
      [eapply (zoom_triple _ _ _ weather (λ e, smooth = true → clear e) (λ _, True)
                 (UploadChunk id ref) (pool_ok p) (λ r d, pool_ok p d ∧ posted_ok d (ref, r)) (λ _, True))
      | | |]; [exact (λ e H, H)|done|done| |done|by intros r s [_ H]|done].
    unfold UploadChunk. fold (chunk_request ref).
    apply (alone_bind _ _ _ _ (λ h d, pool_ok p d ∧ (smooth = true → ∃ status b, h = Heard (Reply status b)) ∧
      (∀ status b, h = Heard (Reply status b) → landed ref d))).
    + apply alone_atomic; [done|]. intros e d He Hp. destruct (reached e) eqn:Hreached.
      2:{ cbn. split_and!; [done| |done]. intros H. destruct (He H) as (? & _). congruence. }
      pose proof (pool_stays (remote e) ref p d Hp) as Hp'.
      pose proof (acknowledged (remote e) ref d) as Hack. pose proof (λ H, takes H (remote e) ref d Href) as Htake.
      destruct (answers (remote e) (chunk_request ref) d) as [d' r]. cbn in *. split_and!; [done| |].
      * intros H. destruct (Htake H) as (status & b & ->). destruct (He H) as (_ & Hh & Hg & _).
        unfold hear. rewrite Hh, Hg. by exists status, b.
      * intros status b. unfold hear. destruct (heard e), r; cbn; try done. destruct (garbled e); [done|].
        intros [= -> ->]. by apply (Hack status b).
    + intros h. apply alone_ret. intros d (Hp & Hsm & Hl). split; [done|].
      unfold posted_ok. cbn. destruct h as [| |[status b|status code]]; cbn.
      3: by eapply Hl.
      all: destruct smooth; [by destruct (Hsm eq_refl) as (? & ? & ?)|split; [done|]]; try done.
      unfold decodeRemoteError. by destruct (status =? 404).
  - intros [[]|err].
    + apply alone_ret. intros s [Hp Hr]. split_and!; [done|done|cbn; lia].
    + apply (alone_bind _ _ _ _ (λ (_ : bool) s, pool_ok p (destination s) ∧ posted_ok (destination s) (ref, Err err))).
      * by apply alone_atomic.
      * intros stop. apply alone_ret. intros s [Hp Hr]. destruct more as [|more]; [split_and!; [done|done|cbn; lia]|].
        destruct stop; (split_and!; [done|done|cbn; lia]).
Qed.

(** A result that is counted. *)
Lemma count_sound p d ref rest :
  pool_ok p d → posted p = (ref, Ok tt) :: rest →
  pool_ok (p <| posted := rest |> <| uploaded := S (uploaded p) |>
             <| transferred := int64 (transferred p + StoredSize ref) |>) d.
Proof.
  intros [(counted & dropped & Hperm & Ht & Hu & Hc & Hs) Hb Hp] Hpost. rewrite Hpost in Hperm, Hp.
  apply Forall_cons in Hp as [Href Hp]. split; cbn; [|done|done]. exists (ref :: counted), dropped. cbn.
  split_and!; [|by rewrite Ht, int64_add, Z.add_comm|by rewrite Hu|by constructor|exact Hs].
  rewrite <- Hperm. cbn. solve_Permutation.
Qed.

(** What an attempt leaves the worker with. *)
Lemma attempt_sound p d i ref more w :
  pool_ok p d → busy p !! i = Some (ref, Trying more) → busy_ok d (ref, w) →
  (load w < load (Trying more))%nat →
  pool_ok (p <| busy := <[i := (ref, w)]> (busy p) |>) d ∧
  (pool_measure (p <| busy := <[i := (ref, w)]> (busy p) |>) < pool_measure p)%nat.
Proof.
  intros [(counted & dropped & Hperm & Ht & Hu & Hc & Hs) Hb Hp] Hi Hw Hload. split.
  - split; cbn; [|by apply Forall_insert|done]. exists counted, dropped. cbn.
    rewrite list_fmap_insert, length_insert. cbn. rewrite (list_insert_id (busy p).*1 i ref); [done|].
    by rewrite list_lookup_fmap, Hi.
  - pose proof (sum_list_with_insert (load ∘ snd) _ _ _ (ref, w) Hi) as Hm. unfold pool_measure. cbn in *. lia.
Qed.

(** The chunks a sound pool is at work on are chunks of the transfer. *)
Lemma busy_elem p d i ref w : pool_ok p d → busy p !! i = Some (ref, w) → ref ∈ refs.
Proof.
  intros [(counted & dropped & Hperm & _) _ _] Hi. rewrite <- Hperm. rewrite !elem_of_app. do 3 right. left.
  apply list_elem_of_lookup_2 with i. by rewrite list_lookup_fmap, Hi.
Qed.

(** What the pool has to show when it ends. *)
Definition accounted (x : Z * result unit) (s : world D) : Prop :=
  (∃ sent, sent ⊆+ refs ∧ x.1 = int64 (stored_bytes sent) ∧
           Forall (λ ref, landed ref (destination s)) sent ∧ (x.2 = Ok tt → sent ≡ₚ refs)) ∧
  x.2 ≠ Err out_of_turns ∧ (smooth = true → x.2 = Ok tt).

Lemma pool_accounted p s r :
  pool_ok p (destination s) → r ≠ Err out_of_turns →
  (r = Ok tt → uploaded p = length refs) → (smooth = true → r = Ok tt) → accounted (transferred p, r) s.
Proof.
  intros [(counted & dropped & Hperm & Ht & Hu & Hc & Hs) Hb Hp] Hr Hok Hsm. split; [|done].
  assert (counted ⊆+ refs) as Hsub by (rewrite <- Hperm; by apply submseteq_inserts_r).
  exists counted. cbn. split_and!; [done|done|done|]. intros H. specialize (Hok H).
  apply submseteq_length_Permutation; [done|lia].
Qed.

(** Reporting progress leaves the destination alone. *)
Lemma silent_progress (b : bool) message at_ done_ total (d : D) :
  triple weather (λ s : world D, destination s = d)
    (alone (if b then progress id message at_ done_ total else mret tt))
    (λ (_ : unit) (s : world D), destination s = d) (λ _, True).
Proof.
  destruct b; [|by apply alone_ret]. unfold progress, note, update.
  apply (alone_bind _ _ _ _ (λ _ (s : world D), destination s = d)); [|intros _; by apply alone_ret].
  apply alone_atomic; [done|]. intros e s _ Hs. destruct (records s !! id); [|done]. cbn.
  by destruct (stored_ok e).
Qed.

Lemma drain_sound len total base span message : len = length refs → ∀ n p, (pool_measure p < n)%nat →
  triple weather (λ s, pool_ok p (destination s)) (alone (drain_pool n id p len total base span message))
    accounted (λ _, True).
Proof.
  intros ->. induction n as [|n IH]; intros p Hn; [lia|]. cbn [drain_pool].
  apply (alone_bind _ _ _ _ (λ m s, pool_ok p (destination s) ∧ sound_move p (destination s) m)).
  { apply alone_atomic; [done|]. intros e s He Hp. cbn. split; [done|]. apply next_move_sound; [|done].
    intros H. destruct (He H) as (_ & _ & _ & ->). apply andb_false_r. }
  intros [i ref more|[ref rest] [[]|err]|p'|].
  - apply triple_at. intros s0 [Hp Hi]. cbn in Hi.
    apply (alone_bind _ _ _ _ (λ w s, pool_ok p (destination s) ∧ busy_ok (destination s) (ref, w) ∧
      (load w < load (Trying more))%nat)).
    + eapply triple_pre; [|by eapply upload_one_sound, busy_elem]. by intros ? ->.
    + intros w. apply triple_at. intros s (Hp' & Hw & Hload).
      destruct (attempt_sound p (destination s) i ref more w) as [H1 H2]; [done..|].
      eapply triple_pre; [|apply IH; lia]. by intros ? ->.
  - apply triple_at. intros s0 [Hp Hpost]. cbn in Hpost.
    apply (alone_bind _ _ _ _ (λ _ (s : world D), destination s = destination s0)).
    + eapply triple_pre; [|apply silent_progress]. by intros ? ->.
    + intros _. eapply triple_pre; [|apply IH]; [intros s Hs; cbn beta; rewrite Hs; by apply count_sound|].
      unfold pool_measure in *. cbn. rewrite Hpost in Hn. cbn in Hn. lia.
  - apply alone_ret. intros s [Hp Hpost]. cbn in Hpost. pose proof (all_posted_ok _ _ Hp) as He.
    rewrite Hpost in He. apply Forall_cons in He as [[He1 He2] _].
    apply pool_accounted; [done|by intros [= ->]|done|by rewrite He1].
  - apply triple_at. intros s0 (_ & Hp & Hless). eapply triple_pre; [|apply IH; lia]. by intros ? ->.
  - apply (alone_bind _ _ _ _ (λ stop s, (pool_ok p (destination s) ∧ sound_move p (destination s) AllEnded) ∧
      (smooth = true → stop = false))).
    + apply alone_atomic; [done|]. intros e s He Hp. split; [done|]. intros H. by destruct (He H) as (_ & _ & _ & ->).
    + intros stop. apply alone_ret. intros s [[Hp Hend] Hstop]. cbn in Hend.
      destruct (Nat.eqb_spec (uploaded p) (length refs)) as [E|E];
        (apply pool_accounted; [done|by destruct stop| |]).
      * done.
      * intros H. by rewrite (Hstop H).
      * by destruct stop.
      * intros H. destruct E. destruct (Hend H) as (Hq & Hb & Hpo).
        destruct Hp as [(counted & dropped & Hperm & _ & Hu & _ & Hs) _ _]. destruct (Hs H) as [-> _].
        rewrite Hq, Hb, Hpo in Hperm. cbn in Hperm. rewrite app_nil_r in Hperm.
        by rewrite Hu, (Permutation_length Hperm).
Qed.

Lemma new_pool_ok d : refs ≠ [] → pool_ok (new_pool refs) d.
Proof.
  intros Hr. split; cbn; [|done|done]. exists [], []. cbn. rewrite !app_nil_r.
  split_and!; [done|done|done|done|]. intros _. split_and!; [done|lia|].
  unfold workerCount. destruct refs; [done|cbn; lia].
Qed.

Lemma uploadChunks_sound base span message :
  triple weather (λ _, True) (alone (uploadChunks id refs base span message)) accounted (λ _, True).
Proof.
  destruct (decide (refs = [])) as [Hr|Hr].
  - rewrite Hr. apply alone_ret. intros s _. split; [|done]. exists []. by rewrite Hr.
  - rewrite uploadChunks_pool by done. eapply triple_pre; [|apply drain_sound; [done|]].
    + intros s _. by apply new_pool_ok.
    + unfold pool_measure. cbn. lia.
Qed.
End upload.

(** C24.  A transfer counts what the destination acknowledged.  Let
    [landed] be a fact about the destination that an acknowledged upload of a
    chunk establishes and later uploads keep.  Whatever order the feeder, the
    workers and the reader act in, whatever gets lost and wherever the
    context ends, [uploadChunks] returns; the bytes it reports are those of
    chunks of the transfer, each counted once, that have landed, and on
    success these are all of them.  With a destination that acknowledges
    every chunk over a working link, it does succeed. *)
Theorem upload_accounted {D DE : Type} `{!Peer D DE} (id : string) (landed : ChunkRef → D → Prop)
    (refs : list ChunkRef) (base span : float64) (message : string) (s : world D) :
  (∀ e ref' ref d, landed ref d → landed ref (answers e (chunk_request id ref') d).1) →
  (∀ e ref d status b, (answers e (chunk_request id ref) d).2 = Reply status b →
     landed ref (answers e (chunk_request id ref) d).1) →
  completes (λ _, True) (uploadChunks id refs base span message) s
    (λ x s', ∃ sent, sent ⊆+ refs ∧ x.1 = int64 (stored_bytes sent) ∧
       Forall (λ ref, landed ref (destination s')) sent ∧
       (x.2 = Ok tt → sent ≡ₚ refs) ∧ x.2 ≠ Err out_of_turns) ∧
  ((∀ e ref d, ref ∈ refs → ∃ status b, (answers e (chunk_request id ref) d).2 = Reply status b) →
   completes (λ e, clear (wire e)) (uploadChunks id refs base span message) s (λ x _, x.2 = Ok tt)).
Proof.
  intros Hstay Hack. split.
  - eapply completes_mono; [eapply triple_completes, triple_pre;
      [|apply (uploadChunks_sound id landed Hstay Hack false)]| |]; [done..|].
    intros x s' [(sent & ? & ? & ? & ?) [? _]]. by exists sent.
  - intros Htake. eapply completes_mono; [eapply triple_completes, triple_pre;
      [|apply (uploadChunks_sound id landed Hstay Hack true)]| |]; [done|done|by intros e ? ?|].
    intros x s' [_ [_ H]]. by apply H.
Qed.

(** A destination that is nothing but the shelf its chunks lie on. *)
#[local] Instance shelf_peer : Peer (list ChunkRef) unit := {|
  answers _ q d := match q with
                   | QChunk _ r => (option_list (ChunkHeader r) ++ d, Reply 204 BWithdrawn)
                   | _ => (d, Refuse 404 "")
                   end |}.

Definition demo_refs : list ChunkRef := demo_ref <$> [100; 200; 300; 400; 500].
Definition demo_shelf : world (list ChunkRef) :=
  {| agent := demo_host; destination := []; records := ∅; freezes := ∅ |}.

Lemma upload_accounted_witness :
  completes (λ e : moment unit, clear (wire e)) (uploadChunks "t" demo_refs 0 1 "") demo_shelf
    (λ x _, x.2 = Ok tt).
Proof.
  apply (upload_accounted "t" (λ ref (d : list ChunkRef), ref ∈ d) demo_refs 0 1 "" demo_shelf).
  - intros e ref' ref d Hd. by right.
  - intros e ref d status b _. by left.
  - intros e ref d _. by exists 204, BWithdrawn.
Defined.
