(* ===== verification/Durable.v ===== *)
(** * What no checkpoint takes away

    Conditions on a machine that every call of the checkpoint service and of
    the runtime keeps, however it goes: that records sit under the id of
    their specification, and, unless the workload is stopped, that its
    process lives.  Both are instances of one closure argument. *)
From S2P Require Import Prelude GoStr Model Workload Prog Conc Network Host Runtime Restorer Chain Checkpoint CheckpointSafe.

Local Open Scope string_scope.
Local Open Scope list_scope.
Local Open Scope Z_scope.

Create HintDb durable.

(** ** Durable conditions *)

(** [P] speaks of processes and records only; it survives the end of the
    processes the answers admit, the signals that stop and continue, and the
    write of any record under its own id. *)
Class Durable (okE : kernel → Prop) (P : host → Prop) := {
  durable_reap e h : okE e → P h → P (reap e h);
  durable_same h h' : procs h' = procs h → workloads h' = workloads h → P h → P h';
  durable_put v h : P h → P (h <| workloads := <[SpecID (Spec v) := v]> (workloads h) |>);
  durable_signal s reached h :
    s ≠ SIGKILL → P h → P (h <| procs := deliver s reached (procs h) |>);
}.

(** It also survives a kill. *)
Class Unkilled (okE : kernel → Prop) (P : host → Prop) `{!Durable okE P} := {
  unkilled reached h : P h → P (h <| procs := deliver SIGKILL reached (procs h) |>);
}.

Section durable.
Context (okE : kernel → Prop) (P : host → Prop) `{!Durable okE P}.

Lemma durable_act {A} (f : kernel → host → host * A) :
  (∀ e h, P h → P (fst (f e h))) → preserves okE P (act f).
Proof. intros H. apply preserves_atomic. intros e h He Hh. by apply H, durable_reap. Qed.

Lemma durable_quiet {A} (f : kernel → host → host * A) :
  (∀ e h, procs (fst (f e h)) = procs h ∧ workloads (fst (f e h)) = workloads h) →
  preserves okE P (act f).
Proof. intros H. apply durable_act. intros e h. by apply durable_same; apply H. Qed.

Lemma durable_look {A} (f : kernel → host → A) : preserves okE P (look f).
Proof. by apply durable_act. Qed.

Lemma durable_try err (f : kernel → host → host) :
  (∀ e h, P h → P (f e h)) → preserves okE P (try err f).
Proof. intros H. apply durable_act. intros e h Hh. case_match; [by apply H|done]. Qed.

Lemma durable_succeeds err : preserves okE P (succeeds err).
Proof. by apply durable_try. Qed.

Lemma durable_ret {A} (a : A) : preserves okE P (mret a : call A).
Proof. apply preserves_ret. Qed.

Lemma durable_attempt {A B} (t : call (result A)) (k : A → call (result B)) :
  preserves okE P t → (∀ a, preserves okE P (k a)) → preserves okE P (attempt t k).
Proof. intros Ht Hk. apply preserves_bind; [done|]. intros []; [done|apply durable_ret]. Qed.

Lemma durable_network {A} (t : thread coordinator net_env A) : preserves okE P (on_network t).
Proof.
  apply (preserves_zoom _ _ _ okE (λ _, True) P (λ _, True)); [done| |].
  - intros n h _. by apply durable_same.
  - induction t as [a|f k IH]; [done|]. intros e s _. split; [done|apply IH].
Qed.

Lemma durable_preflight errs : preserves okE P (preflight errs).
Proof.
  induction errs as [|err errs IH]; [done|]. unfold preflight; fold preflight.
  apply preserves_bind; [apply durable_succeeds|]. by intros [].
Qed.

Lemma durable_MkdirAll p : preserves okE P (MkdirAll p).
Proof. apply durable_try. intros e h. case_match; [done|]. by apply durable_same. Qed.

Lemma durable_RemoveAll p : preserves okE P (RemoveAll p).
Proof.
  apply preserves_bind; [by apply durable_quiet|]. intros _. apply durable_try. intros e h.
  by apply durable_same.
Qed.

Lemma durable_extract_sets sets : ∀ target, preserves okE P (extract_sets sets target).
Proof.
  induction sets as [|set sets IH]; intros target; [done|]. cbn [extract_sets].
  apply preserves_bind; [|by intros []].
  induction set as [|a set IHs]; [done|]. apply preserves_bind; [by apply durable_quiet|]. by intros [].
Qed.

Lemma durable_check_chain chain : preserves okE P (check_chain chain).
Proof.
  induction chain as [|m chain IH]; [done|]. cbn [check_chain].
  destruct (processImageAssets m) as [[last passes]|]; [|done].
  apply preserves_bind; [apply durable_preflight|]. intros []; [|done].
  apply preserves_bind; [done|]. by intros [].
Qed.

Lemma durable_materialize m p : preserves okE P (materializeProcessChain m p).
Proof.
  apply preserves_bind.
  - apply preserves_bind; [apply durable_look|]. intros []; [apply durable_check_chain|done].
  - intros []; [apply durable_extract_sets|done].
Qed.

Lemma durable_guard id : preserves okE P (guard_create id).
Proof. apply durable_quiet. intros e h. by case_match. Qed.
Lemma durable_release id : preserves okE P (release_create id).
Proof. by apply durable_quiet. Qed.
Lemma durable_SaveManifest m : preserves okE P (SaveManifest m).
Proof. apply durable_quiet. intros e h. by repeat case_match. Qed.
Lemma durable_PreDump q images : preserves okE P (PreDump q images).
Proof. apply durable_quiet. intros e h. by case_match. Qed.
Lemma durable_Dump q images : preserves okE P (Dump q images).
Proof.
  apply durable_act. intros e h Hh. destruct (ok e && _); [|done].
  eapply durable_same; [| |by apply (durable_signal SIGSTOP (in_group (PGID q)) h)]; done.
Qed.
Lemma durable_Kill s reached : s ≠ SIGKILL → preserves okE P (Kill s reached).
Proof.
  intros Hs. apply durable_act. intros e h Hh. destruct (bool_decide _); [|done].
  destruct (ok e); [|done]. by apply durable_signal.
Qed.
Lemma durable_stored v : preserves okE P (stored v).
Proof.
  apply preserves_bind; [|intros; apply durable_ret]. apply durable_try. intros e h. apply durable_put.
Qed.

Lemma durable_get id : preserves okE P (get_workload id).
Proof. apply durable_look. Qed.

Hint Resolve durable_get durable_look durable_succeeds durable_ret durable_network durable_preflight
  durable_MkdirAll durable_RemoveAll durable_materialize durable_guard durable_release
  durable_SaveManifest durable_PreDump durable_Dump durable_stored : durable.
Hint Extern 1 (preserves _ _ (Kill _ _)) => (apply durable_Kill; discriminate) : durable.

Ltac solve_durable :=
  repeat first
    [ progress intros | solve [auto with durable]
    | apply durable_attempt | apply preserves_bind
    | match goal with |- preserves _ _ (if ?b then _ else _) => destruct b end
    | match goal with |- preserves _ _ (let '(_, _) := ?x in _) => destruct x end
    | match goal with |- preserves _ _ (match ?r with _ => _ end) => destruct r end ].

Lemma durable_signalAndUpdate id s status :
  s ≠ SIGKILL → preserves okE P (signalAndUpdate id s status).
Proof.
  intros Hs. unfold signalAndUpdate. apply preserves_bind; [auto with durable|].
  intros []; [|auto with durable]. apply preserves_bind; [by apply durable_Kill|]. solve_durable.
Qed.
Lemma durable_Pause id : preserves okE P (Pause id).
Proof. by apply durable_signalAndUpdate. Qed.
Lemma durable_Resume id : preserves okE P (Resume id).
Proof. by apply durable_signalAndUpdate. Qed.
Lemma durable_Mark id cid b : preserves okE P (MarkCheckpoint id cid b).
Proof. unfold MarkCheckpoint. solve_durable. Qed.
Hint Resolve durable_Pause durable_Resume durable_Mark : durable.

Section service.
Context (stateDir : path) (machine : string) (mirrored : bool).

Lemma durable_freeze v : preserves okE P (freeze v).
Proof. unfold freeze, time. solve_durable. Qed.
Lemma durable_thaw v b : preserves okE P (thaw v b).
Proof. unfold thaw. solve_durable. Qed.
Lemma durable_dump_frozen v q images leave : preserves okE P (dump_frozen v q images leave).
Proof. unfold dump_frozen. solve_durable. Qed.
Lemma durable_describe : preserves okE P describe_machine.
Proof. unfold describe_machine. solve_durable. Qed.
Lemma durable_Sign m : preserves okE P (SignManifest machine m).
Proof. unfold SignManifest. solve_durable. Qed.
Lemma durable_Mirror b id : preserves okE P (MirrorCheckpoint b id).
Proof. unfold MirrorCheckpoint. solve_durable. Qed.
Lemma durable_ready : preserves okE P ready_engine.
Proof. unfold ready_engine. solve_durable. Qed.
Hint Resolve durable_freeze durable_thaw durable_dump_frozen durable_describe durable_Sign
  durable_Mirror durable_ready : durable.

Lemma durable_CreateCheckpoint id o :
  preserves okE P (CreateCheckpoint stateDir machine mirrored id o).
Proof.
  unfold CreateCheckpoint, create_guarded, create_staged, record_checkpoint, keep_books, find_live,
    materializeParentImages, captureDirectory, time. solve_durable.
Qed.

Lemma durable_BeginLive id o : preserves okE P (BeginLive stateDir id o).
Proof. unfold BeginLive, find_live, time. solve_durable. Qed.

Lemma durable_Pass l : preserves okE P (Pass stateDir l).
Proof. unfold Pass, captureDirectory. solve_durable. Qed.

Lemma durable_Finalize l : preserves okE P (Finalize stateDir machine mirrored l).
Proof.
  unfold Finalize, finalize_open, record_live, keep_live_books, captureDirectory, close_session, time.
  solve_durable.
Qed.

Lemma durable_Abort l : preserves okE P (Abort stateDir l).
Proof. unfold Abort, close_session. solve_durable. Qed.
End service.

Lemma reconciled_spec v : Spec (reconciled v) = Spec v.
Proof. unfold reconciled. by case_match. Qed.

Lemma durable_reconcile_all ws : preserves okE P (reconcile_all ws).
Proof.
  induction ws as [|v ws IH]; [done|]. cbn [reconcile_all]. destruct (decide _); [done|].
  apply preserves_bind; [auto with durable|]. intros []; [done|]. apply preserves_bind; [|by intros []].
  rewrite <- reconciled_spec. apply durable_try. intros e h. apply durable_put.
Qed.

Lemma durable_OpenManager : preserves okE P OpenManager.
Proof.
  unfold OpenManager, Reconcile. apply preserves_bind; [by apply durable_quiet|]. intros _.
  apply preserves_bind.
  - apply preserves_bind; [auto with durable|]. apply durable_reconcile_all.
  - intros []; [|auto with durable]. apply preserves_bind; [by apply durable_quiet|]. auto with durable.
Qed.

Lemma durable_Stop `{!Unkilled okE P} id : preserves okE P (Stop id).
Proof.
  assert (∀ s reached, preserves okE P (Kill s reached)) as Hkill.
  { intros s reached. apply durable_act. intros e h Hh. destruct (bool_decide _); [|done].
    destruct (ok e); [|done]. destruct s; try (by apply durable_signal). by apply unkilled. }
  assert (∀ A f (g : host → A), preserves okE P (act (λ _ h, (h <| stopping := f h |>, g h)))) as Hst.
  { intros. by apply durable_quiet. }
  assert (∀ v, preserves okE P (put_workload (SpecID (Spec v)) v)) as Hput.
  { intros v. apply durable_try. intros e h. apply durable_put. }
  unfold Stop, finish_stop. repeat first [solve [auto with durable]|progress intros|
    progress solve_durable|apply Hkill|apply Hst|apply Hput].
Qed.
End durable.

(** ** Instances *)

(** Every record sits under the id of its specification. *)
Definition filed (h : host) : Prop := ∀ k v, workloads h !! k = Some v → SpecID (Spec v) = k.

#[export] Instance filed_durable : Durable any_answer filed.
Proof.
  split; [done| | |done].
  - intros h h' _ Hw H. unfold filed. by rewrite Hw.
  - intros v h H k v'. cbn. destruct (decide (SpecID (Spec v) = k)) as [<-|Hk].
    + rewrite lookup_insert_eq. by intros [= ->].
    + rewrite lookup_insert_ne by done. apply H.
Qed.
#[export] Instance filed_unkilled : Unkilled any_answer filed.
Proof. by split. Qed.

(** The process is not among those that end by themselves. *)
Definition spares (p : ProcessState) (e : kernel) : Prop := PID p ∉ ended e.

#[export] Instance lives_durable p : Durable (spares p) (lives p).
Proof.
  split.
  - intros e h He (Hpos & q & Hq & Hrest). split; [done|]. exists q. split; [|done].
    by apply map_lookup_filter_Some.
  - intros h h' Hp _ H. unfold lives. by rewrite Hp.
  - done.
  - intros s reached h Hs (Hpos & q & Hq & Ht & Hg). split; [done|]. cbn. unfold deliver.
    rewrite map_lookup_imap, Hq. cbn. destruct (reached _ _); [|by exists q].
    destruct s; [by exists q|done|by exists (q <| frozen := true |>)|by exists (q <| frozen := false |>)].
Qed.
