(* ===== verification/MigrationHost.v ===== *)
(** * The source machine during a migration

    What the runtime and the checkpoint service do to one workload, as the
    orchestrator needs it: whose process the record names, whether that
    process is stopped, and that only a stop ends it.  Every statement holds
    in every state in between as well. *)
From S2P Require Import Prelude GoStr Model Workload Prog Conc Network Host Runtime Restorer Chain Checkpoint CheckpointSafe Durable.

Local Open Scope string_scope.
Local Open Scope list_scope.
Local Open Scope Z_scope.

(** ** Calls that leave workloads alone *)

(** The records stay, and processes at most end. *)
Definition tame (h h' : host) : Prop := workloads h' = workloads h ∧ procs h' ⊆ procs h.

#[export] Instance tame_preorder : PreOrder tame.
Proof.
  split; [done|]. intros h1 h2 h3 [H1 H2] [H1' H2']. split; [congruence|]. by etrans.
Qed.

Lemma frame_tame h h' : frame h h' → tame h h'.
Proof. by intros (H & _ & _ & H'). Qed.

Lemma tame_reap e h : tame h (reap e h).
Proof. apply frame_tame, frame_reap. Qed.

Lemma tame_frame {A} (t : call A) : guarantees frame t → guarantees tame t.
Proof. apply guarantees_mono, frame_tame. Qed.

Lemma tame_act {A} (f : kernel → host → host * A) :
  (∀ e h, tame h (fst (f e h))) → guarantees tame (act f).
Proof. intros H. apply guarantees_atomic. intros e h. etrans; [apply tame_reap|apply H]. Qed.

Lemma tame_network {A} (t : thread coordinator net_env A) : guarantees tame (on_network t).
Proof. by apply guarantees_zoom. Qed.

Lemma tame_guard id : guarantees tame (guard_create id).
Proof. apply tame_act. intros e h. by destruct (decide _). Qed.

Lemma tame_release id : guarantees tame (release_create id).
Proof. by apply tame_act. Qed.

Lemma tame_SaveManifest m : guarantees tame (SaveManifest m).
Proof. apply tame_act. intros e h. by repeat case_match. Qed.

Lemma tame_attempt {A B} (t : call (result A)) (k : A → call (result B)) :
  guarantees tame t → (∀ a, guarantees tame (k a)) → guarantees tame (attempt t k).
Proof. intros Ht Hk. apply guarantees_bind; [done|]. by intros []. Qed.

Lemma tame_ret {A} (a : A) : guarantees tame (mret a : call A).
Proof. exact I. Qed.

Lemma tame_look {A} (f : kernel → host → A) : guarantees tame (look f).
Proof. apply tame_frame, frame_look. Qed.

Create HintDb tame.
#[export] Hint Resolve tame_network tame_guard tame_release tame_SaveManifest tame_ret tame_look : tame.
#[export] Hint Extern 5 (guarantees tame _) => (apply tame_frame; solve [auto with frame]) : tame.

Ltac solve_tame :=
  repeat first
    [ progress intros | solve [auto with tame]
    | apply tame_attempt | apply guarantees_bind
    | match goal with |- guarantees tame (if ?b then _ else _) => destruct b end
    | match goal with |- guarantees tame (match ?r with _ => _ end) => destruct r end ].

Section session.
Context (stateDir : path) (machine : string) (mirrored : bool).

Lemma tame_record_checkpoint w o kind version id started frozenAt :
  guarantees tame (record_checkpoint machine w o kind version id started frozenAt).
Proof. unfold record_checkpoint. solve_tame. Qed.

Lemma tame_record_live l : guarantees tame (record_live machine l).
Proof. unfold record_live. solve_tame. Qed.

Lemma tame_Pass l : guarantees tame (Pass stateDir l).
Proof. unfold Pass. solve_tame. Qed.

Lemma tame_BeginLive id o : guarantees tame (BeginLive stateDir id o).
Proof. unfold BeginLive. solve_tame. Qed.

Lemma tame_close l : guarantees tame (close_session stateDir l).
Proof. unfold close_session. solve_tame. Qed.
End session.
#[export] Hint Resolve tame_record_checkpoint tame_record_live tame_Pass tame_BeginLive tame_close : tame.

(** ** Whose process it is *)

Section source.
Context (w : Workload) (p : ProcessState).
Let wid : string := SpecID (Spec w).

(** The record of the workload names the process [p]. *)
Definition own (h : host) : Prop :=
  ∃ v, workloads h !! wid = Some v ∧ Spec v = Spec w ∧ Process v = Some p.

(** The process [p] has ended. *)
Definition gone (h : host) : Prop := ¬ lives p h.

(** The record names [p], or no process once [p] has ended. *)
Definition src (h : host) : Prop :=
  ∃ v, workloads h !! wid = Some v ∧ Spec v = Spec w ∧
       (Process v = None ∧ gone h ∨ Process v = Some p).

(** No process of [p]'s group runs, and the record will not make one run: a
    stop of a checkpointed workload kills it without waking it. *)
Definition parked (h : host) : Prop :=
  all_frozen (PGID p) true h ∧
  ∃ v, workloads h !! wid = Some v ∧ Spec v = Spec w ∧
       (Process v = None ∧ gone h ∨ Process v = Some p ∧ Status v = WorkloadCheckpointed).

Lemma gone_tame h h' : tame h h' → gone h → gone h'.
Proof.
  intros [_ Hp] Hg (Hpos & q & Hq & H). apply Hg. split; [done|]. exists q. split; [|done].
  by eapply lookup_weaken.
Qed.

Lemma gone_deliver s reached h : gone h → gone (h <| procs := deliver s reached (procs h) |>).
Proof.
  intros Hg (Hpos & q & Hq & Ht & Hgr). apply Hg. split; [done|]. cbn in Hq. unfold deliver in Hq.
  rewrite map_lookup_imap in Hq. apply bind_Some in Hq as (q0 & Hq0 & Hq). exists q0.
  split; [done|]. repeat case_match; by simplify_eq.
Qed.

(** What the runtime takes for dead has ended. *)
Lemma dead_gone h : ProcessAlive h (PID p) (ProcStartTicks p) = false → gone h.
Proof.
  intros Hd (Hpos & q & Hq & Ht & _). unfold ProcessAlive in Hd. rewrite Hq in Hd.
  rewrite Ht, Z.eqb_refl, andb_true_r in Hd. by apply Z.ltb_ge in Hd; lia.
Qed.

(** A kill of the group that succeeds, or finds nobody, ends [p]. *)
Lemma kill_gone e h :
  let out := if bool_decide (map_Exists (λ pid q, in_group (PGID p) pid q = true) (procs h)) then
               if ok e then (h <| procs := deliver SIGKILL (in_group (PGID p)) (procs h) |>, Ok tt)
               else (h, Err errEPERM)
             else (h, Err errESRCH) in
  out.2 = Ok tt ∨ out.2 = Err errESRCH → gone out.1.
Proof.
  case_bool_decide as Hex; [destruct (ok e)|]; cbn; intros Hr (_ & q & Hq & _ & Hg); [|by destruct Hr|].
  - cbn in Hq. rewrite deliver_kill in Hq. apply bind_Some in Hq as (q' & _ & Hq).
    case_match eqn:E; [done|]. simplify_eq. unfold in_group in E. by apply Z.eqb_neq in E.
  - apply Hex. exists (PID p), q. split; [done|]. unfold in_group. by apply Z.eqb_eq.
Qed.

Lemma own_src h : own h → src h.
Proof. intros (v & ? & ? & ?). exists v. auto. Qed.

Lemma parked_src h : parked h → src h.
Proof. intros (_ & v & ? & ? & Hp). exists v. naive_solver. Qed.

Lemma own_tame h h' : tame h h' → own h → own h'.
Proof. intros [Hw _]. unfold own. by rewrite Hw. Qed.

Lemma src_tame h h' : tame h h' → src h → src h'.
Proof.
  intros Ht. pose proof (gone_tame h h' Ht). destruct Ht as [Hw _]. unfold src. rewrite Hw. naive_solver.
Qed.

Lemma parked_tame h h' : tame h h' → parked h → parked h'.
Proof.
  intros Ht [Hf Hv]. pose proof (gone_tame h h' Ht). destruct Ht as [Hw Hp].
  split; [|rewrite Hw; naive_solver]. intros pid q Hq. apply (Hf pid). by eapply lookup_weaken.
Qed.

Lemma held_own M G st fz h : held w p M G st fz h → own h.
Proof. intros ((v & ? & ? & ? & _) & _). by exists v. Qed.

(** *** Operations that keep the owner *)

Definition owning {A} (t : call A) : Prop :=
  triple any_answer own (alone t) (λ _, own) own.

Lemma owning_tame {A} (t : call A) : guarantees tame t → owning t.
Proof. intros Ht. eapply alone_guarantees; [exact Ht| |done]. apply own_tame. Qed.

Lemma owning_ret {A} (a : A) : owning (mret a).
Proof. by apply alone_ret. Qed.

Lemma owning_bind {A B} (t : call A) (k : A → call B) :
  owning t → (∀ a, owning (k a)) → owning (t ≫= k).
Proof. intros Ht Hk. eapply alone_bind; [exact Ht|exact Hk]. Qed.

Lemma owning_attempt {A B} (t : call (result A)) (k : A → call (result B)) :
  owning t → (∀ a, owning (k a)) → owning (attempt t k).
Proof. intros Ht Hk. apply owning_bind; [done|]. intros []; [done|apply owning_ret]. Qed.

Lemma own_then {A B} (t : call (result A)) (k : A → call (result B)) R :
  owning t → (∀ a, triple any_answer own (alone (k a)) R own) → (∀ err h, own h → R (Err err) h) →
  triple any_answer own (alone (attempt t k)) R own.
Proof.
  intros Ht Hk He. apply (attempt_spec _ _ _ _ (λ _, own) own); [|done|done].
  eapply triple_post; [|exact Ht]. by intros [].
Qed.

Lemma own_reap : reap_closed own.
Proof. intros e h. apply own_tame, tame_reap. Qed.

Lemma owning_stored v : Spec v = Spec w → Process v = Some p → owning (stored v).
Proof.
  intros Hs Hp. unfold stored. apply owning_bind; [|intros r; apply owning_ret].
  apply call_act; [apply own_reap|done|]. intros e h _ Hh. destruct (ok e); [|done].
  exists v. rewrite Hs. fold wid. cbn. by rewrite lookup_insert_eq.
Qed.

Lemma Get_own h : own h → ∃ v, Get h wid = Ok v ∧ Spec v = Spec w ∧ Process v = Some p.
Proof. intros (v & Hv & Hs & Hp). exists v. unfold Get. by rewrite Hv. Qed.

Lemma owning_Kill s reached : owning (Kill s reached).
Proof.
  apply call_act; [apply own_reap|done|]. intros e h _ Hh. repeat case_match; done.
Qed.

Lemma owning_signal s status : owning (signalAndUpdate wid s status).
Proof.
  unfold signalAndUpdate. apply call_look; [apply own_reap|done|]. intros e h _ Hh.
  destruct (Get_own h Hh) as (v & -> & Hs & Hp). cbn [mbind result_bind].
  apply triple_pre with (P' := own); [by intros ? ->|].
  destruct (process_alive _ _); [|apply owning_ret]. apply owning_bind; [apply owning_Kill|].
  intros []; [|apply owning_ret]. by apply owning_stored.
Qed.

Lemma owning_Mark id b : owning (MarkCheckpoint wid id b).
Proof.
  unfold MarkCheckpoint. apply call_look; [apply own_reap|done|]. intros e h _ Hh.
  destruct (Get_own h Hh) as (v & -> & Hs & Hp). apply triple_pre with (P' := own); [by intros ? ->|].
  by apply owning_stored.
Qed.

Lemma owning_Dump images : owning (Dump p images).
Proof.
  apply call_act; [apply own_reap|done|]. intros e h _ Hh. by destruct (ok e && _).
Qed.

(** *** Taking a checkpoint *)

Section checkpoint.
Context (stateDir : path) (machine : string) (mirrored : bool).
Context (w' : Workload) (Hspec : Spec w' = Spec w).

Ltac owning := repeat first
  [ progress intros | apply owning_tame; solve [auto with tame] | apply owning_Dump
  | apply owning_ret | apply owning_signal | apply owning_Mark
  | apply owning_attempt | apply owning_bind
  | match goal with |- owning (if ?b then _ else _) => destruct b end
  | match goal with |- owning (match ?r with _ => _ end) => destruct r end ].

Lemma owning_freeze : owning (freeze w').
Proof. unfold freeze, Pause. rewrite Hspec. fold wid. owning. Qed.

Lemma owning_thaw b : owning (thaw w' b).
Proof. unfold thaw, Resume. rewrite Hspec. fold wid. owning. Qed.

Lemma owning_dump_frozen images leave : owning (dump_frozen w' p images leave).
Proof. unfold dump_frozen, Resume. rewrite Hspec. fold wid. owning. Qed.

Lemma owning_keep_books m leave early : owning (keep_books stateDir mirrored w' m leave early).
Proof. unfold keep_books, Resume. rewrite Hspec. fold wid. owning. Qed.

Lemma owning_create_staged o kind version id started :
  owning (create_staged stateDir machine mirrored w' p o kind version id started).
Proof.
  unfold create_staged. apply owning_bind.
  - apply owning_attempt; [owning|]. intros _. apply owning_freeze.
  - intros []; [|apply owning_ret]. apply owning_bind; [apply owning_dump_frozen|].
    intros []; [|apply owning_ret]. apply owning_bind; [owning|].
    intros []; [apply owning_keep_books|apply owning_ret].
Qed.

Section live.
Context (l : LiveSession) (Hl : liveWorkload l = w') (Hp : liveProcess l = p).

Lemma owning_keep_live_books m : owning (keep_live_books stateDir mirrored l m).
Proof. unfold keep_live_books, Resume. rewrite Hl, Hspec. fold wid. owning. Qed.
End live.

Lemma owning_finalize_open l :
  liveWorkload l = w' → liveProcess l = p → owning (finalize_open stateDir machine mirrored l).
Proof.
  intros Hl Hp. unfold finalize_open. rewrite Hl. apply owning_bind; [apply owning_freeze|].
  intros []; [|apply owning_ret].
  match goal with |- context [dump_frozen _ ?x _ _] => replace x with p by (symmetry; exact Hp) end.
  apply owning_bind; [apply owning_dump_frozen|]. intros [early|]; [|apply owning_ret].
  apply owning_bind; [owning|]. intros []; [|apply owning_ret].
  apply owning_keep_live_books. by destruct early.
Qed.
End checkpoint.

Section service.
Context (stateDir : path) (machine : string) (mirrored : bool).

Lemma owning_create o : owning (CreateCheckpoint stateDir machine mirrored wid o).
Proof.
  unfold CreateCheckpoint. apply owning_bind; [apply owning_tame; auto with tame|].
  intros []; [|apply owning_ret]. apply owning_bind; [|intros out; apply owning_bind;
    [apply owning_tame; auto with tame|intros; apply owning_ret]].
  unfold create_guarded. apply owning_bind; [apply owning_tame, tame_look|]. intros started.
  apply (alone_bind _ _ _ _ (λ r h, match r with
    | Ok x => (Spec x.1.1.1 = Spec w ∧ x.1.1.2 = p) ∧ own h | Err _ => own h end)).
  - unfold find_live. unfold attempt at 1. apply call_look; [apply own_reap|done|]. intros e h _ Hh.
    destruct (Get_own h Hh) as (v & -> & Hs & Hp). cbn [mbind result_bind]. rewrite Hp.
    apply triple_pre with (P' := own); [by intros ? ->|].
    destruct (ProcessAlive _ _ _); [|by apply alone_ret].
    apply own_then; [apply owning_ret| |done]. intros kind.
    apply own_then; [apply owning_tame; auto with tame| |done]. intros engine.
    apply own_then; [apply owning_tame; auto with tame| |done]. intros _. by apply alone_ret.
  - intros [[[[w' p'] kind] [version id]]|err]; [|apply owning_ret]. cbn [fst snd].
    apply triple_pure. intros [Hs ->].
    apply owning_bind; [by apply owning_create_staged|]. intros out.
    apply owning_bind; [by apply owning_thaw|]. intros _.
    apply owning_bind; [apply owning_tame; auto with tame|]. intros; apply owning_ret.
Qed.

Lemma owning_Finalize l :
  Spec (liveWorkload l) = Spec w → liveProcess l = p → owning (Finalize stateDir machine mirrored l).
Proof.
  intros Hs Hp. unfold Finalize. destruct (closed l); [apply owning_ret|].
  destruct (passFailed l); [apply owning_ret|].
  apply owning_bind; [by eapply owning_finalize_open|]. intros out.
  apply owning_bind; [by apply owning_thaw|]. intros _.
  apply owning_bind; [apply owning_tame; auto with tame|]. intros; apply owning_ret.
Qed.

Lemma owning_Abort l : Spec (liveWorkload l) = Spec w → owning (Abort stateDir l).
Proof.
  intros Hs. unfold Abort. destruct (closed l); [apply owning_ret|].
  apply owning_bind; [by apply owning_thaw|]. intros _.
  apply owning_bind; [apply owning_tame; auto with tame|]. intros; apply owning_ret.
Qed.

(** What a session is about. *)
Definition session_of (l : LiveSession) : Prop :=
  Spec (liveWorkload l) = Spec w ∧ liveProcess l = p ∧ LiveLeaveRunning (options l) = false.

Lemma BeginLive_own o :
  LiveLeaveRunning o = false →
  triple any_answer own (alone (BeginLive stateDir wid o))
    (λ r h, own h ∧ match r with Ok l => session_of l | Err _ => True end) own.
Proof.
  intros Ho. unfold BeginLive. apply (alone_bind _ _ _ _ (λ _, own)); [apply owning_tame; auto with tame|].
  intros []; [|by apply alone_ret].
  apply (alone_bind _ _ _ _ (λ r h, own h ∧ match r with Ok l => session_of l | Err _ => True end)).
  - unfold find_live. unfold attempt at 1. apply call_look; [apply own_reap|done|]. intros e h _ Hh.
    destruct (Get_own h Hh) as (v & -> & Hs & Hp). cbn [mbind result_bind]. rewrite Hp.
    apply triple_pre with (P' := own); [by intros ? ->|].
    destruct (ProcessAlive _ _ _); [|by apply alone_ret].
    apply own_then; [apply owning_tame; auto with tame| |done]. intros engine.
    apply own_then; [apply owning_tame; auto with tame| |done]. intros _.
    apply (alone_bind _ _ _ _ (λ _, own)); [apply owning_tame; auto with tame|].
    intros [key|err]; (apply (alone_bind _ _ _ _ (λ _, own)); [apply owning_tame; auto with tame|]);
      intros ?; by apply alone_ret.
  - intros [l|err]; [by apply alone_ret|].
    apply triple_pre with (P' := own); [by intros h [? _]|].
    apply (alone_bind _ _ _ _ (λ _, own)); [apply owning_tame; auto with tame|]. intros ?.
    by apply alone_ret.
Qed.

Lemma Pass_session l :
  session_of l → yields (Pass stateDir l) (λ out, session_of out.1).
Proof.
  intros Hl. unfold Pass. repeat (destruct (_ : bool); [by apply yields_ret|]).
  apply yields_skip. intros [[asset dedup]|err]; [|by apply yields_ret].
  apply yields_skip. intros [delta measured]. destruct (measure _ _ _ _) as [l' more] eqn:Hm.
  apply yields_ret. revert Hm. unfold measure. repeat case_match; intros [= <- _]; done.
Qed.
End service.

(** *** Parking *)

Section parking.
Context (stateDir : path) (machine : string) (mirrored : bool).

Definition parks (made : creation) (h : host) : Prop :=
  match made with
  | Created _ => parked h
  | _ => True
  end.

Lemma anything {A} okE P (t : call A) : triple okE P (alone t) (λ _ _, True) anywhere.
Proof.
  eapply triple_conseq; [apply (alone_guarantees okE _ anywhere anywhere t (guarantees_any t))|..]; done.
Qed.

Lemma create_parks o :
  OptionLeaveRunning o = false →
  triple any_answer own (alone (CreateCheckpoint stateDir machine mirrored wid o)) parks anywhere.
Proof.
  intros Ho. apply triple_at. intros h0 (v & Hv & Hs & Hp).
  assert (SpecID (Spec v) = wid) as Hid by (unfold wid; by rewrite Hs).
  assert (workloads h0 !! SpecID (Spec v) = Some v) as Hv' by by rewrite Hid.
  assert (∀ h, workloads h = workloads h0 → Get h wid = Ok v) as Hget.
  { intros h Hh. unfold Get. by rewrite Hh, Hv. }
  eapply triple_conseq; [apply (CreateCheckpoint_spec stateDir machine mirrored wid o (workloads h0) v p
    Hget Hv' Hp (manifests h0) (createInFlight h0))| | |done].
  - intros ? ->. done.
  - intros [m|m err|err] h; [|done..]. intros (_ & _ & _ & (x & Hx & Hsx & Hpx & Hst & _) & Hf).
    rewrite Ho, andb_false_r in Hst, Hf. split; [done|]. exists x. rewrite <- Hid.
    split_and!; [done|congruence|by right].
Qed.

Section finalize.
Context (l : LiveSession) (Hl : session_of l).

Lemma record_live_held M G st fz :
  triple any_answer (held (liveWorkload l) p M G st fz) (alone (record_live machine l))
    (saved_as (liveWorkload l) p M G st fz) anywhere.
Proof.
  unfold record_live. do 5 (apply held_attempt; [auto with frame| |done]; intros ?).
  apply held_skip; [apply frame_time|]. intros completed. apply sign_and_save_held.
Qed.
Lemma keep_live_books_parks M G m :
  triple any_answer (held (liveWorkload l) p M G None (Some true))
    (alone (keep_live_books stateDir mirrored l m)) (λ out, parks out.2) anywhere.
Proof.
  destruct Hl as (Hs & _ & Hleave). unfold keep_live_books. rewrite Hleave, andb_false_r.
  apply held_skip; [apply frame_books|]. intros [[]|err]; [|by apply alone_ret].
  apply held_skip; [apply frame_ret|]. intros [still|err]; [|by apply alone_ret].
  eapply alone_bind; [apply (MarkCheckpoint_held (liveWorkload l) p M G None m false)|].
  intros [v|err]; apply alone_ret; [|done].
  intros h [((x & Hx & Hsx & Hpx & Hst) & Hf & _) _]. split; [by apply Hf|].
  exists x. rewrite Hs in Hx, Hsx. split_and!; [done..|]. right. split; [done|]. by apply Hst.
Qed.
End finalize.

Lemma finalize_open_parks l :
  session_of l →
  triple any_answer own (alone (finalize_open stateDir machine mirrored l)) (λ out, parks out.2) anywhere.
Proof.
  intros Hl. destruct (Hl) as (Hs & Hp & Hleave). apply triple_at. intros h0 (v & Hv & Hsv & Hpv).
  set (v0 := liveWorkload l). unfold finalize_open. fold v0.
  apply triple_pre with (P' := held v0 p (manifests h0) (createInFlight h0) None None).
  { intros ? ->. split_and!; try done. exists v. unfold v0. rewrite Hs. by split_and!. }
  eapply alone_bind; [apply freeze_held|]. intros [now|err]; [|by apply alone_ret].
  match goal with |- context [dump_frozen _ ?x _ _] => replace x with p by (symmetry; exact Hp) end.
  eapply alone_bind; [apply dump_frozen_held|]. intros [early|err]; [|by apply alone_ret].
  match goal with |- context [record_live _ ?x] => set (l' := x) end.
  assert (session_of l') as Hl' by (unfold l'; by destruct early).
  assert (liveWorkload l' = v0) as Hv0 by (unfold l'; by destruct early).
  destruct early.
  { apply triple_pure. cbn. rewrite Hleave, andb_false_r. done. }
  rewrite <- Hv0. eapply alone_bind; [by apply record_live_held|]. intros [m|err]; [|by apply alone_ret].
  apply triple_at. intros h1 (M' & _ & Hh1). eapply triple_pre; [|by apply (keep_live_books_parks l' Hl' M')].
  intros ? ->. exact Hh1.
Qed.

Lemma finalize_parks l :
  session_of l →
  triple any_answer own (alone (Finalize stateDir machine mirrored l)) (λ out, parks out.2) anywhere.
Proof.
  intros Hl. unfold Finalize. destruct (closed l); [by apply alone_ret|].
  destruct (passFailed l); [by apply alone_ret|].
  apply (alone_bind _ _ _ _ (λ out, parks out.2)); [by apply finalize_open_parks|].
  intros [l' made]. cbn [snd]. destruct made as [m|m err|err].
  - apply (alone_bind _ _ _ _ (λ _, parked)); [by apply alone_ret|]. intros [].
    apply (alone_bind _ _ _ _ (λ _, parked)); [|intros []; by apply alone_ret].
    eapply alone_guarantees; [apply tame_close|apply parked_tame|done].
  - eapply alone_bind; [apply anything|]. intros []. eapply alone_bind; [apply anything|]. intros [].
    by apply alone_ret.
  - eapply alone_bind; [apply anything|]. intros []. eapply alone_bind; [apply anything|]. intros [].
    by apply alone_ret.
Qed.
End parking.

(** *** Thawing and stopping *)

Definition keeping (P : host → Prop) {A} (t : call A) : Prop :=
  triple any_answer P (alone t) (λ _, P) P.

Lemma keeping_tame (P : host → Prop) {A} (t : call A) :
  (∀ h h', tame h h' → P h → P h') → guarantees tame t → keeping P t.
Proof. intros HP Ht. by eapply alone_guarantees. Qed.

Lemma keeping_ret (P : host → Prop) {A} (a : A) : keeping P (mret a).
Proof. by apply alone_ret. Qed.

Lemma keeping_bind (P : host → Prop) {A B} (t : call A) (k : A → call B) :
  keeping P t → (∀ a, keeping P (k a)) → keeping P (t ≫= k).
Proof. intros Ht Hk. by eapply alone_bind. Qed.

Lemma Get_src h : src h →
  ∃ v, Get h wid = Ok v ∧ Spec v = Spec w ∧ (Process v = None ∧ gone h ∨ Process v = Some p).
Proof. intros (v & Hv & Hs & Hp). exists v. unfold Get. by rewrite Hv. Qed.

Lemma src_reap : reap_closed src.
Proof. intros e h. apply src_tame, tame_reap. Qed.

Lemma src_put v h :
  Spec v = Spec w → (Process v = None ∧ gone h ∨ Process v = Some p) →
  src (h <| workloads := <[SpecID (Spec v) := v]> (workloads h) |>).
Proof. intros Hs Hp. exists v. cbn. rewrite Hs. fold wid. by rewrite lookup_insert_eq. Qed.

Lemma parked_put v h :
  Spec v = Spec w → Process v = None → gone h → parked h →
  parked (h <| workloads := <[SpecID (Spec v) := v]> (workloads h) |>).
Proof.
  intros Hs Hp Hg [Hf _]. split; [exact Hf|]. exists v. cbn. rewrite Hs. fold wid.
  rewrite lookup_insert_eq. by auto.
Qed.

Lemma Kill_src s reached : keeping src (Kill s reached).
Proof.
  apply call_act; [apply src_reap|done|]. intros e h _ Hh. case_match; [|done]. case_match; [|done].
  destruct Hh as (v & Hv & Hs & Hp). exists v. split; [done|]. split; [done|].
  destruct Hp as [[? ?]|?]; [left; split; [done|by apply gone_deliver]|by right].
Qed.

Lemma Resume_src : keeping src (Resume wid).
Proof.
  unfold Resume, signalAndUpdate. apply call_look; [apply src_reap|done|]. intros e h _ Hh.
  destruct (Get_src h Hh) as (v & -> & Hs & Hp). cbn [mbind result_bind].
  apply triple_pre with (P' := src); [by intros ? ->|].
  destruct (process_alive h (Process v)) eqn:Ha; [|apply keeping_ret].
  destruct Hp as [[Hp _]|Hp]; [by rewrite Hp in Ha|]. apply keeping_bind; [by apply Kill_src|].
  intros []; [|apply keeping_ret]. unfold stored, put_workload. apply keeping_bind; [|intros; apply keeping_ret].
  apply call_act; [apply src_reap|done|]. intros e' h' _ Hh'. destruct (ok e'); [|done].
  apply src_put; [done|by right].
Qed.

(** Stopping keeps [P] when ending the record's process does. *)
Section stopping.
Context (P : host → Prop) (HPsrc : ∀ h, P h → src h) (HPtame : ∀ h h', tame h h' → P h → P h')
        (HPput : ∀ v h, Spec v = Spec w → Process v = None → gone h → P h →
           P (h <| workloads := <[SpecID (Spec v) := v]> (workloads h) |>)).

Lemma P_reap : reap_closed P.
Proof. intros e h. apply HPtame, tame_reap. Qed.

Lemma tame_stopping {A} (f : host → gset string) (g : host → A) :
  guarantees tame (act (λ _ h, (h <| stopping := f h |>, g h))).
Proof. by apply tame_act. Qed.

Lemma tame_SIGKILL reached : guarantees tame (Kill SIGKILL reached).
Proof.
  apply tame_act. intros e h. destruct (bool_decide _); [|done]. destruct (ok e); [|done].
  split; [done|]. cbn. apply map_subseteq_spec. intros pid q. rewrite deliver_kill.
  intros (q' & -> & Hq)%bind_Some. by case_match; simplify_eq.
Qed.

(** With the process gone, [P] holds until the record is written. *)
Definition ended_P (h : host) : Prop := P h ∧ gone h.

Lemma ended_tame h h' : tame h h' → ended_P h → ended_P h'.
Proof. intros Ht [? ?]. split; [by eapply HPtame|by eapply gone_tame]. Qed.

Lemma ended_P_reap : reap_closed ended_P.
Proof. intros e h. apply ended_tame, tame_reap. Qed.

Lemma finish_stop_keeps : keeping P (finish_stop wid p).
Proof.
  unfold finish_stop. apply (alone_bind _ _ _ _ (λ (alive : bool) h, P h ∧ (alive = false → gone h))).
  { apply call_act; [apply P_reap|done|]. intros e h _ Hh. split; [done|]. apply dead_gone. }
  intros alive. apply (alone_bind _ _ _ _ (λ killed h, P h ∧
    (killed = Ok tt ∨ killed = Err errESRCH → gone h))).
  { destruct alive; [|apply alone_ret; naive_solver].
    apply triple_pre with (P' := P); [by intros h [? _]|].
    apply call_act; [apply P_reap|done|]. intros e h _ Hh. split; [|by apply kill_gone].
    pose proof (tame_SIGKILL (in_group (PGID p))) as Ht. eapply HPtame; [|exact Hh].
    repeat case_match; try done. split; [done|]. cbn. apply map_subseteq_spec. intros pid q.
    rewrite deliver_kill. intros (q' & -> & Hq)%bind_Some. by case_match; simplify_eq. }
  intros killed. destruct (negb _) eqn:Hk; [apply alone_ret; by intros h [? _]|].
  apply negb_false_iff, bool_decide_eq_true in Hk.
  apply triple_pre with (P' := ended_P); [intros h [? Hg]; split; [done|apply Hg; set_solver]|].
  apply call_look; [apply ended_P_reap|by intros h [? _]|]. intros e h _ Hh.
  destruct (Get_src h (HPsrc h (proj1 Hh))) as (v & -> & Hs & _).
  apply triple_pre with (P' := ended_P); [by intros ? ->|].
  apply (alone_bind _ _ _ _ (λ _, P)).
  - apply call_act; [apply ended_P_reap|by intros h' [? _]|]. intros e' h' _ [? ?]. destruct (ok e'); [|done].
    by apply HPput.
  - intros []; [|apply keeping_ret]. apply keeping_bind; [|intros; apply keeping_ret].
    apply keeping_tame; [done|apply tame_stopping].
Qed.

(** Recording that the process is gone. *)
Lemma record_gone v :
  Spec v = Spec w → Process v = None →
  triple any_answer ended_P
    (alone (act (λ _ h, (h <| stopping := stopping h ∖ {[wid]} |>, tt)) ≫= λ _, stored v)) (λ _, P) P.
Proof.
  intros Hs Hp. apply (alone_bind _ _ _ _ (λ _, ended_P)).
  { eapply triple_conseq; [apply (keeping_tame ended_P); [apply ended_tame|apply tame_stopping]|..]; try done.
    by intros h [? _]. }
  intros _. unfold stored, put_workload. apply (alone_bind _ _ _ _ (λ _, P)); [|intros; by apply alone_ret].
  apply call_act; [apply ended_P_reap|by intros h [? _]|]. intros e h _ [? ?]. destruct (ok e); [|done]. by apply HPput.
Qed.
End stopping.

Lemma src_ended v h :
  Spec v = Spec w → Process v = None → gone h → src h →
  src (h <| workloads := <[SpecID (Spec v) := v]> (workloads h) |>).
Proof. intros. apply src_put; auto. Qed.

(** The end of a stop that found the process gone. *)
Lemma already_gone v h :
  (Process v = None ∧ gone h ∨ Process v = Some p) →
  Process v = None ∨ process_alive h (Process v) = false → gone h.
Proof.
  intros [[_ Hg]|Hp] Hd; [done|]. rewrite Hp in Hd. destruct Hd as [?|Hd]; [done|]. by apply dead_gone.
Qed.

Lemma Stop_src : keeping src (Stop wid).
Proof.
  unfold Stop. apply call_look; [apply src_reap|done|]. intros e h _ Hh.
  destruct (Get_src h Hh) as (v & -> & Hs & Hp). cbn [mbind result_bind].
  assert (SpecID (Spec v) = wid) as -> by by rewrite Hs.
  assert (Process v = None ∨ process_alive h (Process v) = false →
    triple any_answer (λ h', h' = h) (alone (act (λ _ h, (h <| stopping := stopping h ∖ {[wid]} |>, tt)) ≫= λ _,
      stored (next_generation (v <| Status := WorkloadStopped |> <| Process := None |>)))) (λ _, src) src) as Hgone.
  { intros Hd. eapply triple_pre; [|by apply (record_gone src src_tame src_ended)].
    intros ? ->. split; [done|by eapply already_gone]. }
  destruct (Process v) as [q|] eqn:Eq; [|by apply Hgone; left].
  destruct (process_alive _ _) eqn:Ha; [|by apply Hgone; right].
  destruct Hp as [[? _]|[= ->]]; [done|].
  apply triple_pre with (P' := src); [by intros ? ->|].
  apply keeping_bind; [apply keeping_tame; [apply src_tame|apply tame_stopping]|]. intros _.
  apply keeping_bind.
  { destruct (decide _); [apply Kill_src|]. apply keeping_bind; [apply Kill_src|]. intros _. apply Kill_src. }
  intros terminated. destruct (negb _).
  - apply keeping_bind; [apply keeping_tame; [apply src_tame|apply tame_stopping]|].
    intros; apply keeping_ret.
  - by apply (finish_stop_keeps src (λ h H, H) src_tame src_ended).
Qed.

Lemma Stop_parked : keeping parked (Stop wid).
Proof.
  unfold Stop. apply call_look; [apply (P_reap _ parked_tame)|done|]. intros e h _ Hh.
  destruct (Hh) as (_ & v & Hv & Hs & Hp). unfold Get. rewrite Hv. cbn [mbind result_bind].
  assert (SpecID (Spec v) = wid) as -> by by rewrite Hs.
  assert (∀ A f (g : host → A), keeping parked (act (λ _ h, (h <| stopping := f h |>, g h)))) as Hst.
  { intros A f g. apply keeping_tame; [apply parked_tame|apply tame_stopping]. }
  assert (Process v = None ∨ process_alive h (Process v) = false →
    triple any_answer (λ h', h' = h) (alone (act (λ _ h, (h <| stopping := stopping h ∖ {[wid]} |>, tt)) ≫= λ _,
      stored (next_generation (v <| Status := WorkloadStopped |> <| Process := None |>)))) (λ _, parked) parked) as Hgone.
  { intros Hd. eapply triple_pre; [|by apply (record_gone parked parked_tame parked_put)].
    intros ? ->. split; [done|]. eapply already_gone; [|done]. naive_solver. }
  destruct (Process v) as [q|] eqn:Eq; [|by apply Hgone; left].
  destruct (process_alive _ _) eqn:Ha; [|by apply Hgone; right].
  destruct Hp as [[? _]|[[= ->] Hc]]; [done|]. rewrite decide_True by done.
  apply triple_pre with (P' := parked); [by intros ? ->|].
  apply keeping_bind; [apply Hst|]. intros _.
  apply keeping_bind; [apply keeping_tame; [apply parked_tame|apply tame_SIGKILL]|].
  intros terminated. destruct (negb _).
  - apply keeping_bind; [apply Hst|]. intros; apply keeping_ret.
  - by apply (finish_stop_keeps parked parked_src parked_tame parked_put).
Qed.

(** *** Restarting the agent *)

Lemma src_other k v h : k ≠ wid → src h → src (h <| workloads := <[k := v]> (workloads h) |>).
Proof. intros Hk (x & Hx & H). exists x. cbn. by rewrite lookup_insert_ne. Qed.

Lemma parked_other k v h : k ≠ wid → parked h → parked (h <| workloads := <[k := v]> (workloads h) |>).
Proof. intros Hk [Hf (x & Hx & H)]. split; [exact Hf|]. exists x. cbn. by rewrite lookup_insert_ne. Qed.

Section reopening.
Context (P : host → Prop) (HPsrc : ∀ h, P h → src h) (HPtame : ∀ h h', tame h h' → P h → P h')
        (HPput : ∀ v h, Spec v = Spec w → Process v = None → gone h → P h →
           P (h <| workloads := <[SpecID (Spec v) := v]> (workloads h) |>))
        (HPother : ∀ k v h, k ≠ wid → P h → P (h <| workloads := <[k := v]> (workloads h) |>)).

Lemma reconcile_keeps ws :
  (∀ v, v ∈ ws → SpecID (Spec v) = wid →
     Spec v = Spec w ∧ (Process v = None ∨ Process v = Some p)) → keeping P (reconcile_all ws).
Proof.
  induction ws as [|v ws IH]; intros Hws; [apply keeping_ret|]. cbn [reconcile_all].
  assert (keeping P (reconcile_all ws)) as Hrest by (apply IH; set_solver).
  destruct (decide _) as [|Hn]; [done|]. pose proof (Hws v ltac:(by left)) as Hv.
  apply (alone_bind _ _ _ _ (λ (alive : bool) h, P h ∧ (alive = false → Process v = Some p → gone h))).
  { apply call_act; [by apply P_reap|done|]. intros e h _ Hh. split; [done|]. cbn.
    intros Ha Hq. rewrite Hq in Ha. by apply dead_gone. }
  intros []; [by eapply triple_pre; [|exact Hrest]; intros h [? _]|].
  apply (alone_bind _ _ _ _ (λ _, P)); [|intros []; [done|apply keeping_ret]].
  apply call_act; [|by intros h [? _]|].
  { intros e h [Hh Hg]. split; [by apply P_reap|]. intros. eapply gone_tame; [apply tame_reap|by apply Hg]. }
  intros e h _ [Hh Hg]. destruct (ok e); [|done]. cbn [fst].
  destruct (decide (SpecID (Spec v) = wid)) as [Hk|Hk]; [|by apply HPother].
  destruct (Hv Hk) as [Hs Hp]. rewrite <- reconciled_spec.
  apply HPput; [by rewrite reconciled_spec|by unfold reconciled; case_match| |done].
  apply Hg; [done|]. by destruct Hp.
Qed.

Lemma OpenManager_keeps :
  triple any_answer (λ h, filed h ∧ P h) (alone OpenManager) (λ _, P) P.
Proof.
  unfold OpenManager, Reconcile. apply (alone_bind _ _ _ _ (λ _ h, filed h ∧ P h)).
  { apply call_act; [|by intros h [_ ?]|].
    - intros e h [Hf Hh]. split; [exact Hf|by apply P_reap].
    - intros e h _ [Hf Hh]. split; [exact Hf|]. eapply HPtame; [|exact Hh]. done. }
  intros _. apply (alone_bind _ _ _ _ (λ _, P)).
  - apply call_look; [|by intros h [_ ?]|].
    { intros e h [Hf Hh]. split; [exact Hf|by apply P_reap]. }
    intros e h _ [Hf Hh]. apply triple_pre with (P' := P); [by intros ? ->|].
    apply reconcile_keeps. intros v [k Hv]%elem_of_listed Hid. pose proof (Hf k v Hv) as Hk.
    destruct (HPsrc h Hh) as (x & Hx & Hs & Hp). rewrite <- Hk, Hid, Hx in Hv. simplify_eq. naive_solver.
  - intros []; [|apply keeping_ret]. apply keeping_bind; [|intros; apply keeping_ret].
    apply keeping_tame; [done|]. by apply tame_act.
Qed.
End reopening.

Lemma OpenManager_src : triple any_answer (λ h, filed h ∧ src h) (alone OpenManager) (λ _, src) src.
Proof. apply (OpenManager_keeps src (λ h H, H) src_tame src_ended src_other). Qed.

Lemma OpenManager_parked :
  triple any_answer (λ h, filed h ∧ parked h) (alone OpenManager) (λ _, parked) parked.
Proof. apply (OpenManager_keeps parked parked_src parked_tame parked_put parked_other). Qed.

(** *** Giving up a session *)

Lemma Abort_src stateDir l : Spec (liveWorkload l) = Spec w → keeping src (Abort stateDir l).
Proof.
  intros Hs. unfold Abort. destruct (closed l); [apply keeping_ret|]. apply keeping_bind.
  - unfold thaw. rewrite Hs. fold wid. destruct (_ && _); [|apply keeping_ret].
    apply keeping_bind; [apply Resume_src|]. intros; apply keeping_ret.
  - intros _. apply keeping_bind; [|intros; apply keeping_ret].
    apply keeping_tame; [apply src_tame|apply tame_close].
Qed.
End source.
