(* ===== verification/Routine.v ===== *)
(** * The routine of a migration

    Most of what the orchestrator does writes its own books, looks at the
    machine, or asks the destination for something other than a restore.
    [Routine] is the interface of a condition that survives this routine; the
    lemmas walk through the operations of [Migration] once, for every such
    condition.  Two families of conditions are routine: those that only
    depend on the records of the source and on the absence of a copy
    ([calm]), and those that a durable condition of the source or a commit of
    the destination makes true. *)
From S2P Require Import Prelude GoStr Model Workload Prog Conc Network Session Host Runtime Restorer Checkpoint Peer Migration CheckpointSafe Durable MigrationHost.

Local Open Scope string_scope.
Local Open Scope list_scope.
Local Open Scope Z_scope.

Create HintDb routine.

(** ** Requests *)

Section requests.
Context {D DE : Type} `{HP : !Peer D DE} {holds keeps : string → D → Prop}
        `{HL : !PeerLaws D DE holds keeps}.
Context (id : string).

(** No copy appears and no commit is lost. *)
Definition calm_peer (d d' : D) : Prop := (holds id d' → holds id d) ∧ (keeps id d → keeps id d').

#[export] Instance calm_peer_preorder : PreOrder calm_peer.
Proof. split; [done|]. intros d1 d2 d3 [? ?] [? ?]. split; auto. Qed.

Lemma calm_answers e q d : (∀ timeout, q ≠ QRestore id timeout) → calm_peer d (answers e q d).1.
Proof.
  intros Hq. split; [|by apply kept_for_good].
  intros [?|[timeout Ht]]%only_restore_starts; [done|]. by destruct (Hq timeout).
Qed.

Lemma calm_session_call q :
  (∀ timeout, q ≠ QRestore id timeout) → guarantees calm_peer (session_call q).
Proof.
  intros Hq. apply guarantees_bind; [|done]. apply (do_attempts_guarantees _). intros e d. by apply calm_answers.
Qed.

Lemma calm_ImportManifest m : guarantees calm_peer (ImportManifest id m).
Proof. apply guarantees_bind; [|done]. apply (do_attempts_guarantees _). intros e d. by apply calm_answers. Qed.

Lemma calm_UploadChunk ref : guarantees calm_peer (UploadChunk id ref).
Proof. apply guarantees_bind; [|done]. apply (exchange_guarantees _). intros e d. by apply calm_answers. Qed.
End requests.

(** ** The interface *)

Class Routine {D DE} `{!Peer D DE} (holds keeps : string → D → Prop) (stateDir : path) (id : string)
    (okE : moment DE → Prop) (P : world D → Prop) := {
  routine_look {A} (f : kernel → host → A) : preserves okE P (on_agent (look f));
  routine_succeeds err : preserves okE P (on_agent (succeeds err));
  routine_network {A} (t : thread coordinator net_env A) : preserves okE P (on_agent (on_network t));
  routine_BeginLive workloadID o : preserves okE P (on_agent (BeginLive stateDir workloadID o));
  routine_Pass l : preserves okE P (on_agent (Pass stateDir l));
  routine_record s v v' : P s → records s !! id = Some v → WorkloadID v' = WorkloadID v →
    P (s <| records := <[id := v']> (records s) |>);
  routine_freezes s m : P s → P (s <| freezes := m |>);
  routine_peer {A} (t : thread D (link DE) A) :
    guarantees (calm_peer (holds := holds) (keeps := keeps) id) t → preserves okE P (on_peer t);
}.

Section routine.
Context {D DE : Type} `{HP : !Peer D DE} {holds keeps : string → D → Prop}
        `{HL : !PeerLaws D DE holds keeps}.
Context (stateDir : path) (machine : string) (mirrored : bool) (digest32 : string → Z)
        (has_network : bool) (id : string).
Context (okE : moment DE → Prop) (P : world D → Prop)
        `{HR : !Routine holds keeps stateDir id okE P}.

Abbreviation routine t := (preserves okE P t).

(** *** Books *)

Lemma routine_ret {A} (a : A) : routine (mret a).
Proof. exact I. Qed.

Lemma routine_observe {A} (f : moment DE → world D → A) : routine (observe f).
Proof. by apply preserves_atomic. Qed.

Lemma routine_update f :
  (∀ t v v', f t v = Ok v' → WorkloadID v' = WorkloadID v) → routine (update id f).
Proof.
  intros Hf. apply preserves_atomic. intros e s _ Hs.
  destruct (records s !! id) as [v|] eqn:Hv; [|done].
  destruct (f (now_at e) v) as [v'|] eqn:Hv'; [|done]. destruct (stored_ok e); [|done].
  eapply routine_record; [done|done|]. by rewrite <- (Hf _ _ _ Hv').
Qed.

Lemma routine_note f : (∀ t v, WorkloadID (f t v) = WorkloadID v) → routine (note id f).
Proof.
  intros Hf. apply preserves_bind; [|intros; apply routine_ret]. apply routine_update.
  intros t v v' [= <-]. apply Hf.
Qed.

Lemma Transition_workload t to message at_ v v' :
  Transition t to message at_ v = Ok v' → WorkloadID v' = WorkloadID v.
Proof. unfold Transition. destruct (negb _); [done|]. intros [= <-]. by destruct (terminal to). Qed.

Lemma routine_transition to message at_ : routine (transition id to message at_).
Proof. apply routine_update. intros t v v'. apply Transition_workload. Qed.

Lemma routine_progress message at_ done_ total : routine (progress id message at_ done_ total).
Proof. by apply routine_note. Qed.
Lemma routine_event message : routine (event id message).
Proof. by apply routine_note. Qed.
Lemma routine_get_record : routine (get_record id).
Proof. apply routine_observe. Qed.
Lemma routine_now : routine now.
Proof. apply routine_observe. Qed.

Lemma routine_put_freeze f : routine (put_freeze f).
Proof.
  apply preserves_atomic. intros e s _ Hs. cbn. destruct (stored_ok e); [|done]. by apply routine_freezes.
Qed.

Hint Resolve routine_ret routine_observe routine_transition routine_progress routine_event
  routine_get_record routine_now routine_put_freeze : routine.
Hint Extern 1 (preserves _ _ (on_agent _)) =>
  (first [ apply routine_look | apply routine_succeeds | apply routine_network | apply routine_Pass
         | apply routine_BeginLive ]) : routine.
Hint Extern 2 (preserves _ _ (note _ _)) => (apply routine_note; intros; reflexivity) : routine.
Hint Extern 2 (preserves _ _ (on_peer (session_call _))) =>
  (apply routine_peer, calm_session_call; intros; discriminate) : routine.

Ltac solve_routine :=
  repeat first
    [ progress intros | solve [auto with routine] | apply preserves_bind
    | match goal with |- preserves _ _ (if ?b then _ else _) => destruct b end
    | match goal with |- preserves _ _ (match ?r with _ => _ end) => destruct r end ].

Lemma routine_noteFreezeOwnership workloadID owns : routine (noteFreezeOwnership id workloadID owns).
Proof. unfold noteFreezeOwnership. solve_routine. Qed.
Lemma routine_noteDowntimeStart t : routine (noteDowntimeStart id t).
Proof. unfold noteDowntimeStart. solve_routine. Qed.
Lemma routine_get_workload workloadID : routine (on_agent (get_workload workloadID)).
Proof. apply routine_look. Qed.
Hint Resolve routine_noteFreezeOwnership routine_noteDowntimeStart routine_get_workload : routine.

Lemma routine_bound_downtime v : routine (bound_downtime id v).
Proof. unfold bound_downtime. solve_routine. Qed.
Lemma routine_noteReservation message t : routine (noteReservation id message t).
Proof. by apply routine_note. Qed.
Lemma routine_export_key : routine export_key.
Proof. apply routine_observe. Qed.
Hint Resolve routine_bound_downtime routine_noteReservation routine_export_key : routine.

Lemma routine_expect {A B} v code (t : thread (world D) (moment DE) (result A))
    (k : A → thread (world D) (moment DE) (stepped B)) :
  routine t → (∀ a, routine (k a)) → routine (expect v code t k).
Proof. intros Ht Hk. apply preserves_bind; [done|]. by intros []. Qed.

Lemma routine_expect_open {A B} v l code (t : thread (world D) (moment DE) (result A))
    (k : A → thread (world D) (moment DE) (LiveSession * stepped B)) :
  routine t → (∀ a, routine (k a)) → routine (expect_open v l code t k).
Proof. intros Ht Hk. apply preserves_bind; [done|]. by intros []. Qed.

Ltac routine_steps :=
  repeat first
    [ progress solve_routine | apply routine_expect | apply routine_expect_open
    | apply routine_update; by intros ? ? ? [= <-] ].

(** *** Stages *)

Lemma routine_discover : routine (discover machine id).
Proof. unfold discover, peer_machine. routine_steps. Qed.

Lemma routine_drain workloadID plan : routine (drainSourceForwarders has_network id workloadID plan).
Proof. unfold drainSourceForwarders. solve_routine. Qed.
Hint Resolve routine_drain : routine.

Lemma routine_validate v m w target : routine (validate_run digest32 has_network id v m w target).
Proof. unfold validate_run. routine_steps. Qed.

Lemma routine_upload_one ref more : routine (upload_one id ref more).
Proof.
  apply preserves_bind; [apply routine_peer, calm_UploadChunk|]. intros []; [done|].
  apply preserves_bind; [auto with routine|]. done.
Qed.

Lemma routine_drain_pool n len total base span message : ∀ p,
  routine (drain_pool n id p len total base span message).
Proof.
  induction n as [|n IH]; intros p; cbn [drain_pool]; [done|].
  apply preserves_bind; [auto with routine|]. intros [i ref more|[ref rest] [[]|err]|p'|].
  - apply preserves_bind; [apply routine_upload_one|]. intros w. apply IH.
  - apply preserves_bind; [solve_routine|]. intros _. apply IH.
  - done.
  - apply IH.
  - solve_routine.
Qed.

Lemma routine_uploadChunks refs base span message : routine (uploadChunks id refs base span message).
Proof. unfold uploadChunks. destruct refs; [done|apply routine_drain_pool]. Qed.
Hint Resolve routine_uploadChunks : routine.

Lemma routine_reserve workloadID estimated timeout :
  routine (reserve_peer machine id workloadID estimated timeout).
Proof. unfold reserve_peer. solve_routine. Qed.
Lemma routine_send_key workloadID version key : routine (send_key id workloadID version key).
Proof. unfold send_key. solve_routine. Qed.
Hint Resolve routine_reserve routine_send_key : routine.

Lemma routine_transfer_passes n v : ∀ l current moved,
  routine (transfer_passes stateDir n id v l current moved).
Proof.
  induction n as [|n IH]; intros l current moved; [done|]. cbn [transfer_passes].
  apply preserves_bind; [auto with routine|]. intros [bytes []]; [|done].
  apply preserves_bind; [auto with routine|]. intros _. destruct (negb _); [done|].
  apply preserves_bind; [auto with routine|]. intros [l' []]; [apply IH|done].
Qed.
Hint Resolve routine_transfer_passes : routine.

Lemma routine_precopy timeout v w l : routine (precopy stateDir machine id timeout v w l).
Proof. unfold precopy. routine_steps. Qed.

Lemma routine_prepare timeout v w m : routine (prepare_destination machine id timeout v w m).
Proof. unfold prepare_destination. routine_steps. Qed.

Lemma routine_rounds n m preCopy : ∀ first moved deduplicated last,
  routine (transfer_rounds n first id m preCopy moved deduplicated last).
Proof.
  induction n as [|n IH]; intros first moved deduplicated last; [done|]. cbn [transfer_rounds].
  apply preserves_bind; [solve_routine|]. intros []; [done|].
  apply preserves_bind; [apply routine_peer, calm_ImportManifest|].
  intros [[missing dedup]|err]; [|apply IH].
  apply preserves_bind; [auto with routine|]. intros [sent r].
  apply preserves_bind; [auto with routine|]. intros _. by destruct r; [|apply IH].
Qed.
Hint Resolve routine_prepare routine_rounds : routine.

Lemma routine_transfer_state timeout v r m preCopy :
  routine (transfer_state machine id timeout v r m preCopy).
Proof. unfold transfer_state. routine_steps. Qed.

(** *** Undoing *)

Lemma routine_rollback_attempts n : ∀ first last, routine (rollback_attempts n first id last).
Proof.
  induction n as [|n IH]; intros first last; [done|]. cbn [rollback_attempts].
  apply preserves_bind; [solve_routine|]. intros []; [done|].
  apply preserves_bind; [auto with routine|]. intros []; [done|]. by destruct (decide _).
Qed.

Lemma routine_rollbackDestination b r : routine (rollbackDestination id b r).
Proof.
  unfold rollbackDestination. repeat (destruct (negb _); [done|]). apply routine_rollback_attempts.
Qed.

Lemma routine_holds b : routine (destinationHoldsLiveCopy id b).
Proof. unfold destinationHoldsLiveCopy. solve_routine. Qed.

Lemma routine_running workloadID : routine (sourceWorkloadRunning workloadID).
Proof. unfold sourceWorkloadRunning. solve_routine. Qed.

Lemma routine_outcome workloadID plan outcome detail :
  routine (recordSourceOutcome digest32 id workloadID plan outcome detail).
Proof. unfold recordSourceOutcome. solve_routine. Qed.

Lemma routine_restoreSourceNetwork m : routine (restoreSourceNetwork has_network m).
Proof. unfold restoreSourceNetwork. solve_routine. Qed.

Lemma routine_persist_stage n to message at_ : routine (persist_stage n id to message at_).
Proof.
  induction n as [|n IH]; [done|]. cbn [persist_stage].
  apply preserves_bind; [auto with routine|]. by intros [].
Qed.

Lemma routine_forceSettle to message : routine (forceSettle id to message).
Proof. by apply routine_note. Qed.

Lemma routine_forceComplete message stopped : routine (forceCompleteRecovered id message stopped).
Proof. apply routine_note. intros t v. by destruct stopped. Qed.

Lemma routine_settle u to message loud kept : routine (settle id u to message loud kept).
Proof.
  unfold settle. repeat first [apply routine_forceSettle|progress solve_routine].
Qed.
End routine.
