(* ===== verification/MigrationSafe.v ===== *)
(** * One workload, one place

    A migration never lets its workload execute twice.  At every moment of
    the life of a migration (its run cut off anywhere, any number of
    restarts of the agent with a recovery cut off anywhere, whatever the
    machines and the network answer), a copy the destination may be executing
    implies that every process of the source is stopped or gone. *)
From S2P Require Import Prelude GoStr Model Workload Prog Conc Network Session Host Runtime Restorer Checkpoint Peer Migration CheckpointSafe Durable MigrationHost Routine.

Local Open Scope string_scope.
Local Open Scope list_scope.
Local Open Scope Z_scope.

Definition any_moment {DE} (e : moment DE) : Prop := True.

(** Use a lemma of [Routine] on the instance at hand. *)
Tactic Notation "routinely" uconstr(lemma) := eapply lemma; first [eassumption | by intros].

(** ** Calm moves *)

Section safe.
Context {D DE : Type} `{HP : !Peer D DE} {holds keeps : string → D → Prop}
        `{HL : !PeerLaws D DE holds keeps}.
Context (stateDir : path) (machine : string) (mirrored : bool) (digest32 : string → Z)
        (has_network : bool) (id : string) (w : Workload) (p : ProcessState).
Let wid : string := SpecID (Spec w).

#[local] Abbreviation whatever := (any_moment (DE := DE)).

(** The record of the migration is one of this workload. *)
Definition recorded (s : world D) : Prop := ∀ m, records s !! id = Some m → WorkloadID m = wid.

Definition absent (s : world D) : Prop := ¬ holds id (destination s).

Definition calm (s s' : world D) : Prop :=
  (recorded s → recorded s') ∧ tame (agent s) (agent s') ∧
  calm_peer (holds := holds) (keeps := keeps) id (destination s) (destination s').

#[local] Instance calm_preorder : PreOrder calm.
Proof.
  split; [done|]. intros s1 s2 s3 (H1 & H2 & H3) (H1' & H2' & H3'). split_and!; [auto|by etrans..].
Qed.

Definition calm_closed (P : world D → Prop) : Prop := ∀ s s', calm s s' → P s → P s'.

Lemma calm_agent {A} (t : call A) : guarantees tame t → guarantees calm (on_agent (DE := DE) t).
Proof. apply guarantees_lift. intros h s Hh. by split_and!. Qed.

Lemma calm_routine P : calm_closed P → Routine holds keeps stateDir id whatever P.
Proof.
  intros HPc.
  assert (∀ A (t : call A), guarantees tame t → preserves whatever P (on_agent (DE := DE) t)) as Hagent.
  { intros A t Ht. eapply guarantees_preserves; [exact HPc|by apply calm_agent]. }
  split; try (intros; apply Hagent; auto with tame; apply tame_frame; auto with frame; fail).
  - intros s v v' Hs Hv Hw. apply (HPc s); [|done]. split_and!; [|done|done].
    intros Hr m. cbn. rewrite lookup_insert_eq. intros [= <-]. rewrite Hw. by apply Hr.
  - intros s m Hs. apply (HPc s); [|done]. by split_and!.
  - intros A t Ht. eapply guarantees_preserves; [exact HPc|]. revert Ht. apply guarantees_lift.
    intros d s Hd. by split_and!.
Qed.

(** ** Predicates of a life *)

(** A copy on the destination means that the source is parked. *)
Definition Safe (s : world D) : Prop :=
  recorded s ∧ src w p (agent s) ∧ (holds id (destination s) → parked w p (agent s)).

(** Before the checkpoint, and between the checkpoint and the restore. *)
Definition before (s : world D) : Prop := recorded s ∧ own w p (agent s) ∧ absent s.
Definition ready (s : world D) : Prop := recorded s ∧ parked w p (agent s).

Lemma absent_calm : calm_closed absent.
Proof. intros s s' (_ & _ & H & _) Hs Hh. by apply Hs, H. Qed.

Lemma Safe_calm : calm_closed Safe.
Proof.
  intros s s' (Hr & Ht & Hh & _) (H1 & H2 & H3). split_and!; [by apply Hr|by eapply src_tame|].
  intros Hd. eapply parked_tame; [done|]. by apply H3, Hh.
Qed.

Lemma before_calm : calm_closed before.
Proof.
  intros s s' Hc (H1 & H2 & H3). split_and!; [by apply Hc|by eapply own_tame; [apply Hc|]|].
  by eapply absent_calm.
Qed.

Lemma ready_calm : calm_closed ready.
Proof. intros s s' Hc (H1 & H2). split; [by apply Hc|]. eapply parked_tame; [apply Hc|done]. Qed.

Lemma and_calm P Q : calm_closed P → calm_closed Q → calm_closed (λ s, P s ∧ Q s).
Proof. intros HP' HQ s s' Hc [? ?]. split; [by eapply HP'|by eapply HQ]. Qed.

Lemma imp_calm (φ : Prop) P : calm_closed P → calm_closed (λ s, φ → P s).
Proof. intros HP' s s' Hc H Hφ. eapply HP'; eauto. Qed.

Lemma before_Safe s : before s → Safe s.
Proof. intros (H1 & H2 & H3). split_and!; [done|by apply own_src|]. intros H. by destruct H3. Qed.

Lemma ready_Safe s : ready s → Safe s.
Proof. intros (H1 & H2). split_and!; [done|by apply parked_src|done]. Qed.

(** Routine work keeps what is closed under calm moves. *)
Lemma by_routine {A} P (t : thread (world D) (moment DE) A) :
  calm_closed P → (∀ s, P s → Safe s) →
  (Routine holds keeps stateDir id whatever P → preserves whatever P t) →
  triple whatever P (alone t) (λ _, P) Safe.
Proof. intros Hc HS Ht. apply preserves_triple; [|done]. by apply Ht, calm_routine. Qed.

(** Work on the machine, framed by what it does not touch. *)
Lemma on_source {A} (F : world D → Prop) (t : call A) P Q C :
  (∀ h s, F s → F (s <| agent := h |>)) → triple any_answer P (alone t) Q C →
  (∀ s, F s → C (agent s) → Safe s) →
  triple whatever (λ s, F s ∧ P (agent s)) (alone (on_agent t)) (λ r s, F s ∧ Q r (agent s)) Safe.
Proof.
  intros HF Ht HC. eapply triple_conseq; [apply (zoom_triple _ _ _ whatever any_answer F t P Q C)|done|done|].
  all: try done. intros s [H1 H2]. by apply HC.
Qed.

(** Asking the destination: what the answer says holds now. *)
Lemma ask {A} P (t : thread D (link DE) A) Q :
  calm_closed P → (∀ s, P s → Safe s) →
  guarantees (calm_peer (holds := holds) (keeps := keeps) id) t →
  triple (λ _, True) (λ _, True) (alone t) Q (λ _, True) →
  triple whatever P (alone (on_peer t)) (λ r s, P s ∧ Q r (destination s)) Safe.
Proof.
  intros Hc HS Hg Ht. eapply triple_conseq; [apply triple_and|..].
  - apply (by_routine P (on_peer t)); [done|done|]. intros HR. by apply (routine_peer (Routine := HR)).
  - eapply triple_pre; [|apply (zoom_triple _ _ _ whatever (λ _, True) (λ _, True) t (λ _, True) Q (λ _, True))];
      done.
  - done.
  - intros a s [H1 [_ H2]]. done.
  - by intros s [H _].
Qed.

(** ** Undoing *)

Section undoing.
(** Something the undoing does not affect. *)
Context (X : world D → Prop) (HX : calm_closed X) (HXa : ∀ h s, X s → X (s <| agent := h |>)).

Definition SafeX (s : world D) : Prop := Safe s ∧ X s.

Lemma SafeX_calm : calm_closed SafeX.
Proof. apply and_calm; [apply Safe_calm|exact HX]. Qed.
Lemma SafeX_Safe s : SafeX s → Safe s.
Proof. by intros [H _]. Qed.

(** A run may fail here: without a reservation there is no copy. *)
Definition may_fail (v : vars) (s : world D) : Prop := SafeX s ∧ (reserved v = false → absent s).

Lemma may_fail_calm v : calm_closed (may_fail v).
Proof. apply and_calm; [apply SafeX_calm|]. apply imp_calm, absent_calm. Qed.
Lemma may_fail_Safe v s : may_fail v s → Safe s.
Proof. by intros [[H _] _]. Qed.

Definition confirms (b : bool) (s : world D) : Prop := SafeX s ∧ (b = true → absent s).

Lemma confirms_calm b : calm_closed (confirms b).
Proof. apply and_calm; [apply SafeX_calm|]. apply imp_calm, absent_calm. Qed.
Lemma confirms_Safe b s : confirms b s → Safe s.
Proof. by intros [[H _] _]. Qed.

Lemma rollback_attempts_confirm n : ∀ first last,
  triple whatever SafeX (alone (rollback_attempts n first id last)) (λ out, confirms out.1) Safe.
Proof.
  induction n as [|n IH]; intros first last; cbn [rollback_attempts]; [by apply alone_ret|].
  apply (alone_bind _ _ _ _ (λ _, SafeX)).
  { apply by_routine; [apply SafeX_calm|apply SafeX_Safe|]. intros HR.
    destruct first; [routinely routine_ret|routinely routine_observe]. }
  intros []; [by apply alone_ret|].
  eapply alone_bind; [apply ask; [apply SafeX_calm|apply SafeX_Safe|by apply calm_session_call|apply rollback_learns]|].
  intros [s'|err].
  - apply alone_ret. intros s [H1 H2]. by split.
  - destruct (decide (err = errTransferNotFound)) as [->|].
    + apply alone_ret. intros s [H1 H2]. split; [done|]. intros _. by apply H2.
    + eapply triple_pre; [|apply IH]. by intros s [H _].
Qed.

Lemma rollbackDestination_confirms b r :
  triple whatever (λ s, SafeX s ∧ (r = false → absent s)) (alone (rollbackDestination id b r))
    (λ out, confirms out.1) Safe.
Proof.
  unfold rollbackDestination. destruct r; cbn [negb].
  - destruct b; cbn [negb].
    + eapply triple_pre; [|apply rollback_attempts_confirm]. by intros s [H _].
    + apply alone_ret. intros s [H _]. by split.
  - apply alone_ret. intros s [H1 H2]. split; [done|]. intros _. by apply H2.
Qed.

Lemma destinationHoldsLiveCopy_tells b :
  triple whatever SafeX (alone (destinationHoldsLiveCopy id b))
    (λ copy s, SafeX s ∧ (copy = false → absent s)) Safe.
Proof.
  unfold destinationHoldsLiveCopy. destruct b; cbn [negb]; [|apply alone_ret; intros s Hs; by split].
  eapply alone_bind; [apply ask; [apply SafeX_calm|apply SafeX_Safe|by apply calm_session_call|apply cleanup_learns]|].
  intros [s'|err]; apply alone_ret; intros s [H1 H2]; (split; [done|]); intros Hb.
  - apply H2. by apply negb_false_iff, bool_decide_eq_true in Hb.
  - apply H2. by apply negb_false_iff, bool_decide_eq_true in Hb.
Qed.

(** The source may run when there is no copy. *)
Definition frame_absent (s : world D) : Prop := recorded s ∧ absent s ∧ X s.

Lemma frame_absent_Safe s : frame_absent s → src w p (agent s) → SafeX s ∧ absent s.
Proof.
  intros (H1 & H2 & H3) Hs. split; [|done]. split; [|done]. split_and!; [done|done|]. intros H. by destruct H2.
Qed.

Lemma resume_source_safe :
  triple whatever (λ s, SafeX s ∧ absent s) (alone (resume_source wid)) (λ _, SafeX) Safe.
Proof.
  unfold resume_source. apply (alone_bind _ _ _ _ (λ _ s, SafeX s ∧ absent s)).
  { apply by_routine; [apply and_calm; [apply SafeX_calm|apply absent_calm]|by intros s [[? _] _]|].
    intros HR. routinely routine_get_workload. }
  intros [v|err]; [|apply alone_ret; by intros s [? _]].
  destruct (decide _); [apply alone_ret; by intros s [? _]|].
  destruct (Process v); [|apply alone_ret; by intros s [? _]].
  eapply (alone_bind _ _ _ _ (λ _, SafeX)); [|intros [] ; by apply alone_ret].
  eapply triple_conseq; [apply (on_source frame_absent (Resume wid) (src w p) (λ _, src w p) (src w p))|..].
  - intros h s (H1 & H2 & H3). split_and!; [done|done|by apply HXa].
  - apply Resume_src.
  - intros s H1 H2. by destruct (frame_absent_Safe s H1 H2) as [[? _] _].
  - intros s [[(H1 & H2 & _) H3] H4]. by repeat split.
  - intros r s [H1 H2]. by destruct (frame_absent_Safe s H1 H2).
  - done.
Qed.

Lemma undo_safe v m detail :
  WorkloadID m = wid →
  triple whatever (may_fail v) (alone (undo digest32 has_network id v m detail)) (λ _, SafeX) Safe.
Proof.
  intros Hm. unfold undo. rewrite Hm.
  eapply alone_bind; [apply rollbackDestination_confirms|]. intros [confirmed errs]. cbn [fst].
  apply (alone_bind _ _ _ _ (λ copy, confirms (confirmed || negb copy))).
  { destruct confirmed; cbn [negb andb orb]; [apply alone_ret; intros s H; exact H|].
    destruct (sourceFrozen v); [|apply alone_ret; by intros s [H _]].
    eapply triple_conseq; [apply destinationHoldsLiveCopy_tells|by intros s [H _]| |done].
    intros copy s [H1 H2]. split; [done|]. intros Hc. by apply H2, negb_true_iff. }
  intros copy. set (safe := confirmed || negb copy).
  apply (alone_bind _ _ _ _ (λ _, SafeX)).
  { destruct (sourceFrozen v && safe) eqn:E; [|apply alone_ret; by intros s [H _]].
    apply andb_true_iff in E as [_ E]. eapply triple_pre; [|apply resume_source_safe].
    intros s [H1 H2]. split; [done|]. by apply H2. }
  intros [resumed rerrs].
  apply (alone_bind _ _ _ _ (λ _, SafeX)); [apply by_routine; [apply SafeX_calm|apply SafeX_Safe|]|].
  { intros HR. destruct resumed; [routinely routine_ret|routinely routine_running]. }
  intros running.
  apply (alone_bind _ _ _ _ (λ _, SafeX)); [apply by_routine; [apply SafeX_calm|apply SafeX_Safe|]|].
  { intros HR. destruct running; [routinely routine_restoreSourceNetwork|routinely routine_ret]. }
  intros _.
  apply (alone_bind _ _ _ _ (λ _, SafeX)); [apply by_routine; [apply SafeX_calm|apply SafeX_Safe|]|].
  { intros HR. routinely routine_note. }
  intros _.
  apply (alone_bind _ _ _ _ (λ _, SafeX)); [apply by_routine; [apply SafeX_calm|apply SafeX_Safe|]|].
  { intros HR. routinely routine_outcome. }
  intros _. by apply alone_ret.
Qed.

Ltac keep_failing := apply by_routine; [apply may_fail_calm|apply may_fail_Safe|intros HR].
Ltac keep_safe := apply by_routine; [apply SafeX_calm|apply SafeX_Safe|intros HR].

Lemma get_record_known (P : world D → Prop) {A} (k : option Migration → thread (world D) (moment DE) A) Q :
  (∀ s, P s → Safe s) →
  (∀ found, (∀ m, found = Some m → WorkloadID m = wid) → triple whatever P (alone (k found)) Q Safe) →
  triple whatever P (alone (get_record id ≫= k)) Q Safe.
Proof.
  intros HS Hk. apply alone_read; [done|]. intros e s _ Hs.
  eapply triple_pre; [|apply (Hk (records s !! id))].
  - by intros ? ->.
  - intros m Hm. destruct (HS s Hs) as [Hr _]. by apply Hr.
Qed.

Lemma settle_safe u to message loud kept :
  triple whatever SafeX (alone (settle id u to message loud kept)) (λ _, SafeX) Safe.
Proof. keep_safe. routinely routine_settle. Qed.

Lemma handleFailure_safe v code cause downtime :
  committed v = false →
  triple whatever (may_fail v) (alone (handleFailure digest32 has_network id v code cause downtime))
    (λ _, SafeX) Safe.
Proof.
  intros Hv. unfold handleFailure. apply get_record_known; [apply may_fail_Safe|].
  intros [m|] Hm; [|apply alone_ret; by intros s [H _]].
  destruct (terminal _); [apply alone_ret; by intros s [H _]|].
  apply (alone_bind _ _ _ _ (λ _, may_fail v)).
  { keep_failing. eapply routine_note; [eassumption|]. intros t r. by destruct (decide _). }
  intros _. rewrite Hv. apply (alone_bind _ _ _ _ (λ _, may_fail v)).
  { keep_failing. destruct (decide _).
    - apply preserves_bind; [routinely routine_event|]. intros; routinely routine_ret.
    - destruct (CanTransition _ _); [|destruct (CanTransition _ _); [|routinely routine_ret]].
      + apply preserves_bind; [routinely routine_persist_stage|]. intros; routinely routine_ret.
      + apply preserves_bind; [routinely routine_transition|]. intros; routinely routine_ret. }
  intros preFailed. apply get_record_known; [apply may_fail_Safe|]. intros current Hc.
  eapply alone_bind; [apply undo_safe; destruct current; [by apply Hc|by apply Hm]|]. intros u.
  destruct preFailed; [by apply alone_ret|]. apply settle_safe.
Qed.

Lemma handleCancellation_safe v cause downtime :
  committed v = false →
  triple whatever (may_fail v) (alone (handleCancellation digest32 has_network id v cause downtime))
    (λ _, SafeX) Safe.
Proof.
  intros Hv. unfold handleCancellation. apply get_record_known; [apply may_fail_Safe|].
  intros [m|] Hm; [|apply alone_ret; by intros s [H _]].
  destruct (terminal _); [apply alone_ret; by intros s [H _]|]. rewrite Hv.
  apply (alone_bind _ _ _ _ (λ _, may_fail v)); [keep_failing; routinely routine_note|].
  intros _. apply (alone_bind _ _ _ _ (λ _, may_fail v)).
  { keep_failing. destruct (decide _); [routinely routine_event|].
    destruct (CanTransition _ _); [routinely routine_persist_stage|routinely routine_ret]. }
  intros _. apply get_record_known; [apply may_fail_Safe|]. intros current Hc.
  eapply alone_bind; [apply undo_safe; destruct current; [by apply Hc|by apply Hm]|]. intros u.
  apply settle_safe.
Qed.

Lemma fail_safe v code cause :
  committed v = false →
  triple whatever (may_fail v) (alone (fail digest32 has_network id v code cause)) (λ _, SafeX) Safe.
Proof.
  intros Hv. unfold fail. apply (alone_bind _ _ _ _ (λ _, may_fail v)); [keep_failing; routinely routine_observe|].
  intros [[] downtime]; [by apply handleCancellation_safe|by apply handleFailure_safe].
Qed.
End undoing.

(** ** Stopping the source *)

(** Killing the source is safe with or without a copy. *)
Lemma Stop_guarded (H : Prop) :
  keeping (λ h, src w p h ∧ (H → parked w p h)) (Stop wid).
Proof.
  intros h es Hes [Hs Hp]. pose proof (Stop_src w p h es Hes Hs) as H1.
  pose proof (λ x, Stop_parked w p h es Hes (Hp x)) as H2. fold wid in H1, H2.
  destruct (alone (Stop wid) h es) as [[[r|] h'] es']; [|split; [done|exact H2]].
  destruct H1 as [H1 Hes']. split; [|done]. split; [done|]. intros x. by apply H2.
Qed.

Lemma stopSource_safe n : ∀ last,
  triple whatever Safe (alone (stopSourceWithRetry n wid last)) (λ _, Safe) Safe.
Proof.
  induction n as [|n IH]; intros last; cbn [stopSourceWithRetry]; [by apply alone_ret|].
  apply (alone_bind _ _ _ _ (λ _, Safe)); [|intros []; [by apply alone_ret|apply IH]].
  apply triple_at. intros s0 (Hr & Hs & Hp). set (d := destination s0) in *.
  eapply triple_conseq; [apply (on_source (λ s, recorded s ∧ destination s = d) (Stop wid)
    (λ h, src w p h ∧ (holds id d → parked w p h)) (λ _ h, src w p h ∧ (holds id d → parked w p h))
    (λ h, src w p h ∧ (holds id d → parked w p h)))|..].
  - done.
  - apply Stop_guarded.
  - intros s [H1 H2] [H3 H4]. split_and!; [done|done|]. by rewrite H2.
  - intros ? ->. done.
  - intros r s [[H1 H2] [H3 H4]]. split_and!; [done|done|]. by rewrite H2.
  - done.
Qed.

(** ** Recovering *)

Definition anyhow (s : world D) : Prop := True.

Lemma Safe_routine {A} (t : thread (world D) (moment DE) A) :
  (Routine holds keeps stateDir id whatever Safe → preserves whatever Safe t) →
  triple whatever Safe (alone t) (λ _, Safe) Safe.
Proof. intros Ht. apply by_routine; [apply Safe_calm|done|exact Ht]. Qed.

(** What a probe of the destination tells. *)
Definition probe_tells (probed : result (option SessionState)) (s : world D) : Prop :=
  match probed with
  | Ok (Some st) => st ∈ no_copy_states → absent s
  | Ok None => absent s
  | Err _ => True
  end.

Lemma recover_undo probed v (event : thread (world D) (moment DE) unit) code cause downtime :
  committed v = false →
  (∀ s, probe_tells probed s → reserved v = false → absent s) →
  (Routine holds keeps stateDir id whatever (may_fail anyhow v) →
     preserves whatever (may_fail anyhow v) event) →
  triple whatever (λ s, Safe s ∧ probe_tells probed s)
    (alone (event ≫= λ _, handleFailure digest32 has_network id v code cause downtime)) (λ _, Safe) Safe.
Proof.
  intros Hc Hres Hevent. apply (alone_bind _ _ _ _ (λ _, may_fail anyhow v)).
  - eapply triple_pre; [|apply (by_routine (may_fail anyhow v) event); [by apply may_fail_calm| |exact Hevent]].
    + intros s [H1 H2]. split; [done|]. by apply Hres.
    + apply may_fail_Safe.
  - intros _. eapply triple_post; [|by apply (handleFailure_safe anyhow)]. by intros ? s [? _].
Qed.

Lemma recoverOne_safe :
  triple whatever Safe (alone (recoverOne digest32 has_network id)) (λ _, Safe) Safe.
Proof.
  unfold recoverOne. apply get_record_known; [done|]. intros [m|] Hm; [|by apply alone_ret].
  destruct (terminal _); [by apply alone_ret|]. rewrite (Hm m) by done.
  apply (alone_bind _ _ _ _ (λ _, Safe)); [apply Safe_routine; intros HR; routinely routine_observe|].
  intros [fact t]. cbn zeta.
  apply (alone_bind _ _ _ _ (λ _, Safe)); [apply Safe_routine; intros HR; routinely routine_observe|].
  intros client. apply (alone_bind _ _ _ _ (λ probed s, Safe s ∧ probe_tells probed s)).
  { destruct client; [|by apply alone_ret].
    eapply alone_bind; [apply ask; [apply Safe_calm|done|by apply calm_session_call|apply cleanup_learns]|].
    intros [s'|err]; [apply alone_ret; intros s (H1 & H2 & _); by split|].
    destruct (decide _) as [->|]; apply alone_ret; intros s [H1 H2]; [|done]. split; [done|by apply H2]. }
  intros [[[]|]|err]; try (apply recover_undo; [done| |intros HR;
    first [exact I|routinely routine_event]]; cbn; intros s H E;
    first [discriminate E|exact H|apply H; vm_compute; set_solver]).
  apply (alone_bind _ _ _ _ (λ _, Safe)).
  - eapply triple_pre; [|apply stopSource_safe]. by intros s [H _].
  - intros stopped. apply Safe_routine. intros HR. routinely routine_forceComplete.
Qed.

(** A restart of the agent: the runtime opens, then the migration is
    recovered. *)
Definition restart : thread (world D) (moment DE) unit :=
  opened ← on_agent OpenManager;
  match opened with
  | Err _ => mret tt
  | Ok _ => recoverOne digest32 has_network id
  end.

Lemma OpenManager_guarded (H : Prop) :
  triple any_answer (λ h, filed h ∧ src w p h ∧ (H → parked w p h)) (alone OpenManager)
    (λ _ h, src w p h ∧ (H → parked w p h)) (λ h, src w p h ∧ (H → parked w p h)).
Proof.
  intros h es Hes (Hf & Hs & Hp). pose proof (OpenManager_src w p h es Hes (conj Hf Hs)) as H1.
  pose proof (λ x, OpenManager_parked w p h es Hes (conj Hf (Hp x))) as H2.
  destruct (alone OpenManager h es) as [[[r|] h'] es']; [|split; [done|exact H2]].
  destruct H1 as [H1 Hes']. split; [|done]. split; [done|]. intros x. by apply H2.
Qed.

Lemma restart_safe :
  triple whatever (λ s, filed (agent s) ∧ Safe s) (alone restart) (λ _, Safe) Safe.
Proof.
  unfold restart. apply (alone_bind _ _ _ _ (λ _, Safe)); [|intros []; [apply recoverOne_safe|by apply alone_ret]].
  apply triple_at. intros s0 (Hf & Hr & Hs & Hp). set (d := destination s0) in *.
  eapply triple_conseq; [apply (on_source (λ s, recorded s ∧ destination s = d) OpenManager
    (λ h, filed h ∧ src w p h ∧ (holds id d → parked w p h))
    (λ _ h, src w p h ∧ (holds id d → parked w p h)) (λ h, src w p h ∧ (holds id d → parked w p h)))|..].
  - done.
  - apply OpenManager_guarded.
  - intros s [H1 H2] [H3 H4]. split_and!; [done|done|]. by rewrite H2.
  - intros ? ->. done.
  - intros r s [[H1 H2] [H3 H4]]. split_and!; [done|done|]. by rewrite H2.
  - done.
Qed.

(** ** Running *)

(** What a run's step leaves: it goes on in [Q], or it may fail. *)
Definition leaves {A} (Q : A → world D → Prop) (r : stepped A) (s : world D) : Prop :=
  match r with
  | Next a => Q a s
  | Failed v _ _ => committed v = false ∧ Safe s ∧ (reserved v = false → absent s)
  end.

(** The variables of a run before its commit. *)
Definition uncommitted {A} (φ : A → Prop) (r : stepped A) : Prop :=
  match r with
  | Next a => φ a
  | Failed v _ _ => committed v = false
  end.

Lemma yields_expect {A B} v code (t : thread (world D) (moment DE) (result A))
    (k : A → thread (world D) (moment DE) (stepped B)) φ :
  committed v = false → (∀ a, yields (k a) (uncommitted φ)) → yields (expect v code t k) (uncommitted φ).
Proof. intros Hv Hk. apply yields_skip. intros [a|err]; [apply Hk|done]. Qed.

Lemma yields_expect_open {A B} v l code (t : thread (world D) (moment DE) (result A))
    (k : A → thread (world D) (moment DE) (LiveSession * stepped B)) (ψ : LiveSession → Prop) φ :
  committed v = false → ψ l → (∀ a, yields (k a) (λ out, ψ out.1 ∧ uncommitted φ out.2)) →
  yields (expect_open v l code t k) (λ out, ψ out.1 ∧ uncommitted φ out.2).
Proof. intros Hv Hl Hk. apply yields_skip. intros [a|err]; [apply Hk|done]. Qed.

Lemma before_fails v s : committed v = false → before s → leaves (λ (_ : unit) _, True) (Failed v "" "") s.
Proof. intros Hv Hs. split; [done|]. split; [by apply before_Safe|]. intros _. apply Hs. Qed.

Lemma expect_before {A B} v code (t : thread (world D) (moment DE) (result A)) k (Q : A → world D → Prop)
    (R : B → world D → Prop) :
  committed v = false →
  triple whatever before (alone t) (λ r s, match r with Ok a => Q a s | Err _ => before s end) Safe →
  (∀ a, triple whatever (Q a) (alone (k a)) (leaves R) Safe) →
  triple whatever before (alone (expect v code t k)) (leaves R) Safe.
Proof.
  intros Hv Ht Hk. eapply alone_bind; [exact Ht|]. intros [a|err]; [apply Hk|].
  apply alone_ret. intros s Hs. by apply (before_fails v).
Qed.

Lemma before_routine {A} (t : thread (world D) (moment DE) A) :
  (Routine holds keeps stateDir id whatever before → preserves whatever before t) →
  triple whatever before (alone t) (λ _, before) Safe.
Proof. intros Ht. apply by_routine; [apply before_calm|apply before_Safe|exact Ht]. Qed.

Lemma expect_routine {A B} v code (t : thread (world D) (moment DE) (result A)) k
    (R : B → world D → Prop) :
  committed v = false →
  (Routine holds keeps stateDir id whatever before → preserves whatever before t) →
  (∀ a, triple whatever before (alone (k a)) (leaves R) Safe) →
  triple whatever before (alone (expect v code t k)) (leaves R) Safe.
Proof.
  intros Hv Ht Hk. apply (expect_before v code t k (λ _, before)); [done| |done].
  eapply triple_post; [|by apply before_routine]. by intros [].
Qed.

(** The record discovery finds is the workload's. *)
Lemma discover_safe :
  triple whatever before (alone (discover machine id))
    (leaves (λ x s, (committed x.1.1.1 = false ∧ Spec x.1.2 = Spec w) ∧ before s)) Safe.
Proof.
  unfold discover. apply expect_routine; [done|intros HR; routinely routine_transition|]. intros _.
  apply (expect_before _ _ _ _ (λ m s, WorkloadID m = wid ∧ before s)); [done| |].
  { apply get_record_known; [apply before_Safe|]. intros [m|] Hm; apply alone_ret; [|done].
    intros s Hs. split; [by apply Hm|done]. }
  intros m. apply triple_pure. intros Hm. rewrite Hm.
  apply (expect_before _ _ _ _ (λ v s, Spec v = Spec w ∧ before s)); [done| |].
  { eapply triple_conseq; [apply (on_source (λ s, recorded s ∧ absent s) (get_workload wid) (own w p)
      (λ r h, match r with Ok v => Spec v = Spec w | Err _ => True end ∧ own w p h) (own w p))|..].
    - done.
    - apply call_act; [apply own_reap|done|]. intros e h _ Hh. cbn [fst snd].
      split; [|done]. destruct (Get_own w p h Hh) as (v & Hg & Hs & _). fold wid in Hg. by rewrite Hg.
    - intros s [H1 H2] H3. by apply before_Safe.
    - intros s (H1 & H2 & H3). done.
    - intros [v|err] s [[H1 H2] [H3 H4]]; by repeat split.
    - done. }
  intros v. apply triple_pure. intros Hv.
  apply (alone_bind _ _ _ _ (λ _, before));
    [apply before_routine; intros HR; routinely routine_noteFreezeOwnership|]. intros _.
  apply expect_routine; [done|intros HR; by eapply (routine_succeeds (Routine := HR))|]. intros _.
  apply expect_routine; [done|intros HR; routinely routine_observe|]. intros target.
  assert (∀ code cause, triple whatever before (alone (mret (Failed (start_vars <| has_peer := true |>) code cause)))
    (leaves (λ (x : vars * Migration * Workload * string) s,
      (committed x.1.1.1 = false ∧ Spec x.1.2 = Spec w) ∧ before s)) Safe) as Hfail.
  { intros code cause. apply alone_ret. intros s Hs. by apply (before_fails (start_vars <| has_peer := true |>)). }
  destruct (decide _); [apply Hfail|]. destruct (_ && _); [apply Hfail|]. by apply alone_ret.
Qed.

Lemma validate_yields v m w' target :
  committed v = false →
  yields (validate_run (D := D) (DE := DE) digest32 has_network id v m w' target)
    (uncommitted (λ x, committed x.1 = false ∧ runWorkload x.2 = w')).
Proof.
  intros Hv. unfold validate_run. apply yields_skip. intros _.
  repeat (apply yields_expect; [done|intros ?]). apply yields_skip. intros checked.
  apply yields_expect; [done|intros _]. destruct (negb _); [done|].
  repeat (apply yields_expect; [done|intros ?]). apply yields_skip. intros drained.
  apply yields_skip. intros _. repeat (apply yields_expect; [done|intros ?]). done.
Qed.

Lemma bound_yields v : yields (bound_downtime (D := D) (DE := DE) id v)
  (λ v', committed v' = committed v ∧ reserved v' = reserved v).
Proof.
  unfold bound_downtime. destruct (negb _); [done|]. apply yields_skip. intros t.
  apply yields_skip. intros _. done.
Qed.

(** What routine work yields before the checkpoint. *)
Lemma before_yields {A} (t : thread (world D) (moment DE) A) (φ : A → Prop) :
  yields t φ → (Routine holds keeps stateDir id whatever before → preserves whatever before t) →
  triple whatever before (alone t) (λ r s, φ r ∧ before s) Safe.
Proof. intros Hy Ht. apply yields_triple; [done|]. by apply before_routine. Qed.

(** *** The checkpoint *)

(** Between the checkpoint and the restore. *)
Definition moving (s : world D) : Prop := ready s ∧ absent s.

Lemma moving_calm : calm_closed moving.
Proof. apply and_calm; [apply ready_calm|apply absent_calm]. Qed.
Lemma moving_Safe s : moving s → Safe s.
Proof. intros [H _]. by apply ready_Safe. Qed.

(** A checkpoint parks the source or leaves it as it was. *)
Lemma checkpointing {A} (made : A → creation) (t : call A) :
  owning w p t → triple any_answer (own w p) (alone t) (λ out, parks w p (made out)) anywhere →
  triple whatever before (alone (on_agent t))
    (λ out s, match made out with Created _ => moving s | _ => before s end) Safe.
Proof.
  intros Hown Hparks.
  eapply triple_conseq; [apply (on_source (λ s, recorded s ∧ absent s) t (own w p)
    (λ out h, own w p h ∧ parks w p (made out) h) (λ h, own w p h ∧ anywhere h))|..].
  - done.
  - by apply triple_and.
  - intros s [H1 H2] [H3 _]. by apply before_Safe.
  - by intros s (H1 & H2 & H3).
  - intros out s [[H1 H2] [H3 H4]]. destruct (made out); [|done..]. done.
  - done.
Qed.

Lemma checkpoint_cold_safe v r :
  committed v = false → Spec (runWorkload r) = Spec w →
  triple whatever before (alone (checkpoint_cold stateDir machine mirrored id v r))
    (leaves (λ x s, committed x.1.1 = false ∧ moving s)) Safe.
Proof.
  intros Hv Hr. unfold checkpoint_cold. rewrite Hr. fold wid.
  eapply alone_bind; [apply before_yields; [apply bound_yields|intros HR; routinely routine_bound_downtime]|].
  intros v'. apply triple_pure. intros [Hc _]. cbn zeta.
  eapply alone_bind; [apply (checkpointing (λ made, made)); [apply owning_create|by apply create_parks]|].
  intros [m|m err|err]; apply alone_ret; intros s Hs; [by rewrite <- Hv, <- Hc| |];
    by apply (before_fails (v' <| sourceFrozen := runs (runWorkload r) |>)); [rewrite <- Hv, <- Hc|].
Qed.

Lemma finalize_run_safe v r l :
  committed v = false → session_of w p l →
  triple whatever before (alone (finalize_run stateDir machine mirrored id v r l))
    (leaves (λ x s, committed x.1 = false ∧ moving s)) Safe.
Proof.
  intros Hv Hl. unfold finalize_run.
  eapply alone_bind; [apply before_yields; [apply bound_yields|intros HR; routinely routine_bound_downtime]|].
  intros v'. apply triple_pure. intros [Hc _]. rewrite Hv in Hc.
  eapply alone_bind; [apply (checkpointing snd); [apply owning_Finalize; apply Hl|by apply finalize_parks]|].
  intros [l' made]. cbn [snd].
  assert (∀ err, triple whatever before (alone
    (if freezeStartedAt l' =? 0 then mret (Failed v' "CHECKPOINT_FAILED" err)
     else if drainedAt r =? 0 then
            noteDowntimeStart id (freezeStartedAt l') ≫= λ _,
            mret (Failed (v' <| sourceFrozen := runs (runWorkload r) |>
                             <| downtimeStart := freezeStartedAt l' |>) "CHECKPOINT_FAILED" err)
          else mret (Failed (v' <| sourceFrozen := runs (runWorkload r) |>) "CHECKPOINT_FAILED" err)))
    (leaves (λ (x : vars * CheckpointManifest) s, committed x.1 = false ∧ moving s)) Safe) as Hfail.
  { intros err. destruct (_ =? 0); [apply alone_ret; intros s; by apply (before_fails v')|].
    destruct (_ =? 0).
    - apply (alone_bind _ _ _ _ (λ _, before));
        [apply before_routine; intros HR; routinely routine_noteDowntimeStart|].
      intros _. apply alone_ret. intros s. by apply (before_fails (v' <| sourceFrozen := _ |> <| downtimeStart := _ |>)).
    - apply alone_ret. intros s. by apply (before_fails (v' <| sourceFrozen := _ |>)). }
  destruct made as [m|m err|err]; [by apply alone_ret|apply Hfail..].
Qed.

(** The session of a live run stays one of the workload. *)
Lemma yields_Pass {B} l (k : LiveSession * result PreCopyPass → thread (world D) (moment DE) B) φ :
  session_of w p l → (∀ l' r, session_of w p l' → yields (k (l', r)) φ) →
  yields (on_agent (Pass stateDir l) ≫= k) φ.
Proof.
  intros Hl Hk. eapply yields_bind; [apply yields_zoom, Pass_session, Hl|].
  intros [l' r] Hl'. by apply Hk.
Qed.

Abbreviation in_session φ := (λ out, session_of w p out.1 ∧ uncommitted φ out.2).

Lemma transfer_passes_yields n v : committed v = false → ∀ l current moved, session_of w p l →
  yields (transfer_passes (DE := DE) (D := D) stateDir n id v l current moved) (in_session (λ _ : Z, True)).
Proof.
  intros Hv. induction n as [|n IH]; intros l current moved Hl; cbn [transfer_passes]; [done|].
  apply yields_skip. intros [bytes [[]|err]]; [|done]. apply yields_skip. intros _.
  destruct (negb _); [done|]. apply yields_Pass; [done|]. intros l' [next|err] Hl'; [by apply IH|done].
Qed.

Lemma precopy_yields timeout v w' l : committed v = false → session_of w p l →
  yields (precopy (DE := DE) (D := D) stateDir machine id timeout v w' l)
    (in_session (λ x, committed x.1 = false)).
Proof.
  intros Hv Hl. unfold precopy. apply yields_Pass; [done|]. intros l' [pass|err] Hl'; [|done].
  apply yields_skip. intros estimated. apply yields_expect_open; [done|done|]. intros session.
  apply yields_expect_open; [done|done|]. intros key. apply yields_expect_open; [done|done|]. intros _.
  apply yields_skip. intros _.
  eapply yields_bind; [by apply (transfer_passes_yields _ (v <| reserved := true |>))|].
  intros [l2 [moved|v2 code cause]] [H1 H2]; [|done]. apply yields_skip. intros _. done.
Qed.

(** What a live run leaves: an open session is one that never froze. *)
Definition leaves_live {A} (Q : A → world D → Prop) (out : option LiveSession * stepped A)
    (s : world D) : Prop :=
  leaves Q out.2 s ∧ match out.1 with
                     | Some l => session_of w p l ∧ before s
                     | None => True
                     end.

Lemma checkpoint_live_safe timeout v r :
  committed v = false → Spec (runWorkload r) = Spec w →
  triple whatever before (alone (checkpoint_live stateDir machine mirrored id timeout v r))
    (leaves_live (λ x s, committed x.1.1 = false ∧ moving s)) Safe.
Proof.
  intros Hv Hr. unfold checkpoint_live. rewrite Hr. fold wid.
  apply (alone_bind _ _ _ _ (λ began s, match began with Ok l => session_of w p l | Err _ => True end ∧ before s)).
  { eapply triple_conseq; [apply (on_source (λ s, recorded s ∧ absent s) _ (own w p)
      (λ began h, own w p h ∧ match began with Ok l => session_of w p l | Err _ => True end) (own w p));
      [done|by apply BeginLive_own|]|..].
    - intros s [H1 H2] H3. by apply before_Safe.
    - by intros s (H1 & H2 & H3).
    - intros began s [[H1 H2] [H3 H4]]. done.
    - done. }
  intros [l|err]; [|apply alone_ret; intros s [_ Hs]; split; [by apply (before_fails v)|done]].
  apply triple_pure. intros Hl.
  apply (alone_bind _ _ _ _ (λ v' s, committed v' = false ∧ before s)).
  { destruct (CanPass l); [by apply alone_ret|].
    eapply triple_post; [|apply before_yields; [apply bound_yields|intros HR; routinely routine_bound_downtime]].
    intros v' s [[H1 _] H2]. by rewrite H1. }
  intros v'. apply triple_pure. intros Hv'.
  apply (alone_bind _ _ _ _ (λ out s, in_session (λ x : vars * Z, committed x.1 = false) out ∧ before s)).
  { destruct (CanPass l); [|by apply alone_ret].
    apply before_yields; [by apply precopy_yields|intros HR; routinely routine_precopy]. }
  intros [l' [[v2 moved]|v2 code cause]]; apply triple_pure; intros [Hl' Hc]; cbn in Hl', Hc.
  - eapply alone_bind; [by apply finalize_run_safe|]. intros [[v3 m]|v3 code cause]; apply alone_ret; intros s Hs;
      (split; [exact Hs|done]).
  - apply alone_ret. intros s Hs. split; [by apply (before_fails v2)|done].
Qed.

(** *** The transfer *)

Lemma prepare_yields timeout v w' m : committed v = false →
  yields (prepare_destination (DE := DE) (D := D) machine id timeout v w' m)
    (uncommitted (λ v', committed v' = false ∧ reserved v' = true)).
Proof.
  intros Hv. unfold prepare_destination. destruct (reserved v) eqn:E; [done|].
  repeat (apply yields_expect; [done|intros ?]). apply yields_skip. intros _.
  repeat (apply yields_expect; [done|intros ?]). done.
Qed.

Lemma transfer_yields timeout v r m preCopy : committed v = false →
  yields (transfer_state (DE := DE) (D := D) machine id timeout v r m preCopy)
    (uncommitted (λ v', committed v' = false ∧ reserved v' = true)).
Proof.
  intros Hv. unfold transfer_state. eapply (yields_bind _ _ (λ v', committed v' = false)).
  { destruct (_ =? 0); [done|]. destruct (_ =? 0); [|done]. apply yields_skip. intros _. done. }
  intros v' Hv'. apply yields_expect; [done|]. intros _.
  eapply yields_bind; [by apply prepare_yields|]. intros [v2|v2 code cause] H2; [|done].
  destruct H2 as [H2 H3]. apply yields_expect; [done|]. intros _. apply yields_skip. intros started.
  apply yields_skip. intros [[moved dedup] [[err b]|]]; apply yields_skip; intros ended; [done|].
  repeat (apply yields_expect; [done|intros ?]). done.
Qed.

Lemma transfer_safe timeout v r m preCopy : committed v = false →
  triple whatever moving (alone (transfer_state machine id timeout v r m preCopy))
    (leaves (λ v' s, (committed v' = false ∧ reserved v' = true) ∧ ready s)) Safe.
Proof.
  intros Hv. eapply triple_post; [|apply yields_triple; [by apply transfer_yields|]].
  2: { apply by_routine; [apply moving_calm|apply moving_Safe|]. intros HR. routinely routine_transfer_state. }
  intros [v'|v' code cause] s [H1 H2]; [split; [done|apply H2]|].
  split; [done|]. split; [by apply moving_Safe|]. intros _. apply H2.
Qed.

(** *** The restore *)

Lemma ready_peer {A} (t : thread D (link DE) A) :
  triple whatever ready (alone (on_peer t)) (λ _, ready) Safe.
Proof.
  apply preserves_triple; [|apply ready_Safe].
  apply (guarantees_preserves _ (λ s s', recorded s' = recorded s ∧ agent s' = agent s)).
  - intros s s' [Hr Ha] [H1 H2]. split; [by rewrite Hr|by rewrite Ha].
  - by apply guarantees_zoom.
Qed.

Lemma switch_yields timeout v : committed v = false → reserved v = true →
  yields (switch_over (DE := DE) (D := D) id timeout v)
    (λ r, match r with Next _ => True | Failed v' _ _ => committed v' = false ∧ reserved v' = true end).
Proof.
  intros Hv Hr.
  assert (∀ A B (v : vars) code (t : thread (world D) (moment DE) (result A))
    (k : A → thread (world D) (moment DE) (stepped B)),
    committed v = false → reserved v = true →
    (∀ a, yields (k a) (λ r, match r with Next _ => True | Failed v' _ _ => committed v' = false ∧ reserved v' = true end)) →
    yields (expect v code t k)
      (λ r, match r with Next _ => True | Failed v' _ _ => committed v' = false ∧ reserved v' = true end)) as Hexpect.
  { intros A B v0 code t k H1 H2 Hk. apply yields_skip. intros [a|err]; [apply Hk|done]. }
  unfold switch_over. apply Hexpect; [done..|]. intros _. apply yields_skip. intros started.
  apply Hexpect; [done..|]. intros _. apply yields_skip. intros resumed. apply yields_skip. intros _.
  apply Hexpect; [done..|]. intros _. apply Hexpect; [done..|]. intros session. destruct (negb _); [done|].
  do 3 (apply Hexpect; [done..|]; intros _). done.
Qed.

Lemma switch_safe timeout v : committed v = false → reserved v = true →
  triple whatever ready (alone (switch_over id timeout v)) (leaves (λ _, ready)) Safe.
Proof.
  intros Hv Hr. eapply triple_post; [|apply (yields_triple _ _ _ _ (λ _, ready) _ (switch_yields timeout v Hv Hr))].
  { intros [v'|v' code cause] s [H1 H2]; [exact H2|]. destruct H1 as [H1 H3].
    split; [done|]. split; [by apply ready_Safe|]. intros E. by rewrite H3 in E. }
  assert (∀ A (t : thread (world D) (moment DE) A),
    (Routine holds keeps stateDir id whatever ready → preserves whatever ready t) →
    triple whatever ready (alone t) (λ _, ready) Safe) as Hroutine.
  { intros A t Ht. apply by_routine; [apply ready_calm|apply ready_Safe|exact Ht]. }
  assert (∀ A B v code (t : thread (world D) (moment DE) (result A))
    (k : A → thread (world D) (moment DE) (stepped B)),
    triple whatever ready (alone t) (λ _, ready) Safe →
    (∀ a, triple whatever ready (alone (k a)) (λ _, ready) Safe) →
    triple whatever ready (alone (expect v code t k)) (λ _, ready) Safe) as Hexpect.
  { intros A B v0 code t k Ht Hk. eapply alone_bind; [exact Ht|]. intros [a|err]; [apply Hk|by apply alone_ret]. }
  unfold switch_over. apply Hexpect; [apply Hroutine; intros HR; routinely routine_transition|]. intros _.
  apply (alone_bind _ _ _ _ (λ _, ready)); [apply Hroutine; intros HR; routinely routine_now|]. intros started.
  apply Hexpect; [apply ready_peer|]. intros _.
  apply (alone_bind _ _ _ _ (λ _, ready)); [apply Hroutine; intros HR; routinely routine_now|]. intros resumed.
  apply (alone_bind _ _ _ _ (λ _, ready)); [apply Hroutine; intros HR; routinely routine_note|]. intros _.
  apply Hexpect; [apply Hroutine; intros HR; routinely routine_transition|]. intros _.
  apply Hexpect; [apply ready_peer|]. intros session. destruct (negb _); [by apply alone_ret|].
  do 2 (apply Hexpect; [apply Hroutine; intros HR; routinely routine_transition|]; intros _).
  apply Hexpect; [apply ready_peer|]. intros _. by apply alone_ret.
Qed.

(** *** The end *)

Lemma clean_up_safe r :
  Spec (runWorkload r) = Spec w →
  triple whatever Safe (alone (clean_up digest32 id r)) (λ _, Safe) Safe.
Proof.
  intros Hr. unfold clean_up. rewrite Hr. fold wid.
  apply (alone_bind _ _ _ _ (λ _, Safe)); [apply Safe_routine; intros HR; routinely routine_transition|].
  intros _. apply (alone_bind _ _ _ _ (λ _, Safe)); [apply Safe_routine; intros HR; routinely routine_outcome|].
  intros _. apply (alone_bind _ _ _ _ (λ _, Safe)); [apply stopSource_safe|]. intros stopped.
  apply Safe_routine. intros HR. apply preserves_bind.
  - eapply routine_update; [eassumption|]. intros t v v' [= <-]. by destruct stopped.
  - intros [[]|]; [|routinely routine_forceComplete].
    apply preserves_bind; [routinely routine_transition|]. intros [[]|]; [exact I|routinely routine_forceComplete].
Qed.

(** A failure on the way. *)
Lemma fail_ends v code cause :
  triple whatever (λ s, committed v = false ∧ Safe s ∧ (reserved v = false → absent s))
    (alone (fail digest32 has_network id v code cause)) (λ _, Safe) Safe.
Proof.
  apply triple_pure. intros Hv. eapply triple_conseq; [by apply (fail_safe anyhow)| | |done].
  - intros s [H1 H2]. done.
  - by intros ? s [? _].
Qed.

Lemma abort_ends v code cause l :
  committed v = false → session_of w p l →
  triple whatever before
    (alone (fail digest32 has_network id v code cause ≫= λ _, on_agent (Abort stateDir l) ≫= λ _, mret tt))
    (λ _, Safe) Safe.
Proof.
  intros Hv Hl. apply (alone_bind _ _ _ _ (λ _, SafeX absent)).
  - eapply triple_pre; [|apply fail_safe; [apply absent_calm|done|done]].
    intros s Hs. split; [|intros _; apply Hs]. split; [by apply before_Safe|apply Hs].
  - intros _. apply (alone_bind _ _ _ _ (λ _, Safe)); [|intros _; by apply alone_ret].
    eapply triple_conseq; [apply (on_source (frame_absent anyhow) (Abort stateDir l) (src w p)
      (λ _, src w p) (src w p))|..].
    + by intros h s (H1 & H2 & H3).
    + apply Abort_src, Hl.
    + intros s H1 H2. by destruct (frame_absent_Safe anyhow s H1 H2) as [[? _] _].
    + intros s [(H1 & H2 & _) H3]. done.
    + intros r s [H1 H2]. by destruct (frame_absent_Safe anyhow s H1 H2) as [[? _] _].
    + done.
Qed.

Lemma run_stages_safe timeout v r :
  committed v = false → Spec (runWorkload r) = Spec w →
  triple whatever before (alone (run_stages stateDir machine mirrored id timeout v r))
    (leaves_live (λ _, ready)) Safe.
Proof.
  intros Hv Hr. unfold run_stages.
  apply (alone_bind _ _ _ _ (leaves_live (λ x s, committed x.1.1 = false ∧ moving s))).
  { destruct (decide _); [by apply checkpoint_live_safe|].
    eapply alone_bind; [by apply checkpoint_cold_safe|]. intros out. apply alone_ret. intros s Hs. by split. }
  intros [open [[[v' m] preCopy]|v' code cause]].
  - apply triple_pre with (P' := λ s, committed v' = false ∧ moving s); [by intros s [H _]|].
    apply triple_pure. intros Hv'.
    eapply alone_bind; [by apply transfer_safe|]. intros [v2|v2 code cause].
    + apply triple_pure. intros [H1 H2]. eapply alone_bind; [by apply switch_safe|].
      intros out. apply alone_ret. intros s Hs. by split.
    + apply alone_ret. intros s Hs. by split.
  - apply alone_ret. intros s Hs. exact Hs.
Qed.

Lemma run_safe timeout :
  triple whatever before
    (alone (run_migration stateDir machine mirrored digest32 has_network id timeout)) (λ _, Safe) Safe.
Proof.
  unfold run_migration. eapply alone_bind; [apply discover_safe|].
  intros [[[[v m] w'] target]|v code cause]; [|by apply fail_ends].
  apply triple_pure. cbn [fst snd]. intros [Hv Hw'].
  eapply alone_bind; [apply before_yields; [by apply validate_yields|intros HR; routinely routine_validate]|].
  intros [[v' r]|v' code cause]; apply triple_pure.
  - intros [Hv' Hr]. cbn in Hv', Hr. assert (Spec (runWorkload r) = Spec w) as Hr' by congruence.
    eapply alone_bind; [by apply run_stages_safe|].
    intros [[l|] [v2|v2 code cause]].
    + eapply triple_pre; [|by apply clean_up_safe]. intros s [H _]. by apply ready_Safe.
    + apply triple_pre with (P' := λ s, (committed v2 = false ∧ session_of w p l) ∧ before s).
      { intros s [[H1 _] [H2 H3]]. done. }
      apply triple_pure. intros [H1 H2]. by apply abort_ends.
    + eapply triple_pre; [|by apply clean_up_safe]. intros s [H _]. by apply ready_Safe.
    + eapply triple_pre; [|by apply fail_ends]. by intros s [H _].
  - intros Hv'. eapply triple_pre; [|by apply fail_ends]. intros s Hs. by apply (before_fails v').
Qed.
End safe.
