(* ===== verification/MigrationKept.v ===== *)
(** * What a migration keeps

    A condition that a durable condition of the source or a commit of the
    destination makes true survives a migration, as long as the source is
    only stopped after that commit.  This holds at every moment of a life. *)
From S2P Require Import Prelude GoStr Model Workload Prog Conc Network Session Host Runtime Restorer Checkpoint Peer Migration CheckpointSafe Durable MigrationHost Routine MigrationSafe.

Local Open Scope string_scope.
Local Open Scope list_scope.
Local Open Scope Z_scope.

(** ** The interface *)

(** [P] also survives the calls on the machine that change the workload, and
    a restore on the destination. *)
Class Moves {D DE} `{!Peer D DE} (holds keeps : string → D → Prop) (stateDir : path)
    (machine : string) (mirrored : bool) (id : string) (okE : moment DE → Prop)
    (P : world D → Prop) := {
  #[global] moves_routine :: Routine holds keeps stateDir id okE P;
  moves_Resume i : preserves okE P (on_agent (Resume i));
  moves_Create i o : preserves okE P (on_agent (CreateCheckpoint stateDir machine mirrored i o));
  moves_Finalize l : preserves okE P (on_agent (Finalize stateDir machine mirrored l));
  moves_Abort l : preserves okE P (on_agent (Abort stateDir l));
  moves_Open : preserves okE P (on_agent OpenManager);
  moves_Restore timeout : preserves okE P (on_peer (RestorePeer id timeout));
}.

Section kept.
Context {D DE : Type} `{HP : !Peer D DE} {holds keeps : string → D → Prop}
        `{HL : !PeerLaws D DE holds keeps}.
Context (stateDir : path) (machine : string) (mirrored : bool) (digest32 : string → Z)
        (has_network : bool) (id : string) (w : Workload) (p : ProcessState).
Let wid : string := SpecID (Spec w).
#[local] Abbreviation whatever := (any_moment (DE := DE)).

Section moves.
Context (okE : moment DE → Prop) (P Pc : world D → Prop)
        `{HM : !Moves holds keeps stateDir machine mirrored id okE P}
        `{HMc : !Moves holds keeps stateDir machine mirrored id okE Pc}.
(** Where stopping is allowed, and that a commit allows it. *)
Context (Pc_P : ∀ s, Pc s → P s) (Pc_stop : ∀ i, preserves okE Pc (on_agent (Stop i)))
        (P_commit : ∀ s, P s → keeps id (destination s) → Pc s).

Let HR : Routine holds keeps stateDir id okE P := moves_routine.
Let HRc : Routine holds keeps stateDir id okE Pc := moves_routine.

(** *** Undoing *)

Lemma moves_resume_source i : preserves okE P (resume_source i).
Proof.
  unfold resume_source. apply preserves_bind; [routinely routine_get_workload|].
  intros []; [|exact I]. destruct (decide _); [exact I|]. destruct (Process _); [|exact I].
  apply preserves_bind; [apply moves_Resume|]. intros []; exact I.
Qed.

Lemma moves_undo v m detail : preserves okE P (undo digest32 has_network id v m detail).
Proof.
  unfold undo. apply preserves_bind; [routinely routine_rollbackDestination|]. intros [confirmed errs].
  apply preserves_bind; [destruct (_ && _); [routinely routine_holds|exact I]|]. intros copy.
  apply preserves_bind; [destruct (_ && _); [apply moves_resume_source|exact I]|]. intros [resumed rerrs].
  apply preserves_bind; [destruct resumed; [exact I|routinely routine_running]|]. intros running.
  apply preserves_bind; [destruct running; [routinely routine_restoreSourceNetwork|exact I]|]. intros _.
  apply preserves_bind; [routinely routine_note|]. intros _.
  apply preserves_bind; [routinely routine_outcome|]. intros _. exact I.
Qed.

Lemma moves_handleFailure v code cause downtime : committed v = false →
  preserves okE P (handleFailure digest32 has_network id v code cause downtime).
Proof.
  intros Hv. unfold handleFailure. apply preserves_bind; [routinely routine_get_record|].
  intros [m|]; [|exact I]. destruct (terminal _); [exact I|]. apply preserves_bind.
  { eapply routine_note; [apply moves_routine|]. intros t r. by destruct (decide _). }
  intros _. rewrite Hv. apply preserves_bind.
  { destruct (decide _); [apply preserves_bind; [routinely routine_event|]; intros; exact I|].
    destruct (CanTransition _ _); [apply preserves_bind; [routinely routine_persist_stage|]; intros; exact I|].
    destruct (CanTransition _ _); [apply preserves_bind; [routinely routine_transition|]; intros; exact I|].
    exact I. }
  intros preFailed. apply preserves_bind; [routinely routine_get_record|]. intros current.
  apply preserves_bind; [apply moves_undo|]. intros u. destruct preFailed; [exact I|].
  routinely routine_settle.
Qed.

Lemma moves_handleCancellation v cause downtime : committed v = false →
  preserves okE P (handleCancellation digest32 has_network id v cause downtime).
Proof.
  intros Hv. unfold handleCancellation. apply preserves_bind; [routinely routine_get_record|].
  intros [m|]; [|exact I]. destruct (terminal _); [exact I|]. rewrite Hv.
  apply preserves_bind; [routinely routine_note|]. intros _. apply preserves_bind.
  { destruct (decide _); [routinely routine_event|].
    destruct (CanTransition _ _); [routinely routine_persist_stage|exact I]. }
  intros _. apply preserves_bind; [routinely routine_get_record|]. intros current.
  apply preserves_bind; [apply moves_undo|]. intros u. routinely routine_settle.
Qed.

Lemma moves_fail v code cause : committed v = false →
  preserves okE P (fail digest32 has_network id v code cause).
Proof.
  intros Hv. unfold fail. apply preserves_bind; [routinely routine_observe|].
  intros [[] downtime]; [by apply moves_handleCancellation|by apply moves_handleFailure].
Qed.

(** *** The end *)

Lemma stopSource_kept n i : ∀ last, preserves okE Pc (stopSourceWithRetry n i last).
Proof.
  induction n as [|n IH]; intros last; cbn [stopSourceWithRetry]; [exact I|].
  apply preserves_bind; [apply Pc_stop|]. intros []; [exact I|apply IH].
Qed.

Lemma moves_clean_up r : preserves okE Pc (clean_up digest32 id r).
Proof.
  unfold clean_up. apply preserves_bind; [routinely routine_transition|]. intros _.
  apply preserves_bind; [routinely routine_outcome|]. intros _.
  apply preserves_bind; [apply stopSource_kept|]. intros stopped. apply preserves_bind.
  - eapply routine_update; [exact HRc|]. intros t v v' [= <-]. by destruct stopped.
  - intros [[]|]; [|routinely routine_forceComplete].
    apply preserves_bind; [routinely routine_transition|]. intros [[]|]; [exact I|routinely routine_forceComplete].
Qed.

(** *** Recovering *)

Lemma ask_kept {A} (t : thread D (link DE) A) Q :
  guarantees (calm_peer (holds := holds) (keeps := keeps) id) t →
  triple (λ _, True) (λ _, True) (alone t) Q (λ _, True) →
  triple okE P (alone (on_peer t)) (λ r s, P s ∧ Q r (destination s)) P.
Proof.
  intros Hg Ht. eapply triple_conseq; [apply triple_and|..].
  - apply (preserves_triple okE P P); [|done]. by apply routine_peer.
  - eapply triple_pre; [|apply (zoom_triple _ _ _ okE (λ _, True) (λ _, True) t (λ _, True) Q (λ _, True))];
      done.
  - done.
  - intros a s [H1 [_ H2]]. done.
  - by intros s [H _].
Qed.

Lemma by_moves {A} (t : thread (world D) (moment DE) A) :
  preserves okE P t → triple okE P (alone t) (λ _, P) P.
Proof. intros Ht. by apply preserves_triple. Qed.

Lemma recoverOne_kept : triple okE P (alone (recoverOne digest32 has_network id)) (λ _, P) P.
Proof.
  unfold recoverOne. apply (alone_bind _ _ _ _ (λ _, P)); [apply by_moves; routinely routine_get_record|].
  intros [m|]; [|by apply alone_ret]. destruct (terminal _); [by apply alone_ret|].
  apply (alone_bind _ _ _ _ (λ _, P)); [apply by_moves; routinely routine_observe|]. intros [fact t]. cbn zeta.
  apply (alone_bind _ _ _ _ (λ _, P)); [apply by_moves; routinely routine_observe|]. intros client.
  apply (alone_bind _ _ _ _ (λ probed s, P s ∧
    (probed = Ok (Some SessionCommitted) → keeps id (destination s)))).
  { destruct client; [|apply alone_ret; intros s Hs; by split].
    eapply alone_bind; [apply ask_kept; [by apply calm_session_call|apply cleanup_learns]|].
    intros [s'|err]; [|destruct (decide _)]; apply alone_ret; intros s [H1 H2]; (split; [done|]); [|done..].
    intros [= Hs']. by apply H2. }
  intros [[[]|]|err]; try (eapply triple_pre; [|apply by_moves, preserves_bind;
    [first [exact I|routinely routine_event]|intros _; by apply moves_handleFailure]]; by intros s [H _]).
  eapply triple_conseq; [apply (preserves_triple okE Pc Pc)|..].
  - apply preserves_bind; [apply stopSource_kept|]. intros stopped. routinely routine_forceComplete.
  - done.
  - intros s [H1 H2]. by apply P_commit; [|apply H2].
  - intros ? s. apply Pc_P.
  - apply Pc_P.
Qed.

Lemma restart_kept : triple okE P (alone (restart digest32 has_network id)) (λ _, P) P.
Proof.
  unfold restart. apply (alone_bind _ _ _ _ (λ _, P)); [apply by_moves, moves_Open|].
  intros []; [apply recoverOne_kept|by apply alone_ret].
Qed.

(** *** Running *)

Lemma moves_expect {A B} v code (t : thread (world D) (moment DE) (result A))
    (k : A → thread (world D) (moment DE) (stepped B)) :
  preserves okE P t → (∀ a, preserves okE P (k a)) → preserves okE P (expect v code t k).
Proof. intros Ht Hk. apply preserves_bind; [done|]. intros []; [apply Hk|exact I]. Qed.

Lemma moves_checkpoint_cold v r : preserves okE P (checkpoint_cold stateDir machine mirrored id v r).
Proof.
  unfold checkpoint_cold. apply preserves_bind; [routinely routine_bound_downtime|]. intros v'.
  apply preserves_bind; [apply moves_Create|]. intros []; exact I.
Qed.

Lemma moves_finalize_run v r l : preserves okE P (finalize_run stateDir machine mirrored id v r l).
Proof.
  unfold finalize_run. apply preserves_bind; [routinely routine_bound_downtime|]. intros v'.
  apply preserves_bind; [apply moves_Finalize|]. intros [l' []]; [exact I|..];
    (destruct (_ =? 0); [exact I|]; destruct (_ =? 0); [|exact I];
     apply preserves_bind; [routinely routine_noteDowntimeStart|]; intros _; exact I).
Qed.

Lemma moves_checkpoint_live timeout v r :
  preserves okE P (checkpoint_live stateDir machine mirrored id timeout v r).
Proof.
  unfold checkpoint_live. apply preserves_bind; [apply routine_BeginLive|]. intros [l|err]; [|exact I].
  apply preserves_bind; [destruct (CanPass l); [exact I|routinely routine_bound_downtime]|]. intros v'.
  apply preserves_bind; [destruct (CanPass l); [routinely routine_precopy|exact I]|].
  intros [l' [[v2 moved]|v2 code cause]]; [|exact I].
  apply preserves_bind; [apply moves_finalize_run|]. intros []; exact I.
Qed.

(** A run that gets through its switch has a committed destination. *)
Lemma switch_kept timeout v :
  triple okE P (alone (switch_over id timeout v))
    (λ r s, P s ∧ match r with Next _ => keeps id (destination s) | Failed _ _ _ => True end) P.
Proof.
  assert (∀ A v code (t : thread (world D) (moment DE) (result A))
      (k : A → thread (world D) (moment DE) (stepped vars)),
    triple okE P (alone t) (λ _, P) P →
    (∀ a, triple okE P (alone (k a)) (λ r s, P s ∧
       match r with Next _ => keeps id (destination s) | Failed _ _ _ => True end) P) →
    triple okE P (alone (expect v code t k)) (λ r s, P s ∧
       match r with Next _ => keeps id (destination s) | Failed _ _ _ => True end) P) as Hexpect.
  { intros A v0 code t k Ht Hk. eapply alone_bind; [exact Ht|]. intros [a|err]; [apply Hk|by apply alone_ret]. }
  unfold switch_over. apply Hexpect; [apply by_moves; routinely routine_transition|]. intros _.
  apply (alone_bind _ _ _ _ (λ _, P)); [apply by_moves; routinely routine_now|]. intros started.
  apply Hexpect; [apply by_moves, moves_Restore|]. intros _.
  apply (alone_bind _ _ _ _ (λ _, P)); [apply by_moves; routinely routine_now|]. intros resumed.
  apply (alone_bind _ _ _ _ (λ _, P)); [apply by_moves; routinely routine_note|]. intros _.
  apply Hexpect; [apply by_moves; routinely routine_transition|]. intros _.
  apply Hexpect; [apply by_moves, routine_peer; by apply calm_session_call|]. intros session.
  destruct (negb _); [by apply alone_ret|].
  do 2 (apply Hexpect; [apply by_moves; routinely routine_transition|]; intros _).
  eapply alone_bind; [apply ask_kept; [by apply calm_session_call|apply commit_learns]|].
  intros [s'|err]; apply alone_ret; intros s [H1 H2]; done.
Qed.

Lemma run_stages_kept timeout v r :
  triple okE P (alone (run_stages stateDir machine mirrored id timeout v r))
    (λ out s, P s ∧ match out.2 with Next _ => keeps id (destination s) | Failed _ _ _ => True end) P.
Proof.
  unfold run_stages. apply (alone_bind _ _ _ _ (λ _, P)).
  { apply by_moves. destruct (decide _); [apply moves_checkpoint_live|].
    apply preserves_bind; [apply moves_checkpoint_cold|]. intros; exact I. }
  intros [open [[[v' m] preCopy]|v' code cause]]; [|by apply alone_ret].
  apply (alone_bind _ _ _ _ (λ _, P)); [apply by_moves; routinely routine_transfer_state|].
  intros [v2|v2 code cause]; [|by apply alone_ret].
  eapply alone_bind; [apply switch_kept|]. intros out. by apply alone_ret.
Qed.

(** Both what keeps the run safe and what it keeps. *)
Lemma with_safe {A} (t : thread (world D) (moment DE) A) B Q Q' :
  triple whatever B (alone t) Q (Safe id w p (holds := holds)) → triple okE P (alone t) Q' P →
  triple okE (λ s, B s ∧ P s) (alone t) (λ r s, Q r s ∧ Q' r s) P.
Proof.
  intros H1 H2 s es Hes [HB HPs]. specialize (H2 s es Hes HPs).
  specialize (H1 s es (Forall_true _ _ (λ _, I)) HB).
  destruct (alone t s es) as [[[r|] s'] es']; [|done]. destruct H1 as [? _], H2 as [? ?]. done.
Qed.

Lemma run_kept timeout :
  triple okE (λ s, before id w p (holds := holds) s ∧ P s)
    (alone (run_migration stateDir machine mirrored digest32 has_network id timeout)) (λ _, P) P.
Proof.
  unfold run_migration.
  eapply alone_bind; [apply with_safe; [apply (discover_safe (keeps := keeps) stateDir)|apply by_moves; routinely routine_discover]|].
  intros [[[[v m] w'] target]|v code cause].
  2: { apply triple_pre with (P' := λ s, committed v = false ∧ P s); [by intros s [[H _] ?]|].
       apply triple_pure. intros Hv. by apply by_moves, moves_fail. }
  apply triple_pre with (P' := λ s, (committed v = false ∧ Spec w' = Spec w) ∧
    before id w p (holds := holds) s ∧ P s); [by intros s [[H1 H2] H3]|].
  apply triple_pure. intros [Hv Hw'].
  eapply alone_bind; [apply with_safe; [apply (before_yields (keeps := keeps) stateDir); [by apply validate_yields|
    intros HR'; routinely routine_validate]|apply by_moves; routinely routine_validate]|].
  intros [[v' r]|v' code cause]; cbn [uncommitted fst snd].
  - apply triple_pre with (P' := λ s, (committed v' = false ∧ runWorkload r = w') ∧
      before id w p (holds := holds) s ∧ P s); [by intros s [[H1 H2] H3]|].
    apply triple_pure. intros [Hv' Hr].
    eapply alone_bind; [apply with_safe; [apply (run_stages_safe (keeps := keeps)); [done|congruence]|apply run_stages_kept]|].
    intros [open [v2|v2 code cause]]; cbn [snd].
    + replace (match open with Some _ | None => clean_up digest32 id r end) with (clean_up (DE := DE) (D := D) digest32 id r)
        by by destruct open.
      eapply triple_conseq; [apply (preserves_triple okE Pc Pc); [apply moves_clean_up|done]|..].
      * intros s (_ & H1 & H2). by apply P_commit.
      * intros ? s. apply Pc_P.
      * apply Pc_P.
    + apply triple_pre with (P' := λ s, committed v2 = false ∧ P s); [by intros s [[[H _] _] [? _]]|].
      apply triple_pure. intros Hv2. apply by_moves. destruct open as [l|]; [|by apply moves_fail].
      apply preserves_bind; [by apply moves_fail|]. intros _.
      apply preserves_bind; [apply moves_Abort|]. intros; exact I.
  - apply triple_pre with (P' := λ s, committed v' = false ∧ P s); [by intros s [[H _] ?]|].
    apply triple_pure. intros Hv'. by apply by_moves, moves_fail.
Qed.
End moves.

(** ** Instances *)

Section durable.
Context (okK : kernel → Prop) (Pa : host → Prop) `{HD : !Durable okK Pa} (kept : D → Prop).
Context (kept_calm : ∀ d d', calm_peer (holds := holds) (keeps := keeps) id d d' → kept d → kept d')
        (kept_answers : ∀ e q d, kept d → kept (answers e q d).1).

Definition admits (e : moment DE) : Prop := okK (ker e).
Definition durably (s : world D) : Prop := Pa (agent s) ∨ kept (destination s).

Lemma durably_agent {A} (t : call A) : preserves okK Pa t → preserves admits durably (on_agent t).
Proof.
  apply preserves_zoom; [done|]. intros h s Hh [H|H]; [left; by apply Hh|by right].
Qed.

#[local] Instance durably_routine : Routine holds keeps stateDir id admits durably.
Proof.
  split.
  - intros A f. apply durably_agent, durable_look, HD.
  - intros err. apply durably_agent, durable_succeeds, HD.
  - intros A t. apply durably_agent, durable_network, HD.
  - intros i o. apply durably_agent, durable_BeginLive, HD.
  - intros l. apply durably_agent, durable_Pass, HD.
  - done.
  - done.
  - intros A t Ht. apply (guarantees_preserves _ (λ s s', agent s' = agent s ∧
      (kept (destination s) → kept (destination s')))).
    + intros s s' [H1 H2] [H|H]; [left; by rewrite H1|right; by apply H2].
    + revert Ht. apply guarantees_lift. intros d s Hd. split; [done|]. by apply kept_calm.
Qed.

#[local] Instance durably_moves : Moves holds keeps stateDir machine mirrored id admits durably.
Proof.
  split.
  - apply durably_routine.
  - intros i. apply durably_agent, durable_Resume, HD.
  - intros i o. apply durably_agent, durable_CreateCheckpoint, HD.
  - intros l. apply durably_agent, durable_Finalize, HD.
  - intros l. apply durably_agent, durable_Abort, HD.
  - apply durably_agent, durable_OpenManager, HD.
  - intros timeout. apply (guarantees_preserves _ (λ s s', agent s' = agent s ∧
      (kept (destination s) → kept (destination s')))).
    + intros s s' [H1 H2] [H|H]; [left; by rewrite H1|right; by apply H2].
    + apply (guarantees_lift _ _ _ _ (λ d d', kept d → kept d')); [done|].
      apply guarantees_bind; [|done]. apply do_attempts_guarantees; [by intros d|]. intros e d. apply kept_answers.
Qed.
End durable.
End kept.
