(* ===== verification/MigrationLife.v ===== *)
(** * The life of a migration

    A migration lives from its run, through restarts of the agent at any
    moment, to its end.  At every moment of that life the workload executes
    in at most one place, and the place that has it is never given up before
    the other one has it for good. *)
From S2P Require Import Prelude GoStr Model Workload Prog Conc Network Session Host Runtime Restorer Checkpoint SessionLife Peer PeerServer Migration CheckpointSafe Durable MigrationHost Routine MigrationSafe MigrationKept.

Local Open Scope string_scope.
Local Open Scope list_scope.
Local Open Scope Z_scope.

Section life.
Context {D DE : Type} `{HP : !Peer D DE} {holds keeps : string → D → Prop}
        `{HL : !PeerLaws D DE holds keeps}.
Context (stateDir : path) (machine : string) (mirrored : bool) (digest32 : string → Z)
        (has_network : bool) (id : string) (timeout : Z) (w : Workload) (p : ProcessState).

(** The moments of a life whose answers are among [okE]: the run is cut off
    anywhere, the agent restarts and is cut off anywhere again, and the
    destination drifts on its own without starting or losing anything. *)
Inductive life (okE : moment DE → Prop) (s0 : world D) : world D → Prop :=
| life_run es :
    Forall okE es →
    life okE s0
      (run (run_migration stateDir machine mirrored digest32 has_network id timeout) es s0).1.2
| life_restart s es :
    life okE s0 s → Forall okE es →
    life okE s0 (run (restart digest32 has_network id) es s).1.2
| life_drift s d :
    life okE s0 s → calm_peer (holds := holds) (keeps := keeps) id (destination s) d →
    life okE s0 (s <| destination := d |>).

(** Where it begins: an admitted migration of a registered workload that has
    a process, and no copy on the destination. *)
Definition admitted_start (s : world D) : Prop :=
  (∃ m, records s !! id = Some m ∧ WorkloadID m = SpecID (Spec w)) ∧
  workloads (agent s) !! SpecID (Spec w) = Some w ∧ Process w = Some p ∧
  filed (agent s) ∧ ¬ holds id (destination s).

Lemma start_before s : admitted_start s → before id w p (holds := holds) s.
Proof.
  intros ((m & Hm & Hid) & Hw & Hp & _ & Hh). split_and!; [|by exists w|done].
  intros m' Hm'. congruence.
Qed.

(** What a triple says of the state a cut-off run leaves. *)
Lemma triple_final {A} (okE : moment DE → Prop) (P : world D → Prop) (t : thread (world D) (moment DE) A)
    (C : world D → Prop) es s :
  triple okE P (alone t) (λ _, C) C → Forall okE es → P s → C (run t es s).1.2.
Proof.
  intros Ht Hes Hs. specialize (Ht s es Hes Hs). unfold alone in Ht.
  destruct (run t es s) as [[[r|] s'] es']; [apply Ht|exact Ht].
Qed.

#[local] Abbreviation whatever := (any_moment (DE := DE)).

(** ** One place *)

Definition files : world D → Prop := durably filed (λ _, False).

Lemma files_stop i : preserves (admits any_answer) files (on_agent (DE := DE) (Stop i)).
Proof. apply durably_agent, (durable_Stop any_answer filed). Qed.

Lemma files_moves : Moves holds keeps stateDir machine mirrored id (admits (DE := DE) any_answer) files.
Proof. by apply durably_moves; [apply filed_durable| |]. Qed.

Lemma life_safe s0 s :
  admitted_start s0 → life whatever s0 s → Safe id w p (holds := holds) s ∧ files s.
Proof.
  intros H0 Hl. pose proof (start_before s0 H0) as Hb. pose proof files_moves as HM.
  assert (files s0) as Hf by (left; apply H0).
  induction Hl as [es Hes|s es Hl [IH1 IH2] Hes|s d Hl [IH1 IH2] Hd].
  - split.
    + apply (triple_final whatever (before id w p (holds := holds)) _ (Safe id w p (holds := holds)));
        [by apply (run_safe (keeps := keeps))|done..].
    + apply (triple_final (admits any_answer) (λ s, before id w p (holds := holds) s ∧ files s) _ files);
        [|done..].
      eapply run_kept; [exact HM|exact HM|done|apply files_stop|done].
  - split.
    + apply (triple_final whatever (λ s, filed (agent s) ∧ Safe id w p (holds := holds) s) _
        (Safe id w p (holds := holds))); [by apply (restart_safe (keeps := keeps) stateDir)|done|].
      split; [by destruct IH2|exact IH1].
    + apply (triple_final (admits any_answer) files _ files); [|done..].
      eapply restart_kept; [exact HM|exact HM|done|apply files_stop|done].
  - split; [|exact IH2]. destruct IH1 as (H1 & H2 & H3). split_and!; [done|done|].
    intros Hh. by apply H3, Hd.
Qed.

(** C1.  No split brain, against a destination that keeps its promises.  Take
    a workload with a process whose migration was admitted, to a destination
    that satisfies [PeerLaws], run the migration, and cut it off at any moment;
    restart the agent any number of times, each time cut off at any moment;
    let every call on the source fail as it likes, and let requests and answers
    get lost.  Whenever the destination holds a copy in the sense of the
    promises, every process of the source's group is stopped.  For
    the peer API the copy is that of [copy_of]. *)
Theorem no_split_brain (s0 s : world D) :
  admitted_start s0 → life whatever s0 s →
  holds id (destination s) → all_frozen (PGID p) true (agent s).
Proof.
  intros H0 Hl Hh. destruct (life_safe s0 s H0 Hl) as [(_ & _ & H) _]. by apply H.
Qed.

(** ** No place given up *)

Definition spared : moment DE → Prop := admits (spares p).
Definition survives : world D → Prop := durably (lives p) (keeps id).
Definition handed_over : world D → Prop := durably (λ _, False) (keeps id).

#[local] Instance never_durable : Durable (spares p) (λ _, False).
Proof. by split. Qed.

Lemma keeps_stable :
  (∀ d d', calm_peer (holds := holds) (keeps := keeps) id d d' → keeps id d → keeps id d') ∧
  (∀ e q d, keeps id d → keeps id (answers e q d).1).
Proof. split; [by intros d d' [_ ?]|]. intros e q d. apply kept_for_good. Qed.

Lemma survives_moves : Moves holds keeps stateDir machine mirrored id spared survives.
Proof. apply durably_moves; [apply lives_durable|apply keeps_stable..]. Qed.
Lemma handed_over_moves : Moves holds keeps stateDir machine mirrored id spared handed_over.
Proof. apply durably_moves; [apply never_durable|apply keeps_stable..]. Qed.

Lemma handed_over_stop i : preserves spared handed_over (on_agent (Stop i)).
Proof.
  apply (guarantees_preserves _ (λ s s', destination s' = destination s)).
  - intros s s' Hd [[]|H]. right. by rewrite Hd.
  - by apply guarantees_zoom.
Qed.

Lemma life_survives (s0 s : world D) :
  admitted_start s0 → lives p (agent s0) → life spared s0 s → survives s.
Proof.
  intros H0 Hp Hl. pose proof (start_before s0 H0) as Hb.
  pose proof survives_moves as HM. pose proof handed_over_moves as HMc.
  assert (∀ s, handed_over s → survives s) as Hhs by (intros s' [[]|H]; by right).
  assert (∀ s, survives s → keeps id (destination s) → handed_over s) as Hsh by (intros; by right).
  induction Hl as [es Hes|s es Hl IH Hes|s d Hl IH Hd].
  - apply (triple_final spared (λ s, before id w p (holds := holds) s ∧ survives s) _ survives);
      [|done|by split; [|left]].
    eapply run_kept; [exact HM|exact HMc|exact Hhs|apply handed_over_stop|exact Hsh].
  - apply (triple_final spared survives _ survives); [|done..].
    eapply restart_kept; [exact HM|exact HMc|exact Hhs|apply handed_over_stop|exact Hsh].
  - destruct IH as [IH|IH]; [by left|right]. by apply Hd.
Qed.

Lemma life_whatever (s0 s : world D) okE : life okE s0 s → life whatever s0 s.
Proof.
  induction 1; [apply life_run|apply life_restart|apply life_drift]; try done; by apply Forall_true.
Qed.

(** C2.  The workload is never lost.  Take the same life, on a source whose
    process does not end by itself, and against a destination that keeps the
    promises of [PeerLaws].  At every moment the process still exists on the
    source and the record of the workload names it, or the destination has
    committed its copy. *)
Theorem source_kept (s0 s : world D) :
  admitted_start s0 → lives p (agent s0) → life spared s0 s →
  (lives p (agent s) ∧
   ∃ v, workloads (agent s) !! SpecID (Spec w) = Some v ∧ Spec v = Spec w ∧ Process v = Some p) ∨
  keeps id (destination s).
Proof.
  intros H0 Hp Hl. destruct (life_survives s0 s H0 Hp Hl) as [Hlives|Hk]; [left|by right].
  split; [done|]. destruct (life_safe s0 s H0 (life_whatever s0 s _ Hl)) as [(_ & Hsrc & _) _].
  destruct Hsrc as (v & Hv & Hs & [[_ Hg]|Hq]); [by destruct Hg|by exists v].
Qed.
End life.

(** ** Two machines *)

Section machines.
Context {B BE : Type} `{Bk : !Backend B BE} (live issued : B → string → Prop)
        `{HR : !RestoreLaws (BE := BE) live issued}.
Context (organizationID : string) (has_meter has_watcher : bool) (url_Parse : string → result URL).
Context (stateDir : path) (machine : string) (mirrored : bool) (digest32 : string → Z)
        (has_network : bool).

#[local] Instance this_peer : Peer (peer_state live issued) (nat → answer (BE := BE)) :=
  server_peer live issued organizationID has_meter has_watcher url_Parse machine.
#[local] Instance this_laws : PeerLaws (peer_state live issued) (nat → answer (BE := BE))
    (copy_of live issued machine) (committed_of live issued machine) :=
  server_laws live issued organizationID has_meter has_watcher url_Parse machine.

End machines.

(** ** A migration from one machine to another *)

Definition demo_source : Workload := demo_workload (Some demo_process) WorkloadRunning.

Definition demo_request : CreateRequest := {|
  RequestedWorkload := "w-1"; RequestedKey := "";
  RequestedDestination := {| DestMachineID := ""; AgentURL := "https://b"; ServerName := ""; Route := "";
                             RelayEndpoint := ""; RelayTicket := "" |};
  RequestedMode := ""; RequestedPasses := 0 |}.

Definition demo_world : world (peer_state runs_copy numbered_restore) := {|
  agent := demo_host; destination := exist _ empty_server empty_sound;
  records := {["mig-1" := new_migration "mig-1" "m-1" 5 demo_source demo_request MigrationCold]};
  freezes := ∅ |}.

(** Everything works on both machines. *)
Definition calm_moment : moment (nat → answer (BE := bool)) := {|
  ker := willing;
  wire := {| reached := true; heard := true; garbled := false; expired := false; remote := λ _, fine |};
  stored_ok := true; cancelled := false; machine_of := "m-2";
  report := {| Compatible := true; Issues := []; CheckedAt := 0 |}; turn := 0; gives_up := false |}.

#[local] Instance demo_peer : Peer (peer_state runs_copy numbered_restore) (nat → answer (BE := bool)) :=
  server_peer runs_copy numbered_restore "org" true false demo_parse "m-1".
#[local] Instance demo_laws :
    PeerLaws (peer_state runs_copy numbered_restore) (nat → answer (BE := bool))
      (copy_of runs_copy numbered_restore "m-1") (committed_of runs_copy numbered_restore "m-1") :=
  server_laws runs_copy numbered_restore "org" true false demo_parse "m-1".

(** The migration after [n] of its actions. *)
Definition demo_moment (n : nat) : world (peer_state runs_copy numbered_restore) :=
  (run (run_migration ["var"] "m-1" false (λ _, 0) false "mig-1" hour) (replicate n calm_moment)
     demo_world).1.2.

Lemma demo_start :
  admitted_start (holds := copy_of runs_copy numbered_restore "m-1") "mig-1" demo_source demo_process demo_world.
Proof.
  split; [eexists; split; [vm_compute; reflexivity|reflexivity]|].
  split; [vm_compute; reflexivity|]. split; [reflexivity|]. split.
  - intros k v Hv. cbn in Hv. by apply lookup_singleton_Some in Hv as [<- <-].
  - by intros (x & Hx & _).
Qed.

Lemma demo_life okE n :
  okE calm_moment →
  life (holds := copy_of runs_copy numbered_restore "m-1")
    (keeps := committed_of runs_copy numbered_restore "m-1")
    ["var"] "m-1" false (λ _, 0) false "mig-1" hour okE demo_world (demo_moment n).
Proof. intros He. apply life_run. by apply Forall_replicate. Qed.

(** The session of the transfer just after its restore. *)
Definition demo_restored : option Session :=
  sessions (proj1_sig (destination (demo_moment 72))) !! "mig-1".

Lemma demo_copy : ∃ x, demo_restored = Some x ∧ SessionSource x = "m-1" ∧ State x ≠ SessionFailed ∧
  runs_copy (backend (proj1_sig (destination (demo_moment 72)))) (RestoreID x).
Proof.
  eexists. split; [vm_compute; reflexivity|]. split; [reflexivity|]. split; [discriminate|].
  assert (copies (backend (proj1_sig (destination (demo_moment 72)))) = ["r"]) as H1 by (vm_compute; reflexivity).
  assert (numbered (backend (proj1_sig (destination (demo_moment 72)))) = 1%nat) as H2 by (vm_compute; reflexivity).
  cbn [RestoreID]. split; [rewrite H1; by left|]. exists 0%nat. rewrite H2. split; [lia|reflexivity].
Qed.

Lemma no_split_brain_witness :
  copy_of runs_copy numbered_restore "m-1" "mig-1" (destination (demo_moment 72)) ∧
  all_frozen 100 true (agent (demo_moment 72)).
Proof.
  assert (copy_of runs_copy numbered_restore "m-1" "mig-1" (destination (demo_moment 72))) as Hc
    by apply demo_copy.
  split; [exact Hc|].
  apply (no_split_brain ["var"] "m-1" false (λ _, 0) false "mig-1" hour demo_source demo_process demo_world
    (demo_moment 72) demo_start (demo_life any_moment 72 I) Hc).
Defined.


Lemma source_kept_witness :
  (State <$> sessions (proj1_sig (destination (demo_moment 89))) !! "mig-1" = Some SessionCommitted ∧
   procs (agent (demo_moment 89)) = ∅) ∧
  ((lives demo_process (agent (demo_moment 89)) ∧
    ∃ v, workloads (agent (demo_moment 89)) !! SpecID (Spec demo_source) = Some v ∧
         Spec v = Spec demo_source ∧ Process v = Some demo_process) ∨
   committed_of runs_copy numbered_restore "m-1" "mig-1" (destination (demo_moment 89))).
Proof.
  split; [split; vm_compute; reflexivity|].
  apply (source_kept ["var"] "m-1" false (λ _, 0) false "mig-1" hour demo_source demo_process demo_world
    (demo_moment 89) demo_start).
  - split; [reflexivity|]. eexists. split; [vm_compute; reflexivity|]. split; reflexivity.
  - apply demo_life. vm_compute. intros H. inversion H.
Defined.
