(* ===== verification/MigrationGaps.v ===== *)
(** * Where a migration's guarantees end

    Runs of the orchestrator in which an assumption of [MigrationLife] does
    not hold, or that its theorems do not speak of: what admission compares,
    a freeze that was cut off, and a failed session that still has its
    copy. *)
From S2P Require Import Prelude GoStr Model Workload Prog Conc Network Session Host Runtime Restorer Checkpoint SessionLife Peer PeerServer Migration CheckpointSafe Durable MigrationHost Routine MigrationSafe MigrationKept MigrationLife.

Local Open Scope string_scope.
Local Open Scope list_scope.
Local Open Scope Z_scope.

(** ** Admission *)

(** No unfinished migration is recorded under this workload id. *)
Definition none_active (workloadID : string) (existing : list Migration) : Prop :=
  Forall (λ m, WorkloadID m = workloadID → terminal (Stage m) = true) existing.

(** What [Create] makes of a request that repeats no recorded key. *)
Lemma admit_fresh r mode existing :
  Forall (λ m, same_key r m = false) existing →
  admission r mode existing = (_ ← admission_dry r mode existing; Ok None).
Proof.
  induction 1 as [|m existing Hm _ IH]; [done|]. cbn [admission admission_dry]. rewrite Hm, andb_true_r.
  destruct (bool_decide (WorkloadID m = _)); cbn [negb andb]; [|exact IH].
  destruct (terminal (Stage m)); [exact IH|done].
Qed.

(** The preflight decides like the creation.  For a request
    whose idempotency key no record has, the dry run of [Preflight] admits
    exactly what [Create] admits and refuses with the same error; where
    [Create] admits, no unfinished migration is recorded under the id the
    request names. *)
Theorem preflight_decides (r : CreateRequest) (mode : MigrationMode) (existing : list Migration) :
  Forall (λ m, same_key r m = false) existing →
  (admission r mode existing = Ok None ↔ admission_dry r mode existing = Ok tt) ∧
  (∀ err, admission r mode existing = Err err ↔ admission_dry r mode existing = Err err) ∧
  (admission r mode existing = Ok None ↔ none_active (RequestedWorkload r) existing).
Proof.
  intros Hk. pose proof (admit_fresh r mode existing Hk) as Hf. split_and!.
  - rewrite Hf. destruct (admission_dry r mode existing) as [[]|err]; cbn; naive_solver.
  - intros err. rewrite Hf. destruct (admission_dry r mode existing) as [[]|err']; cbn; naive_solver.
  - clear Hf. unfold none_active. induction Hk as [|m existing Hm _ IH]; [done|]. cbn [admission]. rewrite Hm, andb_true_r, Forall_cons.
    destruct (bool_decide (WorkloadID m = _)) eqn:E; cbn [negb].
    + apply bool_decide_eq_true in E. destruct (terminal (Stage m)) eqn:Ht; cbn [negb]; rewrite ?IH; naive_solver.
    + apply bool_decide_eq_false in E. rewrite IH. naive_solver.
Qed.

(** The record of an earlier migration of the demo workload, finished or not. *)
Definition demo_record (stage : MigrationStage) : Migration :=
  (new_migration "mig-0" "m-1" 1 demo_source demo_request MigrationCold) <| Stage := stage |>.

Lemma preflight_decides_witness :
  (admission demo_request MigrationCold [demo_record MigrationCompleted] = Ok None ∧
   admission_dry demo_request MigrationCold [demo_record MigrationTransfer] = Err errMigrationAlreadyActive) ∧
  admission demo_request MigrationCold [demo_record MigrationTransfer] = Err errMigrationAlreadyActive.
Proof.
  split; [split; vm_compute; reflexivity|].
  apply (preflight_decides demo_request MigrationCold [demo_record MigrationTransfer]);
    [by repeat constructor|vm_compute; reflexivity].
Defined.

(** A moment in which the next id is [x]. *)
Definition moment_named (x : string) : moment (nat → answer (BE := bool)) := {|
  ker := {| ok := true; clock := 9; num := 200; ticks := 8; text := x; extracted := []; captured := [];
            owner := (1000, 1000); exdev := false; ended := []; net := net willing |};
  wire := wire calm_moment; stored_ok := true; cancelled := false; machine_of := "m-2";
  report := report calm_moment; turn := 0; gives_up := false |}.

(** Two requests for the demo workload, one after the other, each naming it
    by [x]: what the second is answered, and the records. *)
Definition create_twice (x : string) : option (result Migration) * list (string * MigrationStage) :=
  let create := CreateMigration "m-1" Ok (demo_request <| RequestedWorkload := x |>) in
  let first := run create (replicate 9 (moment_named "mig-1")) (demo_world <| records := ∅ |>) in
  let second := run create (replicate 9 (moment_named "mig-2")) first.1.2 in
  (second.1.1, (λ m, (WorkloadID m, Stage m)) <$> listed_records (records second.1.2)).

(** A workload can be migrated twice at once.  Records carry
    the workload's id, and admission compares it with the identifier of the
    request as it is.  A second request by id is refused while the first
    migration is unfinished; the same two requests by name are both
    admitted. *)
Theorem named_request_admitted_twice :
  create_twice "w-1" = (Some (Err errMigrationAlreadyActive), [("w-1", MigrationCreated)]) ∧
  (create_twice "web").2 = [("w-1", MigrationCreated); ("w-1", MigrationCreated)] ∧
  (is_ok <$> (create_twice "web").1) = Some true.
Proof. vm_compute. repeat split; reflexivity. Qed.

(** ** A freeze that was cut off *)

#[local] Existing Instance demo_peer.

(** The demo migration cut off after [n] actions, and the restart after it,
    in which everything works. *)
Definition demo_recovered (n : nat) : world (peer_state runs_copy numbered_restore) :=
  (run (restart (λ _, 0) false "mig-1") (replicate 100 calm_moment) (demo_moment n)).1.2.

(** A stopped source can be forgotten.  When the agent dies
    between stopping the processes of the workload and recording it as
    paused, the record says running; the recovery takes the workload for
    running, wakes nothing, and closes the migration as rolled back with the
    source preserved while every process of the source stays stopped.  One
    action later the recovery would wake them. *)
Theorem interrupted_freeze_forgotten :
  (Stage <$> records (demo_recovered 26) !! "mig-1" = Some MigrationRolledBack ∧
   Status <$> workloads (agent (demo_recovered 26)) !! "w-1" = Some WorkloadRunning ∧
   frozen <$> procs (agent (demo_recovered 26)) !! 100 = Some true) ∧
  (Stage <$> records (demo_recovered 27) !! "mig-1" = Some MigrationRolledBack ∧
   frozen <$> procs (agent (demo_recovered 27)) !! 100 = Some false).
Proof. vm_compute. repeat split; reflexivity. Qed.

(** ** A failed session with a copy *)

(** The depot, except that it never manages to roll a restore back. *)
Record stuck_depot := Stuck { stuck : depot }.

Definition lift_depot {A} (out : depot * A) : stuck_depot * A := (Stuck out.1, out.2).

#[export] Instance stuck_backend : Backend stuck_depot bool := {|
  ImportWorkloadKey e b i v k := lift_depot (ImportWorkloadKey e (stuck b) i v k);
  VerifyManifest m := VerifyManifest (Backend := depot_backend) m;
  Session.SaveManifest e b m := lift_depot (Session.SaveManifest e (stuck b) m);
  LoadManifest e b id := LoadManifest e (stuck b) id;
  MissingChunks e b refs := MissingChunks e (stuck b) refs;
  FreeBytes e b := FreeBytes e (stuck b);
  ImportChunkResult e b i ref := lift_depot (ImportChunkResult e (stuck b) i ref);
  ValidateAsset e b i a := ValidateAsset e (stuck b) i a;
  Inspect e b := Inspect e (stuck b);
  Session.Prepare e b c t := lift_depot (Session.Prepare e (stuck b) c t);
  CommitRestore e b r := lift_depot (CommitRestore e (stuck b) r);
  RollbackRestore _ b _ := (b, Err "rollback failed");
  GetRestore e b r := GetRestore e (stuck b) r;
|}.

#[local] Abbreviation stuck_server := (server (B := stuck_depot)).

(** The peer API of that machine, whoever asks. *)
Definition stuck_api (source : string) (e : nat → answer (BE := bool)) (q : request) (s : stuck_server)
    : stuck_server * response :=
  finish (Handler "org" true false demo_parse (Some source) q) e s.

#[local] Instance stuck_peer : Peer stuck_server (nat → answer (BE := bool)) := {|
  answers := stuck_api "m-1";
|}.

(** The migration up to its restore. *)
Definition stuck_restored : world stuck_server :=
  (run (run_migration ["var"] "m-1" false (λ _, 0) false "mig-1" hour) (replicate 72 calm_moment)
     {| agent := demo_host;
        destination := {| sessions := ∅; backend := Stuck (backend empty_server); metered := [];
                          Session.held := []; withdrawn := [] |};
        records := records demo_world; freezes := ∅ |}).1.2.

(** A third machine reserves a transfer after the reservation has expired. *)
Definition late : answer (BE := bool) :=
  {| Session.now := 48 * hour; store_ok := true; put_ok := λ _, true; slot := true; back := true |}.
Definition reaping : request := QReserve (Some {|
  RequestID := "t-3"; RequestSource := "m-3"; RequestWorkload := "w-3"; RequestEstimate := 1;
  RequestExpiresAt := 0; RequestPurpose := "" |}).
Definition stuck_reaped : world stuck_server :=
  stuck_restored <| destination := (stuck_api "m-3" (λ _, late) reaping (destination stuck_restored)).1 |>.

(** The restart of the source after it. *)
Definition stuck_recovered : world stuck_server :=
  (run (restart (λ _, 0) false "mig-1") (replicate 100 calm_moment) stuck_reaped).1.2.

(** A failed session hides its copy.  A session whose
    reservation expires after its restore is marked failed before the restore
    is rolled back, and a rollback that fails is only logged.  The source
    takes the failed session for one without a copy: the agent died after the
    restore, its recovery asks nothing more of the destination and wakes the
    source, and the workload then executes on both machines. *)
Theorem failed_session_hides_copy :
  State <$> sessions (destination stuck_recovered) !! "mig-1" = Some SessionFailed ∧
  copies (stuck (backend (destination stuck_recovered))) = ["r"] ∧
  Stage <$> records stuck_recovered !! "mig-1" = Some MigrationRolledBack ∧
  Status <$> workloads (agent stuck_recovered) !! "w-1" = Some WorkloadRunning ∧
  frozen <$> procs (agent stuck_recovered) !! 100 = Some false.
Proof. vm_compute. repeat split; reflexivity. Qed.

(** ** A restore that was not recorded *)

(** A verified session, and a restore whose result the store does not take. *)
Definition verified_server : stuck_server := {|
  sessions := {["t" := demo_session SessionVerified]}; backend := Stuck (backend empty_server);
  metered := []; Session.held := []; withdrawn := [] |}.

Definition unpersisted : answer (BE := bool) :=
  {| Session.now := 2; store_ok := false; put_ok := λ _, false; slot := true; back := true |}.

Definition unrecorded : stuck_server :=
  (stuck_api "a" (λ _, unpersisted) (QRestore "t" (Some 30)) verified_server).1.

(** A restore can be forgotten.  When the session cannot be stored after the
    restore came up, the handler rolls the restore back and ignores whether
    that worked; the session stays VERIFIED and names no restore.  The
    rollback that the source asks for next has nothing to undo and is
    acknowledged, while the copy runs. *)
Theorem unrecorded_restore_stays :
  let asked := stuck_api "a" (λ _, fine) (QRollback "t") unrecorded in
  (∃ s, asked.2 = Reply 200 (BSession s) ∧ State s = SessionRolledBack) ∧
  copies (stuck (backend asked.1)) = ["r"].
Proof. split; [eexists; split; vm_compute; reflexivity|vm_compute; reflexivity]. Qed.
