(* ===== verification/Ownership.v ===== *)
(** * Workload ownership in the control plane

    [internal/database/ownership.go] and
    [internal/controlplane/ownership_routes.go].  A standby that wants to take
    a workload over first acquires an ownership epoch, and later confirms
    under that epoch that the source is fenced.  The table
    [workload_ownership] is a map from workloads to rows; each statement or
    transaction is one action, which may also be applied without the caller
    hearing of it. *)
From S2P Require Import Prelude GoStr Prog Conc Crypto.

Local Open Scope string_scope.
Local Open Scope list_scope.
Local Open Scope Z_scope.

(** ** The tables *)

(** A row of [workload_ownership], with [OwnershipRecord]'s names. *)
Record OwnershipRecord := {
  OwnOrganization : string;
  Epoch : Z;
  OwnerMachineID : string;
  OwnershipState : string;
  TokenHash : bytes;
  LeaseExpiresAt : option Z;
  OwnershipUpdatedAt : Z;
}.
#[export] Instance OwnershipRecord_eta : Eta OwnershipRecord := fun r =>
  Build_OwnershipRecord (OwnOrganization r) (Epoch r) (OwnerMachineID r) (OwnershipState r) (TokenHash r)
    (LeaseExpiresAt r) (OwnershipUpdatedAt r).

(** The ownership rows, the organization of each workload, the machines of
    each organization, and the audit trail of acquisitions. *)
Record plane := {
  ownership : gmap string OwnershipRecord;
  homes : gmap string string;
  registered : gset (string * string);
  audits : list (string * string);
}.
#[export] Instance plane_eta : Eta plane := fun p =>
  Build_plane (ownership p) (homes p) (registered p) (audits p).

(** What becomes of a transaction. *)
Inductive txn := Applied | Unconfirmed | Aborted.

Record pg := { db_time : Z; outcome : txn; token_drawn : string }.

Definition errOwnershipConflict : string := "workload ownership epoch or token is stale".
Definition errNoRows : string := "no rows in result set".

Section ownership.
Context `{HC : !Crypto}.
#[local] Abbreviation act := (thread plane pg).

Definition tokenHash (token : string) : bytes := sha256 (String.list_byte_of_string token).

(** ** Statements *)

(** [lease_expires_at.After(now)]; an owner without an expiry does not block. *)
Definition leased (now : Z) (r : OwnershipRecord) : bool :=
  bool_decide (OwnershipState r = "owned") &&
  match LeaseExpiresAt r with Some t => now <? t | None => false end.

(** The row [AcquireOwnership] writes.  The column is a signed 64-bit
    integer, so that the last epochs are refused by the database. *)
Definition acquired (now : Z) (organizationID workloadID machineID token : string) (lease : Z) (p : plane)
    : result OwnershipRecord :=
  match homes p !! workloadID with
  | None => Err errNoRows
  | Some home =>
      if negb (bool_decide (home = organizationID)) then Err errOwnershipConflict
      else
        let current := default {| OwnOrganization := organizationID; Epoch := 0; OwnerMachineID := "";
                                  OwnershipState := "unowned"; TokenHash := []; LeaseExpiresAt := None;
                                  OwnershipUpdatedAt := 0 |} (ownership p !! workloadID) in
        if negb (bool_decide (OwnOrganization current = "")) &&
           negb (bool_decide (OwnOrganization current = organizationID)) then Err errOwnershipConflict
        else if leased now current && negb (bool_decide (OwnerMachineID current = machineID)) then
          Err errOwnershipConflict
        else if 2 ^ 63 <=? Epoch current + 1 then Err "bigint out of range"
        else Ok {| OwnOrganization := organizationID; Epoch := Epoch current + 1; OwnerMachineID := machineID;
                   OwnershipState := "owned"; TokenHash := tokenHash token;
                   LeaseExpiresAt := Some (now + lease); OwnershipUpdatedAt := now |}
  end.

(** [AcquireOwnership]. *)
Definition AcquireOwnership (organizationID workloadID machineID token : string) (lease : Z)
    : act (result OwnershipRecord) :=
  if bool_decide (organizationID = "") || bool_decide (workloadID = "") || bool_decide (machineID = "") ||
     bool_decide (token = "") || (lease <=? 0) then mret (Err "ownership fields and lease are required")
  else
    atomic (λ e p,
      match outcome e, acquired (db_time e) organizationID workloadID machineID token lease p with
      | Aborted, _ => (p, Err "transaction")
      | _, Err err => (p, Err err)
      | o, Ok row =>
          (p <| ownership := <[workloadID := row]> (ownership p) |>
             <| audits := audits p ++ [(workloadID, machineID)] |>,
           match o with Applied => Ok row | _ => Err "commit" end)
      end).

(** An [UPDATE] of the one row that matches. *)
Definition update_row (workloadID : string) (matches : OwnershipRecord → bool)
    (change : Z → OwnershipRecord → OwnershipRecord) : act (result unit) :=
  atomic (λ e p,
    match outcome e, ownership p !! workloadID with
    | Aborted, _ => (p, Err "statement")
    | _, None => (p, Err errOwnershipConflict)
    | o, Some row =>
        if negb (matches row) then (p, Err errOwnershipConflict)
        else (p <| ownership := <[workloadID := change (db_time e) row]> (ownership p) |>,
              match o with Applied => Ok tt | _ => Err "statement" end)
    end).

Definition holds_token (machineID token : string) (epoch : Z) (r : OwnershipRecord) : bool :=
  bool_decide (OwnerMachineID r = machineID) && (Epoch r =? epoch) && bool_decide (TokenHash r = tokenHash token).

(** [RenewOwnership]. *)
Definition RenewOwnership (workloadID machineID token : string) (epoch lease : Z) : act (result unit) :=
  update_row workloadID
    (λ r, holds_token machineID token epoch r && bool_decide (OwnershipState r = "owned"))
    (λ now r, r <| LeaseExpiresAt := Some (now + lease) |> <| OwnershipUpdatedAt := now |>).

(** [MarkOwnershipFenced]. *)
Definition MarkOwnershipFenced (organizationID workloadID machineID token : string) (epoch : Z)
    : act (result unit) :=
  update_row workloadID
    (λ r, bool_decide (OwnOrganization r = organizationID) && holds_token machineID token epoch r)
    (λ now r, r <| OwnershipState := "fenced" |> <| LeaseExpiresAt := None |> <| OwnershipUpdatedAt := now |>).

(** ** Routes *)

Inductive reply (A : Type) := Answered (a : A) | Refused (status : Z) (code : string).
#[global] Arguments Answered {A} a.
#[global] Arguments Refused {A} status code.

Definition lookup_machine (organizationID machineID : string) : act (result unit) :=
  atomic (λ e p, (p, match outcome e with
                     | Aborted => Err "lookup"
                     | _ => if decide ((organizationID, machineID) ∈ registered p) then Ok tt else Err errNoRows
                     end)).
Definition lookup_workload (organizationID workloadID : string) : act (result unit) :=
  atomic (λ e p, (p, match outcome e with
                     | Aborted => Err "lookup"
                     | _ => if decide (homes p !! workloadID = Some organizationID) then Ok tt else Err errNoRows
                     end)).

(** [handleOwnershipAcquire]: the epoch and the token. *)
Definition handleOwnershipAcquire (organizationID workloadID machineID : string) (leaseSeconds : Z)
    : act (reply (Z * string)) :=
  let workloadID := TrimSpace workloadID in
  let machineID := TrimSpace machineID in
  if bool_decide (workloadID = "") || bool_decide (machineID = "") || (leaseSeconds <? 10) ||
     (10 * 60 <? leaseSeconds) then mret (Refused 400 "OWNERSHIP_INVALID")
  else
    machine ← lookup_machine organizationID machineID;
    match machine with
    | Err err => mret (if decide (err = errNoRows) then Refused 404 "MACHINE_NOT_FOUND"
                       else Refused 500 "OWNERSHIP_LOOKUP_FAILED")
    | Ok _ =>
        workload ← lookup_workload organizationID workloadID;
        match workload with
        | Err err => mret (if decide (err = errNoRows) then Refused 404 "WORKLOAD_NOT_FOUND"
                           else Refused 500 "OWNERSHIP_LOOKUP_FAILED")
        | Ok _ =>
            drawn ← atomic (λ e p, (p, token_drawn e));
            let token := "shift_own_" +:+ drawn in
            record ← AcquireOwnership organizationID workloadID machineID token (leaseSeconds * 10 ^ 9);
            mret (match record with
                  | Err err => if decide (err = errOwnershipConflict) then Refused 409 "OWNERSHIP_CONFLICT"
                               else if decide (err = errNoRows) then Refused 404 "WORKLOAD_NOT_FOUND"
                               else Refused 500 "OWNERSHIP_ACQUIRE_FAILED"
                  | Ok record => Answered (Epoch record, token)
                  end)
        end
    end.

(** [handleOwnershipFence]. *)
Definition handleOwnershipFence (organizationID workloadID machineID token : string) (epoch : Z)
    : act (reply unit) :=
  if bool_decide (TrimSpace workloadID = "") || bool_decide (TrimSpace machineID = "") || (epoch =? 0) ||
     bool_decide (TrimSpace token = "") then mret (Refused 400 "OWNERSHIP_INVALID")
  else
    workload ← lookup_workload organizationID workloadID;
    match workload with
    | Err err => mret (if decide (err = errNoRows) then Refused 404 "WORKLOAD_NOT_FOUND"
                       else Refused 500 "OWNERSHIP_FENCE_FAILED")
    | Ok _ =>
        marked ← MarkOwnershipFenced organizationID workloadID machineID token epoch;
        mret (match marked with
              | Err err => if decide (err = errOwnershipConflict) then Refused 409 "OWNERSHIP_CONFLICT"
                           else Refused 500 "OWNERSHIP_FENCE_FAILED"
              | Ok _ => Answered tt
              end)
    end.

(** ** Exclusion *)

Inductive request :=
| AskAcquire (organizationID workloadID machineID : string) (leaseSeconds : Z)
| AskFence (organizationID workloadID machineID token : string) (epoch : Z)
| AskRenew (workloadID machineID token : string) (epoch lease : Z).

Definition serve (r : request) : act unit :=
  match r with
  | AskAcquire org w m lease => _ ← handleOwnershipAcquire org w m lease; mret tt
  | AskFence org w m token epoch => _ ← handleOwnershipFence org w m token epoch; mret tt
  | AskRenew w m token epoch lease => _ ← RenewOwnership w m token epoch lease; mret tt
  end.

(** The acquisitions of a workload on record, and its epoch. *)
Definition acquisitions (p : plane) (w : string) : list (string * string) := filter (λ a, a.1 = w) (audits p).
Definition epoch_of (p : plane) (w : string) : Z := default 0 (Epoch <$> ownership p !! w).

(** The epoch of a workload is the number of its acquisitions, and its owner
    made the last of them. *)
Definition counted (p : plane) : Prop :=
  ∀ w, epoch_of p w = Z.of_nat (length (acquisitions p w)) ∧
       ∀ r, ownership p !! w = Some r → last (acquisitions p w) = Some (w, OwnerMachineID r).

(** A request that is neither the owner's nor carries the owner's token. *)
Definition foreign (w : string) (row : OwnershipRecord) (r : request) : Prop :=
  match r with
  | AskAcquire _ w' m _ => TrimSpace w' = w → TrimSpace m ≠ OwnerMachineID row
  | AskFence _ w' m token epoch => w' = w → holds_token m token epoch row = false
  | AskRenew w' m token epoch _ => w' = w → holds_token m token epoch row = false
  end.

Lemma acquired_next now org w m token lease p row :
  acquired now org w m token lease p = Ok row →
  Epoch row = epoch_of p w + 1 ∧ OwnerMachineID row = m ∧
  ∀ r, ownership p !! w = Some r → leased now r = true → OwnerMachineID r = m.
Proof.
  unfold acquired, epoch_of. destruct (homes p !! w); [|done]. destruct (negb _); [done|]. cbv zeta.
  destruct (_ && _); [done|]. destruct (leased now _ && _) eqn:Hl; [done|]. destruct (_ <=? _); [done|].
  intros [= <-]. destruct (ownership p !! w) as [r|]; cbn in *; split_and!; try done.
  intros ? [= <-] Hlr. rewrite Hlr in Hl. by apply negb_false_iff, bool_decide_eq_true in Hl.
Qed.

(** What every action does: rows are only ever renewed, fenced or acquired. *)
Definition moves (p p' : plane) : Prop :=
  (counted p → counted p') ∧ ∀ w, epoch_of p w ≤ epoch_of p' w.

#[local] Instance moves_preorder : PreOrder moves.
Proof.
  split; [by split|]. intros p1 p2 p3 [H1 E1] [H2 E2]. split; [auto|]. intros w. etrans; [apply E1|apply E2].
Qed.

Lemma acquisitions_snoc w w' m (l : list (string * string)) :
  filter (λ a, a.1 = w') (l ++ [(w, m)]) = filter (λ a, a.1 = w') l ++ (if decide (w = w') then [(w, m)] else []).
Proof. by rewrite filter_app. Qed.

Lemma moves_acquire now org w m token lease p row :
  acquired now org w m token lease p = Ok row →
  moves p (p <| ownership := <[w := row]> (ownership p) |> <| audits := audits p ++ [(w, m)] |>).
Proof.
  intros (He & Hm & _)%acquired_next. split.
  - intros Hc w'. destruct (Hc w') as [Hn Hlast]. unfold epoch_of, acquisitions in *. cbn -[filter].
    rewrite acquisitions_snoc, length_app. destruct (decide (w = w')) as [->|Hne].
    + rewrite lookup_insert_eq. cbn. split; [lia|]. intros r [= <-]. rewrite last_snoc. congruence.
    + rewrite lookup_insert_ne by done. cbn. by rewrite app_nil_r, Nat.add_0_r.
  - intros w'. unfold epoch_of in *. cbn. destruct (decide (w = w')) as [->|Hne].
    + rewrite lookup_insert_eq. cbn. lia.
    + by rewrite lookup_insert_ne.
Qed.

Lemma moves_update w row row' p :
  ownership p !! w = Some row → Epoch row' = Epoch row → OwnerMachineID row' = OwnerMachineID row →
  moves p (p <| ownership := <[w := row']> (ownership p) |>).
Proof.
  intros Hr He Hm. assert (∀ w', epoch_of (p <| ownership := <[w := row']> (ownership p) |>) w' = epoch_of p w') as Hep.
  { intros w'. unfold epoch_of. cbn. destruct (decide (w = w')) as [->|]; [|by rewrite lookup_insert_ne].
    by rewrite lookup_insert_eq, Hr; cbn; rewrite He. }
  split; [|intros w'; by rewrite Hep]. intros Hc w'. rewrite Hep. destruct (Hc w') as [Hn Hlast]. split; [done|].
  intros r. cbn. intros [[<- <-]|[_ Hr']]%lookup_insert_Some; [|by apply Hlast]. rewrite Hm. by apply Hlast.
Qed.

Lemma update_row_moves w matches_ change :
  (∀ now r, Epoch (change now r) = Epoch r ∧ OwnerMachineID (change now r) = OwnerMachineID r) →
  guarantees moves (update_row w matches_ change).
Proof.
  intros Hch. apply guarantees_atomic. intros e p. destruct (outcome e), (ownership p !! w) as [row|] eqn:Hr; try done;
    destruct (negb (matches_ row)); try done; destruct (Hch (db_time e) row); by eapply moves_update.
Qed.

Lemma acquire_moves org w m token lease : guarantees moves (AcquireOwnership org w m token lease).
Proof.
  unfold AcquireOwnership. destruct (_ || _); [done|]. apply guarantees_atomic. intros e p.
  destruct (outcome e), (acquired (db_time e) org w m token lease p) eqn:Ha; try done; by eapply moves_acquire.
Qed.

Lemma read_moves {A} (f : pg → plane → A) : guarantees moves (atomic (λ e p, (p, f e p))).
Proof. by apply guarantees_atomic. Qed.

Lemma serve_moves r : guarantees moves (serve r).
Proof.
  destruct r; (apply guarantees_bind; [|done]).
  - unfold handleOwnershipAcquire. destruct (_ || _); [done|]. apply guarantees_bind; [apply read_moves|].
    intros [?|]; [|done]. apply guarantees_bind; [apply read_moves|]. intros [?|]; [|done].
    apply guarantees_bind; [apply read_moves|]. intros drawn. by apply guarantees_bind; [apply acquire_moves|].
  - unfold handleOwnershipFence. destruct (_ || _); [done|]. apply guarantees_bind; [apply read_moves|].
    intros [?|]; [|done]. by apply guarantees_bind; [apply update_row_moves|].
  - by apply update_row_moves.
Qed.

(** While a lease runs, nobody else changes its row. *)
Section lease.
Context (w : string) (row : OwnershipRecord) (until T : Z).
Context (Howned : OwnershipState row = "owned") (Huntil : LeaseExpiresAt row = Some until) (HT : T ≤ until).
#[local] Abbreviation stands := (λ p, ownership p !! w = Some row).
#[local] Abbreviation in_time := (λ e, db_time e < T).

Lemma lease_running now : now < T → leased now row = true.
Proof. intros. unfold leased. rewrite Howned, Huntil. cbn. apply Z.ltb_lt. lia. Qed.

Lemma read_stands {A} (f : pg → plane → A) : preserves in_time stands (atomic (λ e p, (p, f e p))).
Proof. by apply preserves_atomic. Qed.

Lemma acquire_stands org w' m token lease :
  (w' = w → m ≠ OwnerMachineID row) → preserves in_time stands (AcquireOwnership org w' m token lease).
Proof.
  intros Hf. unfold AcquireOwnership. destruct (_ || _); [done|]. apply preserves_atomic. intros e p He Hp.
  destruct (outcome e), (acquired (db_time e) org w' m token lease p) eqn:Ha; try done; cbn;
    apply acquired_next in Ha as (_ & _ & Hown); (destruct (decide (w' = w)) as [->|]; [|by rewrite lookup_insert_ne]);
    destruct Hf; [done|symmetry; by apply (Hown row), lease_running|done|symmetry; by apply (Hown row), lease_running].
Qed.

Lemma update_stands w' matches_ change :
  (w' = w → matches_ row = false) → preserves in_time stands (update_row w' matches_ change).
Proof.
  intros Hf. apply preserves_atomic. intros e p He Hp.
  destruct (outcome e), (ownership p !! w') as [r|] eqn:Hr; try done; destruct (negb (matches_ r)) eqn:Hm; try done; cbn;
    (destruct (decide (w' = w)) as [->|]; [|by rewrite lookup_insert_ne]);
    apply negb_false_iff in Hm; assert (r = row) as -> by congruence; by rewrite Hf in Hm.
Qed.

Lemma serve_stands r : foreign w row r → preserves in_time stands (serve r).
Proof.
  destruct r as [org w' m lease|org w' m token epoch|w' m token epoch lease]; cbn [foreign serve]; intros Hf;
    (apply preserves_bind; [|done]).
  - unfold handleOwnershipAcquire. destruct (_ || _); [done|]. apply preserves_bind; [apply read_stands|].
    intros [?|]; [|done]. apply preserves_bind; [apply read_stands|]. intros [?|]; [|done].
    apply preserves_bind; [apply read_stands|]. intros drawn. by apply preserves_bind; [apply acquire_stands|].
  - unfold handleOwnershipFence. destruct (_ || _); [done|]. apply preserves_bind; [apply read_stands|].
    intros [?|]; [|done]. apply preserves_bind; [|done]. apply update_stands. intros ->. rewrite Hf by done. apply andb_false_r.
  - apply update_stands. intros ->. by rewrite Hf.
Qed.
End lease.

(** C7.  Ownership is exclusive.  Under every interleaving of
    acquisitions, renewals and fence confirmations, whether their callers hear
    of them or not, the epoch of a workload is the number of its acquisitions,
    so that no epoch is ever granted twice, and it never decreases.  As long
    as a lease runs, requests that are neither the owner's nor carry its token
    leave its row as it is: nobody else becomes the owner, renews it or
    confirms a fence. *)
Theorem ownership_exclusive (p : plane) (T : Z) (admits : request → Prop) (c : system unit) :
  counted p →
  rtc (sys_step_under (λ e, db_time e < T) (λ t, ∃ r, admits r ∧ t = serve r)) (Build_system p []) c →
  counted (shared c) ∧ (∀ w, epoch_of p w ≤ epoch_of (shared c) w) ∧
  ∀ w row until, ownership p !! w = Some row → OwnershipState row = "owned" →
    LeaseExpiresAt row = Some until → T ≤ until → (∀ r, admits r → foreign w row r) →
    ownership (shared c) !! w = Some row.
Proof.
  intros Hc Hr. assert (∀ w, epoch_of p w ≤ epoch_of (shared c) w ∧ counted (shared c)) as H.
  { intros w. apply (interleaving_preserves (λ e, db_time e < T) (λ p', epoch_of p w ≤ epoch_of p' w ∧ counted p')
      (λ t, ∃ r, admits r ∧ t = serve r) (Build_system p []) c); [|done|done|done].
    intros t (r & _ & ->). eapply guarantees_preserves; [|apply serve_moves]. intros s s' [Hcs Hes] [H1 H2].
    split; [|auto]. etrans; [exact H1|apply Hes]. }
  split; [apply (H "")|]. split; [intros w; apply (H w)|]. intros w row until Hrow Ho Hu HT Hf.
  apply (interleaving_preserves (λ e, db_time e < T) (λ p', ownership p' !! w = Some row)
    (λ t, ∃ r, admits r ∧ t = serve r) (Build_system p []) c); [|done|done|done].
  intros t (r & Ha & ->). by eapply serve_stands; [..|apply Hf].
Qed.
End ownership.

(** ** A plane *)

#[local] Existing Instance toy_crypto.

Definition db_at (n : Z) : pg := {| db_time := n; outcome := Applied; token_drawn := "t" |}.
Definition demo_plane : plane :=
  {| ownership := ∅; homes := {["w" := "org"]}; registered := {[("org", "m1"); ("org", "m2")]}; audits := [] |}.

(** One standby has acquired the workload, and another one tries to. *)
Definition leased_plane : plane :=
  final (run (handleOwnershipAcquire "org" "w" "m1" 120) (replicate 4 (db_at 0)) demo_plane).
Definition rival : request := AskAcquire "org" "w" "m2" 120.
Definition contended : system unit :=
  schedule (replicate 4 (0%nat, db_at 5)) (Build_system leased_plane [serve rival]).

Lemma ownership_exclusive_witness :
  ∃ row, ownership leased_plane !! "w" = Some row ∧ Epoch row = 1 ∧ ownership (shared contended) !! "w" = Some row.
Proof.
  eexists. split; [vm_compute; reflexivity|]. split; [reflexivity|].
  eapply (ownership_exclusive leased_plane 100 (λ r, r = rival) contended).
  - intros w. unfold epoch_of, acquisitions. cbn. destruct (decide (w = "w")) as [->|Hne].
    + split; [vm_compute; reflexivity|]. intros r [= <-]. reflexivity.
    + assert (∃ r, ownership leased_plane = {["w" := r]}) as [r0 Hr0] by (eexists; vm_compute; reflexivity).
      assert (ownership leased_plane !! w = None) as Hn by (rewrite Hr0; by apply lookup_singleton_ne).
      assert (audits leased_plane = [("w", "m1")]) as Ha by (vm_compute; reflexivity).
      rewrite Hn, Ha. rewrite filter_cons_False by (cbn; congruence). by split.
  - etrans; [apply (spawn_steps_under _ _ leased_plane [] [serve rival])|].
    + apply Forall_singleton. by exists rival.
    + apply schedule_steps_under, Forall_replicate. reflexivity.
  - vm_compute. reflexivity.
  - reflexivity.
  - reflexivity.
  - unfold Z.le. vm_compute. discriminate.
  - intros r ->. cbn. discriminate.
Defined.
