(* ===== verification/Fencing.v ===== *)
(** * Fencing ([internal/fencing/fencing.go])

    A fencing provider decides whether an unattended failover may go on.  The
    command provider runs two binaries of the operator's: one that fences the
    source, and one that confirms it.  The state is the history of the calls
    that were made, with what the kernel answered. *)
From S2P Require Import Prelude GoStr Workload Prog Conc.

Local Open Scope string_scope.
Local Open Scope list_scope.
Local Open Scope Z_scope.

(** ** Data *)

(** [Result]. *)
Inductive FenceResult :=
| ResultFenced | ResultAlreadyFenced | ResultDisabled | ResultRefused | ResultTimedOut | ResultInconclusive.
#[export] Instance FenceResult_eq_dec : EqDecision FenceResult.
Proof. solve_decision. Defined.

(** [Request]. *)
Record FenceRequest := { FenceWorkload : string; FenceSource : string; FenceEpoch : Z }.

(** What [Lstat] tells of a file: its type, owner, permissions and identity. *)
Record file_stat := { is_link : bool; is_regular : bool; file_uid : Z; file_perm : Z; file_dev : Z; file_ino : Z }.

(** What becomes of a command: its exit code unless it could not be run, and
    whether its deadline passed. *)
Record ran := { exit_code : option Z; past_deadline : bool }.

Inductive fence_call :=
| Statted (p : string) (st : option file_stat)
| Resolved (p : string) (real : option string)
| Ran (p : string) (args : list string) (r : ran).

Record fence_env := { lstat : option file_stat; real_path : option string; running : ran }.

(** [Command], with the user id of the agent; its timeout is the deadline. *)
Record Command := { FencePath : string; StatusPath : string; AllowedDirs : list string; Geteuid : Z }.

Definition DefaultFencingDirs : list string := ["/etc/shift/fencing.d"; "/usr/local/libexec/shift/fencing.d"].

(** [fencingBinary]. *)
Record fencingBinary := { resolved : string; bin_dev : Z; bin_ino : Z }.

Definition errAutomaticFailoverBlocked : string :=
  "automatic failover is blocked because fencing was not positively confirmed".

#[local] Abbreviation act := (thread (list fence_call) fence_env).

(** ** Calls *)

Definition Lstat_file (p : string) : act (option file_stat) :=
  atomic (λ e tr, (tr ++ [Statted p (lstat e)], lstat e)).
Definition EvalSymlinks (p : string) : act (option string) :=
  atomic (λ e tr, (tr ++ [Resolved p (real_path e)], real_path e)).
Definition exec (p : string) (args : list string) : act ran :=
  atomic (λ e tr, (tr ++ [Ran p args (running e)], running e)).

(** ** Validation *)

(** [validateBinary]. *)
Definition validateBinary (euid : Z) (candidate : string) (resolvedDirs : list string) : act (result fencingBinary) :=
  if decide (TrimSpace candidate = "") then
    mret (Err "fencing command and post-fence status command are required")
  else
    let clean := Clean candidate in
    if negb (IsAbs clean) then mret (Err "fencing command must be an absolute path")
    else
      info ← Lstat_file clean;
      match info with
      | None => mret (Err "fencing command")
      | Some st =>
          if is_link st || negb (is_regular st) then mret (Err "fencing command must be a regular file")
          else if negb (file_uid st =? 0) && negb (file_uid st =? euid) then
            mret (Err "fencing command must be owned by root or the agent user")
          else if negb (Z.land (file_perm st) 18 =? 0) then
            mret (Err "fencing command must not be group- or world-writable")
          else
            real ← EvalSymlinks clean;
            match real with
            | None => mret (Err "fencing command")
            | Some real =>
                if negb (existsb (λ dir, match Rel dir real with
                                         | Ok relative => negb (bool_decide (relative = "..")) && negb (HasPrefix relative "../")
                                         | Err _ => false
                                         end) resolvedDirs)
                then mret (Err "fencing command resolves outside the allow-listed fencing directories")
                else mret (Ok {| resolved := real; bin_dev := file_dev st; bin_ino := file_ino st |})
            end
      end.

Fixpoint resolve_dirs (dirs : list string) : act (list string) :=
  match dirs with
  | [] => mret []
  | dir :: rest =>
      real ← EvalSymlinks (Clean dir);
      others ← resolve_dirs rest;
      mret (match real with Some d => d :: others | None => others end)
  end.

(** [validate]. *)
Definition validate (c : Command) : act (result (fencingBinary * fencingBinary)) :=
  let dirs := match AllowedDirs c with [] => DefaultFencingDirs | dirs => dirs end in
  resolvedDirs ← resolve_dirs dirs;
  if decide (resolvedDirs = []) then mret (Err "none of the allow-listed fencing directories exist")
  else
    fence ← validateBinary (Geteuid c) (FencePath c) resolvedDirs;
    match fence with
    | Err err => mret (Err err)
    | Ok fence =>
        status ← validateBinary (Geteuid c) (StatusPath c) resolvedDirs;
        mret (status ← status; Ok (fence, status))
    end.

(** [stillSame]. *)
Definition stillSame (b : fencingBinary) : act (result unit) :=
  info ← Lstat_file (resolved b);
  mret (match info with
        | None => Err "fencing command disappeared after validation"
        | Some st => require ((file_dev st =? bin_dev b) && (file_ino st =? bin_ino b))
                       "fencing command was replaced after validation"
        end).

(** ** Fencing *)

Definition fence_args (r : FenceRequest) : list string := [FenceWorkload r; FenceSource r; Itoa (FenceEpoch r)].

(** The second half of [Fence]: the confirmation. *)
Definition confirm_fence (status : fencingBinary) (request : FenceRequest) : act (FenceResult * result unit) :=
  same ← stillSame status;
  match same with
  | Err err => mret (ResultInconclusive, Err err)
  | Ok _ =>
      r ← exec (resolved status) (fence_args request);
      mret (if decide (exit_code r = Some 0) then (ResultFenced, Ok tt)
            else if past_deadline r then (ResultTimedOut, Err errAutomaticFailoverBlocked)
            else (ResultInconclusive, Err "post-fence status did not confirm source stopped"))
  end.

(** [Command.Fence]. *)
Definition Fence (c : Command) (request : FenceRequest) : act (FenceResult * result unit) :=
  valid ← validate c;
  match valid with
  | Err err => mret (ResultDisabled, Err err)
  | Ok (fence, status) =>
      same ← stillSame fence;
      match same with
      | Err err => mret (ResultInconclusive, Err err)
      | Ok _ =>
          r ← exec (resolved fence) (fence_args request);
          if past_deadline r then mret (ResultTimedOut, Err errAutomaticFailoverBlocked)
          else if decide (exit_code r = Some 0) then confirm_fence status request
          else if decide (exit_code r = Some 2) then mret (ResultAlreadyFenced, Ok tt)
          else mret (ResultRefused, Err errAutomaticFailoverBlocked)
      end
  end.

(** [Disabled.Fence] and [Self.Fence]. *)
Definition Disabled_Fence (_ : FenceRequest) : FenceResult * result unit :=
  (ResultDisabled, Err errAutomaticFailoverBlocked).
Definition Self_Fence (_ : FenceRequest) : FenceResult * result unit :=
  (ResultInconclusive, Err "self fencing requires a configured source watchdog").

(** [AllowsAutomatic]. *)
Definition AllowsAutomatic (r : FenceResult) : bool :=
  bool_decide (r = ResultFenced) || bool_decide (r = ResultAlreadyFenced).

(** ** Fencing is confirmed *)

Section fencing.
Context (c : Command).
#[local] Abbreviation dirs := (match AllowedDirs c with [] => DefaultFencingDirs | dirs => dirs end).

(** The kernel resolves to absolute paths. *)
Definition resolves (e : fence_env) : Prop := ∀ p, real_path e = Some p → IsAbs p = true.

Definition dir_seen (tr : list fence_call) (d' : string) : Prop :=
  IsAbs d' = true ∧ ∃ d, d ∈ dirs ∧ Resolved (Clean d) (Some d') ∈ tr.

(** The file at [candidate] was found to be a plain file of root or the
    agent, which nobody else can write, inside an allowed directory; [b] is
    its resolved name and its identity. *)
Definition approved (candidate : string) (tr : list fence_call) (b : fencingBinary) : Prop :=
  ∃ st d',
    Statted (Clean candidate) (Some st) ∈ tr ∧ is_link st = false ∧ is_regular st = true ∧
    (file_uid st = 0 ∨ file_uid st = Geteuid c) ∧ Z.land (file_perm st) 18 = 0 ∧
    bin_dev b = file_dev st ∧ bin_ino b = file_ino st ∧
    Resolved (Clean candidate) (Some (resolved b)) ∈ tr ∧
    dir_seen tr d' ∧ segments d' `prefix_of` segments (resolved b).

(** The last call found the very file that was approved. *)
Definition vetted (tr : list fence_call) (p : string) : Prop :=
  ∃ candidate b st,
    candidate ∈ [FencePath c; StatusPath c] ∧ approved candidate tr b ∧ resolved b = p ∧
    last tr = Some (Statted p (Some st)) ∧ file_dev st = bin_dev b ∧ file_ino st = bin_ino b.

(** Nothing is run that was not vetted. *)
Definition prudent (tr : list fence_call) : Prop :=
  ∀ tr1 p args r tr2, tr = tr1 ++ Ran p args r :: tr2 → vetted tr1 p.

Definition kept (K : list fence_call → Prop) : Prop := ∀ tr x, K tr → K (tr ++ [x]).

Lemma kept_elem x : kept (λ tr, x ∈ tr).
Proof. intros tr y. set_solver. Qed.

Lemma kept_and K K' : kept K → kept K' → kept (λ tr, K tr ∧ K' tr).
Proof. intros H H' tr x [? ?]. auto. Qed.

Lemma dir_seen_kept d' : kept (λ tr, dir_seen tr d').
Proof. intros tr x (Ha & d & ? & ?). split; [done|]. exists d. set_solver. Qed.

Lemma approved_kept candidate b : kept (λ tr, approved candidate tr b).
Proof.
  intros tr x (st & d' & ? & ? & ? & ? & ? & ? & ? & ? & Hd & ?). exists st, d'. split_and!; try done; [set_solver..|].
  by apply dir_seen_kept.
Qed.

Lemma prudent_snoc tr x :
  prudent tr → match x with Ran p _ _ => vetted tr p | _ => True end → prudent (tr ++ [x]).
Proof.
  intros Hp Hx tr1 p args r tr2 Heq. destruct tr2 as [|y tr2 _] using rev_ind.
  - apply app_inj_tail in Heq as [-> ->]. exact Hx.
  - rewrite app_comm_cons, app_assoc in Heq. apply app_inj_tail in Heq as [-> _]. by eapply Hp.
Qed.

#[local] Abbreviation run_with K t Q := (triple resolves (λ tr, prudent tr ∧ K tr) (alone t)
  (λ r tr, prudent tr ∧ K tr ∧ Q r tr) prudent).

Lemma Lstat_spec K p :
  kept K → run_with K (Lstat_file p) (λ info tr, last tr = Some (Statted p info)).
Proof.
  intros HK. apply alone_atomic; [by intros ? []|]. intros e tr He [Hp HKt]. cbn.
  split; [by apply prudent_snoc|]. split; [by apply HK|]. apply last_snoc.
Qed.

Lemma EvalSymlinks_spec K p :
  kept K → run_with K (EvalSymlinks p) (λ real tr, ∀ d, real = Some d → IsAbs d = true ∧ Resolved p (Some d) ∈ tr).
Proof.
  intros HK. apply alone_atomic; [by intros ? []|]. intros e tr He [Hp HKt]. cbn.
  split; [by apply prudent_snoc|]. split; [by apply HK|]. intros d Hd. split; [by apply He|]. rewrite Hd. set_solver.
Qed.

Lemma resolve_dirs_spec K ds :
  kept K → (∀ d, d ∈ ds → d ∈ dirs) → run_with K (resolve_dirs ds) (λ ds' tr, ∀ d', d' ∈ ds' → dir_seen tr d').
Proof.
  intros HK. revert K HK. induction ds as [|d ds IH]; intros K HK Hin; cbn [resolve_dirs].
  - apply alone_ret. intros tr [? ?]. split_and!; try done. by intros ? ?%elem_of_nil.
  - eapply alone_bind; [by apply EvalSymlinks_spec|]. intros real. cbv beta.
    set (K' := λ tr : list fence_call, K tr ∧ ∀ d', real = Some d' → dir_seen tr d').
    assert (kept K') as HK'.
    { intros tr x [? Hd]. split; [by apply HK|]. intros. by apply dir_seen_kept, Hd. }
    eapply (alone_bind _ _ _ _ (λ ds' tr, prudent tr ∧ K' tr ∧ ∀ d', d' ∈ ds' → dir_seen tr d')).
    + eapply triple_pre; [|apply (IH K'); [done|set_solver]]. intros tr (Hp & HKt & Hd). split; [done|].
      split; [done|]. intros d' Hd'. destruct (Hd d' Hd'). split; [done|]. exists d. split; [|done]. apply Hin. set_solver.
    + intros ds'. apply alone_ret. intros tr (Hp & [HKt Hreal] & Hds). split_and!; [done..|].
      intros d'. destruct real as [d0|]; [|by apply Hds]. intros [->|]%elem_of_cons; [by apply Hreal|by apply Hds].
Qed.

Lemma within_dirs ds real tr :
  IsAbs real = true → (∀ d', d' ∈ ds → dir_seen tr d') →
  existsb (λ dir, match Rel dir real with
                  | Ok relative => negb (bool_decide (relative = "..")) && negb (HasPrefix relative "../")
                  | Err _ => false
                  end) ds = true →
  ∃ d', dir_seen tr d' ∧ segments d' `prefix_of` segments real.
Proof.
  intros Ha Hds (d' & Hin & Hw)%existsb_exists. apply list_elem_of_In in Hin. exists d'. split; [by apply Hds|].
  apply pathWithin_prefix; [by apply Hds|done|]. exact Hw.
Qed.

Lemma validateBinary_spec K candidate ds :
  kept K → (∀ tr, K tr → ∀ d', d' ∈ ds → dir_seen tr d') →
  run_with K (validateBinary (Geteuid c) candidate ds) (λ r tr, ∀ b, r = Ok b → approved candidate tr b).
Proof.
  intros HK Hds. assert (∀ err (P : list fence_call → Prop), (∀ tr, P tr → prudent tr ∧ K tr) →
    triple resolves P (alone (mret (Err err))) (λ r tr, prudent tr ∧ K tr ∧ ∀ b, r = Ok b → approved candidate tr b) prudent) as Herr.
  { intros err P HP. apply alone_ret. intros tr Ht. destruct (HP tr Ht). by split_and!. }
  unfold validateBinary. case_decide; [by apply Herr|]. cbv zeta. destruct (negb (IsAbs _)); [by apply Herr|].
  eapply alone_bind; [by apply Lstat_spec|]. intros [st|]; [|apply Herr; by intros tr (? & ? & ?)]. cbv beta.
  destruct (_ || _) eqn:Hty; [apply Herr; by intros tr (? & ? & ?)|].
  destruct (_ && _) eqn:Hu; [apply Herr; by intros tr (? & ? & ?)|].
  destruct (negb (Z.land _ _ =? 0)) eqn:Hperm; [apply Herr; by intros tr (? & ? & ?)|].
  set (K' := λ tr : list fence_call, K tr ∧ Statted (Clean candidate) (Some st) ∈ tr).
  eapply (alone_bind _ _ _ _ _ ).
  { eapply triple_pre; [|apply (EvalSymlinks_spec K'); by apply kept_and, kept_elem].
    intros tr (Hp & HKt & Hl). split; [done|]. split; [done|]. apply last_Some in Hl as [tr0 ->]. set_solver. }
  intros [real|]; [|apply Herr; by intros tr (? & [? ?] & ?)]. cbv beta.
  destruct (existsb _ ds) eqn:Hex; cbn [negb]; [|apply Herr; by intros tr (? & [? ?] & ?)].
  apply alone_ret. intros tr (Hp & [HKt Hst] & Hr). destruct (Hr real eq_refl) as [Habs Hres]. split_and!; [done..|].
  intros b [= <-]. destruct (within_dirs ds real tr Habs (Hds tr HKt) Hex) as (d' & Hd & Hpre).
  apply orb_false_iff in Hty as [? ?%negb_false_iff]. apply negb_false_iff in Hperm.
  exists st, d'. split_and!; try done; [|by apply Z.eqb_eq].
  destruct (Z.eqb_spec (file_uid st) 0); [by left|]. destruct (Z.eqb_spec (file_uid st) (Geteuid c)); [by right|done].
Qed.

Lemma stillSame_spec K b :
  kept K →
  run_with K (stillSame b) (λ r tr, r = Ok tt → ∃ st, last tr = Some (Statted (resolved b) (Some st)) ∧
    file_dev st = bin_dev b ∧ file_ino st = bin_ino b).
Proof.
  intros HK. eapply alone_bind; [by apply Lstat_spec|]. intros info. apply alone_ret. intros tr (Hp & HKt & Hl).
  split_and!; [done..|]. destruct info as [st|]; [|done]. intros Hr%require_ok. apply andb_true_iff in Hr as [?%Z.eqb_eq ?%Z.eqb_eq].
  by exists st.
Qed.

Lemma exec_spec K b candidate args :
  kept K → candidate ∈ [FencePath c; StatusPath c] → (∀ tr, K tr → approved candidate tr b) →
  triple resolves (λ tr, prudent tr ∧ K tr ∧ ∃ st, last tr = Some (Statted (resolved b) (Some st)) ∧
      file_dev st = bin_dev b ∧ file_ino st = bin_ino b)
    (alone (exec (resolved b) args))
    (λ r tr, prudent tr ∧ ∃ tr', tr = tr' ++ [Ran (resolved b) args r] ∧ K tr') prudent.
Proof.
  intros HK Hc Hb. apply alone_atomic; [by intros ? []|]. intros e tr _ (Hp & HKt & st & ? & ? & ?). cbn. split; [|by exists tr].
  apply prudent_snoc; [done|]. exists candidate, b, st. split_and!; auto.
Qed.

(** What allows an unattended failover, in the history. *)
Definition confirmed (request : FenceRequest) (r : FenceResult) (tr : list fence_call) : Prop :=
  match r with
  | ResultFenced =>
      ∃ tr' f x s y, tr = tr' ++ [Ran (resolved s) (fence_args request) y] ∧
        approved (FencePath c) tr' f ∧ Ran (resolved f) (fence_args request) x ∈ tr' ∧
        exit_code x = Some 0 ∧ past_deadline x = false ∧ approved (StatusPath c) tr' s ∧ exit_code y = Some 0
  | ResultAlreadyFenced =>
      ∃ tr' f x, tr = tr' ++ [Ran (resolved f) (fence_args request) x] ∧ approved (FencePath c) tr' f ∧
        exit_code x = Some 2 ∧ past_deadline x = false
  | _ => False
  end.

Definition answer_ok (request : FenceRequest) (out : FenceResult * result unit) (tr : list fence_call) : Prop :=
  prudent tr ∧ AllowsAutomatic out.1 = is_ok out.2 ∧ (out.2 = Ok tt → confirmed request out.1 tr).

Lemma refuse_spec (P : list fence_call → Prop) request r err :
  (∀ tr, P tr → prudent tr) → AllowsAutomatic r = false →
  triple resolves P (alone (mret (r, Err err))) (answer_ok request) prudent.
Proof. intros HP Hr. apply alone_ret. intros tr Ht. split; [by apply HP|]. by split. Qed.

Lemma confirm_spec f s x request :
  triple resolves (λ tr, prudent tr ∧ (approved (FencePath c) tr f ∧ approved (StatusPath c) tr s) ∧
      Ran (resolved f) (fence_args request) x ∈ tr ∧ exit_code x = Some 0 ∧ past_deadline x = false)
    (alone (confirm_fence s request)) (answer_ok request) prudent.
Proof.
  set (K := λ tr : list fence_call, (approved (FencePath c) tr f ∧ approved (StatusPath c) tr s) ∧
      Ran (resolved f) (fence_args request) x ∈ tr ∧ exit_code x = Some 0 ∧ past_deadline x = false).
  assert (kept K) as HK. { intros tr y ([? ?] & ? & ? & ?). split_and!; try done; [by apply approved_kept..|set_solver]. }
  unfold confirm_fence. eapply alone_bind; [by apply (stillSame_spec K)|]. intros [[]|]; [|apply refuse_spec; [by intros ? []|done]].
  eapply alone_bind.
  { eapply triple_pre; [|apply (exec_spec K s (StatusPath c)); [done|set_solver|by intros tr [[] ?]]].
    intros tr (? & ? & H). auto. }
  intros r. cbv beta. case_decide as Hex; [|destruct (past_deadline r); apply refuse_spec; try done; by intros ? []].
  apply alone_ret. intros tr (Hp & tr' & -> & ([? ?] & ? & ? & ?)). split; [done|]. split; [done|]. intros _.
  exists tr', f, x, s, r. by split_and!.
Qed.

Lemma validate_spec :
  run_with (λ _, True) (validate c) (λ r tr, ∀ f s, r = Ok (f, s) →
    approved (FencePath c) tr f ∧ approved (StatusPath c) tr s).
Proof.
  unfold validate. eapply alone_bind; [by apply resolve_dirs_spec|]. intros ds. cbv beta.
  set (K := λ tr : list fence_call, ∀ d', d' ∈ ds → dir_seen tr d').
  assert (kept K) as HK. { intros tr x H d' Hd. by apply dir_seen_kept, H. }
  case_decide; [apply alone_ret; by intros tr (? & ? & ?)|].
  eapply alone_bind.
  { eapply triple_pre; [|by apply (validateBinary_spec K)]. by intros tr (? & _ & ?). }
  intros [f|]; [|apply alone_ret; by intros tr (? & ? & ?)]. cbv beta.
  set (K' := λ tr : list fence_call, K tr ∧ approved (FencePath c) tr f).
  eapply alone_bind.
  { eapply triple_pre; [|apply (validateBinary_spec K'); [by apply kept_and; [|apply approved_kept]|by intros tr [? ?]]].
    intros tr (? & ? & Hok). split; [done|]. split; [done|]. by apply Hok. }
  intros r. apply alone_ret. intros tr (Hp & [HKt Hf] & Hs). split_and!; [done..|]. intros f' s'.
  destruct r as [s|]; [|done]. intros [= <- <-]. split; [done|]. by apply Hs.
Qed.

Lemma Fence_spec request :
  triple resolves (λ tr, prudent tr) (alone (Fence c request)) (answer_ok request) prudent.
Proof.
  unfold Fence. eapply alone_bind; [eapply triple_pre; [|apply validate_spec]; by intros tr ?|].
  intros [[f s]|]; [|apply refuse_spec; [by intros ? []|done]]. cbv beta.
  set (K := λ tr : list fence_call, approved (FencePath c) tr f ∧ approved (StatusPath c) tr s).
  assert (kept K) as HK by (apply kept_and; apply approved_kept).
  eapply alone_bind.
  { eapply triple_pre; [|by apply (stillSame_spec K)]. intros tr (? & _ & H). split; [done|]. by apply H. }
  intros [[]|]; [|apply refuse_spec; [by intros ? []|done]]. eapply alone_bind.
  { eapply triple_pre; [|apply (exec_spec K f (FencePath c)); [done|set_solver|by intros tr []]]. intros tr (? & ? & H). auto. }
  intros x. cbv beta. destruct (past_deadline x) eqn:Hx; [apply refuse_spec; [by intros ? []|done]|].
  case_decide; [|case_decide; [|apply refuse_spec; [by intros ? []|done]]].
  - eapply triple_pre; [|apply (confirm_spec f s x)]. intros tr (? & tr' & -> & Hk). split; [done|].
    split; [by apply HK|]. split_and!; [set_solver|done..].
  - apply alone_ret. intros tr (? & tr' & -> & [? ?]). split; [done|]. split; [done|]. intros _. by exists tr', f, x.
Qed.

(** The history only grows. *)
Lemma Fence_extends request : guarantees prefix (Fence c request).
Proof.
  assert (∀ {A} (f : fence_env → fence_call) (g : fence_env → A),
    guarantees prefix (atomic (λ e tr, (tr ++ [f e], g e)))) as Hcall.
  { intros A f g. apply guarantees_atomic. intros e tr. by apply prefix_app_r. }
  assert (∀ ds, guarantees prefix (resolve_dirs ds)) as Hdirs.
  { induction ds as [|d ds IH]; [done|]. apply guarantees_bind; [apply (Hcall _ (λ e, Resolved (Clean d) (real_path e)))|].
    intros real. by apply guarantees_bind. }
  assert (∀ b, guarantees prefix (stillSame b)) as Hsame.
  { intros b. apply guarantees_bind; [apply (Hcall _ (λ e, Statted (resolved b) (lstat e)))|done]. }
  assert (∀ p args, guarantees prefix (exec p args)) as Hexec.
  { intros p args. apply (Hcall _ (λ e, Ran p args (running e))). }
  assert (∀ candidate ds, guarantees prefix (validateBinary (Geteuid c) candidate ds)) as Hbin.
  { intros candidate ds. unfold validateBinary. case_decide; [done|]. destruct (negb _); [done|].
    apply guarantees_bind; [apply (Hcall _ (λ e, Statted _ (lstat e)))|]. intros [st|]; [|done].
    do 3 (case_match; [done|]). apply guarantees_bind; [apply (Hcall _ (λ e, Resolved _ (real_path e)))|].
    intros [real|]; [|done]. by case_match. }
  unfold Fence. apply guarantees_bind.
  - apply guarantees_bind; [apply Hdirs|]. intros ds. case_decide; [done|]. apply guarantees_bind; [apply Hbin|].
    intros [f|]; [|done]. by apply guarantees_bind; [apply Hbin|].
  - intros [[f s]|]; [|done]. apply guarantees_bind; [apply Hsame|]. intros [?|]; [|done].
    apply guarantees_bind; [apply Hexec|]. intros x. case_match; [done|]. case_decide; [|by case_decide].
    unfold confirm_fence. apply guarantees_bind; [apply Hsame|]. intros [?|]; [|done]. by apply guarantees_bind; [apply Hexec|].
Qed.

(** C8.  A fencing command is believed only when it is confirmed.
    However the files change while it runs, [Fence] never runs anything but a
    plain file of root or the agent inside an allowed directory, found
    unchanged by the call right before it is run; it answers with no error
    exactly when the result admits an unattended failover; and then the
    fencing command exited with 0 in time and the status command confirmed
    it afterwards, or the fencing command said that the source was fenced
    already. *)
Theorem fence_confirmed (request : FenceRequest) (es : list fence_env) :
  Forall resolves es →
  let out := run (Fence c request) es [] in
  prudent (final out) ∧
  ∀ r err, returned out = Some (r, err) →
    AllowsAutomatic r = is_ok err ∧ (err = Ok tt → confirmed request r (final out)).
Proof.
  intros Hes. pose proof (Fence_spec request [] es Hes) as H. unfold alone, returned, final in *. cbv zeta.
  destruct (run _ es []) as [[[[r err]|] tr] es'].
  - destruct H as [(? & ? & ?) _]; [by intros [|? ?]|]. split; [done|]. by intros ? ? [= <- <-].
  - split; [apply H; by intros [|? ?]|done].
Qed.
End fencing.

(** ** A command *)

Definition demo_command : Command :=
  {| FencePath := "/etc/fence/off"; StatusPath := "/etc/fence/status"; AllowedDirs := ["/etc/fence"]; Geteuid := 0 |}.
Definition demo_request : FenceRequest := {| FenceWorkload := "w"; FenceSource := "m"; FenceEpoch := 1 |}.
Definition finds (real : string) (node : Z) : fence_env :=
  {| lstat := Some {| is_link := false; is_regular := true; file_uid := 0; file_perm := 493; file_dev := 1; file_ino := node |};
     real_path := Some real; running := {| exit_code := Some 0; past_deadline := false |} |}.
Definition demo_answers : list fence_env :=
  [finds "/etc/fence" 1; finds "/etc/fence/off" 2; finds "/etc/fence/off" 2; finds "/etc/fence/status" 3;
   finds "/etc/fence/status" 3; finds "/etc/fence/off" 2; finds "/etc/fence/off" 2; finds "/etc/fence/status" 3;
   finds "/etc/fence/status" 3].

Lemma fence_confirmed_witness :
  confirmed demo_command demo_request ResultFenced (final (run (Fence demo_command demo_request) demo_answers [])).
Proof.
  refine (proj2 (proj2 (fence_confirmed demo_command demo_request demo_answers _) ResultFenced (Ok tt) _) eq_refl).
  - repeat constructor; intros p [= <-]; reflexivity.
  - vm_compute. reflexivity.
Defined.
