(* ===== verification/Standby.v ===== *)
(** * The standby supervisor ([internal/agent/standby.go])

    A standby keeps a duty for every workload another machine replicates to
    it.  The peer server reports holds and withdrawals; an operator may
    command a failover; and a loop watches the sources: when the control
    plane has not heard of a source and its peer listener does not answer
    either, three passes in a row, the standby acquires the ownership of the
    workload, fences the source, and restores the workload here.

    Everything that runs under the supervisor's lock is one action.  The
    machine is a [host] of [Restorer] and [Checkpoint], the control plane a
    [plane] of [Ownership], reached over a network that loses requests and
    answers, and the fencing provider that of [Fencing].  [trail] is a history
    variable: what the supervisor has seen and done to others. *)
From S2P Require Import Prelude GoStr Model Workload Prog Conc Crypto Session Network Host Runtime Restorer Checkpoint Ownership Fencing.

Local Open Scope string_scope.
Local Open Scope list_scope.
Local Open Scope Z_scope.

(** ** Data *)

(** [controlplane.Machine], as far as the supervisor reads it. *)
Record Machine := { MachineID : string; MachineStatus : string; LastSeenAt : option Z }.

(** Why a workload was failed over; the code renders it as text. *)
Inductive Reason :=
| ByOperator (text : string)
| SourceDead (fenced : FenceResult) (record : Machine)
| AlreadyRunning.

Inductive StandbyState := StandbyArmed | StandbyFailedOver.
#[export] Instance StandbyState_eq_dec : EqDecision StandbyState.
Proof. solve_decision. Defined.

(** [model.StandbyDuty]. *)
Record StandbyDuty := {
  DutyWorkload : string;
  DutyName : string;
  DutyUID : Z;
  DutySource : string;
  DutyEpoch : Z;
  DutyToken : string;
  DutyFencing : string;
  DutyFenceResult : option FenceResult;
  DutySourceURL : string;
  DutyKeepLast : Z;
  LastCheckpointID : string;
  LastCheckpointAt : Z;
  HeldAt : Z;
  DutyUpdatedAt : Z;
  DutyState : StandbyState;
  FailoverAt : Z;
  FailoverRestoreID : string;
  FailoverReason : option Reason;
  LastFailoverError : string;
  NextAttemptAt : Z;
}.
#[export] Instance StandbyDuty_eta : Eta StandbyDuty := fun d =>
  Build_StandbyDuty (DutyWorkload d) (DutyName d) (DutyUID d) (DutySource d) (DutyEpoch d) (DutyToken d)
    (DutyFencing d) (DutyFenceResult d) (DutySourceURL d) (DutyKeepLast d) (LastCheckpointID d)
    (LastCheckpointAt d) (HeldAt d) (DutyUpdatedAt d) (DutyState d) (FailoverAt d) (FailoverRestoreID d)
    (FailoverReason d) (LastFailoverError d) (NextAttemptAt d).

(** A duty as [ReplicationHeld] begins it. *)
Definition new_duty (workloadID : string) (now : Z) : StandbyDuty :=
  {| DutyWorkload := workloadID; DutyName := ""; DutyUID := 0; DutySource := ""; DutyEpoch := 0; DutyToken := "";
     DutyFencing := ""; DutyFenceResult := None; DutySourceURL := ""; DutyKeepLast := 0; LastCheckpointID := "";
     LastCheckpointAt := 0; HeldAt := now; DutyUpdatedAt := 0; DutyState := StandbyArmed; FailoverAt := 0;
     FailoverRestoreID := ""; FailoverReason := None; LastFailoverError := ""; NextAttemptAt := 0 |}.

Inductive event :=
| SourceAnswered (workloadID : string)
| SourceSilent (workloadID : string)
| Granted (workloadID : string) (epoch : Z)
| FenceAnswered (workloadID source : string) (epoch : Z) (r : FenceResult) (err : result unit)
| FenceRecorded (workloadID : string) (epoch : Z)
| RestoreStarted (workloadID checkpointID : string) (why : Reason)
| RestoreDone (workloadID restoreID : string)
| FoundRunning (workloadID : string).

(** [standbySupervisor]: the collection of duties, the transfer sessions, the
    counts and claims in memory, and what it works on. *)
Record station := {
  site : host;
  duties : gmap string StandbyDuty;
  transfers : Session.store;
  deathSamples : gmap string Z;
  failoverRunning : gset string;
  authority : plane;
  fence_log : list fence_call;
  trail : list event;
}.
#[export] Instance station_eta : Eta station := fun s =>
  Build_station (site s) (duties s) (transfers s) (deathSamples s) (failoverRunning s) (authority s)
    (fence_log s) (trail s).

(** What the world answers to one action. *)
Record watch_env := {
  kern : kernel;
  wall : Z;
  persisted : bool;
  presence : result (list Machine);
  listener : bool;
  arrived : bool;
  replied : bool;
  database : pg;
  fencing : fence_env;
}.

(** The providers of [internal/fencing]. *)
Inductive Provider := NoProvider | ProviderDisabled | ProviderSelf | ProviderCommand (c : Fencing.Command).

Definition presenceStaleAfter : Z := 90 * second.
Definition failoverRetryDelay : Z := 60 * second.
Definition deathSampleTarget : Z := 3.

Definition errFailoverInProgress : string := "a failover for this workload is already running".
Definition errForeignCheckpoint : string := "checkpoint belongs to a different workload".
Definition errDutyTerminal : string := "duty is already failed over".
Definition errPersist : string := "persist duty".

Definition held_before (a b : StandbyDuty) : Prop := HeldAt a ≤ HeldAt b.
#[export] Instance held_before_dec : RelDecision held_before.
Proof. intros a b. unfold held_before. apply _. Defined.

(** [Duties]. *)
Definition Duties (s : station) : list StandbyDuty :=
  merge_sort held_before
    (snd <$> merge_sort (λ a b, Is_true (String.leb a.1 b.1)) (map_to_list (duties s))).

(** [presenceOffline]. *)
Definition presenceOffline (now : Z) (record : Machine) : bool :=
  bool_decide (MachineStatus record = "offline") ||
  match LastSeenAt record with Some t => presenceStaleAfter <? now - t | None => false end.

Section supervisor.
Context `{HC : !Crypto}.
(** What the restorer is configured with, and the supervisor's own fields. *)
Context (cwd : result string) (url_Parse : string → result URL) (EqualFold : string → string → bool)
        (digest32 : string → Z) (stateDir : path) (has_network lazy_engine : bool)
        (controlURL organizationID apiKey machineID : string) (fencer : Provider)
        (peer_client : string → result unit).

#[local] Abbreviation act := (thread station watch_env).

(** ** Actions *)

Definition on_site {A} (t : call A) : act A := zoom site (λ h s, s <| site := h |>) kern t.
Definition on_authority {A} (t : thread plane pg A) : act A :=
  zoom authority (λ p s, s <| authority := p |>) database t.
Definition with_fencer {A} (t : thread (list fence_call) fence_env A) : act A :=
  zoom fence_log (λ l s, s <| fence_log := l |>) fencing t.
Definition note (ev : event) : act unit := atomic (λ _ s, (s <| trail := trail s ++ [ev] |>, tt)).

(** [updateDutyLocked]. *)
Definition updateDutyLocked (e : watch_env) (workloadID : string)
    (mutate : StandbyDuty → result StandbyDuty) (s : station) : station * (StandbyDuty * result unit) :=
  match duties s !! workloadID with
  | None => (s, (new_duty "" 0, Err errNotFound))
  | Some duty =>
      match mutate duty with
      | Err err => (s, (duty, Err err))
      | Ok duty' =>
          if persisted e then (s <| duties := <[workloadID := duty']> (duties s) |>, (duty', Ok tt))
          else (s, (duty', Err errPersist))
      end
  end.

(** ** The peer server's reports *)

(** [degradeHold]. *)
Definition degradeHold (session : Session) : act unit :=
  atomic (λ e s,
    (s <| transfers := (UpdateCleanup (wall e) (persisted e) (ID session) (SessionSource session)
           (λ v, Ok (v <| State := SessionFailed |>
                       <| SessionFailure := "standby could not record the duty for this hold" |>))
           (transfers s)).1 |>, tt)).

(** The duty a hold leaves, given what its manifest says. *)
Definition held_duty (session : Session) (loaded : result CheckpointManifest) (now : Z) (duty : StandbyDuty)
    : StandbyDuty :=
  let duty := duty <| DutySource := SessionSource session |> <| DutySourceURL := SourceAgentURL session |>
                   <| DutyKeepLast := SessionKeepLast session |> <| DutyFencing := SessionFencing session |>
                   <| LastCheckpointID := SessionCheckpoint session |> in
  let duty := match loaded with
              | Ok m => duty <| DutyName := SpecName (ManifestWorkload m) |> <| DutyUID := UID (ManifestWorkload m) |>
                             <| LastCheckpointAt := ManifestCreatedAt m |>
              | Err _ => duty <| LastCheckpointAt := SessionUpdatedAt session |>
              end in
  duty <| DutyUpdatedAt := now |>.

(** [ReplicationHeld]. *)
Definition ReplicationHeld (session : Session) : act unit :=
  if negb (bool_decide (Purpose session = PurposeReplication)) ||
     negb (bool_decide (State session = SessionHeld)) || bool_decide (SessionCheckpoint session = "") then mret tt
  else
    kept ← atomic (λ e s,
      let duty := default (new_duty (SessionWorkload session) (wall e)) (duties s !! SessionWorkload session) in
      if decide (DutyState duty = StandbyFailedOver) then (s, true)
      else
        let duty := held_duty session (LoadCheckpoint (kern e) (site s) (SessionCheckpoint session)) (wall e) duty in
        if persisted e then (s <| duties := <[DutyWorkload duty := duty]> (duties s) |>, true) else (s, false));
    if (kept : bool) then mret tt else degradeHold session.

(** [ReplicationWithdrawn]. *)
Definition ReplicationWithdrawn (sourceMachineID workloadID : string) : act unit :=
  atomic (λ e s,
    (match duties s !! workloadID with
     | None => s
     | Some duty =>
         if negb (bool_decide (DutySource duty = sourceMachineID)) then s
         else if decide (DutyState duty = StandbyFailedOver) then s
         else if persisted e then
           s <| duties := delete workloadID (duties s) |> <| deathSamples := delete workloadID (deathSamples s) |>
         else s
     end, tt)).

(** ** Bookkeeping *)

(** [recordDeathSample]. *)
Definition recordDeathSample (workloadID : string) : act bool :=
  atomic (λ _ s,
    let n := default 0 (deathSamples s !! workloadID) in
    let n' := if n <? deathSampleTarget then n + 1 else n in
    (s <| deathSamples := <[workloadID := n']> (deathSamples s) |>, deathSampleTarget <=? n')).

(** [clearDeathSample]. *)
Definition clearDeathSample (workloadID : string) : act unit :=
  atomic (λ _ s, (s <| deathSamples := delete workloadID (deathSamples s) |>, tt)).

(** [recordFencingEvidence]. *)
Definition recordFencingEvidence (workloadID : string) (epoch : Z) (token : string) (r : FenceResult) : act unit :=
  atomic (λ e s,
    let '(s', _) := updateDutyLocked e workloadID (λ d,
      Ok (d <| DutyEpoch := epoch |> <| DutyToken := token |> <| DutyFenceResult := Some r |>
            <| DutyUpdatedAt := wall e |>)) s in
    (s', tt)).

(** [recordAttemptFailure]. *)
Definition recordAttemptFailure (workloadID cause : string) : act unit :=
  atomic (λ e s,
    let '(s', _) := updateDutyLocked e workloadID (λ d,
      if decide (DutyState d = StandbyFailedOver) then Err errDutyTerminal
      else Ok (d <| LastFailoverError := cause |> <| NextAttemptAt := wall e + failoverRetryDelay |>
                 <| DutyUpdatedAt := wall e |>)) s in
    (s', tt)).

(** [markFailedOver]. *)
Definition markFailedOver (workloadID restoreID : string) (reason : Reason) : act (result StandbyDuty) :=
  atomic (λ e s,
    let '(s', (duty, r)) := updateDutyLocked e workloadID (λ d,
      if decide (DutyState d = StandbyFailedOver) then Err errDutyTerminal
      else Ok (d <| DutyState := StandbyFailedOver |> <| FailoverAt := wall e |>
                 <| FailoverRestoreID := restoreID |> <| FailoverReason := Some reason |>
                 <| LastFailoverError := "" |> <| NextAttemptAt := 0 |> <| DutyUpdatedAt := wall e |>)) s in
    (s', match r with
         | Ok _ => Ok duty
         | Err err => if decide (err = errDutyTerminal) then Ok duty else Err err
         end)).

(** ** The failover *)

(** [beginFailover]: the duty, and whether there is anything left to do. *)
Definition beginFailover (workloadID checkpointID : string) : act (result (StandbyDuty * bool)) :=
  atomic (λ _ s,
    match duties s !! workloadID with
    | None => (s, Err errNotFound)
    | Some duty =>
        if decide (DutyState duty = StandbyFailedOver) then (s, Ok (duty, false))
        else if decide (workloadID ∈ failoverRunning s) then (s, Err errFailoverInProgress)
        else if bool_decide (checkpointID = "") && bool_decide (LastCheckpointID duty = "") then
          (s, Err "standby duty holds no checkpoint to restore")
        else (s <| failoverRunning := {[workloadID]} ∪ failoverRunning s |>, Ok (duty, true))
    end).

(** [endFailover]. *)
Definition endFailover (workloadID : string) : act unit :=
  atomic (λ _ s, (s <| failoverRunning := failoverRunning s ∖ {[workloadID]} |>, tt)).

(** [restoreCheckpoint]. *)
Definition restoreCheckpoint (checkpointID : string) (lazy : bool) : act (result RestoreRecord) :=
  prepared ← on_site (Restorer.Prepare cwd url_Parse EqualFold digest32 stateDir has_network lazy_engine checkpointID lazy);
  match prepared with
  | Err err => mret (Err err)
  | Ok record =>
      committed ← on_site (Commit (RecordID record));
      match committed with
      | Err err =>
          _ ← on_site (Rollback has_network (RecordID record) "standby failover commit failed");
          mret (Err err)
      | Ok committed => mret (Ok committed)
      end
  end.

(** What [failover] does once it holds the claim. *)
Definition failover_claimed (duty : StandbyDuty) (workloadID selected : string) (lazy : bool) (reason : Reason)
    : act (result StandbyDuty) :=
  loaded ← on_site (look (λ e h, LoadCheckpoint e h selected));
  match loaded with
  | Err err => mret (Err err)
  | Ok manifest =>
      if negb (bool_decide (SpecID (ManifestWorkload manifest) = DutyWorkload duty)) then mret (Err errForeignCheckpoint)
      else
        running ← on_site (look (λ _ h, match Get h workloadID with
                                         | Ok w => bool_decide (Status w = WorkloadRunning)
                                         | Err _ => false
                                         end));
        if (running : bool) then
          _ ← note (FoundRunning workloadID);
          markFailedOver workloadID "" AlreadyRunning
        else
          _ ← note (RestoreStarted workloadID selected reason);
          committed ← restoreCheckpoint selected lazy;
          match committed with
          | Err err => mret (Err err)
          | Ok committed =>
              _ ← on_site (SetFailoverPolicy url_Parse workloadID None);
              _ ← note (RestoreDone workloadID (RecordID committed));
              markFailedOver workloadID (RecordID committed) reason
          end
  end.

(** [failover]. *)
Definition failover (workloadID checkpointID : string) (lazy : bool) (reason : Reason) : act (result StandbyDuty) :=
  begun ← beginFailover workloadID checkpointID;
  match begun with
  | Err err => mret (Err err)
  | Ok (duty, false) => mret (Ok duty)
  | Ok (duty, true) =>
      let selected := if decide (checkpointID = "") then LastCheckpointID duty else checkpointID in
      r ← failover_claimed duty workloadID selected lazy reason;
      _ ← endFailover workloadID;
      mret r
  end.

(** [Trigger]. *)
Definition Trigger (workloadID checkpointID : string) (lazy : bool) (reason : Reason) : act (result StandbyDuty) :=
  found ← atomic (λ _ s, (s, duties s !! workloadID));
  match found with
  | None => mret (Err errNotFound)
  | Some _ => failover workloadID checkpointID lazy reason
  end.

(** ** The control plane and the source *)

(** A request to the control plane: it may be lost, and so may its answer. *)
Definition ask_plane {A} (t : thread plane pg (reply A)) : act (result A) :=
  sent ← atomic (λ e s, (s, arrived e));
  if negb sent then mret (Err "post")
  else
    r ← on_authority t;
    heard ← atomic (λ e s, (s, replied e));
    mret (if negb heard then Err "post"
          else match r with Answered a => Ok a | Refused _ code => Err code end).

Definition identified : bool :=
  negb (bool_decide (controlURL = "")) && negb (bool_decide (organizationID = "")) &&
  negb (bool_decide (apiKey = "")) && negb (bool_decide (machineID = "")).

(** [acquireOwnership]. *)
Definition acquireOwnership (workloadID : string) : act (result (Z * string)) :=
  if negb identified then mret (Err errAutomaticFailoverBlocked)
  else
    r ← ask_plane (handleOwnershipAcquire organizationID workloadID machineID 120);
    mret ('(epoch, token) ← r;
          _ ← require (negb (epoch =? 0) && negb (bool_decide (token = ""))) "ownership acquire returned no epoch or token";
          Ok (epoch, token)).

(** [markOwnershipFenced]. *)
Definition markOwnershipFenced (workloadID : string) (epoch : Z) (token : string) : act (result unit) :=
  if negb identified then mret (Err errAutomaticFailoverBlocked)
  else ask_plane (handleOwnershipFence organizationID workloadID machineID token epoch).

(** [probeSource]: no client can be built, or whether the listener answers. *)
Definition probeSource (agentURL : string) : act (result bool) :=
  match peer_client agentURL with
  | Err err => mret (Err err)
  | Ok _ => atomic (λ e s, (s, Ok (listener e)))
  end.

(** [fetchPresence]. *)
Definition fetchPresence : act (result (gmap string Machine)) :=
  atomic (λ e s, (s, machines ← presence e;
                     Ok (foldl (λ m machine, <[MachineID machine := machine]> m) ∅ machines))).

(** [s.fencer.Fence]. *)
Definition fence_source (request : FenceRequest) : act (FenceResult * result unit) :=
  match fencer with
  | NoProvider => mret (ResultDisabled, Err errAutomaticFailoverBlocked)
  | ProviderDisabled => mret (Disabled_Fence request)
  | ProviderSelf => mret (Self_Fence request)
  | ProviderCommand c => with_fencer (Fence c request)
  end.

(** ** The watch *)

(** The last part of [considerFailover], once the death is sustained. *)
Definition fence_and_failover (duty : StandbyDuty) (record : Machine) : act unit :=
  let w := DutyWorkload duty in
  acquired ← acquireOwnership w;
  match acquired with
  | Err err => recordAttemptFailure w err
  | Ok (epoch, token) =>
      _ ← note (Granted w epoch);
      answer ← fence_source {| FenceWorkload := w; FenceSource := DutySource duty; FenceEpoch := epoch |};
      let '(fenced, err) := answer in
      _ ← note (FenceAnswered w (DutySource duty) epoch fenced err);
      _ ← recordFencingEvidence w epoch token fenced;
      if negb (is_ok err) || negb (AllowsAutomatic fenced) then
        recordAttemptFailure w (match err with Err err => err | Ok _ => errAutomaticFailoverBlocked end)
      else
        marked ← markOwnershipFenced w epoch token;
        match marked with
        | Err err => recordAttemptFailure w err
        | Ok _ =>
            _ ← note (FenceRecorded w epoch);
            r ← failover w "" false (SourceDead fenced record);
            match r with
            | Err err => recordAttemptFailure w err
            | Ok _ => mret tt
            end
        end
  end.

(** [considerFailover]. *)
Definition considerFailover (duty : StandbyDuty) (record : option Machine) : act unit :=
  let w := DutyWorkload duty in
  match record with
  | None => mret tt
  | Some record =>
      now ← atomic (λ e s, (s, wall e));
      if negb (presenceOffline now record) then
        _ ← clearDeathSample w; note (SourceAnswered w)
      else if decide (DutySourceURL duty = "") then mret tt
      else
        probed ← probeSource (DutySourceURL duty);
        match probed with
        | Err _ => mret tt
        | Ok true => _ ← clearDeathSample w; note (SourceAnswered w)
        | Ok false =>
            _ ← note (SourceSilent w);
            sustained ← recordDeathSample w;
            if negb sustained then mret tt
            else match fencer with
                 | NoProvider => recordAttemptFailure w errAutomaticFailoverBlocked
                 | _ => fence_and_failover duty record
                 end
        end
  end.

Fixpoint retain (ds : list StandbyDuty) : act unit :=
  match ds with
  | [] => mret tt
  | duty :: rest =>
      _ ← (if bool_decide (DutyState duty = StandbyArmed) && (0 <? DutyKeepLast duty) then
             _ ← on_site (PruneWorkload (DutyWorkload duty) (DutyKeepLast duty)); mret tt
           else mret tt);
      retain rest
  end.

Fixpoint watch (ds : list StandbyDuty) (records : gmap string Machine) : act unit :=
  match ds with
  | [] => mret tt
  | duty :: rest =>
      _ ← (if negb (bool_decide (DutyState duty = StandbyArmed)) then mret tt
           else
             now ← atomic (λ e s, (s, wall e));
             if now <? NextAttemptAt duty then mret tt
             else considerFailover duty (records !! DutySource duty));
      watch rest records
  end.

(** [tick]. *)
Definition tick : act unit :=
  ds ← atomic (λ _ s, (s, Duties s));
  _ ← retain ds;
  if decide (controlURL = "") then mret tt
  else
    records ← fetchPresence;
    match records with
    | Err _ => mret tt
    | Ok records => watch ds records
    end.

(** [run]: some number of passes. *)
Fixpoint supervise (n : nat) : act unit :=
  match n with
  | O => mret tt
  | S n => _ ← tick; supervise n
  end.

(** ** The agent's requests ([internal/agent/api.go]) *)

(** [publicStandbyDuty]. *)
Definition publicStandbyDuty (duty : StandbyDuty) : StandbyDuty :=
  duty <| DutyToken := "" |> <| DutyFenceResult := None |>.

(** [handleStandbyList], for a caller with user id [uid]. *)
Definition handleStandbyList (uid : Z) : act (list StandbyDuty * bool) :=
  atomic (λ _ s, (s, (publicStandbyDuty <$> filter (λ d, uid = 0 ∨ DutyUID d = uid) (Duties s),
                      negb (bool_decide (controlURL = ""))))).

(** [handleStandbyTrigger]: whether the source is reachable, and the duty. *)
Definition handleStandbyTrigger (uid : Z) (workloadID checkpointID : string) (lazy : bool)
    : act (result (string * StandbyDuty)) :=
  found ← atomic (λ _ s, (s, duties s !! workloadID));
  match found with
  | None => mret (Err "STANDBY_DUTY_NOT_FOUND")
  | Some duty =>
      if negb (uid =? 0) && negb (uid =? DutyUID duty) then mret (Err "RESOURCE_FORBIDDEN")
      else
        probed ← (if decide (DutySourceURL duty = "") then mret (Err "no listener") else probeSource (DutySourceURL duty));
        let reachable := match probed with Err _ => "unknown" | Ok alive => if (alive : bool) then "yes" else "no" end in
        r ← Trigger (DutyWorkload duty) checkpointID lazy (ByOperator "operator commanded failover");
        mret (match r with
              | Err err => Err (if decide (err = errNotFound) then "STANDBY_DUTY_NOT_FOUND" else "FAILOVER_FAILED")
              | Ok duty => Ok (reachable, publicStandbyDuty duty)
              end)
  end.
End supervisor.
