(* ===== verification/StandbySafe.v ===== *)
(** * Failover is justified

    Under every interleaving of the supervisor's loop with holds,
    withdrawals, operator commands and requests of other machines to the
    control plane, and over any number of restarts: an automatic restore is
    started only after the source was silent in three passes, an ownership
    epoch was granted, the fencing command confirmed the fence and the
    control plane recorded it; and a duty that says it failed over tells the
    truth and is never changed. *)
From S2P Require Import Prelude GoStr Model Workload Prog Conc Crypto Session Network Host Runtime Restorer RestorerSafe RestorerCases Checkpoint Ownership Fencing Standby.

Local Open Scope string_scope.
Local Open Scope list_scope.
Local Open Scope Z_scope.

(** ** Histories *)

(** How often a source was found silent since it last answered. *)
Definition heard_of (w : string) (n : Z) (ev : event) : Z :=
  match ev with
  | SourceSilent w' => if decide (w' = w) then n + 1 else n
  | SourceAnswered w' => if decide (w' = w) then 0 else n
  | _ => n
  end.
Definition silence (w : string) (tr : list event) : Z := foldl (heard_of w) 0 tr.

(** What the supervisor's loop alone does. *)
Definition neutral (ev : event) : Prop :=
  match ev with
  | RestoreStarted _ _ (ByOperator _) | RestoreDone _ _ | FoundRunning _ => True
  | _ => False
  end.

Lemma silence_snoc w tr ev : silence w (tr ++ [ev]) = heard_of w (silence w tr) ev.
Proof. unfold silence. by rewrite foldl_app. Qed.

Lemma silence_neutral w tr evs : Forall neutral evs → silence w (tr ++ evs) = silence w tr.
Proof.
  unfold silence. intros H. rewrite foldl_app. induction H as [|ev evs Hev _ IH]; [done|]. cbn.
  replace (heard_of w _ ev) with (foldl (heard_of w) 0 tr); [done|]. by destruct ev.
Qed.

Lemma silence_nonneg w tr : 0 ≤ silence w tr.
Proof.
  induction tr as [|ev tr IH] using rev_ind; [done|]. rewrite silence_snoc. destruct ev; cbn; try done; case_decide; lia.
Qed.

Section standby.
Context `{HC : !Crypto}.
Context (cwd : result string) (url_Parse : string → result URL) (EqualFold : string → string → bool)
        (digest32 : string → Z) (stateDir : path) (has_network lazy_engine : bool)
        (controlURL organizationID apiKey machineID : string) (fencer : Provider)
        (peer_client : string → result unit).

(** ** Grounds *)

(** The fencing command confirmed this fence. *)
Definition backed (log : list fence_call) (w source : string) (epoch : Z) (r : FenceResult) : Prop :=
  match fencer with
  | ProviderCommand c =>
      ∃ log0, log0 `prefix_of` log ∧
        confirmed c {| FenceWorkload := w; FenceSource := source; FenceEpoch := epoch |} r log0
  | _ => False
  end.

Definition grounds (log : list fence_call) (tr : list event) (w : string) (r : FenceResult) : Prop :=
  deathSampleTarget ≤ silence w tr ∧ AllowsAutomatic r = true ∧
  ∃ epoch source,
    [Granted w epoch; FenceAnswered w source epoch r (Ok tt); FenceRecorded w epoch] `sublist_of` tr ∧
    backed log w source epoch r.

(** Every automatic restore had its grounds. *)
Definition justified (log : list fence_call) (tr : list event) : Prop :=
  ∀ tr1 w cp r m tr2, tr = tr1 ++ RestoreStarted w cp (SourceDead r m) :: tr2 → grounds log tr1 w r.

(** The outcome of a failover, without the evidence of the fencing (epoch,
    token and result), which [recordFencingEvidence] rewrites. *)
Definition outcome_of (d : StandbyDuty) : StandbyState * Z * string * option Reason * string * string :=
  (DutyState d, FailoverAt d, FailoverRestoreID d, FailoverReason d, LastCheckpointID d, DutySource d).

(** What a duty says of its failover happened. *)
Definition true_of (tr : list event) (w restoreID : string) (why : option Reason) : Prop :=
  why = Some AlreadyRunning ∧ restoreID = "" ∧ FoundRunning w ∈ tr ∨
  ∃ reason cp, why = Some reason ∧ RestoreStarted w cp reason ∈ tr ∧ RestoreDone w restoreID ∈ tr.

Definition honest (s : station) : Prop :=
  ∀ w d, duties s !! w = Some d → DutyState d = StandbyFailedOver →
    true_of (trail s) w (FailoverRestoreID d) (FailoverReason d).

Definition counts (s : station) : Prop :=
  ∀ w n, deathSamples s !! w = Some n → n ≤ silence w (trail s).

Definition careful (log : list fence_call) : Prop :=
  match fencer with ProviderCommand c => prudent c log | _ => True end.

Record invariant (s : station) : Prop := {
  inv_counts : counts s;
  inv_justified : justified (fence_log s) (trail s);
  inv_honest : honest s;
  inv_careful : careful (fence_log s);
}.

(** ** Moves *)

(** What a duty on record looks like: it is filed under its workload, names a
    checkpoint, and its failover fields agree with its state. *)
Definition well_formed (w : string) (d : StandbyDuty) : Prop :=
  DutyWorkload d = w ∧ LastCheckpointID d ≠ "" ∧
  match DutyState d with
  | StandbyArmed => FailoverAt d = 0 ∧ FailoverRestoreID d = "" ∧ FailoverReason d = None
  | StandbyFailedOver => FailoverReason d ≠ None ∧ LastFailoverError d = "" ∧ NextAttemptAt d = 0
  end.
Definition typed (s : station) : Prop := ∀ w d, duties s !! w = Some d → well_formed w d.

(** Duties stay well formed, and what a failed-over duty says is final. *)
Definition settled (s s' : station) : Prop :=
  typed s → typed s' ∧
  ∀ w d, duties s !! w = Some d → DutyState d = StandbyFailedOver →
    ∃ d', duties s' !! w = Some d' ∧ outcome_of d' = outcome_of d.

#[local] Instance settled_preorder : PreOrder settled.
Proof.
  split; [intros s Ht; split; [done|]; intros w d Hd _; by exists d|].
  intros s1 s2 s3 H12 H23 Ht1. destruct (H12 Ht1) as [Ht2 F12]. destruct (H23 Ht2) as [Ht3 F23]. split; [done|].
  intros w d Hd Hf. destruct (F12 w d Hd Hf) as (d2 & Hd2 & Ho2).
  assert (DutyState d2 = StandbyFailedOver) as Hf2 by (injection Ho2; congruence).
  destruct (F23 w d2 Hd2 Hf2) as (d3 & Hd3 & Ho3). exists d3. split; [done|congruence].
Qed.

Lemma settled_same s s' : duties s' = duties s → settled s s'.
Proof. intros Hd. intros Ht. unfold typed. rewrite Hd. split; [exact Ht|]. intros w d H _. by exists d. Qed.

(** A duty is replaced: an armed one, or one that says the same. *)
Lemma settled_insert s s' w d' :
  duties s' = <[w := d']> (duties s) → (typed s → well_formed w d') →
  (∀ d, typed s → duties s !! w = Some d → DutyState d = StandbyFailedOver → outcome_of d' = outcome_of d) → settled s s'.
Proof.
  intros Hs Hw Ho Ht. unfold typed. rewrite Hs. split.
  - intros w0 d0 [[<- <-]|[_ Hd]]%lookup_insert_Some; [by apply Hw|by apply Ht].
  - intros w0 d0 Hd Hf. destruct (decide (w = w0)) as [<-|Hne]; [exists d'; rewrite lookup_insert_eq|exists d0; rewrite lookup_insert_ne by done]; auto.
Qed.

(** An action that neither observes nor restores. *)
Definition aside (s s' : station) : Prop :=
  trail s' = trail s ∧ fence_log s' = fence_log s ∧ deathSamples s' ⊆ deathSamples s ∧ settled s s' ∧
  ∀ w d', duties s' !! w = Some d' →
    DutyState d' = StandbyArmed ∨ ∃ d, duties s !! w = Some d ∧ outcome_of d' = outcome_of d.

(** What the threads beside the loop do, and what every thread does. *)
Definition follows (s s' : station) : Prop :=
  (∃ evs, trail s' = trail s ++ evs ∧ Forall neutral evs) ∧ deathSamples s' ⊆ deathSamples s ∧
  fence_log s' = fence_log s.
Definition adds (s s' : station) : Prop := trail s `prefix_of` trail s'.

#[local] Instance follows_preorder : PreOrder follows.
Proof.
  split.
  - intros s. split; [|done]. exists []. by rewrite app_nil_r.
  - intros s1 s2 s3 ((e1 & H1 & N1) & D1 & L1) ((e2 & H2 & N2) & D2 & L2). split.
    + exists (e1 ++ e2). rewrite H2, H1, <- app_assoc. split; [done|]. by apply Forall_app.
    + split; [by etrans|congruence].
Qed.
#[local] Instance adds_preorder : PreOrder adds.
Proof. split; [intros s; unfold adds; done|]. intros s1 s2 s3. unfold adds. by etrans. Qed.

Lemma follows_adds s s' : follows s s' → adds s s'.
Proof. intros ((evs & Heq & _) & _). unfold adds. rewrite Heq. by apply prefix_app_r. Qed.

Lemma aside_follows s s' : aside s s' → follows s s'.
Proof. intros (Ht & Hl & Hd & _). split; [|done]. exists []. by rewrite app_nil_r. Qed.

Lemma true_of_grows tr tr' w rid why : true_of tr w rid why → tr `prefix_of` tr' → true_of tr' w rid why.
Proof.
  intros H [k ->]. destruct H as [(? & ? & ?)|(reason & cp & ? & ? & ?)]; [left|right; exists reason, cp]; set_solver.
Qed.

Lemma aside_inv s s' : aside s s' → invariant s → invariant s'.
Proof.
  intros (Ht & Hl & Hd & _ & Hdut) [Hc Hj Hh Hp]. split.
  - intros w n Hn. rewrite Ht. apply Hc. by eapply lookup_weaken.
  - by rewrite Ht, Hl.
  - intros w d' Hd' Hf. destruct (Hdut w d' Hd') as [?|(d & Hdd & Ho)]; [congruence|]. rewrite Ht.
    injection Ho as Hst _ Hr Hw _ _. rewrite Hr, Hw. apply (Hh w d); [done|congruence].
  - by rewrite Hl.
Qed.

(** ** Actions that observe nothing *)

Lemma aside_same s s' :
  trail s' = trail s → fence_log s' = fence_log s → deathSamples s' = deathSamples s → duties s' = duties s → aside s s'.
Proof.
  intros Ht Hl Hd Hdut. split_and!; [done|done|by rewrite Hd|by apply settled_same|]. intros w d' H. right. exists d'. by rewrite <- Hdut.
Qed.

Lemma aside_refl s : aside s s.
Proof. by apply aside_same. Qed.

Lemma aside_read {A} (f : watch_env → station → A) : guarantees aside (atomic (λ e s, (s, f e s))).
Proof. apply guarantees_atomic. intros e s. apply aside_refl. Qed.

Lemma aside_site {A} (t : call A) : guarantees aside (on_site t).
Proof. apply guarantees_zoom. intros x s. by apply aside_same. Qed.

Lemma aside_authority {A} (t : thread plane pg A) : guarantees aside (on_authority t).
Proof. apply guarantees_zoom. intros x s. by apply aside_same. Qed.

Lemma aside_update e w mutate s :
  (∀ d d', mutate d = Ok d' → outcome_of d' = outcome_of d ∧ (well_formed w d → well_formed w d')) →
  aside s (updateDutyLocked e w mutate s).1.
Proof.
  intros Hm. unfold updateDutyLocked. destruct (duties s !! w) as [d|] eqn:Hd; [|apply aside_refl].
  destruct (mutate d) as [d'|] eqn:Hmd; [|apply aside_refl]. destruct (persisted e); [|apply aside_refl].
  destruct (Hm d d' Hmd) as [Ho Hw]. split_and!; try done.
  - eapply settled_insert; [done|auto|]. intros d0 _ Hd0 _. congruence.
  - cbn. intros w0 d0 [[<- <-]|[_ H0]]%lookup_insert_Some; right; [by exists d|by exists d0].
Qed.

Lemma aside_evidence w epoch token r : guarantees aside (recordFencingEvidence w epoch token r).
Proof.
  apply guarantees_atomic. intros e s. pose proof (aside_update e w) as H.
  destruct (updateDutyLocked _ _ _ s) as [s' x] eqn:Hs. replace s' with (updateDutyLocked e w (λ d, Ok
    (d <| DutyEpoch := epoch |> <| DutyToken := token |> <| DutyFenceResult := Some r |> <| DutyUpdatedAt := wall e |>)) s).1
    by by rewrite Hs. apply H. by intros d d' [= <-].
Qed.

Lemma aside_failure w cause : guarantees aside (recordAttemptFailure w cause).
Proof.
  apply guarantees_atomic. intros e s. destruct (updateDutyLocked _ _ _ s) as [s' x] eqn:Hs.
  apply (f_equal fst) in Hs. cbn in Hs. subst s'. apply aside_update. intros d d'. case_decide as Hf; [done|].
  intros [= <-]. split; [done|]. unfold well_formed. cbn. by destruct (DutyState d).
Qed.

Lemma aside_begin w cp : guarantees aside (beginFailover w cp).
Proof. apply guarantees_atomic. intros e s. repeat case_match; by apply aside_same. Qed.

Lemma aside_end w : guarantees aside (endFailover w).
Proof. apply guarantees_atomic. intros e s. by apply aside_same. Qed.

Lemma held_same session l now d :
  DutyState (held_duty session l now d) = DutyState d ∧
  (SessionCheckpoint session ≠ "" →
   (∃ t, d = new_duty (SessionWorkload session) t) ∨ well_formed (SessionWorkload session) d →
   well_formed (SessionWorkload session) (held_duty session l now d)).
Proof.
  split; [by destruct l|]. intros Hcp [[t ->]|(Hd & _ & Hs)]; unfold well_formed; [by destruct l|]. by destruct l; cbn.
Qed.

Lemma aside_held session : guarantees aside (ReplicationHeld session).
Proof.
  unfold ReplicationHeld. destruct (_ || _) eqn:Hguard; [done|].
  apply orb_false_iff in Hguard as [_ Hcp%bool_decide_eq_false]. apply guarantees_bind.
  - apply guarantees_atomic. intros e s. cbv zeta. case_decide as Hf; [apply aside_refl|]. destruct (persisted e); [|apply aside_refl].
    set (d0 := default _ _) in *. set (l := LoadCheckpoint _ _ _). destruct (held_same session l (wall e) d0) as [Hst Hw].
    assert (DutyState d0 = StandbyArmed) as Ha by by destruct (DutyState d0).
    assert (typed s → well_formed (SessionWorkload session) (held_duty session l (wall e) d0)) as Hwf.
    { intros Ht. apply Hw; [done|]. unfold d0. destruct (duties s !! _) as [d|] eqn:Hd; [right; by apply Ht|by left; exists (wall e)]. }
    split_and!; [done..| |].
    + eapply settled_insert; [done|intros Ht; rewrite (proj1 (Hwf Ht)); by apply Hwf|]. intros d Ht Hd Hfd. rewrite (proj1 (Hwf Ht)) in Hd.
      unfold d0 in Ha. rewrite Hd in Ha. cbn in Ha. congruence.
    + cbn [fst duties set_field]. intros w d [[_ <-]|[_ Hd]]%lookup_insert_Some; [left; congruence|right; by exists d].
  - intros []; [done|]. apply guarantees_atomic. intros e s. by apply aside_same.
Qed.

Lemma aside_withdrawn source w : guarantees aside (ReplicationWithdrawn source w).
Proof.
  apply guarantees_atomic. intros e s. destruct (duties s !! w) as [d|] eqn:Hdw; [|apply aside_refl].
  destruct (negb _); [apply aside_refl|]. case_decide as Hst; [apply aside_refl|]. destruct (persisted e); [|apply aside_refl].
  split_and!; try done; cbn; [apply delete_subseteq| |].
  { intros Ht. split; [intros w0 d0; cbn; intros [_ Hd]%lookup_delete_Some; by apply Ht|]. intros w0 d0 Hd Hf. exists d0. cbn.
    rewrite lookup_delete_ne by congruence. done. }
  intros w0 d0 [_ Hd]%lookup_delete_Some. right. by exists d0.
Qed.

Lemma aside_plane {A} (t : thread plane pg (reply A)) : guarantees aside (ask_plane t).
Proof.
  apply guarantees_bind; [apply aside_read|]. intros sent. destruct (negb sent); [done|].
  apply guarantees_bind; [apply aside_authority|]. intros r. apply guarantees_bind; [apply aside_read|done].
Qed.

Lemma aside_acquire w : guarantees aside (acquireOwnership controlURL organizationID apiKey machineID w).
Proof. unfold acquireOwnership. destruct (negb _); [done|]. apply guarantees_bind; [apply aside_plane|done]. Qed.

Lemma aside_mark w epoch token :
  guarantees aside (markOwnershipFenced controlURL organizationID apiKey machineID w epoch token).
Proof. unfold markOwnershipFenced. destruct (negb _); [done|]. apply aside_plane. Qed.

Lemma aside_probe url : guarantees aside (probeSource peer_client url).
Proof. unfold probeSource. destruct (peer_client url); [apply aside_read|done]. Qed.

Lemma aside_restore cp lazy :
  guarantees aside (restoreCheckpoint cwd url_Parse EqualFold digest32 stateDir has_network lazy_engine cp lazy).
Proof.
  apply guarantees_bind; [apply aside_site|]. intros [record|]; [|done]. apply guarantees_bind; [apply aside_site|].
  intros [committed|]; [done|]. by apply guarantees_bind; [apply aside_site|].
Qed.

Lemma aside_retain ds : guarantees aside (retain ds).
Proof.
  induction ds as [|d ds IH]; [done|]. apply guarantees_bind; [|done]. destruct (_ && _); [|done].
  by apply guarantees_bind; [apply aside_site|].
Qed.

(** ** Events *)

Definition noted (ev : event) (s : station) : station := s <| trail := trail s ++ [ev] |>.

Lemma justified_snoc log tr ev :
  justified log tr →
  match ev with RestoreStarted w _ (SourceDead r _) => grounds log tr w r | _ => True end →
  justified log (tr ++ [ev]).
Proof.
  intros Hj Hev tr1 w cp r m tr2 Heq. destruct tr2 as [|y tr2 _] using rev_ind.
  - apply app_inj_tail in Heq as [-> ->]. exact Hev.
  - rewrite app_comm_cons, app_assoc in Heq. apply app_inj_tail in Heq as [-> _]. by eapply Hj.
Qed.

(** An event keeps the invariant when the counts allow for it and it has its
    grounds. *)
Lemma noted_inv ev s :
  invariant s → (∀ w n, deathSamples s !! w = Some n → n ≤ silence w (trail s) → n ≤ heard_of w (silence w (trail s)) ev) →
  match ev with RestoreStarted w _ (SourceDead r _) => grounds (fence_log s) (trail s) w r | _ => True end →
  invariant (noted ev s).
Proof.
  intros [Hc Hj Hh Hp] Hcount Hev. split; cbn; [|by apply justified_snoc| |done].
  - intros w n Hn. change (trail (noted ev s)) with (trail s ++ [ev]). rewrite silence_snoc. by apply Hcount, Hc.
  - intros w d Hd Hf. eapply true_of_grows; [by apply Hh|]. by apply prefix_app_r.
Qed.

Lemma noted_adds ev s : adds s (noted ev s).
Proof. by apply prefix_app_r. Qed.

Lemma noted_follows ev s : neutral ev → follows s (noted ev s).
Proof. intros Hn. split; [|done]. exists [ev]. split; [done|]. by constructor. Qed.

(** ** One failover *)

(** The same argument serves the loop and an operator's request: [Rely] is
    what the others do, and [K] what justifies the reason. *)
Section role.
Context (okE : watch_env → Prop) (Rely Guar : station → station → Prop) `{!PreOrder Rely}.
Context (Hrely : ∀ s s', Rely s s' → adds s s')
        (Hguar : ∀ s s', trail s' = trail s → fence_log s' = fence_log s → deathSamples s' ⊆ deathSamples s → Guar s s')
        (Hneutral : ∀ ev s, neutral ev → Guar s (noted ev s)).
#[local] Abbreviation upholds_ := (upholds okE Rely Guar invariant).

Lemma aside_guar s s' : aside s s' → Guar s s'.
Proof. intros (? & ? & ? & _). by apply Hguar. Qed.

(** Knowledge of the histories survives what observes nothing. *)
Lemma aside_upholds {R} (t : thread station watch_env R) (K : list event → list fence_call → Prop) :
  guarantees aside t →
  (∀ s s', K (trail s) (fence_log s) → Rely s s' → K (trail s') (fence_log s')) →
  upholds_ (λ s, K (trail s) (fence_log s)) t (λ _ s, K (trail s) (fence_log s)).
Proof.
  intros Ht HK. eapply upholds_guarantees; [exact Ht| | |exact HK].
  - intros s s' Ha Hi. split; [by eapply aside_inv|by apply aside_guar].
  - intros s s' (-> & -> & _). done.
Qed.

Lemma aside_anyhow {R} (t : thread station watch_env R) (P : station → Prop) :
  guarantees aside t → upholds_ P t (λ _ _, True).
Proof. intros Ht. eapply upholds_pre_eq; [|by apply (aside_upholds t (λ _ _, True))]. done. Qed.

Lemma neutral_counts ev s :
  neutral ev → ∀ w n, deathSamples s !! w = Some n → n ≤ silence w (trail s) → n ≤ heard_of w (silence w (trail s)) ev.
Proof. by destruct ev. Qed.

(** Others do not take an event back. *)
Lemma adds_elem ev s s' : ev ∈ trail s → Rely s s' → ev ∈ trail s'.
Proof. intros Hin [k Hk]%Hrely. rewrite Hk. set_solver. Qed.

Lemma adds_true s s' w rid why : true_of (trail s) w rid why → Rely s s' → true_of (trail s') w rid why.
Proof. intros Ht Hr. eapply true_of_grows; [exact Ht|]. by apply Hrely. Qed.

Lemma mark_upholds w rid reason :
  upholds_ (λ s, true_of (trail s) w rid (Some reason)) (markFailedOver w rid reason) (λ _ _, True).
Proof.
  apply upholds_atomic. intros e s s' _ Ht HR Hi. pose proof (adds_true _ _ _ _ _ Ht HR) as Ht'.
  unfold updateDutyLocked. destruct (duties s' !! w) as [d|] eqn:Hd; [|by split_and!; [|apply Hguar|]].
  case_decide; [by split_and!; [|apply Hguar|]|]. destruct (persisted e); [|by split_and!; [|apply Hguar|]]. cbn.
  split_and!; [|by apply Hguar|done]. destruct Hi as [Hc Hj Hh Hp]. split; [done|done| |done].
  intros w0 d0. cbn. intros [[<- <-]|[_ Hd0]]%lookup_insert_Some Hf; [exact Ht'|by apply (Hh w0 d0)].
Qed.

Context (w : string) (reason : Reason) (K : list event → list fence_call → Prop).
Context (HK : ∀ s s', K (trail s) (fence_log s) → Rely s s' → K (trail s') (fence_log s'))
        (Hstart : ∀ cp s, invariant s → K (trail s) (fence_log s) →
           invariant (noted (RestoreStarted w cp reason) s) ∧ Guar s (noted (RestoreStarted w cp reason) s)).
#[local] Abbreviation known := (λ s, K (trail s) (fence_log s)).
#[local] Abbreviation claimed_ := (failover_claimed cwd url_Parse EqualFold digest32 stateDir has_network lazy_engine).
#[local] Abbreviation failover_ := (failover cwd url_Parse EqualFold digest32 stateDir has_network lazy_engine).

Lemma claimed_upholds duty selected lazy : upholds_ known (claimed_ duty w selected lazy reason) (λ _ _, True).
Proof.
  unfold failover_claimed. eapply upholds_bind; [by apply _|apply aside_upholds; [apply aside_site|done]|].
  intros [manifest|]; [|done]. destruct (negb _); [done|].
  eapply upholds_bind; [by apply _|apply aside_upholds; [apply aside_site|done]|]. intros [].
  - eapply (upholds_bind _ _ _ _ _ _ _ (λ _ s, true_of (trail s) w "" (Some AlreadyRunning))); [|intros []; apply mark_upholds].
    apply upholds_atomic. intros e s s' _ Hs HR Hi. split_and!.
    + by apply (noted_inv (FoundRunning w)); [|apply neutral_counts|].
    + by apply Hneutral.
    + intros s'' HR' _. eapply adds_true; [|exact HR']. left. cbn. set_solver.
  - eapply (upholds_bind _ _ _ _ _ _ _ (λ _ s, RestoreStarted w selected reason ∈ trail s)).
    { apply upholds_atomic. intros e s s' _ Hs HR Hi. destruct (Hstart selected s' Hi) as [? ?]; [by eapply HK|].
      split_and!; [done..|]. intros s'' HR' _. eapply adds_elem; [|exact HR']. cbn. set_solver. }
    intros []. eapply upholds_bind; [by apply _| |].
    { apply (aside_upholds _ (λ tr _, RestoreStarted w selected reason ∈ tr)); [apply aside_restore|apply adds_elem]. }
    intros [committed|]; [|done]. eapply upholds_bind; [by apply _| |].
    { apply (aside_upholds _ (λ tr _, RestoreStarted w selected reason ∈ tr)); [apply aside_site|apply adds_elem]. }
    intros policy. cbv beta. eapply (upholds_bind _ _ _ _ _ _ _ (λ _ s, true_of (trail s) w (RecordID committed) (Some reason)));
      [|intros []; apply mark_upholds].
    apply upholds_atomic. intros e s s' _ Hs HR Hi. split_and!.
    + by apply (noted_inv (RestoreDone w (RecordID committed))); [|apply neutral_counts|].
    + by apply Hneutral.
    + intros s'' HR' _. eapply adds_true; [|exact HR']. right. exists reason, selected. cbn.
      split; [done|]. pose proof (adds_elem _ _ _ Hs HR). set_solver.
Qed.

Lemma failover_upholds cp lazy : upholds_ known (failover_ w cp lazy reason) (λ _ _, True).
Proof.
  unfold failover. eapply upholds_bind; [by apply _|apply aside_upholds; [apply aside_begin|done]|].
  intros [[duty []]|]; [|done|done]. eapply upholds_bind; [by apply _|apply claimed_upholds|]. intros r.
  eapply upholds_bind; [by apply _|apply aside_anyhow, aside_end|done].
Qed.
End role.

(** ** The loop *)

(** The kernel resolves paths as it should when the fencing command runs. *)
Definition sane (e : watch_env) : Prop := resolves (fencing e).

#[local] Abbreviation leads := (upholds sane follows adds invariant).

Lemma still_adds s s' : trail s' = trail s → fence_log s' = fence_log s → deathSamples s' ⊆ deathSamples s → adds s s'.
Proof. intros Ht _ _. unfold adds. by rewrite Ht. Qed.

Lemma still_follows s s' :
  trail s' = trail s → fence_log s' = fence_log s → deathSamples s' ⊆ deathSamples s → follows s s'.
Proof. intros Ht Hl Hd. split; [|done]. exists []. by rewrite app_nil_r. Qed.

(** What the loop knows and nobody takes away. *)
Definition stable (K : list event → list fence_call → Prop) : Prop :=
  ∀ tr log evs, Forall neutral evs → K tr log → K (tr ++ evs) log.

Lemma stable_follows K s s' : stable K → K (trail s) (fence_log s) → follows s s' → K (trail s') (fence_log s').
Proof. intros HK Hs ((evs & -> & Hn) & _ & ->). by apply HK. Qed.

Lemma lead_aside {R} (t : thread station watch_env R) K :
  guarantees aside t → stable K → leads (λ s, K (trail s) (fence_log s)) t (λ _ s, K (trail s) (fence_log s)).
Proof.
  intros Ht HK. apply aside_upholds; [apply still_adds|done|]. intros s s'. by apply stable_follows.
Qed.

Lemma lead_anyhow {R} (t : thread station watch_env R) P : guarantees aside t → leads P t (λ _ _, True).
Proof. intros Ht. apply aside_anyhow; [apply still_adds|done]. Qed.

(** An event only the loop notes. *)
Definition uncounted (ev : event) : Prop :=
  match ev with Granted _ _ | FenceAnswered _ _ _ _ _ | FenceRecorded _ _ => True | _ => False end.

Lemma lead_note ev (K K' : list event → list fence_call → Prop) :
  uncounted ev → (∀ tr log, K tr log → K' (tr ++ [ev]) log) → stable K → stable K' →
  leads (λ s, K (trail s) (fence_log s)) (note ev) (λ _ s, K' (trail s) (fence_log s)).
Proof.
  intros Hev HKK HK HK'. apply upholds_atomic. intros e s s' _ Hs HR Hi. split_and!.
  - apply (noted_inv ev); [done| |by destruct ev]. by destruct ev.
  - apply noted_adds.
  - intros s'' HR' _. eapply stable_follows; [done| |exact HR']. cbn. apply HKK. by eapply stable_follows.
Qed.

Lemma silent_stable w : stable (λ tr _, deathSampleTarget ≤ silence w tr).
Proof. intros tr log evs Hn H. by rewrite silence_neutral. Qed.
Lemma sublist_stable l : stable (λ tr _, l `sublist_of` tr).
Proof. intros tr log evs Hn H. by apply sublist_inserts_r. Qed.
Lemma and_stable K K' : stable K → stable K' → stable (λ tr log, K tr log ∧ K' tr log).
Proof. intros H H' tr log evs Hn [? ?]. split; [by apply H|by apply H']. Qed.
Lemma log_stable (φ : list fence_call → Prop) : stable (λ _ log, φ log).
Proof. by intros tr log evs _ H. Qed.

(** The answer of the fencing provider. *)
Definition answered (w source : string) (epoch : Z) (out : FenceResult * result unit) (log : list fence_call) : Prop :=
  out.2 = Ok tt → AllowsAutomatic out.1 = true ∧ backed log w source epoch out.1.

Lemma invariant_log s x :
  invariant s → careful x → fence_log s `prefix_of` x → invariant (s <| fence_log := x |>).
Proof.
  intros [Hc Hj Hh Hp] Hx Hpre. split; [done| |done|done]. intros tr1 w cp r m tr2 Heq.
  destruct (Hj tr1 w cp r m tr2 Heq) as (? & ? & epoch & source & ? & Hb). split_and!; [done..|].
  exists epoch, source. split; [done|]. unfold backed in *. destruct fencer; try done.
  destruct Hb as (log0 & ? & ?). exists log0. split; [by etrans|done].
Qed.

Lemma fence_leads w source epoch (K : list event → Prop) :
  stable (λ tr _, K tr) →
  leads (λ s, K (trail s)) (fence_source fencer {| FenceWorkload := w; FenceSource := source; FenceEpoch := epoch |})
    (λ out s, K (trail s) ∧ answered w source epoch out (fence_log s)).
Proof.
  intros HK. assert (∀ (r : FenceResult) err (Ψ : FenceResult → station → Prop), leads (λ s, K (trail s)) (mret (r, Err err))
    (λ out s, K (trail s) ∧ (out.2 = Ok tt → Ψ out.1 s))) as Hno.
  { intros r err Ψ. apply upholds_ret. intros s s' Hs HR _. split; [|done]. by apply (stable_follows (λ tr _, K tr) s s'). }
  unfold fence_source, answered, backed. pose proof invariant_log as Hlog. pose proof inv_careful as Hcare.
  unfold careful in Hlog, Hcare. destruct fencer as [| | |c] eqn:Hf; [exact (Hno _ _ (λ r _, AllowsAutomatic r = true ∧ False))..|].
  eapply upholds_pre; [apply _| |eapply upholds_post; [|apply (upholds_zoom fence_log (λ l s, s <| fence_log := l |>) fencing
    sane resolves follows adds _ (λ s, K (trail s)) prefix _ (prudent c)
    (answer_ok c {| FenceWorkload := w; FenceSource := source; FenceEpoch := epoch |}) (prudent c))]].
  - intros s s' Hs HR Hi. split; [by apply (stable_follows (λ tr _, K tr) s s')|]. by apply Hcare.
  - intros [r err] s' (Hs & _ & Hal & Hcon). split; [done|]. cbn in *. intros ->. split; [done|].
    exists (fence_log s'). split; [done|]. by apply Hcon.
  - done.
  - done.
  - by intros s s' (_ & _ & ?).
  - intros s s' Hs HR. by apply (stable_follows (λ tr _, K tr) s s').
  - done.
  - intros x s Hi Hx Hpre. by apply Hlog.
  - intros x s. unfold adds. done.
  - by intros r x [? _].
  - apply Fence_extends.
  - apply Fence_spec.
Qed.

Lemma grounds_stable w r : stable (λ tr log, grounds log tr w r).
Proof.
  intros tr log evs Hn (? & ? & epoch & source & ? & ?). split_and!; [by apply silent_stable|done|].
  exists epoch, source. split; [|done]. by apply sublist_inserts_r.
Qed.

Lemma sublist_snoc {A} (l k : list A) x : l `sublist_of` k → l ++ [x] `sublist_of` k ++ [x].
Proof. intros. by apply sublist_app. Qed.

#[local] Abbreviation failover_ := (failover cwd url_Parse EqualFold digest32 stateDir has_network lazy_engine).

Lemma failover_leads w r m : leads (λ s, grounds (fence_log s) (trail s) w r)
  (failover_ w "" false (SourceDead r m)) (λ _ _, True).
Proof.
  apply (failover_upholds sane follows adds follows_adds still_adds (λ ev s _, noted_adds ev s) w (SourceDead r m)
    (λ tr log, grounds log tr w r)).
  - intros s s'. apply (stable_follows (λ tr log, grounds log tr w r)), grounds_stable.
  - intros cp s Hi Hg. split; [|apply noted_adds]. by apply noted_inv.
Qed.

Lemma fence_and_failover_leads duty record :
  leads (λ s, deathSampleTarget ≤ silence (DutyWorkload duty) (trail s))
    (fence_and_failover cwd url_Parse EqualFold digest32 stateDir has_network lazy_engine controlURL organizationID
       apiKey machineID fencer duty record) (λ _ _, True).
Proof.
  unfold fence_and_failover. set (w := DutyWorkload duty). pose proof (silent_stable w) as Hsil.
  eapply upholds_bind; [apply _|apply (lead_aside _ (λ tr _, deathSampleTarget ≤ silence w tr)); [apply aside_acquire|done]|].
  intros [[epoch token]|]; [|apply lead_anyhow, aside_failure].
  eapply upholds_bind; [apply _| |].
  { apply (lead_note (Granted w epoch) (λ tr _, deathSampleTarget ≤ silence w tr) (λ tr _, deathSampleTarget ≤ silence w tr ∧ [Granted w epoch] `sublist_of` tr)); [done| |done|].
    - intros tr _ H. rewrite silence_snoc. split; [done|]. apply (sublist_snoc []), sublist_nil_l.
    - by apply and_stable, sublist_stable. }
  intros []. eapply upholds_bind; [apply _| |].
  { apply (fence_leads w (DutySource duty) epoch (λ tr, deathSampleTarget ≤ silence w tr ∧ [Granted w epoch] `sublist_of` tr)).
    by apply and_stable, sublist_stable. }
  intros [fenced err]. cbv beta iota.
  set (K := λ l tr log, (deathSampleTarget ≤ silence w tr ∧ l `sublist_of` tr) ∧ answered w (DutySource duty) epoch (fenced, err) log).
  assert (∀ l, stable (K l)) as HK. { intros l. apply and_stable, log_stable. by apply and_stable, sublist_stable. }
  eapply upholds_bind; [apply _| |].
  { apply (lead_note _ (K [Granted w epoch]) (K [Granted w epoch; FenceAnswered w (DutySource duty) epoch fenced err])); [done| |done|done].
    intros tr log [[? ?] ?]. split; [|done]. rewrite silence_snoc. split; [done|]. by apply (sublist_snoc [Granted w epoch]). }
  intros []. eapply upholds_bind; [apply _|apply lead_aside; [apply aside_evidence|apply HK]|]. intros [].
  destruct err as [[]|err]; cbn [is_ok negb orb]; [|apply lead_anyhow, aside_failure].
  destruct (negb (AllowsAutomatic fenced)) eqn:Hal; [apply lead_anyhow, aside_failure|].
  eapply upholds_bind; [apply _|apply lead_aside; [apply aside_mark|apply HK]|]. intros [?|]; [|apply lead_anyhow, aside_failure].
  eapply (upholds_bind _ _ _ _ _ _ _ (λ _ s, grounds (fence_log s) (trail s) w fenced)).
  { apply (lead_note _ (K _) (λ tr log, grounds log tr w fenced)); [done| |done|apply grounds_stable].
    intros tr log [[? ?] Ha]. destruct (Ha eq_refl) as [? ?]. split; [by rewrite silence_snoc|]. split; [done|].
    exists epoch, (DutySource duty). split; [|done].
    by apply (sublist_snoc [Granted w epoch; FenceAnswered w (DutySource duty) epoch fenced (Ok tt)]). }
  intros []. eapply upholds_bind; [apply _|apply failover_leads|]. intros [?|]; [done|apply lead_anyhow, aside_failure].
Qed.

(** Contrary evidence. *)
Lemma answered_leads w P : leads P (_ ← clearDeathSample w; note (SourceAnswered w)) (λ _ _, True).
Proof.
  eapply (upholds_bind _ _ _ _ _ _ _ (λ _ s, deathSamples s !! w = None)).
  - apply upholds_atomic. intros e s s' _ _ _ Hi. split_and!; [|apply still_adds; try done; apply delete_subseteq|].
    + eapply aside_inv; [|exact Hi]. split_and!; try done; [apply delete_subseteq|by apply settled_same|]. intros w' d Hd. right. by exists d.
    + cbn. intros s'' (_ & Hd & _) _. eapply lookup_weaken_None; [|exact Hd]. apply lookup_delete_eq.
  - intros []. apply upholds_atomic. intros e s s' _ Hs (_ & Hd & _) Hi. split_and!; [|apply noted_adds|done].
    apply (noted_inv (SourceAnswered w)); [done| |done]. intros w' n Hn Hle. cbn. case_decide as Hw; [|done]. subst w'.
    pose proof (lookup_weaken_None _ _ _ Hs Hd). congruence.
Qed.

(** A silent pass is counted. *)
Lemma silent_leads w P (f : bool → thread station watch_env unit) :
  leads (λ s, deathSampleTarget ≤ silence w (trail s)) (f true) (λ _ _, True) →
  leads (λ _, True) (f false) (λ _ _, True) →
  leads P (_ ← note (SourceSilent w); sustained ← recordDeathSample w; f sustained) (λ _ _, True).
Proof.
  intros Htrue Hfalse. eapply (upholds_bind _ _ _ _ _ _ _
    (λ _ s, 1 ≤ silence w (trail s) ∧ ∀ n, deathSamples s !! w = Some n → n + 1 ≤ silence w (trail s))).
  - apply upholds_atomic. intros e s s' _ _ _ Hi. split_and!; [|apply noted_adds|].
    + apply (noted_inv (SourceSilent w)); [done| |done]. intros w' n _ Hle. cbn. case_decide; lia.
    + cbn. intros s'' ((evs & Ht & Hn) & Hd & _) _. cbn in Ht. rewrite Ht, silence_neutral, silence_snoc by done. unfold heard_of.
      rewrite decide_True by done. pose proof (silence_nonneg w (trail s')). split; [lia|]. intros n Hs.
      assert (deathSamples s' !! w = Some n) as Hs' by by eapply lookup_weaken. pose proof (inv_counts _ Hi w n Hs'). lia.
  - intros []. eapply (upholds_bind _ _ _ _ _ _ _ (λ sustained s, sustained = true → deathSampleTarget ≤ silence w (trail s)));
      [|intros []; [eapply upholds_pre_eq; [|exact Htrue]; intros s H; by apply H|by eapply upholds_pre_eq; [|exact Hfalse]]].
    apply upholds_atomic. intros e s s' _ [H1 Hs] ((evs & Ht & Hn) & Hd & _) Hi.
    assert (∀ n, n = default 0 (deathSamples s' !! w) → (if n <? deathSampleTarget then n + 1 else n) ≤ silence w (trail s')) as Hn'.
    { intros n ->. rewrite Ht, silence_neutral by done. destruct (deathSamples s' !! w) as [n|] eqn:Hsn; cbn; [|lia].
      assert (deathSamples s !! w = Some n) as Hsn' by by eapply lookup_weaken. specialize (Hs n Hsn'). destruct (_ <? _); lia. }
    specialize (Hn' _ eq_refl). split_and!; [|unfold adds; done|].
    + destruct Hi as [Hc Hj Hh Hp]. split; try done. intros w' n. cbn. intros [[<- <-]|[_ Hw]]%lookup_insert_Some; [done|by apply Hc].
    + cbn. intros s'' ((evs' & Ht' & Hn2) & _ & _) _ Hle%Z.leb_le. cbn in Ht'. rewrite Ht', silence_neutral by done. lia.
Qed.

#[local] Abbreviation consider_ := (considerFailover cwd url_Parse EqualFold digest32 stateDir has_network lazy_engine
  controlURL organizationID apiKey machineID fencer peer_client).
#[local] Abbreviation watch_ := (watch cwd url_Parse EqualFold digest32 stateDir has_network lazy_engine
  controlURL organizationID apiKey machineID fencer peer_client).
#[local] Abbreviation tick_ := (tick cwd url_Parse EqualFold digest32 stateDir has_network lazy_engine
  controlURL organizationID apiKey machineID fencer peer_client).
#[local] Abbreviation supervise_ := (supervise cwd url_Parse EqualFold digest32 stateDir has_network lazy_engine
  controlURL organizationID apiKey machineID fencer peer_client).
#[local] Abbreviation trigger_ := (handleStandbyTrigger cwd url_Parse EqualFold digest32 stateDir has_network lazy_engine
  peer_client).

Lemma consider_leads duty record P : leads P (consider_ duty record) (λ _ _, True).
Proof.
  unfold considerFailover. destruct record as [record|]; [|done].
  eapply upholds_bind; [apply _|apply lead_anyhow, aside_read|]. intros now.
  destruct (negb _); [apply answered_leads|]. case_decide; [done|].
  eapply upholds_bind; [apply _|apply lead_anyhow, aside_probe|]. intros [[]|]; [apply answered_leads| |done].
  apply (silent_leads _ _ (λ sustained, if negb sustained then _ else _)); cbn [negb]; [|done]. pose proof (λ t P, lead_anyhow (recordAttemptFailure t errAutomaticFailoverBlocked) P (aside_failure _ _)) as Hno.
  pose proof (fence_and_failover_leads duty record) as Hgo.
  destruct fencer; [apply Hno|eapply upholds_pre_eq; [|apply Hgo]; auto..].
Qed.

Lemma watch_leads ds records P : leads P (watch_ ds records) (λ _ _, True).
Proof.
  revert P. induction ds as [|duty ds IH]; intros P; [done|]. eapply upholds_bind; [apply _| |intros []; apply IH].
  destruct (negb _); [by apply (upholds_ret _ _ _ _ _ _ (λ _ _, True))|].
  eapply upholds_bind; [apply _|apply lead_anyhow, aside_read|]. intros now. destruct (_ <? _); [done|apply consider_leads].
Qed.

Lemma supervise_leads n P : leads P (supervise_ n) (λ _ _, True).
Proof.
  revert P. induction n as [|n IH]; intros P; [done|]. eapply upholds_bind; [apply _| |intros []; apply IH]. unfold tick.
  eapply upholds_bind; [apply _|apply lead_anyhow, aside_read|]. intros ds.
  eapply upholds_bind; [apply _|apply lead_anyhow, aside_retain|]. intros [].
  case_decide; [by apply (upholds_ret _ _ _ _ _ _ (λ _ _, True))|].
  eapply upholds_bind; [apply _|apply lead_anyhow, aside_read|]. intros [records|]; [apply watch_leads|done].
Qed.

(** ** Beside the loop *)

(** What else reaches the station: the peer server's reports, commands and
    queries of the agent's users, and anything that happens to the host or to
    the control plane. *)
Inductive errand :=
| Hold (session : Session)
| Withdraw (sourceMachineID workloadID : string)
| CommandFailover (uid : Z) (workloadID checkpointID : string) (lazy : bool)
| ListDuties (uid : Z)
| OnSite (t : call unit)
| OnPlane (t : thread plane pg unit).

Definition perform (a : errand) : thread station watch_env unit :=
  match a with
  | Hold session => ReplicationHeld session
  | Withdraw source w => ReplicationWithdrawn source w
  | CommandFailover uid w cp lazy => _ ← trigger_ uid w cp lazy; mret tt
  | ListDuties uid => _ ← handleStandbyList controlURL uid; mret tt
  | OnSite t => on_site t
  | OnPlane t => on_authority t
  end.

#[local] Abbreviation aids := (upholds sane adds follows invariant).

Lemma trigger_aids uid w cp lazy P : aids P (trigger_ uid w cp lazy) (λ _ _, True).
Proof.
  pose proof (λ A t P H, aside_anyhow sane adds follows still_follows (R:=A) t P H) as Hany.
  unfold handleStandbyTrigger. eapply upholds_bind; [apply _|apply Hany, aside_read|]. intros [duty|]; [|done].
  destruct (_ && _); [done|]. eapply upholds_bind; [apply _| |].
  { apply Hany. case_decide; [done|apply aside_probe]. }
  intros probed. cbv beta zeta. eapply (upholds_bind _ _ _ _ _ _ _ (λ _ _, True)); [|done]. unfold Trigger.
  eapply upholds_bind; [apply _|apply Hany, aside_read|]. intros [found|]; [|done].
  apply (upholds_pre_eq _ _ _ _ _ _ (λ _, True)); [done|].
  apply (failover_upholds sane adds follows (λ _ _ H, H) still_follows noted_follows _ _ (λ _ _, True)); [done|].
  intros cp' s Hi _. split; [|by apply noted_follows]. by apply noted_inv.
Qed.

Lemma perform_aids a : aids (λ _, True) (perform a) (λ _ _, True).
Proof.
  destruct a; cbn [perform]; try (eapply upholds_bind; [apply _| |done]); try apply trigger_aids;
    apply (aside_anyhow sane adds follows still_follows).
  - apply aside_held.
  - apply aside_withdrawn.
  - apply aside_read.
  - apply aside_site.
  - apply aside_authority.
Qed.

(** ** Finality *)

Lemma aside_settled {R} (t : thread station watch_env R) : guarantees aside t → guarantees settled t.
Proof. apply guarantees_mono. by intros s s' (_ & _ & _ & ? & _). Qed.

Lemma note_settled ev : guarantees settled (note ev).
Proof. apply guarantees_atomic. intros e s. by apply settled_same. Qed.
Lemma sample_settled w : guarantees settled (recordDeathSample w).
Proof. apply guarantees_atomic. intros e s. by apply settled_same. Qed.
Lemma clear_settled w : guarantees settled (clearDeathSample w).
Proof. apply guarantees_atomic. intros e s. by apply settled_same. Qed.
Lemma fence_settled request : guarantees settled (fence_source fencer request).
Proof. unfold fence_source. destruct fencer; try done. apply guarantees_zoom. intros x s. by apply settled_same. Qed.

Lemma mark_settled w rid reason : guarantees settled (markFailedOver w rid reason).
Proof.
  apply guarantees_atomic. intros e s. unfold updateDutyLocked. destruct (duties s !! w) as [d|] eqn:Hd; [|by apply settled_same].
  case_decide as Hf; [by apply settled_same|]. destruct (persisted e); [|by apply settled_same]. cbn.
  eapply settled_insert; [done| |intros; congruence]. intros Ht. destruct (Ht w d Hd) as (? & ? & _). by split_and!.
Qed.

Create HintDb settle.
#[local] Hint Resolve note_settled sample_settled clear_settled fence_settled mark_settled : settle.
#[local] Hint Extern 2 (guarantees settled _) => apply aside_settled; first
  [ apply aside_read | apply aside_site | apply aside_authority | apply aside_evidence | apply aside_failure
  | apply aside_begin | apply aside_end | apply aside_held | apply aside_withdrawn | apply aside_acquire
  | apply aside_mark | apply aside_probe | apply aside_restore | apply aside_retain ] : settle.

Ltac settle := repeat first
  [ solve [eauto with settle] | apply guarantees_ret | apply guarantees_bind; [|intros ?] | progress cbv beta zeta | case_match ].

Lemma failover_settled w cp lazy reason : guarantees settled (failover_ w cp lazy reason).
Proof. unfold failover, failover_claimed. settle. Qed.
#[local] Hint Resolve failover_settled : settle.

Lemma trigger_settled uid w cp lazy : guarantees settled (trigger_ uid w cp lazy).
Proof. unfold handleStandbyTrigger, Trigger. settle. Qed.

Lemma fence_and_failover_settled duty record : guarantees settled (fence_and_failover cwd url_Parse EqualFold digest32 stateDir
  has_network lazy_engine controlURL organizationID apiKey machineID fencer duty record).
Proof. unfold fence_and_failover. settle. Qed.

Lemma consider_settled duty record : guarantees settled (consider_ duty record).
Proof.
  unfold considerFailover. pose proof (fence_and_failover_settled duty) as H. settle; try apply H.
Qed.

Lemma watch_settled ds records : guarantees settled (watch_ ds records).
Proof.
  induction ds as [|duty ds IH]; [done|]. apply guarantees_bind; [|done]. destruct (negb _); [done|].
  apply guarantees_bind; [settle|]. intros now. destruct (_ <? _); [done|apply consider_settled].
Qed.
#[local] Hint Resolve trigger_settled watch_settled : settle.

Lemma supervise_settled n : guarantees settled (supervise_ n).
Proof. induction n as [|n IH]; [done|]. apply guarantees_bind; [|done]. unfold tick. settle. Qed.

Lemma perform_settled a : guarantees settled (perform a).
Proof. destruct a; cbn [perform handleStandbyList]; settle. Qed.

(** ** Lives *)

(** The agent starts: what was in memory is gone, the records are as they
    were, and the host may be in any state. *)
Definition rebooted (h : host) (s : station) : station :=
  s <| site := h |> <| deathSamples := ∅ |> <| failoverRunning := ∅ |>.

Definition admitted (t : thread station watch_env unit) : Prop := ∃ a, t = perform a.

Inductive life_step : system unit → system unit → Prop :=
| life_act c c' : sys_step_under sane admitted c c' → life_step c c'
| life_reboot s ts h n : life_step (Build_system s ts) (Build_system (rebooted h s) [supervise_ n]).

Lemma rebooted_aside h s : aside s (rebooted h s).
Proof.
  split_and!; try done; [apply map_empty_subseteq|by apply settled_same|]. intros w d Hd. right. by exists d.
Qed.

Lemma run_invariant s n c :
  invariant s → rtc (sys_step_under sane admitted) (Build_system s [supervise_ n]) c → invariant (shared c).
Proof.
  intros Hi. apply (interleaving_upholds sane follows adds adds follows invariant admitted (supervise_ n) (λ _, True) (λ _ _, True));
    [| | |apply supervise_leads|done|done].
  - intros x x' Hf. split; [done|by apply follows_adds].
  - done.
  - intros t [a ->]. eexists. apply perform_aids.
Qed.

Lemma life_invariant s0 c :
  invariant s0 → rtc life_step (Build_system s0 [supervise_ 0]) c → invariant (shared c).
Proof.
  intros Hi Hr. enough (∃ s1 n, invariant s1 ∧ rtc (sys_step_under sane admitted) (Build_system s1 [supervise_ n]) c)
    as (s1 & n & H1 & Hrun).
  - by eapply run_invariant.
  - pattern c. eapply rtc_ind_r; [by exists s0, 0%nat| |exact Hr]. clear c Hr. intros c c' _ Hstep (s1 & n & H1 & Hrun).
    destruct Hstep as [c c' Hs|s ts h n']; [exists s1, n; split; [done|by eapply rtc_r]|].
    exists (rebooted h s), n'. split; [|done]. eapply aside_inv; [apply rebooted_aside|].
    by apply (run_invariant s1 n (Build_system s ts)).
Qed.

Lemma step_settled c c' :
  life_step c c' → Forall (guarantees settled) (threads c) → settled (shared c) (shared c') ∧ Forall (guarantees settled) (threads c').
Proof.
  intros [c1 c2 [s ts t [a ->]|s ts i f k e _ Hi]|s ts h n] Hts; cbn in *.
  - split; [done|]. apply Forall_app. split; [done|]. constructor; [apply perform_settled|done].
  - destruct (Forall_lookup_1 _ _ _ _ Hts Hi e s) as [? ?]. split; [done|]. by apply Forall_insert.
  - split; [by apply settled_same|]. constructor; [apply supervise_settled|done].
Qed.

Lemma life_settled c c' :
  rtc life_step c c' → Forall (guarantees settled) (threads c) → settled (shared c) (shared c') ∧ Forall (guarantees settled) (threads c').
Proof.
  intros Hr. induction Hr as [c|c c1 c2 Hs _ IH]; intros Hts; [done|]. destruct (step_settled _ _ Hs Hts) as [H1 Hts1].
  destruct (IH Hts1) as [H2 ?]. split; [by etrans|done].
Qed.

Lemma life_schedule s ts h n errands picks :
  Forall (λ pick, sane pick.2) picks →
  rtc life_step (Build_system s ts)
    (schedule picks (Build_system (rebooted h s) (supervise_ n :: (perform <$> errands)))).
Proof.
  intros Hp. eapply rtc_l; [apply life_reboot|]. apply (rtc_subrel (sys_step_under sane admitted)); [by apply life_act|].
  etrans; [apply (spawn_steps_under _ _ _ _ (perform <$> errands))|by apply schedule_steps_under].
  apply Forall_fmap, Forall_forall. intros a _. by exists a.
Qed.

(** A standby that has done nothing yet. *)
Definition fresh (s : station) : Prop := duties s = ∅ ∧ deathSamples s = ∅ ∧ fence_log s = [] ∧ trail s = [].

Lemma fresh_invariant s : fresh s → invariant s.
Proof.
  intros (Hd & Hs & Hl & Ht). split.
  - intros w n. by rewrite Hs.
  - rewrite Ht. intros tr1 w cp r m tr2 Heq. by destruct tr1.
  - intros w d. by rewrite Hd.
  - unfold careful. rewrite Hl. destruct fencer; [done..|]. by intros [|].
Qed.


(** C27.  Duties are well formed, and the outcome of a failover is final.  Over
    the same lives, every duty on record is filed under its workload, names a
    checkpoint to restore, says nothing of a failover while it is armed, and
    gives a reason and plans no other attempt once it has failed over; and from
    then on six of its fields never change (its state, the time, the restore
    and the reason of the failover, its last checkpoint and its source) and it
    is never withdrawn.  The evidence of the fencing that a duty carries (the
    epoch, the token and the result) is not among them: a later attempt
    rewrites it. *)
Theorem duties_final (s0 : station) (c c' : system unit) :
  fresh s0 → rtc life_step (Build_system s0 [supervise_ 0]) c → rtc life_step c c' →
  typed (shared c') ∧
  ∀ w d, duties (shared c) !! w = Some d → DutyState d = StandbyFailedOver →
    ∃ d', duties (shared c') !! w = Some d' ∧ outcome_of d' = outcome_of d.
Proof.
  intros (Hd & _) Hr Hr'. destruct (life_settled _ _ Hr) as [H1 Hts]; [by constructor|].
  destruct (life_settled _ _ Hr' Hts) as [H2 _]. apply H2, H1. intros w d. cbn. by rewrite Hd.
Qed.
End standby.

(** ** A station *)

#[local] Existing Instance toy_crypto.

Definition demo_dead : Machine := {| MachineID := "m"; MachineStatus := "offline"; LastSeenAt := None |}.

(** Everything answers but the source. *)
Definition passes (k : kernel) (f : fence_env) : watch_env :=
  {| kern := k; wall := 100 * second; persisted := true; presence := Ok [demo_dead]; listener := false;
     arrived := true; replied := true; database := db_at 0; fencing := f |}.
Definition idle : watch_env := passes willing (finds "/etc/fence" 1).

Definition demo_session : Session :=
  {| ID := "s-1"; SessionSource := "m"; SessionWorkload := "w-1"; OrganizationID := "org"; SessionCheckpoint := "cp-1";
     SessionKeyVersion := 1; State := SessionHeld; EstimatedBytes := 0; ReceivedBytes := 0; AttemptedBytes := 0; RestoreID := "";
     Purpose := PurposeReplication; SourceAgentURL := "https://m:7443"; SessionKeepLast := 0; SessionFencing := "command";
     SessionCreatedAt := 0; SessionUpdatedAt := 0; ExpiresAt := 0; SessionFailure := "" |}.

Definition demo_station (h : host) : station :=
  {| site := h; duties := ∅; transfers := ∅; deathSamples := ∅; failoverRunning := ∅;
     authority := {| ownership := ∅; homes := {["w-1" := "org"]}; registered := {[("org", "me"); ("org", "you")]}; audits := [] |};
     fence_log := []; trail := [] |}.

Definition standby_passes (n : nat) : thread station watch_env unit :=
  supervise (Ok "/srv") demo_parse String.eqb demo_digest demo_state_dir true false "https://plane" "org" "key" "me"
    (ProviderCommand demo_command) (λ _, Ok tt) n.
Definition demo_life (errands : list errand) (picks : list (nat * watch_env)) (h : host) (s : station) : system unit :=
  schedule picks (Build_system (rebooted h s) (standby_passes 3 ::
    (perform (Ok "/srv") demo_parse String.eqb demo_digest demo_state_dir true false "https://plane" (λ _, Ok tt) <$> errands))).

(** A hold arrives, and three passes later the source is given up. *)
Definition loop_answers : list watch_env :=
  replicate 28 idle ++ (passes willing <$> demo_answers) ++ replicate 26 idle ++
  ((λ k, passes k (finds "/etc/fence" 1)) <$> demo_staging) ++ replicate 90 idle.
Definition loop_picks : list (nat * watch_env) := (1%nat, idle) :: ((λ e, (0%nat, e)) <$> loop_answers).

Definition vacant : host :=
  demo_host <| workloads := ∅ |> <| procs := ∅ |> <| disk := ∅ |> <| manifests := {["cp-1" := demo_manifest]} |>.
Definition failed_over : system unit := demo_life [Hold demo_session] loop_picks vacant (demo_station vacant).

#[local] Abbreviation demo_step := (life_step (Ok "/srv") demo_parse String.eqb demo_digest demo_state_dir true false
  "https://plane" "org" "key" "me" (ProviderCommand demo_command) (λ _, Ok tt)).

Lemma demo_lives errands picks h c :
  Forall (λ pick, sane pick.2) picks → rtc demo_step c (demo_life errands picks h (shared c)).
Proof.
  destruct c as [s ts]. exact (life_schedule (Ok "/srv") demo_parse String.eqb demo_digest demo_state_dir true false "https://plane" "org" "key" "me"
    (ProviderCommand demo_command) (λ _, Ok tt) s ts h 3 errands picks).
Qed.

Lemma loop_sane : Forall (λ pick, sane pick.2) loop_picks.
Proof. repeat constructor; intros p [= <-]; reflexivity. Qed.


(** The agent is restarted after the failover, and another hold arrives. *)
Definition held_again : system unit := demo_life [Hold demo_session] [(1%nat, idle)] vacant (shared failed_over).

Lemma duties_final_witness :
  ∃ d d', duties (shared failed_over) !! "w-1" = Some d ∧ DutyState d = StandbyFailedOver ∧
    duties (shared held_again) !! "w-1" = Some d' ∧ outcome_of d' = outcome_of d.
Proof.
  assert (∃ d, duties (shared failed_over) !! "w-1" = Some d ∧ DutyState d = StandbyFailedOver) as (d & Hd & Hs)
    by (eexists; split; vm_compute; reflexivity).
  destruct (duties_final (Ok "/srv") demo_parse String.eqb demo_digest demo_state_dir true false "https://plane" "org" "key"
    "me" (ProviderCommand demo_command) (λ _, Ok tt) (demo_station vacant) failed_over held_again) as [_ H].
  - by split_and!.
  - exact (demo_lives [Hold demo_session] loop_picks vacant (Build_system (demo_station vacant) [mret tt]) loop_sane).
  - apply (demo_lives [Hold demo_session] [(1%nat, idle)] vacant failed_over). constructor; [|constructor]. intros p [= <-]. reflexivity.
  - destruct (H "w-1" d Hd Hs) as (d' & Hd' & Ho). exists d, d'. exact (conj Hd (conj Hs (conj Hd' Ho))).
Defined.

(** ** Failovers that go wrong *)

(** The workload moved: its new machine [b] holds another checkpoint here. *)
Definition moved_session : Session := demo_session <| SessionSource := "b" |> <| SessionCheckpoint := "cp-2" |>.
Definition vacant2 : host :=
  vacant <| manifests := {["cp-1" := demo_manifest; "cp-2" := demo_manifest <| ManifestID := "cp-2" |>]} |>.

(** The hold arrives after the fence of the old machine was recorded. *)
Definition overtaken : system unit :=
  demo_life [Hold demo_session; Hold moved_session]
    ([(1%nat, idle)] ++ ((λ e, (0%nat, e)) <$> take 44 loop_answers) ++ [(2%nat, idle)] ++
     ((λ e, (0%nat, e)) <$> drop 44 loop_answers)) vacant2 (demo_station vacant2).

(** A pass works on the duty it read when it began.  It proves the
    death of the machine that held the checkpoint then, and fences that one;
    but it restores what the duty names when the failover is claimed.  Here a
    live machine took the duty over in between: its own checkpoint is restored
    on the standby as an automatic failover, although this machine was never
    asked for, never fenced, and still runs the workload. *)
Theorem failover_of_live_source :
  (∃ d, duties (shared overtaken) !! "w-1" = Some d ∧ DutySource d = "b" ∧ DutyState d = StandbyFailedOver) ∧
  (∃ r m, RestoreStarted "w-1" "cp-2" (SourceDead r m) ∈ trail (shared overtaken)) ∧
  ∀ w epoch r err, FenceAnswered w "b" epoch r err ∉ trail (shared overtaken).
Proof.
  assert (∃ tr, trail (shared overtaken) = tr ∧ (∃ r m, RestoreStarted "w-1" "cp-2" (SourceDead r m) ∈ tr) ∧
    ∀ w epoch r err, FenceAnswered w "b" epoch r err ∉ tr) as (tr & -> & Htr).
  - eexists. split; [vm_compute; reflexivity|]. split; [set_solver|]. intros w epoch r err Hin.
    repeat (apply elem_of_cons in Hin as [?|Hin]; [congruence|]). by apply elem_of_nil in Hin.
  - split; [|exact Htr]. eexists. split_and!; [vm_compute; reflexivity|reflexivity..].
Qed.

(** Another machine can withdraw a duty.  [ReplicationWithdrawn]
    compares the machine with the one on record, but [ReplicationHeld] puts any
    machine on record that reports a hold for the workload: machine [b] takes
    the duty for the workload of [m] over, and then withdraws it. *)
Theorem foreign_hold_withdraws :
  let picks := [(1%nat, idle); (2%nat, idle); (3%nat, idle)] in
  let c := demo_life [Hold demo_session; Hold moved_session; Withdraw "b" "w-1"] picks vacant2 (demo_station vacant2) in
  let refused := demo_life [Hold demo_session; Withdraw "b" "w-1"] picks vacant2 (demo_station vacant2) in
  duties (shared c) = ∅ ∧ DutySource <$> duties (shared refused) !! "w-1" = Some "m".
Proof. split; vm_compute; reflexivity. Qed.
