(* ===== verification/Version.v ===== *)
(** * Versions ([internal/update/version.go])

    Semantic versions: parsing, printing and the order an update relies on. *)
From Stdlib Require Import Ascii.
From stdpp Require Import pretty.
From S2P Require Import Prelude GoStr.

Local Open Scope string_scope.
Local Open Scope list_scope.
Local Open Scope Z_scope.

(** [Version]. *)
Record Version := { Major : Z; Minor : Z; Patch : Z; PreRelease : string; Build : string }.
#[export] Instance Version_eq_dec : EqDecision Version.
Proof. solve_decision. Defined.

(** [strings.TrimPrefix]. *)
Definition TrimPrefix (s pre : string) : string :=
  if HasPrefix s pre then String.substring (String.length pre) (String.length s - String.length pre) s else s.

(** The text before and after the first [c], if there is one. *)
Fixpoint cut (c : ascii) (s : string) : option (string * string) :=
  match s with
  | EmptyString => None
  | String a r => if decide (a = c) then Some ("", r)
                  else '(x, y) ← cut c r; Some (String a x, y)
  end.

Definition identifier_char (a : ascii) : bool :=
  let n := Z.of_N (N_of_ascii a) in
  (48 <=? n) && (n <=? 57) || (97 <=? n) && (n <=? 122) || (65 <=? n) && (n <=? 90) || (n =? 45).

Fixpoint all_chars (f : ascii → bool) (s : string) : bool :=
  match s with "" => true | String a r => f a && all_chars f r end.

(** [validIdentifiers]. *)
Definition validIdentifiers (value : string) : result unit :=
  if decide (value = "") then Ok tt
  else if existsb (λ i, bool_decide (i = "")) (split "."%char value) then Err "empty identifier"
  else require (forallb (all_chars identifier_char) (split "."%char value)) "identifier contains".

(** One of the three numbers. *)
Definition version_number (number : string) : result Z :=
  _ ← require (negb (bool_decide (number = "")) &&
               negb (Nat.ltb 1 (String.length number) && HasPrefix number "0")) "version has a malformed number";
  parsed ← Atoi number;
  _ ← require (0 <=? parsed) "version has a non-numeric component";
  Ok parsed.

(** [ParseVersion]. *)
Definition ParseVersion (value : string) : result Version :=
  let text := TrimPrefix (TrimSpace value) "v" in
  _ ← require (negb (bool_decide (text = ""))) "version is empty";
  let '(text, build) := match cut "+"%char text with Some (x, y) => (x, Some y) | None => (text, None) end in
  _ ← require (negb (bool_decide (build = Some ""))) "version has an empty build identifier";
  let '(text, pre) := match cut "-"%char text with Some (x, y) => (x, Some y) | None => (text, None) end in
  _ ← require (negb (bool_decide (pre = Some ""))) "version has an empty pre-release identifier";
  match split "."%char text with
  | [major; minor; patch] =>
      major ← version_number major;
      minor ← version_number minor;
      patch ← version_number patch;
      _ ← validIdentifiers (default "" pre);
      _ ← validIdentifiers (default "" build);
      Ok {| Major := major; Minor := minor; Patch := patch; PreRelease := default "" pre; Build := default "" build |}
  | _ => Err "version is not major.minor.patch"
  end.

(** [Version.String]. *)
Definition Version_String (v : Version) : string :=
  Itoa (Major v) +:+ "." +:+ Itoa (Minor v) +:+ "." +:+ Itoa (Patch v) +:+
  (if decide (PreRelease v = "") then "" else "-" +:+ PreRelease v) +:+
  (if decide (Build v = "") then "" else "+" +:+ Build v).

(** [Version.Stable]. *)
Definition Stable (v : Version) : bool := bool_decide (PreRelease v = "").

(** [strings.Compare]. *)
Definition cmp_string (a b : string) : Z :=
  match String.compare a b with Lt => -1 | Eq => 0 | Gt => 1 end.
Definition cmp_Z (a b : Z) : Z := if a <? b then -1 else if b <? a then 1 else 0.

(** [comparePreReleaseIdentifier]. *)
Definition comparePreReleaseIdentifier (left right : string) : Z :=
  match Atoi left, Atoi right with
  | Ok l, Ok r => cmp_Z l r
  | Ok _, Err _ => -1
  | Err _, Ok _ => 1
  | Err _, Err _ => cmp_string left right
  end.

(** The loop over the identifiers, and the lengths. *)
Fixpoint compare_identifiers (leftParts rightParts : list string) : Z :=
  match leftParts, rightParts with
  | [], [] => 0
  | [], _ => -1
  | _, [] => 1
  | l :: ls, r :: rs =>
      let result := comparePreReleaseIdentifier l r in
      if result =? 0 then compare_identifiers ls rs else result
  end.

(** [comparePreRelease]. *)
Definition comparePreRelease (left right : string) : Z :=
  if decide (left = right) then 0
  else if decide (left = "") then 1
  else if decide (right = "") then -1
  else compare_identifiers (split "."%char left) (split "."%char right).

(** [Version.Compare]. *)
Definition Version_Compare (v other : Version) : Z :=
  if negb (Major v =? Major other) then (if Major v <? Major other then -1 else 1)
  else if negb (Minor v =? Minor other) then (if Minor v <? Minor other then -1 else 1)
  else if negb (Patch v =? Patch other) then (if Patch v <? Patch other then -1 else 1)
  else comparePreRelease (PreRelease v) (PreRelease other).

(** [Precedes] and [SameRelease]. *)
Definition Precedes (v other : Version) : bool := Version_Compare v other <? 0.
Definition SameRelease (v other : Version) : bool := Version_Compare v other =? 0.

(** ** The order *)

(** A comparison that answers -1, 0 or 1 and is a total preorder. *)
Record ordering {A} (cmp : A → A → Z) : Prop := {
  ordering_sign a b : cmp a b = -1 ∨ cmp a b = 0 ∨ cmp a b = 1;
  ordering_flip a b : cmp b a = - cmp a b;
  ordering_trans a b c : cmp a b ≤ 0 → cmp b c ≤ 0 → cmp a c ≤ 0;
}.

(** Equal elements compare alike. *)
Lemma ordering_equal {A} (cmp : A → A → Z) a b c : ordering cmp → cmp a b = 0 → cmp a c = cmp b c.
Proof.
  intros [Hs Hf Ht] Hab. pose proof (Hf a b). pose proof (Ht a b c). pose proof (Ht b a c).
  pose proof (Ht c a b). pose proof (Ht c b a). pose proof (Hf a c). pose proof (Hf b c).
  destruct (Hs a c) as [?|[?|?]], (Hs b c) as [?|[?|?]]; lia.
Qed.

Lemma ordering_equal_r {A} (cmp : A → A → Z) a b c : ordering cmp → cmp b c = 0 → cmp a b = cmp a c.
Proof.
  intros Ho H. pose proof (ordering_equal cmp b c a Ho H) as He. destruct Ho as [_ Hf _].
  rewrite (Hf b a), (Hf c a). lia.
Qed.

Lemma eqb_opp z : (- z =? 0) = (z =? 0).
Proof. destruct (Z.eqb_spec z 0), (Z.eqb_spec (- z) 0); lia. Qed.

Lemma cmp_Z_ordering : ordering cmp_Z.
Proof.
  unfold cmp_Z. split.
  - intros a b. destruct (a <? b), (b <? a); lia.
  - intros a b. destruct (Z.ltb_spec a b), (Z.ltb_spec b a); lia.
  - intros a b c. destruct (Z.ltb_spec a b), (Z.ltb_spec b a), (Z.ltb_spec b c), (Z.ltb_spec c b), (Z.ltb_spec a c), (Z.ltb_spec c a); lia.
Qed.

Lemma string_compare_flip a b : String.compare b a = CompOpp (String.compare a b).
Proof. apply String.compare_antisym. Qed.

Lemma ascii_compare_cases a b :
  (Ascii.compare a b = Lt ∧ (N_of_ascii a < N_of_ascii b)%N) ∨ (Ascii.compare a b = Eq ∧ a = b) ∨
  (Ascii.compare a b = Gt ∧ (N_of_ascii b < N_of_ascii a)%N).
Proof.
  unfold Ascii.compare. destruct (N.compare_spec (N_of_ascii a) (N_of_ascii b)) as [H|H|H]; auto.
  right. left. split; [done|]. by rewrite <- (ascii_N_embedding a), H, ascii_N_embedding.
Qed.

Lemma cmp_string_trans a b c : cmp_string a b ≤ 0 → cmp_string b c ≤ 0 → cmp_string a c ≤ 0.
Proof.
  unfold cmp_string. revert b c. induction a as [|x a IH]; intros b c; [by destruct c|].
  destruct b as [|y b]; [done|]. destruct c as [|z c]; [done|]. cbn. specialize (IH b c).
  destruct (ascii_compare_cases x y) as [[-> ?]|[[-> ->]|[-> ?]]], (ascii_compare_cases y z) as [[-> ?]|[[-> ->]|[-> ?]]]; try lia;
    repeat match goal with |- context [Ascii.compare ?a ?b] => destruct (ascii_compare_cases a b) as [[-> ?]|[[-> ?]|[-> ?]]] end;
    subst; try lia; done.
Qed.

Lemma cmp_string_ordering : ordering cmp_string.
Proof.
  split; [| |apply cmp_string_trans]; intros a b; unfold cmp_string; [destruct (String.compare a b); auto|].
  rewrite string_compare_flip. by destruct (String.compare a b).
Qed.

(** Numbers come before names. *)
Lemma identifier_ordering : ordering comparePreReleaseIdentifier.
Proof.
  destruct cmp_Z_ordering as [Zs Zf Zt], cmp_string_ordering as [Ss Sf St]. unfold comparePreReleaseIdentifier. split.
  - intros a b. destruct (Atoi a), (Atoi b); auto.
  - intros a b. destruct (Atoi a), (Atoi b); auto.
  - intros a b c. destruct (Atoi a), (Atoi b), (Atoi c); eauto; lia.
Qed.

Lemma identifiers_ordering : ordering compare_identifiers.
Proof.
  pose proof identifier_ordering as Ho. destruct (Ho) as [Is If It]. split.
  - intros a. induction a as [|x a IH]; intros [|y b]; cbn; auto. destruct (Z.eqb_spec (comparePreReleaseIdentifier x y) 0); auto.
  - intros a. induction a as [|x a IH]; intros [|y b]; cbn; try done. rewrite (If x y), eqb_opp.
    destruct (comparePreReleaseIdentifier x y =? 0); auto.
  - intros a. induction a as [|x a IH]; intros [|y b] [|z c]; cbn; try lia. specialize (IH b c).
    destruct (Z.eqb_spec (comparePreReleaseIdentifier x y) 0) as [Hxy|Hxy].
    + by rewrite (ordering_equal _ x y z Ho Hxy); destruct (_ =? 0).
    + destruct (Z.eqb_spec (comparePreReleaseIdentifier y z) 0) as [Hyz|Hyz].
      * rewrite <- (ordering_equal_r _ x y z Ho Hyz). destruct (Z.eqb_spec (comparePreReleaseIdentifier x y) 0); lia.
      * intros H1 H2. pose proof (It x y z H1 H2). destruct (Z.eqb_spec (comparePreReleaseIdentifier x z) 0) as [Hxz|Hxz]; [|done].
        pose proof (ordering_equal _ x z y Ho Hxz) as He. rewrite (If y z) in He. destruct (Is x y) as [?|[?|?]], (Is y z) as [?|[?|?]]; lia.
Qed.

(** The shortcuts of [comparePreRelease]. *)
Lemma comparePreRelease_cases l r :
  comparePreRelease l r =
    if decide (l = "") then (if decide (r = "") then 0 else 1)
    else if decide (r = "") then -1 else compare_identifiers (split "."%char l) (split "."%char r).
Proof.
  unfold comparePreRelease. repeat case_decide; subst; try done. pose proof (ordering_flip _ identifiers_ordering) as Hf.
  specialize (Hf (split "."%char r) (split "."%char r)). lia.
Qed.

Lemma prerelease_ordering : ordering comparePreRelease.
Proof.
  destruct identifiers_ordering as [Is If It]. split; intros *; rewrite !comparePreRelease_cases; repeat case_decide; try lia; auto.
  apply It.
Qed.

Lemma compare_lex v o :
  Version_Compare v o =
    if cmp_Z (Major v) (Major o) =? 0 then
      if cmp_Z (Minor v) (Minor o) =? 0 then
        if cmp_Z (Patch v) (Patch o) =? 0 then comparePreRelease (PreRelease v) (PreRelease o)
        else cmp_Z (Patch v) (Patch o)
      else cmp_Z (Minor v) (Minor o)
    else cmp_Z (Major v) (Major o).
Proof.
  unfold Version_Compare, cmp_Z.
  repeat match goal with
  | |- context [?a <? ?b] => destruct (Z.ltb_spec a b); cbn
  | |- context [?a =? ?b] => destruct (Z.eqb_spec a b); cbn
  end; try lia; done.
Qed.

(** Comparing by one field and then by the rest. *)
Lemma lex_ordering {A} (f g : A → A → Z) :
  ordering f → ordering g → ordering (λ a b, if f a b =? 0 then g a b else f a b).
Proof.
  intros Hf Hg. destruct (Hf) as [Fs Ff Ft], (Hg) as [Gs Gf Gt]. split.
  - intros a b. destruct (_ =? 0); auto.
  - intros a b. rewrite (Ff a b), eqb_opp. destruct (_ =? 0); auto.
  - intros a b c. destruct (Z.eqb_spec (f a b) 0) as [Hab|Hab].
    + rewrite (ordering_equal _ a b c Hf Hab). destruct (Z.eqb_spec (f b c) 0); [apply Gt|done].
    + destruct (Z.eqb_spec (f b c) 0) as [Hbc|Hbc].
      * rewrite <- (ordering_equal_r _ a b c Hf Hbc). destruct (Z.eqb_spec (f a b) 0); lia.
      * intros H1 H2. pose proof (Ft a b c H1 H2). destruct (Z.eqb_spec (f a c) 0) as [Hac|Hac]; [|done].
        pose proof (ordering_equal _ a c b Hf Hac) as He. rewrite (Ff b c) in He. destruct (Fs a b) as [?|[?|?]], (Fs b c) as [?|[?|?]]; lia.
Qed.

Lemma ordering_on {A B} (p : A → B) (cmp : B → B → Z) : ordering cmp → ordering (λ a b, cmp (p a) (p b)).
Proof. intros [Hs Hf Ht]. split; eauto. Qed.

Lemma ordering_ext {A} (f g : A → A → Z) : (∀ a b, f a b = g a b) → ordering g → ordering f.
Proof. intros H [Hs Hf Ht]. split; intros *; rewrite !H; eauto. Qed.

Lemma version_ordering : ordering Version_Compare.
Proof.
  eapply ordering_ext; [apply compare_lex|].
  apply (lex_ordering (λ v o, cmp_Z (Major v) (Major o))); [apply (ordering_on Major), cmp_Z_ordering|].
  apply (lex_ordering (λ v o, cmp_Z (Minor v) (Minor o))); [apply (ordering_on Minor), cmp_Z_ordering|].
  apply (lex_ordering (λ v o, cmp_Z (Patch v) (Patch o))); [apply (ordering_on Patch), cmp_Z_ordering|].
  apply (ordering_on PreRelease), prerelease_ordering.
Qed.

Lemma precedes_irrefl v : Precedes v v = false.
Proof. unfold Precedes. apply Z.ltb_ge. pose proof (ordering_flip _ version_ordering v v). lia. Qed.

(** ** Printing and parsing *)

Definition printable (a : ascii) : bool := let n := Z.of_N (N_of_ascii a) in (33 <=? n) && (n <=? 126).
Definition digit_char (a : ascii) : bool := let n := Z.of_N (N_of_ascii a) in (48 <=? n) && (n <=? 57).

Lemma all_chars_app f s t : all_chars f (s +:+ t) = all_chars f s && all_chars f t.
Proof. induction s as [|a s IH]; [done|]. rewrite string_app_cons. cbn [all_chars]. rewrite IH. apply andb_assoc. Qed.

Lemma all_chars_impl (f g : ascii → bool) s :
  (∀ a, f a = true → g a = true) → all_chars f s = true → all_chars g s = true.
Proof. intros H. induction s as [|a s IH]; [done|]. cbn. intros [? ?]%andb_true_iff. apply andb_true_iff. auto. Qed.

Lemma all_chars_no c s f : all_chars f s = true → f c = false → no_char c s = true.
Proof.
  intros Hs Hc. induction s as [|a s IH]; [done|]. cbn in *. apply andb_true_iff in Hs as [Ha Hs]. rewrite IH by done.
  rewrite bool_decide_false; [done|congruence].
Qed.

Lemma all_chars_list f s : all_chars f s = forallb f (String.list_ascii_of_string s).
Proof. induction s as [|a s IH]; [done|]. cbn. by rewrite IH. Qed.

Lemma printable_range a : printable a = true → (33 ≤ N_of_ascii a ≤ 126)%N.
Proof. unfold printable. rewrite andb_true_iff, !Z.leb_le. lia. Qed.

Lemma printable_plain a : printable a = true →
  is_space1 a = false ∧ (∀ b, is_space2 a b = false) ∧ ∀ b c, is_space3 a b c = false.
Proof.
  intros H%printable_range. unfold is_space1, is_space2, is_space3. cbv zeta.
  repeat match goal with |- context [(?n =? ?m)%N] => destruct (N.eqb_spec n m); [lia|] end.
  split_and!; [|done..]. destruct (N.leb_spec 9 (N_of_ascii a)), (N.leb_spec (N_of_ascii a) 13); try done; lia.
Qed.

Lemma trim_left_plain l : forallb printable l = true → trim_left l = l.
Proof.
  destruct l as [|a l]; [done|]. cbn. intros [Ha _]%andb_true_iff. destruct (printable_plain a Ha) as (-> & H2 & H3).
  destruct l as [|b l]; [done|]. rewrite H2. destruct l as [|c l]; [done|]. by rewrite H3.
Qed.

Lemma trim_right_plain l : forallb printable l = true → trim_right l = l.
Proof.
  destruct l as [|a l]; [done|]. cbn. intros [Ha Hl]%andb_true_iff. destruct (printable_plain a Ha) as (-> & _ & _).
  destruct l as [|b l]; [done|]. cbn in Hl. apply andb_true_iff in Hl as [Hb Hl]. destruct (printable_plain b Hb) as (_ & -> & _).
  destruct l as [|c l]; [done|]. cbn in Hl. apply andb_true_iff in Hl as [Hc _]. by destruct (printable_plain c Hc) as (_ & _ & ->).
Qed.

Lemma TrimSpace_plain s : all_chars printable s = true → TrimSpace s = s.
Proof.
  rewrite all_chars_list. intros H. unfold TrimSpace. rewrite trim_left_plain by done. rewrite trim_right_plain.
  - rewrite rev_involutive. apply String.string_of_list_ascii_of_string.
  - apply forallb_forall. intros x Hx%in_rev. rewrite forallb_forall in H. by apply H.
Qed.

Lemma cut_app c x y : no_char c x = true → cut c (x +:+ String c y) = Some (x, y).
Proof.
  induction x as [|a x IH]; intros H; simpl; [by case_decide|]. simpl in H. to_prop. rewrite IH by done. by case_decide.
Qed.
Lemma cut_none c x : no_char c x = true → cut c x = None.
Proof. induction x as [|a x IH]; intros H; simpl; [done|]. simpl in H. to_prop. rewrite IH by done. by case_decide. Qed.

(** Decimal numbers. *)
Lemma digit_of_char n : (n < 10)%N → digit_of (pretty_N_char n) = Some (Z.of_N n) ∧ digit_char (pretty_N_char n) = true.
Proof.
  intros H. assert (n = 0 ∨ n = 1 ∨ n = 2 ∨ n = 3 ∨ n = 4 ∨ n = 5 ∨ n = 6 ∨ n = 7 ∨ n = 8 ∨ n = 9)%N as Hn by lia.
  by repeat destruct Hn as [->|Hn]; [..|subst].
Qed.

Lemma pretty_go_spec x s :
  (0 < x)%N →
  (all_chars digit_char (pretty_N_go x s) = all_chars digit_char s) ∧
  (∃ k, 0 ≤ k ∧ ∀ acc, digits acc (pretty_N_go x s) = digits (acc * 10 ^ k + Z.of_N x) s) ∧
  ∃ d r, (0 < d < 10)%N ∧ pretty_N_go x s = String (pretty_N_char d) r ∧ (String.length s ≤ String.length r)%nat.
Proof.
  revert s. induction (N.lt_wf_0 x) as [x _ IH]. intros s Hx. rewrite pretty_N_go_step by done.
  pose proof (N.mod_lt x 10 ltac:(lia)) as Hm. destruct (digit_of_char _ Hm) as [Hd Hc]. pose proof (N.div_mod' x 10) as Hdm.
  destruct (decide (x `div` 10 = 0)%N) as [H0|H0].
  - rewrite H0, pretty_N_go_0. cbn -[N.modulo]. rewrite Hc, Hd. split_and!; [done| |].
    + exists 1. split; [lia|]. intros acc. cbn -[N.modulo]. f_equal. lia.
    + exists (x `mod` 10)%N, s. split_and!; [lia..|done|done].
  - destruct (IH (x `div` 10)%N ltac:(apply N.div_lt; lia) (String (pretty_N_char (x `mod` 10)) s) ltac:(lia)) as (H1 & (k & Hk & H2) & d & r & Hdr & H3 & H4).
    split_and!.
    + rewrite H1. cbn -[N.modulo]. by rewrite Hc.
    + exists (k + 1). split; [lia|]. intros acc. rewrite H2. cbn -[N.modulo]. rewrite Hd. cbn -[N.modulo]. f_equal.
      rewrite Z.pow_add_r by lia. lia.
    + exists d, r. split_and!; [lia..|done|]. cbn in H4. lia.
Qed.

Lemma Itoa_spec n : 0 ≤ n →
  all_chars digit_char (Itoa n) = true ∧ digits 0 (Itoa n) = Some n ∧
  ∃ a r, Itoa n = String a r ∧ digit_char a = true ∧ (a = "0"%char → r = "").
Proof.
  intros Hn. destruct (decide (n = 0)) as [->|H0]; [by split_and!; [..|exists "0"%char, ""]|].
  assert (Itoa n = pretty_N_go (Z.to_N n) "") as ->.
  { unfold Itoa. destruct n as [|p|p]; [lia| |lia]. reflexivity. }
  destruct (pretty_go_spec (Z.to_N n) "" ltac:(lia)) as (H1 & (k & _ & H2) & d & r & Hd & H3 & _).
  split_and!; [done| |].
  - rewrite H2. cbn. f_equal. lia.
  - exists (pretty_N_char d), r. split_and!; [done|apply digit_of_char; lia|].
    assert (d = 1 ∨ d = 2 ∨ d = 3 ∨ d = 4 ∨ d = 5 ∨ d = 6 ∨ d = 7 ∨ d = 8 ∨ d = 9)%N as Hc by lia.
    by repeat destruct Hc as [->|Hc]; [..|subst].
Qed.

Lemma digit_not_sign a : digit_char a = true → a ≠ "+"%char ∧ a ≠ "-"%char ∧ a ≠ "v"%char.
Proof. intros H. split_and!; intros ->; done. Qed.

Lemma version_number_Itoa n : 0 ≤ n < 2 ^ 63 → version_number (Itoa n) = Ok n.
Proof.
  intros Hn. destruct (Itoa_spec n ltac:(lia)) as (_ & Hd & a & r & Heq & Ha & Hz). unfold version_number, Atoi. rewrite Heq in *.
  destruct (digit_not_sign a Ha) as (? & ? & _). rewrite !bool_decide_false by naive_solver.
  cbn [negb andb require mbind result_bind String.length]. rewrite Hd.
  assert ((Nat.ltb 1 (S (String.length r)) && HasPrefix (String a r) "0") = false) as ->.
  { destruct (decide (a = "0"%char)) as [E|E]; [rewrite (Hz E); reflexivity|]. cbn [HasPrefix]. by rewrite bool_decide_false, andb_false_r. }
  cbn. assert (((- 2 ^ 63 <=? n) && (n <? 2 ^ 63)) = true) as ->.
  { apply andb_true_iff. rewrite Z.leb_le, Z.ltb_lt. lia. }
  cbn. by rewrite (proj2 (Z.leb_le 0 n)) by lia.
Qed.

Definition numeric (n : Z) : Prop := 0 ≤ n < 2 ^ 63.

(** A version as the parser leaves it. *)
Definition canonical (v : Version) : Prop :=
  numeric (Major v) ∧ numeric (Minor v) ∧ numeric (Patch v) ∧
  validIdentifiers (PreRelease v) = Ok tt ∧ validIdentifiers (Build v) = Ok tt.

Lemma version_number_numeric s n : version_number s = Ok n → numeric n.
Proof.
  unfold version_number. intros H. inv_ok. subst. to_prop. split; [done|]. unfold Atoi in *.
  repeat case_match; simplify_eq; to_prop; lia.
Qed.

Lemma ParseVersion_canonical s v : ParseVersion s = Ok v → canonical v.
Proof.
  unfold ParseVersion. intros H. inv_ok. repeat case_match; inv_ok; try done; subst;
    repeat match goal with H : version_number _ = Ok _ |- _ => apply version_number_numeric in H end;
    repeat match goal with u : () |- _ => destruct u end; done.
Qed.

Lemma valid_identifiers_chars s : validIdentifiers s = Ok tt → all_chars (λ a, identifier_char a || bool_decide (a = "."%char)) s = true.
Proof.
  unfold validIdentifiers. case_decide as Hs; [by subst|]. destruct (existsb _ _); [done|]. intros H. inv_ok.
  rewrite <- (join_split "."%char s). induction (split "."%char s) as [|x l IH]; [done|]. cbn [forallb] in H.
  apply andb_true_iff in H as [Hx Hl]. assert (all_chars (λ a, identifier_char a || bool_decide (a = "."%char)) x = true) as Hx'.
  { eapply all_chars_impl; [|exact Hx]. cbn. intros a ->. done. }
  destruct l as [|y l]; [done|]. rewrite join_cons by done. rewrite all_chars_app, Hx'. cbn [all_chars].
  rewrite bool_decide_true, orb_true_r by done. by apply IH.
Qed.

Lemma identifier_printable a : identifier_char a || bool_decide (a = "."%char) = true → printable a = true.
Proof.
  unfold identifier_char, printable. cbv zeta. intros [H|H]%orb_true_iff; [|apply bool_decide_eq_true in H as ->; done].
  apply andb_true_iff. rewrite !Z.leb_le. repeat (apply orb_true_iff in H as [H|H]); to_prop; lia.
Qed.

Definition numbers (v : Version) : string := join "."%char [Itoa (Major v); Itoa (Minor v); Itoa (Patch v)].
Definition after_pre (v : Version) : string := if decide (PreRelease v = "") then "" else "-" +:+ PreRelease v.
Definition after_build (v : Version) : string := if decide (Build v = "") then "" else "+" +:+ Build v.

Lemma Version_String_parts v : Version_String v = numbers v +:+ after_pre v +:+ after_build v.
Proof.
  unfold Version_String, numbers, join. rewrite <- string_app_assoc. f_equal. rewrite !string_app_cons, !string_app_nil. f_equal.
  by rewrite <- string_app_assoc.
Qed.

Lemma string_app_nil_r s : s +:+ "" = s.
Proof. induction s as [|a s IH]; [done|]. by rewrite string_app_cons, IH. Qed.

Definition number_char (a : ascii) : bool := digit_char a || bool_decide (a = "."%char).

Lemma numbers_chars v : canonical v → all_chars number_char (numbers v) = true.
Proof.
  intros (H1 & H2 & H3 & _). unfold numeric in *. unfold numbers, join.
  assert (∀ n, 0 ≤ n → all_chars number_char (Itoa n) = true) as Hn.
  { intros n Hn. eapply all_chars_impl; [|apply (Itoa_spec n Hn)]. unfold number_char. by intros a ->. }
  rewrite all_chars_app, Hn by lia. cbn [all_chars]. rewrite all_chars_app, Hn by lia. cbn [all_chars]. by rewrite Hn by lia.
Qed.

Lemma numbers_split v : canonical v → split "."%char (numbers v) = [Itoa (Major v); Itoa (Minor v); Itoa (Patch v)].
Proof.
  intros (H1 & H2 & H3 & _). unfold numeric in *. apply split_join; [done|].
  assert (∀ n, 0 ≤ n → no_char "."%char (Itoa n) = true) as Hn.
  { intros n Hn. by eapply all_chars_no; [apply (Itoa_spec n Hn)|]. }
  repeat constructor; apply Hn; lia.
Qed.

Lemma String_printable v : canonical v → all_chars printable (Version_String v) = true.
Proof.
  intros Hc. rewrite Version_String_parts, !all_chars_app. rewrite (all_chars_impl _ _ (numbers v) identifier_printable).
  - destruct Hc as (_ & _ & _ & Hp%valid_identifiers_chars & Hb%valid_identifiers_chars).
    apply (all_chars_impl _ _ _ identifier_printable) in Hp, Hb. cbn [andb]. apply andb_true_iff.
    unfold after_pre, after_build. split; case_decide; done.
  - eapply all_chars_impl; [|by apply numbers_chars]. intros a. unfold number_char, identifier_char, digit_char. cbv zeta.
    intros [->| ->]%orb_true_iff; [done|apply orb_true_r].
Qed.

Lemma String_prefix v : canonical v → TrimPrefix (Version_String v) "v" = Version_String v.
Proof.
  intros (H1 & _). destruct (Itoa_spec (Major v) ltac:(unfold numeric in H1; lia)) as (_ & _ & a & r & Heq & Ha & _).
  unfold TrimPrefix, Version_String. rewrite Heq, string_app_cons. cbn [HasPrefix].
  rewrite bool_decide_false; [done|]. by intros <-.
Qed.

(** What [cut] finds. *)
Lemma cut_build v : canonical v →
  cut "+"%char (Version_String v) =
    if decide (Build v = "") then None else Some (numbers v +:+ after_pre v, Build v).
Proof.
  intros Hc. assert (no_char "+"%char (numbers v +:+ after_pre v) = true) as Hno.
  { pose proof Hc as (_ & _ & _ & Hp%valid_identifiers_chars & _).
    apply (all_chars_no _ _ (λ a, identifier_char a || bool_decide (a = "."%char))); [|done]. rewrite all_chars_app. apply andb_true_iff.
    split; [|unfold after_pre; case_decide; done].
    eapply all_chars_impl; [|by apply numbers_chars]. intros a. unfold number_char, identifier_char, digit_char. cbv zeta.
    intros [->| ->]%orb_true_iff; [done|apply orb_true_r]. }
  rewrite Version_String_parts, string_app_assoc. unfold after_build. case_decide as Hb.
  - rewrite string_app_nil_r. by apply cut_none.
  - by apply cut_app.
Qed.

Lemma cut_pre v : canonical v →
  cut "-"%char (numbers v +:+ after_pre v) = if decide (PreRelease v = "") then None else Some (numbers v, PreRelease v).
Proof.
  intros Hc. assert (no_char "-"%char (numbers v) = true) as Hno by by eapply all_chars_no; [by apply numbers_chars|].
  unfold after_pre. case_decide; [rewrite string_app_nil_r; by apply cut_none|by apply cut_app].
Qed.

Lemma parse_canonical v : canonical v → ParseVersion (Version_String v) = Ok v.
Proof.
  intros Hc. unfold ParseVersion. rewrite TrimSpace_plain by by apply String_printable. rewrite String_prefix by done. cbv zeta.
  rewrite cut_build by done. assert (Version_String v ≠ "") as Hne.
  { intros He. pose proof (numbers_split v Hc) as Hs. rewrite Version_String_parts in He. destruct (numbers v) as [|a s]; [by cbn in Hs|by rewrite string_app_cons in He]. }
  rewrite bool_decide_false by done. cbn [negb require mbind result_bind].
  assert (∀ b, match cut "-"%char (numbers v +:+ after_pre v) with Some (x, y) => (x, Some y) | None => (numbers v +:+ after_pre v, None) end = b →
    b = (numbers v, if decide (PreRelease v = "") then None else Some (PreRelease v))) as Hcut.
  { intros b <-. rewrite cut_pre by done. unfold after_pre. case_decide; [by rewrite string_app_nil_r|done]. }
  assert (Version_String v = numbers v +:+ after_pre v ∨ Build v ≠ "") as Hb.
  { destruct (decide (Build v = "")) as [E|E]; [left|by right]. rewrite Version_String_parts. unfold after_build.
    rewrite decide_True by done. by rewrite string_app_nil_r. }
  pose proof (numbers_split v Hc) as Hsplit. destruct Hc as (H1 & H2 & H3 & Hp & Hbu).
  destruct (decide (Build v = "")) as [HB|HB]; [destruct Hb as [->|Hb]; [|by destruct Hb]|]; cbv beta iota; rewrite bool_decide_false by congruence;
    cbn [negb require mbind result_bind]; rewrite (Hcut _ eq_refl); (rewrite bool_decide_false by (case_decide; congruence));
    cbn [negb require mbind result_bind]; rewrite Hsplit; rewrite !version_number_Itoa by done; cbn [mbind result_bind].
  all: assert (default "" (if decide (PreRelease v = "") then None else Some (PreRelease v)) = PreRelease v) as ->
    by (case_decide; cbn; congruence).
  - rewrite Hp. cbn. destruct v; cbn in *. by subst.
  - rewrite Hp. cbn. rewrite Hbu. by destruct v.
Qed.

(** Printing and parsing agree.  A version the parser accepted is
    printed as a text that parses to the same version. *)
Theorem version_roundtrip (s : string) (v : Version) :
  ParseVersion s = Ok v → ParseVersion (Version_String v) = Ok v.
Proof. intros H. by apply parse_canonical, (ParseVersion_canonical s). Qed.

Lemma version_roundtrip_witness :
  ∃ v, ParseVersion " v1.10.0-rc.2+linux " = Ok v ∧ Version_String v = "1.10.0-rc.2+linux" ∧
    ParseVersion (Version_String v) = Ok v.
Proof.
  eexists. split; [vm_compute; reflexivity|]. split; [reflexivity|].
  apply (version_roundtrip " v1.10.0-rc.2+linux "). vm_compute. reflexivity.
Defined.

(** Versions are totally ordered by [Compare], up to the builds of
    one release: of two versions exactly one precedes the other or they are
    the same release, precedence is transitive, builds of one release precede
    the same versions, and a pre-release precedes the release it leads to. *)
Theorem version_order (a b c : Version) :
  (Precedes a b = true ∧ SameRelease a b = false ∧ Precedes b a = false ∨
   Precedes a b = false ∧ SameRelease a b = true ∧ Precedes b a = false ∨
   Precedes a b = false ∧ SameRelease a b = false ∧ Precedes b a = true) ∧
  (Precedes a b = true → Precedes b c = true → Precedes a c = true) ∧
  (SameRelease a b = true → Precedes a c = Precedes b c ∧ Precedes c a = Precedes c b) ∧
  (PreRelease a ≠ "" → PreRelease b = "" → (Major a, Minor a, Patch a) = (Major b, Minor b, Patch b) → Precedes a b = true).
Proof.
  pose proof version_ordering as Ho. destruct (Ho) as [Hs Hf Ht]. unfold Precedes, SameRelease. split_and!.
  - rewrite (Hf a b). destruct (Hs a b) as [->|[->| ->]]; cbn; auto.
  - rewrite !Z.ltb_lt. intros H1 H2. pose proof (Ht a b c ltac:(lia) ltac:(lia)) as H3.
    destruct (decide (Version_Compare a c = 0)) as [E|E]; [|lia]. pose proof (ordering_equal _ a c b Ho E) as He.
    rewrite (Hf b c) in He. lia.
  - intros E%Z.eqb_eq. rewrite (ordering_equal _ a b c Ho E), (ordering_equal_r _ c a b Ho E). done.
  - intros Ha Hb [= E1 E2 E3]. unfold Version_Compare. rewrite E1, E2, E3, !Z.eqb_refl. cbn. rewrite comparePreRelease_cases.
    by rewrite decide_False, decide_True.
Qed.
