(* ===== verification/Release.v ===== *)
(** * Releases ([internal/update/release.go], [rollout.go], [trust.go])

    The signed documents of an update server: their normal form and
    validation, the staged rollout, and the key ring that decides whether a
    release is trusted.  [Normalize] and [Validate] change their receiver in
    place; here they return it.  [strings.ToLower], [url.Parse], the JSON
    encoding of a release and the public keys are arguments. *)
From Stdlib Require Import Ascii.
From S2P Require Import Prelude GoStr Crypto Version.

Local Open Scope string_scope.
Local Open Scope list_scope.
Local Open Scope Z_scope.

(** ** Data *)

Record Artifact := {
  ArtifactComponent : string;
  ArtifactOS : string;
  Architecture : string;
  ArtifactURL : string;
  ArtifactFormat : string;
  SizeBytes : Z;
  SHA256 : string;
  BinarySHA256 : string;
}.
#[export] Instance Artifact_eta : Eta Artifact := fun a =>
  Build_Artifact (ArtifactComponent a) (ArtifactOS a) (Architecture a) (ArtifactURL a) (ArtifactFormat a) (SizeBytes a)
    (SHA256 a) (BinarySHA256 a).

Record RolloutStage := { StartsAt : Z; Percent : Z }.
#[export] Instance RolloutStage_eta : Eta RolloutStage := fun s => Build_RolloutStage (StartsAt s) (Percent s).
Definition Rollout : Type := list RolloutStage.

Record Release := {
  ReleaseVersion : string;
  ReleaseChannel : string;
  PublishedAt : Z;
  Notes : string;
  MinimumFromVersion : string;
  ProtocolVersion : Z;
  MinimumProtocolVersion : Z;
  ConfigVersion : Z;
  StateVersion : Z;
  Mandatory : bool;
  ReleaseRollout : Rollout;
  Artifacts : list Artifact;
}.
#[export] Instance Release_eta : Eta Release := fun r =>
  Build_Release (ReleaseVersion r) (ReleaseChannel r) (PublishedAt r) (Notes r) (MinimumFromVersion r) (ProtocolVersion r)
    (MinimumProtocolVersion r) (ConfigVersion r) (StateVersion r) (Mandatory r) (ReleaseRollout r) (Artifacts r).

Record Signature := { SignatureKeyID : string; SignatureAlgorithm : string; SignatureValue : string }.
Record SignedRelease := { SignedOf : Release; Signatures : list Signature }.

Record Feed := { FeedVersion : Z; FeedChannel : string; Releases : list SignedRelease; Revoked : list string }.
#[export] Instance Feed_eta : Eta Feed := fun f => Build_Feed (FeedVersion f) (FeedChannel f) (Releases f) (Revoked f).

Record TrustedKey := { KeyID : string; PublicKeyPEM : string; KeyRevoked : bool; KeyExpiresAt : option Z }.
Record KeyRing := { ring_keys : gmap string TrustedKey; threshold : Z }.

Record RolloutStatus := { StatusCohort : Z; PercentOpen : Z; Eligible : bool; NextStageAt : option Z }.

(** What [url.Parse] finds in the URL of an artifact. *)
Record artifact_url := { UScheme : string; UHost : string; UPath : string }.

Definition valid_channel (c : string) : bool := bool_decide (c ∈ ["stable"; "beta"; "nightly"]).
Definition valid_component (c : string) : bool :=
  bool_decide (c ∈ ["agent"; "desktop"; "cli"; "control"; "gc"; "verify"; "relay"]).
Definition valid_format (f : string) : bool := bool_decide (f = "binary" ∨ f = "gzip").

(** ** The rollout *)

Definition second : Z := 10 ^ 9.
Definition cohortBuckets : Z := 10000.
Definition maxRolloutStages : nat := 32.

(** [time.Time.Truncate(time.Second)]. *)
Definition truncate (t : Z) : Z := t - t `mod` second.

Definition starts_before (a b : RolloutStage) : Prop := StartsAt a ≤ StartsAt b.
#[export] Instance starts_before_dec : RelDecision starts_before.
Proof. intros a b. unfold starts_before. apply _. Defined.
#[export] Instance starts_before_total : Total starts_before.
Proof. intros a b. unfold starts_before. lia. Qed.
#[export] Instance starts_before_trans : Transitive starts_before.
Proof. intros a b c. unfold starts_before. lia. Qed.

(** [Rollout.Normalize]. *)
Definition Rollout_Normalize (r : Rollout) : Rollout :=
  merge_sort starts_before ((λ s, s <| StartsAt := truncate (StartsAt s) |>) <$> r).

(** The loop of [Rollout.Validate]. *)
Fixpoint check_stages (previous : option RolloutStage) (r : Rollout) : result unit :=
  match r with
  | [] => Ok tt
  | stage :: rest =>
      _ ← require (negb (StartsAt stage =? 0)) "stage requires a start time";
      _ ← require ((0 <=? Percent stage) && (Percent stage <=? 100)) "stage percent is outside 0..100";
      _ ← match previous with
          | None => Ok tt
          | Some p =>
              _ ← require (StartsAt p <? StartsAt stage) "stage does not start after the previous stage";
              require (Percent p <=? Percent stage) "a rollout may not reduce the percentage it already opened"
          end;
      check_stages (Some stage) rest
  end.

(** [Rollout.Validate]. *)
Definition Rollout_Validate (r : Rollout) : result Rollout :=
  let r := Rollout_Normalize r in
  _ ← require (Nat.leb (length r) maxRolloutStages) "a rollout may define at most 32 stages";
  _ ← check_stages None r;
  Ok r.

(** [Rollout.PercentAt]. *)
Fixpoint percent_from (percent : Z) (r : Rollout) (now : Z) : Z :=
  match r with
  | [] => percent
  | stage :: rest => if now <? StartsAt stage then percent else percent_from (Percent stage) rest now
  end.
Definition PercentAt (r : Rollout) (now : Z) : Z :=
  match r with [] => 100 | _ => percent_from 0 r now end.

(** [Rollout.NextStageAfter]. *)
Definition NextStageAfter (r : Rollout) (now : Z) : option Z :=
  StartsAt <$> head (filter (λ s, now < StartsAt s) r).

Section release.
Context `{HC : !Crypto}.
Context (ToLower : string → string) (parse_url : string → result artifact_url) (encode_release : Release → bytes)
        (public_key_id : string → result string) (key_verifies : string → bytes → bytes → bool)
        (EqualFold : string → string → bool).

(** [Cohort]. *)
Definition Cohort (machineID : string) (v : Version) : Z :=
  from_big_endian (take 8 (sha256 (String.list_byte_of_string (machineID +:+ String (ascii_of_N 0) (Version_String v)))))
    `mod` cohortBuckets.

(** [Rollout.Status]. *)
Definition Rollout_Status (r : Rollout) (machineID : string) (v : Version) (now : Z) : RolloutStatus :=
  let cohort := Cohort machineID v in
  let percent := PercentAt r now in
  {| StatusCohort := cohort; PercentOpen := percent; Eligible := cohort <? percent * (cohortBuckets /' 100);
     NextStageAt := NextStageAfter r now |}.

(** ** Normal form and validation *)

Definition fold_name (s : string) : string := ToLower (TrimSpace s).

(** What [Release.Normalize] does to one artifact. *)
Definition normalize_artifact (a : Artifact) : Artifact :=
  let a := a <| ArtifactComponent := fold_name (ArtifactComponent a) |> <| ArtifactOS := fold_name (ArtifactOS a) |>
             <| Architecture := fold_name (Architecture a) |> <| ArtifactURL := TrimSpace (ArtifactURL a) |>
             <| ArtifactFormat := fold_name (ArtifactFormat a) |> <| SHA256 := fold_name (SHA256 a) |>
             <| BinarySHA256 := fold_name (BinarySHA256 a) |> in
  if bool_decide (ArtifactFormat a = "binary") && bool_decide (BinarySHA256 a = "")
  then a <| BinarySHA256 := SHA256 a |> else a.

(** [Release.Normalize]. *)
Definition Release_Normalize (r : Release) : Release :=
  r <| ReleaseVersion := TrimPrefix (TrimSpace (ReleaseVersion r)) "v" |>
    <| ReleaseChannel := fold_name (ReleaseChannel r) |> <| Notes := TrimSpace (Notes r) |>
    <| MinimumFromVersion := TrimPrefix (TrimSpace (MinimumFromVersion r)) "v" |>
    <| PublishedAt := truncate (PublishedAt r) |>
    <| Artifacts := normalize_artifact <$> Artifacts r |>
    <| ReleaseRollout := Rollout_Normalize (ReleaseRollout r) |>.

Definition hex_char (a : ascii) : bool :=
  let n := Z.of_N (N_of_ascii a) in
  (48 <=? n) && (n <=? 57) || (97 <=? n) && (n <=? 102) || (65 <=? n) && (n <=? 70).

(** [validDigest]. *)
Definition validDigest (value : string) : result unit :=
  _ ← require (Nat.eqb (String.length value) 64) "expected 64 hex characters";
  require (all_chars hex_char value) "not hexadecimal".

(** [Artifact.Validate]. *)
Definition Artifact_Validate (a : Artifact) : result unit :=
  _ ← require (valid_component (ArtifactComponent a)) "unsupported component";
  _ ← require (negb (bool_decide (ArtifactOS a = "")) && negb (bool_decide (Architecture a = "")))
        "an artifact requires an operating system and an architecture";
  _ ← require (valid_format (ArtifactFormat a)) "unsupported artifact format";
  parsed ← parse_url (ArtifactURL a);
  _ ← (if decide (UScheme parsed = "https") then
         require (negb (bool_decide (UHost parsed = ""))) "an https artifact url requires a host"
       else if decide (UScheme parsed = "file") then
         require (bool_decide (UHost parsed = "") && HasPrefix (UPath parsed) "/")
           "a file artifact url must be an absolute file:// path"
       else Err "artifact url must be an absolute https or file url");
  _ ← require (0 <? SizeBytes a) "an artifact requires a positive size so a download can be bounded";
  _ ← validDigest (SHA256 a);
  _ ← validDigest (BinarySHA256 a);
  require (negb (bool_decide (ArtifactFormat a = "binary") && negb (bool_decide (BinarySHA256 a = SHA256 a))))
    "an uncompressed artifact must record the same digest for its bytes and its executable".

Definition artifact_key (a : Artifact) : string :=
  ArtifactComponent a +:+ "/" +:+ ArtifactOS a +:+ "/" +:+ Architecture a.

(** The loop over the artifacts. *)
Fixpoint check_artifacts (seen : list string) (artifacts : list Artifact) : result unit :=
  match artifacts with
  | [] => Ok tt
  | a :: rest =>
      _ ← Artifact_Validate a;
      _ ← require (negb (bool_decide (artifact_key a ∈ seen))) "release has two artifacts";
      check_artifacts (artifact_key a :: seen) rest
  end.

(** [Release.Validate]. *)
Definition Release_Validate (r : Release) : result Release :=
  let r := Release_Normalize r in
  version ← ParseVersion (ReleaseVersion r);
  let r := r <| ReleaseVersion := Version_String version |> in
  _ ← require (valid_channel (ReleaseChannel r)) "unsupported release channel";
  _ ← require (negb (PublishedAt r =? 0)) "a release requires a publication time";
  r ← (if decide (MinimumFromVersion r = "") then Ok r
       else
         minimum ← ParseVersion (MinimumFromVersion r);
         _ ← require (negb (Precedes version minimum)) "minimum_from_version cannot be newer than the release itself";
         Ok (r <| MinimumFromVersion := Version_String minimum |>));
  _ ← require ((0 <? ProtocolVersion r) && (0 <? ConfigVersion r) && (0 <? StateVersion r))
        "a release requires positive protocol, config, and state versions";
  _ ← require ((0 <? MinimumProtocolVersion r) && (MinimumProtocolVersion r <=? ProtocolVersion r))
        "minimum_protocol_version must be positive and no newer than protocol_version";
  rollout ← Rollout_Validate (ReleaseRollout r);
  let r := r <| ReleaseRollout := rollout |> in
  _ ← require (negb (bool_decide (Artifacts r = []))) "a release requires at least one artifact";
  _ ← check_artifacts [] (Artifacts r);
  Ok r.

(** [Release.ArtifactFor]. *)
Definition ArtifactFor (r : Release) (component os architecture : string) : option Artifact :=
  head (filter (λ a, ArtifactComponent a = component ∧ ArtifactOS a = ToLower os ∧ Architecture a = ToLower architecture)
          (Artifacts r)).

Definition canonicalPrefix : string := "shift.dev/release/v1" +:+ nl.

(** [CanonicalBytes]. *)
Definition CanonicalBytes (r : Release) : bytes :=
  String.list_byte_of_string canonicalPrefix ++ encode_release (Release_Normalize r).

(** The loops of [Feed.Validate]. *)
Fixpoint check_revoked (revoked : list string) : result (list string) :=
  match revoked with
  | [] => Ok []
  | entry :: rest =>
      version ← ParseVersion entry;
      rest ← check_revoked rest;
      Ok (Version_String version :: rest)
  end.
Fixpoint check_releases (channel : string) (releases : list SignedRelease) : result (list SignedRelease) :=
  match releases with
  | [] => Ok []
  | signed :: rest =>
      release ← Release_Validate (SignedOf signed);
      _ ← require (bool_decide (ReleaseChannel release = channel)) "feed release belongs to another channel";
      _ ← require (negb (bool_decide (length (Signatures signed) = 0%nat))) "feed release carries no signature";
      rest ← check_releases channel rest;
      Ok ({| SignedOf := release; Signatures := Signatures signed |} :: rest)
  end.

(** [Feed.Validate]. *)
Definition Feed_Validate (f : Feed) : result Feed :=
  _ ← require (FeedVersion f =? 1) "unsupported update feed version";
  let channel := fold_name (FeedChannel f) in
  _ ← require (valid_channel channel) "unsupported feed channel";
  revoked ← check_revoked (Revoked f);
  releases ← check_releases channel (Releases f);
  Ok {| FeedVersion := FeedVersion f; FeedChannel := channel; Releases := releases; Revoked := revoked |}.

(** [Feed.IsRevoked]. *)
Definition IsRevoked (f : Feed) (v : Version) : bool :=
  existsb (λ entry, match ParseVersion entry with Ok revoked => SameRelease revoked v | Err _ => false end) (Revoked f).

(** ** Trust *)

(** The loop of [NewKeyRing]. *)
Fixpoint add_keys (now : Z) (keys : list TrustedKey) (ring : gmap string TrustedKey) : result (gmap string TrustedKey) :=
  match keys with
  | [] => Ok ring
  | key :: rest =>
      let id := fold_name (KeyID key) in
      let pem := TrimSpace (PublicKeyPEM key) +:+ nl in
      derived ← public_key_id pem;
      let id := if decide (id = "") then derived else id in
      _ ← require (bool_decide (id = derived)) "trusted key records an identifier that is not its key material's";
      if KeyRevoked key || match KeyExpiresAt key with Some t => t <=? now | None => false end then add_keys now rest ring
      else
        _ ← require (bool_decide (ring !! id = None)) "trusted key is listed twice";
        add_keys now rest (<[id := {| KeyID := id; PublicKeyPEM := pem; KeyRevoked := KeyRevoked key;
                                      KeyExpiresAt := KeyExpiresAt key |}]> ring)
  end.

(** [NewKeyRing]. *)
Definition NewKeyRing (keys : list TrustedKey) (threshold : Z) (now : Z) : result KeyRing :=
  _ ← require (1 <=? threshold) "a key ring requires a signature threshold of at least one";
  ring ← add_keys now keys ∅;
  _ ← require (threshold <=? Z.of_nat (size ring)) "key ring holds too few usable keys";
  Ok {| ring_keys := ring; threshold := threshold |}.

(** Whether one signature counts, and for which key. *)
Definition verified_key (ring : KeyRing) (message : bytes) (s : Signature) : option string :=
  let keyID := fold_name (SignatureKeyID s) in
  if negb (EqualFold (TrimSpace (SignatureAlgorithm s)) "ed25519") then None
  else match ring_keys ring !! keyID with
       | None => None
       | Some key =>
           match from_base64 (TrimSpace (SignatureValue s)) with
           | Err _ => None
           | Ok raw => if negb (Nat.eqb (length raw) 64) then None
                       else if key_verifies (PublicKeyPEM key) message raw then Some keyID else None
           end
       end.

Fixpoint verify_all (ring : KeyRing) (message : bytes) (signatures : list Signature) (verified : list string) : list string :=
  match signatures with
  | [] => verified
  | s :: rest =>
      if decide (fold_name (SignatureKeyID s) ∈ verified) then verify_all ring message rest verified
      else match verified_key ring message s with
           | None => verify_all ring message rest verified
           | Some keyID => verify_all ring message rest (verified ++ [keyID])
           end
  end.

(** [KeyRing.Verify]. *)
Definition KeyRing_Verify (ring : KeyRing) (signed : SignedRelease) : result (list string) :=
  let verified := verify_all ring (CanonicalBytes (SignedOf signed)) (Signatures signed) [] in
  if Z.of_nat (length verified) <? threshold ring then Err "release is not signed by enough trusted keys" else Ok verified.

(** ** The rollout only widens *)

(** Stages in order, each opening at least as much as the one before. *)
Fixpoint widening (start percent : Z) (r : Rollout) : Prop :=
  match r with
  | [] => percent ≤ 100
  | s :: rest => start < StartsAt s ∧ percent ≤ Percent s ∧ widening (StartsAt s) (Percent s) rest
  end.

Lemma check_stages_widening p r : check_stages (Some p) r = Ok tt → Percent p ≤ 100 → widening (StartsAt p) (Percent p) r.
Proof.
  revert p. induction r as [|s r IH]; intros p H Hp; [done|]. cbn in H. inv_ok. to_prop. cbn. split_and!; [done..|]. by apply IH.
Qed.

Lemma widening_bound start percent r : widening start percent r → percent ≤ 100.
Proof. revert start percent. induction r as [|s r IH]; intros start percent; cbn; [done|]. intros (_ & ? & H%IH). lia. Qed.

Lemma percent_from_bounds start percent r now : widening start percent r → percent ≤ percent_from percent r now ≤ 100.
Proof.
  revert start percent. induction r as [|s r IH]; intros start percent H; cbn; [by cbn in H; lia|].
  pose proof (widening_bound _ _ _ H). cbn in H. destruct H as (H1 & H2 & H3). destruct (now <? StartsAt s); [lia|].
  pose proof (IH _ _ H3). lia.
Qed.

Lemma percent_from_mono start percent r now now' :
  widening start percent r → now ≤ now' → percent_from percent r now ≤ percent_from percent r now'.
Proof.
  revert start percent. induction r as [|s r IH]; intros start percent H Hle; cbn; [done|].
  pose proof H as (H1 & H2 & H3). pose proof (percent_from_bounds _ _ _ now' H3).
  destruct (Z.ltb_spec now (StartsAt s)), (Z.ltb_spec now' (StartsAt s)); [done|lia|lia|by eapply IH].
Qed.

Lemma cohort_range m v : 0 ≤ Cohort m v < cohortBuckets.
Proof. apply Z.mod_pos_bound. done. Qed.

(** C40.  A rollout only ever widens.  In a plan that was accepted the
    share of machines a release is open to lies between 0 and 100 percent and
    never shrinks, and a machine that was offered the release stays eligible.
    At 100 percent every machine is, at 0 percent none. *)
Theorem rollout_widens (r r' : Rollout) (machineID : string) (v : Version) (now now' : Z) :
  Rollout_Validate r = Ok r' → now ≤ now' →
  let status := Rollout_Status r' machineID v in
  0 ≤ PercentOpen (status now) ≤ PercentOpen (status now') ∧ PercentOpen (status now') ≤ 100 ∧
  (Eligible (status now) = true → Eligible (status now') = true) ∧
  (PercentOpen (status now) = 100 → Eligible (status now) = true) ∧
  (PercentOpen (status now) = 0 → Eligible (status now) = false).
Proof.
  unfold Rollout_Validate. intros H Hle. inv_ok. subst r'. set (r' := Rollout_Normalize r) in *.
  assert (0 ≤ PercentAt r' now ≤ PercentAt r' now' ∧ PercentAt r' now' ≤ 100) as [Hmono Hmax].
  { destruct x0. destruct r' as [|s rest]; [done|]. match goal with H : check_stages _ _ = _ |- _ => cbn in H end. inv_ok. to_prop.
    match goal with H : check_stages _ _ = _ |- _ => apply check_stages_widening in H; [|done] end. unfold PercentAt. cbn.
    pose proof (percent_from_bounds _ _ _ now' ltac:(eassumption)). pose proof (percent_from_bounds _ _ _ now ltac:(eassumption)).
    pose proof (percent_from_mono _ _ _ now now' ltac:(eassumption) Hle).
    destruct (Z.ltb_spec now (StartsAt s)), (Z.ltb_spec now' (StartsAt s)); lia. }
  cbn. pose proof (cohort_range machineID v) as Hc. unfold cohortBuckets in *. change (10000 /' 100) with 100.
  split_and!; try lia; rewrite ?Z.ltb_lt, ?Z.ltb_ge; lia.
Qed.

(** ** Trust *)

(** A key of the ring is one that was listed, usable and what it says it is. *)
Definition usable (now : Z) (keys : list TrustedKey) (id pem : string) : Prop :=
  ∃ key, key ∈ keys ∧ pem = TrimSpace (PublicKeyPEM key) +:+ nl ∧ public_key_id pem = Ok id ∧ KeyRevoked key = false ∧
    ∀ t, KeyExpiresAt key = Some t → now < t.

Lemma add_keys_usable now keys all ring ring' :
  keys ⊆ all → (∀ id k, ring !! id = Some k → usable now all id (PublicKeyPEM k)) →
  add_keys now keys ring = Ok ring' → ∀ id k, ring' !! id = Some k → usable now all id (PublicKeyPEM k).
Proof.
  revert ring. induction keys as [|key keys IH]; intros ring Hsub Hring H; [by injection H as <-|]. cbn in H. inv_ok.
  assert (keys ⊆ all) as Hsub' by set_solver. destruct (_ || _) eqn:Hskip; [by eapply IH|]. inv_ok. to_prop.
  eapply IH; [done| |exact H]. intros id k [[<- <-]|[_ Hk]]%lookup_insert_Some; [|by apply Hring].
  cbn. exists key. split_and!; [set_solver|done|congruence|done|]. intros t Ht.
  match goal with H : match KeyExpiresAt key with _ => _ end = false |- _ => rewrite Ht in H end. by to_prop.
Qed.

Definition signed_by (signed : SignedRelease) (pem : string) : Prop :=
  ∃ s raw, s ∈ Signatures signed ∧ from_base64 (TrimSpace (SignatureValue s)) = Ok raw ∧
    key_verifies pem (CanonicalBytes (SignedOf signed)) raw = true.

Lemma verify_all_spec ring message signatures all verified :
  signatures ⊆ all → NoDup verified →
  (∀ id, id ∈ verified → ∃ s raw k, s ∈ all ∧ ring_keys ring !! id = Some k ∧ from_base64 (TrimSpace (SignatureValue s)) = Ok raw ∧
     key_verifies (PublicKeyPEM k) message raw = true) →
  NoDup (verify_all ring message signatures verified) ∧
  ∀ id, id ∈ verify_all ring message signatures verified → ∃ s raw k, s ∈ all ∧ ring_keys ring !! id = Some k ∧
    from_base64 (TrimSpace (SignatureValue s)) = Ok raw ∧ key_verifies (PublicKeyPEM k) message raw = true.
Proof.
  revert verified. induction signatures as [|s rest IH]; intros verified Hsub Hnd Hv; [done|]. cbn.
  assert (rest ⊆ all) as Hsub' by set_solver. case_decide as Hin; [by apply IH|]. destruct (verified_key ring message s) as [id|] eqn:Hk; [|by apply IH].
  unfold verified_key in Hk. destruct (negb _); [done|]. destruct (ring_keys ring !! _) as [key|] eqn:Hkey; [|done].
  destruct (from_base64 _) as [raw|] eqn:Hraw; [|done]. destruct (negb _); [done|]. destruct (key_verifies _ _ _) eqn:Hver; [|done].
  injection Hk as <-. apply IH; [done| |].
  - apply NoDup_app. split_and!; [done| |apply NoDup_singleton]. intros x Hx ->%list_elem_of_singleton. done.
  - intros id [Hid| ->%list_elem_of_singleton]%elem_of_app; [by apply Hv|]. exists s, raw, key. split_and!; [set_solver|done..].
Qed.

Lemma ring_usable keys t now ring id k :
  NewKeyRing keys t now = Ok ring → ring_keys ring !! id = Some k → usable now keys id (PublicKeyPEM k).
Proof.
  unfold NewKeyRing. intros H. inv_ok. subst. cbn. eapply add_keys_usable; [done| |eassumption]. intros ? ?. by rewrite lookup_empty.
Qed.

Lemma verify_spec ring signed ids :
  KeyRing_Verify ring signed = Ok ids →
  NoDup ids ∧ threshold ring ≤ Z.of_nat (length ids) ∧
  ∀ id, id ∈ ids → ∃ k, ring_keys ring !! id = Some k ∧ signed_by signed (PublicKeyPEM k).
Proof.
  unfold KeyRing_Verify. destruct (Z.ltb_spec (Z.of_nat (length (verify_all ring (CanonicalBytes (SignedOf signed)) (Signatures signed) []))) (threshold ring));
    [done|]. intros [= <-]. destruct (verify_all_spec ring (CanonicalBytes (SignedOf signed)) (Signatures signed) (Signatures signed) []) as [Hn Hs];
    [done|apply NoDup_nil_2|by intros id ?%elem_of_nil|]. split_and!; [done|done|]. intros id Hid.
  destruct (Hs id Hid) as (s & raw & k & ? & ? & ? & ?). exists k. split; [done|]. by exists s, raw.
Qed.

(** C29.  A trusted release was signed by enough usable keys.  When the
    key ring accepts a release, as many distinct keys as its threshold asks
    for have signed the canonical bytes of the release; each of them was
    configured, neither revoked nor expired when the ring was built, and is
    known under the identifier of its own key material. *)
Theorem release_trusted (keys : list TrustedKey) (t now : Z) (ring : KeyRing) (signed : SignedRelease) (ids : list string) :
  NewKeyRing keys t now = Ok ring → KeyRing_Verify ring signed = Ok ids →
  1 ≤ t ≤ Z.of_nat (length ids) ∧ NoDup ids ∧
  ∀ id, id ∈ ids → ∃ pem, usable now keys id pem ∧ signed_by signed pem.
Proof.
  intros Hr Hv. destruct (verify_spec ring signed ids Hv) as (Hn & Ht & Hs). assert (threshold ring = t ∧ 1 ≤ t) as [<- ?].
  { unfold NewKeyRing in Hr. inv_ok. subst. by to_prop. }
  split; [lia|]. split; [done|]. intros id Hid. destruct (Hs id Hid) as (k & Hk & ?). exists (PublicKeyPEM k). split; [|done].
  by eapply ring_usable.
Qed.
End release.

(** ** A release *)

#[local] Existing Instance toy_crypto.

Definition demo_rollout : Rollout :=
  [{| StartsAt := 20 * second; Percent := 100 |}; {| StartsAt := 10 * second + 7; Percent := 5 |}].

Lemma rollout_widens_witness :
  ∃ r', Rollout_Validate demo_rollout = Ok r' ∧
    0 ≤ PercentOpen (Rollout_Status r' "m" {| Major := 1; Minor := 0; Patch := 0; PreRelease := ""; Build := "" |} (12 * second)) ≤ 100 ∧
    PercentAt r' (12 * second) = 5 ∧ PercentAt r' (30 * second) = 100.
Proof.
  eexists. split; [vm_compute; reflexivity|]. split; [|split; vm_compute; reflexivity].
  edestruct (rollout_widens demo_rollout) as (H & H' & _); [vm_compute; reflexivity| |split; [apply H|etrans; [apply H|exact H']]].
  done.
Defined.

(** Keys named after their material, and one signature everybody accepts. *)
Definition demo_key (pem : string) : TrustedKey :=
  {| KeyID := ""; PublicKeyPEM := pem; KeyRevoked := false; KeyExpiresAt := None |}.
Definition demo_seal : bytes := replicate 64 Byte.x07.
Definition demo_signature (id : string) : Signature :=
  {| SignatureKeyID := id; SignatureAlgorithm := "ed25519"; SignatureValue := base64 demo_seal |}.
Definition demo_digest_of (b : bytes) : string := hex (sha256 b).
Definition demo_binary : bytes := replicate 31 Byte.x42.
Definition demo_artifact : Artifact :=
  {| ArtifactComponent := "agent"; ArtifactOS := "linux"; Architecture := "amd64"; ArtifactURL := "https://u/agent";
     ArtifactFormat := "binary"; SizeBytes := 31; SHA256 := demo_digest_of demo_binary; BinarySHA256 := demo_digest_of demo_binary |}.
Definition demo_release (v : string) : Release :=
  {| ReleaseVersion := v; ReleaseChannel := "stable"; PublishedAt := second; Notes := ""; MinimumFromVersion := "1.0.0";
     ProtocolVersion := 2; MinimumProtocolVersion := 1; ConfigVersion := 1; StateVersion := 1; Mandatory := false;
     ReleaseRollout := []; Artifacts := [demo_artifact] |}.
Definition demo_signed (v : string) : SignedRelease :=
  {| SignedOf := demo_release v; Signatures := [demo_signature "k1"; demo_signature "k1"; demo_signature "k2"; demo_signature "k3"] |}.
Definition demo_key_id (pem : string) : result string := Ok (String.substring 0 2 pem).
Definition demo_verifies (pem : string) (message raw : bytes) : bool := bool_decide (raw = demo_seal).
Definition demo_keys : list TrustedKey := [demo_key "k1"; demo_key "k2"].

Definition demo_ring : result KeyRing := NewKeyRing (λ s, s) demo_key_id demo_keys 2 0.

Lemma release_trusted_witness :
  ∃ ring, demo_ring = Ok ring ∧
    KeyRing_Verify (λ s, s) (λ _, []) demo_verifies String.eqb ring (demo_signed "1.2.0") = Ok ["k1"; "k2"] ∧
    1 ≤ 2 ≤ Z.of_nat (length ["k1"; "k2"]) ∧ NoDup ["k1"; "k2"].
Proof.
  assert (∃ ring, demo_ring = Ok ring ∧
    KeyRing_Verify (λ s, s) (λ _, []) demo_verifies String.eqb ring (demo_signed "1.2.0") = Ok ["k1"; "k2"]) as (ring & Hr & Hv)
    by (eexists; split; vm_compute; reflexivity).
  exists ring. split; [exact Hr|]. split; [exact Hv|].
  destruct (release_trusted (λ s, s) (λ _, Err "") (λ _, []) demo_key_id demo_verifies String.eqb demo_keys 2 0 ring
    (demo_signed "1.2.0") ["k1"; "k2"] Hr Hv) as (H1 & H2 & _). exact (conj H1 H2).
Defined.
