(* ===== verification/Update.v ===== *)
(** * Which release applies ([internal/update/compatibility.go])

    Every release of a feed is judged against one installation; the newest
    applicable one is selected. *)
From Stdlib Require Import Ascii.
From S2P Require Import Prelude GoStr Crypto Version Release.

Local Open Scope string_scope.
Local Open Scope list_scope.
Local Open Scope Z_scope.

(** [Installation]; the path of the executable is the installer's. *)
Record Installation := {
  InstComponent : string;
  InstVersion : string;
  InstChannel : string;
  InstOS : string;
  InstArchitecture : string;
  InstMachineID : string;
  InstProtocol : Z;
  InstConfig : Z;
  InstState : Z;
  PeerProtocolVersion : Z;
  AllowDowngrade : bool;
}.
#[export] Instance Installation_eta : Eta Installation := fun i =>
  Build_Installation (InstComponent i) (InstVersion i) (InstChannel i) (InstOS i) (InstArchitecture i) (InstMachineID i)
    (InstProtocol i) (InstConfig i) (InstState i) (PeerProtocolVersion i) (AllowDowngrade i).

(** [Evaluation]. *)
Record Evaluation := {
  EvVersion : string;
  EvChannel : string;
  EvMandatory : bool;
  Applicable : bool;
  Code : string;
  EvReason : string;
  EvRollout : option RolloutStatus;
  SignedBy : list string;
  EvArtifact : option Artifact;
  EvRelease : Release;
}.
#[export] Instance Evaluation_eta : Eta Evaluation := fun e =>
  Build_Evaluation (EvVersion e) (EvChannel e) (EvMandatory e) (Applicable e) (Code e) (EvReason e) (EvRollout e) (SignedBy e)
    (EvArtifact e) (EvRelease e).

(** [Evaluation.skip]. *)
Definition skip (e : Evaluation) (code reason : string) : Evaluation :=
  e <| Applicable := false |> <| Code := code |> <| EvReason := reason |> <| EvArtifact := None |>.

Section update.
Context `{HC : !Crypto}.
Context (ToLower : string → string) (parse_url : string → result artifact_url) (encode_release : Release → bytes)
        (key_verifies : string → bytes → bytes → bool) (EqualFold : string → string → bool).

#[local] Abbreviation fold_name := (fold_name ToLower).
#[local] Abbreviation Verify := (KeyRing_Verify ToLower encode_release key_verifies EqualFold).
#[local] Abbreviation Feed_Validate := (Feed_Validate ToLower parse_url).

(** [Installation.Validate]. *)
Definition Installation_Validate (i : Installation) : result Installation :=
  let i := i <| InstComponent := fold_name (InstComponent i) |> <| InstChannel := fold_name (InstChannel i) |>
             <| InstOS := fold_name (InstOS i) |> <| InstArchitecture := fold_name (InstArchitecture i) |>
             <| InstMachineID := TrimSpace (InstMachineID i) |> in
  _ ← require (valid_component (InstComponent i)) "unsupported component";
  _ ← require (valid_channel (InstChannel i)) "unsupported channel";
  version ← ParseVersion (InstVersion i);
  let i := i <| InstVersion := Version_String version |> in
  _ ← require (negb (bool_decide (InstOS i = "")) && negb (bool_decide (InstArchitecture i = "")))
        "an installation requires an operating system and an architecture";
  _ ← require (negb (bool_decide (InstMachineID i = ""))) "an installation requires a machine identity for rollout cohorts";
  _ ← require ((0 <? InstProtocol i) && (0 <? InstConfig i) && (0 <? InstState i))
        "an installation requires positive protocol, config, and state versions";
  _ ← require (0 <=? PeerProtocolVersion i) "peer protocol version cannot be negative";
  Ok i.

Definition hasComponent (r : Release) (component : string) : bool :=
  existsb (λ a, bool_decide (ArtifactComponent a = component)) (Artifacts r).

(** [evaluateRelease]. *)
Definition evaluateRelease (f : Feed) (signed : SignedRelease) (i : Installation) (installed : Version) (ring : KeyRing)
    (now : Z) : Evaluation :=
  let r := SignedOf signed in
  let e := {| EvVersion := ReleaseVersion r; EvChannel := ReleaseChannel r; EvMandatory := Mandatory r; Applicable := false;
              Code := ""; EvReason := ""; EvRollout := None; SignedBy := []; EvArtifact := None; EvRelease := r |} in
  match ParseVersion (ReleaseVersion r) with
  | Err err => skip e "NOT_NEWER_THAN_INSTALLED" err
  | Ok version =>
      let status := Rollout_Status (ReleaseRollout r) (InstMachineID i) version now in
      let e := e <| EvRollout := Some status |> in
      match Verify ring signed with
      | Err err => skip e "SIGNATURE_UNTRUSTED" err
      | Ok signedBy =>
          let e := e <| SignedBy := signedBy |> in
          if negb (bool_decide (ReleaseChannel r = InstChannel i)) then skip e "CHANNEL_MISMATCH" "release is on another channel"
          else if IsRevoked f version then skip e "RELEASE_REVOKED" "release was withdrawn by the update feed"
          else if negb (AllowDowngrade i) && negb (Precedes installed version) then
            skip e "NOT_NEWER_THAN_INSTALLED" "release is not newer"
          else if negb (Stable version) && bool_decide (InstChannel i = "stable") then
            skip e "PRE_RELEASE_NOT_ALLOWED" "a pre-release is not installed on the stable channel"
          else
            match ArtifactFor ToLower r (InstComponent i) (InstOS i) (InstArchitecture i) with
            | None => if negb (hasComponent r (InstComponent i)) then skip e "COMPONENT_MISSING" "release publishes no artifact"
                      else skip e "PLATFORM_UNSUPPORTED" "release publishes no artifact for the platform"
            | Some artifact =>
                let path := if negb (bool_decide (MinimumFromVersion r = "")) && negb (AllowDowngrade i) then
                              match ParseVersion (MinimumFromVersion r) with
                              | Err err => Err err
                              | Ok minimum => require (negb (Precedes installed minimum)) "upgrading requires a newer version first"
                              end
                            else Ok tt in
                match path with
                | Err err => skip e "INTERMEDIATE_UPGRADE_REQUIRED" err
                | Ok _ =>
                    if (0 <? PeerProtocolVersion i) && ((PeerProtocolVersion i <? MinimumProtocolVersion r) ||
                                                        (ProtocolVersion r <? PeerProtocolVersion i)) then
                      skip e "CONTROL_PLANE_PROTOCOL_UNSUPPORTED" "release speaks another control-plane protocol"
                    else if ConfigVersion r <? InstConfig i then skip e "CONFIG_SCHEMA_TOO_NEW" "configuration schema"
                    else if StateVersion r <? InstState i then skip e "STATE_SCHEMA_TOO_NEW" "state schema"
                    else if negb (Eligible status) then skip e "ROLLOUT_NOT_REACHED" "release is open to other machines"
                    else e <| Applicable := true |> <| EvArtifact := Some artifact |>
                end
            end
      end
  end.

(** Whether the release of [a] is older than that of [b]. *)
Definition older (a b : Evaluation) : bool :=
  match ParseVersion (EvVersion a), ParseVersion (EvVersion b) with
  | Ok l, Ok r => Precedes l r
  | _, _ => false
  end.

(** One pass of [sortEvaluationsNewestFirst]: [x] moves to the front of the
    evaluations before it, which are given last first, while it is newer. *)
Fixpoint sink (x : Evaluation) (before : list Evaluation) : list Evaluation :=
  match before with
  | [] => [x]
  | y :: rest => if older y x then y :: sink x rest else x :: before
  end.
Definition sortEvaluationsNewestFirst (evaluations : list Evaluation) : list Evaluation :=
  rev (foldl (λ before x, sink x before) [] evaluations).

(** [Evaluate]; the ring is always there. *)
Definition Evaluate (f : Feed) (i : Installation) (ring : KeyRing) (now : Z) : result (list Evaluation) :=
  f ← Feed_Validate f;
  i ← Installation_Validate i;
  installed ← ParseVersion (InstVersion i);
  Ok (sortEvaluationsNewestFirst ((λ signed, evaluateRelease f signed i installed ring now) <$> Releases f)).

(** [Select] and [SelectMandatory]. *)
Definition Select (evaluations : list Evaluation) : option Evaluation := head (filter (λ e, Applicable e = true) evaluations).
Definition SelectMandatory (evaluations : list Evaluation) : option Evaluation :=
  head (filter (λ e, Applicable e = true ∧ EvMandatory e = true) evaluations).

(** ** What is selected *)

(** The release of [signed] has version [v], may replace the installation, and
    [a] is what to install. *)
Record suits (f : Feed) (i : Installation) (installed : Version) (ring : KeyRing) (now : Z)
    (signed : SignedRelease) (v : Version) (a : Artifact) : Prop := {
  suits_version : ParseVersion (ReleaseVersion (SignedOf signed)) = Ok v;
  suits_trusted : is_ok (Verify ring signed) = true;
  suits_channel : ReleaseChannel (SignedOf signed) = InstChannel i;
  suits_offered : ∀ entry w, entry ∈ Revoked f → ParseVersion entry = Ok w → SameRelease w v = false;
  suits_newer : AllowDowngrade i = false → Precedes installed v = true;
  suits_stable : InstChannel i = "stable" → PreRelease v = "";
  suits_artifact : ArtifactFor ToLower (SignedOf signed) (InstComponent i) (InstOS i) (InstArchitecture i) = Some a;
  suits_path : AllowDowngrade i = false → MinimumFromVersion (SignedOf signed) ≠ "" →
    ∃ w, ParseVersion (MinimumFromVersion (SignedOf signed)) = Ok w ∧ Precedes installed w = false;
  suits_protocol : 0 < PeerProtocolVersion i →
    MinimumProtocolVersion (SignedOf signed) ≤ PeerProtocolVersion i ≤ ProtocolVersion (SignedOf signed);
  suits_schemas : InstConfig i ≤ ConfigVersion (SignedOf signed) ∧ InstState i ≤ StateVersion (SignedOf signed);
  suits_rollout : Cohort (InstMachineID i) v < PercentAt (ReleaseRollout (SignedOf signed)) now * 100;
}.

Lemma IsRevoked_spec f v :
  IsRevoked f v = false ↔ ∀ entry w, entry ∈ Revoked f → ParseVersion entry = Ok w → SameRelease w v = false.
Proof.
  unfold IsRevoked. rewrite <- not_true_iff_false, existsb_exists. split.
  - intros Hn entry w Hin Hp. apply not_true_iff_false. intros Hs. apply Hn. exists entry. rewrite Hp. split; [|done].
    by apply list_elem_of_In.
  - intros H (entry & Hin%list_elem_of_In & Hs). destruct (ParseVersion entry) as [w|] eqn:Hp; [|done]. by rewrite (H entry w) in Hs.
Qed.

(** An evaluation says of its release what the release says. *)
Lemma evaluate_fields f signed i installed ring now :
  let e := evaluateRelease f signed i installed ring now in
  EvVersion e = ReleaseVersion (SignedOf signed) ∧ EvMandatory e = Mandatory (SignedOf signed) ∧ EvRelease e = SignedOf signed.
Proof. unfold evaluateRelease. cbv zeta. by repeat case_match. Qed.

Lemma applicable_suits f signed i installed ring now :
  let e := evaluateRelease f signed i installed ring now in
  Applicable e = true → ∃ v a, suits f i installed ring now signed v a ∧ EvArtifact e = Some a.
Proof.
  cbv zeta. unfold evaluateRelease. destruct (ParseVersion _) as [v|] eqn:Hv; [|done]. destruct (Verify ring signed) as [ids|] eqn:Hver; [|done].
  destruct (negb (bool_decide _)) eqn:Hch; [done|]. destruct (IsRevoked f v) eqn:Hrev; [done|].
  destruct (negb (AllowDowngrade i) && _) eqn:Hnew; [done|]. destruct (negb (Stable v) && _) eqn:Hst; [done|].
  destruct (ArtifactFor _ _ _ _ _) as [a|] eqn:Ha; [|by destruct (negb (hasComponent _ _))]. cbv zeta.
  destruct (if negb _ && _ then _ else Ok tt) as [u|] eqn:Hpath; [|done]. destruct ((0 <? PeerProtocolVersion i) && _) eqn:Hpr; [done|].
  destruct (ConfigVersion _ <? _) eqn:Hcf; [done|]. destruct (StateVersion _ <? _) eqn:Hsv; [done|].
  destruct (negb (Eligible _)) eqn:Hel; [done|]. intros _. exists v, a. split; [|done]. to_prop. split; try done.
  - by rewrite Hver.
  - by apply IsRevoked_spec.
  - intros Hd. rewrite Hd in Hnew. by apply negb_false_iff in Hnew.
  - intros Hs. rewrite Hs in Hst. rewrite bool_decide_true, andb_true_r in Hst by done. apply negb_false_iff in Hst. by apply bool_decide_eq_true in Hst.
  - intros Hd Hm. rewrite Hd, bool_decide_false in Hpath by done. cbn in Hpath. destruct (ParseVersion (MinimumFromVersion _)) as [w|]; [|done].
    exists w. split; [done|]. inv_ok. by to_prop.
  - intros Hp. rewrite (proj2 (Z.ltb_lt _ _) Hp) in Hpr. cbn in Hpr. to_prop. lia.
  - by apply Z.ltb_lt.
Qed.

Lemma suits_applicable f signed i installed ring now v a :
  suits f i installed ring now signed v a →
  let e := evaluateRelease f signed i installed ring now in Applicable e = true ∧ EvArtifact e = Some a.
Proof.
  intros [Hv Hver Hch Hoff Hnew Hst Ha Hpath Hpr [Hcf Hsv] Hel]. cbv zeta. unfold evaluateRelease. rewrite Hv.
  destruct (Verify ring signed) as [ids|]; [|done]. rewrite Hch, bool_decide_true by done. apply IsRevoked_spec in Hoff. rewrite Hoff. cbn [negb].
  assert (negb (AllowDowngrade i) && negb (Precedes installed v) = false) as ->.
  { destruct (AllowDowngrade i); [done|]. by rewrite Hnew. }
  assert (negb (Stable v) && bool_decide (InstChannel i = "stable") = false) as ->.
  { apply andb_false_iff. destruct (decide (InstChannel i = "stable")) as [E|E]; [left|right; by apply bool_decide_eq_false].
    unfold Stable. rewrite bool_decide_true; [done|by apply Hst]. }
  rewrite Ha. cbv zeta. match goal with |- context [match (if ?b then ?x else Ok tt) with _ => _ end] =>
    assert (is_ok (if b then x else Ok tt) = true) as Hok end.
  { destruct (decide (MinimumFromVersion (SignedOf signed) = "")) as [E|E]; [by rewrite bool_decide_true|]. rewrite bool_decide_false by done.
    destruct (AllowDowngrade i); [done|]. destruct (Hpath eq_refl E) as (w & -> & Hw). by rewrite Hw. }
  destruct (if negb _ && _ then _ else Ok tt); [|done].
  assert ((0 <? PeerProtocolVersion i) && ((PeerProtocolVersion i <? MinimumProtocolVersion (SignedOf signed)) ||
     (ProtocolVersion (SignedOf signed) <? PeerProtocolVersion i)) = false) as ->.
  { destruct (Z.ltb_spec 0 (PeerProtocolVersion i)) as [Hp|]; [|done]. specialize (Hpr Hp). apply orb_false_iff. rewrite !Z.ltb_ge. lia. }
  rewrite (proj2 (Z.ltb_ge _ _) Hcf), (proj2 (Z.ltb_ge _ _) Hsv). cbn [Eligible Rollout_Status].
  change (cohortBuckets /' 100) with 100. by rewrite (proj2 (Z.ltb_lt _ _) Hel).
Qed.

(** ** The sort *)

Lemma sink_perm x l : sink x l ≡ₚ x :: l.
Proof. induction l as [|y l IH]; [done|]. cbn. destruct (older y x); [|done]. rewrite IH. constructor. Qed.

Lemma sorted_perm l : sortEvaluationsNewestFirst l ≡ₚ l.
Proof.
  unfold sortEvaluationsNewestFirst. rewrite <- Permutation_rev.
  enough (∀ acc, foldl (λ before x, sink x before) acc l ≡ₚ l ++ acc) as H by (rewrite H; by rewrite app_nil_r).
  induction l as [|x l IH]; intros acc; [done|]. cbn. rewrite IH, sink_perm. by rewrite Permutation_middle.
Qed.

(** Everything parses, as in a feed that was validated. *)
Definition legible (e : Evaluation) : Prop := is_ok (ParseVersion (EvVersion e)) = true.

Definition not_older (a b : Evaluation) : Prop := older a b = false.

Lemma older_trans a b c : legible a → legible b → legible c → not_older a b → not_older b c → not_older a c.
Proof.
  unfold legible, not_older, older. destruct (ParseVersion (EvVersion a)) as [va|]; [|done].
  destruct (ParseVersion (EvVersion b)) as [vb|]; [|done]. destruct (ParseVersion (EvVersion c)) as [vc|]; [|done]. intros _ _ _.
  unfold Precedes. rewrite !Z.ltb_ge. pose proof (ordering_flip _ version_ordering) as Hf. intros H1 H2.
  pose proof (ordering_trans _ version_ordering vc vb va) as Ht. rewrite (Hf vb vc), (Hf va vb), (Hf va vc) in Ht. lia.
Qed.

Lemma older_asym a b : older a b = true → not_older b a.
Proof.
  unfold not_older, older. destruct (ParseVersion (EvVersion a)) as [va|]; [|done]. destruct (ParseVersion (EvVersion b)) as [vb|]; [|done].
  unfold Precedes. rewrite Z.ltb_lt, Z.ltb_ge, (ordering_flip _ version_ordering va vb). lia.
Qed.

Lemma sink_sorted x l :
  Forall legible (x :: l) → StronglySorted (λ y z, not_older z y) l → StronglySorted (λ y z, not_older z y) (sink x l).
Proof.
  induction l as [|y l IH]; intros Hl Hs; [by repeat constructor|]. cbn. apply Forall_cons in Hl as [Hx [Hy Hl]%Forall_cons].
  apply StronglySorted_inv in Hs as [Hs Hys]. destruct (older y x) eqn:Ho.
  - constructor; [apply IH; [by constructor|done]|]. rewrite sink_perm. constructor; [by apply older_asym|done].
  - constructor; [by constructor|]. constructor; [done|]. rewrite Forall_forall in Hys, Hl |- *. intros z Hz.
    eapply (older_trans z y x); eauto.
Qed.

Lemma StronglySorted_rev {A} (R : A → A → Prop) l : StronglySorted (λ y z, R z y) l → StronglySorted R (rev l).
Proof.
  assert (∀ l x, StronglySorted R l → Forall (λ z, R z x) l → StronglySorted R (l ++ [x])) as Hsnoc.
  { intros l0 x. induction l0 as [|z l0 IH]; intros Hs Hf; [by repeat constructor|]. apply StronglySorted_inv in Hs as [Hs Hz].
    apply Forall_cons in Hf as [Hzx Hf]. constructor; [by apply IH|]. apply Forall_app. by split; [|constructor]. }
  induction l as [|x l IH]; intros Hs; [constructor|]. apply StronglySorted_inv in Hs as [Hs Hx]. cbn. apply Hsnoc; [by apply IH|].
  rewrite <- Permutation_rev. exact Hx.
Qed.

Lemma sort_sorted l : Forall legible l → StronglySorted not_older (sortEvaluationsNewestFirst l).
Proof.
  intros Hl. apply StronglySorted_rev. enough (∀ acc, Forall legible acc → StronglySorted (λ y z, not_older z y) acc →
    StronglySorted (λ y z, not_older z y) (foldl (λ before x, sink x before) acc l)) as H by (apply H; constructor).
  induction Hl as [|x l Hx _ IH]; intros acc Ha Hs; [done|]. apply IH; [rewrite sink_perm; by constructor|].
  apply sink_sorted; [by constructor|done].
Qed.

Lemma head_filter_first {A} (R : A → A → Prop) (P : A → Prop) `{!∀ x, Decision (P x)} l e :
  StronglySorted R l → head (filter P l) = Some e → e ∈ l ∧ P e ∧ ∀ e', e' ∈ l → P e' → e' = e ∨ R e e'.
Proof.
  induction l as [|x l IH]; intros Hs Hh; [done|]. apply StronglySorted_inv in Hs as [Hs Hx]. rewrite filter_cons in Hh. case_decide as HP.
  - injection Hh as ->. split_and!; [left|done|]. intros e' [->|He']%elem_of_cons _; [by left|right]. by eapply Forall_forall in Hx.
  - destruct (IH Hs Hh) as (? & ? & Hall). split_and!; [by right|done|]. intros e' [->|He']%elem_of_cons HP'; [done|auto].
Qed.

Lemma head_filter_none {A} (P : A → Prop) `{!∀ x, Decision (P x)} l e : head (filter P l) = None → e ∈ l → ¬ P e.
Proof.
  induction l as [|x l IH]; intros Hh He; [by apply elem_of_nil in He|]. rewrite filter_cons in Hh. case_decide; [done|].
  apply elem_of_cons in He as [->|He]; auto.
Qed.

(** ** Validated feeds *)

Lemma validated_version r r' : Release_Validate ToLower parse_url r = Ok r' → is_ok (ParseVersion (ReleaseVersion r')) = true.
Proof.
  unfold Release_Validate. cbv zeta. intros H. apply bind_ok in H as (v & Hv & H).
  apply bind_ok in H as (_ & _ & H). apply bind_ok in H as (_ & _ & H). apply bind_ok in H as (r2 & H2 & H).
  assert (ReleaseVersion r2 = Version_String v) as Hr2.
  { destruct (decide _) in H2; [by apply Ok_inj in H2 as <-|]. apply bind_ok in H2 as (w & _ & H2). apply bind_ok in H2 as (_ & _ & H2).
    by apply Ok_inj in H2 as <-. }
  clear H2. do 2 apply bind_ok in H as (_ & _ & H). apply bind_ok in H as (rollout & _ & H).
  do 2 apply bind_ok in H as (_ & _ & H). apply Ok_inj in H as <-. change (is_ok (ParseVersion (ReleaseVersion r2)) = true). rewrite Hr2.
  by rewrite (parse_canonical v (ParseVersion_canonical _ _ Hv)).
Qed.

Lemma check_releases_cons channel s l l' :
  check_releases ToLower parse_url channel (s :: l) = Ok l' →
  ∃ r rest, Release_Validate ToLower parse_url (SignedOf s) = Ok r ∧ check_releases ToLower parse_url channel l = Ok rest ∧
    l' = {| SignedOf := r; Signatures := Signatures s |} :: rest.
Proof.
  cbn [check_releases]. destruct (Release_Validate ToLower parse_url (SignedOf s)) as [r|]; [|done]. rewrite ok_bind.
  intros H. do 2 apply bind_ok in H as (_ & _ & H). apply bind_ok in H as (rest & Hrest & H). apply Ok_inj in H as <-. by exists r, rest.
Qed.

Lemma check_releases_versions channel l l' :
  check_releases ToLower parse_url channel l = Ok l' → Forall (λ s, is_ok (ParseVersion (ReleaseVersion (SignedOf s))) = true) l'.
Proof.
  revert l'. induction l as [|s l IH]; intros l' H; [by apply Ok_inj in H as <-|].
  apply check_releases_cons in H as (r & rest & Hr & Hrest & ->). constructor; [exact (validated_version _ r Hr)|exact (IH rest Hrest)].
Qed.

Definition judged (f : Feed) (i : Installation) (installed : Version) (ring : KeyRing) (now : Z) : list Evaluation :=
  sortEvaluationsNewestFirst ((λ signed, evaluateRelease f signed i installed ring now) <$> Releases f).

Lemma judged_sorted f0 f i installed ring now : Feed_Validate f0 = Ok f → StronglySorted not_older (judged f i installed ring now).
Proof.
  intros H. unfold judged. apply sort_sorted. rewrite Forall_fmap. apply (Forall_impl (λ s, is_ok (ParseVersion (ReleaseVersion (SignedOf s))) = true)).
  - unfold Release.Feed_Validate in H. apply bind_ok in H as (_ & _ & H). apply bind_ok in H as (_ & _ & H).
    apply bind_ok in H as (revoked & _ & H). apply bind_ok in H as (releases & Hr & H). apply Ok_inj in H as <-.
    by eapply check_releases_versions.
  - intros s Hs. unfold legible, compose. by rewrite (proj1 (evaluate_fields _ _ _ _ _ _)).
Qed.

Lemma judged_elem f i installed ring now e :
  e ∈ judged f i installed ring now ↔ ∃ signed, signed ∈ Releases f ∧ e = evaluateRelease f signed i installed ring now.
Proof. unfold judged. rewrite sorted_perm, list_elem_of_fmap. naive_solver. Qed.

(** The newest release that suits and that [M] asks for, if there is any. *)
Definition newest (f : Feed) (i : Installation) (installed : Version) (ring : KeyRing) (now : Z) (M : Release → Prop)
    (chosen : option Evaluation) : Prop :=
  match chosen with
  | Some e => ∃ signed v a, signed ∈ Releases f ∧ M (SignedOf signed) ∧ suits f i installed ring now signed v a ∧
      EvRelease e = SignedOf signed ∧ EvArtifact e = Some a ∧
      ∀ signed' v' a', signed' ∈ Releases f → M (SignedOf signed') → suits f i installed ring now signed' v' a' → Precedes v v' = false
  | None => ∀ signed v a, signed ∈ Releases f → M (SignedOf signed) → ¬ suits f i installed ring now signed v a
  end.

Lemma not_older_versions f s s' i installed ring now v v' :
  ParseVersion (ReleaseVersion (SignedOf s)) = Ok v → ParseVersion (ReleaseVersion (SignedOf s')) = Ok v' →
  not_older (evaluateRelease f s i installed ring now) (evaluateRelease f s' i installed ring now) → Precedes v v' = false.
Proof.
  intros Hv Hv'. unfold not_older, older. rewrite (proj1 (evaluate_fields _ _ _ _ _ _)), (proj1 (evaluate_fields _ _ _ _ _ _)), Hv, Hv'. done.
Qed.

Lemma chosen_newest f0 f i installed ring now (M : Release → Prop) (Q : Evaluation → Prop) `{!∀ e, Decision (Q e)} :
  Feed_Validate f0 = Ok f → (∀ e, e ∈ judged f i installed ring now → Q e ↔ Applicable e = true ∧ M (EvRelease e)) →
  newest f i installed ring now M (head (filter Q (judged f i installed ring now))).
Proof.
  intros Hf HQ. pose proof (judged_sorted f0 f i installed ring now Hf) as Hs.
  destruct (head (filter Q _)) as [e|] eqn:He; unfold newest.
  - destruct (head_filter_first _ _ _ _ Hs He) as (Hin & HQe & Hall). apply (HQ e Hin) in HQe as [Happ HM]. apply judged_elem in Hin as (signed & Hsigned & ->).
    destruct (applicable_suits _ _ _ _ _ _ Happ) as (v & a & Hsuits & Ha). destruct (evaluate_fields f signed i installed ring now) as (_ & _ & Hrel).
    rewrite Hrel in HM. exists signed, v, a. split_and!; try done. intros signed' v' a' Hs' HM' Hsuits'.
    destruct (suits_applicable _ _ _ _ _ _ _ _ Hsuits') as [Happ' _]. destruct (evaluate_fields f signed' i installed ring now) as (_ & _ & Hrel').
    pose proof (suits_version _ _ _ _ _ _ _ _ Hsuits) as Hv. pose proof (suits_version _ _ _ _ _ _ _ _ Hsuits') as Hv'.
    destruct (Hall (evaluateRelease f signed' i installed ring now)) as [Heq|Hno].
    + apply judged_elem. by exists signed'.
    + apply HQ; [apply judged_elem; by exists signed'|]. by rewrite Hrel'.
    + assert (EvRelease (evaluateRelease f signed' i installed ring now) = EvRelease (evaluateRelease f signed i installed ring now)) as He' by by rewrite Heq.
      rewrite Hrel, Hrel' in He'. rewrite He' in Hv'. assert (v' = v) as -> by congruence. apply precedes_irrefl.
    + by eapply not_older_versions.
  - intros signed v a Hsigned HM Hsuits. destruct (suits_applicable _ _ _ _ _ _ _ _ Hsuits) as [Happ _].
    apply (head_filter_none Q _ (evaluateRelease f signed i installed ring now) He); [apply judged_elem; by exists signed|].
    apply HQ; [apply judged_elem; by exists signed|]. by rewrite (proj2 (proj2 (evaluate_fields _ _ _ _ _ _))).
Qed.

(** C28.  The newest release that suits the machine is selected.  For a
    feed and an installation that are accepted, [Select] finds a release of
    the feed that enough trusted keys signed, that is on the machine's channel
    and not withdrawn, newer than what is installed, no pre-release on the
    stable channel, published for the machine's platform, reachable from the
    installed version, able to talk to the control plane and to read the
    configuration and the state on disk, and open to this machine; no other
    such release of the feed is newer.  It finds nothing only if there is no
    such release, and [SelectMandatory] does the same among the mandatory
    ones. *)
Theorem release_selected (f : Feed) (i : Installation) (ring : KeyRing) (now : Z) (evaluations : list Evaluation) :
  Evaluate f i ring now = Ok evaluations →
  ∃ f' i' installed, Feed_Validate f = Ok f' ∧ Installation_Validate i = Ok i' ∧ ParseVersion (InstVersion i') = Ok installed ∧
    newest f' i' installed ring now (λ _, True) (Select evaluations) ∧
    newest f' i' installed ring now (λ r, Mandatory r = true) (SelectMandatory evaluations).
Proof.
  unfold Evaluate. intros H. apply bind_ok in H as (f' & Hf & H). apply bind_ok in H as (i' & Hi & H).
  apply bind_ok in H as (installed & Hv & H). apply Ok_inj in H as <-. exists f', i', installed. split_and!; [done..| |].
  - eapply chosen_newest; [exact Hf|]. naive_solver.
  - eapply chosen_newest; [exact Hf|]. intros e (signed & _ & ->)%judged_elem.
    by destruct (evaluate_fields f' signed i' installed ring now) as (_ & -> & ->).
Qed.
End update.

(** ** A machine and a feed *)

#[local] Existing Instance toy_crypto.

Definition demo_installation : Installation :=
  {| InstComponent := "agent"; InstVersion := "1.1.0"; InstChannel := "stable"; InstOS := "linux"; InstArchitecture := "amd64";
     InstMachineID := "m"; InstProtocol := 1; InstConfig := 1; InstState := 1; PeerProtocolVersion := 2; AllowDowngrade := false |}.
Definition demo_url (_ : string) : result artifact_url := Ok {| UScheme := "https"; UHost := "u"; UPath := "/agent" |}.

(** An installed, an old, a withdrawn, a newer and a badly signed release. *)
Definition demo_feed : Feed :=
  {| FeedVersion := 1; FeedChannel := "stable";
     Releases := [demo_signed "1.1.0"; demo_signed "v1.2.0"; demo_signed "1.0.9"; demo_signed "1.10.0"; demo_signed "1.11.0";
                  {| SignedOf := demo_release "2.0.0"; Signatures := [demo_signature "k1"] |}];
     Revoked := ["1.11.0"] |}.

#[local] Abbreviation demo_evaluate ring :=
  (Evaluate (λ s, s) demo_url (λ _, []) demo_verifies String.eqb demo_feed demo_installation ring (5 * second)).

Definition demo_usable : KeyRing := match demo_ring with Ok ring => ring | Err _ => {| ring_keys := ∅; threshold := 0 |} end.
Definition demo_judged : list Evaluation := match demo_evaluate demo_usable with Ok evaluations => evaluations | Err _ => [] end.

Lemma release_selected_witness :
  EvVersion <$> Select demo_judged = Some "1.10.0" ∧
  ∃ f i installed, newest (λ s, s) (λ _, []) demo_verifies String.eqb f i installed demo_usable (5 * second) (λ _, True) (Select demo_judged).
Proof.
  split; [vm_compute; reflexivity|]. assert (demo_evaluate demo_usable = Ok demo_judged) as He.
  { unfold demo_judged. destruct (demo_evaluate demo_usable) as [l|err] eqn:E; [reflexivity|].
    assert (is_ok (demo_evaluate demo_usable) = true) as Hok by (vm_compute; reflexivity). rewrite E in Hok. discriminate Hok. }
  destruct (release_selected (λ s, s) demo_url (λ _, []) demo_verifies String.eqb demo_feed demo_installation demo_usable (5 * second) demo_judged He)
    as (f & i & installed & _ & _ & _ & H & _). exists f, i, installed. exact H.
Defined.
