(* ===== verification/Installer.v ===== *)
(** * Installing a binary ([internal/update/installer.go])

    One artifact is fetched, checked against its digests, asked for its
    version and swapped in, and the replaced binary is preserved.  Every file
    operation is one action that may fail; a copy that fails leaves anything
    at its target.  A symbolic link at the executable is resolved before, so
    that [executable] is the file itself. *)
From Stdlib Require Import Ascii.
From S2P Require Import Prelude GoStr Prog Conc Crypto Version Release Update.

Local Open Scope string_scope.
Local Open Scope list_scope.
Local Open Scope Z_scope.

(** ** Data *)

(** [Backup], without its path, which is the directory it was found in. *)
Record Backup := { BackupID : string; BackupVersion : string; SavedAt : Z; BackupSHA256 : string }.
Record backup_dir := { metadata : option Backup; preserved : option bytes }.
#[export] Instance backup_dir_eta : Eta backup_dir := fun d => Build_backup_dir (metadata d) (preserved d).

(** [Installed]. *)
Record Installed := {
  InstalledVersion : string;
  PreviousVersion : string;
  InstalledAt : Z;
  BackupOf : string;
  InstalledSHA256 : string;
  CleanupWarning : string;
}.
#[export] Instance Installed_eta : Eta Installed := fun i =>
  Build_Installed (InstalledVersion i) (PreviousVersion i) (InstalledAt i) (BackupOf i) (InstalledSHA256 i) (CleanupWarning i).

(** The files the installer works on; [download] and [binary] are those of
    the staging directory.  [tested] is a history variable: the binaries that
    were asked for their version, and what they said. *)
Record files := {
  executable : option bytes;
  pending : option bytes;
  download : option bytes;
  binary : option bytes;
  backups : gmap string backup_dir;
  tested : list (bytes * result Version);
}.
#[export] Instance files_eta : Eta files := fun s =>
  Build_files (executable s) (pending s) (download s) (binary s) (backups s) (tested s).

(** How a fetch ends. *)
Inductive delivery := Delivered | Interrupted (err : string) | Refused_release (err : string).

(** What the machine answers to one action. *)
Record disk_env := {
  works : bool;
  leaves : option bytes;
  replaced : bool;
  clock : Z;
  ready : bool;
  reported : result Version;
  fetched : bytes;
  delivered : delivery;
  readable : string → bool;
}.

(** The typed failures of [Install]. *)
Inductive install_error :=
| ErrNotReady (err : string)
| ErrBadRelease (err : string)
| ErrTransient (err : string)
| ErrOther (err : string).

Definition defaultKeptBackups : nat := 3.

(** Newest first. *)
Definition saved_later (a b : string * Backup) : Prop := SavedAt b.2 ≤ SavedAt a.2.
#[export] Instance saved_later_dec : RelDecision saved_later.
Proof. intros a b. unfold saved_later. apply _. Defined.

Section installer.
Context `{HC : !Crypto}.
Context (parse_url : string → result artifact_url) (gunzip : bytes → result bytes) (stamp : Z → string)
        (component : string) (keepBackups : nat).

#[local] Abbreviation act := (thread files disk_env).

(** ** File operations *)

(** A call that does [f] or fails. *)
Definition attempt (err : string) (f : files → files) : act (result unit) :=
  atomic (λ e s, if works e then (f s, Ok tt) else (s, Err err)).

Definition digest_of (b : bytes) : string := hex (sha256 b).

(** [fileDigest]. *)
Definition fileDigest (file : files → option bytes) : act (result string) :=
  atomic (λ e s, (s, match file s with
                     | Some b => if works e then Ok (digest_of b) else Err "read"
                     | None => Err "open"
                     end)).

(** [copyFile]: a failed copy may leave anything at the target. *)
Definition copyFile (source : files → option bytes) (write : bytes → files → files) : act (result unit) :=
  atomic (λ e s,
    match source s with
    | None => (s, Err "open")
    | Some b => if works e then (write b s, Ok tt)
                else (match leaves e with Some x => write x s | None => s end, Err "copy")
    end).

(** [installer.gate.Ready]. *)
Definition Ready : act bool := atomic (λ e s, (s, ready e)).

(** [installer.selfTest]: the binary is run and says its version. *)
Definition selfTest (file : files → option bytes) : act (result Version) :=
  atomic (λ e s, (match file s with Some b => s <| tested := tested s ++ [(b, reported e)] |> | None => s end,
                  match file s with Some _ => reported e | None => Err "run" end)).

(** ** Staging *)

(** [decompressGzip]. *)
Definition decompressGzip : act (result unit) :=
  atomic (λ e s,
    match match download s with Some b => gunzip b | None => Err "open compressed artifact" end with
    | Err err => (match leaves e with Some x => s <| binary := Some x |> | None => s end, Err err)
    | Ok b => if works e then (s <| binary := Some b |>, Ok tt)
              else (match leaves e with Some x => s <| binary := Some x |> | None => s end, Err "decompress artifact")
    end).

(** The end of [Installer.stage]: the executable is checked and marked. *)
Definition stage_binary (a : Artifact) (placed : act (install_error + unit)) : act (install_error + unit) :=
  placed ← placed;
  match placed with
  | inl err => mret (inl err)
  | inr _ =>
      digest ← fileDigest binary;
      match digest with
      | Err err => mret (inl (ErrTransient err))
      | Ok digest =>
          if negb (bool_decide (digest = BinarySHA256 a)) then
            mret (inl (ErrBadRelease "staged executable digest does not match the signed one"))
          else
            marked ← attempt "mark staged binary executable" (λ s, s);
            mret (match marked with Err err => inl (ErrTransient err) | Ok _ => inr tt end)
      end
  end.

(** [Installer.stage]. *)
Definition stage (a : Artifact) : act (install_error + unit) :=
  created ← attempt "create download file" (λ s, s <| download := Some [] |>);
  match created with
  | Err err => mret (inl (ErrTransient err))
  | Ok _ =>
      got ← atomic (λ e s, (s <| download := Some (fetched e) |>, (fetched e, delivered e)));
      synced ← attempt "sync download" (λ s, s);
      closed ← attempt "close download" (λ s, s);
      match got.2, synced, closed with
      | Interrupted err, _, _ => mret (inl (ErrTransient err))
      | Refused_release err, _, _ => mret (inl (ErrBadRelease err))
      | Delivered, Err err, _ => mret (inl (ErrTransient err))
      | Delivered, _, Err err => mret (inl (ErrTransient err))
      | Delivered, Ok _, Ok _ =>
          if negb (bool_decide (digest_of got.1 = SHA256 a)) then
            mret (inl (ErrBadRelease "downloaded artifact digest does not match the signed one"))
          else if decide (ArtifactFormat a = "binary") then
            stage_binary a (
              renamed ← attempt "stage binary" (λ s, s <| binary := download s |> <| download := None |>);
              mret (match renamed with Err err => inl (ErrTransient err) | Ok _ => inr tt end))
          else if decide (ArtifactFormat a = "gzip") then
            stage_binary a (
              unpacked ← decompressGzip;
              mret (match unpacked with Err err => inl (ErrBadRelease err) | Ok _ => inr tt end))
          else mret (inl (ErrBadRelease "unsupported artifact format"))
      end
  end.

(** ** Swapping *)

Definition in_backup (id : string) (f : backup_dir → backup_dir) (s : files) : files :=
  s <| backups := <[id := f (default {| metadata := None; preserved := None |} (backups s !! id))]> (backups s) |>.
Definition preserved_at (id : string) (s : files) : option bytes := d ← backups s !! id; preserved d.

(** [Installer.backupCurrent]; [None] when there is nothing to preserve. *)
Definition backupCurrent (currentVersion : string) : act (result (option Backup)) :=
  inspected ← atomic (λ e s, (s, if works e then Ok (bool_decide (executable s = None)) else Err "inspect current executable"));
  match inspected with
  | Err err => mret (Err err)
  | Ok true => mret (Ok None)
  | Ok false =>
      digest ← fileDigest executable;
      match digest with
      | Err err => mret (Err err)
      | Ok digest =>
          savedAt ← atomic (λ e s, (s, clock e));
          let trimmed := TrimSpace currentVersion in
          let version := if decide (trimmed = "") then "unknown" else trimmed in
          let identifier := stamp savedAt +:+ "-" +:+ String.substring 0 12 digest in
          made ← attempt "create backup directory" (in_backup identifier (λ d, d));
          match made with
          | Err err => mret (Err err)
          | Ok _ =>
              copied ← copyFile executable (λ b, in_backup identifier (λ d, d <| preserved := Some b |>));
              match copied with
              | Err err => mret (Err err)
              | Ok _ =>
                  let backup := {| BackupID := identifier; BackupVersion := version; SavedAt := savedAt; BackupSHA256 := digest |} in
                  wrote ← atomic (λ e s,
                    (if works e || replaced e then in_backup identifier (λ d, d <| metadata := Some backup |>) s else s,
                     if works e then Ok tt else Err "commit backup.json"));
                  mret (match wrote with Err err => Err err | Ok _ => Ok (Some backup) end)
              end
          end
      end
  end.

(** [Installer.swap]. *)
Definition swap (staged : files → option bytes) : act (result unit) :=
  placed ← copyFile staged (λ b s, s <| pending := Some b |>);
  match placed with
  | Err err => mret (Err err)
  | Ok _ =>
      renamed ← attempt "commit staged binary" (λ s, s <| executable := pending s |> <| pending := None |>);
      match renamed with
      | Err err => _ ← attempt "remove" (λ s, s <| pending := None |>); mret (Err err)
      | Ok _ => attempt "sync" (λ s, s)
      end
  end.

(** [Installer.Backups]: the directory of each backup, and its metadata. *)
Definition Backups : act (result (list (string * Backup))) :=
  atomic (λ e s, (s,
    if negb (works e) then Err "read backup directory"
    else Ok (merge_sort saved_later (omap (λ '(entry, d),
               match metadata d, preserved d with
               | Some b, Some _ => if readable e entry then Some (entry, b) else None
               | _, _ => None
               end) (merge_sort (λ a b, Is_true (String.leb a.1 b.1)) (map_to_list (backups s))))))).

Fixpoint remove_backups (found : list (string * Backup)) : act (result unit) :=
  match found with
  | [] => mret (Ok tt)
  | (_, b) :: rest =>
      removed ← attempt "prune backup" (λ s, s <| backups := delete (BackupID b) (backups s) |>);
      match removed with
      | Err err => mret (Err err)
      | Ok _ => remove_backups rest
      end
  end.

(** [Installer.pruneBackups]. *)
Definition pruneBackups : act (result unit) :=
  found ← Backups;
  match found with
  | Err err => mret (Err err)
  | Ok found => remove_backups (drop keepBackups found)
  end.

(** ** Installing *)

(** [Installer.Install] once the staged binary has passed its test. *)
Definition commit_staged (expected : Version) (a : Artifact) (currentVersion : string) : act (install_error + Installed) :=
  again ← Ready;
  if negb again then mret (inl (ErrNotReady "busy"))
  else
    backup ← backupCurrent currentVersion;
    match backup with
    | Err err => mret (inl (ErrTransient err))
    | Ok backup =>
        swapped ← swap binary;
        match swapped with
        | Err err => mret (inl (ErrTransient err))
        | Ok _ =>
            now ← atomic (λ e s, (s, clock e));
            pruned ← pruneBackups;
            mret (inr {| InstalledVersion := Version_String expected; PreviousVersion := TrimSpace currentVersion; InstalledAt := now;
                         BackupOf := match backup with Some b => BackupID b | None => "" end; InstalledSHA256 := BinarySHA256 a;
                         CleanupWarning := match pruned with Err err => "backup pruning failed after the swap: " +:+ err | Ok _ => "" end |})
        end
    end.

(** [os.MkdirTemp] and the removal of the staging directory. *)
Definition in_staging {A} (body : act (install_error + A)) : act (install_error + A) :=
  made ← attempt "create staging directory" (λ s, s <| download := None |> <| binary := None |>);
  match made with
  | Err err => mret (inl (ErrTransient err))
  | Ok _ =>
      r ← body;
      _ ← attempt "remove staging directory" (λ s, s <| download := None |> <| binary := None |>);
      mret r
  end.

(** [Installer.Install]. *)
Definition Install (r : Release) (a : Artifact) (currentVersion : string) : act (install_error + Installed) :=
  match ParseVersion (ReleaseVersion r) with
  | Err err => mret (inl (ErrBadRelease err))
  | Ok expected =>
      if negb (bool_decide (ArtifactComponent a = component)) then mret (inl (ErrBadRelease "artifact is for another component"))
      else
        match Artifact_Validate parse_url a with
        | Err err => mret (inl (ErrBadRelease err))
        | Ok _ =>
            first ← Ready;
            if negb first then mret (inl (ErrNotReady "busy"))
            else
              in_staging (
                staged ← stage a;
                match staged with
                | inl err => mret (inl err)
                | inr _ =>
                    said ← selfTest binary;
                    match said with
                    | Err err => mret (inl (ErrBadRelease err))
                    | Ok said =>
                        if negb (SameRelease said expected) then mret (inl (ErrBadRelease "staged binary reports another version"))
                        else commit_staged expected a currentVersion
                    end
                end)
        end
  end.

(** [Installer.Rollback] of the backup found at [entry]. *)
Definition Installer_Rollback (entry : string) (b : Backup) (currentVersion : string) : act (install_error + Installed) :=
  digest ← fileDigest (preserved_at entry);
  match digest with
  | Err err => mret (inl (ErrOther err))
  | Ok digest =>
      if negb (bool_decide (digest = BackupSHA256 b)) then
        mret (inl (ErrOther "preserved binary digest does not match the recorded one"))
      else
        free ← Ready;
        if negb free then mret (inl (ErrNotReady "busy"))
        else
          said ← selfTest (preserved_at entry);
          match said with
          | Err err => mret (inl (ErrOther err))
          | Ok said =>
              if match ParseVersion (BackupVersion b) with
                 | Ok recorded => negb (bool_decide (BackupVersion b = "unknown")) && negb (SameRelease recorded said)
                 | Err _ => false
                 end then mret (inl (ErrOther "preserved binary reports another version"))
              else
                saved ← backupCurrent currentVersion;
                match saved with
                | Err err => mret (inl (ErrOther err))
                | Ok _ =>
                    swapped ← swap (preserved_at entry);
                    match swapped with
                    | Err err => mret (inl (ErrOther err))
                    | Ok _ =>
                        now ← atomic (λ e s, (s, clock e));
                        mret (inr {| InstalledVersion := Version_String said; PreviousVersion := TrimSpace currentVersion;
                                     InstalledAt := now; BackupOf := BackupID b; InstalledSHA256 := digest; CleanupWarning := "" |})
                    end
                end
          end
  end.
End installer.
