(* ===== verification/InstallerSafe.v ===== *)
(** * A binary is swapped in whole, checked and reversibly

    Whatever fails and wherever the agent dies during an installation, the
    executable is the one that was there, or one with the signed digest that
    reported the version of the release, and then the old one is preserved. *)
From Stdlib Require Import Ascii.
From S2P Require Import Prelude GoStr Prog Conc Crypto Version Release Update Installer.

Local Open Scope string_scope.
Local Open Scope list_scope.
Local Open Scope Z_scope.

(** ** Listing backups *)

(** Sorting the backups does not repeat a directory. *)
Lemma omap_fst_nodup {A B} (f : string * A → option (string * B)) l :
  (∀ x y, f x = Some y → y.1 = x.1) → NoDup l.*1 → NoDup (omap f l).*1.
Proof.
  intros Hf. induction l as [|x l IH]; [done|]. cbn. intros [Hx Hl]%NoDup_cons. destruct (f x) as [y|] eqn:Hy; [|by apply IH].
  cbn. apply NoDup_cons. split; [|by apply IH]. rewrite (Hf x y Hy). contradict Hx. apply list_elem_of_fmap in Hx as (z & Hz & Hin).
  apply list_elem_of_omap in Hin as (w & Hw & Hwz). apply list_elem_of_fmap. exists w. by rewrite Hz, (Hf w z Hwz).
Qed.

Lemma listed_spec s e (entries := map_to_list (backups s)) found :
  found = merge_sort saved_later (omap (λ '(entry, d),
               match metadata d, preserved d with
               | Some b, Some _ => if readable e entry then Some (entry, b) else None
               | _, _ => None
               end) (merge_sort (λ a b, Is_true (String.leb a.1 b.1)) entries)) →
  NoDup found.*1 ∧ Sorted.StronglySorted saved_later found ∧
  ∀ x, x ∈ found → ∃ d, backups s !! x.1 = Some d ∧ metadata d = Some x.2.
Proof.
  intros ->. split_and!.
  - rewrite merge_sort_Permutation. apply omap_fst_nodup.
    + intros [i d] [j m]. repeat case_match; try done. by intros [= <- _].
    + rewrite merge_sort_Permutation. apply NoDup_fst_map_to_list.
  - apply StronglySorted_merge_sort; [intros x y z; unfold saved_later; lia|intros x y; unfold saved_later; lia].
  - intros [i m]. rewrite merge_sort_Permutation, list_elem_of_omap. intros ([j d] & Hin & Hd).
    rewrite merge_sort_Permutation in Hin. apply elem_of_map_to_list in Hin. exists d. cbn. repeat case_match; try done.
    by injection Hd as <- <-.
Qed.

Section installer.
Context `{HC : !Crypto}.
Context (parse_url : string → result artifact_url) (gunzip : bytes → result bytes) (stamp : Z → string)
        (component : string) (keepBackups : nat).
Context (okE : disk_env → Prop).

#[local] Abbreviation triple_ P t Q C := (triple okE P (alone t) Q C).

(** ** Actions *)

Lemma try_spec err f (P Q C : files → Prop) :
  (∀ s, P s → C s) → (∀ s, P s → Q (f s)) →
  triple_ P (attempt err f) (λ r s, match r with Ok _ => Q s | Err _ => P s end) C.
Proof. intros HC' HQ. apply alone_atomic; [done|]. intros e s _ Hs. destruct (works e); cbn; auto. Qed.

Lemma try_same err f (F : files → Prop) :
  (∀ s, F s → F (f s)) → triple_ F (attempt err f) (λ _, F) F.
Proof. intros H. eapply triple_post; [|by apply (try_spec err f F F F)]. by intros [] s ?. Qed.

Lemma digest_spec file (F : files → Prop) :
  triple_ F (fileDigest file) (λ r s, F s ∧ ∀ d, r = Ok d → ∃ b, file s = Some b ∧ d = digest_of b) F.
Proof.
  apply alone_atomic; [done|]. intros e s _ Hs. cbn. split; [done|]. intros d. destruct (file s) as [b|]; [|done].
  destruct (works e); [|done]. intros [= <-]. by exists b.
Qed.

Lemma ready_spec (F : files → Prop) : triple_ F Ready (λ _, F) F.
Proof. by apply alone_atomic. Qed.

Lemma triple_exists {A X} (p : prog files disk_env A) (P : X → files → Prop) Q C :
  (∀ x, triple okE (P x) p Q C) → triple okE (λ s, ∃ x, P x s) p Q C.
Proof. intros H s es Hes [x Hx]. by apply (H x). Qed.

(** ** Staging *)

(** What does not depend on the staging directory. *)
Definition apart (F : files → Prop) : Prop :=
  (∀ s x, F s → F (s <| download := x |>)) ∧ ∀ s x, F s → F (s <| binary := x |>).

Definition staged_ok (a : Artifact) (s : files) : Prop := ∃ b, binary s = Some b ∧ digest_of b = BinarySHA256 a.

Lemma fail_spec {A} err (P F : files → Prop) (Q : A → files → Prop) :
  (∀ s, P s → F s) → triple_ P (mret (inl err)) (λ (r : install_error + A) s, F s ∧ ∀ x, r = inr x → Q x s) F.
Proof. intros H. apply alone_ret. intros s Hs. split; [by apply H|done]. Qed.

Lemma stage_binary_spec F a (placed : thread files disk_env (install_error + unit)) :
  triple_ F placed (λ _, F) F →
  triple_ F (stage_binary a placed) (λ r s, F s ∧ ∀ x, r = inr x → staged_ok a s) F.
Proof.
  intros Hp. eapply alone_bind; [exact Hp|]. intros [err|[]]; [by apply (fail_spec err F F (λ _, staged_ok a))|].
  eapply alone_bind; [apply digest_spec|]. intros [digest|err]; cbv beta; [|by apply (fail_spec _ _ F (λ _, staged_ok a)); intros s [? _]].
  destruct (negb _) eqn:Hd; [by apply (fail_spec _ _ F (λ _, staged_ok a)); intros s [? _]|]. to_prop.
  apply (triple_pre _ _ (λ s, F s ∧ staged_ok a s)).
  { intros s [? Hb]. split; [done|]. destruct (Hb digest eq_refl) as (b & ? & ->). by exists b. }
  eapply alone_bind; [apply (try_spec _ _ _ (λ s, F s ∧ staged_ok a s)); [by intros s [? _]|done]|]. intros marked.
  apply alone_ret. intros s Hs. destruct marked; [|split; [by destruct Hs|done]]. destruct Hs. by split.
Qed.

Lemma stage_spec F a :
  apart F → triple_ F (stage gunzip a) (λ r s, F s ∧ ∀ x, r = inr x → staged_ok a s) F.
Proof.
  intros [Hdl Hbin]. assert (∀ err, triple_ F (mret (inl err)) (λ (r : install_error + unit) s, F s ∧ ∀ x, r = inr x → staged_ok a s) F) as Hfail.
  { intros err. by apply (fail_spec err F F (λ _, staged_ok a)). }
  unfold stage. eapply alone_bind; [apply try_same; auto|]. intros [?|]; [|apply Hfail].
  eapply (alone_bind _ _ _ _ (λ _, F)); [apply alone_atomic; [done|]; intros e s _ Hs; by apply Hdl|]. intros [got how].
  eapply alone_bind; [by apply try_same|]. intros synced. eapply alone_bind; [by apply try_same|]. intros closed. cbn [fst snd].
  destruct how; [|apply Hfail..]. destruct synced; [|apply Hfail]. destruct closed; [|apply Hfail].
  destruct (negb _); [apply Hfail|]. case_decide; [|case_decide; [|apply Hfail]]; apply stage_binary_spec.
  - eapply alone_report, try_same. intros s Hs. by apply Hdl, Hbin.
  - eapply alone_report, alone_atomic; [done|]. intros e s _ Hs. repeat case_match; try done; by apply Hbin.
Qed.

(** ** Digests *)

(** Every binary in place and every backup on record has a digest of [D]. *)
Definition sound (D : string → Prop) (s : files) : Prop :=
  (∀ b, executable s = Some b → D (digest_of b)) ∧
  ∀ id d m, backups s !! id = Some d → metadata d = Some m → D (BackupSHA256 m).

Lemma sound_backup D id f s :
  sound D s → (∀ d m, metadata (f d) = Some m → metadata d = Some m ∨ D (BackupSHA256 m)) → sound D (in_backup id f s).
Proof.
  intros [He Hb] Hf. split; [done|]. intros id' d m. cbn. intros [[<- <-]|[_ Hd]]%lookup_insert_Some Hm; [|by eapply Hb].
  destruct (Hf _ _ Hm) as [Hm'|?]; [|done]. destruct (backups s !! id) as [d|] eqn:Hd; [|done]. by eapply Hb.
Qed.

(** What a backup does not touch: [entry], unless it is the backup itself. *)
Definition fits (D : string → Prop) (entry : option string) (s : files) : Prop :=
  ∀ i b, entry = Some i → preserved_at i s = Some b → D (digest_of b).

Lemma preserved_other id entry f s :
  id ≠ entry ∨ (∀ d, preserved (f d) = preserved d) → preserved_at entry (in_backup id f s) = preserved_at entry s.
Proof.
  unfold preserved_at, in_backup. cbn. intros H. destruct (decide (id = entry)) as [->|Hne]; [|by rewrite lookup_insert_ne].
  destruct H as [?|H]; [done|]. rewrite lookup_insert_eq. cbn. rewrite H. by destruct (backups s !! entry).
Qed.

Lemma backupCurrent_spec D entry v :
  triple_ (λ s, sound D s ∧ fits D entry s) (backupCurrent stamp v) (λ r s, sound D s ∧ (is_ok r = true → fits D entry s)) (sound D).
Proof.
  set (F := λ s, sound D s ∧ fits D entry s).
  assert (∀ err (P : files → Prop), (∀ s, P s → sound D s) → triple_ P (mret (Err err : result (option Backup)))
    (λ r s, sound D s ∧ (is_ok r = true → fits D entry s)) (sound D)) as Hfail.
  { intros err P HP. apply alone_ret. intros s Hs. split; [by apply HP|done]. }
  unfold backupCurrent. eapply (alone_bind _ _ _ _ (λ _, F)); [apply alone_atomic; [by intros s []|done]|].
  intros [[]|err]; [by apply alone_ret; intros s []| |by apply Hfail; intros s []].
  eapply alone_bind; [eapply triple_conseq; [apply (digest_spec executable F)|done|done|by intros s []]|].
  intros [digest|err]; cbv beta; [|by apply Hfail; intros s [[] _]].
  apply (triple_pre _ _ (λ s, F s ∧ D digest)).
  { intros s [[Hs Hf] Hd]. split; [done|]. destruct (Hd digest eq_refl) as (b & Hb & ->). by apply Hs. }
  eapply (alone_bind _ _ _ _ (λ _ s, F s ∧ D digest)); [apply alone_atomic; [by intros s [[] _]|done]|]. intros savedAt. cbv zeta.
  set (id := _ +:+ _). eapply alone_bind.
  { apply (try_spec _ _ _ (λ s, F s ∧ D digest)); [by intros s [[] _]|]. intros s [[Hs Hf] Hd]. split; [|done]. split.
    - apply sound_backup; [done|]. by left.
    - intros i b Hi. rewrite preserved_other by by right. by apply Hf. }
  intros [?|err]; [|by apply Hfail; intros s [[] _]].
  eapply (alone_bind _ _ _ _ (λ r s, sound D s ∧ D digest ∧ (is_ok r = true → fits D entry s))).
  { apply alone_atomic; [by intros s [[] _]|]. intros e s _ [[Hs Hf] Hd]. destruct (executable s) as [b|] eqn:He; [|done].
    assert (∀ x, sound D (in_backup id (λ d, d <| preserved := Some x |>) s)) as Hx by (intros x; apply sound_backup; [done|by left]).
    destruct (works e); cbn; [|destruct (leaves e) as [x|]; split_and!; try done; apply Hx]. split; [apply Hx|]. split; [done|]. intros _ i b' Hi.
    destruct (decide (id = i)) as [E|E]; [|rewrite preserved_other by (by left); by apply Hf].
    unfold preserved_at, in_backup. cbn. rewrite E, lookup_insert_eq. cbn. intros [= <-]. by apply Hs. }
  intros [?|err]; [|by apply Hfail; intros s (? & _)].
  eapply (alone_bind _ _ _ _ (λ _ s, F s)).
  { apply alone_atomic; [by intros s [? _]|]. intros e s _ (Hs & Hd & Hf). specialize (Hf eq_refl). destruct (works e || replaced e); [|done]. split.
    - apply sound_backup; [done|]. intros d m. cbn. intros [= <-]. by right.
    - intros i b Hi. cbn [fst]. rewrite preserved_other by by right. by apply Hf. }
  intros wrote. apply alone_ret. intros s []. by destruct wrote.
Qed.

Lemma swap_spec D staged :
  triple_ (λ s, sound D s ∧ ∀ b, staged s = Some b → D (digest_of b)) (swap staged) (λ _, sound D) (sound D).
Proof.
  eapply (alone_bind _ _ _ _ (λ r s, sound D s ∧ (is_ok r = true → ∀ b, pending s = Some b → D (digest_of b)))).
  { apply alone_atomic; [by intros s []|]. intros e s _ [Hs Hb]. destruct (staged s) as [b|] eqn:E; [|done].
    destruct (works e); cbn; [|by destruct (leaves e)]. split; [done|]. intros _ b' [= <-]. by apply Hb. }
  intros [?|]; [|by apply alone_ret; intros s []]. eapply alone_bind.
  { apply (try_spec _ _ _ (sound D)); [by intros s []|]. intros s [Hs Hb]. split; [|apply Hs]. cbn. auto. }
  intros [?|]; [by apply try_same|]. eapply (alone_bind _ _ _ _ (λ _, sound D)); [|intros; by apply alone_ret].
  eapply triple_pre; [|by apply try_same]. by intros s [].
Qed.

Lemma prune_sound D : triple_ (sound D) (pruneBackups keepBackups) (λ _, sound D) (sound D).
Proof.
  eapply (alone_bind _ _ _ _ (λ _, sound D)); [by apply alone_atomic|]. intros [found|]; [|by apply alone_ret].
  induction (drop keepBackups found) as [|[entry b] rest IH]; cbn [remove_backups]; [by apply alone_ret|].
  eapply alone_bind; [apply try_same|intros [?|]; [exact IH|by apply alone_ret]].
  intros s [He Hb]. split; [done|]. intros id d m. cbn. intros [_ Hd]%lookup_delete_Some. by eapply Hb.
Qed.

(** Preserving the binary touches nothing but the backups. *)
Definition only_backups (s s' : files) : Prop := ∃ bk, s' = s <| backups := bk |>.

Lemma only_refl s : only_backups s s.
Proof. exists (backups s). by destruct s. Qed.

Lemma backup_only v : guarantees only_backups (backupCurrent stamp v).
Proof.
  unfold backupCurrent. apply guarantees_bind; [by apply guarantees_atomic; intros; apply only_refl|]. intros [[]|]; [done| |done].
  apply guarantees_bind; [by apply guarantees_atomic; intros; apply only_refl|]. intros [digest|]; [|done].
  apply guarantees_bind; [by apply guarantees_atomic; intros; apply only_refl|]. intros savedAt. cbv zeta.
  apply guarantees_bind; [apply guarantees_atomic; intros e s; destruct (works e); [by eexists|apply only_refl]|]. intros [?|]; [|done].
  apply guarantees_bind; [apply guarantees_atomic; intros e s; repeat case_match; try apply only_refl; by eexists|]. intros [?|]; [|done].
  apply guarantees_bind; [apply guarantees_atomic; intros e s; cbn; case_match; try apply only_refl; by eexists|done].
Qed.

Lemma backup_keeps D entry (K : files → Prop) v :
  (∀ s bk, K s → K (s <| backups := bk |>)) →
  triple_ (λ s, (sound D s ∧ fits D entry s) ∧ K s) (backupCurrent stamp v)
    (λ r s, (sound D s ∧ (is_ok r = true → fits D entry s)) ∧ K s) (sound D).
Proof.
  intros HK. eapply triple_conseq; [apply (triple_and okE (alone (backupCurrent stamp v)) (λ s, (sound D s ∧ fits D entry s) ∧ K s)
    (λ r s, sound D s ∧ (is_ok r = true → fits D entry s)) (λ _, K) (sound D) (λ _, True))|done|done|by intros s []].
  - eapply triple_pre; [|apply backupCurrent_spec]. by intros s [].
  - eapply triple_pre; [|apply (alone_guarantees _ only_backups K); [apply backup_only| |done]]; [by intros s []|].
    intros s s' [bk ->]. apply HK.
Qed.

Lemma sound_apart D : apart (sound D).
Proof. by split; intros s x []. Qed.

(** An installation brings in nothing but the signed binary. *)
Lemma Install_sound D r a v :
  D (BinarySHA256 a) →
  triple_ (sound D) (Install parse_url gunzip stamp component keepBackups r a v) (λ _, sound D) (sound D).
Proof.
  intros HD. unfold Install. destruct (ParseVersion _) as [expected|]; [|by apply alone_ret]. destruct (negb _); [by apply alone_ret|].
  destruct (Artifact_Validate _ _); [|by apply alone_ret]. eapply alone_bind; [apply ready_spec|]. intros []; [|by apply alone_ret]. cbn [negb].
  unfold in_staging. pose proof (sound_apart D) as [Hdl Hbin]. eapply alone_bind; [by apply try_same; intros s ?; apply Hbin, Hdl|].
  intros [?|]; [|by apply alone_ret]. eapply (alone_bind _ _ _ _ (λ _, sound D));
    [|intros x; eapply alone_bind; [by apply try_same; intros s ?; apply Hbin, Hdl|intros; by apply alone_ret]].
  eapply alone_bind; [apply (stage_spec (sound D)), sound_apart|]. intros [err|[]]; cbv beta; [by apply alone_ret; intros s []|].
  apply (triple_pre _ _ (λ s, sound D s ∧ staged_ok a s)); [intros s [? Hx]; split; [done|by apply (Hx tt)]|].
  eapply (alone_bind _ _ _ _ (λ _ s, sound D s ∧ staged_ok a s)).
  { apply alone_atomic; [by intros s []|]. intros e s _ [? (b & Hb & ?)]. rewrite Hb. cbn. split; [done|]. by exists b. }
  intros [said|]; [|by apply alone_ret; intros s []]. destruct (negb _); [by apply alone_ret; intros s []|]. unfold commit_staged.
  eapply (alone_bind _ _ _ _ (λ _ s, sound D s ∧ staged_ok a s)); [apply alone_atomic; [by intros s []|done]|].
  intros []; cbn [negb]; [|by apply alone_ret; intros s []].
  eapply (alone_bind _ _ _ _ (λ _ s, sound D s ∧ staged_ok a s)).
  { eapply triple_conseq; [apply (backup_keeps D None (staged_ok a)); by intros s bk|..].
    - intros s [? ?]. split; [split; [done|]|done]. by intros i b.
    - by intros x s [[? _] ?].
    - done. }
  intros [backup|]; [|by apply alone_ret; intros s []].
  eapply (alone_bind _ _ _ _ (λ _, sound D)).
  { eapply triple_pre; [|apply swap_spec]. intros s [? (b & Hb & Hd)]. split; [done|]. intros b'. rewrite Hb. intros [= <-]. by rewrite Hd. }
  intros [?|]; [|by apply alone_ret]. eapply (alone_bind _ _ _ _ (λ _, sound D)); [by apply alone_atomic|]. intros now.
  eapply alone_bind; [apply prune_sound|]. intros. by apply alone_ret.
Qed.

(** A rollback brings in nothing but a preserved binary. *)
Lemma Rollback_sound D entry b v :
  D (BackupSHA256 b) → triple_ (sound D) (Installer_Rollback stamp entry b v) (λ _, sound D) (sound D).
Proof.
  intros HD. unfold Installer_Rollback. eapply alone_bind; [apply digest_spec|]. intros [digest|]; cbv beta; [|by apply alone_ret; intros s []].
  destruct (negb _) eqn:Hd; [by apply alone_ret; intros s []|]. to_prop. subst digest.
  apply (triple_pre _ _ (λ s, sound D s ∧ fits D (Some entry) s)).
  { intros s [? Hx]. split; [done|]. destruct (Hx _ eq_refl) as (x & Hx' & Hdig). intros i y [= <-]. rewrite Hx'. intros [= <-]. by rewrite <- Hdig. }
  eapply (alone_bind _ _ _ _ (λ _ s, sound D s ∧ fits D (Some entry) s)); [apply alone_atomic; [by intros s []|done]|].
  intros []; cbn [negb]; [|by apply alone_ret; intros s []].
  eapply (alone_bind _ _ _ _ (λ _ s, sound D s ∧ fits D (Some entry) s)).
  { apply alone_atomic; [by intros s []|]. intros e s _ ?. by destruct (preserved_at entry s). }
  intros [said|]; [|by apply alone_ret; intros s []]. destruct (match ParseVersion _ with Ok _ => _ | Err _ => _ end); [by apply alone_ret; intros s []|].
  eapply alone_bind; [apply backupCurrent_spec|]. intros [?|]; cbv beta; [|by apply alone_ret; intros s []].
  eapply (alone_bind _ _ _ _ (λ _, sound D)).
  { eapply triple_pre; [|apply swap_spec]. intros s [? Hf]. split; [done|]. intros x. by apply Hf. }
  intros [?|]; [|by apply alone_ret]. eapply (alone_bind _ _ _ _ (λ _, sound D)); [by apply alone_atomic|]. intros now. by apply alone_ret.
Qed.


(** ** Reversible installations *)

Section reversible.
Context (T : Z) (HT : ∀ e, okE e → T < clock e) (Hkeep : (1 ≤ keepBackups)%nat).
Context (old : option bytes) (expected : Version) (a : Artifact).

(** Every backup is in the directory of its identifier and older than [T]. *)
Definition filed_before (s : files) (besides : string → Prop) : Prop :=
  ∀ id d m, backups s !! id = Some d → metadata d = Some m → BackupID m = id ∧ (¬ besides id → SavedAt m ≤ T).

(** The directory [id] preserves the old binary. *)
Definition holds (id : string) (b0 : bytes) (s : files) : Prop :=
  ∃ d m, backups s !! id = Some d ∧ preserved d = Some b0 ∧ metadata d = Some m ∧ BackupSHA256 m = digest_of b0.
Definition preserved_old (s : files) : Prop := ∀ b0, old = Some b0 → ∃ id, holds id b0 s.

(** The binary in place is the one that was promised. *)
Definition promised (b : bytes) (s : files) : Prop :=
  digest_of b = BinarySHA256 a ∧ ∃ said, (b, Ok said) ∈ tested s ∧ SameRelease said expected = true.
Definition replaced_by (s : files) : Prop := ∃ b, executable s = Some b ∧ promised b s.

Definition safe (s : files) : Prop := executable s = old ∨ replaced_by s ∧ preserved_old s.

(** Before the backup, and after it. *)
Definition untouched (s : files) : Prop := executable s = old ∧ filed_before s (λ _, False).
Definition secured (s : files) : Prop :=
  ∀ b0, old = Some b0 → ∃ id, holds id b0 s ∧ filed_before s (λ i, i = id) ∧
    ∀ d m, backups s !! id = Some d → metadata d = Some m → T < SavedAt m.

Lemma secured_old s : secured s → preserved_old s.
Proof. intros H b0 Hb. destruct (H b0 Hb) as (id & ? & _). by exists id. Qed.

Lemma backup_secures (K : files → Prop) v :
  (∀ s bk, K s → K (s <| backups := bk |>)) →
  triple_ (λ s, untouched s ∧ K s) (backupCurrent stamp v)
    (λ r s, executable s = old ∧ K s ∧ (is_ok r = true → secured s)) (λ s, executable s = old).
Proof.
  intros HK. assert (∀ err (P : files → Prop), (∀ s, P s → executable s = old ∧ K s) → triple_ P (mret (Err err : result (option Backup)))
    (λ r s, executable s = old ∧ K s ∧ (is_ok r = true → secured s)) (λ s, executable s = old)) as Hfail.
  { intros err P HP. apply alone_ret. intros s [? ?]%HP. done. }
  unfold backupCurrent. eapply (alone_bind _ _ _ _ (λ r s, (untouched s ∧ K s) ∧ (r = Ok true → old = None))).
  { apply alone_atomic; [by intros s [[] _]|]. intros e s _ [[He Hf] Hk]. split; [done|]. cbn. destruct (works e); [|done].
    intros [= Hb]. apply bool_decide_eq_true in Hb. congruence. }
  intros [[]|err]; [|..|by apply Hfail; intros s [[[] ?] _]].
  { apply alone_ret. intros s [[[He _] Hk] Hno]. split_and!; [done..|]. intros _ b0 Hb. rewrite (Hno eq_refl) in Hb. done. }
  eapply alone_bind; [eapply triple_conseq; [apply (digest_spec executable (λ s, untouched s ∧ K s))|by intros s []|done|by intros s [[] _]]|].
  intros [digest|err]; cbv beta; [|by apply Hfail; intros s [[[] ?] _]].
  apply (triple_pre _ _ (λ s, (∃ b0, old = Some b0 ∧ digest = digest_of b0) ∧ untouched s ∧ K s)).
  { intros s [[[He Hf] Hk] Hd]. destruct (Hd digest eq_refl) as (b0 & Hb0 & ->). split; [|done]. exists b0. split; [congruence|done]. }
  apply triple_pure. intros (b0 & Hold & ->).
  eapply (alone_bind _ _ _ _ (λ t s, T < t ∧ untouched s ∧ K s)); [apply alone_atomic; [by intros s [[] _]|]; intros e s He ?; split; [by apply HT|done]|].
  intros savedAt. cbv beta zeta. apply triple_pure. intros Hlate. set (id := _ +:+ _).
  eapply alone_bind.
  { apply (try_spec _ _ _ (λ s, untouched s ∧ K s)); [by intros s [[] _]|]. intros s [[He Hf] Hk]. split; [|by apply HK]. split; [done|].
    intros i d m. cbn. intros [[<- <-]|[_ Hd]]%lookup_insert_Some Hm; [|by eapply Hf].
    destruct (backups s !! id) as [d|] eqn:Hd; [by eapply Hf|done]. }
  intros [?|err]; [|by apply Hfail; intros s [[] ?]].
  eapply (alone_bind _ _ _ _ (λ r s, (untouched s ∧ K s) ∧ (is_ok r = true → ∃ d, backups s !! id = Some d ∧ preserved d = Some b0))).
  { assert (∀ s x, untouched s ∧ K s → untouched (in_backup id (λ d, d <| preserved := Some x |>) s) ∧ K (in_backup id (λ d, d <| preserved := Some x |>) s)) as Hup.
    { intros s x [[He Hf] Hk]. split; [|by apply HK]. split; [done|]. intros i d m. cbn. intros [[<- <-]|[_ Hd]]%lookup_insert_Some Hm; [|by eapply Hf].
      cbn in Hm. destruct (backups s !! id) as [d|] eqn:Hd; [by eapply Hf|done]. }
    apply alone_atomic; [by intros s [[] _]|]. intros e s _ Hs. pose proof Hs as [[He _] _]. rewrite He, Hold.
    destruct (works e); [|cbn; destruct (leaves e) as [x|]; split; try done; by apply Hup]. split; [by apply Hup|]. intros _. cbn.
    rewrite lookup_insert_eq. by eexists. }
  intros [?|err]; [|by apply Hfail; intros s [[[] ?] _]].
  eapply (alone_bind _ _ _ _ (λ r s, executable s = old ∧ K s ∧ (is_ok r = true → secured s))).
  { apply alone_atomic; [by intros s [[[] ?] _]|]. intros e s _ [[[He Hf] Hk] Hd]. destruct (Hd eq_refl) as (d & Hd' & Hp). clear Hd.
    destruct (works e); [|by destruct (replaced e); split_and!; try done; apply HK]. cbn [fst snd orb]. split_and!; [done|by apply HK|].
    intros _ b1 Hb1. assert (b1 = b0) as -> by congruence. exists id. unfold holds, filed_before. cbn. rewrite Hd'. cbn. split_and!.
    - rewrite lookup_insert_eq. do 2 eexists. by split_and!.
    - intros i d' m. cbn. intros [[<- <-]|[Hne Hd2]]%lookup_insert_Some Hm; [injection Hm as <-; by split|].
      destruct (Hf i d' m Hd2 Hm) as [? ?]. split; [done|]. auto.
    - intros d' m. rewrite lookup_insert_eq. intros [= <-]. cbn. by intros [= <-]. }
  intros wrote. apply alone_ret. intros s (? & ? & Hs). split_and!; [done..|]. by destruct wrote.
Qed.

Lemma promised_frame b s s' : tested s' = tested s → promised b s → promised b s'.
Proof. unfold promised. by intros ->. Qed.

Lemma safe_frame s s' :
  executable s' = executable s → tested s' = tested s → backups s' = backups s → safe s → safe s'.
Proof. unfold safe, replaced_by, promised, preserved_old, holds. by intros -> -> ->. Qed.

(** The staged binary is the promised one. *)
Definition vetted (s : files) : Prop := ∃ b, binary s = Some b ∧ promised b s.

Lemma swap_secures :
  triple_ (λ s, executable s = old ∧ vetted s ∧ secured s) (swap binary)
    (λ r s, if is_ok r then replaced_by s ∧ secured s else safe s) safe.
Proof.
  eapply (alone_bind _ _ _ _ (λ r s, executable s = old ∧ secured s ∧ (is_ok r = true → ∃ b, pending s = Some b ∧ promised b s))).
  { apply alone_atomic; [by intros s [? _]; left|]. intros e s _ (He & (b & Hb & Hp) & Hs). rewrite Hb.
    destruct (works e); cbn; [|by destruct (leaves e)]. split_and!; [done..|]. intros _. by exists b. }
  intros [?|]; [|by apply alone_ret; intros s (? & _); left].
  eapply (alone_bind _ _ _ _ (λ r s, if is_ok r then replaced_by s ∧ secured s else executable s = old)).
  { apply alone_atomic; [by intros s (? & _); left|]. intros e s _ (He & Hs & Hp). destruct (Hp eq_refl) as (b & Hb & Hp').
    destruct (works e); [|done]. split; [|done]. by exists b. }
  intros [?|]; cbn [is_ok].
  - apply alone_atomic; [intros s [? ?]; right; split; [done|by apply secured_old]|]. intros e s _ [Hr Hs].
    destruct (works e); cbn; [done|]. right. split; [done|by apply secured_old].
  - eapply (alone_bind _ _ _ _ (λ _, safe)); [|intros; by apply alone_ret]. eapply triple_pre; [|by apply try_same]. by left.
Qed.

(** The newest backup is not among those that are pruned. *)
Lemma newest_kept id found :
  NoDup found.*1 → Sorted.StronglySorted saved_later found →
  (∀ x, x ∈ found → BackupID x.2 = x.1 ∧ (x.1 ≠ id → SavedAt x.2 ≤ T) ∧ (x.1 = id → T < SavedAt x.2)) →
  Forall (λ x, BackupID x.2 ≠ id) (drop keepBackups found).
Proof.
  intros Hnd Hs Hx. apply Forall_forall. intros x Hin Hid. destruct keepBackups as [|k]; [lia|]. destruct found as [|y found]; [by apply not_elem_of_nil in Hin|].
  cbn in Hin, Hnd. apply NoDup_cons in Hnd as [Hy _]. assert (x ∈ found) as Hx2 by (by eapply subseteq_drop). clear Hin.
  apply Sorted.StronglySorted_inv in Hs as [_ Hs]. rewrite Forall_forall in Hs. specialize (Hs x Hx2). unfold saved_later in Hs.
  destruct (Hx x) as (Hi & _ & Hlate); [by right|]. destruct (Hx y) as (_ & Hearly & _); [by left|].
  assert (y.1 ≠ id). { intros E. apply Hy. rewrite E, <- Hid, Hi. apply list_elem_of_fmap. by exists x. }
  assert (T < SavedAt x.2) by (apply Hlate; congruence). specialize (Hearly H). lia.
Qed.

Lemma remove_keeps id b0 (K : files → Prop) gone :
  (∀ s bk, K s → K (s <| backups := bk |>)) → Forall (λ x, BackupID x.2 ≠ id) gone →
  triple_ (λ s, K s ∧ holds id b0 s) (remove_backups gone) (λ _ s, K s ∧ holds id b0 s) (λ s, K s ∧ holds id b0 s).
Proof.
  intros HK Hg. induction Hg as [|[entry b] rest Hne _ IH]; cbn [remove_backups]; [by apply alone_ret|].
  eapply alone_bind; [apply try_same|intros [?|]; [exact IH|by apply alone_ret]].
  intros s [Hk (d & m & Hd & ?)]. split; [by apply HK|]. exists d, m. split; [|done]. cbn. by rewrite lookup_delete_ne.
Qed.

Lemma prune_keeps (K : files → Prop) :
  (∀ s bk, K s → K (s <| backups := bk |>)) →
  triple_ (λ s, K s ∧ secured s) (pruneBackups keepBackups) (λ _ s, K s ∧ preserved_old s) (λ s, K s ∧ preserved_old s).
Proof.
  intros HK. eapply (alone_bind _ _ _ _ (λ r s, K s ∧ ∀ b0, old = Some b0 → ∃ id, holds id b0 s ∧
    ∀ found, r = Ok found → Forall (λ x, BackupID x.2 ≠ id) (drop keepBackups found))).
  { apply alone_atomic; [by intros s [? ?]; split; [|apply secured_old]|]. intros e s _ [Hk Hs]. split; [done|]. intros b0 Hb.
    destruct (Hs b0 Hb) as (id & Hh & Hf & Hl). exists id. split; [done|]. intros found. cbn [snd]. destruct (works e); [|done]. intros [= E].
    symmetry in E. destruct (listed_spec s e found E) as (Hnd & Hss & Hin). apply newest_kept; [done..|]. intros x Hx.
    destruct (Hin x Hx) as (d & Hd & Hm). destruct (Hf _ _ _ Hd Hm) as [Hid Hearly]. split_and!; [done|done|]. intros <-. by eapply Hl. }
  intros [found|]; [|by apply alone_ret; intros s [? H]; split; [done|]; intros b0 Hb; destruct (H b0 Hb) as (id & ? & _); exists id].
  destruct old as [b0|] eqn:Hold.
  - apply (triple_pre _ _ (λ s, ∃ id, Forall (λ x, BackupID x.2 ≠ id) (drop keepBackups found) ∧ K s ∧ holds id b0 s)).
    { intros s [? H]. destruct (H b0 eq_refl) as (id & ? & Hg). exists id. split; [|done]. by apply Hg. }
    apply triple_exists. intros id. apply triple_pure. intros Hg.
    eapply triple_conseq; [by apply (remove_keeps id b0 K)|done|..];
      intros; cbv beta in *; destruct_and!; (split; [done|]); intros b1 Hb1; exists id; congruence.
  - eapply triple_conseq; [apply (alone_guarantees _ only_backups K)|..]; [| |done|by intros s []|..].
    + induction (drop keepBackups found) as [|[entry b] rest IH]; cbn [remove_backups]; [done|].
      apply guarantees_bind; [apply guarantees_atomic; intros e s; destruct (works e); [by eexists|apply only_refl]|]. by intros [].
    + intros s s' [bk ->]. apply HK.
    + intros r s ?. split; [done|]. intros b0. congruence.
    + intros s ?. split; [done|]. intros b0. congruence.
Qed.

(** How an installation that returned left the executable. *)
Definition outcome (r : install_error + Installed) (s : files) : Prop :=
  match r with
  | inr i => (replaced_by s ∧ preserved_old s) ∧ InstalledSHA256 i = BinarySHA256 a ∧ InstalledVersion i = Version_String expected
  | inl (ErrTransient _) => safe s
  | inl _ => executable s = old
  end.

Lemma outcome_safe r s : outcome r s → safe s.
Proof. destruct r as [[]|i]; cbn; [by left|by left|done|by left|]. intros [? _]. by right. Qed.

Lemma commit_reversible v :
  triple_ (λ s, untouched s ∧ vetted s) (commit_staged stamp keepBackups expected a v) outcome safe.
Proof.
  unfold commit_staged. eapply (alone_bind _ _ _ _ (λ _ s, untouched s ∧ vetted s)); [apply alone_atomic; [by intros s [[] _]; left|done]|].
  intros []; cbn [negb]; [|by apply alone_ret; intros s [[] _]].
  eapply alone_bind; [eapply triple_conseq; [by apply (backup_secures vetted)|done|done|by left]|].
  intros [backup|]; cbv beta; [|by apply alone_ret; intros s (? & _); left].
  eapply alone_bind; [eapply triple_pre; [|apply swap_secures]; intros s (? & ? & Hs); split_and!; [done..|by apply Hs]|].
  intros [?|]; cbn [is_ok]; [|by apply alone_ret].
  eapply (alone_bind _ _ _ _ (λ _ s, replaced_by s ∧ secured s)); [apply alone_atomic; [|done]; intros s [? ?]; right; split; [done|by apply secured_old]|].
  intros now. eapply alone_bind; [eapply triple_conseq; [by apply (prune_keeps replaced_by)|done|done|by intros s ?; right]|].
  intros pruned. by apply alone_ret.
Qed.

Lemma untouched_apart : apart untouched.
Proof. by split; intros s x []. Qed.

Lemma staged_reversible v :
  triple_ untouched (
      staged ← stage gunzip a;
      match staged with
      | inl err => mret (inl err)
      | inr _ =>
          said ← selfTest binary;
          match said with
          | Err err => mret (inl (ErrBadRelease err))
          | Ok said =>
              if negb (SameRelease said expected) then mret (inl (ErrBadRelease "staged binary reports another version"))
              else commit_staged stamp keepBackups expected a v
          end
      end) outcome safe.
Proof.
  eapply alone_bind; [eapply triple_conseq; [apply (stage_spec untouched), untouched_apart|done|done|by intros s []; left]|].
  intros [err|[]]; cbv beta; [apply alone_ret; intros s [[He _] _]; by destruct err; try left|].
  eapply (alone_bind _ _ _ _ (λ r s, untouched s ∧ ∀ said, r = Ok said → SameRelease said expected = true → vetted s)).
  { apply alone_atomic; [by intros s [[] _]; left|]. intros e s _ [Hu Hx]. destruct (Hx tt eq_refl) as (b & Hb & Hd). rewrite Hb. split; [done|].
    cbn [snd fst]. intros said Hs Hsame. exists b. split; [done|]. split; [done|]. exists said. split; [|done]. cbn. rewrite <- Hs. set_solver. }
  intros [said|]; [|by apply alone_ret; intros s [[] _]]. destruct (negb _) eqn:Hsame; [by apply alone_ret; intros s [[] _]|]. to_prop.
  eapply triple_pre; [|apply commit_reversible]. intros s [? Hv]. split; [done|]. by apply (Hv said).
Qed.

Lemma outcome_staging r s s' :
  executable s' = executable s → tested s' = tested s → backups s' = backups s → outcome r s → outcome r s'.
Proof. unfold outcome, safe, replaced_by, promised, preserved_old, holds. intros -> -> ->. done. Qed.

Lemma Install_reversible r v :
  ParseVersion (ReleaseVersion r) = Ok expected →
  triple_ untouched (Install parse_url gunzip stamp component keepBackups r a v) outcome safe.
Proof.
  intros Hver. unfold Install. rewrite Hver. assert (∀ err, (∀ m, err ≠ ErrTransient m) → triple_ untouched (mret (inl err)) outcome safe) as Hfail.
  { intros err Hn. apply alone_ret. intros s []. destruct err; try done. by destruct (Hn err). }
  destruct (negb _); [by apply Hfail|]. destruct (Artifact_Validate _ _); [|by apply Hfail].
  eapply alone_bind; [eapply triple_conseq; [apply (ready_spec untouched)|done|done|by intros s []; left]|]. intros []; [|by apply Hfail]. cbn [negb].
  unfold in_staging. pose proof untouched_apart as [Hdl Hbin].
  eapply alone_bind; [eapply triple_conseq; [apply (try_same _ _ untouched); intros s ?; by apply Hbin, Hdl|done|done|by intros s []; left]|].
  intros [?|]; [|by apply alone_ret; intros s []; left]. eapply alone_bind; [apply staged_reversible|]. intros x.
  eapply (alone_bind _ _ _ _ (λ _, outcome x)); [|intros; by apply alone_ret].
  apply alone_atomic; [intros s; apply outcome_safe|]. intros e s _ Hs. destruct (works e); [|done]. by eapply outcome_staging.
Qed.
End reversible.

(** C15.  Take an installation that keeps at least one backup, at readings of the
    clock that are all later than the times of the backups that are there.
    Whatever fails and wherever it is cut off, the executable is the one that
    was there, or a binary with the signed digest that reported the version of
    the release; in the second case the old binary is preserved with its
    digest, and stays so when old backups are pruned.  An installation that
    reports success replaced the binary; one that reports that the agent was
    busy or that the release is bad did not. *)
Theorem install_reversible (T : Z) r a expected v s es :
  (∀ e, okE e → T < clock e) → (1 ≤ keepBackups)%nat → ParseVersion (ReleaseVersion r) = Ok expected →
  Forall okE es → filed_before T s (λ _, False) →
  let old := executable s in
  let run := alone (Install parse_url gunzip stamp component keepBackups r a v) s es in
  safe old expected a (final run) ∧ ∀ x, returned run = Some x → outcome old expected a x (final run).
Proof.
  intros HT Hkeep Hver Hes Hf old run.
  pose proof (Install_reversible T HT Hkeep old expected a r v Hver s es Hes (conj eq_refl Hf)) as H. fold run in H.
  unfold final, returned. destruct run as [[[x|] s'] es']; cbn in *; [|done]. destruct H as [H _].
  split; [by eapply outcome_safe|]. by intros ? [= <-].
Qed.
End installer.

(** ** Witnesses *)

#[local] Existing Instance toy_crypto.

Definition demo_version : Version := {| Major := 1; Minor := 1; Patch := 0; PreRelease := ""; Build := "" |}.
Definition demo_disk : disk_env :=
  {| works := true; leaves := None; replaced := false; clock := 5; ready := true; reported := Ok demo_version;
     fetched := demo_binary; delivered := Delivered; readable := λ _, true |}.
Definition demo_old : bytes := replicate 31 Byte.x41.
Definition demo_stamp (t : Z) : string := if decide (t = 5) then "five" else "early".
Definition demo_backup (id : string) (at_ : Z) : string * backup_dir :=
  (id, {| metadata := Some {| BackupID := id; BackupVersion := "1.0.0"; SavedAt := at_; BackupSHA256 := demo_digest_of demo_old |};
          preserved := Some demo_old |}).
Definition demo_files : files :=
  {| executable := Some demo_old; pending := None; download := None; binary := None;
     backups := list_to_map [demo_backup "a" 1; demo_backup "b" 2; demo_backup "c" 3]; tested := [] |}.

Definition demo_install (es : list disk_env) : option (install_error + Installed) * files * list disk_env :=
  alone (Install demo_url (λ _, Err "gzip") demo_stamp "agent" 3 (demo_release "1.1.0") demo_artifact "1.0.0") demo_files es.

Lemma install_reversible_witness :
  filed_before 4 demo_files (λ _, False) ∧
  (let run := demo_install (replicate 40 demo_disk) in
   executable (final run) = Some demo_binary ∧ size (backups (final run)) = 3%nat ∧
   preserved_old (Some demo_old) (final run)).
Proof.
  assert (filed_before 4 demo_files (λ _, False)) as Hf.
  { intros id d m Hd Hm. cbn [demo_files backups list_to_map foldr demo_backup fst snd] in Hd.
    repeat (apply lookup_insert_Some in Hd as [[<- <-]|[_ Hd]]; [injection Hm as <-; split; [reflexivity|cbn; lia]|]). by rewrite lookup_empty in Hd. }
  split; [exact Hf|]. cbv zeta. split; [vm_compute; reflexivity|]. split; [vm_compute; reflexivity|].
  destruct (install_reversible demo_url (λ _, Err "gzip") demo_stamp "agent" 3 (λ e, 4 < clock e) 4
    (demo_release "1.1.0") demo_artifact demo_version "1.0.0" demo_files (replicate 40 demo_disk)) as [H _];
    [done|lia|vm_compute; reflexivity|apply Forall_replicate; vm_compute; reflexivity|exact Hf|].
  destruct H as [H|[_ H]]; [vm_compute in H; discriminate H|exact H].
Defined.

(** The binary is in place although the installation says that it failed:
    only the sync of its directory did. *)
Definition demo_failing : disk_env :=
  {| works := false; leaves := None; replaced := false; clock := 5; ready := true; reported := Ok demo_version;
     fetched := demo_binary; delivered := Delivered; readable := λ _, true |}.
Lemma unsynced_swap_stays :
  let run := demo_install (replicate 19 demo_disk ++ [demo_failing] ++ replicate 20 demo_disk) in
  returned run = Some (inl (ErrTransient "sync")) ∧ executable (final run) = Some demo_binary.
Proof. split; vm_compute; reflexivity. Qed.

(** Backups are pruned by their times.  When the clock was set back since the
    kept ones were made, the backup that an installation prunes is the one it
    has just made: the binary that ran until now is gone. *)
Theorem clock_step_prunes_current :
  let later := demo_files <| backups := list_to_map [demo_backup "a" 11; demo_backup "b" 12; demo_backup "c" 13] |>
                          <| executable := Some (replicate 31 Byte.x42) |> in
  let run := alone (Install demo_url (λ _, Err "gzip") demo_stamp "agent" 3 (demo_release "1.1.0") demo_artifact "1.0.0") later (replicate 40 demo_disk) in
  is_Some (returned run) ∧ executable (final run) = Some demo_binary ∧
  (λ e, (e.1, preserved e.2)) <$> map_to_list (backups (final run)) = [("c", Some demo_old); ("a", Some demo_old); ("b", Some demo_old)].
Proof. vm_compute. split; [by eexists|]. split; reflexivity. Qed.
