(* ===== verification/Updates.v ===== *)
(** * The update manager ([internal/update/manager.go])

    The manager consults the feed, decides what may be installed, has it
    installed and keeps the durable record of it.  Every operation runs under
    one mutex; it is a sequence of actions, each of which may be the last
    before the process dies.  The feed, the clock and the control plane's
    protocol version are answers of the environment. *)
From Stdlib Require Import Ascii.
From S2P Require Import Prelude GoStr Prog Conc Crypto Version Release Update Installer.

Local Open Scope string_scope.
Local Open Scope list_scope.
Local Open Scope Z_scope.

(** ** Data *)

(** [Policy]. *)
Inductive Policy := PolicyManual | PolicyMandatory | PolicyAutomatic.
#[export] Instance Policy_eq_dec : EqDecision Policy.
Proof. solve_decision. Defined.

(** [Event]; its component is the manager's. *)
Inductive EventKind := EventChecked | EventInstalled | EventRolledBack | EventFailed | EventDeferred.
Record Event := { At : Z; Kind : EventKind; FromVersion : string; ToVersion : string; EventCode : string; Detail : string }.

(** [BlockedVersion]. *)
Record BlockedVersion := { BlockedRelease : string; BlockedAt : Z; BlockedReason : string }.

(** [State], as it is in memory and in the state file. *)
Record State := {
  SchemaVersion : Z;
  StateComponent : string;
  LastCheckedAt : option Z;
  LastCheckError : string;
  LastInstalled : option Installed;
  PendingVersion : string;
  Blocked : list BlockedVersion;
  History : list Event;
}.
#[export] Instance State_eta : Eta State := fun s =>
  Build_State (SchemaVersion s) (StateComponent s) (LastCheckedAt s) (LastCheckError s) (LastInstalled s) (PendingVersion s)
    (Blocked s) (History s).

(** [CheckResult]. *)
Record CheckResult := {
  CheckedAt : Z;
  CheckedVersion : string;
  CheckedPending : string;
  Available : option Evaluation;
  Evaluations : list Evaluation;
}.

(** The files of the machine, the state file, and the memory of the manager. *)
Record machine := {
  fs : files;
  stored : option State;
  installation : Installation;
  state : State;
  lastCheck : option CheckResult;
}.
#[export] Instance machine_eta : Eta machine := fun m =>
  Build_machine (fs m) (stored m) (installation m) (state m) (lastCheck m).

(** What the environment answers to one action; [peer] is [0] without a
    control plane. *)
Record update_env := { disk : disk_env; served : result Feed; peer : Z }.

Definition stateSchemaVersion : Z := 1.
Definition maximumHistory : nat := 100.
Definition minute : Z := 60 * second.
Definition MinimumCheckInterval : Z := 15 * minute.
Definition defaultCheckInterval : Z := 360 * minute.

(** [sameVersion]. *)
Definition sameVersion (first second : string) : bool :=
  match ParseVersion first, ParseVersion second with
  | Ok a, Ok b => SameRelease a b
  | _, _ => bool_decide (TrimSpace first = TrimSpace second)
  end.

Definition version_before (a b : BlockedVersion) : Prop := Is_true (String.leb (BlockedRelease a) (BlockedRelease b)).
#[export] Instance version_before_dec : RelDecision version_before.
Proof. intros a b. unfold version_before. apply _. Defined.

(** [manager.blockLocked]. *)
Fixpoint reblock (version reason : string) (now : Z) (blocked : list BlockedVersion) : option (list BlockedVersion) :=
  match blocked with
  | [] => None
  | b :: rest => if decide (BlockedRelease b = version)
                 then Some ({| BlockedRelease := version; BlockedAt := now; BlockedReason := reason |} :: rest)
                 else cons b <$> reblock version reason now rest
  end.
Definition blockLocked (version reason : string) (now : Z) (s : State) : State :=
  if decide (version = "") then s
  else
    let reason := if decide (reason = "") then "blocked on this machine" else reason in
    s <| Blocked := match reblock version reason now (Blocked s) with
                    | Some blocked => blocked
                    | None => merge_sort version_before
                                (Blocked s ++ [{| BlockedRelease := version; BlockedAt := now; BlockedReason := reason |}])
                    end |>.

(** [manager.applyBlocks]: the last entry for a version gives the reason. *)
Definition applyBlocks (s : State) (evaluations : list Evaluation) : list Evaluation :=
  (λ e, match List.find (λ b, bool_decide (BlockedRelease b = EvVersion e)) (rev (Blocked s)) with
        | Some b => if Applicable e then skip e "BLOCKED_ON_THIS_MACHINE" (BlockedReason b) else e
        | None => e
        end) <$> evaluations.

(** [manager.choose]. *)
Fixpoint choose_version (requested : Version) (evaluations : list Evaluation) : result Evaluation :=
  match evaluations with
  | [] => Err "release is not in the feed"
  | e :: rest =>
      match ParseVersion (EvVersion e) with
      | Ok candidate =>
          if SameRelease candidate requested then
            if Applicable e then Ok e else Err ("release is not applicable here: " +:+ EvReason e)
          else choose_version requested rest
      | Err _ => choose_version requested rest
      end
  end.
Definition choose (r : CheckResult) (version : string) : result Evaluation :=
  if decide (version = "") then
    match Available r with Some e => Ok e | None => Err "no applicable release is available" end
  else requested ← ParseVersion version; choose_version requested (Evaluations r).

Section manager.
Context `{HC : !Crypto}.
Context (ToLower : string → string) (parse_url : string → result artifact_url) (encode_release : Release → bytes)
        (key_verifies : string → bytes → bytes → bool) (EqualFold : string → string → bool)
        (gunzip : bytes → result bytes) (stamp : Z → string) (component : string) (keepBackups : nat) (ring : KeyRing)
        (policy : Policy).

#[local] Abbreviation act := (thread machine update_env).
#[local] Abbreviation Evaluate := (Evaluate ToLower parse_url encode_release key_verifies EqualFold).

(** ** Helpers *)

(** A call of the installer. *)
Definition installer {R} (t : thread files disk_env R) : act R := zoom fs (λ x m, m <| fs := x |>) disk t.

(** A change of the state in memory. *)
Definition set_state (f : Z → State → State) : act unit :=
  atomic (λ e m, (m <| state := f (clock (disk e)) (state m) |>, tt)).

(** [manager.persist]; the write may fail after it has replaced the file. *)
Definition persist : act (result unit) :=
  atomic (λ e m,
    let s := (state m) <| History := drop (length (History (state m)) - maximumHistory) (History (state m)) |> in
    let m := m <| state := s |> in
    (if works (disk e) || replaced (disk e) then m <| stored := Some s |> else m,
     if works (disk e) then Ok tt else Err "write update state")).

(** [manager.record]. *)
Definition record (kind : EventKind) (from to code detail : string) (now : Z) (s : State) : State :=
  s <| History := History s ++ [{| At := now; Kind := kind; FromVersion := from; ToVersion := to; EventCode := code; Detail := detail |}] |>.

(** [manager.effectiveInstallation]. *)
Definition effective (peer : Z) (m : machine) : Installation :=
  let i := if 0 <? peer then (installation m) <| PeerProtocolVersion := peer |> else installation m in
  if decide (PendingVersion (state m) = "") then i
  else
    match ParseVersion (InstVersion i), ParseVersion (PendingVersion (state m)) with
    | Ok running, Ok pending => if Precedes running pending then i <| InstVersion := Version_String pending |> else i
    | _, _ => i
    end.
Definition effectiveInstallation : act Installation := atomic (λ e m, (m, effective (peer e) m)).

(** ** Loading *)

(** [manager.load], by a process that runs [installation m]. *)
Definition load : act (result unit) :=
  atomic (λ e m,
    if negb (works (disk e)) then (m, Err "read update state")
    else
      match stored m with
      | None => (m <| state := {| SchemaVersion := stateSchemaVersion; StateComponent := InstComponent (installation m); LastCheckedAt := None;
                                  LastCheckError := ""; LastInstalled := None; PendingVersion := ""; Blocked := []; History := [] |} |>, Ok tt)
      | Some s =>
          if negb (bool_decide (SchemaVersion s = stateSchemaVersion)) then (m, Err "unsupported update state schema")
          else if negb (bool_decide (StateComponent s = "")) && negb (bool_decide (StateComponent s = InstComponent (installation m)))
          then (m, Err "update state belongs to another component")
          else
            let s := s <| StateComponent := InstComponent (installation m) |> in
            let s := if negb (bool_decide (PendingVersion s = "")) && sameVersion (PendingVersion s) (InstVersion (installation m))
                     then s <| PendingVersion := "" |> else s in
            (m <| state := s |>, Ok tt)
      end).

(** [NewManager], once its collaborators and paths are there. *)
Definition NewManager (i : Installation) (interval : Z) : act (result Z) :=
  match Installation_Validate ToLower i with
  | Err err => mret (Err err)
  | Ok i =>
      if negb (bool_decide (component = InstComponent i)) then mret (Err "installer manages another component")
      else
        let interval := if interval <=? 0 then defaultCheckInterval else interval in
        if interval <? MinimumCheckInterval then mret (Err "check interval is too short")
        else
          _ ← atomic (λ e m, (m <| installation := i |> <| lastCheck := None |>, tt));
          loaded ← load;
          mret (match loaded with Err err => Err err | Ok _ => Ok interval end)
  end.

(** ** Checking *)

(** The end of an operation that failed: it is written down first. *)
Definition fails_after {R} (err : R) (other : string → R) : act R :=
  persisted ← persist;
  mret (match persisted with Err err' => other err' | Ok _ => err end).

(** [manager.checkLocked]. *)
Definition checkLocked : act (result CheckResult) :=
  checkedAt ← atomic (λ e m, (m, clock (disk e)));
  feed ← atomic (λ e m, (m, served e));
  match feed with
  | Err err =>
      _ ← set_state (λ now s, record EventFailed "" "" "FEED_UNAVAILABLE" err now
                                (s <| LastCheckedAt := Some checkedAt |> <| LastCheckError := err |>));
      fails_after (Err err) Err
  | Ok feed =>
      i ← effectiveInstallation;
      match Evaluate feed i ring checkedAt with
      | Err err =>
          _ ← set_state (λ _ s, s <| LastCheckedAt := Some checkedAt |> <| LastCheckError := err |>);
          fails_after (Err err) Err
      | Ok evaluations =>
          r ← atomic (λ e m,
            let evaluations := applyBlocks (state m) evaluations in
            (m, {| CheckedAt := checkedAt; CheckedVersion := InstVersion (installation m); CheckedPending := PendingVersion (state m);
                   Available := Select evaluations; Evaluations := evaluations |}));
          _ ← set_state (λ now s, record EventChecked (CheckedVersion r)
                                    match Available r with Some e => EvVersion e | None => "no newer release" end "" "" now
                                    (s <| LastCheckedAt := Some checkedAt |> <| LastCheckError := "" |>));
          persisted ← persist;
          match persisted with
          | Err err => mret (Err err)
          | Ok _ =>
              _ ← atomic (λ _ m, (m <| lastCheck := Some r |>, tt));
              mret (Ok r)
          end
      end
  end.

(** ** Applying *)

(** What is recorded once the binary is in place. *)
Definition settle (i : Installed) (running : string) (s : State) : State :=
  s <| LastInstalled := Some i |>
    <| PendingVersion := if sameVersion (InstalledVersion i) running then "" else InstalledVersion i |>.
Definition install_detail (i : Installed) : string :=
  if decide (CleanupWarning i = "") then BackupOf i
  else (if decide (BackupOf i = "") then BackupOf i else BackupOf i +:+ "; ") +:+ CleanupWarning i.

(** The end of [manager.Apply], by the answer of the installer. *)
Definition conclude (chosen running : string) (answer : install_error + Installed) : act (install_error + Installed) :=
  match answer with
  | inl (ErrNotReady err) =>
      _ ← set_state (record EventDeferred running chosen "BUSY" err);
      fails_after (inl (ErrNotReady err)) (inl ∘ ErrOther)
  | inl (ErrTransient err) =>
      _ ← set_state (record EventFailed running chosen "INSTALL_RETRYABLE" err);
      fails_after (inl (ErrTransient err)) (inl ∘ ErrOther)
  | inl (ErrBadRelease err) =>
      _ ← set_state (λ now s, record EventFailed running chosen "INSTALL_FAILED" err now (blockLocked chosen err now s));
      fails_after (inl (ErrBadRelease err)) (inl ∘ ErrOther)
  | inl (ErrOther err) =>
      _ ← set_state (λ now s, record EventFailed running chosen "INSTALL_FAILED" err now (blockLocked chosen err now s));
      fails_after (inl (ErrOther err)) (inl ∘ ErrOther)
  | inr installed =>
      _ ← set_state (λ now s, record EventInstalled (PreviousVersion installed) (InstalledVersion installed) "" (install_detail installed)
                                now (settle installed running s));
      persisted ← persist;
      match persisted with
      | Ok _ => mret (inr installed)
      | Err err =>
          let warned := installed <| CleanupWarning := TrimSpace (CleanupWarning installed +:+ "; " +:+ err) |> in
          _ ← set_state (λ _ s, s <| LastInstalled := Some warned |>);
          mret (inr warned)
      end
  end.

(** [manager.Apply]; the choice of [chosen.Artifact] cannot be missing. *)
Definition Apply (version : string) : act (install_error + Installed) :=
  checked ← checkLocked;
  match checked with
  | Err err => mret (inl (ErrOther err))
  | Ok r =>
      match choose r (TrimSpace version) with
      | Err err => mret (inl (ErrOther err))
      | Ok chosen =>
          match EvArtifact chosen with
          | None => mret (inl (ErrOther "nil artifact"))
          | Some artifact =>
              onDisk ← effectiveInstallation;
              answer ← installer (Install parse_url gunzip stamp component keepBackups (EvRelease chosen) artifact (InstVersion onDisk));
              running ← atomic (λ _ m, (m, InstVersion (installation m)));
              conclude (EvVersion chosen) running answer
          end
      end
  end.

(** ** Rolling back *)

(** [manager.Rollback]. *)
Definition pick_backup (backups : list (string * Backup)) (id : string) : result (string * Backup) :=
  match backups with
  | [] => Err "no preserved binary is available to roll back to"
  | newest :: _ =>
      if decide (id = "") then Ok newest
      else match List.find (λ b, bool_decide (BackupID b.2 = id)) backups with
           | Some b => Ok b
           | None => Err "no preserved binary with that identifier"
           end
  end.
Definition Rollback (backupID : string) : act (install_error + Installed) :=
  backups ← installer Backups;
  match backups with
  | Err err => mret (inl (ErrOther err))
  | Ok backups =>
      match pick_backup backups (TrimSpace backupID) with
      | Err err => mret (inl (ErrOther err))
      | Ok target =>
          i ← effectiveInstallation;
          let current := InstVersion i in
          answer ← installer (Installer_Rollback stamp target.1 target.2 current);
          match answer with
          | inl err =>
              let why := match err with ErrNotReady w | ErrBadRelease w | ErrTransient w | ErrOther w => w end in
              _ ← set_state (record EventFailed current (BackupVersion target.2) "ROLLBACK_FAILED" why);
              fails_after (inl err) (inl ∘ ErrOther)
          | inr installed =>
              running ← atomic (λ _ m, (m, InstVersion (installation m)));
              _ ← set_state (λ now s,
                let s := if negb (bool_decide (current = "")) && negb (bool_decide (current = InstalledVersion installed))
                         then blockLocked current "rolled back on this machine" now s else s in
                record EventRolledBack current (InstalledVersion installed) "" (BackupID target.2) now (settle installed running s));
              fails_after (inr installed) (inl ∘ ErrOther)
          end
      end
  end.

(** ** Blocking *)

(** [manager.Block]. *)
Definition Block (version reason : string) : act (result unit) :=
  match ParseVersion version with
  | Err err => mret (Err err)
  | Ok parsed =>
      _ ← set_state (blockLocked (Version_String parsed) (TrimSpace reason));
      persist
  end.

(** [manager.Unblock]. *)
Definition Unblock (version : string) : act (result unit) :=
  match ParseVersion version with
  | Err err => mret (Err err)
  | Ok parsed =>
      removed ← atomic (λ _ m,
        let kept := filter (λ b, BlockedRelease b ≠ Version_String parsed) (Blocked (state m)) in
        if decide (length kept = length (Blocked (state m))) then (m, false) else (m <| state := (state m) <| Blocked := kept |> |>, true));
      if negb removed then mret (Err "version is not blocked") else persist
  end.

(** ** The loop *)

(** [manager.runOnce]. *)
Definition wanted (r : CheckResult) : option Evaluation :=
  match policy with
  | PolicyManual => None
  | PolicyMandatory => SelectMandatory (Evaluations r)
  | PolicyAutomatic => Available r
  end.
Definition runOnce : act unit :=
  checked ← checkLocked;
  match checked with
  | Err _ => mret tt
  | Ok r =>
      match wanted r with
      | None => mret tt
      | Some chosen => _ ← Apply (EvVersion chosen); mret tt
      end
  end.

(** ** Lives of the machine *)

Inductive operation :=
| OpCheck
| OpApply (version : string)
| OpRollback (backupID : string)
| OpBlock (version reason : string)
| OpUnblock (version : string)
| OpRun.

Definition discard {R} (t : act R) : act unit := _ ← t; mret tt.
Definition perform (op : operation) : act unit :=
  match op with
  | OpCheck => discard checkLocked
  | OpApply version => discard (Apply version)
  | OpRollback id => discard (Rollback id)
  | OpBlock version reason => discard (Block version reason)
  | OpUnblock version => discard (Unblock version)
  | OpRun => runOnce
  end.

Fixpoint perform_all (ops : list operation) : act unit :=
  match ops with
  | [] => mret tt
  | op :: rest => _ ← perform op; perform_all rest
  end.

(** One process, which runs the installation it is given, and whatever is
    asked of it until it ends or dies. *)
Record boot := { boots : Installation; interval : Z; asked : list operation; answers : list update_env }.
Definition live (m : machine) (b : boot) : machine :=
  final (alone (manager ← NewManager (boots b) (interval b);
                match manager with
                | Err _ => mret tt
                | Ok _ => perform_all (asked b)
                end) m (answers b)).
End manager.
