(* ===== verification/UpdatesSafe.v ===== *)
(** * Nothing runs that was not trusted and offered

    Over any life of a machine, with any failures and restarts, the binary in
    place is the first one or that of a release that enough trusted keys
    signed, that suited the machine and that it had not blocked. *)
From Stdlib Require Import Ascii.
From S2P Require Import Prelude GoStr Prog Conc Crypto Version Release Update Installer InstallerSafe Updates.

Local Open Scope string_scope.
Local Open Scope list_scope.
Local Open Scope Z_scope.

(** ** Versions *)

Lemma precedes_trans a b c : Precedes a b = true → Precedes b c = true → Precedes a c = true.
Proof.
  pose proof version_ordering as Ho. destruct (Ho) as [_ Hf Ht]. unfold Precedes. rewrite !Z.ltb_lt. intros H1 H2.
  pose proof (Ht a b c ltac:(lia) ltac:(lia)) as H3. destruct (decide (Version_Compare a c = 0)) as [E|E]; [|lia].
  pose proof (ordering_equal _ a c b Ho E) as He. rewrite (Hf b c) in He. lia.
Qed.

Lemma precedes_other a b : Precedes a b = true → SameRelease b a = false.
Proof.
  unfold Precedes, SameRelease. rewrite Z.ltb_lt, Z.eqb_neq, (ordering_flip _ version_ordering a b). lia.
Qed.

Lemma parse_again s v : ParseVersion s = Ok v → ParseVersion (Version_String v) = Ok v.
Proof. intros H. by eapply parse_canonical, ParseVersion_canonical. Qed.

(** ** Blocked versions *)

Definition blocks (v : string) (s : State) : Prop := ∃ b, b ∈ Blocked s ∧ BlockedRelease b = v.

Lemma reblock_keeps version reason now l l' v :
  reblock version reason now l = Some l' → (∃ b, b ∈ l ∧ BlockedRelease b = v) → ∃ b, b ∈ l' ∧ BlockedRelease b = v.
Proof.
  revert l'. induction l as [|x l IH]; intros l' Hr (b & Hb & Hv); [done|]. cbn in Hr. case_decide as Hx.
  - injection Hr as <-. apply elem_of_cons in Hb as [->|Hb]; [|exists b; split; [by right|done]].
    eexists. split; [by left|]. cbn. congruence.
  - destruct (reblock _ _ _ l) as [l2|]; [|done]. injection Hr as <-. apply elem_of_cons in Hb as [->|Hb].
    + exists x. split; [by left|done].
    + destruct (IH l2 eq_refl) as (b' & ? & ?); [by exists b|]. exists b'. split; [by right|done].
Qed.

Lemma reblock_adds version reason now l l' : reblock version reason now l = Some l' → ∃ b, b ∈ l' ∧ BlockedRelease b = version.
Proof.
  revert l'. induction l as [|x l IH]; intros l' Hr; [done|]. cbn in Hr. case_decide as Hx.
  - injection Hr as <-. eexists. split; [by left|done].
  - destruct (reblock _ _ _ l) as [l2|]; [|done]. injection Hr as <-. destruct (IH l2 eq_refl) as (b & ? & ?). exists b. split; [by right|done].
Qed.

Lemma blockLocked_keeps version reason now s v : blocks v s → blocks v (blockLocked version reason now s).
Proof.
  intros Hv. unfold blockLocked. case_decide; [done|]. cbv zeta. unfold blocks.
  cbn. destruct (reblock _ _ _ _) as [l|] eqn:Hr; [by eapply reblock_keeps|].
  destruct Hv as (b & Hb & Hv). exists b. split; [|done]. cbn. rewrite merge_sort_Permutation. set_solver.
Qed.

Lemma blockLocked_adds version reason now s : version ≠ "" → blocks version (blockLocked version reason now s).
Proof.
  intros Hne. unfold blockLocked. rewrite decide_False by done. cbv zeta. unfold blocks. cbn.
  destruct (reblock _ _ _ _) as [l|] eqn:Hr; [by eapply reblock_adds|]. eexists. rewrite merge_sort_Permutation.
  split; [apply elem_of_app; right; by left|done].
Qed.

(** What is blocked is not applicable. *)
Lemma applyBlocks_elem s l e :
  e ∈ applyBlocks s l → Applicable e = true → e ∈ l ∧ ¬ blocks (EvVersion e) s.
Proof.
  unfold applyBlocks. intros (x & -> & Hx)%list_elem_of_fmap. destruct (List.find _ _) as [b|] eqn:Hf.
  - destruct (Applicable x) eqn:Ha; [by intros|]. by rewrite Ha.
  - intros _. split; [done|]. intros (b & Hb & Hv). assert (In b (rev (Blocked s))) as Hin.
    { apply in_rev. rewrite rev_involutive. by apply list_elem_of_In. }
    apply (find_none _ _ Hf) in Hin. by apply bool_decide_eq_false in Hin.
Qed.

(** An installation that succeeds says which version it installed. *)
Lemma Install_says `{HC : !Crypto} parse_url gunzip stamp component keepBackups r a current :
  yields (Install parse_url gunzip stamp component keepBackups r a current) (λ answer, ∀ i, answer = inr i →
    ∃ v, ParseVersion (ReleaseVersion r) = Ok v ∧ InstalledVersion i = Version_String v).
Proof.
  unfold Install. destruct (ParseVersion _) as [v|]; [|done]. destruct (negb _); [done|]. destruct (Artifact_Validate _ _); [|done].
  apply yields_skip. intros []; [|done]. cbn [negb]. unfold in_staging. apply yields_skip. intros [?|]; [|done].
  eapply yields_bind; [|intros x Hx; apply yields_skip; intros ?; apply yields_ret; exact Hx].
  apply yields_skip. intros [err|?]; [done|]. apply yields_skip. intros [said|]; [|done]. destruct (negb _); [done|]. unfold commit_staged.
  apply yields_skip. intros []; [|done]. cbn [negb]. apply yields_skip. intros [backup|]; [|done]. apply yields_skip. intros [?|]; [|done].
  do 2 (apply yields_skip; intros ?). apply yields_ret. intros i [= <-]. by exists v.
Qed.

Section manager.
Context `{HC : !Crypto}.
Context (ToLower : string → string) (parse_url : string → result artifact_url) (encode_release : Release → bytes)
        (key_verifies : string → bytes → bytes → bool) (EqualFold : string → string → bool)
        (gunzip : bytes → result bytes) (stamp : Z → string) (component : string) (keepBackups : nat) (ring : KeyRing)
        (policy : Policy).

#[local] Abbreviation suits := (suits ToLower encode_release key_verifies EqualFold).
#[local] Abbreviation Evaluate := (Evaluate ToLower parse_url encode_release key_verifies EqualFold).
#[local] Abbreviation checkLocked_ := (checkLocked ToLower parse_url encode_release key_verifies EqualFold ring).
#[local] Abbreviation Apply_ := (Apply ToLower parse_url encode_release key_verifies EqualFold gunzip stamp component keepBackups ring).
#[local] Abbreviation Rollback_ := (Rollback stamp).

(** ** What may be installed *)

(** [i] is what the process [b] takes its machine for: the installation it was
    started with, with the protocol version that its peer reported to it and
    with the version that it has installed already when that is a newer one. *)
Definition machine_of (b : boot) (i : Installation) : Prop :=
  ∃ m e, Installation_Validate ToLower (boots b) = Ok (installation m) ∧ e ∈ answers b ∧
    Installation_Validate ToLower (effective (peer e) m) = Ok i.

(** [d] is the digest of the binary of a release that a feed served to one of
    the processes of the life, that suited the machine of this process at a
    reading of its clock and is none of the versions [B].  It is newer than
    what the process was started as, unless downgrades are allowed. *)
Definition offered (life : list boot) (B : string → Prop) (d : string) : Prop :=
  ∃ b e e' f f' i installed signed v a, b ∈ life ∧ e ∈ answers b ∧ served e = Ok f ∧ Feed_Validate ToLower parse_url f = Ok f' ∧
    machine_of b i ∧ ParseVersion (InstVersion i) = Ok installed ∧ e' ∈ answers b ∧
    signed ∈ Releases f' ∧ suits f' i installed ring (clock (disk e')) signed v a ∧ ¬ B (ReleaseVersion (SignedOf signed)) ∧
    (AllowDowngrade (boots b) = false → ∃ running, ParseVersion (InstVersion (boots b)) = Ok running ∧ Precedes running v = true) ∧
    BinarySHA256 a = d.

Lemma validated_installation i i' :
  Installation_Validate ToLower i = Ok i' →
  ∃ v, ParseVersion (InstVersion i) = Ok v ∧ InstVersion i' = Version_String v ∧ AllowDowngrade i' = AllowDowngrade i.
Proof.
  unfold Installation_Validate. cbv zeta. intros H. do 2 apply bind_ok in H as (_ & _ & H). apply bind_ok in H as (v & Hv & H).
  do 4 apply bind_ok in H as (_ & _ & H). apply Ok_inj in H as <-. by exists v.
Qed.

(** What is applicable is newer than the installation it was judged against. *)
Lemma evaluated_newer f i now evaluations e v :
  ParseVersion (InstVersion i) = Ok v → AllowDowngrade i = false → Evaluate f i ring now = Ok evaluations →
  e ∈ evaluations → Applicable e = true → ∃ w, ParseVersion (EvVersion e) = Ok w ∧ Precedes v w = true.
Proof.
  intros Hv Hno H Hin Happ. unfold Update.Evaluate in H. apply bind_ok in H as (f' & Hf' & H).
  apply bind_ok in H as (i' & Hi & H). apply bind_ok in H as (installed & Hins & H). apply Ok_inj in H as <-.
  apply judged_elem in Hin as (signed & Hin & ->). destruct (applicable_suits _ _ _ _ _ _ _ _ _ _ Happ) as (w & a & Hs & _).
  destruct (evaluate_fields ToLower encode_release key_verifies EqualFold f' signed i' installed ring now) as (-> & _).
  exists w. split; [apply Hs|]. apply validated_installation in Hi as (v' & Hv' & Hi' & Ha).
  assert (v' = v) as -> by congruence. rewrite Hi', (parse_again _ _ Hv) in Hins. injection Hins as <-.
  apply (suits_newer _ _ _ _ _ _ _ _ _ _ _ _ Hs). congruence.
Qed.

Section life.
Context (life : list boot) (B : string → Prop) (D0 : string → Prop).

Definition known (d : string) : Prop := D0 d ∨ offered life B d.

(** What holds between two processes, and while one runs. *)
Definition durable (m : machine) : Prop :=
  sound known (fs m) ∧ ∀ v, B v → ∃ s, stored m = Some s ∧ blocks v s.

Section process.
Context (b : boot) (Hb : b ∈ life).
Context (Hun : ∀ version parsed, OpUnblock version ∈ asked b → ParseVersion version = Ok parsed → ¬ B (Version_String parsed)).

Definition managed (m : machine) : Prop :=
  (∀ v, B v → ∃ s, stored m = Some s ∧ blocks v s) ∧ (∀ v, B v → blocks v (state m)) ∧
  Installation_Validate ToLower (boots b) = Ok (installation m).
Definition running_well (m : machine) : Prop := managed m ∧ sound known (fs m).

#[local] Abbreviation triple_ P t Q C := (triple (λ e, e ∈ answers b) P (alone t) Q C).
#[local] Abbreviation keeps t := (triple_ running_well t (λ _, running_well) running_well).

Lemma set_state_keeps f : (∀ now s v, B v → blocks v s → blocks v (f now s)) → keeps (set_state f).
Proof.
  intros Hf. apply alone_atomic; [done|]. intros e m _ [(Hs & Hm & Hi) Hd]. split; [|done]. split_and!; [done| |done].
  intros v Hv. by apply Hf, Hm.
Qed.

Lemma persist_keeps : keeps persist.
Proof.
  apply alone_atomic; [done|]. intros e m _ [(Hs & Hm & Hi) Hd]. cbn. destruct (_ || _); (split; [|done]); split_and!; try done.
  intros v Hv. eexists. split; [done|]. by apply Hm.
Qed.

Lemma fails_keeps {R} (err : R) other : keeps (fails_after err other).
Proof. apply alone_report, persist_keeps. Qed.

Lemma read_keeps {R} (f : update_env → machine → R) : keeps (atomic (λ e m, (m, f e m))).
Proof. by apply alone_atomic. Qed.

Lemma installer_keeps {R} (t : thread files disk_env R) :
  triple (λ _, True) (sound known) (alone t) (λ _, sound known) (sound known) → keeps (installer t).
Proof.
  intros Ht. by apply (zoom_triple fs (λ x m, m <| fs := x |>) disk (λ e, e ∈ answers b) (λ _, True) managed t (sound known) (λ _, sound known) (sound known)).
Qed.

(** ** The installation that releases are judged against *)

(** [i] is no older than what the process runs. *)
Definition reaches (i : Installation) : Prop :=
  AllowDowngrade i = AllowDowngrade (boots b) ∧
  ∃ running w, ParseVersion (InstVersion (boots b)) = Ok running ∧ ParseVersion (InstVersion i) = Ok w ∧
    (w = running ∨ Precedes running w = true).

Lemma effective_reaches p m : Installation_Validate ToLower (boots b) = Ok (installation m) → reaches (effective p m).
Proof.
  intros (v & Hv & Hi & Ha)%validated_installation. unfold effective. cbv zeta.
  set (i := if 0 <? p then _ else _). assert (InstVersion i = Version_String v ∧ AllowDowngrade i = AllowDowngrade (boots b)) as [Hi' Ha'].
  { subst i. by destruct (0 <? p). }
  assert (reaches i) as Hr.
  { split; [done|]. exists v, v. split_and!; [done| |by left]. rewrite Hi'. by eapply parse_again. }
  case_decide; [done|]. rewrite Hi', (parse_again _ v Hv). destruct (ParseVersion (Updates.PendingVersion _)) as [w|] eqn:Hw; [|done].
  destruct (Precedes v w) eqn:Hp; [|done]. split; [done|]. exists v, w. split_and!; [done| |by right]. cbn. by eapply parse_again.
Qed.

(** ** Checking *)

(** What the manager may install of a list of evaluations. *)
Definition newer (version : string) : Prop :=
  AllowDowngrade (boots b) = false →
  ∃ running v, ParseVersion (InstVersion (boots b)) = Ok running ∧ ParseVersion version = Ok v ∧ Precedes running v = true.
Definition cleared (e : Evaluation) : Prop :=
  ∀ a, Applicable e = true → EvArtifact e = Some a → known (BinarySHA256 a) ∧ newer (ReleaseVersion (EvRelease e)).

Lemma evaluation_cleared e e1 e2 f m evaluations s :
  e ∈ answers b → served e = Ok f → Installation_Validate ToLower (boots b) = Ok (installation m) →
  e1 ∈ answers b → e2 ∈ answers b → Evaluate f (effective (peer e1) m) ring (clock (disk e2)) = Ok evaluations →
  (∀ v, B v → blocks v s) → Forall cleared (applyBlocks s evaluations).
Proof.
  intros He Hf Hm He1 He2 H Hbl. destruct (effective_reaches (peer e1) m Hm) as (Hdown & running & w & Hrun & Hw & Hle). unfold Update.Evaluate in H. apply bind_ok in H as (f' & Hf' & H).
  apply bind_ok in H as (i' & Hi & H). apply bind_ok in H as (installed & Hv & H). apply Ok_inj in H as <-.
  apply Forall_forall. intros x Hx a Happ Ha. apply applyBlocks_elem in Hx as [Hx Hnb]; [|done].
  apply judged_elem in Hx as (signed & Hin & ->). destruct (applicable_suits _ _ _ _ _ _ _ _ _ _ Happ) as (v & a' & Hs & Ha').
  destruct (evaluate_fields ToLower encode_release key_verifies EqualFold f' signed i' installed ring (clock (disk e2))) as (Hver & _ & Hrel).
  assert (a' = a) as -> by congruence. pose proof (suits_version _ _ _ _ _ _ _ _ _ _ _ _ Hs) as Hsv.
  assert (AllowDowngrade (boots b) = false → Precedes running v = true) as Hnew.
  { intros Hno. destruct (validated_installation _ _ Hi) as (w' & Hw' & Hi' & Ha2).
    assert (w' = w) as -> by congruence. rewrite Hi', (parse_again _ _ Hw) in Hv. injection Hv as <-.
    assert (Precedes w v = true) as Hp by (apply (suits_newer _ _ _ _ _ _ _ _ _ _ _ _ Hs); congruence).
    destruct Hle as [->|Hle]; [done|]. by eapply precedes_trans. }
  split; [|intros Hno; exists running, v; rewrite Hrel; auto].
  right. exists b, e, e2, f, f', i', installed, signed, v, a. split_and!; try done; [by exists m, e1| |eauto].
  intros Hbad. apply Hnb. rewrite Hver. by apply Hbl.
Qed.

Definition check_ok (r : result CheckResult) : Prop :=
  ∀ c, r = Ok c → Forall cleared (Evaluations c) ∧ Available c = Select (Evaluations c).

Lemma check_keeps : triple_ running_well checkLocked_ (λ r m, running_well m ∧ check_ok r) running_well.
Proof.
  assert (∀ err f, (∀ now s v, B v → blocks v s → blocks v (f now s)) →
    triple_ running_well (_ ← set_state f; fails_after (Err err) Err) (λ r m, running_well m ∧ check_ok r) running_well) as Hfail.
  { intros err f Hf. eapply alone_bind; [by apply set_state_keeps|]. intros ?. eapply alone_bind; [apply persist_keeps|].
    intros p. apply alone_ret. intros m Hm. split; [done|]. intros c. by destruct p. }
  unfold checkLocked. eapply (alone_bind _ _ _ _ (λ now m, (∃ e, e ∈ answers b ∧ now = clock (disk e)) ∧ running_well m)).
  { apply alone_atomic; [done|]. intros e m He Hm. split; [by exists e|done]. }
  intros now. apply triple_pure. intros (e2 & He2 & ->).
  eapply (alone_bind _ _ _ _ (λ r m, (∀ f, r = Ok f → ∃ e, e ∈ answers b ∧ served e = Ok f) ∧ running_well m)).
  { apply alone_atomic; [done|]. intros e m He Hm. split; [|done]. intros f Hf. by exists e. }
  intros [f|err]; [|apply (triple_pre _ _ running_well); [by intros m []|by apply Hfail]].
  apply triple_pure. intros Hserved. destruct (Hserved f eq_refl) as (e & He & Hf). clear Hserved.
  eapply (alone_bind _ _ _ _ (λ i m, (∃ e1 m1, e1 ∈ answers b ∧ Installation_Validate ToLower (boots b) = Ok (installation m1) ∧
    i = effective (peer e1) m1) ∧ running_well m)).
  { apply alone_atomic; [done|]. intros e' m He' Hm. split; [|done]. exists e', m. split_and!; [done|apply Hm|done]. }
  intros i. apply triple_pure. intros (e1 & m1 & He1 & Hm1 & ->). destruct (Evaluate f _ ring _) as [evaluations|err] eqn:Hev; [|by apply Hfail].
  eapply (alone_bind _ _ _ _ (λ c m, (Forall cleared (Evaluations c) ∧ Available c = Select (Evaluations c)) ∧ running_well m)).
  { apply alone_atomic; [done|]. intros e' m _ Hm. split; [|done]. split; [|done]. apply (evaluation_cleared e e1 e2 f m1); try done. apply Hm. }
  intros c. apply triple_pure. intros Hc. eapply alone_bind; [by apply set_state_keeps|]. intros ?.
  eapply alone_bind; [apply persist_keeps|]. intros [?|]; [|by apply alone_ret].
  eapply (alone_bind _ _ _ _ (λ _, running_well)); [by apply alone_atomic|]. intros _. apply alone_ret. intros m Hm. split; [done|].
  by intros ? [= <-].
Qed.

Lemma check_keeps' : keeps checkLocked_.
Proof. eapply triple_post; [|apply check_keeps]. by intros r m []. Qed.

(** ** Installing *)

Lemma choose_elem c version e :
  Available c = Select (Evaluations c) → choose c version = Ok e → e ∈ Evaluations c ∧ Applicable e = true.
Proof.
  intros Hav. unfold choose. case_decide as Hempty.
  - rewrite Hav. unfold Select. destruct (head _) as [x|] eqn:Hh; [|done]. intros [= ->].
    assert (e ∈ filter (λ e, Applicable e = true) (Evaluations c)) as Hin by (destruct (filter _ _); [done|]; injection Hh as ->; by left).
    by apply list_elem_of_filter in Hin as [? ?].
  - intros (requested & _ & H)%bind_ok. clear Hav. induction (Evaluations c) as [|x l IH]; [done|]. cbn in H.
    destruct (ParseVersion _) as [v|]; [|split; [right|]; by apply IH]. destruct (SameRelease v requested); [|split; [right|]; by apply IH].
    destruct (Applicable x) eqn:Ha; [|done]. injection H as ->. split; [by left|done].
Qed.

Lemma conclude_keeps chosen running answer : keeps (conclude chosen running answer).
Proof.
  destruct answer as [[]|i]; cbn [conclude].
  1-4: eapply alone_bind; [apply set_state_keeps|intros ?; apply fails_keeps]; intros now s v _ ?; try done; by apply blockLocked_keeps.
  eapply alone_bind; [by apply set_state_keeps|]. intros ?. eapply alone_bind; [apply persist_keeps|]. intros [?|]; [by apply alone_ret|].
  eapply alone_bind; [by apply set_state_keeps|]. intros ?. by apply alone_ret.
Qed.

Lemma conclude_fails chosen running err : yields (conclude chosen running (inl err)) (λ r, ∀ i, r ≠ inr i).
Proof.
  destruct err; cbn [conclude]; apply yields_skip; intros ?; unfold fails_after; apply yields_skip; intros []; by apply yields_ret.
Qed.

(** After an installation the manager holds its version for installed. *)
Definition ahead (i : Installed) (m : machine) : Prop :=
  AllowDowngrade (boots b) = false →
  ∃ v, ParseVersion (InstalledVersion i) = Ok v ∧ ∀ p, ParseVersion (InstVersion (effective p m)) = Ok v.

Lemma pending_ahead v running m :
  Installation_Validate ToLower (boots b) = Ok (installation m) → ParseVersion (InstVersion (boots b)) = Ok running →
  ParseVersion (Version_String v) = Ok v → Precedes running v = true → PendingVersion (state m) = Version_String v →
  ∀ p, ParseVersion (InstVersion (effective p m)) = Ok v.
Proof.
  intros (w & Hw & Hi & _)%validated_installation Hr Hv Hlt Hpend p. assert (w = running) as -> by congruence.
  unfold effective. cbv zeta. rewrite Hpend, decide_False.
  - assert (InstVersion (if 0 <? p then (installation m) <| Update.PeerProtocolVersion := p |> else installation m) = Version_String running) as ->.
    { by destruct (0 <? p). }
    by rewrite (parse_again _ _ Hr), Hv, Hlt.
  - intros E. rewrite E in Hv. vm_compute in Hv. discriminate Hv.
Qed.

Lemma conclude_settles chosen v running i :
  (AllowDowngrade (boots b) = false → ∃ r, ParseVersion (InstVersion (boots b)) = Ok r ∧ Precedes r v = true) →
  ParseVersion (Version_String v) = Ok v →
  InstalledVersion i = Version_String v →
  triple_ (λ m, running = InstVersion (installation m) ∧ running_well m) (conclude chosen running (inr i))
    (λ r m, running_well m ∧ ∀ i, r = inr i → ahead i m) running_well.
Proof.
  intros Hnew Hv Hans. cbn [conclude]. set (P := λ m, running_well m ∧ (AllowDowngrade (boots b) = false → PendingVersion (state m) = Version_String v)).
  assert (∀ j m, InstalledVersion j = Version_String v → P m → running_well m ∧ ∀ i, @inr install_error _ j = inr i → ahead i m) as Hdone.
  { intros j m Hj [Hm Hp]. split; [done|]. intros ? [= <-] Hno. destruct (Hnew Hno) as (r & Hr & Hlt). exists v. rewrite Hj. split; [done|].
    destruct Hm as [(_ & _ & Hi) _]. eapply pending_ahead; eauto. }
  eapply (alone_bind _ _ _ _ (λ _, P)).
  { apply alone_atomic; [by intros m []|]. intros e m _ [-> [(Hs & Hm & Hi) Hd]]. split; [by split|]. intros Hno. cbn.
    destruct (Hnew Hno) as (r & Hr & Hlt). destruct (validated_installation _ _ Hi) as (w & Hw & -> & _).
    assert (w = r) as -> by congruence. unfold sameVersion. by rewrite Hans, Hv, (parse_again _ _ Hr), precedes_other. }
  intros _. eapply (alone_bind _ _ _ _ (λ _, P)).
  { apply alone_atomic; [by intros m []|]. intros e m _ [[(Hs & Hm & Hi) Hd] Hp]. cbn. destruct (_ || _); (split; [split; [split_and!; try done|done]|done]).
    intros w Hw. eexists. split; [done|]. by apply Hm. }
  intros [?|]; [apply alone_ret; intros m ?; by apply Hdone|]. cbv zeta.
  eapply (alone_bind _ _ _ _ (λ _, P)); [|intros _; apply alone_ret; intros m ?; by apply Hdone].
  apply alone_atomic; [by intros m []|]. intros env m _ [[(Hs & Hm & Hi) Hd] Hp]. by split.
Qed.

Lemma apply_settles version : triple_ running_well (Apply_ version) (λ r m, running_well m ∧ ∀ i, r = inr i → ahead i m) running_well.
Proof.
  unfold Apply. eapply alone_bind; [apply check_keeps|]. intros [c|]; cbv beta; [|by apply alone_ret; intros m []].
  apply (triple_pre _ _ (λ m, check_ok (Ok c) ∧ running_well m)); [by intros m []|]. apply triple_pure. intros Hc.
  destruct (Hc c eq_refl) as [Hall Hav]. destruct (choose c _) as [chosen|] eqn:Hch; [|by apply alone_ret].
  destruct (choose_elem _ _ _ Hav Hch) as [Hin Happ]. destruct (EvArtifact chosen) as [a|] eqn:Ha; [|by apply alone_ret].
  rewrite Forall_forall in Hall. destruct (Hall _ Hin a Happ Ha) as [Hk Hnew]. eapply alone_bind; [apply read_keeps|]. intros onDisk.
  eapply alone_bind; [eapply yields_triple; [apply yields_zoom, Install_says|by apply installer_keeps, Install_sound]|]. intros answer.
  apply triple_pure. intros Hsays.
  eapply (alone_bind _ _ _ _ (λ running m, running = InstVersion (installation m) ∧ running_well m)); [by apply alone_atomic|]. intros running.
  assert (∀ v, ParseVersion (ReleaseVersion (EvRelease chosen)) = Ok v → AllowDowngrade (boots b) = false →
    ∃ r, ParseVersion (InstVersion (boots b)) = Ok r ∧ Precedes r v = true) as Hlt.
  { intros v Hv Hno. destruct (Hnew Hno) as (r & w & Hr & Hw & ?). exists r. split; [done|]. by assert (w = v) as <- by congruence. }
  destruct answer as [err|i].
  - eapply triple_conseq; [eapply yields_triple; [apply conclude_fails|apply conclude_keeps]|by intros m []| |done].
    intros r m [Hr Hm]. split; [done|]. intros i Hi. by destruct (Hr i).
  - destruct (Hsays i eq_refl) as (v & Hv & Hi). eapply conclude_settles; [by apply Hlt|by eapply parse_again|done].
Qed.

Lemma apply_keeps version : keeps (Apply_ version).
Proof. eapply triple_post; [|apply apply_settles]. by intros r m []. Qed.

Lemma backups_known :
  triple_ running_well (installer Backups) (λ r m, running_well m ∧ ∀ l, r = Ok l → Forall (λ x, known (BackupSHA256 x.2)) l) running_well.
Proof.
  eapply triple_conseq; [apply (zoom_triple fs (λ x m, m <| fs := x |>) disk (λ e, e ∈ answers b) (λ _, True) managed Backups
    (sound known) (λ r s, sound known s ∧ ∀ l, r = Ok l → Forall (λ x, known (BackupSHA256 x.2)) l) (sound known)); try done|done| |done].
  - apply alone_atomic; [done|]. intros e s _ Hs. split; [done|]. intros l. cbn [snd]. destruct (works e); [|done]. intros [= E]. symmetry in E.
    destruct (listed_spec s e l E) as (_ & _ & Hin). apply Forall_forall. intros x Hx. destruct (Hin x Hx) as (d & Hd & Hm). by eapply Hs.
  - intros r m (? & ? & ?). done.
Qed.

Lemma pick_elem l id x : pick_backup l id = Ok x → x ∈ l.
Proof.
  unfold pick_backup. destruct l as [|y l]; [done|]. case_decide; [intros [= ->]; by left|].
  destruct (List.find _ _) as [z|] eqn:Hf; [|done]. intros [= ->]. apply find_some in Hf as [Hf _]. by apply list_elem_of_In.
Qed.

Lemma rollback_keeps id : keeps (Rollback_ id).
Proof.
  unfold Rollback. eapply alone_bind; [apply backups_known|]. intros [l|]; cbv beta; [|by apply alone_ret; intros m []].
  apply (triple_pre _ _ (λ m, Forall (λ x, known (BackupSHA256 x.2)) l ∧ running_well m)); [intros m [? H]; split; [by apply H|done]|].
  apply triple_pure. intros Hl. destruct (pick_backup l _) as [target|] eqn:Hp; [|by apply alone_ret].
  apply pick_elem in Hp. rewrite Forall_forall in Hl. specialize (Hl _ Hp). eapply alone_bind; [apply read_keeps|]. intros i. cbv beta zeta.
  eapply alone_bind; [by apply installer_keeps, Rollback_sound|]. intros [err|installed].
  - eapply alone_bind; [by apply set_state_keeps|]. intros ?. apply fails_keeps.
  - eapply alone_bind; [apply read_keeps|]. intros running. eapply alone_bind; [apply set_state_keeps|intros ?; apply fails_keeps].
    intros now s v _ Hv. destruct (negb _ && negb _); [|done]. by apply (blockLocked_keeps (InstVersion i) "rolled back on this machine" now s v).
Qed.

Lemma discard_keeps {R} (t : thread machine update_env R) : keeps t → keeps (discard t).
Proof. apply alone_report. Qed.

Lemma block_keeps version reason : keeps (Block version reason).
Proof.
  unfold Block. destruct (ParseVersion version) as [v|]; [|by apply alone_ret]. eapply alone_bind; [|intros ?; apply persist_keeps].
  apply set_state_keeps. intros. by apply blockLocked_keeps.
Qed.

Lemma unblock_keeps version : (∀ v, ParseVersion version = Ok v → ¬ B (Version_String v)) → keeps (Unblock version).
Proof.
  intros Hv. unfold Unblock. destruct (ParseVersion version) as [v|]; [|by apply alone_ret]. specialize (Hv v eq_refl).
  eapply (alone_bind _ _ _ _ (λ _, running_well)); [|intros []; [apply persist_keeps|by apply alone_ret]].
  apply alone_atomic; [done|]. intros e m _ [(Hs & Hm & Hi) Hd]. case_decide; [done|]. split; [|done]. split_and!; [done| |done].
  intros w Hw. destruct (Hm w Hw) as (x & Hx & <-). exists x. split; [|done]. cbn. apply list_elem_of_filter. split; [|done]. congruence.
Qed.

Lemma run_keeps : keeps (runOnce ToLower parse_url encode_release key_verifies EqualFold gunzip stamp component keepBackups ring policy).
Proof.
  unfold runOnce. eapply alone_bind; [apply check_keeps|]. intros [c|]; cbv beta; [|by apply alone_ret; intros m []].
  apply (triple_pre _ _ running_well); [by intros m []|]. destruct (wanted policy c); [|by apply alone_ret]. apply alone_report, apply_keeps.
Qed.

Lemma perform_keeps ops :
  (∀ op, op ∈ ops → op ∈ asked b) →
  keeps (perform_all ToLower parse_url encode_release key_verifies EqualFold gunzip stamp component keepBackups ring policy ops).
Proof.
  induction ops as [|op ops IH]; intros Hops; cbn [perform_all]; [by apply alone_ret|].
  eapply alone_bind; [|intros ?; apply IH; intros; apply Hops; by right]. assert (op ∈ asked b) as Hop by (apply Hops; by left).
  destruct op; cbn [perform]; try apply discard_keeps; [apply check_keeps'|apply apply_keeps|apply rollback_keeps|apply block_keeps| |apply run_keeps].
  apply unblock_keeps. intros v Hv. by eapply Hun.
Qed.

(** ** Starting *)

Lemma load_spec :
  triple_ (λ m, durable m ∧ Installation_Validate ToLower (boots b) = Ok (installation m)) load
    (λ r m, if is_ok r then running_well m else durable m) durable.
Proof.
  apply alone_atomic; [by intros m []|]. intros e m _ [[Hd Hs] Hi]. destruct (works (disk e)); cbn [negb]; [|done].
  destruct (stored m) as [s|] eqn:Hst; rewrite <- Hst in Hs; cbn [fst snd is_ok].
  - destruct (negb (bool_decide (SchemaVersion s = _))); [by split|].
    destruct (negb (bool_decide (StateComponent s = "")) && _); [by split|]. cbn. split; [|done].
    split_and!; [done| |done]. intros v Hv. destruct (Hs v Hv) as (s' & Hs' & Hbl). assert (s' = s) as -> by congruence. by destruct (negb _ && _).
  - split; [|done]. split_and!; [done| |done]. intros v Hv. destruct (Hs v Hv) as (? & ? & _). congruence.
Qed.

Lemma live_durable m :
  durable m → durable (live ToLower parse_url encode_release key_verifies EqualFold gunzip stamp component keepBackups ring policy m b).
Proof.
  intros Hm. unfold live. match goal with |- durable (final (alone ?t m _)) => assert (triple_ durable t (λ _, durable) durable) as Ht end.
  - assert (∀ m, running_well m → durable m) as Hw by (intros m' [(? & _) ?]; done).
    eapply (alone_bind _ _ _ _ (λ r m, if is_ok r then running_well m else durable m)).
    + unfold NewManager. destruct (Installation_Validate ToLower (boots b)) as [i|] eqn:Hi; [|by apply alone_ret].
      destruct (negb _); [by apply alone_ret|]. cbv zeta. destruct (_ <? MinimumCheckInterval); [by apply alone_ret|].
      eapply (alone_bind _ _ _ _ (λ _ m, durable m ∧ Installation_Validate ToLower (boots b) = Ok (installation m))); [by apply alone_atomic|].
      intros ?. eapply alone_bind; [apply load_spec|]. intros r. apply alone_ret. intros m' Hm'. by destruct r.
    + intros [?|]; cbn [is_ok]; [|by apply alone_ret]. eapply triple_conseq; [by apply perform_keeps|done|..]; auto.
  - specialize (Ht m (answers b)). destruct (alone _ m _) as [[[?|] m'] rest]; apply Ht; try done; by apply Forall_forall.
Qed.
End process.

(** C12.  Nothing runs that was not trusted and offered.  Over any life of a
    machine (processes that start, check, install, roll back, block and
    unblock, fail and die at any point), the binary in place has a digest of
    [D0], which holds of the binary and of every backup that were there at the
    start, or that of the binary of a release that a feed served to one of the
    processes, that enough trusted keys signed, that suited the machine of this
    very process (its channel, platform, installed version, upgrade path, the
    protocol of its peer, schemas, rollout, not withdrawn) at a reading of its
    clock, and that is none of the versions that were blocked at the start and
    that no process unblocks.  Unless the process allows downgrades the release
    is newer than the version it was started as.  A roll back brings back
    nothing else. *)
Theorem update_trusted m0 :
  sound D0 (fs m0) → (∀ v, B v → ∃ s, stored m0 = Some s ∧ blocks v s) →
  (∀ b version parsed, b ∈ life → OpUnblock version ∈ asked b → ParseVersion version = Ok parsed → ¬ B (Version_String parsed)) →
  ∀ x, executable (fs (foldl (live ToLower parse_url encode_release key_verifies EqualFold gunzip stamp component keepBackups ring policy) m0 life)) = Some x →
    D0 (digest_of x) ∨ offered life B (digest_of x).
Proof.
  intros Hs Hbl Hun x. assert (durable m0) as Hd.
  { split; [|done]. split; intros; left; [by apply Hs|]. by eapply Hs. }
  assert (∀ rest, (∀ b, b ∈ rest → b ∈ life) → ∀ m, durable m → durable (foldl (live ToLower parse_url encode_release key_verifies EqualFold gunzip
    stamp component keepBackups ring policy) m rest)) as Hall.
  { induction rest as [|b rest IH]; intros Hin m Hm; [done|]. cbn. apply IH; [intros; apply Hin; by right|].
    apply live_durable; [apply Hin; by left|..|done]. intros. eapply Hun; [apply Hin; by left|done..]. }
  intros Hx. destruct (Hall life (λ _ H, H) m0 Hd) as [[He _] _]. by apply He.
Qed.
End life.

(** The release of [e] is newer than what was installed. *)
Definition outruns (e : Evaluation) (i : Installed) : Prop :=
  ∃ v w, ParseVersion (InstalledVersion i) = Ok v ∧ ParseVersion (EvVersion e) = Ok w ∧ Precedes v w = true.

(** No release is installed twice.  Once a process has installed a
    release, everything that it finds applicable afterwards, in any feed, is
    newer than what it installed, although it still runs the old version. *)
Theorem installed_once b m es version i p f now evaluations e :
  AllowDowngrade (boots b) = false → Installation_Validate ToLower (boots b) = Ok (installation m) →
  Forall (λ e, e ∈ answers b) es →
  let run := alone (Apply_ version) m es in
  returned run = Some (inr i) →
  Evaluate f (effective p (final run)) ring now = Ok evaluations → e ∈ evaluations → Applicable e = true → outruns e i.
Proof.
  intros Hno Hi Hes run Hret. pose proof (apply_settles [b] (λ _, False) (λ _, True) b ltac:(by left) version m es Hes) as H. fold run in H.
  unfold final, returned in *. destruct run as [[[r|] m'] es']; cbn in *; [|done]. injection Hret as ->.
  destruct H as [[[(_ & _ & Hi') _] Hahead] _]; [by split; [split_and!|split; intros; left]|].
  destruct (Hahead i eq_refl Hno) as (v & Hv & Heff). intros Hev Hin Happ. exists v.
  destruct (evaluated_newer f (effective p m') now evaluations e v (Heff p)) as (w & Hw & Hlt); [|done..|by exists w].
  destruct (effective_reaches b p m' Hi') as [-> _]. done.
Qed.
End manager.

(** ** Witnesses *)

#[local] Existing Instance toy_crypto.

Definition demo_reports (v : Version) (ok : bool) : update_env :=
  {| disk := {| works := ok; leaves := None; replaced := false; clock := 5 * second; ready := true; reported := Ok v;
                fetched := demo_binary; delivered := Delivered; readable := λ _, true |};
     served := Ok demo_feed; peer := 0 |}.
Definition demo_minor (n : Z) : Version := {| Major := 1; Minor := n; Patch := 0; PreRelease := ""; Build := "" |}.
Definition demo_state (blocked : list string) : State :=
  {| SchemaVersion := 1; StateComponent := "agent"; LastCheckedAt := None; LastCheckError := ""; LastInstalled := None; PendingVersion := "";
     Blocked := (λ v, {| BlockedRelease := v; BlockedAt := 1; BlockedReason := "broken" |}) <$> blocked; History := [] |}.
Definition demo_machine (blocked : list string) : machine :=
  {| fs := demo_files; stored := Some (demo_state blocked); installation := demo_installation; state := demo_state []; lastCheck := None |}.
Definition demo_boot (ops : list operation) (es : list update_env) : boot :=
  {| boots := demo_installation; interval := 0; asked := ops; answers := es |}.

#[local] Abbreviation demo_live :=
  (live (λ s, s) demo_url (λ _, []) demo_verifies String.eqb (λ _, Err "gzip") demo_stamp "agent" 3 demo_usable PolicyAutomatic).

Lemma update_trusted_witness :
  let m := foldl demo_live (demo_machine ["1.10.0"]) [demo_boot [OpRun] (replicate 60 (demo_reports (demo_minor 2) true))] in
  executable (fs m) = Some demo_binary ∧
  offered (λ s, s) demo_url (λ _, []) demo_verifies String.eqb demo_usable
    [demo_boot [OpRun] (replicate 60 (demo_reports (demo_minor 2) true))] (λ v, v = "1.10.0") (digest_of demo_binary).
Proof.
  cbv zeta. assert (executable (fs (foldl demo_live (demo_machine ["1.10.0"])
    [demo_boot [OpRun] (replicate 60 (demo_reports (demo_minor 2) true))])) = Some demo_binary) as Hx by (vm_compute; reflexivity).
  split; [exact Hx|].
  destruct (update_trusted (λ s, s) demo_url (λ _, []) demo_verifies String.eqb (λ _, Err "gzip") demo_stamp "agent" 3 demo_usable PolicyAutomatic
    [demo_boot [OpRun] (replicate 60 (demo_reports (demo_minor 2) true))] (λ v, v = "1.10.0") (λ d, d = digest_of demo_old) (demo_machine ["1.10.0"]))
    with (x := demo_binary) as [H|H]; [| | |exact Hx|vm_compute in H; discriminate H|exact H].
  - split; [intros b [= <-]; reflexivity|]. intros id d m Hd Hm. cbn [demo_machine fs demo_files backups list_to_map foldr demo_backup fst snd] in Hd.
    repeat (apply lookup_insert_Some in Hd as [[<- <-]|[_ Hd]]; [injection Hm as <-; reflexivity|]). by rewrite lookup_empty in Hd.
  - intros v ->. eexists. split; [reflexivity|]. eexists. split; [by left|reflexivity].
  - intros b version parsed Hb Ho. apply list_elem_of_singleton in Hb as ->. by apply list_elem_of_singleton in Ho.
Defined.

Lemma installed_once_witness :
  let run := alone (Apply (λ s, s) demo_url (λ _, []) demo_verifies String.eqb (λ _, Err "gzip") demo_stamp "agent" 3 demo_usable "1.2.0")
    (demo_machine []) (replicate 60 (demo_reports (demo_minor 2) true)) in
  ∃ i e, returned run = Some (inr i) ∧ InstalledVersion i = "1.2.0" ∧ EvVersion e = "1.10.0" ∧ outruns e i.
Proof.
  cbv zeta. set (run := alone _ _ _).
  assert (match returned run with
          | Some (inr i) =>
              match Evaluate (λ s, s) demo_url (λ _, []) demo_verifies String.eqb demo_feed (effective 0 (final run)) demo_usable (5 * second) with
              | Ok l => existsb (λ e, String.eqb (EvVersion e) "1.10.0" && Applicable e) l && String.eqb (InstalledVersion i) "1.2.0"
              | Err _ => false
              end
          | _ => false
          end = true) as H by (vm_compute; reflexivity).
  destruct (returned run) as [[err|i]|] eqn:Hr; [discriminate H| |discriminate H].
  destruct (Evaluate _ _ _ _ _ _ _ _ _) as [evaluations|err] eqn:Hev; [|discriminate H]. apply andb_true_iff in H as [H Hi%String.eqb_eq].
  apply existsb_exists in H as (e & Hin%list_elem_of_In & H). apply andb_true_iff in H as [Hv%String.eqb_eq Happ].
  exists i, e. split; [reflexivity|]. split; [exact Hi|]. split; [exact Hv|].
  exact (installed_once (λ s, s) demo_url (λ _, []) demo_verifies String.eqb (λ _, Err "gzip") demo_stamp "agent" 3 demo_usable
    (demo_boot [] (replicate 60 (demo_reports (demo_minor 2) true))) (demo_machine []) (replicate 60 (demo_reports (demo_minor 2) true)) "1.2.0" i 0
    demo_feed (5 * second) evaluations e eq_refl ltac:(vm_compute; reflexivity) ltac:(by apply Forall_forall) Hr Hev Hin Happ).
Defined.

(** ** A binary preserved under the wrong version *)

(** The machine runs 1.1.0, whose backup "c" is version 1.0.0. *)
Definition demo_third : bytes := replicate 31 Byte.x43.
Definition rolled_machine : machine :=
  (demo_machine []) <| fs := demo_files <| backups := {[ "c" := {| metadata := Some {| BackupID := "c"; BackupVersion := "1.0.0"; SavedAt := 3;
                                                                    BackupSHA256 := demo_digest_of demo_third |};
                                                                  preserved := Some demo_third |} ]} |> |>.
(** It is rolled back, updated before it restarts, and rolled back again. *)
Definition rolled_twice : boot :=
  demo_boot [OpRollback ""; OpApply ""; OpRollback ""]
    (replicate 10 (demo_reports (demo_minor 0) true) ++ replicate 30 (demo_reports (demo_minor 10) true) ++
     replicate 40 (demo_reports (demo_minor 0) true)).
Definition labelled (m : machine) (x : bytes) : list string :=
  omap (λ '(_, d), if decide (preserved d = Some x) then BackupVersion <$> metadata d else None) (map_to_list (backups (fs m))).
Definition last_event (m : machine) : option (EventKind * string * string) :=
  (λ ev, (Kind ev, ToVersion ev, EventCode ev)) <$> last (History (state m)).

(** An update between a rollback and the restart mislabels its backup.
    The manager takes what it runs for what is on disk when the latter is
    older: the binary of version 1.0.0 is preserved as version 1.1.0, and the
    rollback that should bring it back refuses it because it reports 1.0.0. *)
Theorem update_after_rollback_mislabels :
  let m := demo_live rolled_machine rolled_twice in
  executable (fs m) = Some demo_binary ∧ labelled m demo_third = ["1.0.0"; "1.1.0"] ∧
  last_event m = Some (EventFailed, "1.1.0", "ROLLBACK_FAILED").
Proof. split_and!; vm_compute; reflexivity. Qed.
