(* ===== verification/Compatibility.v ===== *)
(** * Whether a checkpoint can be restored on a machine ([internal/compatibility])

    The comparison of versions, kernels and distributions and the match of
    GPUs ([checker.go]), the envelope an operator can widen ([policy.go]), the
    support matrix of the release ([supportmatrix.go]) and the check itself.
    The case mappings of Unicode and [strconv.Quote] are arguments, and so is
    the reading of a policy file.  A [float64] is a rational. *)
From Stdlib Require Import Ascii.
From S2P Require Import Prelude Float64 GoStr Model Version Checkpoint.

Local Open Scope string_scope.
Local Open Scope list_scope.
Local Open Scope Z_scope.

(** ** Data *)

(** [model.StorageDevice], [model.GPURuntime] and [model.CRIUCapabilities]. *)
Record StorageDevice := { Mountpoint : string; AvailableBytes : Z }.
Record GPURuntime := { RuntimeName : string; RuntimeVersion : string }.
Record CRIUCapabilities := { CRIUInstalled : bool; CRIUVersion : string; CRIUHealthy : bool }.

(** [model.MachineCapabilities], without the names and versions nobody
    decides by. *)
Record MachineCapabilities := {
  CapOS : string;
  CapDistribution : string;
  CapKernel : string;
  CapArchitecture : string;
  CapCPUs : Z;
  CapMemory : Z;
  CapStorage : list StorageDevice;
  CapGPUs : list GPUDevice;
  CapRuntimes : list GPURuntime;
  CapCRIU : CRIUCapabilities;
  Features : gmap string bool;
}.

(** [model.StateItem] and the manifest with the parts only the check reads. *)
Record StateItem := { ItemName : string; ItemClass : string; ItemRequired : bool; ItemDescription : string }.
Record DescribedManifest := {
  Described : CheckpointManifest;
  SourceFacts : MachineCapabilities;
  DeviceNeeds : list GPUDevice;
  StateInventory : list StateItem;
}.
Definition StateExternal : string := "external".

(** [KernelRule], [DistroRule] and [Policy]. *)
Record KernelRule := { SourceKernel : string; DestinationKernel : string; Certified : bool }.
Record DistroRule := { SourceDistribution : string; DestinationDistribution : string; Allow : bool }.
Record Policy := {
  StateFormatFloor : string;
  KernelRules : list KernelRule;
  CrossDistroDefault : string;
  DistroRules : list DistroRule;
}.
Definition DistroWarn : string := "warn".
Definition DistroRefuse : string := "refuse".

(** [SupportPolicy], [SupportPlatform], [SupportGPU] and [SupportMatrix]. *)
Record SupportPolicy := { PUnknown : string; PUntested : string; PGPUEvidence : string; PCertified : string; PUnsupported : string }.
Record SupportPlatform := {
  PlatformID : string;
  PlatformDistribution : string;
  PlatformArchitecture : string;
  KernelMin : string;
  KernelMax : string;
  CRIUVersions : list string;
  PlatformStatus : string;
  PlatformEvidence : string;
}.
Record SupportGPU := { GPURowVendor : string; GPURowStatus : string; GPURowEvidence : string }.
Record SupportMatrix := { MatrixVersion : string; MatrixPolicy : SupportPolicy; Platforms : list SupportPlatform; GPURows : list SupportGPU }.

(** [SupportEvidence] and [SupportDecision]. *)
Record SupportEvidence := { EvOS : string; EvArchitecture : string; EvDistribution : string; EvKernel : string; EvCRIU : string; EvCheck : string }.
Record SupportDecision := { SupportStatus : string; Action : string; AllowAutomatic : bool; DecidedBy : string; SupportReason : string }.

Definition ActionAllow : string := "allow".
Definition ActionBlockAutomatic : string := "block_for_automatic_operations".
Definition ActionExperimentalOnly : string := "experimental_only".
Definition ActionExternalGPURequired : string := "external_hardware_runner_required".
Definition validActions (a : string) : bool :=
  bool_decide (a ∈ [ActionAllow; ActionBlockAutomatic; ActionExperimentalOnly; ActionExternalGPURequired]).
Definition StatusCertified : string := "certified".
Definition StatusSupported : string := "supported".
Definition StatusUntested : string := "untested".
Definition StatusExperimental : string := "experimental".
Definition StatusUnknown : string := "unknown".
Definition StatusUnsupported : string := "unsupported".
Definition validStatuses (s : string) : bool :=
  bool_decide (s ∈ [StatusCertified; StatusSupported; StatusUntested; StatusExperimental; StatusUnknown; StatusUnsupported]).

(** [Checker]; an empty policy or matrix stands for the default one. *)
Record Checker := { CheckerPolicy : Policy; CheckerSupport : SupportMatrix }.

(** [Checker{}]. *)
Definition no_policy : Policy := {| StateFormatFloor := ""; KernelRules := []; CrossDistroDefault := ""; DistroRules := [] |}.
Definition no_matrix : SupportMatrix :=
  {| MatrixVersion := ""; MatrixPolicy := {| PUnknown := ""; PUntested := ""; PGPUEvidence := ""; PCertified := ""; PUnsupported := "" |};
     Platforms := []; GPURows := [] |}.
Definition no_checker : Checker := {| CheckerPolicy := no_policy; CheckerSupport := no_matrix |}.

(** ** Versions *)

(** [versionParts]. *)
Fixpoint before_any (stop : ascii → bool) (s : string) : string :=
  match s with "" => "" | String a r => if stop a then "" else String a (before_any stop r) end.
Fixpoint leading_numbers (segments : list string) : list Z :=
  match segments with
  | [] => []
  | segment :: rest => match Atoi segment with Ok n => n :: leading_numbers rest | Err _ => [] end
  end.
Definition versionParts (value : string) : list Z :=
  leading_numbers (split "."%char (before_any (λ a, bool_decide (a = "-"%char ∨ a = "+"%char)) (TrimPrefix (TrimSpace value) "v"))).

(** [compareVersions]: a missing segment is zero. *)
Definition compare_segment (l r rest : Z) : Z := if decide (l = r) then rest else if l <? r then -1 else 1.
Fixpoint against_zeros (rs : list Z) : Z :=
  match rs with [] => 0 | r :: rs => compare_segment 0 r (against_zeros rs) end.
Fixpoint compareVersions (ls rs : list Z) : Z :=
  match ls with
  | [] => against_zeros rs
  | l :: ls => compare_segment l (default 0 (head rs)) (compareVersions ls (tail rs))
  end.

(** [kernelUnder] and [kernelInRange]. *)
Definition kernelUnder (observed prefix : string) : bool :=
  let observedParts := versionParts observed in
  let prefixParts := versionParts prefix in
  if bool_decide (prefixParts = []) || (length observedParts <? length prefixParts)%nat then false
  else compareVersions (take (length prefixParts) observedParts) prefixParts =? 0.
Definition kernelInRange (observed minimum maximum : string) : bool :=
  if decide (minimum = "") then true
  else
    let observedParts := versionParts observed in
    let minParts := versionParts minimum in
    if bool_decide (observedParts = []) || bool_decide (minParts = []) || (length observedParts <? length minParts)%nat then false
    else if compareVersions (take (length minParts) observedParts) minParts <? 0 then false
    else if decide (maximum = "") then true
    else
      let maxParts := versionParts maximum in
      if bool_decide (maxParts = []) || (length observedParts <? length maxParts)%nat then false
      else negb (0 <? compareVersions (take (length maxParts) observedParts) maxParts).

(** The first match of [versionTokenRegexp], and [criuVersionNumber]. *)
Fixpoint version_tail (s : string) : string :=
  match s with
  | "" => ""
  | String a r =>
      if digit_char a then String a (version_tail r)
      else if decide (a = "."%char) then
        match r with String b r' => if digit_char b then String a (String b (version_tail r')) else "" | "" => "" end
      else ""
  end.
Fixpoint version_token (s : string) : string :=
  match s with "" => "" | String a r => if digit_char a then String a (version_tail r) else version_token r end.
Definition criuVersionNumber (value : string) : string := version_token (TrimPrefix (TrimSpace value) "v").

(** [criuVersionSupported]. *)
Definition criuVersionSupported (version : string) : bool :=
  let parts := versionParts (criuVersionNumber version) in
  match parts with
  | [] => false
  | major :: _ => if decide (major = 3) then 0 <=? compareVersions parts [3; 17] else bool_decide (major = 4)
  end.

(** [matchesCRIULine]. *)
Definition matchesCRIULine (lines : list string) (observed : string) : bool :=
  let observed := TrimPrefix (TrimSpace observed) "v" in
  existsb (λ line, let line := TrimPrefix (TrimSpace line) "v" in bool_decide (observed = line) || HasPrefix observed (line +:+ ".")) lines.

(** ** GPUs *)

(** [isDottedNumber] and [versionAtLeast]. *)
Definition isDottedNumber (value : string) : bool :=
  negb (bool_decide (value = "")) && forallb (λ part, is_ok (Atoi part)) (split "."%char value).
Fixpoint parts_at_least (version minimum : list string) : bool :=
  match minimum, version with
  | [], _ => true
  | _, [] => false
  | m :: minimum, v :: version =>
      match Atoi v, Atoi m with
      | Ok current, Ok required => if decide (current = required) then parts_at_least version minimum else required <? current
      | _, _ => false
      end
  end.
Definition versionAtLeast (version minimum : string) : bool :=
  if decide (minimum = "") then true
  else if decide (version = "") then false
  else parts_at_least (split "."%char version) (split "."%char minimum).

(** ** Paths *)

(** [AvailableForPath]: the free bytes of the innermost mount. *)
Definition below (mount target : string) : bool :=
  match Rel mount target with
  | Ok relative => negb (bool_decide (relative = "..") || HasPrefix relative "../")
  | Err _ => false
  end.
Definition inner (target : string) (best : Z * Z) (device : StorageDevice) : Z * Z :=
  let mount := Clean (Mountpoint device) in
  let size := Z.of_nat (String.length mount) in
  if below mount target && (best.1 <? size) then (size, AvailableBytes device) else best.
Definition AvailableForPath (devices : list StorageDevice) (target : string) : Z :=
  (foldl (inner (Clean target)) (-1, 0) devices).2.

(** ** The shipped matrix and the default policy *)

Definition DefaultSupportMatrix : SupportMatrix :=
  {| MatrixVersion := "2026-10-21";
     MatrixPolicy := {| PUnknown := "block_for_automatic_operations"; PUntested := "experimental_only";
                        PGPUEvidence := "external_hardware_runner_required"; PCertified := "allow"; PUnsupported := "block_for_automatic_operations" |};
     Platforms := [
       {| PlatformID := "linux-amd64-ubuntu-2404"; PlatformDistribution := "ubuntu-24.04"; PlatformArchitecture := "amd64";
          KernelMin := "6.8"; KernelMax := "6.11"; CRIUVersions := ["4.2"]; PlatformStatus := "certified";
          PlatformEvidence := "CI e2e and stress lanes run the full checkpoint/restore suite on ubuntu-24.04 GitHub runners (the 6.8 and 6.11 runner kernel lines) with exactly CRIU 4.2.x from the criu PPA (see .github/workflows/ci.yml e2e/stress jobs and docs/release.md). CRIU 4.0/4.1/4.3 and kernels outside 6.8-6.11 have zero release-lane runs and are not certified by this line; 4.3 may not even be published in that PPA" |};
       {| PlatformID := "linux-amd64-ubuntu-2404-unexercised"; PlatformDistribution := "ubuntu-24.04"; PlatformArchitecture := "amd64";
          KernelMin := "6.12"; KernelMax := "6.14"; CRIUVersions := ["4.0"; "4.1"; "4.2"; "4.3"]; PlatformStatus := "untested";
          PlatformEvidence := "kernels 6.12-6.14 on ubuntu-24.04 and the CRIU 4.0/4.1/4.3 lines are not exercised by any release CI lane; a passing probe is not certification. Run scripts/verify-support-matrix.sh on the target host before certifying or enabling automatic operations" |};
       {| PlatformID := "linux-amd64-ubuntu-2204"; PlatformDistribution := "ubuntu-22.04"; PlatformArchitecture := "amd64";
          KernelMin := "5.15"; KernelMax := "5.15"; CRIUVersions := ["3.17"; "3.18"; "3.19"; "4.0"; "4.1"; "4.2"]; PlatformStatus := "untested";
          PlatformEvidence := "conservative LTS configuration consistent with the CRIU 3.17+/4.x support policy (docs/limitations.md, README prerequisites); not exercised by the release CI lane — run scripts/verify-support-matrix.sh on the target host before certifying" |};
       {| PlatformID := "linux-amd64-debian-12"; PlatformDistribution := "debian-12"; PlatformArchitecture := "amd64";
          KernelMin := "6.1"; KernelMax := "6.12"; CRIUVersions := ["3.17"; "3.18"; "3.19"; "4.0"; "4.1"; "4.2"]; PlatformStatus := "untested";
          PlatformEvidence := "docs/benchmarks.md ran CRIU 3.17.1 on a 6.12 kernel in a bookworm environment; treat benchmark results as functional evidence only — run scripts/verify-support-matrix.sh before automatic operations" |};
       {| PlatformID := "linux-amd64-generic"; PlatformDistribution := "linux"; PlatformArchitecture := "amd64";
          KernelMin := "5.10"; KernelMax := ""; CRIUVersions := ["3.17"; "3.18"; "3.19"; "4.0"; "4.1"; "4.2"; "4.3"]; PlatformStatus := "unknown";
          PlatformEvidence := "any other distribution/kernel combination. The CRIU support policy is 3.17+ and 4.x with `criu check` passing; a passing probe is not certification. Per policy, unknown combinations are blocked for automatic operations until they are run through scripts/verify-support-matrix.sh and added here." |} ];
     GPURows := [
       {| GPURowVendor := "nvidia"; GPURowStatus := "unknown"; GPURowEvidence := "external GPU runner required; no local hardware claim" |};
       {| GPURowVendor := "amd"; GPURowStatus := "unsupported";
          GPURowEvidence := "ROCm process checkpoint/restore is not available in the current implementation" |} ] |}.

Definition DefaultPolicy : Policy :=
  {| StateFormatFloor := "1.0.0"; KernelRules := []; CrossDistroDefault := DistroWarn; DistroRules := [] |}.

(** [Policy.Validate]. *)
Definition Policy_Validate (p : Policy) : result unit :=
  _ ← require (negb (bool_decide (StateFormatFloor p = ""))) "compatibility policy requires state_format_floor";
  _ ← require (bool_decide (CrossDistroDefault p = DistroWarn) || bool_decide (CrossDistroDefault p = DistroRefuse))
        "compatibility policy cross_distro_default must be warn or refuse";
  _ ← require (forallb (λ r, negb (bool_decide (SourceKernel r = "") || bool_decide (DestinationKernel r = ""))) (KernelRules p))
        "compatibility policy kernel rules require source_kernel and destination_kernel";
  require (forallb (λ r, negb (bool_decide (SourceDistribution r = "") || bool_decide (DestinationDistribution r = ""))) (DistroRules p))
    "compatibility policy distro rules require both distributions".

(** [SupportMatrix.Validate]. *)
Definition SupportMatrix_Validate (m : SupportMatrix) : result unit :=
  let known action := bool_decide (action = "") || validActions action in
  _ ← require (negb (bool_decide (MatrixVersion m = ""))) "support matrix version is required";
  let p := MatrixPolicy m in
  _ ← require (forallb known [PUnknown p; PUntested p; PGPUEvidence p; PCertified p; PUnsupported p]) "support matrix policy is not an action";
  _ ← require (forallb (λ r, validStatuses (PlatformStatus r) && negb (bool_decide (PlatformArchitecture r = ""))) (Platforms m))
        "support matrix platform has no status or no architecture";
  require (forallb (λ r, validStatuses (GPURowStatus r)) (GPURows m)) "support matrix GPU row has no status".

(** [policyAction] and [defaultActionFor]. *)
Definition policyAction (m : SupportMatrix) (status fallback : string) : string :=
  let p := MatrixPolicy m in
  let or_else action other := if decide (action = "") then other else action in
  if decide (status = StatusUnknown) then or_else (PUnknown p) fallback
  else if decide (status = StatusUntested ∨ status = StatusExperimental) then or_else (PUntested p) fallback
  else if decide (status = StatusUnsupported) then or_else (PUnsupported p) ActionBlockAutomatic
  else if decide (status = StatusCertified ∨ status = StatusSupported) then or_else (PCertified p) ActionAllow
  else fallback.
Definition defaultActionFor (status : string) : string :=
  if decide (status = StatusCertified ∨ status = StatusSupported) then ActionAllow
  else if decide (status = StatusUntested ∨ status = StatusExperimental) then ActionExperimentalOnly
  else ActionBlockAutomatic.
Definition decided (status action platform reason : string) : SupportDecision :=
  {| SupportStatus := status; Action := action; AllowAutomatic := bool_decide (action = ActionAllow); DecidedBy := platform; SupportReason := reason |}.

(** ** Distributions *)

(** The texts of [distributionKey]. *)
Fixpoint map_chars (f : ascii → ascii) (s : string) : string :=
  match s with "" => "" | String a r => String (f a) (map_chars f r) end.
Definition dashed (a : ascii) : ascii := if bool_decide (a = "_"%char ∨ a = " "%char ∨ a = "/"%char) then "-"%char else a.
Fixpoint halve_dashes (s : string) : string :=
  match s with
  | "" => ""
  | String a r =>
      match r with
      | String b r' => if bool_decide (a = "-"%char ∧ b = "-"%char) then String a (halve_dashes r') else String a (halve_dashes r)
      | "" => s
      end
  end.
(** [for strings.Contains(value, "--")]; each round is shorter. *)
Fixpoint collapse (fuel : nat) (s : string) : string :=
  if Contains s "--" then match fuel with O => s | S fuel => collapse fuel (halve_dashes s) end else s.
Fixpoint drop_dashes (l : list ascii) : list ascii :=
  match l with a :: r => if decide (a = "-"%char) then drop_dashes r else l | [] => [] end.
Definition trim_dashes (s : string) : string :=
  String.string_of_list_ascii (rev (drop_dashes (rev (drop_dashes (String.list_ascii_of_string s))))).
(** The text before the first occurrence of [sub]. *)
Fixpoint before_sub (sub s : string) : string :=
  if HasPrefix s sub then "" else match s with "" => "" | String a r => String a (before_sub sub r) end.

Section checker.
Context (ToLower : string → string) (EqualFold : string → string → bool) (Quote : string → string).

(** [distributionKey]. *)
Definition distributionKey (value : string) : string :=
  let value := ToLower (TrimSpace value) in
  if decide (value = "") then "unknown"
  else
    let value := map_chars dashed value in
    let value := trim_dashes (collapse (String.length value) value) in
    let found := version_token value in
    if decide (found = "") then value
    else
      let parts := split "."%char found in
      let found := if (2 <? length parts)%nat then join "."%char (take 2 parts) else found in
      let id := trim_dashes (before_sub found value) in
      if decide (id = "") then found
      else
        let id := match cut "-"%char id with Some (first, _) => if decide (first = "") then id else first | None => id end in
        id +:+ "-" +:+ found.

(** ** The support matrix *)

(** [SupportMatrix.matchPlatform]: the first row of the distribution, or the
    first generic one. *)
Definition covers (evidence : SupportEvidence) (p : SupportPlatform) : bool :=
  bool_decide (PlatformArchitecture p = EvArchitecture evidence) && kernelInRange (EvKernel evidence) (KernelMin p) (KernelMax p).
Definition matchPlatform (m : SupportMatrix) (evidence : SupportEvidence) : option SupportPlatform :=
  let covering := filter (λ p, covers evidence p = true) (Platforms m) in
  match List.find (λ p, bool_decide (distributionKey (PlatformDistribution p) = distributionKey (EvDistribution evidence))) covering with
  | Some p => Some p
  | None => List.find (λ p, EqualFold (PlatformDistribution p) "linux") covering
  end.

(** [SupportMatrix.Decide]. *)
Definition Decide (m : SupportMatrix) (evidence : SupportEvidence) : SupportDecision :=
  if negb (bool_decide (EvOS evidence = "linux") && bool_decide (EvArchitecture evidence = "amd64"))
  then decided StatusUnsupported ActionBlockAutomatic "" "SHIFT supports Linux x86_64 only"
  else if HasPrefix (EvCheck evidence) "failed" || HasPrefix (EvCheck evidence) "not-run"
  then decided StatusUnsupported ActionBlockAutomatic "" ("CRIU is unavailable or failed `criu check`: " +:+ EvCheck evidence)
  else
    match matchPlatform m evidence with
    | None =>
        decided StatusUnknown (policyAction m StatusUnknown ActionBlockAutomatic) ""
          "no support-matrix entry covers this distribution/kernel/CRIU combination; run scripts/verify-support-matrix.sh to certify it"
    | Some p =>
        let degraded := negb (bool_decide (CRIUVersions p = [])) && negb (matchesCRIULine (CRIUVersions p) (EvCRIU evidence)) in
        let status := if degraded && bool_decide (PlatformStatus p = StatusCertified) then StatusUntested else PlatformStatus p in
        let reason :=
          if degraded
          then "matches support-matrix entry " +:+ PlatformID p +:+ " but CRIU " +:+ EvCRIU evidence +:+ " is not one of its certified lines (" +:+
               String.concat ", " (CRIUVersions p) +:+ "); run scripts/verify-support-matrix.sh"
          else "matched support-matrix entry " +:+ PlatformID p +:+ ": " +:+ PlatformEvidence p in
        decided status (policyAction m status (defaultActionFor status)) (PlatformID p) reason
    end.

(** [SupportMatrix.GPUDecision]. *)
Definition GPUDecision (m : SupportMatrix) (vendor : string) : SupportDecision :=
  let vendor := TrimSpace vendor in
  let evidence := if validActions (PGPUEvidence (MatrixPolicy m)) then PGPUEvidence (MatrixPolicy m) else ActionExternalGPURequired in
  match List.find (λ g, EqualFold (GPURowVendor g) vendor) (GPURows m) with
  | Some g =>
      if decide (GPURowStatus g = StatusCertified ∨ GPURowStatus g = StatusSupported)
      then decided (GPURowStatus g) (policyAction m (GPURowStatus g) ActionAllow) "" ("matched support-matrix GPU row " +:+ GPURowVendor g +:+ ": " +:+ GPURowEvidence g)
      else decided (GPURowStatus g) evidence "" ("support-matrix GPU row " +:+ GPURowVendor g +:+ " is " +:+ GPURowStatus g +:+ ": " +:+ GPURowEvidence g)
  | None => decided StatusUnknown evidence "" ("no support-matrix GPU row certifies vendor " +:+ vendor +:+ "; GPU rows require an external hardware runner")
  end.

(** [Checker.support], [supportEvidence] and [Checker.SupportDecision]. *)
Definition support (c : Checker) : SupportMatrix :=
  if decide (MatrixVersion (CheckerSupport c) = "") then DefaultSupportMatrix else CheckerSupport c.
Definition criu_ready (destination : MachineCapabilities) : bool := CRIUInstalled (CapCRIU destination) && CRIUHealthy (CapCRIU destination).
Definition supportEvidence (destination : MachineCapabilities) : SupportEvidence :=
  {| EvOS := CapOS destination; EvArchitecture := CapArchitecture destination; EvDistribution := CapDistribution destination;
     EvKernel := CapKernel destination; EvCRIU := criuVersionNumber (CRIUVersion (CapCRIU destination));
     EvCheck := if criu_ready destination then "passed" else "failed: destination CRIU is unavailable or failed its kernel capability check" |}.
Definition SupportDecisionOf (c : Checker) (destination : MachineCapabilities) : SupportDecision :=
  Decide (support c) (supportEvidence destination).

(** ** The policy *)

(** [Checker.resolvedPolicy] with [LoadPolicy]; [environment] is the value of
    [SHIFT_COMPATIBILITY_POLICY] and [file] decodes the file at a path. *)
Definition resolvedPolicy (environment : string) (file : string → result Policy) (c : Checker) : Policy * option string :=
  let p := CheckerPolicy c in
  if bool_decide (StateFormatFloor p = "") && bool_decide (CrossDistroDefault p = "") && bool_decide (length (KernelRules p) = 0%nat) &&
     bool_decide (length (DistroRules p) = 0%nat)
  then
    let path := TrimSpace environment in
    if decide (path = "") then (DefaultPolicy, None)
    else match (loaded ← file path; _ ← Policy_Validate loaded; Ok loaded) with
         | Ok loaded => (loaded, None)
         | Err e => (DefaultPolicy, Some ("compatibility policy " +:+ path +:+ " is unusable: " +:+ e))
         end
  else match Policy_Validate p with Ok _ => (p, None) | Err e => (DefaultPolicy, Some e) end.

(** [certifiedKernelPair] and [distroAllowed]. *)
Definition certifiedKernelPair (p : Policy) (sourceKernel destinationKernel : string) : bool :=
  existsb (λ r, Certified r && kernelUnder sourceKernel (SourceKernel r) && kernelUnder destinationKernel (DestinationKernel r)) (KernelRules p).
Definition distroAllowed (p : Policy) (source destination : string) : bool * bool :=
  match List.find (λ r, bool_decide (distributionKey (SourceDistribution r) = distributionKey source) &&
                        bool_decide (distributionKey (DestinationDistribution r) = distributionKey destination)) (DistroRules p) with
  | Some r => (Allow r, negb (Allow r))
  | None => (negb (bool_decide (CrossDistroDefault p = DistroRefuse)), false)
  end.

(** ** GPUs *)

(** [computeCapabilitySatisfied]. *)
Definition computeCapabilitySatisfied (required candidate : string) : bool :=
  if decide (required = "") then true
  else if isDottedNumber required then isDottedNumber candidate && versionAtLeast candidate required
  else EqualFold candidate required.

(** [MatchGPU]: a device of the model, or the first that can serve. *)
Definition serves (required candidate : GPUDevice) : bool :=
  EqualFold (Vendor candidate) (Vendor required) &&
  computeCapabilitySatisfied (ComputeCapability required) (ComputeCapability candidate) &&
  (GPUMemoryBytes required <=? GPUMemoryBytes candidate).
Definition MatchGPU (required : GPUDevice) (available : list GPUDevice) : option GPUDevice :=
  let serving := filter (λ g, serves required g = true) available in
  match List.find (λ g, EqualFold (GPUModel g) (GPUModel required)) serving with
  | Some g => Some g
  | None => head serving
  end.

(** [findRuntime]. *)
Definition findRuntime (runtimes : list GPURuntime) (family : string) : option GPURuntime :=
  List.find (λ r, EqualFold (RuntimeName r) family) runtimes.

(** ** The check *)

Definition issue (code severity resource description adaptation : string) : list CompatibilityIssue :=
  [{| IssueCode := code; IssueSeverity := severity; IssueResource := resource; IssueDescription := description; IssueAdaptation := adaptation |}].

(** [stateFormatDecision], [None] when the format is accepted. *)
Definition stateFormatDecision (manifestVersion agentVersion floor : string) : option (string * string * string) :=
  let manifestParts := versionParts manifestVersion in
  let agentParts := versionParts agentVersion in
  let floorParts := versionParts floor in
  match manifestParts, agentParts with
  | manifestMajor :: manifestRest, agentMajor :: agentRest =>
      if negb (bool_decide (floorParts = [])) && (compareVersions manifestParts floorParts <? 0)
      then Some ("STATE_FORMAT_UNSUPPORTED", "checkpoint state format " +:+ manifestVersion +:+ " is older than the oldest supported " +:+ floor,
                 "restore with an agent from the era that wrote the checkpoint")
      else if negb (manifestMajor =? agentMajor)
      then Some ("STATE_FORMAT_UNSUPPORTED", "checkpoint state format " +:+ manifestVersion +:+ " is a different format line than " +:+ agentVersion,
                 "upgrade the destination agent to the checkpoint's format line")
      else match manifestRest, agentRest with
           | manifestMinor :: _, agentMinor :: _ =>
               if agentMinor <? manifestMinor
               then Some ("STATE_FORMAT_UPGRADE_REQUIRED",
                          "checkpoint state format " +:+ manifestVersion +:+ " was written by a newer minor version than this agent supports (" +:+ agentVersion +:+
                          "); it may carry features this agent cannot restore",
                          "upgrade the destination agent to at least " +:+ Itoa manifestMajor +:+ "." +:+ Itoa manifestMinor +:+ ".0 before restoring")
               else None
           | _, _ => None
           end
  | _, _ => Some ("STATE_FORMAT_UNSUPPORTED", "checkpoint state format version " +:+ manifestVersion +:+ " is not a dotted numeric version",
                  "upgrade the destination agent")
  end.

(** The parts of [Checker.Check], in its order. *)
Definition format_issues (p : Policy) (m : CheckpointManifest) : list CompatibilityIssue :=
  if decide (Format m = StateFormatName) then
    match stateFormatDecision (FormatVersion m) StateFormatVersion (StateFormatFloor p) with
    | Some (code, description, adaptation) => issue code "error" "state_format" description adaptation
    | None => []
    end
  else issue "STATE_FORMAT_UNSUPPORTED" "error" "state_format" ("checkpoint is not a SHIFT state file (format " +:+ Format m +:+ ")")
         "restore with the SHIFT agent that wrote it".

Definition platform_issues (source destination : MachineCapabilities) : list CompatibilityIssue :=
  (if decide (CapOS destination = "linux") then []
   else issue "OS_UNSUPPORTED" "error" "operating_system" ("Linux CRIU state cannot be restored on " +:+ CapOS destination) "use a Linux destination") ++
  (if decide (CapArchitecture destination = CapArchitecture source) then []
   else issue "ARCH_MISMATCH" "error" "cpu" ("source is " +:+ CapArchitecture source +:+ " and destination is " +:+ CapArchitecture destination)
          "select a destination with matching architecture") ++
  (if decide (CapArchitecture destination = "amd64") then []
   else issue "ARCH_UNSUPPORTED" "error" "cpu"
          ("SHIFT supports Linux x86_64 only; " +:+ CapArchitecture destination +:+ " destinations are outside the support contract") "use an x86_64 destination") ++
  (if negb (criu_ready destination)
   then issue "CRIU_UNAVAILABLE" "error" "criu" "destination CRIU is unavailable or failed its kernel capability check"
          "install a compatible CRIU build and satisfy `criu check`"
   else if criuVersionSupported (CRIUVersion (CapCRIU destination)) then []
   else issue "CRIU_VERSION_UNSUPPORTED" "error" "criu"
          ("destination CRIU " +:+ Quote (criuVersionNumber (CRIUVersion (CapCRIU destination))) +:+
           " does not satisfy the supported floor: CRIU 3.17+ or 4.x (see docs/support-matrix.json)")
          "install CRIU 3.17 or newer from the 3.x line, or any 4.x release").

Definition matrix_issues (c : Checker) (destination : MachineCapabilities) : list CompatibilityIssue :=
  if bool_decide (CapOS destination = "linux") && bool_decide (CapArchitecture destination = "amd64") && criu_ready destination then
    let d := SupportDecisionOf c destination in
    if decide (Action d = ActionAllow) then []
    else if decide (SupportStatus d = StatusUnsupported)
    then issue "PLATFORM_UNSUPPORTED" "error" "platform" (SupportReason d) "the support matrix marks this platform unsupported; do not restore here"
    else if decide (Action d = ActionExperimentalOnly)
    then issue "PLATFORM_EXPERIMENTAL" "warning" "platform" (SupportReason d +:+ " (policy: experimental_only — unattended operations are blocked)")
           "run scripts/verify-support-matrix.sh to certify this combination, or treat this restore as an experiment"
    else issue "PLATFORM_NOT_CERTIFIED" "warning" "platform" (SupportReason d +:+ " (policy: " +:+ Action d +:+ " — unattended operations are blocked)")
           "run scripts/verify-support-matrix.sh to certify this combination and add it to docs/support-matrix.json"
  else [].

Definition kernel_issues (p : Policy) (source destination : MachineCapabilities) : list CompatibilityIssue :=
  match versionParts (CapKernel source), versionParts (CapKernel destination) with
  | (sourceMajor :: _) as sourceKernel, (destinationMajor :: _) as destinationKernel =>
      if compareVersions destinationKernel sourceKernel <? 0
      then issue "KERNEL_INCOMPATIBLE" "error" "kernel"
             ("source kernel " +:+ CapKernel source +:+ " is newer than destination kernel " +:+ CapKernel destination +:+
              "; CRIU state cannot be restored onto an older kernel") "restore onto the same or a newer kernel"
      else if negb (sourceMajor =? destinationMajor) && negb (certifiedKernelPair p (CapKernel source) (CapKernel destination))
      then issue "KERNEL_CROSS_MAJOR_NOT_CERTIFIED" "error" "kernel"
             ("source kernel " +:+ CapKernel source +:+ " to destination kernel " +:+ CapKernel destination +:+
              " crosses a kernel major without a certified policy entry")
             "certify this kernel pair in a compatibility policy file (SHIFT_COMPATIBILITY_POLICY=<path>, see compatibility.Policy) after running checkpoint/restore tests for it, or stay within one kernel major"
      else []
  | _, _ => issue "KERNEL_INCOMPATIBLE" "error" "kernel"
              ("cannot compare source kernel " +:+ Quote (CapKernel source) +:+ " with destination kernel " +:+ Quote (CapKernel destination))
              "report kernel releases as dotted numeric versions"
  end.

(** The features of the source are listed in any order. *)
Definition feature (m : MachineCapabilities) (f : string) : bool := default false (Features m !! f).
Definition feature_issues (source destination : MachineCapabilities) : list CompatibilityIssue :=
  concat ((λ e, if e.2 && HasPrefix e.1 "cpu." && negb (feature destination e.1)
                then issue "CPU_FEATURE_MISSING" "error" e.1 "destination CPU lacks a feature used by the source" "choose a CPU-compatible machine"
                else []) <$> map_to_list (Features source)).

(** [uint64(float64(n) * factor)]. *)
Definition scaled (n : Z) (factor : float64) : Z := to_uint64 (of_Z n * factor)%F.
Definition required_memory (m : CheckpointManifest) : Z :=
  let limit := ReqMemoryBytes (Resources (ManifestWorkload m)) in if limit =? 0 then scaled (RequiredBytes m) 1.15%F else limit.
Definition required_storage (m : CheckpointManifest) : Z :=
  let limit := ReqStorageBytes (Resources (ManifestWorkload m)) in if limit =? 0 then scaled (RequiredBytes m) 1.20%F else limit.
Definition capacity_issues (m : CheckpointManifest) (destination : MachineCapabilities) : list CompatibilityIssue :=
  let available := AvailableForPath (CapStorage destination) (RootPath (ManifestWorkload m)) in
  (if CapMemory destination <? required_memory m
   then issue "MEMORY_INSUFFICIENT" "error" "memory"
          ("destination has " +:+ Itoa (CapMemory destination) +:+ " bytes; workload requires at least " +:+ Itoa (required_memory m))
          "select a larger destination or lower the workload memory limit"
   else []) ++
  (if available <? required_storage m
   then issue "STORAGE_INSUFFICIENT" "error" "storage"
          ("target filesystem has " +:+ Itoa available +:+ " bytes available; restore requires at least " +:+ Itoa (required_storage m))
          "free space or choose another destination"
   else []).

Definition gpu_row_issues (c : Checker) (required : GPUDevice) : list CompatibilityIssue :=
  let d := GPUDecision (support c) (Vendor required) in
  if decide (Action d = ActionAllow) then []
  else if decide (Action d = ActionExternalGPURequired)
  then issue "GPU_EXTERNAL_RUNNER_REQUIRED" "error" "gpu" (SupportReason d)
         "run this GPU restore through the external hardware runner required by the support matrix; local GPU checkpoint/restore is not certified"
  else issue "GPU_NOT_CERTIFIED" (if decide (Action d = ActionBlockAutomatic) then "error" else "warning") "gpu" (SupportReason d)
         "the support matrix does not certify this GPU row for restore; run scripts/verify-support-matrix.sh or use the external hardware runner".

Definition device_issues (spec : WorkloadSpec) (destination : MachineCapabilities) (required : GPUDevice) : list CompatibilityIssue :=
  let warns := bool_decide (DevicePolicy spec = DeviceWarnIncompatible) in
  match MatchGPU required (CapGPUs destination) with
  | None =>
      issue "GPU_INCOMPATIBLE" (if CheckpointRestore required then "error" else if warns then "warning" else "error") "gpu"
        (Vendor required +:+ " " +:+ GPUModel required +:+ " is unavailable")
        (if CheckpointRestore required then "select a machine with a GPU that advertises checkpoint/restore"
         else if warns then "the workload will start without this device; its device policy is warn_incompatible"
         else "select a machine with a compatible GPU and driver")
  | Some found =>
      (if CheckpointRestore required && negb (CheckpointRestore found)
       then issue "GPU_RESTORE_UNSUPPORTED" "error" "gpu" "destination driver does not advertise GPU checkpoint/restore"
              "install a vendor-supported checkpoint/restore driver stack"
       else []) ++
      (if EqualFold (GPUModel found) (GPUModel required) then []
       else issue "GPU_MODEL_DIFFERS" "warning" "gpu"
              ("workload used " +:+ Vendor required +:+ " " +:+ GPUModel required +:+ "; destination offers " +:+ Vendor found +:+ " " +:+ GPUModel found)
              "the workload runs on a different GPU model of equal or greater capability; validate accelerator-sensitive behavior after restore")
  end.

Definition runtime_issues (destination : MachineCapabilities) (required : GPUDevice) : list CompatibilityIssue :=
  if decide (GPURuntimeName required = "") then []
  else
    let '(family, version) := default (GPURuntimeName required, "") (cut " "%char (GPURuntimeName required)) in
    match findRuntime (CapRuntimes destination) family with
    | None =>
        issue "GPU_RUNTIME_MISSING" "warning" "gpu" ("destination does not report a " +:+ family +:+ " environment")
          ("install the " +:+ family +:+ " stack on the destination or confirm the workload carries its runtime libraries inside its root")
    | Some installed =>
        if negb (bool_decide (version = "")) && negb (versionAtLeast (RuntimeVersion installed) version)
        then issue "GPU_RUNTIME_OLDER" "warning" "gpu"
               ("destination " +:+ family +:+ " environment is " +:+
                (if decide (RuntimeVersion installed = "") then "an unversioned install" else RuntimeVersion installed) +:+ "; workload used " +:+ version)
               ("install a newer " +:+ family +:+ " stack on the destination")
        else []
    end.

Definition state_issues (m : DescribedManifest) (destination : MachineCapabilities) : list CompatibilityIssue :=
  concat ((λ i, if bool_decide (ItemClass i = StateExternal) && ItemRequired i
                then issue "EXTERNAL_STATE_REQUIRED" "error" (ItemName i) (ItemDescription i) "configure a reconnect or external-state adapter"
                else []) <$> StateInventory m) ++
  (if bool_decide (NetworkPolicy (ManifestWorkload (Described m)) = NetworkPreserve) && negb (bool_decide (CapKernel (SourceFacts m) = CapKernel destination))
   then issue "NETWORK_STATE_RISK" "warning" "network" "transparent TCP repair across different kernels is not guaranteed"
          "use SHIFT reconnect forwarding or identical kernels"
   else []).

Definition distro_issues (p : Policy) (source destination : MachineCapabilities) : list CompatibilityIssue :=
  if decide (distributionKey (CapDistribution source) = distributionKey (CapDistribution destination)) then []
  else
    let '(allowed, refusedByRule) := distroAllowed p (CapDistribution source) (CapDistribution destination) in
    if allowed : bool
    then issue "DISTRIBUTION_DIFFERENCE" "warning" "userspace" "source and destination distributions differ"
           "use a matching system image when workloads depend on host libraries"
    else issue "DISTRO_INCOMPATIBLE" "error" "userspace"
           (if refusedByRule : bool
            then "source distribution " +:+ CapDistribution source +:+ " to destination " +:+ CapDistribution destination +:+ " is refused by the compatibility policy"
            else "cross-distribution restore from " +:+ CapDistribution source +:+ " to " +:+ CapDistribution destination +:+
                 " is refused by policy (cross_distro_default=refuse)")
           "use a matching system image, or add a certified distro pair to a compatibility policy file (SHIFT_COMPATIBILITY_POLICY=<path>, see compatibility.Policy)".

(** [Checker.Check]. *)
Definition check_issues (p : Policy) (policyErr : option string) (c : Checker) (m : DescribedManifest) (destination : MachineCapabilities) :
    list CompatibilityIssue :=
  let source := SourceFacts m in
  (match policyErr with
   | Some e => issue "POLICY_INVALID" "error" "policy" e "fix or remove the compatibility policy file named by SHIFT_COMPATIBILITY_POLICY"
   | None => []
   end) ++
  format_issues p (Described m) ++ platform_issues source destination ++ matrix_issues c destination ++ kernel_issues p source destination ++
  feature_issues source destination ++ capacity_issues (Described m) destination ++
  concat (gpu_row_issues c <$> DeviceNeeds m) ++
  concat (device_issues (ManifestWorkload (Described m)) destination <$> DeviceNeeds m) ++
  concat (runtime_issues destination <$> DeviceNeeds m) ++
  state_issues m destination ++ distro_issues p source destination ++
  (if feature destination "gnu_tar" then []
   else issue "ARCHIVE_TOOL_MISSING" "error" "filesystem" "GNU tar is required to restore ACLs, xattrs, sparse files, and ownership" "install GNU tar").
Definition is_error (i : CompatibilityIssue) : bool := bool_decide (IssueSeverity i = "error").
Definition Checker_Check (environment : string) (file : string → result Policy) (now : Z) (c : Checker) (m : DescribedManifest)
    (destination : MachineCapabilities) : CompatibilityReport :=
  let '(p, policyErr) := resolvedPolicy environment file c in
  let issues := check_issues p policyErr c m destination in
  {| Compatible := negb (existsb is_error issues); Issues := issues; CheckedAt := now |}.
End checker.
