(* ===== verification/CompatibilitySafe.v ===== *)
(** * What the restore check promises

    The order of versions, the exact conditions under which a checkpoint is
    reported compatible, and the platforms on which unattended operations may
    run under the shipped matrix. *)
From Stdlib Require Import Ascii.
From S2P Require Import Prelude Float64 GoStr Model Version Checkpoint Compatibility.

Local Open Scope string_scope.
Local Open Scope list_scope.
Local Open Scope Z_scope.

(** ** The order of versions *)

Definition segment (l : list Z) (i : nat) : Z := default 0 (l !! i).
(** The first segment that differs is smaller; missing segments are zero. *)
Definition older (l r : list Z) : Prop := ∃ i, (∀ j, (j < i)%nat → segment l j = segment r j) ∧ segment l i < segment r i.

Lemma segment_head l : segment l 0 = default 0 (head l).
Proof. by destruct l. Qed.
Lemma segment_tail l i : segment l (S i) = segment (tail l) i.
Proof. by destruct l; destruct i. Qed.

Lemma older_step l r : older l r ↔ segment l 0 < segment r 0 ∨ segment l 0 = segment r 0 ∧ older (tail l) (tail r).
Proof.
  split.
  - intros (i & Heq & Hlt). destruct i as [|i]; [by left|right]. split; [apply Heq; lia|]. exists i.
    rewrite <- !segment_tail. split; [|done]. intros j Hj. rewrite <- !segment_tail. apply Heq. lia.
  - intros [H|[H (i & Heq & Hlt)]]; [exists 0%nat; split; [lia|done]|]. exists (S i). rewrite !segment_tail. split; [|done].
    intros [|j] Hj; [done|]. rewrite !segment_tail. apply Heq. lia.
Qed.

Lemma compare_segment_neg l r rest : compare_segment l r rest < 0 ↔ l < r ∨ l = r ∧ rest < 0.
Proof. unfold compare_segment. case_decide; [lia|]. destruct (Z.ltb_spec l r); lia. Qed.

Lemma older_nil : ¬ older [] [].
Proof. intros (i & _ & H). unfold segment in H. rewrite lookup_nil in H. cbn in H. lia. Qed.

Lemma against_zeros_older rs : against_zeros rs < 0 ↔ older [] rs.
Proof.
  induction rs as [|r rs IH]; [split; [cbn; lia|by intros ?%older_nil]|]. cbn [against_zeros]. rewrite compare_segment_neg, IH, (older_step [] (r :: rs)). reflexivity.
Qed.

Lemma compare_older ls rs : compareVersions ls rs < 0 ↔ older ls rs.
Proof.
  revert rs. induction ls as [|l ls IH]; intros rs; cbn [compareVersions]; [apply against_zeros_older|].
  rewrite compare_segment_neg, IH, (older_step (l :: ls)), (segment_head rs). reflexivity.
Qed.

Lemma against_zeros_newer rs : 0 < against_zeros rs ↔ older rs [].
Proof.
  induction rs as [|r rs IH]; [split; [cbn; lia|by intros ?%older_nil]|]. cbn [against_zeros]. rewrite older_step, <- IH.
  change (segment (r :: rs) 0) with r. change (segment [] 0) with 0. unfold compare_segment. case_decide; [lia|]. destruct (Z.ltb_spec 0 r); lia.
Qed.

Lemma compare_newer ls rs : 0 < compareVersions ls rs ↔ older rs ls.
Proof.
  revert rs. induction ls as [|l ls IH]; intros rs; cbn [compareVersions]; [apply against_zeros_newer|].
  rewrite (older_step rs), <- IH, (segment_head rs). change (segment (l :: ls) 0) with l. change (tail (l :: ls)) with ls.
  unfold compare_segment. case_decide; [lia|]. destruct (Z.ltb_spec l (default 0 (head rs))); lia.
Qed.

(** ** Dashes *)

Lemma halve_dashes_length n : ∀ s, (String.length s ≤ n)%nat →
  (String.length (halve_dashes s) ≤ String.length s)%nat ∧ (Contains s "--" = true → (String.length (halve_dashes s) < String.length s)%nat).
Proof.
  induction n as [|n IH]; intros s Hs; [destruct s; [by split|cbn in Hs; lia]|].
  destruct s as [|a [|b r]]; [by split|split; [done|]; cbn; by destruct (bool_decide _)|]. cbn [String.length] in Hs.
  change (halve_dashes _) with (if bool_decide (a = "-"%char ∧ b = "-"%char) then String a (halve_dashes r) else String a (halve_dashes (String b r))).
  case_bool_decide as Hd.
  - destruct (IH r) as [Hr _]; [lia|]. cbn [String.length]. split; lia.
  - destruct (IH (String b r)) as [Hr Hc]; [cbn; lia|]. cbn [String.length] in *. split; [lia|]. intros H.
    enough (Contains (String b r) "--" = true) as Hb by (specialize (Hc Hb); lia).
    change (HasPrefix (String a (String b r)) "--" || Contains (String b r) "--" = true) in H. apply orb_true_iff in H as [H|H]; [|done].
    cbn in H. apply andb_true_iff in H as [? [? _]%andb_true_iff]. to_prop. by destruct Hd.
Qed.

(** The loop of [distributionKey] ends, and no two dashes are left. *)
Lemma collapse_done fuel s : (String.length s ≤ fuel)%nat → Contains (collapse fuel s) "--" = false.
Proof.
  revert s. induction fuel as [|fuel IH]; intros s Hs; cbn [collapse].
  - destruct s; [done|cbn in Hs; lia].
  - destruct (Contains s "--") eqn:H; [|done]. apply IH. destruct (halve_dashes_length _ s (le_n _)) as [_ Hlt]. specialize (Hlt H). lia.
Qed.

(** ** Reports *)

Definition clear (l : list CompatibilityIssue) : Prop := existsb is_error l = false.

Lemma clear_app l k : clear (l ++ k) ↔ clear l ∧ clear k.
Proof. unfold clear. rewrite existsb_app. apply orb_false_iff. Qed.
Lemma clear_nil : clear [].
Proof. done. Qed.
Lemma clear_concat {A} (f : A → list CompatibilityIssue) l : clear (concat (f <$> l)) ↔ ∀ x, x ∈ l → clear (f x).
Proof.
  induction l as [|x l IH]; cbn.
  - split; [by intros _ x ?%elem_of_nil|done].
  - rewrite clear_app. setoid_rewrite elem_of_cons. rewrite IH. naive_solver.
Qed.
Lemma clear_issue code severity resource description adaptation :
  clear (issue code severity resource description adaptation) ↔ severity ≠ "error".
Proof. unfold clear, issue, is_error. cbn. rewrite orb_false_r. apply bool_decide_eq_false. Qed.

Section checker.
Context (ToLower : string → string) (EqualFold : string → string → bool) (Quote : string → string).

#[local] Abbreviation distributionKey := (distributionKey ToLower).
#[local] Abbreviation SupportDecisionOf := (SupportDecisionOf ToLower EqualFold).
#[local] Abbreviation MatchGPU := (MatchGPU EqualFold).

(** The conditions under which a checkpoint can be restored. *)
Record restorable (p : Policy) (c : Checker) (m : DescribedManifest) (d : MachineCapabilities) : Prop := {
  r_format : Format (Described m) = StateFormatName;
  r_line : ∃ rest, versionParts (FormatVersion (Described m)) = 1 :: rest ∧ default 0 (head rest) ≤ 0;
  r_floor : versionParts (StateFormatFloor p) = [] ∨ ¬ older (versionParts (FormatVersion (Described m))) (versionParts (StateFormatFloor p));
  r_os : CapOS d = "linux";
  r_same_architecture : CapArchitecture d = CapArchitecture (SourceFacts m);
  r_architecture : CapArchitecture d = "amd64";
  r_criu : CRIUInstalled (CapCRIU d) = true ∧ CRIUHealthy (CapCRIU d) = true;
  r_criu_version : let v := versionParts (criuVersionNumber (CRIUVersion (CapCRIU d))) in head v = Some 4 ∨ head v = Some 3 ∧ ¬ older v [3; 17];
  r_platform : Action (SupportDecisionOf c d) = ActionAllow ∨ SupportStatus (SupportDecisionOf c d) ≠ StatusUnsupported;
  r_kernel : ∃ s d', head (versionParts (CapKernel (SourceFacts m))) = Some s ∧ head (versionParts (CapKernel d)) = Some d' ∧
    ¬ older (versionParts (CapKernel d)) (versionParts (CapKernel (SourceFacts m))) ∧
    (s = d' ∨ certifiedKernelPair p (CapKernel (SourceFacts m)) (CapKernel d) = true);
  r_features : ∀ f, Features (SourceFacts m) !! f = Some true → HasPrefix f "cpu." = true → Features d !! f = Some true;
  r_memory : required_memory (Described m) ≤ CapMemory d;
  r_storage : required_storage (Described m) ≤ AvailableForPath (CapStorage d) (RootPath (ManifestWorkload (Described m)));
  r_gpu_rows : ∀ g, g ∈ DeviceNeeds m →
    Action (GPUDecision EqualFold (support c) (Vendor g)) ≠ ActionExternalGPURequired ∧
    Action (GPUDecision EqualFold (support c) (Vendor g)) ≠ ActionBlockAutomatic;
  r_devices : ∀ g, g ∈ DeviceNeeds m →
    match MatchGPU g (CapGPUs d) with
    | Some found => CheckpointRestore g = true → CheckpointRestore found = true
    | None => CheckpointRestore g = false ∧ DevicePolicy (ManifestWorkload (Described m)) = DeviceWarnIncompatible
    end;
  r_state : ∀ i, i ∈ StateInventory m → ItemClass i = StateExternal → ItemRequired i = false;
  r_distribution : distributionKey (CapDistribution (SourceFacts m)) = distributionKey (CapDistribution d) ∨
    fst (distroAllowed ToLower p (CapDistribution (SourceFacts m)) (CapDistribution d)) = true;
  r_tar : Features d !! "gnu_tar" = Some true;
}.

Lemma feature_true d f : feature d f = true ↔ Features d !! f = Some true.
Proof. unfold feature. destruct (Features d !! f) as [[]|]; cbn; naive_solver. Qed.

Lemma format_accepted v floor :
  stateFormatDecision v StateFormatVersion floor = None ↔
  (∃ rest, versionParts v = 1 :: rest ∧ default 0 (head rest) ≤ 0) ∧ (versionParts floor = [] ∨ ¬ older (versionParts v) (versionParts floor)).
Proof.
  unfold stateFormatDecision. change (versionParts StateFormatVersion) with [1; 0; 0]. rewrite <- compare_older.
  destruct (versionParts v) as [|major rest]; [split; [done|intros [(? & ? & _) _]; done]|].
  destruct (negb _ && _) eqn:Hold.
  - apply andb_true_iff in Hold as [Hn Hlt]. to_prop. split; [done|]. intros [_ [|]]; [done|lia].
  - assert (versionParts floor = [] ∨ ¬ compareVersions (major :: rest) (versionParts floor) < 0) as Hfl.
    { apply andb_false_iff in Hold as [H|H]; [left|right; apply Z.ltb_ge in H; lia]. apply negb_false_iff in H. by to_prop. }
    destruct (Z.eqb_spec major 1) as [->|Hm]; cbn [negb]; [|split; [done|intros [(? & ? & _) _]; congruence]].
    destruct rest as [|minor rest]; [split; [intros _; split; [by exists []|done]|done]|].
    destruct (Z.ltb_spec 0 minor); split; try done.
    + intros [(? & [= <-] & Hle) _]. cbn in Hle. lia.
    + intros _. split; [|done]. by exists (minor :: rest).
Qed.

Lemma format_clear p m :
  clear (format_issues p m) ↔ Format m = StateFormatName ∧ (∃ rest, versionParts (FormatVersion m) = 1 :: rest ∧ default 0 (head rest) ≤ 0) ∧
    (versionParts (StateFormatFloor p) = [] ∨ ¬ older (versionParts (FormatVersion m)) (versionParts (StateFormatFloor p))).
Proof.
  unfold format_issues. case_decide as Hf; [|rewrite clear_issue; tauto]. rewrite <- format_accepted.
  destruct (stateFormatDecision _ _ _) as [[[code description] adaptation]|]; [rewrite clear_issue|]; split; try tauto; try done. by intros [_ ?].
Qed.

Lemma criu_version_supported v :
  criuVersionSupported v = true ↔
  let l := versionParts (criuVersionNumber v) in head l = Some 4 ∨ head l = Some 3 ∧ ¬ older l [3; 17].
Proof.
  unfold criuVersionSupported. cbv zeta. rewrite <- compare_older. destruct (versionParts _) as [|major rest]; [naive_solver|].
  cbn [head]. case_decide as H3; [subst; rewrite Z.leb_le; split; [right; split; [done|lia]|intros [?|[_ ?]]; [done|lia]]|].
  rewrite bool_decide_eq_true. split; [intros ->; by left|]. intros [[= ->]|[[= ?] _]]; congruence.
Qed.

Lemma platform_clear source d :
  clear (platform_issues Quote source d) ↔
  CapOS d = "linux" ∧ CapArchitecture d = CapArchitecture source ∧ CapArchitecture d = "amd64" ∧ criu_ready d = true ∧
  criuVersionSupported (CRIUVersion (CapCRIU d)) = true.
Proof.
  unfold platform_issues. rewrite !clear_app. destruct (decide (CapOS d = "linux")), (decide (CapArchitecture d = CapArchitecture source)),
    (decide (CapArchitecture d = "amd64")), (criu_ready d), (criuVersionSupported _); cbn [negb]; rewrite ?clear_issue; intuition (first [done|apply clear_nil]).
Qed.

Lemma matrix_clear c d :
  CapOS d = "linux" → CapArchitecture d = "amd64" → criu_ready d = true →
  clear (matrix_issues ToLower EqualFold c d) ↔ Action (SupportDecisionOf c d) = ActionAllow ∨ SupportStatus (SupportDecisionOf c d) ≠ StatusUnsupported.
Proof.
  intros Hos Harch Hc. unfold matrix_issues. rewrite !bool_decide_eq_true_2, Hc by done. cbn [andb]. cbv zeta.
  case_decide as Ha; [split; [by left|intros _; apply clear_nil]|]. case_decide as Hu; [rewrite clear_issue; tauto|].
  case_decide; rewrite clear_issue; split; auto; done.
Qed.

Lemma kernel_clear p source d :
  clear (kernel_issues Quote p source d) ↔
  ∃ s d', head (versionParts (CapKernel source)) = Some s ∧ head (versionParts (CapKernel d)) = Some d' ∧
    ¬ older (versionParts (CapKernel d)) (versionParts (CapKernel source)) ∧
    (s = d' ∨ certifiedKernelPair p (CapKernel source) (CapKernel d) = true).
Proof.
  unfold kernel_issues. setoid_rewrite <- compare_older.
  destruct (versionParts (CapKernel source)) as [|s ss]; [rewrite clear_issue; naive_solver|].
  destruct (versionParts (CapKernel d)) as [|d' ds]; [rewrite clear_issue; naive_solver|]. cbn [head].
  destruct (Z.ltb_spec (compareVersions (d' :: ds) (s :: ss)) 0) as [Hlt|Hge]; [rewrite clear_issue; split; [done|]; by intros (? & ? & _ & _ & ? & _)|].
  destruct (Z.eqb_spec s d') as [->|Hne]; cbn [negb andb]; [split; [|intros; apply clear_nil]; intros _; exists d', d'; split_and!; auto; lia|].
  destruct (certifiedKernelPair _ _ _); cbn [negb]; [split; [|intros; apply clear_nil]; intros _; exists s, d'; split_and!; auto; lia|].
  rewrite clear_issue. split; [done|]. intros (? & ? & [= <-] & [= <-] & _ & [?|?]); done.
Qed.

Lemma feature_clear source d :
  clear (feature_issues source d) ↔ ∀ f, Features source !! f = Some true → HasPrefix f "cpu." = true → Features d !! f = Some true.
Proof.
  unfold feature_issues. rewrite clear_concat. split.
  - intros H f Hf Hp. specialize (H (f, true)). cbn [fst snd] in H. rewrite Hp in H. cbn [andb] in H.
    apply feature_true. destruct (feature d f); [done|]. cbn in H. rewrite clear_issue in H. exfalso. by apply H; [apply elem_of_map_to_list|].
  - intros H [f v] Hin. cbn [fst snd]. apply elem_of_map_to_list in Hin. destruct v; [|done]. destruct (HasPrefix f "cpu.") eqn:Hp; [|done].
    rewrite (proj2 (feature_true d f)); [done|auto].
Qed.

Lemma capacity_clear m d :
  clear (capacity_issues m d) ↔ required_memory m ≤ CapMemory d ∧ required_storage m ≤ AvailableForPath (CapStorage d) (RootPath (ManifestWorkload m)).
Proof.
  unfold capacity_issues. cbv zeta. rewrite clear_app.
  destruct (Z.ltb_spec (CapMemory d) (required_memory m)); rewrite ?clear_issue;
    [split; [by intros [? _]|lia]|]. destruct (Z.ltb_spec (AvailableForPath (CapStorage d) (RootPath (ManifestWorkload m))) (required_storage m));
    rewrite ?clear_issue; [split; [by intros [_ ?]|lia]|]. split; [lia|]. by intros _.
Qed.

Lemma gpu_row_clear c g :
  clear (gpu_row_issues EqualFold c g) ↔
  Action (GPUDecision EqualFold (support c) (Vendor g)) ≠ ActionExternalGPURequired ∧
  Action (GPUDecision EqualFold (support c) (Vendor g)) ≠ ActionBlockAutomatic.
Proof.
  unfold gpu_row_issues. cbv zeta. case_decide as Ha; [rewrite Ha; split; [done|intros _; apply clear_nil]|].
  case_decide; rewrite clear_issue; [tauto|]. case_decide; [tauto|]. split; [done|]. by intros _.
Qed.

Lemma device_clear spec d g :
  clear (device_issues EqualFold spec d g) ↔
  match MatchGPU g (CapGPUs d) with
  | Some found => CheckpointRestore g = true → CheckpointRestore found = true
  | None => CheckpointRestore g = false ∧ DevicePolicy spec = DeviceWarnIncompatible
  end.
Proof.
  unfold device_issues. cbv zeta. destruct (Compatibility.MatchGPU _ _ _) as [found|].
  - rewrite clear_app. destruct (CheckpointRestore g), (CheckpointRestore found), (EqualFold _ _); cbn [negb andb]; rewrite ?clear_issue; intuition done.
  - rewrite clear_issue. destruct (CheckpointRestore g); [split; [done|by intros []]|]. destruct (decide (DevicePolicy spec = DeviceWarnIncompatible)) as [H|H].
    + by rewrite bool_decide_eq_true_2.
    + rewrite bool_decide_eq_false_2 by done. split; [done|by intros []].
Qed.

Lemma runtime_clear d g : clear (runtime_issues EqualFold d g).
Proof.
  unfold runtime_issues. case_decide; [done|]. destruct (default _ _) as [family version]. destruct (findRuntime _ _ _); [destruct (_ && _); [|done]|]; by apply clear_issue.
Qed.

Lemma state_clear m d : clear (state_issues m d) ↔ ∀ i, i ∈ StateInventory m → ItemClass i = StateExternal → ItemRequired i = false.
Proof.
  unfold state_issues. rewrite clear_app, clear_concat. split.
  - intros [H _] i Hi Hc. specialize (H i Hi). rewrite bool_decide_eq_true_2 in H by done. destruct (ItemRequired i); [|done]. by apply clear_issue in H.
  - intros H. split; [|destruct (_ && _); [by apply clear_issue|done]]. intros i Hi. specialize (H i Hi).
    destruct (bool_decide _) eqn:Hb; [|done]. to_prop. rewrite H by done. done.
Qed.

Lemma distro_clear p source d :
  clear (distro_issues ToLower p source d) ↔
  distributionKey (CapDistribution source) = distributionKey (CapDistribution d) ∨ fst (distroAllowed ToLower p (CapDistribution source) (CapDistribution d)) = true.
Proof.
  unfold distro_issues. case_decide as H; [split; [by left|done]|]. destruct (distroAllowed _ _ _ _) as [[] refused]; cbn [fst]; rewrite clear_issue.
  - split; [by right|done].
  - split; [done|by intros [?|?]].
Qed.

(** ** The shipped matrix *)

(** The one platform the release certifies. *)
Record certified (d : MachineCapabilities) : Prop := {
  c_os : CapOS d = "linux";
  c_architecture : CapArchitecture d = "amd64";
  c_criu : criu_ready d = true;
  c_distribution : distributionKey (CapDistribution d) = distributionKey "ubuntu-24.04";
  c_kernel : ∃ minor rest, versionParts (CapKernel d) = 6 :: minor :: rest ∧ 8 ≤ minor ≤ 11;
  c_criu_line : matchesCRIULine ["4.2"] (criuVersionNumber (CRIUVersion (CapCRIU d))) = true;
}.

Lemma kernel_line observed :
  kernelInRange observed "6.8" "6.11" = true ↔ ∃ minor rest, versionParts observed = 6 :: minor :: rest ∧ 8 ≤ minor ≤ 11.
Proof.
  unfold kernelInRange. change (versionParts "6.8") with [6; 8]. change (versionParts "6.11") with [6; 11].
  destruct (versionParts observed) as [|a [|b rest]]; [naive_solver|naive_solver|].
  rewrite !decide_False, !bool_decide_eq_false_2 by done. cbn [length Nat.ltb Nat.leb orb take].
  rewrite !take_0. cbn [compareVersions head tail default against_zeros]. unfold compare_segment.
  cbv [id]. destruct (decide (a = 6)) as [->|Ha].
  - destruct (decide (b = 8)), (decide (b = 11)), (Z.ltb_spec b 8), (Z.ltb_spec b 11); subst; cbn; try lia;
      split; try done; try (by intros (? & ? & [= <- <-] & ?); lia); intros _; eexists _, _; (split; [done|lia]).
  - destruct (a <? 6); cbn; split; try done; intros (? & ? & [= ? _ _] & _); congruence.
Qed.

Definition certified_row : SupportPlatform :=
  {| PlatformID := "linux-amd64-ubuntu-2404"; PlatformDistribution := "ubuntu-24.04"; PlatformArchitecture := "amd64"; KernelMin := "6.8"; KernelMax := "6.11";
     CRIUVersions := ["4.2"]; PlatformStatus := "certified"; PlatformEvidence := default "" (PlatformEvidence <$> head (Platforms DefaultSupportMatrix)) |}.

(** No other row lets unattended operations run. *)
Lemma only_row p (degraded : bool) :
  p ∈ Platforms DefaultSupportMatrix →
  let status := if degraded && bool_decide (PlatformStatus p = StatusCertified) then StatusUntested else PlatformStatus p in
  policyAction DefaultSupportMatrix status (defaultActionFor status) = ActionAllow → p = certified_row ∧ degraded = false.
Proof.
  cbn [Platforms DefaultSupportMatrix]. rewrite !elem_of_cons, elem_of_nil. intros Hp.
  repeat destruct Hp as [->|Hp]; [..|done]; destruct degraded; vm_compute; done.
Qed.

Lemma row_matched evidence p :
  EqualFold "ubuntu-24.04" "linux" = false →
  matchPlatform ToLower EqualFold DefaultSupportMatrix evidence = Some p →
  p ∈ Platforms DefaultSupportMatrix ∧
  (p = certified_row → covers evidence p = true ∧ distributionKey "ubuntu-24.04" = distributionKey (EvDistribution evidence)).
Proof.
  intros Hf. unfold matchPlatform. cbv zeta. destruct (List.find _ (filter _ _)) as [q|] eqn:Hq.
  - intros [= ->]. apply find_some in Hq as [[Hc Hin]%list_elem_of_In%list_elem_of_filter Hk]. to_prop. split; [done|]. intros ->. done.
  - intros Hg. apply find_some in Hg as [[Hc Hin]%list_elem_of_In%list_elem_of_filter Hk]. split; [done|]. intros ->. cbn in Hk. congruence.
Qed.

Lemma row_found evidence :
  covers evidence certified_row = true → distributionKey "ubuntu-24.04" = distributionKey (EvDistribution evidence) →
  matchPlatform ToLower EqualFold DefaultSupportMatrix evidence = Some certified_row.
Proof.
  intros Hc Hk. unfold matchPlatform. cbv zeta. replace (Platforms DefaultSupportMatrix) with (certified_row :: tail (Platforms DefaultSupportMatrix)) by done.
  rewrite filter_cons, decide_True by done. cbn [List.find]. rewrite bool_decide_eq_true_2 by done. done.
Qed.

Lemma automatic_certified d :
  EqualFold "ubuntu-24.04" "linux" = false → AllowAutomatic (SupportDecisionOf no_checker d) = true ↔ certified d.
Proof.
  intros Hf. unfold Compatibility.SupportDecisionOf. change (support no_checker) with DefaultSupportMatrix. unfold Decide.
  split.
  - destruct (bool_decide (EvOS _ = _) && _) eqn:Hos; cbn [negb]; [|done]. apply andb_true_iff in Hos as [? ?]. to_prop. cbn [EvOS EvArchitecture EvCheck supportEvidence] in *.
    destruct (criu_ready d) eqn:Hr; [|done]. replace (HasPrefix "passed" "failed" || HasPrefix "passed" "not-run") with false by done.
    destruct (matchPlatform _ _ _ _) as [p|] eqn:Hp; [|done]. destruct (row_matched _ _ Hf Hp) as [Hin Hrow].
    unfold decided at 1. cbn [AllowAutomatic]. rewrite bool_decide_eq_true. intros Hal. apply only_row in Hal as [-> Hdeg]; [|done].
    destruct (Hrow eq_refl) as [Hc Hk]. unfold covers in Hc. apply andb_true_iff in Hc as [_ Hc]. cbn in Hc, Hk, Hdeg.
    split; [done|done|done|done|by apply kernel_line|]. by apply negb_false_iff in Hdeg.
  - intros [Hos Har Hr Hk Hv Hl]. rewrite !bool_decide_eq_true_2 by done. cbn [negb andb EvCheck supportEvidence]. rewrite Hr.
    replace (HasPrefix "passed" "failed" || HasPrefix "passed" "not-run") with false by done. rewrite row_found; [| |done].
    + cbn [CRIUVersions certified_row EvCRIU supportEvidence]. rewrite Hl. done.
    + unfold covers. cbn [PlatformArchitecture certified_row EvArchitecture supportEvidence KernelMin KernelMax EvKernel]. rewrite bool_decide_eq_true_2 by done. by apply kernel_line.
Qed.

Lemma check_exact environment file now c m d :
  Compatible (Checker_Check ToLower EqualFold Quote environment file now c m d) = true ↔
  snd (resolvedPolicy environment file c) = None ∧ restorable (fst (resolvedPolicy environment file c)) c m d.
Proof.
  unfold Checker_Check. destruct (resolvedPolicy environment file c) as [p [e|]]; cbn [fst snd]; [split; [done|by intros []]|].
  cbn [Compatible]. rewrite negb_true_iff. change (existsb is_error ?l = false) with (clear l). unfold check_issues. cbv zeta.
  rewrite !clear_app, !clear_concat, format_clear, platform_clear, kernel_clear, feature_clear, capacity_clear, state_clear, distro_clear.
  setoid_rewrite gpu_row_clear. setoid_rewrite device_clear. rewrite criu_version_supported. unfold criu_ready. rewrite andb_true_iff.
  assert (clear (if feature d "gnu_tar" then [] else issue "ARCHIVE_TOOL_MISSING" "error" "filesystem"
    "GNU tar is required to restore ACLs, xattrs, sparse files, and ownership" "install GNU tar") ↔ Features d !! "gnu_tar" = Some true) as ->.
  { rewrite <- feature_true. destruct (feature d "gnu_tar"); [done|]. rewrite clear_issue. split; done. }
  split.
  - intros (_ & (? & ? & ?) & (? & ? & ? & [] & ?) & Hm & ? & ? & [] & ? & ? & _ & ? & ? & ?). split; [done|].
    rewrite matrix_clear in Hm by (done || unfold criu_ready; by apply andb_true_iff). by split.
  - intros [_ []]. split_and!; try done; try tauto; [|intros; apply runtime_clear].
    apply matrix_clear; [done|done|unfold criu_ready; by apply andb_true_iff|done].
Qed.

(** C14.  The check is exact.  A report says compatible if and only if
    the policy could be read and every condition of a restore holds: a format
    of the same line that is neither newer nor older than the floor, Linux on
    the same architecture, a working CRIU of a supported line, a platform the
    matrix does not call unsupported, a kernel that is not older and of the
    same major or a certified pair, every CPU feature of the source, memory
    and storage, every device, no external state, a permitted distribution,
    and GNU tar. *)
Theorem restore_gate environment file now c m d :
  Compatible (Checker_Check ToLower EqualFold Quote environment file now c m d) = true ↔
  snd (resolvedPolicy environment file c) = None ∧ restorable (fst (resolvedPolicy environment file c)) c m d.
Proof. apply check_exact. Qed.
End checker.
