(* ===== verification/Placement.v ===== *)
(** * Choosing a destination ([internal/scheduler])

    Offers of machines, what they cost and how far away they are
    ([offer.go]), the choice among them ([scheduler.go]) and the holds on
    their capacity ([reservation.go]).  A [float64] is a double of [Float64].  The case
    mappings of Unicode are arguments, and so is what the restore check gets
    from its environment. *)
From Stdlib Require Import Ascii.
From S2P Require Import Prelude Float64 GoStr Model Version Compatibility.

Local Open Scope string_scope.
Local Open Scope list_scope.
Local Open Scope Z_scope.

(** ** Data *)

(** [Resources]. *)
Record Resources := { Cpus : float64; Memory : Z; Storage : Z; Mbps : float64; Gpus : list GPUDevice }.
#[export] Instance Resources_eta : Eta Resources := fun r =>
  Build_Resources (Cpus r) (Memory r) (Storage r) (Mbps r) (Gpus r).

(** [TrustTier], [Visibility] and [OfferStatus]. *)
Definition trustRank (tier : string) : option Z :=
  if decide (tier = "unverified") then Some 0 else if decide (tier = "community") then Some 1
  else if decide (tier = "organization") then Some 2 else if decide (tier = "verified") then Some 3 else None.
Definition Rank (tier : string) : Z := default 0 (trustRank tier).
Definition VisibilityPrivate : string := "private".
Definition VisibilityOrganization : string := "organization".
Definition VisibilityPublic : string := "public".
Definition OfferAvailable : string := "available".

(** [Pricing], in millionths of the currency. *)
Record Pricing := {
  Currency : string;
  CPUHourMicros : Z;
  MemoryGiBHourMicros : Z;
  StorageGiBHourMicros : Z;
  GPUHourMicros : Z;
  EgressGiBMicros : Z;
  MinimumChargeMicros : Z;
  BillingIncrementHours : Z;
}.
#[export] Instance Pricing_eta : Eta Pricing := fun p =>
  Build_Pricing (Currency p) (CPUHourMicros p) (MemoryGiBHourMicros p) (StorageGiBHourMicros p) (GPUHourMicros p)
    (EgressGiBMicros p) (MinimumChargeMicros p) (BillingIncrementHours p).

Record Geography := { Region : string; Country : string; Zone : string }.

(** [Policy] of the owner of a machine. *)
Record OfferPolicy := {
  Visibility : string;
  AllowedOrganizations : list string;
  DeniedOrganizations : list string;
  PolicyCountries : list string;
  MaxStateBytes : Z;
  MaxDurationHours : Z;
  RequireEncryptedState : bool;
  GPUSharingAllowed : bool;
}.
#[export] Instance OfferPolicy_eta : Eta OfferPolicy := fun p =>
  Build_OfferPolicy (Visibility p) (AllowedOrganizations p) (DeniedOrganizations p) (PolicyCountries p) (MaxStateBytes p)
    (MaxDurationHours p) (RequireEncryptedState p) (GPUSharingAllowed p).

Record Availability := { OfferStatus : string; WindowFrom : option Z; WindowTo : option Z; LastSeenAt : option Z }.
#[export] Instance Availability_eta : Eta Availability := fun a =>
  Build_Availability (OfferStatus a) (WindowFrom a) (WindowTo a) (LastSeenAt a).

Record LatencySample := { Observer : string; RoundTripMs : float64 }.

(** [Offer], without its times of creation and change. *)
Record Offer := {
  OfferID : string;
  OwnerID : string;
  OfferMachine : string;
  MachineName : string;
  AgentURL : string;
  Exposed : Resources;
  Committed : Resources;
  OfferPricing : Pricing;
  OfferGeography : Geography;
  Terms : OfferPolicy;
  OfferAvailability : Availability;
  Trust : string;
  IdentityVerified : bool;
  Capabilities : MachineCapabilities;
  Latency : list LatencySample;
}.
#[export] Instance Offer_eta : Eta Offer := fun o =>
  Build_Offer (OfferID o) (OwnerID o) (OfferMachine o) (MachineName o) (AgentURL o) (Exposed o) (Committed o) (OfferPricing o)
    (OfferGeography o) (Terms o) (OfferAvailability o) (Trust o) (IdentityVerified o) (Capabilities o) (Latency o).

(** [Constraints]. *)
Record Constraints := {
  AllowedRegions : list string;
  DeniedRegions : list string;
  AllowedCountries : list string;
  DeniedCountries : list string;
  MinTrust : string;
  MaxPriceMicrosPerHour : Z;
  ReqCurrency : string;
  MaxLatencyMillis : float64;
  RequiredFeatures : list string;
  ExcludeMachineIDs : list string;
  IncludeOtherOrganizations : bool;
  StateIsEncrypted : bool;
  SharesGPU : bool;
  AllowExperimentalPlatforms : bool;
}.

(** [Weights]. *)
Record Weights := { WCapability : float64; WPrice : float64; WLatency : float64; WTrust : float64; WLocality : float64; WFreshness : float64 }.

(** [Request], without the workload it is for. *)
Record Request := {
  Requester : string;
  SourceMachine : string;
  SourceGeography : Geography;
  Requirements : Resources;
  StateBytes : Z;
  Duration : Z;
  Wanted : Constraints;
  ReqWeights : option Weights;
  Limit : Z;
  ReqManifest : option DescribedManifest;
}.

(** [Scores], [Candidate], [Rejection] and [Placement]. *)
Record Scores := {
  SCapability : float64; SPrice : float64; SLatency : float64; STrust : float64; SLocality : float64; SFreshness : float64; Total : float64;
}.
Record Candidate := {
  CandidateOffer : string;
  CandidateMachine : string;
  CandidateOwner : string;
  CandidateGeography : Geography;
  CandidateTrust : string;
  SameOrganization : bool;
  Available : Resources;
  HourlyMicros : Z;
  EstimatedMicros : Z;
  CandidateCurrency : string;
  LatencyMillis : float64;
  LatencyKnown : bool;
  CandidateScores : Scores;
  Warnings : list string;
}.
#[export] Instance Candidate_eta : Eta Candidate := fun c =>
  Build_Candidate (CandidateOffer c) (CandidateMachine c) (CandidateOwner c) (CandidateGeography c) (CandidateTrust c) (SameOrganization c)
    (Available c) (HourlyMicros c) (EstimatedMicros c) (CandidateCurrency c) (LatencyMillis c) (LatencyKnown c) (CandidateScores c) (Warnings c).
Record Rejection := { RejectedOffer : string; RejectedMachine : string; RejectionCode : string; Reason : string }.
Record Placement := { Candidates : list Candidate; Rejected : list Rejection; Evaluated : nat; PlacementWeights : Weights }.

(** [Config]. *)
Record Config := { PublicTradingEnabled : bool; StaleAfter : Z; ConfigWeights : Weights; ConfigChecker : Checker }.

Definition second_ns : Z := 10 ^ 9.
Definition hour : Z := 3600 * second_ns.

Definition clamp (value low high : float64) : float64 := if (value <? low)%F then low else if (high <? value)%F then high else value.

(** ** GPUs *)

Section scheduler.
Context (ToLower ToUpper : string → string) (EqualFold : string → string → bool)
        (Quote : string → string) (environment : string) (file : string → result Policy).

(** [indexOfGPU] and [remainingGPUs]. *)
Fixpoint index_of (f : GPUDevice → bool) (pool : list GPUDevice) : option nat :=
  match pool with
  | [] => None
  | g :: rest => if f g then Some 0%nat else S <$> index_of f rest
  end.
Definition indexOfGPU (pool : list GPUDevice) (wanted : GPUDevice) : option nat :=
  match index_of (λ g, EqualFold (Vendor g) (Vendor wanted) && EqualFold (GPUModel g) (GPUModel wanted)) pool with
  | Some i => Some i
  | None => index_of (λ g, EqualFold (Vendor g) (Vendor wanted)) pool
  end.
Fixpoint remainingGPUs (pool used : list GPUDevice) : list GPUDevice :=
  match used with
  | [] => pool
  | device :: rest => remainingGPUs (match indexOfGPU pool device with Some i => delete i pool | None => pool end) rest
  end.

(** ** Capacity *)

Definition subtractBytes (total used : Z) : Z := if total <=? used then 0 else total - used.
Definition less_or_zero (total used : float64) : float64 := let left := (total - used)%F in if (left <? 0)%F then 0%F else left.

(** [Resources.Subtract] and [Offer.Available]. *)
Definition Subtract (r used : Resources) : Resources :=
  {| Cpus := less_or_zero (Cpus r) (Cpus used); Memory := subtractBytes (Memory r) (Memory used);
     Storage := subtractBytes (Storage r) (Storage used); Mbps := less_or_zero (Mbps r) (Mbps used);
     Gpus := remainingGPUs (Gpus r) (Gpus used) |}.
Definition Offer_Available (o : Offer) : Resources := Subtract (Exposed o) (Committed o).

(** ** Prices *)

Definition gibibytes (value : Z) : float64 := (of_Z value / of_Z (2 ^ 30))%F.

(** [roundMicros]. *)
Definition roundMicros (value : float64) : Z := if (value <=? 0)%F then 0 else to_int64 (value + 0.5)%F.

(** [Pricing.Cost]. *)
Definition billable (p : Pricing) (duration : Z) : Z :=
  let increment := int64 (BillingIncrementHours p * hour) in
  if 0 <? increment then int64 (int64 (duration + increment - 1) /' increment * increment) else duration.
Definition Cost (p : Pricing) (r : Resources) (duration egressBytes : Z) : Z :=
  let hours := Hours (billable p (Z.max duration 0)) in
  let total := int64 (roundMicros (of_Z (CPUHourMicros p) * Cpus r * hours)%F +
                      roundMicros (of_Z (MemoryGiBHourMicros p) * gibibytes (Memory r) * hours)%F +
                      roundMicros (of_Z (StorageGiBHourMicros p) * gibibytes (Storage r) * hours)%F +
                      roundMicros (of_Z (GPUHourMicros p) * of_Z (Z.of_nat (length (Gpus r))) * hours)%F +
                      roundMicros (of_Z (EgressGiBMicros p) * gibibytes egressBytes)%F) in
  Z.max total (MinimumChargeMicros p).
Definition HourlyRate (p : Pricing) (r : Resources) : Z :=
  Cost (p <| EgressGiBMicros := 0 |> <| MinimumChargeMicros := 0 |> <| BillingIncrementHours := 0 |>) r hour 0.

(** ** Normal forms *)

Definition Geography_normalize (g : Geography) : Geography :=
  {| Region := ToLower (TrimSpace (Region g)); Country := ToUpper (TrimSpace (Country g)); Zone := ToLower (TrimSpace (Zone g)) |}.

(** [normalizeList]. *)
Fixpoint normalize_from (upper : bool) (seen values : list string) : list string :=
  match values with
  | [] => []
  | value :: rest =>
      let trimmed := if upper then ToUpper (TrimSpace value) else TrimSpace value in
      if bool_decide (trimmed = "") || bool_decide (trimmed ∈ seen) then normalize_from upper seen rest
      else trimmed :: normalize_from upper (trimmed :: seen) rest
  end.
Definition normalizeList (values : list string) (upper : bool) : list string := normalize_from upper [] values.

Definition containsFold (values : list string) (wanted : string) : bool := existsb (λ v, EqualFold v wanted) values.

Definition OfferPolicy_normalize (p : OfferPolicy) : OfferPolicy :=
  p <| AllowedOrganizations := normalizeList (AllowedOrganizations p) false |>
    <| DeniedOrganizations := normalizeList (DeniedOrganizations p) false |>
    <| PolicyCountries := normalizeList (PolicyCountries p) true |>
    <| Visibility := if decide (Visibility p = "") then VisibilityOrganization else Visibility p |>.

(** [strings.TrimRight(s, "/")]. *)
Fixpoint trim_slashes (s : string) : string :=
  match s with
  | EmptyString => ""
  | String a r => match trim_slashes r with
                  | EmptyString => if decide (a = "/"%char) then "" else String a ""
                  | r' => String a r'
                  end
  end.

(** [Offer.Normalize]. *)
Definition Offer_Normalize (o : Offer) : Offer :=
  o <| OfferID := TrimSpace (OfferID o) |> <| OwnerID := TrimSpace (OwnerID o) |> <| OfferMachine := TrimSpace (OfferMachine o) |>
    <| MachineName := TrimSpace (MachineName o) |> <| AgentURL := trim_slashes (TrimSpace (AgentURL o)) |>
    <| OfferPricing := (OfferPricing o) <| Currency := ToUpper (TrimSpace (Currency (OfferPricing o))) |> |>
    <| OfferGeography := Geography_normalize (OfferGeography o) |> <| Terms := OfferPolicy_normalize (Terms o) |>
    <| OfferAvailability := if decide (OfferStatus (OfferAvailability o) = "") then (OfferAvailability o) <| OfferStatus := "offline" |>
                            else OfferAvailability o |>
    <| Trust := match trustRank (Trust o) with Some _ => Trust o | None => "unverified" end |>.

(** [Request.normalize]. *)
Definition normalize_constraints (c : Constraints) : Constraints :=
  {| AllowedRegions := normalizeList (AllowedRegions c) false; DeniedRegions := normalizeList (DeniedRegions c) false;
     AllowedCountries := normalizeList (AllowedCountries c) true; DeniedCountries := normalizeList (DeniedCountries c) true;
     MinTrust := MinTrust c; MaxPriceMicrosPerHour := MaxPriceMicrosPerHour c; ReqCurrency := ToUpper (TrimSpace (ReqCurrency c));
     MaxLatencyMillis := MaxLatencyMillis c; RequiredFeatures := normalizeList (RequiredFeatures c) false;
     ExcludeMachineIDs := normalizeList (ExcludeMachineIDs c) false; IncludeOtherOrganizations := IncludeOtherOrganizations c;
     StateIsEncrypted := StateIsEncrypted c; SharesGPU := SharesGPU c; AllowExperimentalPlatforms := AllowExperimentalPlatforms c |}.
Definition Request_normalize (r : Request) : result Request :=
  let c := normalize_constraints (Wanted r) in
  let r := {| Requester := TrimSpace (Requester r); SourceMachine := TrimSpace (SourceMachine r);
              SourceGeography := Geography_normalize (SourceGeography r); Requirements := Requirements r; StateBytes := StateBytes r;
              Duration := Duration r; Wanted := c; ReqWeights := ReqWeights r; Limit := Limit r; ReqManifest := ReqManifest r |} in
  _ ← require (negb (bool_decide (Requester r = ""))) "a placement request requires the requesting organization";
  _ ← require (bool_decide (MinTrust c = "") || bool_decide (is_Some (trustRank (MinTrust c)))) "unsupported minimum trust tier";
  _ ← require (0 <=? MaxPriceMicrosPerHour c) "maximum price cannot be negative";
  _ ← require (negb (MaxLatencyMillis c <? 0)%F) "maximum latency cannot be negative";
  _ ← require (0 <=? Duration r) "placement duration cannot be negative";
  _ ← require (negb (Cpus (Requirements r) <? 0)%F && negb (Mbps (Requirements r) <? 0)%F) "resource requirements cannot be negative";
  _ ← require (0 <=? Limit r) "placement limit cannot be negative";
  Ok r.

(** ** Trust and distance *)

Definition AtLeast (tier minimum : string) : bool :=
  if decide (minimum = "") then true
  else match trustRank tier, trustRank minimum with
       | Some a, Some b => b <=? a
       | _, _ => false
       end.

(** [ClampTrust]. *)
Definition ClampTrust (claimed : string) (sameOrganization identityVerified : bool) : string :=
  let claimed := match trustRank claimed with Some _ => claimed | None => "unverified" end in
  let ceiling := if identityVerified && sameOrganization then "verified" else if sameOrganization then "organization" else "community" in
  if Rank ceiling <? Rank claimed then ceiling else claimed.

(** [Offer.LatencyTo]. *)
Definition LatencyTo (o : Offer) (machineID : string) (g : Geography) : option float64 :=
  let g := Geography_normalize g in
  let machineID := TrimSpace machineID in
  let keys := (if decide (machineID = "") then [] else [machineID]) ++
              (if decide (Region g = "") then [] else ["region:" +:+ Region g]) ++
              (if decide (Country g = "") then [] else ["country:" +:+ Country g]) in
  head (omap (λ key, RoundTripMs <$> List.find (λ s, EqualFold (TrimSpace (Observer s)) key) (Latency o)) keys).

(** ** Evaluating one offer *)

(** The loop over the required GPUs: why it fails, if it does. *)
Fixpoint match_gpus (required pool : list GPUDevice) : option string :=
  match required with
  | [] => None
  | g :: rest =>
      match MatchGPU EqualFold g pool with
      | None => Some "no available GPU satisfies the requirement"
      | Some found => if CheckpointRestore g && negb (CheckpointRestore found)
                      then Some "the available GPU does not advertise checkpoint/restore"
                      else match_gpus rest (remainingGPUs pool [found])
      end
  end.

Definition firstErrorIssue (r : CompatibilityReport) : string :=
  match List.find (λ i, bool_decide (IssueSeverity i = "error")) (Issues r) with
  | Some i => IssueCode i +:+ ": " +:+ IssueDescription i
  | None => "the destination cannot restore this state"
  end.

(** The checker of the scheduler. *)
Definition check (cfg : Config) (now : Z) (m : DescribedManifest) (caps : MachineCapabilities) : CompatibilityReport :=
  Checker_Check ToLower EqualFold Quote environment file now (ConfigChecker cfg) m caps.
Definition decision (cfg : Config) (caps : MachineCapabilities) : SupportDecision := SupportDecisionOf ToLower EqualFold (ConfigChecker cfg) caps.

Definition experimental (r : Request) (d : SupportDecision) : bool :=
  bool_decide (Action d = "experimental_only") && AllowExperimentalPlatforms (Wanted r).

(** [Scheduler.evaluate]: its conditions in their order, each with the code
    and the reason of the rejection. *)
Definition refusals (cfg : Config) (r : Request) (o : Offer) (now : Z) : list (bool * (string * string)) :=
  let c := Wanted r in
  let p := Terms o in
  let a := OfferAvailability o in
  let same := bool_decide (OwnerID o = Requester r) in
  let other := negb same && IncludeOtherOrganizations c in
  let g := OfferGeography o in
  let need := Requirements r in
  let available := Offer_Available o in
  let hourly := HourlyRate (OfferPricing o) need in
  let latency := LatencyTo o (SourceMachine r) (SourceGeography r) in
  let trust := ClampTrust (Trust o) same (IdentityVerified o) in
  [ (containsFold (ExcludeMachineIDs c) (OfferMachine o), ("MACHINE_EXCLUDED", "the request excluded this machine"));
    (negb (bool_decide (SourceMachine r = "")) && EqualFold (OfferMachine o) (SourceMachine r),
      ("SELF_PLACEMENT", "a workload cannot be placed on the machine it already runs on"));
    (negb (bool_decide (OfferStatus a = OfferAvailable)), ("OFFER_UNAVAILABLE", "offer status"));
    (match WindowFrom a with Some from => now <? from | None => false end, ("OUTSIDE_AVAILABILITY_WINDOW", "the availability window opens later"));
    (match WindowTo a with Some to => to <=? now | None => false end, ("OUTSIDE_AVAILABILITY_WINDOW", "the availability window closed"));
    (match LastSeenAt a with Some _ => false | None => true end, ("MACHINE_PRESENCE_STALE", "the machine has never reported presence"));
    (match LastSeenAt a with Some seen => StaleAfter cfg <? now - seen | None => false end, ("MACHINE_PRESENCE_STALE", "the machine last reported too long ago"));
    (containsFold (DeniedOrganizations p) (Requester r), ("ORGANIZATION_DENIED", "the machine owner denied this organization"));
    (negb same && negb (IncludeOtherOrganizations c), ("CROSS_ORGANIZATION_NOT_REQUESTED", "the offer belongs to another organization"));
    (other && bool_decide (Visibility p = VisibilityPrivate), ("VISIBILITY_FORBIDDEN", "the offer is private to its owning organization"));
    (other && bool_decide (Visibility p = VisibilityOrganization) && negb (containsFold (AllowedOrganizations p) (Requester r)),
      ("ORGANIZATION_NOT_ALLOWED", "the offer is shared with specific organizations"));
    (other && bool_decide (Visibility p = VisibilityPublic) && negb (PublicTradingEnabled cfg), ("TRADING_DISABLED", "public compute trading is disabled"));
    (negb (AtLeast trust (MinTrust c)), ("TRUST_TOO_LOW", "offer trust is below the requested minimum"));
    (negb (bool_decide (AllowedRegions c = [])) && negb (containsFold (AllowedRegions c) (Region g)), ("REGION_NOT_ALLOWED", "region is not in the allowed set"));
    (containsFold (DeniedRegions c) (Region g), ("REGION_NOT_ALLOWED", "region is denied"));
    (negb (bool_decide (AllowedCountries c = [])) && negb (containsFold (AllowedCountries c) (Country g)), ("COUNTRY_NOT_ALLOWED", "country is not in the allowed set"));
    (containsFold (DeniedCountries c) (Country g), ("COUNTRY_NOT_ALLOWED", "country is denied"));
    (negb (bool_decide (PolicyCountries p = [])) && negb (bool_decide (Country (SourceGeography r) = "")) &&
      negb (containsFold (PolicyCountries p) (Country (SourceGeography r))), ("DATA_RESIDENCY_FORBIDDEN", "the machine owner does not accept state from there"));
    ((0 <? MaxStateBytes p) && (MaxStateBytes p <? StateBytes r), ("STATE_TOO_LARGE", "the offer accepts less state"));
    ((0 <? MaxDurationHours p) && (int64 (MaxDurationHours p * hour) <? Duration r), ("DURATION_TOO_LONG", "the offer accepts fewer hours"));
    (RequireEncryptedState p && negb (StateIsEncrypted c), ("ENCRYPTED_STATE_REQUIRED", "the machine owner requires encrypted state"));
    (SharesGPU c && negb (GPUSharingAllowed p), ("GPU_SHARING_FORBIDDEN", "the machine owner does not allow shared GPU workloads"));
    ((0 <? Cpus need)%F && (Cpus available <? Cpus need)%F, ("CPU_INSUFFICIENT", "CPUs available"));
    ((0 <? Memory need) && (Memory available <? Memory need), ("MEMORY_INSUFFICIENT", "memory bytes available"));
    ((0 <? Storage need) && (Storage available <? Storage need), ("STORAGE_INSUFFICIENT", "storage bytes available"));
    ((0 <? Mbps need)%F && (Mbps available <? Mbps need)%F, ("NETWORK_INSUFFICIENT", "Mbps available"));
    (bool_decide (is_Some (match_gpus (Gpus need) (Gpus available))), ("GPU_INCOMPATIBLE", default "" (match_gpus (Gpus need) (Gpus available))));
    (existsb (λ f, negb (default false (Features (Capabilities o) !! f))) (RequiredFeatures c), ("FEATURE_MISSING", "the machine does not report a feature"));
    (negb (bool_decide (ReqCurrency c = "")) && (0 <? hourly) && negb (bool_decide (Currency (OfferPricing o) = ReqCurrency c)),
      ("CURRENCY_MISMATCH", "the offer is priced in another currency"));
    ((0 <? MaxPriceMicrosPerHour c) && (MaxPriceMicrosPerHour c <? hourly), ("PRICE_EXCEEDED", "micros per hour exceed the limit"));
    ((0 <? MaxLatencyMillis c)%F && negb (bool_decide (is_Some latency)), ("LATENCY_UNMEASURED", "no measured round-trip time exists for this path"));
    ((0 <? MaxLatencyMillis c)%F && match latency with Some ms => (MaxLatencyMillis c <? ms)%F | None => false end,
      ("LATENCY_EXCEEDED", "ms exceed the limit"));
    (match ReqManifest r with Some m => negb (Compatible (check cfg now m (Capabilities o))) | None => false end,
      ("RESTORE_INCOMPATIBLE", match ReqManifest r with Some m => firstErrorIssue (check cfg now m (Capabilities o)) | None => "" end));
    (match ReqManifest r with
     | Some _ => negb (AllowAutomatic (decision cfg (Capabilities o))) && negb (experimental r (decision cfg (Capabilities o)))
     | None => false
     end, ("SUPPORT_MATRIX_NOT_CERTIFIED", "support matrix")) ].

Definition no_scores : Scores :=
  {| SCapability := 0; SPrice := 0; SLatency := 0; STrust := 0; SLocality := 0; SFreshness := 0; Total := 0 |}.

(** The candidate that [Scheduler.evaluate] builds. *)
Definition candidate_of (cfg : Config) (r : Request) (o : Offer) (now : Z) : Candidate :=
  let same := bool_decide (OwnerID o = Requester r) in
  let latency := LatencyTo o (SourceMachine r) (SourceGeography r) in
  let d := decision cfg (Capabilities o) in
  {| CandidateOffer := OfferID o; CandidateMachine := OfferMachine o; CandidateOwner := OwnerID o; CandidateGeography := OfferGeography o;
     CandidateTrust := ClampTrust (Trust o) same (IdentityVerified o); SameOrganization := same; Available := Offer_Available o;
     HourlyMicros := HourlyRate (OfferPricing o) (Requirements r);
     EstimatedMicros := Cost (OfferPricing o) (Requirements r) (Duration r) (StateBytes r);
     CandidateCurrency := Currency (OfferPricing o); LatencyMillis := default 0%F latency; LatencyKnown := bool_decide (is_Some latency);
     CandidateScores := no_scores;
     Warnings := match ReqManifest r with
                 | Some m => (if AllowAutomatic d then [] else ["SUPPORT_MATRIX_EXPERIMENTAL: " +:+ SupportReason d]) ++
                             omap (λ i, if decide (IssueSeverity i = "error") then None else Some (IssueCode i +:+ ": " +:+ IssueDescription i))
                                  (Issues (check cfg now m (Capabilities o)))
                 | None => []
                 end ++ (if decide (is_Some latency) then [] else ["LATENCY_UNMEASURED: no round-trip measurement exists for this path"]) |}.
Definition evaluate (cfg : Config) (r : Request) (o : Offer) (now : Z) : Rejection + Candidate :=
  match List.find fst (refusals cfg r o now) with
  | Some (_, (code, reason)) => inl {| RejectedOffer := OfferID o; RejectedMachine := OfferMachine o; RejectionCode := code; Reason := reason |}
  | None => inr (candidate_of cfg r o now)
  end.

(** ** Scores *)

Definition ratios (required available : Resources) : list float64 :=
  (if (0 <? Cpus required)%F then [(Cpus available / Cpus required)%F] else []) ++
  (if 0 <? Memory required then [(of_Z (Memory available) / of_Z (Memory required))%F] else []) ++
  (if 0 <? Storage required then [(of_Z (Storage available) / of_Z (Storage required))%F] else []) ++
  (if (0 <? Mbps required)%F then [(Mbps available / Mbps required)%F] else []).
Definition capabilityScore (required available : Resources) : float64 :=
  match ratios required available with
  | [] => 1%F
  | l => (foldl (λ total ratio, total + clamp (ratio - 1) 0 1)%F 0%F l / of_Z (Z.of_nat (length l)))%F
  end.

Definition invertedScore (value minimum maximum : float64) : float64 :=
  if (maximum <=? minimum)%F then 1%F else clamp (1 - (value - minimum) / (maximum - minimum)) 0 1.

Definition localityScore (source destination : Geography) : float64 :=
  let source := Geography_normalize source in
  if bool_decide (Region source = "") && bool_decide (Country source = "") then 0.5%F
  else if negb (bool_decide (Zone source = "")) && bool_decide (Zone source = Zone destination) then 1%F
  else if negb (bool_decide (Region source = "")) && bool_decide (Region source = Region destination) then 0.8%F
  else if negb (bool_decide (Country source = "")) && bool_decide (Country source = Country destination) then 0.6%F
  else 0.2%F.

Definition freshnessScore (lastSeen : option Z) (now staleAfter : Z) : float64 :=
  match lastSeen with
  | None => 0%F
  | Some seen =>
      let age := now - seen in
      let fresh := staleAfter /' 4 in
      if staleAfter <=? 0 then 0%F
      else if age <=? fresh then 1%F
      else if staleAfter <=? age then 0%F
      else clamp (1 - of_Z (age - fresh) / of_Z (staleAfter - fresh)) 0 1
  end.

Definition DefaultWeights : Weights :=
  {| WCapability := 0.20; WPrice := 0.25; WLatency := 0.20; WTrust := 0.15; WLocality := 0.10; WFreshness := 0.10 |}.

(** [Weights.normalized]. *)
Definition normalized (w : Weights) : Weights :=
  let total := (WCapability w + WPrice w + WLatency w + WTrust w + WLocality w + WFreshness w)%F in
  if (total <=? 0)%F then DefaultWeights
  else {| WCapability := WCapability w / total; WPrice := WPrice w / total; WLatency := WLatency w / total; WTrust := WTrust w / total;
          WLocality := WLocality w / total; WFreshness := WFreshness w / total |}.

(** The scores of one candidate, in the ranges of the pass. *)
Definition scored (cfg : Config) (r : Request) (w : Weights) (now : Z) (rates : Z * Z) (latencies : float64 * float64) (entry : Offer * Candidate) : Candidate :=
  let '(o, c) := entry in
  let capability := capabilityScore (Requirements r) (Available c) in
  let price := invertedScore (of_Z (HourlyMicros c)) (of_Z rates.1) (of_Z rates.2) in
  let latency := if LatencyKnown c then invertedScore (LatencyMillis c) latencies.1 latencies.2 else 0.5%F in
  let trust := (of_Z (Rank (CandidateTrust c)) / of_Z 3)%F in
  let locality := localityScore (SourceGeography r) (CandidateGeography c) in
  let freshness := freshnessScore (LastSeenAt (OfferAvailability o)) now (StaleAfter cfg) in
  c <| CandidateScores := {| SCapability := capability; SPrice := price; SLatency := latency; STrust := trust; SLocality := locality;
         SFreshness := freshness;
         Total := (WCapability w * capability + WPrice w * price + WLatency w * latency + WTrust w * trust + WLocality w * locality +
                   WFreshness w * freshness)%F |} |>.

(** ** Ranking *)

Definition total_of (c : Candidate) : float64 := Total (CandidateScores c).
Definition ranks_above (a b : Candidate) : bool :=
  if negb (total_of a =? total_of b)%F then (total_of b <? total_of a)%F
  else if negb (HourlyMicros a =? HourlyMicros b) then HourlyMicros a <? HourlyMicros b
  else cmp_string (CandidateOffer a) (CandidateOffer b) <? 0.
Definition ranked (a b : Candidate) : Prop := ranks_above b a = false.
#[export] Instance ranked_dec : RelDecision ranked.
Proof. intros a b. unfold ranked. apply _. Defined.

Definition listed_before (a b : Rejection) : Prop :=
  cmp_string (RejectionCode a) (RejectionCode b) < 0 ∨
  RejectionCode a = RejectionCode b ∧ cmp_string (RejectedOffer a) (RejectedOffer b) ≤ 0.
#[export] Instance listed_before_dec : RelDecision listed_before.
Proof. intros a b. unfold listed_before. apply _. Defined.

(** [Scheduler.Place]. *)
Definition accepted_of (cfg : Config) (r : Request) (now : Z) (offers : list Offer) : list (Offer * Candidate) :=
  omap (λ o, match evaluate cfg r (Offer_Normalize o) now with inr c => Some (Offer_Normalize o, c) | inl _ => None end) offers.
Definition rejected_of (cfg : Config) (r : Request) (now : Z) (offers : list Offer) : list Rejection :=
  omap (λ o, match evaluate cfg r (Offer_Normalize o) now with inl x => Some x | inr _ => None end) offers.
Definition lowest (l : list float64) : float64 := match l with [] => 0%F | x :: l => foldl (λ m y, if (y <? m)%F then y else m) x l end.
Definition highest (l : list float64) : float64 := match l with [] => 0%F | x :: l => foldl (λ m y, if (m <? y)%F then y else m) x l end.
Definition Place (cfg : Config) (now : Z) (request : Request) (offers : list Offer) : result Placement :=
  r ← Request_normalize request;
  let w := match ReqWeights r with Some w => normalized w | None => ConfigWeights cfg end in
  let accepted := accepted_of cfg r now offers in
  let hourly := (λ e, HourlyMicros e.2) <$> accepted in
  let rates := (foldr Z.min (default 0 (head hourly)) hourly, foldr Z.max (default 0 (head hourly)) hourly) in
  let known := omap (λ e, if LatencyKnown e.2 then Some (LatencyMillis e.2) else None) accepted in
  let candidates := merge_sort ranked (scored cfg r w now rates (lowest known, highest known) <$> accepted) in
  Ok {| Candidates := if (0 <? Limit r) && (Limit r <? Z.of_nat (length candidates)) then take (Z.to_nat (Limit r)) candidates else candidates;
        Rejected := merge_sort listed_before (rejected_of cfg r now offers); Evaluated := length offers; PlacementWeights := w |}.

(** [New], on its configuration. *)
Definition New (cfg : Config) : Config :=
  {| PublicTradingEnabled := PublicTradingEnabled cfg; StaleAfter := if StaleAfter cfg <=? 0 then 120 * second_ns else StaleAfter cfg;
     ConfigWeights := normalized (ConfigWeights cfg); ConfigChecker := ConfigChecker cfg |}.

(** ** Publishing *)

(** [Pricing.validate]. *)
Definition Free (p : Pricing) : bool :=
  (CPUHourMicros p =? 0) && (MemoryGiBHourMicros p =? 0) && (StorageGiBHourMicros p =? 0) && (GPUHourMicros p =? 0) &&
  (EgressGiBMicros p =? 0) && (MinimumChargeMicros p =? 0).
Definition Pricing_validate (p : Pricing) : result unit :=
  let currency := ToUpper (TrimSpace (Currency p)) in
  if Free p then require (bool_decide (currency = "") || Nat.eqb (String.length currency) 3) "offer currency must be a three-letter ISO 4217 code"
  else
    _ ← require (Nat.eqb (String.length currency) 3) "a priced offer requires a three-letter ISO 4217 currency code";
    _ ← require (forallb (Z.leb 0) [CPUHourMicros p; MemoryGiBHourMicros p; StorageGiBHourMicros p; GPUHourMicros p; EgressGiBMicros p; MinimumChargeMicros p])
          "offer prices cannot be negative";
    require (0 <=? BillingIncrementHours p) "offer billing_increment_hours cannot be negative".

Definition valid_visibility (v : string) : bool := bool_decide (v ∈ [VisibilityPrivate; VisibilityOrganization; VisibilityPublic]).
Definition valid_status (v : string) : bool := bool_decide (v ∈ [OfferAvailable; "reserved"; "draining"; "offline"; "withdrawn"]).

(** [Offer.Validate]. *)
Definition Offer_Validate (o : Offer) : result Offer :=
  let o := Offer_Normalize o in
  let x := Exposed o in
  let a := OfferAvailability o in
  _ ← require (negb (bool_decide (OfferID o = ""))) "offer id is required";
  _ ← require (negb (bool_decide (OwnerID o = ""))) "offer organization id is required";
  _ ← require (negb (bool_decide (OfferMachine o = ""))) "offer machine id is required";
  _ ← require (valid_visibility (Visibility (Terms o))) "unsupported offer visibility";
  _ ← require (negb (Cpus x <? 0)%F && negb (Mbps x <? 0)%F) "exposed cpu and network quantities cannot be negative";
  _ ← require (negb (Cpus (Committed o) <? 0)%F && negb (Mbps (Committed o) <? 0)%F) "committed cpu and network quantities cannot be negative";
  _ ← require (negb ((Cpus x =? 0)%F && (Memory x =? 0) && (Storage x =? 0) && (Mbps x =? 0)%F && bool_decide (Gpus x = [])))
        "an offer must expose at least one resource";
  _ ← require (negb ((0 <? Cpus x)%F && (0 <? CapCPUs (Capabilities o)) && (of_Z (CapCPUs (Capabilities o)) <? Cpus x)%F))
        "offer exposes more CPUs than the machine reports";
  _ ← require (negb ((0 <? Memory x) && (0 <? CapMemory (Capabilities o)) && (CapMemory (Capabilities o) <? Memory x)))
        "offer exposes more memory bytes than the machine reports";
  _ ← Pricing_validate (OfferPricing o);
  _ ← require (bool_decide (Country (OfferGeography o) = "") || Nat.eqb (String.length (Country (OfferGeography o))) 2)
        "offer country must be an ISO 3166-1 alpha-2 code";
  _ ← require (valid_status (OfferStatus a)) "unsupported offer status";
  _ ← require match WindowFrom a, WindowTo a with Some from, Some to => from <? to | _, _ => true end
        "offer availability window must end after it starts";
  _ ← require (0 <=? MaxDurationHours (Terms o)) "offer max_duration_hours cannot be negative";
  _ ← require (forallb (λ s, negb (bool_decide (TrimSpace (Observer s) = "")) && negb (RoundTripMs s <? 0)%F) (Latency o))
        "a latency sample requires an observer and cannot be negative";
  Ok o.
End scheduler.

(** ** Reservations *)

(** [ReservationState]. *)
Inductive ReservationState := ReservationPending | ReservationActive | ReservationReleased | ReservationExpired | ReservationFailed.
#[export] Instance ReservationState_eq_dec : EqDecision ReservationState.
Proof. solve_decision. Defined.

(** [CanTransitionReservation]. *)
Definition CanTransitionReservation (from to : ReservationState) : bool :=
  match from, to with
  | ReservationPending, (ReservationActive | ReservationReleased | ReservationExpired | ReservationFailed)
  | ReservationActive, (ReservationReleased | ReservationExpired | ReservationFailed)
  | ReservationFailed, ReservationReleased => true
  | _, _ => false
  end.
Definition Terminal (s : ReservationState) : bool :=
  match s with ReservationReleased | ReservationExpired | ReservationFailed => true | _ => false end.

(** [Reservation], without its times of creation, change and release. *)
Record Reservation := {
  ReservationID : string;
  HeldOffer : string;
  HolderID : string;
  HeldMachine : string;
  Requested : Resources;
  ReservationStateOf : ReservationState;
  HeldHourlyMicros : Z;
  HeldCurrency : string;
  ExpiresAt : Z;
}.
#[export] Instance Reservation_eta : Eta Reservation := fun r =>
  Build_Reservation (ReservationID r) (HeldOffer r) (HolderID r) (HeldMachine r) (Requested r) (ReservationStateOf r)
    (HeldHourlyMicros r) (HeldCurrency r) (ExpiresAt r).

(** [Reservation.Validate] of a pending reservation; its currency is not
    set yet. *)
Definition Reservation_Validate (r : Reservation) : result Reservation :=
  let r := r <| ReservationID := TrimSpace (ReservationID r) |> <| HeldOffer := TrimSpace (HeldOffer r) |>
             <| HolderID := TrimSpace (HolderID r) |> <| HeldMachine := TrimSpace (HeldMachine r) |> in
  _ ← require (negb (bool_decide (ReservationID r = "")) && negb (bool_decide (HeldOffer r = "")) && negb (bool_decide (HolderID r = "")))
        "a reservation requires an id, an offer, and a requesting organization";
  _ ← require (negb (Cpus (Requested r) <? 0)%F && negb (Mbps (Requested r) <? 0)%F) "reserved quantities cannot be negative";
  _ ← require (0 <=? HeldHourlyMicros r) "reservation price cannot be negative";
  _ ← require (negb (ExpiresAt r =? 0)) "a reservation requires an expiry so abandoned capacity is reclaimed";
  Ok r.

(** [Reservation.Expired] and [CommittedFrom]. *)
Definition Reservation_Expired (r : Reservation) (now : Z) : bool := negb (Terminal (ReservationStateOf r)) && (ExpiresAt r <=? now).
Definition nothing : Resources := {| Cpus := 0; Memory := 0; Storage := 0; Mbps := 0; Gpus := [] |}.
Definition add_held (committed : Resources) (r : Reservation) : Resources :=
  {| Cpus := (Cpus committed + Cpus (Requested r))%F; Memory := uint64 (Memory committed + Memory (Requested r));
     Storage := uint64 (Storage committed + Storage (Requested r)); Mbps := (Mbps committed + Mbps (Requested r))%F;
     Gpus := Gpus committed ++ Gpus (Requested r) |}.
Definition holds_capacity (now : Z) (r : Reservation) : bool :=
  negb (Terminal (ReservationStateOf r) || Reservation_Expired r now).
Definition CommittedFrom (reservations : list Reservation) (now : Z) : Resources :=
  foldl add_held nothing (filter (λ r, holds_capacity now r = true) reservations).
