(* ===== verification/PlacementSafe.v ===== *)
(** * A placement is feasible, complete and ranked

    Every candidate of a placement meets every demand of the request and of
    the owner of its machine, every offer that does is a candidate, and the
    candidates are ranked by their scores. *)
From Stdlib Require Import Ascii.
From S2P Require Import Prelude Float64 GoStr Model Version Checkpoint Compatibility CompatibilitySafe Placement.

Local Open Scope string_scope.
Local Open Scope list_scope.
Local Open Scope Z_scope.

(** A list whose neighbours are in order is in order throughout, when the order
    is transitive on its elements. *)
Lemma sorted_strongly {A} (R : relation A) (P : A → Prop) l :
  (∀ a b c, P a → P b → P c → R a b → R b c → R a c) → Forall P l → Sorted R l → StronglySorted R l.
Proof.
  intros HR. induction l as [|a l IH]; intros HP Hs; [constructor|]. apply Forall_cons in HP as [Ha HP]. apply Sorted_inv in Hs as [Hs Hd].
  constructor; [by apply IH|]. specialize (IH HP Hs). destruct l as [|b l]; [constructor|]. apply HdRel_inv in Hd.
  apply Forall_cons in HP as [Hb HP]. apply StronglySorted_inv in IH as [_ Hall]. constructor; [done|].
  apply Forall_forall. intros c Hc. rewrite Forall_forall in HP, Hall. apply (HR a b c); auto.
Qed.

Section scheduler.
Context (ToLower ToUpper : string → string) (EqualFold : string → string → bool)
        (Quote : string → string) (environment : string) (file : string → result Policy).

#[local] Abbreviation containsFold := (containsFold EqualFold).
#[local] Abbreviation Offer_Available := (Offer_Available EqualFold).
#[local] Abbreviation LatencyTo := (LatencyTo ToLower ToUpper EqualFold).
#[local] Abbreviation Offer_Normalize := (Offer_Normalize ToLower ToUpper).
#[local] Abbreviation check := (check ToLower EqualFold Quote environment file).
#[local] Abbreviation decision := (decision ToLower EqualFold).
#[local] Abbreviation evaluate := (evaluate ToLower ToUpper EqualFold Quote environment file).
#[local] Abbreviation Place := (Place ToLower ToUpper EqualFold Quote environment file).

(** ** Feasible offers *)

(** What the request and the owner of the machine ask for. *)
Record feasible (cfg : Config) (r : Request) (o : Offer) (now : Z) : Prop := {
  f_excluded : containsFold (ExcludeMachineIDs (Wanted r)) (OfferMachine o) = false;
  f_elsewhere : SourceMachine r ≠ "" → EqualFold (OfferMachine o) (SourceMachine r) = false;
  f_available : OfferStatus (OfferAvailability o) = OfferAvailable;
  f_opened : ∀ t, WindowFrom (OfferAvailability o) = Some t → t ≤ now;
  f_closes : ∀ t, WindowTo (OfferAvailability o) = Some t → now < t;
  f_seen : ∃ t, LastSeenAt (OfferAvailability o) = Some t ∧ now - t ≤ StaleAfter cfg;
  f_denied : containsFold (DeniedOrganizations (Terms o)) (Requester r) = false;
  f_shared : OwnerID o = Requester r ∨
    IncludeOtherOrganizations (Wanted r) = true ∧ Visibility (Terms o) ≠ VisibilityPrivate ∧
    (Visibility (Terms o) = VisibilityOrganization → containsFold (AllowedOrganizations (Terms o)) (Requester r) = true) ∧
    (Visibility (Terms o) = VisibilityPublic → PublicTradingEnabled cfg = true);
  f_trust : AtLeast (ClampTrust (Trust o) (bool_decide (OwnerID o = Requester r)) (IdentityVerified o)) (MinTrust (Wanted r)) = true;
  f_region : AllowedRegions (Wanted r) = [] ∨ containsFold (AllowedRegions (Wanted r)) (Region (OfferGeography o)) = true;
  f_region_denied : containsFold (DeniedRegions (Wanted r)) (Region (OfferGeography o)) = false;
  f_country : AllowedCountries (Wanted r) = [] ∨ containsFold (AllowedCountries (Wanted r)) (Country (OfferGeography o)) = true;
  f_country_denied : containsFold (DeniedCountries (Wanted r)) (Country (OfferGeography o)) = false;
  f_residency : (PolicyCountries (Terms o) = [] ∨ Country (SourceGeography r) = "") ∨
    containsFold (PolicyCountries (Terms o)) (Country (SourceGeography r)) = true;
  f_state : 0 < MaxStateBytes (Terms o) → StateBytes r ≤ MaxStateBytes (Terms o);
  f_duration : 0 < MaxDurationHours (Terms o) → Duration r ≤ int64 (MaxDurationHours (Terms o) * hour);
  f_encrypted : RequireEncryptedState (Terms o) = true → StateIsEncrypted (Wanted r) = true;
  f_sharing : SharesGPU (Wanted r) = true → GPUSharingAllowed (Terms o) = true;
  f_cpus : (0 <? Cpus (Requirements r))%F = true → (Cpus (Offer_Available o) <? Cpus (Requirements r))%F = false;
  f_memory : 0 < Memory (Requirements r) → Memory (Requirements r) ≤ Memory (Offer_Available o);
  f_storage : 0 < Storage (Requirements r) → Storage (Requirements r) ≤ Storage (Offer_Available o);
  f_network : (0 <? Mbps (Requirements r))%F = true → (Mbps (Offer_Available o) <? Mbps (Requirements r))%F = false;
  f_gpus : match_gpus EqualFold (Gpus (Requirements r)) (Gpus (Offer_Available o)) = None;
  f_features : ∀ f, f ∈ RequiredFeatures (Wanted r) → Features (Capabilities o) !! f = Some true;
  f_currency : ReqCurrency (Wanted r) ≠ "" → 0 < HourlyRate (OfferPricing o) (Requirements r) → Currency (OfferPricing o) = ReqCurrency (Wanted r);
  f_price : 0 < MaxPriceMicrosPerHour (Wanted r) → HourlyRate (OfferPricing o) (Requirements r) ≤ MaxPriceMicrosPerHour (Wanted r);
  f_latency : (0 <? MaxLatencyMillis (Wanted r))%F = true →
    ∃ ms, LatencyTo o (SourceMachine r) (SourceGeography r) = Some ms ∧ (MaxLatencyMillis (Wanted r) <? ms)%F = false;
  f_restores : ∀ m, ReqManifest r = Some m → Compatible (check cfg now m (Capabilities o)) = true ∧
    (AllowAutomatic (decision cfg (Capabilities o)) = true ∨ experimental r (decision cfg (Capabilities o)) = true);
}.

Lemma find_fst_none {A} (l : list (bool * A)) : List.find fst l = None ↔ Forall (λ x, x.1 = false) l.
Proof.
  induction l as [|[b x] l IH]; cbn; [by split|]. destruct b; [|by rewrite IH, Forall_cons; naive_solver].
  split; [done|]. by intros [? _]%Forall_cons.
Qed.

(** The refusals as propositions. *)
Ltac refusal_props := repeat first
  [ rewrite andb_false_iff | rewrite negb_false_iff | rewrite @bool_decide_eq_true | rewrite @bool_decide_eq_false
  | rewrite Z.ltb_ge | rewrite Z.leb_gt ].

Lemma existsb_false {A} (f : A → bool) l : existsb f l = false ↔ ∀ x, x ∈ l → f x = false.
Proof.
  rewrite <- not_true_iff_false, existsb_exists. split.
  - intros H x Hx%list_elem_of_In. destruct (f x) eqn:E; [|done]. destruct H. by exists x.
  - intros H (x & Hx%list_elem_of_In & Hf). by rewrite H in Hf.
Qed.

Lemma if_positive (a : Z) (P : Prop) : a ≤ 0 ∨ P ↔ (0 < a → P).
Proof. destruct (Z.leb_spec a 0); split; intros H'; [intros; lia|by left|intros; destruct H'; [lia|done]|right; by apply H']. Qed.
Lemma if_set (b : bool) (P : Prop) : b = false ∨ P ↔ (b = true → P).
Proof. destruct b; naive_solver. Qed.
Lemma if_some {A} (o : option A) (f : A → bool) :
  match o with Some x => f x | None => false end = false ↔ ∀ x, o = Some x → f x = false.
Proof. destruct o; naive_solver. Qed.
Lemma if_named (s : string) (P : Prop) : s = "" ∨ P ↔ (s ≠ "" → P).
Proof. destruct (decide (s = "")); naive_solver. Qed.

Lemma seen_spec cfg now (seen : option Z) :
  match seen with Some _ => false | None => true end = false ∧ (∀ t, seen = Some t → (StaleAfter cfg <? now - t) = false) ↔
  ∃ t, seen = Some t ∧ now - t ≤ StaleAfter cfg.
Proof.
  split.
  - intros [H1 H2]. destruct seen as [t|]; [|done]. exists t. split; [done|]. by apply Z.ltb_ge, H2.
  - intros (t & -> & Ht). split; [done|]. intros ? [= <-]. by apply Z.ltb_ge.
Qed.

Lemma shared_spec cfg r o :
  (OwnerID o = Requester r ∨ IncludeOtherOrganizations (Wanted r) = true) ∧
  ((OwnerID o = Requester r ∨ IncludeOtherOrganizations (Wanted r) = false) ∨ Visibility (Terms o) ≠ VisibilityPrivate) ∧
  (((OwnerID o = Requester r ∨ IncludeOtherOrganizations (Wanted r) = false) ∨ Visibility (Terms o) ≠ VisibilityOrganization) ∨
    containsFold (AllowedOrganizations (Terms o)) (Requester r) = true) ∧
  (((OwnerID o = Requester r ∨ IncludeOtherOrganizations (Wanted r) = false) ∨ Visibility (Terms o) ≠ VisibilityPublic) ∨
    PublicTradingEnabled cfg = true) ↔
  OwnerID o = Requester r ∨
    IncludeOtherOrganizations (Wanted r) = true ∧ Visibility (Terms o) ≠ VisibilityPrivate ∧
    (Visibility (Terms o) = VisibilityOrganization → containsFold (AllowedOrganizations (Terms o)) (Requester r) = true) ∧
    (Visibility (Terms o) = VisibilityPublic → PublicTradingEnabled cfg = true).
Proof.
  destruct (decide (OwnerID o = Requester r)) as [E|E]; [tauto|].
  destruct (IncludeOtherOrganizations (Wanted r)); [|intuition congruence].
  destruct (decide (Visibility (Terms o) = VisibilityOrganization)), (decide (Visibility (Terms o) = VisibilityPublic)); intuition congruence.
Qed.

Lemma if_priced (s : string) (h : Z) (P : Prop) : (s = "" ∨ h ≤ 0) ∨ P ↔ (s ≠ "" → 0 < h → P).
Proof. rewrite <- if_positive, <- if_named. tauto. Qed.

Lemma latency_spec (limit : float64) (o : option float64) :
  ((0 <? limit)%F = true → is_Some o) ∧ ((0 <? limit)%F = true → ∀ ms, o = Some ms → (limit <? ms)%F = false) ↔
  ((0 <? limit)%F = true → ∃ ms, o = Some ms ∧ (limit <? ms)%F = false).
Proof.
  split.
  - intros [H1 H2] Hl. destruct (H1 Hl) as [ms ->]. exists ms. split; [done|]. by apply H2.
  - intros H. split; intros Hl; destruct (H Hl) as (ms & -> & Hms); [done|]. by intros ? [= <-].
Qed.

Lemma none_refused {A} (l : list (bool * A)) : Forall (λ x, x.1 = false) l ↔ foldr (λ x P, x.1 = false ∧ P) True l.
Proof. induction l as [|x l IH]; cbn; [done|]. by rewrite Forall_cons, IH. Qed.

Lemma feasible_refusals cfg r o now :
  feasible cfg r o now ↔ Forall (λ x, x.1 = false) (refusals ToLower ToUpper EqualFold Quote environment file cfg r o now).
Proof.
  rewrite none_refused. unfold refusals. cbv zeta. cbn [foldr fst]. rewrite existsb_false. refusal_props.
  rewrite !if_some, !if_priced. rewrite !if_positive, !if_set, !if_named. split.
  - intros []. apply seen_spec in f_seen0 as [??]. apply shared_spec in f_shared0 as (? & ? & ? & ?). apply latency_spec in f_latency0 as [??].
    split_and!; try done.
    + intros t Ht. by apply Z.ltb_ge, f_opened0.
    + intros t Ht. by apply Z.leb_gt, f_closes0.
    + rewrite f_gpus0. apply is_Some_None.
    + intros f Hf. by rewrite f_features0.
    + intros m Hm. by apply negb_false_iff, f_restores0.
    + intros m Hm. destruct (f_restores0 m Hm) as [_ [-> | ->]]; [done|by rewrite andb_false_r].
  - intros H. repeat match goal with H : _ ∧ _ |- _ => destruct H end. split; try done.
    + intros t Ht. apply Z.ltb_ge. auto.
    + intros t Ht. apply Z.leb_gt. auto.
    + by apply seen_spec.
    + by apply shared_spec.
    + by apply eq_None_not_Some.
    + intros f Hf. destruct (Features (Capabilities o) !! f) as [[]|] eqn:E; [done|..];
        match goal with H : ∀ x, x ∈ RequiredFeatures _ → _ |- _ => by specialize (H f Hf); rewrite E in H end.
    + by apply latency_spec.
    + intros m Hm. split; [apply negb_false_iff; auto|].
      match goal with H : ∀ x, ReqManifest r = Some x → _ && _ = false |- _ =>
        specialize (H m Hm); apply andb_false_iff in H as [H|H]; apply negb_false_iff in H; auto end.
Qed.

Lemma evaluate_feasible cfg r o now :
  (feasible cfg r o now → evaluate cfg r o now = inr (candidate_of ToLower ToUpper EqualFold Quote environment file cfg r o now)) ∧
  ∀ c, evaluate cfg r o now = inr c → feasible cfg r o now ∧ c = candidate_of ToLower ToUpper EqualFold Quote environment file cfg r o now.
Proof.
  unfold Placement.evaluate. split; [intros Hf%feasible_refusals%find_fst_none; by rewrite Hf|].
  intros c. destruct (List.find _ _) as [[? []]|] eqn:Hf; [done|]. intros [= <-]. split; [|done]. by apply feasible_refusals, find_fst_none.
Qed.

(** ** Ranking *)

(** A score that is a number. *)
Definition rated (c : Candidate) : Prop := is_nan (total_of c) = false.

Lemma ranked_spec a b :
  rated a → rated b →
  ranked a b ↔ before (place_of (total_of b)) (place_of (total_of a)) ∨ place_of (total_of a) = place_of (total_of b) ∧
    (HourlyMicros a < HourlyMicros b ∨ HourlyMicros a = HourlyMicros b ∧ cmp_string (CandidateOffer a) (CandidateOffer b) ≤ 0).
Proof.
  intros Ha Hb. unfold ranked, ranks_above. destruct (total_of b =? total_of a)%F eqn:Hq; cbn [negb].
  - apply equal_spec in Hq as (_ & _ & Hq). rewrite Hq. assert (¬ before (place_of (total_of a)) (place_of (total_of a))) by (unfold before; lia).
    pose proof (ordering_flip _ cmp_string_ordering (CandidateOffer a) (CandidateOffer b)) as Hf.
    destruct (Z.eqb_spec (HourlyMicros b) (HourlyMicros a)) as [E|E]; cbn [negb]; rewrite Z.ltb_ge; [rewrite Hf|];
      (split; [intros; right; split; [done|lia]|intros [?|[_ ?]]; [done|lia]]).
  - assert (place_of (total_of b) ≠ place_of (total_of a)) as Hne.
    { intros E. assert ((total_of b =? total_of a)%F = true) by (by apply equal_spec). congruence. }
    rewrite <- not_true_iff_false, less_spec. destruct (before_trichotomy (place_of (total_of a)) (place_of (total_of b))) as [H|[H|H]]; [|congruence|].
    + split; [intros Hn; destruct Hn; done|]. intros [?|[? _]]; [|congruence]. unfold before in *. lia.
    + split; [by left|]. intros _ (_ & _ & ?). unfold before in *. lia.
Qed.

Lemma unrated_ranked a b : ¬ rated a ∨ ¬ rated b → ranked a b.
Proof.
  unfold rated. intros H. unfold ranked, ranks_above. assert (is_nan (total_of a) = true ∨ is_nan (total_of b) = true) as Hn.
  { destruct (is_nan (total_of a)), (is_nan (total_of b)); naive_solver. }
  destruct (nan_false (total_of b) (total_of a)) as [-> _]; [by destruct Hn; auto|]. by destruct (nan_false (total_of a) (total_of b)) as [_ ->].
Qed.

#[local] Instance ranked_total : base.Total ranked.
Proof.
  intros a b. destruct (decide (is_nan (total_of a) = false)) as [Ha|]; [|left; apply unrated_ranked; by left].
  destruct (decide (is_nan (total_of b) = false)) as [Hb|]; [|left; apply unrated_ranked; by right].
  rewrite !ranked_spec by done. pose proof (ordering_flip _ cmp_string_ordering (CandidateOffer a) (CandidateOffer b)).
  destruct (before_trichotomy (place_of (total_of a)) (place_of (total_of b))) as [?|[Heq|?]]; [by right; left| |by left; left].
  destruct (Z.lt_trichotomy (HourlyMicros a) (HourlyMicros b)) as [?|[?|?]]; [left; right; auto| |right; right; auto].
  destruct (Z.le_ge_cases (cmp_string (CandidateOffer a) (CandidateOffer b)) 0); [left|right]; right; (split; [done|]); right; lia.
Qed.

Lemma ranked_trans a b c : rated a → rated b → rated c → ranked a b → ranked b c → ranked a c.
Proof.
  intros Ha Hb Hc. rewrite !ranked_spec by done.
  pose proof (ordering_trans _ cmp_string_ordering (CandidateOffer a) (CandidateOffer b) (CandidateOffer c)).
  intros [H1|[H1 H1']] [H2|[H2 H2']].
  - left. unfold before in *. lia.
  - left. by rewrite <- H2.
  - left. by rewrite H1.
  - right. split; [congruence|]. destruct H1' as [?|[??]], H2' as [?|[??]]; [left; lia..|]. right. split; [lia|auto].
Qed.

Lemma scored_offer cfg r w now rates latencies e :
  CandidateOffer (scored ToLower ToUpper cfg r w now rates latencies e) = CandidateOffer e.2.
Proof. by destruct e as [o c]. Qed.

Lemma accepted_elem cfg r now offers e :
  e ∈ accepted_of ToLower ToUpper EqualFold Quote environment file cfg r now offers ↔
  ∃ o, o ∈ offers ∧ feasible cfg r (Offer_Normalize o) now ∧
    e = (Offer_Normalize o, candidate_of ToLower ToUpper EqualFold Quote environment file cfg r (Offer_Normalize o) now).
Proof.
  unfold accepted_of. rewrite list_elem_of_omap. split.
  - intros (o & Ho & He). exists o. split; [done|]. destruct (evaluate _ _ _ _) as [?|c] eqn:Hc; [done|]. injection He as <-.
    apply evaluate_feasible in Hc as [? ->]. done.
  - intros (o & Ho & Hf & ->). exists o. split; [done|]. by rewrite (proj1 (evaluate_feasible _ _ _ _) Hf).
Qed.

Lemma rejected_elem cfg r now offers x :
  x ∈ rejected_of ToLower ToUpper EqualFold Quote environment file cfg r now offers ↔
  ∃ o, o ∈ offers ∧ evaluate cfg r (Offer_Normalize o) now = inl x.
Proof.
  unfold rejected_of. rewrite list_elem_of_omap. split; intros (o & Ho & He); exists o; (split; [done|]).
  - by destruct (evaluate _ _ _ _); [injection He as ->|].
  - by rewrite He.
Qed.

Lemma refused cfg r o now x : evaluate cfg r o now = inl x → RejectedOffer x = OfferID o ∧ ¬ feasible cfg r o now.
Proof.
  intros Hx. split; [|intros Hf; by rewrite (proj1 (evaluate_feasible _ _ _ _) Hf) in Hx].
  unfold Placement.evaluate in Hx. destruct (List.find _ _) as [[? []]|]; [|done]. by injection Hx as <-.
Qed.

Lemma normalize_keeps request r :
  Request_normalize ToLower ToUpper request = Ok r →
  Requirements r = Requirements request ∧ ReqManifest r = ReqManifest request ∧
  AllowExperimentalPlatforms (Wanted r) = AllowExperimentalPlatforms (Wanted request).
Proof. unfold Request_normalize. intros H. inv_ok. by subst r. Qed.

(** Every candidate is a feasible offer of the request. *)
Lemma Place_feasible cfg now request offers p c :
  Place cfg now request offers = Ok p → c ∈ Candidates p →
  ∃ r o, Request_normalize ToLower ToUpper request = Ok r ∧ o ∈ offers ∧ CandidateOffer c = OfferID (Offer_Normalize o) ∧
    feasible cfg r (Offer_Normalize o) now.
Proof.
  unfold Placement.Place. intros H Hc. apply bind_ok in H as (r & Hr & H). apply Ok_inj in H as <-. cbn [Candidates] in Hc.
  assert (∀ l : list Candidate, c ∈ (if (0 <? Limit r) && (Limit r <? Z.of_nat (length (merge_sort ranked l)))
    then take (Z.to_nat (Limit r)) (merge_sort ranked l) else merge_sort ranked l) → c ∈ l) as Hin.
  { intros l Hl. rewrite <- (merge_sort_Permutation ranked l). destruct (_ && _) in Hl; [|exact Hl].
    rewrite <- (take_drop (Z.to_nat (Limit r)) (merge_sort ranked l)), elem_of_app. by left. }
  apply Hin, list_elem_of_fmap in Hc as (e & -> & (o & Ho & Hf & ->)%accepted_elem). exists r, o. by rewrite scored_offer.
Qed.

(** C18.  A placement offers exactly what is feasible, best first.  The
    candidates are the offers that meet every demand of the request and of
    their owners, all of them or the first ones up to the limit; every other
    offer is rejected, and nothing feasible is.  When every score is a number
    no candidate is listed behind one with a lower score, or with the same
    score and a higher rate, or with the same score and rate and a greater
    name. *)
Theorem placement_exact cfg now request offers p :
  Place cfg now request offers = Ok p →
  ∃ r all, Request_normalize ToLower ToUpper request = Ok r ∧
    Candidates p = (if decide (Limit r = 0) then all else take (Z.to_nat (Limit r)) all) ∧
    (Forall rated all → StronglySorted ranked all) ∧
    (∀ id, (∃ c, c ∈ all ∧ CandidateOffer c = id) ↔ ∃ o, o ∈ offers ∧ OfferID (Offer_Normalize o) = id ∧ feasible cfg r (Offer_Normalize o) now) ∧
    (∀ id, (∃ x, x ∈ Rejected p ∧ RejectedOffer x = id) ↔ ∃ o, o ∈ offers ∧ OfferID (Offer_Normalize o) = id ∧ ¬ feasible cfg r (Offer_Normalize o) now).
Proof.
  unfold Placement.Place. intros H. apply bind_ok in H as (r & Hr & H). apply Ok_inj in H as <-.
  match goal with |- context [merge_sort ranked ?l] => exists r, (merge_sort ranked l) end. cbn [Candidates Rejected PlacementWeights]. split_and!.
  - done.
  - assert (0 ≤ Limit r) as Hl. { unfold Request_normalize in Hr. inv_ok. subst. by to_prop. }
    destruct (Z.ltb_spec 0 (Limit r)); [|rewrite decide_True by lia; done]. rewrite decide_False by lia. cbn [andb].
    match goal with |- context [Limit r <? ?n] => destruct (Z.ltb_spec (Limit r) n) end; [done|].
    symmetry. apply take_ge. lia.
  - intros Hr'. by apply (sorted_strongly ranked rated); [apply ranked_trans| |apply (Sorted_merge_sort ranked)].
  - intros id. setoid_rewrite merge_sort_Permutation. setoid_rewrite list_elem_of_fmap. split.
    + intros (c & (e & -> & (o & Ho & Hf & ->)%accepted_elem) & <-). exists o. by rewrite scored_offer.
    + intros (o & Ho & <- & Hf). eexists. split; [eexists; split; [done|]; apply accepted_elem; eauto|]. by rewrite scored_offer.
  - intros id. setoid_rewrite merge_sort_Permutation. split.
    + intros (x & (o & Ho & Hx)%rejected_elem & <-). apply refused in Hx as [-> ?]. by exists o.
    + intros (o & Ho & <- & Hn). destruct (evaluate cfg r (Offer_Normalize o) now) as [x|c] eqn:Hx; [|by apply evaluate_feasible in Hx as [? _]].
      exists x. split; [apply rejected_elem; by exists o|]. by apply refused in Hx as [-> _].
Qed.

(** C19.  A checkpoint is placed unattended on certified machines only.
    With the shipped matrix and without the option for experimental platforms,
    every candidate for a request that carries a checkpoint is a machine on
    which the checkpoint can be restored, and which is the certified platform:
    Ubuntu 24.04 on x86_64 with a kernel from 6.8 to 6.11 and a working CRIU of
    the 4.2 line. *)
Theorem unattended_certified cfg now request offers p c m :
  EqualFold "ubuntu-24.04" "linux" = false → ConfigChecker cfg = no_checker → ReqManifest request = Some m →
  AllowExperimentalPlatforms (Wanted request) = false → Place cfg now request offers = Ok p → c ∈ Candidates p →
  ∃ o, o ∈ offers ∧ OfferID (Offer_Normalize o) = CandidateOffer c ∧ certified ToLower (Capabilities o) ∧
    snd (resolvedPolicy environment file no_checker) = None ∧
    restorable ToLower EqualFold (fst (resolvedPolicy environment file no_checker)) no_checker m (Capabilities o).
Proof.
  intros Hfold Hcfg Hm Hexp Hp Hc. destruct (Place_feasible _ _ _ _ _ _ Hp Hc) as (r & o & Hr & Ho & Hid & Hf). exists o.
  destruct (normalize_keeps _ _ Hr) as (_ & Hrm & Hre). destruct (f_restores _ _ _ _ Hf m) as [Hcomp Hauto]; [congruence|].
  unfold Placement.check, Placement.decision in *. rewrite Hcfg in *. change (Capabilities (Offer_Normalize o)) with (Capabilities o) in *.
  apply check_exact in Hcomp as [??]. split_and!; try done. apply (proj1 (automatic_certified ToLower EqualFold Quote _ Hfold)). destruct Hauto as [?|Hx]; [done|].
  unfold experimental in Hx. rewrite Hre, Hexp, andb_false_r in Hx. done.
Qed.
End scheduler.

(** ** Examples *)

Module Sample.
Definition gib : Z := 2 ^ 30.
Definition device (memory : Z) : GPUDevice :=
  {| Vendor := "nvidia"; GPUModel := "A100"; DriverVersion := "550"; GPUMemoryBytes := memory; ComputeCapability := "8.0";
     GPURuntimeName := ""; CheckpointRestore := false; DeviceFiles := [] |}.
Definition machine (kernel : string) : MachineCapabilities :=
  {| CapOS := "linux"; CapDistribution := "ubuntu-24.04"; CapKernel := kernel; CapArchitecture := "amd64"; CapCPUs := 8;
     CapMemory := 64 * gib; CapStorage := [{| Mountpoint := "/"; AvailableBytes := 100 * gib |}]; CapGPUs := []; CapRuntimes := [];
     CapCRIU := {| CRIUInstalled := true; CRIUVersion := "4.2.1"; CRIUHealthy := true |}; Features := {[ "gnu_tar" := true ]} |}.
Definition exposed : Resources :=
  {| Cpus := 8; Memory := 64 * gib; Storage := 100 * gib; Mbps := 100; Gpus := [device (40 * gib); device (80 * gib)] |}.
Definition free : Pricing :=
  {| Currency := ""; CPUHourMicros := 0; MemoryGiBHourMicros := 0; StorageGiBHourMicros := 0; GPUHourMicros := 0; EgressGiBMicros := 0;
     MinimumChargeMicros := 0; BillingIncrementHours := 0 |}.
Definition nowhere : Geography := {| Region := ""; Country := ""; Zone := "" |}.
Definition private : OfferPolicy :=
  {| Visibility := VisibilityPrivate; AllowedOrganizations := []; DeniedOrganizations := []; PolicyCountries := []; MaxStateBytes := 0;
     MaxDurationHours := 0; RequireEncryptedState := false; GPUSharingAllowed := false |}.
Definition any : Constraints :=
  {| AllowedRegions := []; DeniedRegions := []; AllowedCountries := []; DeniedCountries := []; MinTrust := ""; MaxPriceMicrosPerHour := 0;
     ReqCurrency := ""; MaxLatencyMillis := 0; RequiredFeatures := []; ExcludeMachineIDs := []; IncludeOtherOrganizations := false;
     StateIsEncrypted := false; SharesGPU := false; AllowExperimentalPlatforms := false |}.
Definition needs (cpus : float64) (memory : Z) (gpus : list GPUDevice) : Resources :=
  {| Cpus := cpus; Memory := memory; Storage := 0; Mbps := 0; Gpus := gpus |}.
Definition offer (id kernel : string) (seen : Z) : Offer :=
  {| OfferID := id; OwnerID := "org"; OfferMachine := id; MachineName := id; AgentURL := ""; Exposed := exposed; Committed := nothing;
     OfferPricing := free; OfferGeography := nowhere; Terms := private;
     OfferAvailability := {| OfferStatus := OfferAvailable; WindowFrom := None; WindowTo := None; LastSeenAt := Some seen |};
     Trust := "organization"; IdentityVerified := false; Capabilities := machine kernel; Latency := [] |}.
Definition spec : WorkloadSpec :=
  {| SpecID := "w"; SpecName := "w"; Command := ["/bin/app"]; RootPath := "/srv/w"; WorkingDir := "/"; Environment := ∅; UID := 0; GID := 0; Paths := [];
     Ports := []; HealthCheck := None;
     Model.Resources := {| CPUCount := 1; ReqMemoryBytes := gib; ReqStorageBytes := gib; PIDs := 0; ReqGPUs := [] |};
     DevicePolicy := DeviceRejectIncompatible; NetworkPolicy := NetworkReconnect; CheckpointPolicy := None; FailoverPolicy := None; SpecLineage := None;
     SpecCreatedAt := 0; SpecUpdatedAt := 0 |}.
Definition manifest : CheckpointManifest :=
  {| Format := StateFormatName; FormatVersion := StateFormatVersion; ManifestID := "cp"; ParentID := ""; Kind := CheckpointFull; ManifestWorkload := spec;
     SourceIdentityID := ""; ManifestCreatedAt := 0;
     Engine := {| EngineName := "CRIU"; EngineVersion := "4.2.1"; LeaveRunning := false; ParentImages := false; PreCopy := false; EnginePreCopyPasses := 0;
                  TCPState := false; ShellJob := true; FileLocks := true |};
     Assets := []; RequiredBytes := gib;
     ManifestMetrics := {| MetricsStartedAt := 0; FreezeStartedAt := 0; MetricsCompletedAt := 0; MetricsDuration := 0; PlainBytes := gib; StoredBytes := gib;
                           MetricsDeduplicatedBytes := 0; ChunkCount := 0 |};
     Security := {| SecurityKeyVersion := 1; ManifestSignature := ""; SignerMachineID := ""; SecurityAlgorithm := "" |};
     ManifestSHA256 := ""; CompatibilityID := "" |}.
Definition described : DescribedManifest :=
  {| Described := manifest; SourceFacts := machine "6.8.0-45-generic"; DeviceNeeds := []; StateInventory := [] |}.
Definition ask (m : option DescribedManifest) : Request :=
  {| Requester := "org"; SourceMachine := ""; SourceGeography := nowhere; Requirements := needs 1 gib []; StateBytes := 0; Duration := hour; Wanted := any;
     ReqWeights := None; Limit := 0; ReqManifest := m |}.
Definition no_file (_ : string) : result Policy := Err "no such file".
Definition config : Config :=
  New {| PublicTradingEnabled := false; StaleAfter := 120 * second_ns; ConfigWeights := DefaultWeights; ConfigChecker := no_checker |}.
(** An offer that is too old, one of another kernel line and a certified one. *)
Definition three : list Offer :=
  [offer "late" "6.8.0-45-generic" 0; offer "new" "6.14.0-1" (299 * second_ns); offer "good" "6.11.0-9-generic" (299 * second_ns)].
Definition place (m : option DescribedManifest) : result Placement :=
  Place id id String.eqb id "" no_file config (300 * second_ns) (ask m) three.
End Sample.

Lemma placement_exact_witness :
  match Sample.place None with
  | Ok p => (CandidateOffer <$> Candidates p, (λ x, (RejectedOffer x, RejectionCode x)) <$> Rejected p) =
              (["good"; "new"], [("late", "MACHINE_PRESENCE_STALE")]) ∧
            ∃ r all, Request_normalize id id (Sample.ask None) = Ok r ∧ Candidates p = (if decide (Limit r = 0) then all else take (Z.to_nat (Limit r)) all) ∧
              StronglySorted ranked all
  | Err _ => False
  end.
Proof.
  destruct (Sample.place None) as [p|e] eqn:H.
  - split; [revert H; vm_compute; intros H; injection H as <-; reflexivity|].
    destruct (placement_exact id id String.eqb id "" Sample.no_file Sample.config (300 * second_ns) (Sample.ask None) Sample.three p H)
      as (r & all & Hr & Hc & Hs & _). exists r, all. split; [exact Hr|]. split; [exact Hc|]. apply Hs.
    assert (Limit r = 0) as Hl by (revert Hr; vm_compute; intros Hr; injection Hr as <-; reflexivity). rewrite decide_True in Hc by exact Hl.
    rewrite <- Hc. clear Hc Hs. revert H. vm_compute. intros H. injection H as <-. repeat constructor.
  - revert H. vm_compute. discriminate.
Defined.

Lemma unattended_certified_witness :
  match Sample.place (Some Sample.described) with
  | Ok p => (CandidateOffer <$> Candidates p, (λ x, (RejectedOffer x, RejectionCode x)) <$> Rejected p) =
              (["good"], [("late", "MACHINE_PRESENCE_STALE"); ("new", "SUPPORT_MATRIX_NOT_CERTIFIED")]) ∧
            match Candidates p with
            | c :: _ => ∃ o, o ∈ Sample.three ∧ OfferID (Offer_Normalize id id o) = CandidateOffer c ∧ certified id (Capabilities o)
            | [] => False
            end
  | Err _ => False
  end.
Proof.
  destruct (Sample.place (Some Sample.described)) as [p|e] eqn:H; [|revert H; vm_compute; discriminate].
  assert ((CandidateOffer <$> Candidates p, (λ x, (RejectedOffer x, RejectionCode x)) <$> Rejected p) =
              (["good"], [("late", "MACHINE_PRESENCE_STALE"); ("new", "SUPPORT_MATRIX_NOT_CERTIFIED")])) as Hp.
  { revert H. vm_compute. intros H. injection H as <-. reflexivity. }
  split; [exact Hp|]. destruct (Candidates p) as [|c l] eqn:Hc; [discriminate|].
  destruct (unattended_certified id id String.eqb id "" Sample.no_file Sample.config (300 * second_ns) (Sample.ask (Some Sample.described)) Sample.three p c
    Sample.described) as (o & Ho & Hid & Hcert & _); try reflexivity; [exact H|rewrite Hc; left|].
  exists o. split; [exact Ho|]. split; [exact Hid|exact Hcert].
Defined.
