(* ===== verification/Market.v ===== *)
(** * Capacity of machines as the control plane keeps it

    The tables of machines, offers and reservations
    ([internal/database/compute.go]) with their transactions, and the routes
    around them ([internal/controlplane/compute.go]).  Every transaction is
    serializable and is one step.  Three clocks are read: that of the route,
    that of the scheduler and that of the database. *)
From Stdlib Require Import Ascii.
From S2P Require Import Prelude Float64 GoStr Model Version Compatibility Placement.

Local Open Scope string_scope.
Local Open Scope list_scope.
Local Open Scope Z_scope.

(** ** Tables *)

(** A row of [machines]. *)
Record machine_row := { RowName : string; RowURL : string; RowCapabilities : MachineCapabilities; RowStatus : string; RowSeen : option Z }.
#[export] Instance machine_row_eta : Eta machine_row := fun r =>
  Build_machine_row (RowName r) (RowURL r) (RowCapabilities r) (RowStatus r) (RowSeen r).

(** [ComputeOfferRecord]; the columns that repeat parts of the documents are
    the same as these, and [Committed] is not stored. *)
Record offer_row := { RowOffer : Offer; WithdrawnAt : option Z }.

(** The tables; offers are unique by organization and machine, reservations
    are in the order of their creation. *)
Record market := {
  machines : gmap (string * string) machine_row;
  offers : gmap (string * string) offer_row;
  reservations : list Reservation;
}.
#[export] Instance market_eta : Eta market := fun m => Build_market (machines m) (offers m) (reservations m).

(** [PublishComputeOfferRequest]. *)
Record publish_request := {
  PubMachine : string;
  PubExposed : Resources;
  PubPricing : Pricing;
  PubGeography : Geography;
  PubPolicy : OfferPolicy;
  PubTrust : string;
  PubStatus : string;
  PubFrom : option Z;
  PubTo : option Z;
  PubLatency : list LatencySample;
}.

(** [CreateComputeReservationRequest] with the checkpoint it names, once it
    was found, and its size. *)
Record reserve_request := {
  ResOffer : string;
  ResSource : string;
  ResGeography : Geography;
  ResRequested : Resources;
  ResStateBytes : Z;
  ResDurationSeconds : Z;
  ResConstraints : Constraints;
  ResTTLSeconds : Z;
  ResCheckpoint : option (DescribedManifest * Z);
}.

(** The clocks of one request. *)
Record clocks := { route_now : Z; place_now : Z; database_now : Z }.

Definition maxComputeReservationTTL : Z := 24 * hour.

Section market.
Context (ToLower ToUpper : string → string) (EqualFold : string → string → bool)
        (Quote : string → string) (environment : string) (file : string → result Policy)
        (tradingEnabled : bool) (reservationTTL : Z).

#[local] Abbreviation Offer_Normalize := (Offer_Normalize ToLower ToUpper).
#[local] Abbreviation Place := (Place ToLower ToUpper EqualFold Quote environment file).

(** [Server.computeScheduler]. *)
Definition computeScheduler : Config :=
  New {| PublicTradingEnabled := tradingEnabled; StaleAfter := 120 * second_ns; ConfigWeights := DefaultWeights; ConfigChecker := no_checker |}.

(** ** Transactions *)

Definition offer_by_id (m : market) (id : string) : option ((string * string) * offer_row) :=
  List.find (λ e, bool_decide (OfferID (RowOffer e.2) = id)) (map_to_list (offers m)).

(** [Store.UpdateMachineHeartbeat], without its projection of the
    capabilities. *)
Definition UpdateMachineHeartbeat (org machine name url : string) (caps : option MachineCapabilities) (status : string) (now : Z) (m : market) :
    result market :=
  match machines m !! (org, machine) with
  | None => Err "no rows"
  | Some row =>
      Ok (m <| machines := <[(org, machine) := {| RowName := if decide (name = "") then RowName row else name;
                                                  RowURL := if decide (url = "") then RowURL row else url;
                                                  RowCapabilities := default (RowCapabilities row) caps; RowStatus := status;
                                                  RowSeen := Some now |}]> (machines m) |>)
  end.

(** [Store.UpsertComputeOffer]: the offer keeps its identifier when there is
    one for the machine. *)
Definition UpsertComputeOffer (o : Offer) (m : market) : result (market * offer_row) :=
  match machines m !! (OwnerID o, OfferMachine o) with
  | None => Err "no rows"
  | Some row =>
      if decide (RowStatus row = "disabled") then Err "no rows"
      else
        let o := o <| MachineName := RowName row |> <| AgentURL := RowURL row |> <| Capabilities := RowCapabilities row |>
                   <| IdentityVerified := false |> <| Committed := nothing |>
                   <| OfferAvailability := (OfferAvailability o) <| LastSeenAt := RowSeen row |> |> in
        match offers m !! (OwnerID o, OfferMachine o) with
        | Some old =>
            let r := {| RowOffer := o <| OfferID := OfferID (RowOffer old) |>; WithdrawnAt := None |} in
            Ok (m <| offers := <[(OwnerID o, OfferMachine o) := r]> (offers m) |>, r)
        | None =>
            if decide (is_Some (offer_by_id m (OfferID o))) then Err "duplicate key"
            else
              let r := {| RowOffer := o; WithdrawnAt := None |} in
              Ok (m <| offers := <[(OwnerID o, OfferMachine o) := r]> (offers m) |>, r)
        end
  end.

(** [Store.WithdrawComputeOffer]. *)
Definition WithdrawComputeOffer (org id : string) (now : Z) (m : market) : result market :=
  match offer_by_id m id with
  | Some (key, row) =>
      if decide (OwnerID (RowOffer row) = org) then
        let o := RowOffer row in
        Ok (m <| offers := <[key := {| RowOffer := o <| OfferAvailability := (OfferAvailability o) <| OfferStatus := "withdrawn" |> |>;
                                       WithdrawnAt := Some now |}]> (offers m) |>)
      else Err "no rows"
  | None => Err "no rows"
  end.

Definition expire_when (P : Reservation → bool) (now : Z) (r : Reservation) : Reservation :=
  if P r && negb (Terminal (ReservationStateOf r)) && (ExpiresAt r <=? now) then r <| ReservationStateOf := ReservationExpired |> else r.

(** [Store.ExpireComputeReservations]. *)
Definition ExpireComputeReservations (now : Z) (m : market) : market :=
  m <| reservations := expire_when (λ _, true) now <$> reservations m |>.

(** [Store.LiveComputeReservations], of one offer. *)
Definition LiveComputeReservations (m : market) (id : string) (now : Z) : list Reservation :=
  filter (λ r, HeldOffer r = id ∧ Terminal (ReservationStateOf r) = false ∧ now < ExpiresAt r) (reservations m).

(** [Store.CreateComputeReservation]; [approve] gets the offer and what is
    held on it, and fills in the reservation. *)
Definition CreateComputeReservation (record : Reservation) (approve : Offer → list Reservation → Reservation → result Reservation)
    (database_now : Z) (m : market) : result (market * Reservation) :=
  match offer_by_id m (HeldOffer record) with
  | None => Err "no rows"
  | Some (_, row) =>
      if decide (is_Some (WithdrawnAt row)) then Err "no rows"
      else
        let kept := expire_when (λ r, bool_decide (HeldOffer r = HeldOffer record)) database_now <$> reservations m in
        let live := filter (λ r, HeldOffer r = HeldOffer record ∧ Terminal (ReservationStateOf r) = false) kept in
        approved ← approve (RowOffer row) live record;
        _ ← require (forallb (λ r, negb (bool_decide (ReservationID r = ReservationID approved))) kept) "duplicate key";
        Ok (m <| reservations := kept ++ [approved] |>, approved)
  end.

(** [Store.UpdateComputeReservationState]. *)
Definition UpdateComputeReservationState (org id : string) (next : ReservationState) (allow : ReservationState → bool) (m : market) : result market :=
  match List.find (λ r, bool_decide (ReservationID r = id) && bool_decide (HolderID r = org)) (reservations m) with
  | None => Err "no rows"
  | Some r =>
      _ ← require (allow (ReservationStateOf r)) "reservation cannot move to the requested state";
      Ok (m <| reservations := (λ x, if bool_decide (ReservationID x = id) && bool_decide (HolderID x = org)
                                     then x <| ReservationStateOf := next |> else x) <$> reservations m |>)
  end.

(** ** Routes *)

(** [Server.handleComputeOfferPublish] and [Server.publishComputeOffer]. *)
Definition handleComputeOfferPublish (org newID : string) (input : publish_request) (m : market) : result (market * Offer) :=
  let machineID := TrimSpace (PubMachine input) in
  _ ← require (negb (bool_decide (machineID = ""))) "an offer must name a registered machine";
  _ ← require (negb (bool_decide (Visibility (PubPolicy input) = VisibilityPublic) && negb tradingEnabled)) "public offers require compute trading";
  match machines m !! (org, machineID) with
  | None => Err "the machine is not registered in this organization"
  | Some row =>
      _ ← require (negb (bool_decide (RowStatus row = "disabled"))) "a disabled machine cannot offer resources";
      offer ← Offer_Validate ToLower ToUpper
        {| OfferID := newID; OwnerID := org; OfferMachine := machineID; MachineName := RowName row; AgentURL := RowURL row;
           Exposed := PubExposed input; Committed := nothing; OfferPricing := PubPricing input; OfferGeography := PubGeography input;
           Terms := PubPolicy input;
           OfferAvailability := {| OfferStatus := if decide (PubStatus input = "") then OfferAvailable else PubStatus input;
                                   WindowFrom := PubFrom input; WindowTo := PubTo input; LastSeenAt := RowSeen row |};
           Trust := PubTrust input; IdentityVerified := false; Capabilities := RowCapabilities row; Latency := PubLatency input |};
      '(m, stored) ← UpsertComputeOffer offer m;
      Ok (m, Offer_Normalize (RowOffer stored))
  end.

(** [Server.applyCheckpointToRequest] on the size. *)
Definition state_bytes (input : reserve_request) : Z :=
  match ResCheckpoint input with
  | Some (_, plain) => if (ResStateBytes input =? 0) && (0 <? plain) then plain else ResStateBytes input
  | None => ResStateBytes input
  end.

(** The check of [Server.createComputeReservation]. *)
Definition approve_reservation (placement : Request) (t : clocks) (row : Offer) (live : list Reservation) (target : Reservation) : result Reservation :=
  let offer := (Offer_Normalize row) <| Committed := CommittedFrom live (route_now t) |> in
  p ← Place computeScheduler (place_now t) placement [offer];
  match Candidates p with
  | [] => Err (match Rejected p with x :: _ => RejectionCode x | [] => "the offer cannot satisfy this reservation" end)
  | c :: _ => Ok (target <| HeldMachine := CandidateMachine c |> <| HeldHourlyMicros := HourlyMicros c |> <| HeldCurrency := CandidateCurrency c |>)
  end.

(** [Server.handleComputeReservationCreate]. *)
Definition handleComputeReservationCreate (org newID : string) (input : reserve_request) (t : clocks) (m : market) : result (market * Reservation) :=
  let offerID := TrimSpace (ResOffer input) in
  _ ← require (negb (bool_decide (offerID = ""))) "a reservation must name the offer it holds";
  _ ← require ((0 <=? ResDurationSeconds input) && (0 <=? ResTTLSeconds input)) "reservation duration and ttl cannot be negative";
  let asked := int64 (ResTTLSeconds input * second_ns) in
  let ttl := if asked <=? 0 then reservationTTL else asked in
  _ ← require (ttl <=? maxComputeReservationTTL) "a reservation may hold capacity for at most 24h";
  let placement := {| Requester := org; SourceMachine := ResSource input; SourceGeography := ResGeography input; Requirements := ResRequested input;
                      StateBytes := state_bytes input; Duration := int64 (ResDurationSeconds input * second_ns); Wanted := ResConstraints input;
                      ReqWeights := None; Limit := 0; ReqManifest := fst <$> ResCheckpoint input |} in
  reservation ← Reservation_Validate
    {| ReservationID := newID; HeldOffer := offerID; HolderID := org; HeldMachine := ""; Requested := ResRequested input;
       ReservationStateOf := ReservationPending; HeldHourlyMicros := 0; HeldCurrency := ""; ExpiresAt := route_now t + ttl |};
  CreateComputeReservation reservation (approve_reservation placement t) (database_now t) m.

(** [Server.handleComputeReservationState]. *)
Definition handleComputeReservationState (org id : string) (next : ReservationState) (m : market) : result market :=
  UpdateComputeReservationState org id next (λ current, CanTransitionReservation current next) m.

(** [Server.schedulableOffers] and [Server.computeInventory]. *)
Definition visible (org : string) (row : offer_row) : bool :=
  let o := RowOffer row in
  bool_decide (WithdrawnAt row = None) && negb (bool_decide (OfferStatus (OfferAvailability o) = "withdrawn")) &&
  (bool_decide (OwnerID o = org) ||
   bool_decide (Visibility (Terms o) = VisibilityOrganization) && bool_decide (org ∈ AllowedOrganizations (Terms o)) ||
   tradingEnabled && bool_decide (Visibility (Terms o) = VisibilityPublic)).
Definition schedulableOffers (org : string) (now : Z) (m : market) : market * list Offer :=
  let m := ExpireComputeReservations now m in
  (m, (λ row, (Offer_Normalize (RowOffer row)) <| Committed := CommittedFrom (LiveComputeReservations m (OfferID (RowOffer row)) now) now |>)
        <$> filter (λ row, visible org row = true) (snd <$> map_to_list (offers m))).

(** [Server.handleComputePlacement]. *)
Definition handleComputePlacement (placement : Request) (t : clocks) (m : market) : market * result Placement :=
  let '(m, offers) := schedulableOffers (Requester placement) (route_now t) m in
  (m, Place computeScheduler (place_now t) placement offers).

(** ** Lives of the market *)

Inductive market_op :=
| Heartbeat (org machine name url : string) (caps : option MachineCapabilities) (status : string) (now : Z)
| Publish (org newID : string) (input : publish_request)
| WithdrawOffer (org id : string) (now : Z)
| PlaceRequest (placement : Request) (t : clocks)
| Reserve (org newID : string) (input : reserve_request) (t : clocks)
| MoveReservation (org id : string) (next : ReservationState).

Definition keep_on {A} (m : market) (r : result A) (f : A → market) : market := match r with Ok a => f a | Err _ => m end.

(** A request that fails changes nothing. *)
Definition market_step (m : market) (op : market_op) : market :=
  match op with
  | Heartbeat org machine name url caps status now => keep_on m (UpdateMachineHeartbeat org machine name url caps status now m) id
  | Publish org newID input => keep_on m (handleComputeOfferPublish org newID input m) fst
  | WithdrawOffer org id now => keep_on m (WithdrawComputeOffer org id now m) (λ m, m)
  | PlaceRequest placement t => fst (handleComputePlacement placement t m)
  | Reserve org newID input t => keep_on m (handleComputeReservationCreate org newID input t m) fst
  | MoveReservation org id next => keep_on m (handleComputeReservationState org id next m) (λ m, m)
  end.
End market.
