(* ===== verification/MarketSafe.v ===== *)
(** * Capacity is never promised twice

    The reservations that hold capacity of an offer never exceed what the
    offer exposed, in memory, storage and number of GPUs of each vendor, over
    any sequence of requests.  CPUs and bandwidth are doubles, of which the
    same does not hold: a run shows bandwidth that is promised twice because a
    small reservation is lost in the sum.  Another one shows a device that is
    promised twice.  No report of a machine keeps its offers present. *)
From Stdlib Require Import Ascii.
From S2P Require Import Prelude Float64 GoStr Model Version Compatibility CompatibilitySafe Placement PlacementSafe Market.

Local Open Scope string_scope.
Local Open Scope list_scope.
Local Open Scope Z_scope.

Section market.
Context (ToLower ToUpper : string → string) (EqualFold : string → string → bool)
        (Quote : string → string) (environment : string) (file : string → result Policy)
        (tradingEnabled : bool) (reservationTTL : Z).
Context (fold_refl : ∀ a, EqualFold a a = true) (fold_sym : ∀ a b, EqualFold a b = EqualFold b a)
        (fold_trans : ∀ a b c, EqualFold a b = true → EqualFold a c = EqualFold b c).

(** ** Counting GPUs *)

Definition gpu_count (v : string) (l : list GPUDevice) : nat := length (filter (λ g, EqualFold (Vendor g) v = true) l).
Definition of_vendor (v : string) (g : GPUDevice) : nat := if EqualFold (Vendor g) v then 1 else 0.

Lemma gpu_count_cons v g l : gpu_count v (g :: l) = (of_vendor v g + gpu_count v l)%nat.
Proof. unfold gpu_count, of_vendor. rewrite filter_cons. case_decide as H; [by rewrite H|]. by apply not_true_is_false in H as ->. Qed.

Lemma gpu_count_app v l k : gpu_count v (l ++ k) = (gpu_count v l + gpu_count v k)%nat.
Proof. unfold gpu_count. by rewrite filter_app, length_app. Qed.

Lemma gpu_count_delete v i l g : l !! i = Some g → gpu_count v l = (of_vendor v g + gpu_count v (delete i l))%nat.
Proof.
  intros H. rewrite <- (take_drop_middle l i g H) at 1. rewrite delete_take_drop, !gpu_count_app, gpu_count_cons. lia.
Qed.

Lemma index_of_spec f l :
  match index_of f l with Some i => ∃ g, l !! i = Some g ∧ f g = true | None => ∀ g, g ∈ l → f g = false end.
Proof.
  induction l as [|x l IH]; cbn; [by intros g ?%elem_of_nil|]. destruct (f x) eqn:Hx; [by exists x|].
  destruct (index_of f l) as [i|]; cbn; [done|]. intros g [->|Hg]%elem_of_cons; auto.
Qed.

Lemma indexOfGPU_spec pool d :
  match indexOfGPU EqualFold pool d with
  | Some i => ∃ g, pool !! i = Some g ∧ EqualFold (Vendor g) (Vendor d) = true
  | None => ∀ g, g ∈ pool → EqualFold (Vendor g) (Vendor d) = false
  end.
Proof.
  unfold indexOfGPU. pose proof (index_of_spec (λ g, EqualFold (Vendor g) (Vendor d) && EqualFold (GPUModel g) (GPUModel d)) pool) as H.
  destruct (index_of _ pool) as [i|]; [|apply index_of_spec]. destruct H as (g & ? & [? _]%andb_true_iff). by exists g.
Qed.

Lemma same_vendor v g d : EqualFold (Vendor g) (Vendor d) = true → of_vendor v g = of_vendor v d.
Proof. intros H. unfold of_vendor. by rewrite (fold_trans _ _ v H). Qed.

Lemma none_of_vendor v d l : (∀ g, g ∈ l → EqualFold (Vendor g) (Vendor d) = false) → EqualFold (Vendor d) v = true → gpu_count v l = 0%nat.
Proof.
  intros H Hd. unfold gpu_count. apply length_zero_iff_nil. destruct (filter _ l) as [|g k] eqn:E; [done|exfalso].
  assert (g ∈ filter (λ g, EqualFold (Vendor g) v = true) l) as [Hg Hin]%list_elem_of_filter by (rewrite E; by left).
  specialize (H g Hin). rewrite fold_sym in Hg.
  pose proof (fold_trans v (Vendor g) (Vendor d) Hg) as H2. rewrite H, fold_sym, Hd in H2. done.
Qed.

Lemma remaining_count v used pool : gpu_count v (remainingGPUs EqualFold pool used) = (gpu_count v pool - gpu_count v used)%nat.
Proof.
  revert pool. induction used as [|d used IH]; intros pool; cbn [remainingGPUs]; [unfold gpu_count; cbn; lia|]. rewrite IH, gpu_count_cons.
  pose proof (indexOfGPU_spec pool d) as H. destruct (indexOfGPU EqualFold pool d) as [i|].
  - destruct H as (g & Hg & Hv). pose proof (gpu_count_delete v i pool g Hg). rewrite (same_vendor v g d Hv) in *. lia.
  - unfold of_vendor. destruct (EqualFold (Vendor d) v) eqn:Hv; [|lia]. rewrite (none_of_vendor v d pool H Hv). lia.
Qed.

Lemma MatchGPU_elem required pool g : MatchGPU EqualFold required pool = Some g → g ∈ pool ∧ EqualFold (Vendor g) (Vendor required) = true.
Proof.
  unfold MatchGPU. cbv zeta. intros H. assert (g ∈ filter (λ g, serves EqualFold required g = true) pool) as [Hs Hin]%list_elem_of_filter.
  { destruct (List.find _ _) as [x|] eqn:Hf; [injection H as ->; apply find_some in Hf as [Hf _]; by apply list_elem_of_In|].
    destruct (filter _ pool) as [|x l]; [done|]. injection H as ->. by left. }
  split; [done|]. unfold serves in Hs. by apply andb_true_iff in Hs as [[? _]%andb_true_iff _].
Qed.

Lemma elem_counted v g l : g ∈ l → (of_vendor v g ≤ gpu_count v l)%nat.
Proof. intros [i Hi]%list_elem_of_lookup. rewrite (gpu_count_delete v i l g Hi). lia. Qed.

Lemma match_gpus_count v required pool : match_gpus EqualFold required pool = None → (gpu_count v required ≤ gpu_count v pool)%nat.
Proof.
  revert pool. induction required as [|g required IH]; intros pool H; [unfold gpu_count; cbn; lia|]. cbn [match_gpus] in H.
  destruct (MatchGPU EqualFold g pool) as [found|] eqn:Hm; [|done]. destruct (_ && _); [done|]. specialize (IH _ H).
  apply MatchGPU_elem in Hm as [Hin Hv]. rewrite remaining_count, gpu_count_cons in IH. change (gpu_count v []) with 0%nat in IH.
  rewrite gpu_count_cons, <- (same_vendor v _ _ Hv). pose proof (elem_counted v found pool Hin). lia.
Qed.

(** ** Quantities *)

(** What is counted of resources: the quantities that are integers. *)
Inductive kind := KMemory | KStorage | KGpus (vendor : string).
Definition amount (k : kind) (r : Resources) : Z :=
  match k with
  | KMemory => Memory r
  | KStorage => Storage r
  | KGpus v => Z.of_nat (gpu_count v (Gpus r))
  end.
Definition sensible (r : Resources) : Prop := ∀ k, 0 ≤ amount k r.

Lemma sensible_intro r : 0 ≤ Memory r → 0 ≤ Storage r → sensible r.
Proof. intros ? ? [| |v]; cbn; [done|done|lia]. Qed.

(** Free capacity leaves room beside what is committed. *)
Lemma fits_beside k (o : Offer) need :
  0 < amount k need →
  (0 < Memory need → Memory need ≤ Memory (Offer_Available EqualFold o)) →
  (0 < Storage need → Storage need ≤ Storage (Offer_Available EqualFold o)) →
  match_gpus EqualFold (Gpus need) (Gpus (Offer_Available EqualFold o)) = None →
  amount k (Committed o) + amount k need ≤ amount k (Exposed o).
Proof.
  assert (∀ total used q, 0 < q → q ≤ subtractBytes total used → used + q ≤ total) as Hz.
  { intros total used q Hp. unfold subtractBytes. destruct (Z.leb_spec total used); lia. }
  unfold Offer_Available, Subtract. cbn [Cpus Memory Storage Mbps Gpus]. intros Hpos H2 H3 H5.
  destruct k as [| |v]; cbn [amount] in *; [apply Hz; auto..|].
  apply (match_gpus_count v) in H5. rewrite remaining_count in H5. lia.
Qed.

(** ** Sums over reservations *)

Fixpoint total (k : kind) (l : list Reservation) : Z :=
  match l with [] => 0 | r :: l => (amount k (Requested r) + total k l) end.

Lemma total_app k l l' : (total k (l ++ l') = total k l + total k l').
Proof. induction l as [|r l IH]; cbn [total app]; lia. Qed.

Lemma total_nonneg k l : Forall (λ r, sensible (Requested r)) l → (0 ≤ total k l).
Proof. induction 1 as [|r l Hr _ IH]; cbn [total]; [lia|]. specialize (Hr k). lia. Qed.

(** A smaller selection. *)
Lemma total_filter k (P P' : Reservation → Prop) `{!∀ r, Decision (P r)} `{!∀ r, Decision (P' r)} l :
  Forall (λ r, sensible (Requested r)) l → (∀ r, r ∈ l → P r → P' r) → (total k (filter P l) ≤ total k (filter P' l)).
Proof.
  intros Hs. induction Hs as [|r l Hr Hs IH]; intros HP; [cbn; lia|]. specialize (Hr k).
  assert (total k (filter P l) ≤ total k (filter P' l)) as Hl by (apply IH; intros; apply HP; [by right|done]).
  rewrite !filter_cons. destruct (decide (P r)) as [p|p].
  - rewrite decide_True by (apply HP; [by left|done]). cbn [total]. lia.
  - destruct (decide (P' r)); cbn [total]; lia.
Qed.

Lemma total_bound k l q : 0 ≤ q → Forall (λ r, amount k (Requested r) ≤ q) l → total k l ≤ Z.of_nat (length l) * q.
Proof. intros Hq. induction 1 as [|r l Hr _ IH]; cbn [total length]; lia. Qed.

(** What [CommittedFrom] adds up, when it does not wrap around. *)
Definition small (q : Z) : Prop := q < 2 ^ 64.

Lemma add_held_amount k acc r rest rest' :
  sensible acc → sensible (Requested r) → 0 ≤ rest → 0 ≤ rest' →
  small (amount KMemory acc + (amount KMemory (Requested r) + rest)) → small (amount KStorage acc + (amount KStorage (Requested r) + rest')) →
  amount k (add_held acc r) = amount k acc + amount k (Requested r).
Proof.
  unfold small. intros Ha Hr ? ? Hm Hs. pose proof (Ha KMemory). pose proof (Ha KStorage). pose proof (Hr KMemory). pose proof (Hr KStorage).
  destruct k as [| |v]; cbn [amount add_held Cpus Memory Storage Mbps Gpus] in *; [apply uint64_id; lia..|].
  rewrite gpu_count_app. lia.
Qed.

Lemma held_total l acc :
  sensible acc → Forall (λ r, sensible (Requested r)) l →
  small (amount KMemory acc + total KMemory l) → small (amount KStorage acc + total KStorage l) →
  ∀ k, (amount k (foldl add_held acc l) = amount k acc + total k l).
Proof.
  intros Ha Hl. revert acc Ha. induction Hl as [|r l Hr Hl IH]; intros acc Ha Hm Hs k; cbn [foldl total]; [lia|].
  cbn [total] in Hm, Hs. pose proof (total_nonneg KMemory l Hl) as H1. pose proof (total_nonneg KStorage l Hl) as H2.
  assert (∀ k, (amount k (add_held acc r) = amount k acc + amount k (Requested r))) as Hadd by (intros k'; by apply (add_held_amount k' acc r (total KMemory l) (total KStorage l))).
  rewrite IH; [rewrite Hadd; lia|..].
  - intros k'. rewrite Hadd. specialize (Ha k'). specialize (Hr k'). lia.
  - unfold small in *. rewrite Hadd. lia.
  - unfold small in *. rewrite Hadd. lia.
Qed.

(** ** The invariant *)

Definition held (x : string) (t : Z) (l : list Reservation) : list Reservation :=
  filter (λ r, HeldOffer r = x ∧ holds_capacity t r = true) l.

Lemma holds_spec t r : holds_capacity t r = true ↔ Terminal (ReservationStateOf r) = false ∧ t < ExpiresAt r.
Proof.
  unfold holds_capacity, Reservation_Expired. destruct (Terminal _); cbn; [split; [done|by intros []]|].
  rewrite negb_true_iff, Z.leb_gt. tauto.
Qed.

Lemma held_sensible x t l : Forall (λ r, sensible (Requested r)) l → Forall (λ r, sensible (Requested r)) (held x t l).
Proof. rewrite !Forall_forall. intros H r [_ ?]%list_elem_of_filter. auto. Qed.

(** [r'] holds no more than [r]. *)
Definition weaker (r r' : Reservation) : Prop :=
  ReservationID r' = ReservationID r ∧ HeldOffer r' = HeldOffer r ∧ Requested r' = Requested r ∧
  ∀ t, holds_capacity t r' = true → holds_capacity t r = true.

Lemma total_weaker k x t l l' :
  Forall2 weaker l l' → Forall (λ r, sensible (Requested r)) l → (total k (held x t l') ≤ total k (held x t l)).
Proof.
  induction 1 as [|r r' l l' (_ & Ho & Hr & Hh) _ IH]; intros Hs; [cbn; lia|]. apply Forall_cons in Hs as [Hs1 Hs]. specialize (Hs1 k). specialize (IH Hs).
  unfold held in *. rewrite !filter_cons. destruct (decide (HeldOffer r' = x ∧ _)) as [[H1 H2]|_].
  - rewrite decide_True by (split; [congruence|auto]). cbn [total]. rewrite Hr. lia.
  - case_decide; cbn [total]; lia.
Qed.

Section offer.
Context (x : string) (E : Resources) (T : Z).

Record within (n : nat) (l : list Reservation) : Prop := {
  w_sensible : Forall (λ r, sensible (Requested r)) l;
  w_each : Forall (λ r, HeldOffer r = x → ∀ k, (amount k (Requested r) ≤ amount k E)) l;
  w_count : (length l ≤ n)%nat;
  w_ids : NoDup (ReservationID <$> l);
  w_total : ∀ k t, T ≤ t → (total k (held x t l) ≤ amount k E);
}.

Lemma within_weaker n l l' : within n l → Forall2 weaker l l' → within n l'.
Proof.
  intros [Hs He Hc Hi Ht] Hw. split.
  - clear -Hs Hw. induction Hw as [|r r' l l' (_ & _ & Hr & _)]; [done|]. apply Forall_cons in Hs as [? ?]. constructor; [by rewrite Hr|auto].
  - clear -He Hw. induction Hw as [|r r' l l' (_ & Ho & Hr & _)]; [done|]. apply Forall_cons in He as [? ?]. constructor; [by rewrite Ho, Hr|auto].
  - by rewrite <- (Forall2_length _ _ _ Hw).
  - replace (ReservationID <$> l') with (ReservationID <$> l); [done|]. clear -Hw. induction Hw as [|r r' l l' (Hid & _)]; [done|]. cbn. by rewrite Hid, IHHw.
  - intros k t Hle. etrans; [by apply total_weaker|]. by apply Ht.
Qed.

Lemma weaker_refl r : weaker r r.
Proof. done. Qed.

Lemma expire_weaker P now l : Forall2 weaker l (expire_when P now <$> l).
Proof.
  induction l as [|r l IH]; constructor; [|done]. unfold expire_when. destruct (_ && _); [|apply weaker_refl]. repeat split. intros t. rewrite holds_spec. by intros [? _].
Qed.

Lemma move_weaker (p : Reservation → bool) next l :
  (∀ r, r ∈ l → p r = true → CanTransitionReservation (ReservationStateOf r) next = true) →
  Forall2 weaker l ((λ r, if p r then r <| ReservationStateOf := next |> else r) <$> l).
Proof.
  intros H. apply Forall2_fmap_r, Forall_Forall2_diag, Forall_forall. intros r Hr. specialize (H r Hr). cbn. destruct (p r); [|apply weaker_refl]. specialize (H eq_refl).
  repeat split. intros t. rewrite !holds_spec. cbn. intros [Ht ?]. split; [|done]. by destruct (ReservationStateOf r), next.
Qed.

Lemma within_app n l r :
  within n l → sensible (Requested r) → ReservationID r ∉ ReservationID <$> l → sensible E →
  (HeldOffer r = x → ∀ k, (0 < amount k (Requested r)) → (amount k (Requested r) ≤ amount k E) ∧
     ∀ t, T ≤ t → (total k (held x t l) + amount k (Requested r) ≤ amount k E)) →
  within (S n) (l ++ [r]).
Proof.
  intros [Hs He Hc Hi Ht] Hr Hid HE Hnew. split.
  - by apply Forall_app; split; [|constructor].
  - apply Forall_app. split; [done|]. constructor; [|done]. intros Hx k. specialize (Hr k).
    destruct (Z_lt_le_dec 0 (amount k (Requested r))) as [Hp|Hp]; [by apply Hnew|]. specialize (HE k). lia.
  - rewrite length_app. cbn. lia.
  - rewrite fmap_app. apply NoDup_app. split_and!; [done| |apply NoDup_singleton]. intros y Hy ->%list_elem_of_singleton. done.
  - intros k t Hle. unfold held. rewrite filter_app, total_app. fold (held x t l). specialize (Ht k t Hle). rewrite filter_cons, filter_nil.
    case_decide as Hh; cbn [total]; [|lia]. destruct Hh as [Hx _]. specialize (Hr k).
    destruct (Z_lt_le_dec 0 (amount k (Requested r))) as [Hp|Hp]; [|lia]. destruct (Hnew Hx k Hp) as [_ Hb]. specialize (Hb t Hle). lia.
Qed.

(** What is committed of the offer is what is held on it. *)
Lemma committed_total n l now :
  within n l → small (Z.of_nat n * amount KMemory E) → small (Z.of_nat n * amount KStorage E) → sensible E →
  ∀ k, (amount k (CommittedFrom (filter (λ r, HeldOffer r = x ∧ Terminal (ReservationStateOf r) = false) l) now) = total k (held x now l)).
Proof.
  intros [Hs He Hc _ _] Hm Hst HE k. unfold CommittedFrom.
  replace (filter _ (filter _ l)) with (held x now l).
  2: { unfold held. rewrite list_filter_filter. apply list_filter_iff. intros r. rewrite holds_spec. tauto. }
  assert (Forall (λ r, sensible (Requested r)) (held x now l)) as Hsh by (by apply held_sensible).
  assert (∀ k, total k (held x now l) ≤ Z.of_nat n * amount k E) as Hb.
  { intros k'. etrans; [apply (total_bound k' _ (amount k' E)); [apply HE|]|].
    - apply Forall_forall. intros r [[Hx _] Hin]%list_elem_of_filter. rewrite Forall_forall in He. by apply He.
    - apply Z.mul_le_mono_nonneg_r; [apply HE|]. pose proof (length_filter (λ r, HeldOffer r = x ∧ holds_capacity now r = true) l). unfold held. lia. }
  assert (∀ k, amount k nothing = 0) as H0 by (intros [| |v]; reflexivity).
  rewrite held_total; [rewrite H0; lia| |done|..].
  - intros k'. rewrite H0. lia.
  - unfold small in *. rewrite H0. specialize (Hb KMemory). lia.
  - unfold small in *. rewrite H0. specialize (Hb KStorage). lia.
Qed.

Lemma granted_target placement t row live target r :
  approve_reservation ToLower ToUpper EqualFold Quote environment file tradingEnabled placement t row live target = Ok r →
  ReservationID r = ReservationID target ∧ HeldOffer r = HeldOffer target ∧ Requested r = Requested target.
Proof. unfold approve_reservation. intros H. apply bind_ok in H as (p & _ & H). destruct (Candidates p); [done|]. apply Ok_inj in H as <-. done. Qed.

(** A reservation that is granted fits beside what is held. *)
Lemma granted_fits n l placement (t : clocks) row target r :
  route_now t ≤ T → within n l → Requirements placement = Requested target → sensible E → (∀ k, (amount k (Exposed row) ≤ amount k E)) →
  small (Z.of_nat n * amount KMemory E) → small (Z.of_nat n * amount KStorage E) →
  approve_reservation ToLower ToUpper EqualFold Quote environment file tradingEnabled placement t row
    (filter (λ r, HeldOffer r = x ∧ Terminal (ReservationStateOf r) = false) l) target = Ok r →
  ∀ k, (0 < amount k (Requested r)) → (amount k (Requested r) ≤ amount k E) ∧
     ∀ u, T ≤ u → (total k (held x u l) + amount k (Requested r) ≤ amount k E).
Proof.
  intros Hnow Hw Hreq HE Hexp Hm Hst H. pose proof (committed_total n l (route_now t) Hw Hm Hst HE) as Hcom. destruct Hw as [Hs _ _ _ _].
  destruct (granted_target _ _ _ _ _ _ H) as (_ & _ & ->). unfold approve_reservation in H. apply bind_ok in H as (p & Hp & H).
  destruct (Candidates p) as [|c rest] eqn:Hcand; [done|]. clear H. intros k Hpos.
  destruct (Place_feasible _ _ _ _ _ _ _ _ _ _ _ c Hp) as (req & o & Hnorm & Ho & _ & Hf); [rewrite Hcand; by left|].
  destruct (normalize_keeps _ _ _ _ Hnorm) as (Hneed & _).
  apply list_elem_of_singleton in Ho as ->. rewrite Hreq in Hneed. destruct Hf. rewrite Hneed in *.
  match type of Hcom with ∀ k, (amount k ?c = _) => set (com := c) in * end.
  assert (amount k com + amount k (Requested target) ≤ amount k (Exposed row)) as Hfit.
  { change (amount k com) with (amount k (Committed (Offer_Normalize ToLower ToUpper ((Offer_Normalize ToLower ToUpper row) <| Committed := com |>)))).
    change (Exposed row) with (Exposed (Offer_Normalize ToLower ToUpper ((Offer_Normalize ToLower ToUpper row) <| Committed := com |>))).
    apply (fits_beside k (Offer_Normalize ToLower ToUpper ((Offer_Normalize ToLower ToUpper row) <| Committed := com |>)) (Requested target)); auto. }
  specialize (Hexp k). specialize (Hcom k). assert (0 ≤ total k (held x (route_now t) l)) as Hnn by (by apply total_nonneg, held_sensible).
  split; [lia|]. intros u Hu. assert (total k (held x u l) ≤ total k (held x (route_now t) l)); [|lia].
  apply total_filter; [done|]. intros y _. rewrite !holds_spec. intros (? & ? & ?). split_and!; [done|done|lia].
Qed.

(** ** Steps *)

#[local] Abbreviation step := (market_step ToLower ToUpper EqualFold Quote environment file tradingEnabled reservationTTL).

(** Bytes are unsigned, and [T] is no earlier than the clock of the route. *)
Definition proper (op : market_op) : Prop :=
  match op with Reserve _ _ input t => route_now t ≤ T ∧ 0 ≤ Memory (ResRequested input) ∧ 0 ≤ Storage (ResRequested input) | _ => True end.
(** What the offer exposes now. *)
Definition exposes (m : market) : Prop :=
  ∀ key row, offer_by_id m x = Some (key, row) → ∀ k, (amount k (Exposed (RowOffer row)) ≤ amount k E).

Lemma exposes_when m : match offer_by_id m x with Some (_, row) => Exposed (RowOffer row) = E | None => True end → exposes m.
Proof. intros H key row Hr k. rewrite Hr in H. rewrite H. done. Qed.

Lemma within_more n l : within n l → within (S n) l.
Proof. intros []. split; [done|done|lia|done|done]. Qed.

Lemma within_kept n l l' : within n l → Forall2 weaker l l' → within (S n) l'.
Proof. intros. by eapply within_more, within_weaker. Qed.

Lemma publish_keeps org newID input m m' o :
  handleComputeOfferPublish ToLower ToUpper tradingEnabled org newID input m = Ok (m', o) → reservations m' = reservations m.
Proof.
  unfold handleComputeOfferPublish. intros H. inv_ok. destruct (machines m !! _); [|done]. inv_ok.
  unfold UpsertComputeOffer in *. repeat case_match; simplify_eq; done.
Qed.

Lemma move_within n m m' org id next :
  within n (reservations m) → handleComputeReservationState org id next m = Ok m' → within (S n) (reservations m').
Proof.
  unfold handleComputeReservationState, UpdateComputeReservationState. intros Hw H. destruct (List.find _ _) as [r|] eqn:Hf; [|done].
  apply bind_ok in H as ([] & Hal & H). apply Ok_inj in H as <-. apply require_ok in Hal. cbn [reservations].
  eapply within_kept; [done|]. apply move_weaker. intros y Hy Hp. apply find_some in Hf as [Hr Hfr]. to_prop.
  assert (y = r) as ->; [|done]. apply (NoDup_fmap_elem_inj ReservationID (reservations m)); [by apply w_ids in Hw|done|by apply list_elem_of_In|congruence].
Qed.

Lemma reserve_within n m m' org newID input t r :
  within n (reservations m) → proper (Reserve org newID input t) → sensible E → exposes m →
  small (Z.of_nat n * amount KMemory E) → small (Z.of_nat n * amount KStorage E) →
  handleComputeReservationCreate ToLower ToUpper EqualFold Quote environment file tradingEnabled reservationTTL org newID input t m = Ok (m', r) →
  within (S n) (reservations m').
Proof.
  intros Hw (Hnow & Hmem & Hsto) HE Hexp Hm Hst H. unfold handleComputeReservationCreate in H. cbv zeta in H.
  apply bind_ok in H as (_ & _ & H). apply bind_ok in H as (_ & _ & H). apply bind_ok in H as (_ & _ & H).
  apply bind_ok in H as (target & Htar & H). unfold CreateComputeReservation in H.
  destruct (offer_by_id m _) as [[key row]|] eqn:Hrow; [|done]. case_decide; [done|].
  apply bind_ok in H as (granted & Hg & H). apply bind_ok in H as (? & Hnew & H). apply Ok_inj in H. injection H as <- <-. cbn [reservations].
  apply require_ok in Hnew.
  destruct (granted_target _ _ _ _ _ _ Hg) as (Hid & Hho & Hrq).
  assert (Requested target = ResRequested input) as Htr.
  { unfold Reservation_Validate in Htar. inv_ok. subst target. done. }
  apply within_app; [eapply within_weaker; [done|apply expire_weaker]| | |done|].
  - rewrite Hrq, Htr. by apply sensible_intro.
  - rewrite list_elem_of_fmap. intros (y & Hy & Hin). rewrite forallb_forall in Hnew. apply list_elem_of_In in Hin. specialize (Hnew y Hin). to_prop. done.
  - intros Hx. rewrite Hho in Hx. rewrite Hx in *. eapply granted_fits; [done|eapply within_weaker; [done|apply expire_weaker]|..|done]; [by rewrite Htr|done| |done|done].
    by eapply Hexp.
Qed.

Lemma step_within n m op :
  within n (reservations m) → proper op → sensible E → exposes m →
  small (Z.of_nat n * amount KMemory E) → small (Z.of_nat n * amount KStorage E) →
  within (S n) (reservations (step m op)).
Proof.
  intros Hw Hp HE Hexp Hm Hst. destruct op as [org machine name url caps status now|org newID input|org id now|placement t|org newID input t|org id next];
    cbn [market_step]; unfold keep_on.
  - unfold UpdateMachineHeartbeat. destruct (machines m !! _); by apply within_more.
  - destruct (handleComputeOfferPublish _ _ _ _ _ _ _) as [[m' o]|e] eqn:H; [apply publish_keeps in H; cbn [fst]; rewrite H|]; by apply within_more.
  - unfold WithdrawComputeOffer. destruct (offer_by_id m id) as [[]|]; [case_decide|]; by apply within_more.
  - unfold handleComputePlacement, schedulableOffers. cbn. eapply within_kept; [done|]. apply expire_weaker.
  - destruct (handleComputeReservationCreate _ _ _ _ _ _ _ _ _ _ _ _ _) as [[m' r]|e] eqn:H; [by eapply reserve_within|by apply within_more].
  - destruct (handleComputeReservationState _ _ _ _) as [m'|e] eqn:H; [by eapply move_within|by apply within_more].
Qed.

(** What the offer exposes at any time. *)
Fixpoint ever_exposes (m : market) (ops : list market_op) : Prop :=
  exposes m ∧ match ops with [] => True | op :: ops => ever_exposes (step m op) ops end.

Lemma run_within ops n m :
  within n (reservations m) → Forall proper ops → sensible E → ever_exposes m ops →
  small (Z.of_nat (n + length ops) * amount KMemory E) → small (Z.of_nat (n + length ops) * amount KStorage E) →
  within (n + length ops) (reservations (foldl step m ops)).
Proof.
  intros Hw Hp HE. revert n m Hw. induction Hp as [|op ops Hp _ IH]; intros n m Hw [Hx Hr] Hm Hst; cbn [foldl length] in *; [by rewrite Nat.add_0_r|].
  rewrite Nat.add_succ_r, <- Nat.add_succ_l in *.
  assert (∀ k, small (Z.of_nat (S n + length ops) * amount k E) → small (Z.of_nat n * amount k E)) as Hle.
  { intros k Hk. unfold small in *. eapply Z.le_lt_trans; [|exact Hk]. apply Z.mul_le_mono_nonneg_r; [apply HE|lia]. }
  apply IH; [apply step_within; auto|done|done|done].
Qed.
End offer.

(** C13.  Memory, storage and GPUs are not promised twice.  Start without
    reservations and run any sequence of heartbeats, publications,
    withdrawals, placements, reservations and changes of their state, and take
    an offer and a bound of the memory, the storage and the number of GPUs of
    every vendor that it ever exposed.  At any time from the latest clock of a
    route on, the reservations that hold capacity of the offer add up to no
    more than the bound, provided that the bound, taken once for every request
    of the sequence, is less than 2^64 bytes. *)
Theorem no_overcommit x E T ops m :
  reservations m = [] → sensible E → Forall (proper T) ops → ever_exposes x E m ops →
  small (Z.of_nat (length ops) * amount KMemory E) → small (Z.of_nat (length ops) * amount KStorage E) →
  ∀ k t, T ≤ t →
    (total k (held x t (reservations (foldl (market_step ToLower ToUpper EqualFold Quote environment file tradingEnabled reservationTTL) m ops)))
     ≤ amount k E).
Proof.
  intros H0 HE Hp Hx Hm Hst. apply (w_total _ _ _ (0 + length ops)), run_within; try done.
  rewrite H0. split; [done|done|cbn; lia|apply NoDup_nil_2|]. intros k t _. apply HE.
Qed.

(** ** Presence *)

Definition publishes (op : market_op) : bool := match op with Publish _ _ _ => true | _ => false end.

(** A request that is not a publication leaves the name and the presence of
    every offer as they are. *)
Definition same_presence (row row' : offer_row) : Prop :=
  OfferID (RowOffer row') = OfferID (RowOffer row) ∧ LastSeenAt (OfferAvailability (RowOffer row')) = LastSeenAt (OfferAvailability (RowOffer row)).

Lemma step_presence op m key row' :
  publishes op = false →
  offers (market_step ToLower ToUpper EqualFold Quote environment file tradingEnabled reservationTTL m op) !! key = Some row' →
  ∃ row, offers m !! key = Some row ∧ same_presence row row'.
Proof.
  intros Hop. destruct op as [org machine name url caps status now|org newID input|org id now|placement t|org newID input t|org id next];
    cbn [market_step]; unfold keep_on; [|done|..].
  - unfold UpdateMachineHeartbeat. destruct (machines m !! _); intros H; by exists row'.
  - unfold WithdrawComputeOffer. destruct (offer_by_id m id) as [[k row]|] eqn:Hr; [case_decide|]; [|intros H'; by exists row'..].
    cbn. intros [[<- <-]|[_ H']]%lookup_insert_Some; [|by exists row']. exists row. split; [|done].
    apply find_some in Hr as [Hr _]. by apply list_elem_of_In, elem_of_map_to_list in Hr.
  - intros H. by exists row'.
  - destruct (handleComputeReservationCreate _ _ _ _ _ _ _ _ _ _ _ _ _) as [[m' r]|e] eqn:Hc; intros H; exists row'; [|done]. split; [|done].
    unfold handleComputeReservationCreate in Hc. cbv zeta in Hc. do 4 apply bind_ok in Hc as (? & _ & Hc). unfold CreateComputeReservation in Hc.
    destruct (offer_by_id m _) as [[? ?]|]; [|done]. case_decide; [done|]. do 2 apply bind_ok in Hc as (? & _ & Hc). apply Ok_inj in Hc. by injection Hc as <- _.
  - unfold handleComputeReservationState, UpdateComputeReservationState. destruct (List.find _ _); [|intros H; by exists row'].
    destruct (require _ _); intros H; by exists row'.
Qed.

Lemma life_presence ops m key row' :
  Forall (λ op, publishes op = false) ops →
  offers (foldl (market_step ToLower ToUpper EqualFold Quote environment file tradingEnabled reservationTTL) m ops) !! key = Some row' →
  ∃ row, offers m !! key = Some row ∧ same_presence row row'.
Proof.
  intros H. revert m. induction H as [|op ops Hop _ IH]; intros m Hl; [by exists row'|]. cbn [foldl] in Hl.
  destruct (IH _ Hl) as (mid & Hmid & ? & ?). destruct (step_presence _ _ _ _ Hop Hmid) as (row & Hrow & ? & ?). exists row.
  split; [done|]. split; congruence.
Qed.

Lemma normalized_seen o : LastSeenAt (OfferAvailability (Offer_Normalize ToLower ToUpper o)) = LastSeenAt (OfferAvailability o).
Proof. unfold Offer_Normalize. cbn. by case_decide. Qed.

(** C37.  Only a publication keeps an offer present.  Run any sequence of
    requests without a publication (heartbeats of every machine included).
    Every candidate of a placement afterwards is an offer that was there
    before the sequence, and the presence that it had then, when it was
    published, is at most two minutes old at the placement: an offer that was
    published longer ago is no candidate, whatever its machine reported. *)
Theorem offer_goes_stale ops m placement t p c :
  Forall (λ op, publishes op = false) ops →
  snd (handleComputePlacement ToLower ToUpper EqualFold Quote environment file tradingEnabled placement t
         (foldl (market_step ToLower ToUpper EqualFold Quote environment file tradingEnabled reservationTTL) m ops)) = Ok p →
  c ∈ Candidates p →
  ∃ key row seen, offers m !! key = Some row ∧ CandidateOffer c = TrimSpace (TrimSpace (OfferID (RowOffer row))) ∧
    LastSeenAt (OfferAvailability (RowOffer row)) = Some seen ∧ place_now t ≤ seen + 120 * second_ns.
Proof.
  intros Hops Hp Hc. unfold handleComputePlacement, schedulableOffers in Hp. cbn [snd] in Hp.
  destruct (Place_feasible _ _ _ _ _ _ _ _ _ _ _ c Hp Hc) as (r & o & _ & Ho & Hid & Hf).
  destruct (f_seen _ _ _ _ _ _ _ _ _ _ Hf) as (seen & Hs & Hle). rewrite normalized_seen in Hs.
  apply list_elem_of_fmap in Ho as (row' & -> & [_ Hrow]%list_elem_of_filter). apply list_elem_of_fmap in Hrow as ([key row''] & -> & Hrow).
  apply elem_of_map_to_list in Hrow. change (offers (ExpireComputeReservations (route_now t) ?m)) with (offers m) in Hrow.
  destruct (life_presence _ _ _ _ Hops Hrow) as (row & Hm & Hsame & Hseen).
  assert (LastSeenAt (OfferAvailability (Offer_Normalize ToLower ToUpper (RowOffer row''))) = Some seen) as Hs' by exact Hs. rewrite normalized_seen in Hs'.
  exists key, row, seen. split_and!; [done|by rewrite <- Hsame|congruence|].
  assert (StaleAfter (computeScheduler tradingEnabled) = 120 * second_ns) as Hst by done. lia.
Qed.
End market.

(** ** A run *)

Module Example.
Import Sample.
Definition publish : publish_request :=
  {| PubMachine := "m1"; PubExposed := exposed; PubPricing := free; PubGeography := nowhere; PubPolicy := private; PubTrust := "organization";
     PubStatus := ""; PubFrom := None; PubTo := None; PubLatency := [] |}.
Definition holding (r : Resources) : reserve_request :=
  {| ResOffer := "offer"; ResSource := ""; ResGeography := nowhere; ResRequested := r; ResStateBytes := 0; ResDurationSeconds := 3600;
     ResConstraints := any; ResTTLSeconds := 600; ResCheckpoint := None |}.
Definition at_ (t : Z) : clocks := {| route_now := t * second_ns; place_now := t * second_ns; database_now := t * second_ns |}.
Definition registered : market :=
  {| machines := {[ ("org", "m1") := {| RowName := "m1"; RowURL := ""; RowCapabilities := machine "6.8.0-45-generic"; RowStatus := "online"; RowSeen := Some 0 |} ]};
     offers := ∅; reservations := [] |}.
Definition step : market → market_op → market := market_step id id String.eqb id EmptyString no_file false (900 * second_ns).
Definition run : list market_op → market := foldl step registered.

(** The second reservation is refused, the third is granted once the first
    one was released. *)
Definition day : list market_op :=
  [Publish "org" "offer" publish; Reserve "org" "r1" (holding (needs 6 (10 * gib) [device (40 * gib)])) (at_ 10);
   Reserve "org" "r2" (holding (needs 4 gib [])) (at_ 20); MoveReservation "org" "r1" ReservationReleased;
   Reserve "org" "r3" (holding (needs 4 gib [])) (at_ 30)].
Definition beat (t : Z) : market_op := Heartbeat "org" "m1" "" "" None "online" (t * second_ns).
End Example.

Lemma no_overcommit_witness :
  (ReservationID <$> held "offer" (30 * second_ns) (reservations (foldl Example.step Example.registered Example.day))) = ["r3"] ∧
  (total String.eqb KMemory (held "offer" (30 * second_ns) (reservations (foldl Example.step Example.registered Example.day)))
   ≤ amount String.eqb KMemory Sample.exposed).
Proof.
  split; [vm_compute; reflexivity|].
  assert (∀ a b c : string, String.eqb a b = true → String.eqb a c = String.eqb b c) as Ht by (intros a b c ->%String.eqb_eq; reflexivity).
  unfold Example.step.
  apply (no_overcommit id id String.eqb id EmptyString Sample.no_file false (900 * second_ns) String.eqb_sym Ht
    "offer" Sample.exposed (30 * second_ns) Example.day Example.registered).
  - reflexivity.
  - apply sensible_intro; vm_compute; discriminate.
  - repeat constructor; vm_compute; discriminate.
  - unfold Example.day. cbn [ever_exposes]. repeat (split; [apply exposes_when; vm_compute; first [reflexivity|exact I]|]). exact I.
  - vm_compute. reflexivity.
  - vm_compute. reflexivity.
  - reflexivity.
Defined.

(** A minute after its publication the offer is a candidate, and three minutes
    after it nothing is, although the machine has reported a second ago. *)
Lemma offer_goes_stale_witness :
  let m := Example.run [Publish "org" "offer" Example.publish] in
  let late := foldl Example.step m [Example.beat 60; Example.beat 179] in
  match snd (handleComputePlacement id id String.eqb id EmptyString Sample.no_file false (Sample.ask None) (Example.at_ 180) late) with
  | Ok p => Candidates p = []
  | Err _ => False
  end ∧
  match snd (handleComputePlacement id id String.eqb id EmptyString Sample.no_file false (Sample.ask None) (Example.at_ 61)
               (foldl Example.step m [Example.beat 60])) with
  | Ok p => match Candidates p with
            | c :: _ => ∃ key row seen, offers m !! key = Some row ∧ CandidateOffer c = TrimSpace (TrimSpace (OfferID (RowOffer row))) ∧
                LastSeenAt (OfferAvailability (RowOffer row)) = Some seen ∧ 61 * second_ns ≤ seen + 120 * second_ns
            | [] => False
            end
  | Err _ => False
  end.
Proof.
  cbv zeta. split; [vm_compute; reflexivity|]. destruct (snd _) as [p|e] eqn:H; [|revert H; vm_compute; discriminate].
  destruct (Candidates p) as [|c l] eqn:Hc; [exfalso; revert H Hc; vm_compute; intros H; injection H as <-; discriminate|].
  apply (offer_goes_stale id id String.eqb id EmptyString Sample.no_file false (900 * second_ns) [Example.beat 60]
    (Example.run [Publish "org" "offer" Example.publish]) (Sample.ask None) (Example.at_ 61) p c); [repeat constructor|exact H|rewrite Hc; left].
Defined.

(** Devices are told apart by vendor and model only.  Of two
    exposed devices of one model, one of them large enough for the
    requirement, two reservations are granted that each require the large one:
    what is subtracted for the first is the small device. *)
Theorem gpu_granted_twice :
  let big := Sample.device (80 * Sample.gib) in
  let m := Example.run [Publish "org" "offer" Example.publish; Reserve "org" "r1" (Example.holding (Sample.needs 1 0 [big])) (Example.at_ 10);
                        Reserve "org" "r2" (Example.holding (Sample.needs 1 0 [big])) (Example.at_ 20)] in
  ((λ r, (ReservationID r, Gpus (Requested r))) <$> held "offer" (30 * second_ns) (reservations m)) = [("r1", [big]); ("r2", [big])] ∧
  filter (λ g, serves String.eqb big g = true) (Gpus Sample.exposed) = [big].
Proof. vm_compute. done. Qed.

(** ** Bandwidth lost in a sum *)

(** Of 2^53 + 2 Mbps that are exposed, one reservation holds 2^53 and three
    more hold one each: the sum of the first two is 2^53 again, so that two
    Mbps are free however many single ones are held. *)
Theorem bandwidth_absorbed :
  let mbps n := {| Cpus := 0%F; Memory := 0; Storage := 0; Mbps := of_Z n; Gpus := [] |} in
  let publish := {| PubMachine := "m1"; PubExposed := mbps (2 ^ 53 + 2); PubPricing := Sample.free; PubGeography := Sample.nowhere;
                    PubPolicy := Sample.private; PubTrust := "organization"; PubStatus := ""; PubFrom := None; PubTo := None; PubLatency := [] |} in
  let m := Example.run [Publish "org" "offer" publish; Reserve "org" "r1" (Example.holding (mbps (2 ^ 53))) (Example.at_ 10);
                        Reserve "org" "r2" (Example.holding (mbps 1)) (Example.at_ 20); Reserve "org" "r3" (Example.holding (mbps 1)) (Example.at_ 20);
                        Reserve "org" "r4" (Example.holding (mbps 1)) (Example.at_ 20)] in
  ((λ r, to_int64 (Mbps (Requested r))) <$> held "offer" (30 * second_ns) (reservations m)) = [2 ^ 53; 1; 1; 1] ∧
  (to_int64 ∘ Mbps ∘ Exposed ∘ RowOffer ∘ snd) <$> map_to_list (offers m) = [2 ^ 53 + 2].
Proof. vm_compute. done. Qed.
